(* ===== verification/_CoqProject ===== *)
-Q . S2P
Prelude.v
Bytes.v
Keys.v
Account.v
Token.v
TokenProps.v
TokenRegistry.v
Merkle.v
Trie.v
TrieTree.v
TrieRefine.v
TrieTheorems.v
TrieProofs.v
TrieGc.v
TrieGenerational.v
TrieExamples.v
Transaction.v
TransactionProps.v
Parallel.v
Authority.v
TrieState.v
Nft.v
NftProps.v
Emission.v
Staking.v
StakingProps.v
StakingTheorems.v
StakingSets.v
StakingFlow.v
Epoch.v
Slashing.v
SlashingProps.v
BftMessages.v
Block.v
Chain.v
Queries.v
StateExport.v
Storage.v
Wire.v
RateLimit.v
Lifecycle.v
Evm.v
EvmProps.v
EvmLogs.v
MempoolProps.v
SignGuard.v
BftEngine.v
BftProps.v
BftTheorems.v
BftSafety.v
BftTiming.v
BftDriver.v
BftScenarios.v
Justify.v
Executor.v
ChainTrie.v
ChainTrieProps.v
LoadChain.v
Network.v
ExecutorProps.v
NetworkProps.v
ExecutorValue.v
ExecutorHazards.v
Preflight.v
TokenOps.v
ValidatorLoop.v
ValidatorProps.v
NodeTasks.v
EvmExec.v
Genesis.v
Rpc.v
RpcEth.v
RpcSentrix.v
RpcProps.v
Subscriptions.v
StateCommands.v
ExecutorExamples.v
LoadExamples.v
RpcExamples.v
NetExamples.v
