(* ===== verification/Prelude.v ===== *)
(** * Sentrix: the state machine of a layer-1 chain

    Sentrix is a Rust node for a proof-of-stake chain with BFT finality, native
    tokens and an EVM.  This library models the code that decides what the
    chain's state is and which blocks enter it, and proves the properties that
    make that code correct.  Paths below are under src/crates unless they start
    with bin.

    ** The program

    - [AccountDB] (sentrix-primitives/src/account.rs) holds balances, nonces,
      contract code and storage, and the set of addresses a block touched.
    - The stake registry (sentrix-staking/src/staking.rs) holds validators,
      delegations, the unbonding queue and accrued rewards, and computes the
      active set.  The epoch manager (epoch.rs) rotates it; the slashing engine
      (slashing.rs and slashing/) watches who signs and slashes, jails or
      tombstones through the registry.
    - The BFT engine (sentrix-bft/src/engine.rs and engine/) turns proposals,
      votes, round statuses and timeouts into actions that the validator loop
      (bin/sentrix/src/main.rs) carries out.  Messages (messages.rs) are signed
      through a guard against double signing (last_sign_guard.rs); a finalised
      block carries a justification (sentrix-primitives/src/justification.rs).
    - Transactions wait in the mempool (sentrix-core/src/mempool.rs), are put in
      a block (block_producer.rs) and executed by the block executor
      (block_executor.rs): Pass 1 checks header, justification and transactions,
      Pass 2 applies them and rolls back on failure.  Pass 2 dispatches to token
      contracts (vm.rs), NFT collections (sentrix-nft), staking and the EVM
      (block_executor/evm.rs and sentrix-evm).
    - After each block the changed state is written to a sparse Merkle trie
      (sentrix-trie, sentrix-core/src/blockchain_trie_ops.rs) whose root enters
      the block hash; old versions are pruned.
    - The chain answers queries (chain_queries.rs), exports and imports
      snapshots (state_export.rs), activates forks (blockchain_activations.rs)
      and raises an alarm when it diverges from its peers (divergence.rs).
    - Blocks and a blob of the remaining state are kept on disk
      (sentrix-storage) and loaded when the node starts
      (sentrix-core/src/storage.rs).
    - Nodes exchange transactions, blocks and consensus messages
      (sentrix-wire, sentrix-network): a swarm task verifies what arrives,
      forwards votes to the validator loop and synchronises the chain in
      batches, behind per-address connection limits (sentrix-network/src/node.rs).
    - Fork heights come from the environment (fork_heights.rs) and the first
      state from a genesis file (genesis.rs, blockchain.rs).

    ** The files

    Shared: [Prelude] (machine integers, errors, the state-and-error monad,
    record update, sums, hash-map order, tactics and hints), [Bytes] (byte
    strings, prefix-free encodings, hashes), [Keys] (ordered keys, separated
    text).

    State: [Account]; [Token] (vm.rs) with [TokenProps] and [TokenRegistry];
    [TokenOps] (token_ops.rs);
    [Nft] (sentrix-nft and sentrix-core/src/nft.rs) with [NftProps]; [Staking]
    with [StakingProps], [StakingTheorems], [StakingSets], [StakingFlow];
    [Epoch]; [Slashing] with [SlashingProps]; [Authority] (authority.rs,
    address.rs); [Emission] (tokenomics.rs).

    Trie: [Trie] (tree.rs, node.rs, proof.rs, cache.rs, storage.rs), [TrieTree]
    and [TrieRefine] (the tree a root stands for and the simulation of the
    operations), [TrieTheorems], [TrieProofs] (Merkle proofs), [TrieGc] and
    [TrieGenerational] (integrity walks and both collectors), [TrieState]
    (address.rs: keys and values of the state), [ChainTrie] with
    [ChainTrieProps] (what a block writes, restarts, and instances),
    [TrieExamples].

    Consensus: [BftMessages], [SignGuard], [BftEngine] with [BftProps],
    [BftTheorems], [BftSafety], [BftTiming], [BftScenarios], [BftDriver] (the
    timeouts of the validator loop), [Justify] (the gate on received blocks).

    Node: [ValidatorLoop] (the Voyager half of the validator loop) with
    [ValidatorProps] (what it writes, and how certified blocks are lost),
    [NodeTasks] (the other tasks of bin/sentrix/src/main.rs).

    Blocks: [Transaction] with [TransactionProps], [Merkle], [Block], [Chain]
    (the state record, window accessors, mempool, block production),
    [MempoolProps], [Executor] with [ExecutorProps], [ExecutorValue],
    [ExecutorHazards], [Preflight] (validate.rs), [ExecutorExamples],
    [Parallel] (parallel/), [Queries], [StateExport], [Lifecycle].

    EVM: [Evm] (database.rs, executor.rs, writeback.rs, gas.rs), [EvmProps],
    [EvmLogs] (logs.rs, receipts.rs), [EvmExec] (block_executor/evm.rs);
    instances in [ExecutorExamples].

    Disk: [Storage] (sentrix-storage/src/chain.rs,
    sentrix-core/src/blockchain_storage_io.rs), [LoadChain]
    (sentrix-core/src/storage.rs), [LoadExamples]; [StateCommands]
    (block_executor/fingerprint.rs and bin/sentrix/src/commands/state.rs).

    Network: [Wire] (sentrix-wire, sentrix-codec: requests, responses, frames,
    validator adverts), [RateLimit] (connection limits and bans), [Network]
    (libp2p_node.rs, behaviour.rs: the swarm task) with [NetworkProps];
    [NetExamples] (instances of the network and of the validator loop).

    RPC: [Rpc] (sentrix-rpc-types, jsonrpc/helpers.rs), [RpcEth]
    (jsonrpc/eth.rs), [RpcSentrix] (jsonrpc/sentrix.rs, net.rs, web3.rs, mod.rs),
    [RpcProps] (what the methods guarantee, and where they fall short),
    [Subscriptions] (events.rs, ws/mod.rs), [RpcExamples].

    Start: [Genesis] (fork_heights.rs, genesis.rs, the constructors of
    blockchain.rs).

    ** How the code is modelled

    A [&mut self] method is a function on the state record of the same name; one
    that returns [SentrixResult] is a term of the monad [st], which keeps the
    state on errors too, because the Rust code does not undo what it wrote
    before an early return.  Integers are [Z] with the source's checked,
    saturating or wrapping operation written out; a plain [+] wraps, as in the
    release profile.  A [HashMap] is a [gmap]; where code iterates over one, the
    order is the parameter [HashOrder], any enumeration of the entries, so a
    theorem holds for every order.  A [BTreeMap] is iterated in key order.  The
    clock is an argument.  Error messages are kept; where a message ends in
    advice to the operator, it is kept up to that advice.

    Third-party code is a class with the documented laws the proofs use in a
    class of its own: [Crypto] and [TxCrypto] (secp256k1, Keccak), [Sha256],
    [Blake3], [Hex], [HexDecode], [Json] (serde), [PartitionPoint] (VecDeque),
    [Revm] (the EVM interpreter, envelope decoding), [Bincode] (the wire
    encoding), [Alloy] (signed envelopes), [Serde] (requests).  Each is instantiated by
    concrete functions where a theorem is applied to an input.  [ChainOps] is the
    interface of the executor to the NFT registry, the EVM and the trie;
    [ChainTrie.chain_ops] implements it.  Files on disk are the state they hold,
    and a write takes a flag that says whether the disk accepted it; MDBX tables
    are maps.  The environment is a function from names to values.  The swarm is
    a state machine whose steps are the events libp2p delivers; what it sends is
    a list of outputs.

    ** What is proved

    - Accounts: when a transfer succeeds and its exact effect; rejected transfers
      leave no trace; balances and nonces stay in [u64]; the touch set is complete.
    - Staking: totals match delegations along every sequence of operations;
      slashing takes the stated rate within one unit per delegation; a
      distribution pays at most the reward, unless the weights that a
      justification claims wrap around; the active set is the top 21 by
      stake for every hash order; what an epoch transition does; the trimmed
      liveness window gives the verdict of the whole history.
    - Consensus: one vote per round; a finalised block carries a supermajority;
      two finalisations in one round expose a third of the stake; the locking
      rule; every round ends in bounded time; no double signing across crashes
      and restarts unless a write failed or the digests collide; a signing payload determines its
      message.  A run with one faulty proposer shows that releasing a stale lock
      can fork the chain.
    - Node: however its steps interleave with blocks from peers, a step of the
      validator loop leaves the chain alone or hands the executor the block of a
      certificate, and accounts for it as a receiver does; how a certified block is lost to a stray proposal, to a
      failed trial of the next block, or to the disk; the sequence numbers of
      adverts increase across restarts; when the fork alarm is on.
    - Blocks: an accepted block extends the chain by itself; what a block does to
      the money in circulation and to the burn counter, epoch payments, slashes
      and treasury overrides included; an unsigned downtime bundle stops block
      production between two forks; a plain block that passes Pass 1 executes; a failed block
      leaves the state as it was unless the window is full; the read-only check
      agrees with Pass 1; which blocks an honest proposer cannot commit; the
      mempool keeps the nonces of a sender contiguous.
    - Tokens and NFTs: operations refine an abstract ledger and keep their
      invariants; losing a token needs the authority of its owner; the search for
      a free address ends.
    - Trie: the operations refine a finite map; the root depends on the map and
      not on its history; committed versions survive restarts and pruning;
      membership proofs are sound, absence proofs are not; equal block roots mean
      equal balances of the accounts a block touched, and equal nonces where the
      balance is not zero.
    - EVM: the next transaction sees what the last one wrote, deployed code
      included; the supply moves by
      what the interpreter did, rounded down by less than a sentri per account;
      an account stored under another spelling of its address is minted twice;
      a failed transaction can be included and charged again; the bloom filter
      misses no log and log keys sort canonically.
    - Disk: a saved chain is read back; the transaction index is complete after a
      backfill; loading a chain whose blocks are ahead of its state blob moves the
      checkpoint instead of replaying the blocks.  Fingerprints do not depend on
      hash-map order and locate a difference; an import is refused or takes effect
      whole, and leaves the trie without the imported accounts.
    - Network: every vote the task forwards was signed by the key of its
      validator; the peer tables stay consistent along every run; a batch of
      blocks is applied as far as it is valid; the connections per address are
      bounded; the vote a proposal embeds is not checked; two adverts of one
      validator can be replayed as two conflicting votes.
    - RPC: a request changes nothing but the mempool; account reads answer for the
      tip only; a log query finds exactly the matching logs; receipts by
      transaction and by block agree; a signed envelope is executed and shown as
      signed, unless its value wraps; a transaction in the name of any account is
      accepted with an envelope of somebody else.  Subscriptions: identifiers are
      never reused and tables stay bounded; a subscription selects the logs the same
      filter finds in a query; a block is announced before it is accepted.
    - Start: the genesis state holds exactly the premine, and every chain grown
      from it keeps the chain's invariants.
    - Queries and snapshots: pages are slices of the full history; importing an
      export restores what it covers; conflict-free schedules are serial; the
      divergence alarm is raised exactly when it is due.

    ** Fuel and bounds

    [catch_up_loop] has as many steps as rounds to catch up, which is when the
    source's loop stops.  [action_loop] and the loops of [ValidatorLoop] handle
    three actions, the longest chain an event can start ([poll_fuel] and
    [actions_fuel] show that more change nothing).  The search
    for a free contract address has one step more than there are contracts.
    Walks of the trie have 257 steps, one more than the depth, and collecting the
    live nodes has one step per stored node.  All other recursion is structural.

    ** What is not modelled

    Log lines, metrics, events and the statistics that are floating point;
    panics of slicing in a log line; file formats, fsync and locking; failures of
    MDBX and the LRU cache of the trie; the EVM interpreter; libp2p itself (dialling,
    Kademlia, gossipsub, Noise); the sharing of trie tables between the chain and the
    copy a proposal is tried on; the REST, gRPC, explorer, wallet, faucet
    and command-line layers, which are I/O and presentation; start-up and
    shutdown. *)

From stdpp Require Export gmap strings list sorting pretty.
From Stdlib Require Export ZArith Lia.

#[global] Open Scope Z_scope.

(** ** Machine integers

    A w-bit unsigned integer of the source is a [Z].  Each operation below is
    the Rust operation of the same name, parameterised by the largest value of
    the width.  The release profile has no [overflow-checks], so a plain [+] or
    [*] (and [Iterator::sum]) wraps. *)

Definition U16_MAX : Z := 65535.
Definition U32_MAX : Z := 4294967295.
Definition U64_MAX : Z := 18446744073709551615.
Definition U128_MAX : Z := 340282366920938463463374607431768211455.

Definition in_range (M x : Z) : Prop := 0 ≤ x ≤ M.
Abbreviation in_u16 := (in_range U16_MAX).
Abbreviation in_u32 := (in_range U32_MAX).
Abbreviation in_u64 := (in_range U64_MAX).

Definition checked_add (M a b : Z) : option Z :=
  if a + b <=? M then Some (a + b) else None.
Definition checked_sub (a b : Z) : option Z :=
  if b <=? a then Some (a - b) else None.
Definition checked_mul (M a b : Z) : option Z :=
  if a * b <=? M then Some (a * b) else None.
Definition saturating_add (M a b : Z) : Z := Z.min M (a + b).
Definition saturating_sub (a b : Z) : Z := Z.max 0 (a - b).
Definition saturating_mul (M a b : Z) : Z := Z.min M (a * b).
Definition wrap (M x : Z) : Z := x mod (M + 1).
Definition wrapping_add (M a b : Z) : Z := wrap M (a + b).
(** [x as u64]: truncation of a wider unsigned integer. *)
Abbreviation as_u64 := (wrap U64_MAX).
Definition div_ceil (a b : Z) : Z :=
  if a mod b =? 0 then a / b else a / b + 1.
Definition abs_diff (a b : Z) : Z := Z.abs (a - b).
Definition is_multiple_of (a b : Z) : bool := a mod b =? 0.

Create HintDb uint.
#[export] Hint Unfold U16_MAX U32_MAX U64_MAX U128_MAX in_range checked_add
  checked_sub checked_mul saturating_add saturating_sub saturating_mul
  wrapping_add abs_diff is_multiple_of : uint.

(** [ulia]: linear arithmetic after unfolding the machine-integer layer. *)
Ltac ulia := autounfold with uint in *; try lia.

Section machine_integers.
Context (M : Z) (HM : 0 <= M).

Lemma wrap_small x : in_range M x → wrap M x = x.
Proof. intros [??]. unfold wrap. apply Z.mod_small. lia. Qed.

Lemma wrap_range x : in_range M (wrap M x).
Proof.
  unfold wrap, in_range. pose proof (Z.mod_pos_bound x (M + 1)). lia.
Qed.

Lemma checked_add_Some a b c :
  checked_add M a b = Some c ↔ c = a + b ∧ a + b <= M.
Proof.
  unfold checked_add. destruct (Z.leb_spec (a + b) M); naive_solver lia.
Qed.

Lemma checked_add_None a b : checked_add M a b = None ↔ M < a + b.
Proof. unfold checked_add. destruct (Z.leb_spec (a + b) M); naive_solver lia. Qed.

Lemma saturating_add_range a b :
  0 <= a → 0 <= b → in_range M (saturating_add M a b).
Proof. unfold saturating_add, in_range. lia. Qed.
End machine_integers.

Lemma checked_sub_Some a b c : checked_sub a b = Some c ↔ c = a - b ∧ b <= a.
Proof. unfold checked_sub. destruct (Z.leb_spec b a); naive_solver lia. Qed.

Lemma div_ceil_spec a b :
  0 < b → (div_ceil a b - 1) * b < a <= div_ceil a b * b.
Proof.
  intros Hb. unfold div_ceil.
  pose proof (Z.div_mod a b). pose proof (Z.mod_pos_bound a b).
  destruct (Z.eqb_spec (a mod b) 0); nia.
Qed.

Lemma div_ceil_nonneg a b : 0 <= a → 0 < b → 0 <= div_ceil a b.
Proof. intros. pose proof (div_ceil_spec a b). nia. Qed.

(** The two halves a fee is split into add up to the fee. *)
Lemma div_ceil_2 a : div_ceil a 2 = (a + 1) / 2.
Proof.
  unfold div_ceil. pose proof (Z.div_mod a 2). pose proof (Z.mod_pos_bound a 2).
  pose proof (Z.div_mod (a + 1) 2). pose proof (Z.mod_pos_bound (a + 1) 2).
  destruct (Z.eqb_spec (a mod 2) 0); lia.
Qed.

(** A proportional share is at most the pool it is taken from. *)
Lemma share_le pool w total :
  0 <= pool → 0 <= w <= total → 0 < total → 0 <= pool * w / total <= pool.
Proof.
  intros. split.
  - apply Z.div_pos; nia.
  - apply Z.div_le_upper_bound; nia.
Qed.

(** ** Record update

    [r <| f := v |>] is the record [r] with field [f] replaced.  A record type
    opts in with an [Eta] instance, its own eta expansion, from which the
    setter of each field is computed. *)

Class Eta (R : Type) := eta : R → R.
Class Setter {R T : Type} (f : R → T) := upd : (T → T) → R → R.
Arguments upd {R T} f {Setter} g r /.

Ltac solve_setter :=
  lazymatch goal with
  | |- @Setter ?R ?T ?f =>
      change ((T → T) → R → R);
      let g := fresh "g" in
      let r := fresh "r" in
      intros g r;
      let e := eval cbv beta delta [eta] in (eta r) in
      let e := match e with
               | ?i ?p r => let i' := eval cbv delta [i] in i in eval cbv beta in (i' p r)
               | ?i r => let i' := eval cbv delta [i] in i in eval cbv beta in (i' r)
               | _ => e
               end in
      let e := eval pattern (f r) in e in
      lazymatch e with
      | ?c (f r) => let t := eval cbv beta in (c (g (f r))) in exact t
      end
  end.
#[export] Hint Extern 1 (Setter _) => solve_setter : typeclass_instances.

Declare Scope record_scope.
Delimit Scope record_scope with rec.
#[warnings="-postfix-notation-not-level-1"]
Notation "r <| f := v |>" := (upd f (λ _, v) r)
  (at level 12, f at level 0, left associativity, only parsing) : record_scope.
#[global] Open Scope record_scope.

(** ** Errors and fallible state updates *)

(** [SentrixError] of crates/sentrix-primitives/src/error.rs. *)
Inductive SentrixError : Type :=
  | InvalidBlock (msg : string)
  | InvalidTransaction (msg : string)
  | InsufficientBalance (have need : Z)
  | InvalidNonce (expected got : Z)
  | ChainValidationFailed (msg : string)
  | BlockNotFound (msg : string)
  | TransactionNotFound (msg : string)
  | UnauthorizedValidator (msg : string)
  | NotYourTurn
  | NoActiveValidators
  | InvalidPrivateKey
  | InvalidSignature
  | KeystoreError (msg : string)
  | WrongPassword
  | StorageError (msg : string)
  | SerializationError (msg : string)
  | NetworkError (msg : string)
  | PeerNotFound (msg : string)
  | NotFound (msg : string)
  | Internal (msg : string).

#[global] Instance SentrixError_eq_dec : EqDecision SentrixError.
Proof. solve_decision. Defined.

(** The [Display] text of an error. *)
Definition error_text (e : SentrixError) : string :=
  match e with
  | InvalidBlock m => "Invalid block: " +:+ m
  | InvalidTransaction m => "Invalid transaction: " +:+ m
  | InsufficientBalance have need =>
      "Insufficient balance: have " +:+ pretty have +:+ ", need " +:+ pretty need
  | InvalidNonce expected got =>
      "Invalid nonce: expected " +:+ pretty expected +:+ ", got " +:+ pretty got
  | ChainValidationFailed m => "Chain validation failed: " +:+ m
  | BlockNotFound m => "Block not found: " +:+ m
  | TransactionNotFound m => "Transaction not found: " +:+ m
  | UnauthorizedValidator m => "Unauthorized validator: " +:+ m
  | NotYourTurn => "Not your turn to produce block"
  | NoActiveValidators => "No active validators"
  | InvalidPrivateKey => "Invalid private key"
  | InvalidSignature => "Invalid signature"
  | KeystoreError m => "Keystore error: " +:+ m
  | WrongPassword => "Wrong password"
  | StorageError m => "Storage error: " +:+ m
  | SerializationError m => "Serialization error: " +:+ m
  | NetworkError m => "Network error: " +:+ m
  | PeerNotFound m => "Peer not found: " +:+ m
  | NotFound m => "Not found: " +:+ m
  | Internal m => "Internal error: " +:+ m
  end.

Inductive result (A : Type) : Type :=
  | Ok (a : A)
  | Err (e : SentrixError).
Arguments Ok {A} a.
Arguments Err {A} e.

Definition is_ok {A} (r : result A) : bool :=
  match r with Ok _ => true | Err _ => false end.

(** A method [fn f(&mut self, ..) -> SentrixResult<A>] is a function from the
    state before the call to the state after it and the result.  The state is
    returned on the error path too: an early [return Err(..)] does not undo
    the mutations made before it. *)
Definition st (S A : Type) : Type := S → S * result A.

#[global] Instance st_ret {S} : MRet (st S) := λ A a s, (s, Ok a).
#[global] Instance st_bind {S} : MBind (st S) := λ A B f m s,
  match m s with
  | (s', Ok a) => f a s'
  | (s', Err e) => (s', Err e)
  end.

Section st_ops.
Context {S A B : Type}.
Definition gets (f : S → A) : st S A := λ s, (s, Ok (f s)).
Definition modify (f : S → S) : st S unit := λ s, (f s, Ok tt).
Definition throw (e : SentrixError) : st S A := λ s, (s, Err e).
(** [if b { return Err(e) }] *)
Definition fail_if (b : bool) (e : SentrixError) : st S unit := λ s,
  if b then (s, Err e) else (s, Ok tt).
(** [o.ok_or_else(|| e)?] *)
Definition ok_or (o : option A) (e : SentrixError) : st S A := λ s,
  match o with Some a => (s, Ok a) | None => (s, Err e) end.
(** [for a in l { f(a)? }] *)
Fixpoint for_each (f : A → st S unit) (l : list A) : st S unit :=
  match l with
  | [] => mret tt
  | a :: l => f a ;; for_each f l
  end.
Definition state_of (r : S * result A) : S := r.1.
End st_ops.

Lemma st_bind_ok {S A B} (m : st S A) (k : A → st S B) s s' b :
  (m ≫= k) s = (s', Ok b) ↔ ∃ a s1, m s = (s1, Ok a) ∧ k a s1 = (s', Ok b).
Proof.
  unfold mbind, st_bind. destruct (m s) as [s1 [a|e]]; naive_solver.
Qed.

(** Successful runs, step by step. *)
Section st_ok.
Context {S A : Type}.
Implicit Types s : S.
Lemma gets_ok (f : S → A) s s' a : gets f s = (s', Ok a) → s' = s ∧ a = f s.
Proof. by intros [= <- <-]. Qed.
Lemma modify_ok f s s' u : modify f s = (s', Ok u) → s' = f s.
Proof. by intros [= <- _]. Qed.
Lemma fail_if_ok b e s s' u : fail_if b e s = (s', Ok u) → b = false ∧ s' = s.
Proof. unfold fail_if. destruct b; [done|]. by intros [= <- _]. Qed.
Lemma ok_or_ok (o : option A) e s s' a : ok_or o e s = (s', Ok a) → o = Some a ∧ s' = s.
Proof. unfold ok_or. destruct o; [|done]. by intros [= <- <-]. Qed.
End st_ok.

(** [inv_ok H]: split the successful run [H] into its steps. *)
Ltac inv_ok H :=
  repeat (let H1 := fresh "Hs" in
    apply st_bind_ok in H; destruct H as (? & ? & H1 & H);
    first [ apply fail_if_ok in H1 as [? ->] | apply gets_ok in H1 as [-> ->]
          | apply ok_or_ok in H1 as [? ->] | apply modify_ok in H1 as -> | idtac ]);
  try apply modify_ok in H as ->.

(** An invariant each iteration keeps, on both outcomes, is kept by the loop. *)
Lemma for_each_inv {S A} (I : S → Prop) (f : A → st S unit) l s :
  (∀ a s, a ∈ l → I s → I (state_of (f a s))) → I s → I (state_of (for_each f l s)).
Proof.
  revert s. induction l as [|a l IH]; intros s Hf HI; [done|].
  pose proof (Hf a s ltac:(set_solver) HI) as Ha. simpl.
  unfold mbind, st_bind. destruct (f a s) as [s1 [[]|e]]; simpl in *; [|done].
  apply IH; [|done]. intros. apply Hf; [set_solver|done].
Qed.

(** [run_st H]: unfold the monad in [H] and split on every branch of the
    program it runs. *)
Ltac unfold_st H :=
  cbv [mbind st_bind mret st_ret gets modify throw fail_if ok_or state_of] in H.
Ltac unfold_st_goal :=
  cbv [mbind st_bind mret st_ret gets modify throw fail_if ok_or state_of].
Ltac run_st H :=
  unfold_st H; repeat (case_match; simplify_eq; simpl in *; try done).
Ltac run_st_goal :=
  unfold_st_goal; repeat (case_match; simplify_eq; simpl in *; try done).

(** Boolean comparisons of the source, as propositions. *)
Ltac bool_hyps :=
  repeat match goal with
  | H : (_ =? _)%Z = true |- _ => apply Z.eqb_eq in H
  | H : (_ =? _)%Z = false |- _ => apply Z.eqb_neq in H
  | H : (_ <? _) = true |- _ => apply Z.ltb_lt in H
  | H : (_ <? _) = false |- _ => apply Z.ltb_ge in H
  | H : (_ <=? _) = true |- _ => apply Z.leb_le in H
  | H : (_ <=? _) = false |- _ => apply Z.leb_gt in H
  | H : negb _ = true |- _ => apply negb_true_iff in H
  | H : negb _ = false |- _ => apply negb_false_iff in H
  | H : _ && _ = true |- _ => apply andb_true_iff in H as [? ?]
  | H : _ || _ = false |- _ => apply orb_false_iff in H as [? ?]
  | H : bool_decide _ = true |- _ => apply bool_decide_eq_true in H
  | H : bool_decide _ = false |- _ => apply bool_decide_eq_false in H
  | H : checked_add _ _ _ = Some _ |- _ => apply checked_add_Some in H as [-> ?]
  | H : checked_add _ _ _ = None |- _ => apply checked_add_None in H
  | H : checked_sub _ _ = Some _ |- _ => apply checked_sub_Some in H as [-> ?]
  end.

(** ** Sums over lists and maps *)

Definition sumZ (l : list Z) : Z := foldr Z.add 0 l.
Definition sum_of {A} (f : A → Z) (l : list A) : Z := sumZ (f <$> l).

Section sums.
Context {A : Type}.
Implicit Types (f g : A → Z) (l : list A).

Lemma sum_of_nil f : sum_of f [] = 0.
Proof. done. Qed.
Lemma sum_of_cons f a l : sum_of f (a :: l) = f a + sum_of f l.
Proof. done. Qed.
Lemma sum_of_app f l k : sum_of f (l ++ k) = sum_of f l + sum_of f k.
Proof.
  induction l as [|a l IH]; simpl app; [rewrite sum_of_nil; lia|].
  rewrite !sum_of_cons, IH. lia.
Qed.
#[global] Instance sum_of_perm f : Proper ((≡ₚ) ==> (=)) (sum_of f).
Proof.
  induction 1; rewrite ?sum_of_cons; try congruence; lia.
Qed.
Lemma sum_of_ext f g l : (∀ a, a ∈ l → f a = g a) → sum_of f l = sum_of g l.
Proof.
  induction l as [|a l IH]; intros H; [done|].
  rewrite !sum_of_cons, (H a), IH; [done| |]; set_solver.
Qed.
Lemma sum_of_nonneg f l : (∀ a, a ∈ l → 0 <= f a) → 0 <= sum_of f l.
Proof.
  induction l as [|a l IH]; intros H; [done|]. rewrite sum_of_cons.
  pose proof (H a ltac:(set_solver)). pose proof (IH ltac:(set_solver)). lia.
Qed.
Lemma sum_of_le f g l : (∀ a, a ∈ l → f a <= g a) → sum_of f l <= sum_of g l.
Proof.
  induction l as [|a l IH]; intros H; [done|]. rewrite !sum_of_cons.
  pose proof (H a ltac:(set_solver)). pose proof (IH ltac:(set_solver)). lia.
Qed.
Lemma sum_of_elem_le f l a :
  (∀ b, b ∈ l → 0 <= f b) → a ∈ l → f a <= sum_of f l.
Proof.
  intros Hnn (l1 & l2 & ->)%list_elem_of_split.
  rewrite sum_of_app, sum_of_cons.
  pose proof (sum_of_nonneg f l1 ltac:(set_solver)).
  pose proof (sum_of_nonneg f l2 ltac:(set_solver)). lia.
Qed.
Lemma sum_of_fmap {B} (h : B → A) f (l : list B) :
  sum_of f (h <$> l) = sum_of (λ b, f (h b)) l.
Proof. unfold sum_of. by rewrite <-list_fmap_compose. Qed.
Lemma sum_of_insert f l i x y :
  l !! i = Some x → sum_of f (<[i := y]> l) = sum_of f l - f x + f y.
Proof.
  revert i. induction l as [|a l IH]; intros [|i] Hi; simpl in *; simplify_eq.
  - rewrite !sum_of_cons. lia.
  - rewrite !sum_of_cons, (IH i) by done. lia.
Qed.
Lemma sum_of_filter f (P : A → Prop) `{∀ x, Decision (P x)} l :
  sum_of f (filter P l) = sum_of (λ x, if decide (P x) then f x else 0) l.
Proof.
  induction l as [|a l IH]; [done|]. rewrite filter_cons, sum_of_cons.
  case_decide; rewrite ?sum_of_cons, IH; lia.
Qed.
Lemma sum_of_plus f g l : sum_of (λ a, f a + g a) l = sum_of f l + sum_of g l.
Proof.
  induction l as [|a l IH]; [done|]. rewrite !sum_of_cons, IH. lia.
Qed.
Lemma sum_of_scale f c l : sum_of (λ a, c * f a) l = c * sum_of f l.
Proof.
  induction l as [|a l IH]; [rewrite !sum_of_nil; lia|].
  rewrite !sum_of_cons, IH. lia.
Qed.
Lemma sum_of_filter_split f (P : A → Prop) `{∀ x, Decision (P x)} l :
  sum_of f l = sum_of f (filter P l) + sum_of f (filter (λ x, ¬ P x) l).
Proof.
  induction l as [|a l IH]; [done|]. rewrite !filter_cons.
  destruct (decide (P a)), (decide (¬ P a)); try contradiction;
    rewrite !sum_of_cons; lia.
Qed.
End sums.

(** Walking a multimap key by key. *)
Lemma sum_of_concat_omap {K A} (f : A → Z) (look : K → option (list A)) ks :
  sum_of f (concat (omap look ks)) = sum_of (λ k, sum_of f (default [] (look k))) ks.
Proof.
  induction ks as [|k ks IH]; [done|]. rewrite sum_of_cons, <-IH. simpl.
  change (list_omap K (list A) look ks) with (omap look ks).
  destruct (look k); simpl; rewrite ?sum_of_app, ?sum_of_nil; lia.
Qed.

Lemma Forall_filter_l {A} (P Q : A → Prop) `{∀ x, Decision (Q x)} (l : list A) :
  Forall P l → Forall P (filter Q l).
Proof. rewrite !Forall_forall. intros Hl x [_ ?]%list_elem_of_filter. auto. Qed.

Definition map_sum `{Countable K} {A} (f : K → A → Z) (m : gmap K A) : Z :=
  map_fold (λ k a acc, f k a + acc) 0 m.

Section map_sums.
Context `{Countable K} {A : Type}.
Implicit Types (f g : K → A → Z) (m : gmap K A).

Lemma map_sum_list f m : map_sum f m = sum_of (λ p, f p.1 p.2) (map_to_list m).
Proof.
  unfold map_sum. rewrite map_fold_foldr. generalize (map_to_list m).
  induction l as [|[k a] l IH]; [done|]. rewrite sum_of_cons, <-IH. done.
Qed.
(** The same sum, walking a list that enumerates the keys. *)
Lemma map_sum_keys (f : A → Z) (d : A) m ks :
  ks ≡ₚ (map_to_list m).*1 →
  sum_of (λ k, f (default d (m !! k))) ks = map_sum (λ _ a, f a) m.
Proof.
  intros ->. rewrite map_sum_list, sum_of_fmap. apply sum_of_ext.
  intros [k a] Hk%elem_of_map_to_list. simpl. by rewrite Hk.
Qed.
Lemma map_sum_empty f : map_sum f ∅ = 0.
Proof. unfold map_sum. apply map_fold_empty. Qed.
Lemma map_sum_insert_None f m i x :
  m !! i = None → map_sum f (<[i:=x]> m) = f i x + map_sum f m.
Proof. intros. unfold map_sum. rewrite map_fold_insert_L; [done|lia|done]. Qed.
Lemma map_sum_delete f m i x :
  m !! i = Some x → map_sum f m = f i x + map_sum f (delete i m).
Proof.
  intros Hi. rewrite <-(insert_delete_id m i x) at 1 by done.
  apply map_sum_insert_None, lookup_delete_eq.
Qed.
Lemma map_sum_insert f m i x :
  map_sum f (<[i:=x]> m)
  = f i x + map_sum f m - default 0 (f i <$> m !! i).
Proof.
  destruct (m !! i) as [y|] eqn:Hi; simpl.
  - rewrite <-insert_delete_eq, map_sum_insert_None by apply lookup_delete_eq.
    rewrite (map_sum_delete f m i y) by done. lia.
  - rewrite map_sum_insert_None by done. lia.
Qed.
Lemma map_sum_nonneg f m : (∀ k a, m !! k = Some a → 0 <= f k a) → 0 <= map_sum f m.
Proof.
  intros Hf. rewrite map_sum_list. apply sum_of_nonneg.
  intros [k a] ?%elem_of_map_to_list. by apply Hf.
Qed.
Lemma map_sum_ext f g m :
  (∀ k a, m !! k = Some a → f k a = g k a) → map_sum f m = map_sum g m.
Proof.
  intros Hf. rewrite !map_sum_list. apply sum_of_ext.
  intros [k a] ?%elem_of_map_to_list. by apply Hf.
Qed.
Lemma map_sum_le f g m :
  (∀ k a, m !! k = Some a → f k a <= g k a) → map_sum f m <= map_sum g m.
Proof.
  intros Hf. rewrite !map_sum_list. apply sum_of_le.
  intros [k a] ?%elem_of_map_to_list. by apply Hf.
Qed.
Lemma map_sum_plus f g m : map_sum (λ k a, f k a + g k a) m = map_sum f m + map_sum g m.
Proof.
  rewrite !map_sum_list. induction (map_to_list m) as [|p l IH]; [done|].
  rewrite !sum_of_cons, IH. lia.
Qed.
Lemma map_sum_scale f c m : map_sum (λ k a, c * f k a) m = c * map_sum f m.
Proof. rewrite !map_sum_list. apply (sum_of_scale (λ p, f p.1 p.2)). Qed.
Lemma map_sum_elem_le f m i x :
  (∀ k a, m !! k = Some a → 0 <= f k a) → m !! i = Some x → f i x <= map_sum f m.
Proof.
  intros Hf Hi. rewrite (map_sum_delete f m i x) by done.
  pose proof (map_sum_nonneg f (delete i m)) as Hnn.
  enough (0 <= map_sum f (delete i m)) by lia. apply Hnn.
  intros k a [_ ?]%lookup_delete_Some. by apply Hf.
Qed.
Lemma map_sum_fmap {B} (f : K → B → Z) (h : A → B) m :
  map_sum f (h <$> m) = map_sum (λ k a, f k (h a)) m.
Proof. unfold map_sum. apply map_fold_fmap. Qed.
End map_sums.

(** ** Hash-map iteration

    [std::collections::HashMap] iterates in an order that depends on a
    per-process random seed.  Code that walks a map is modelled over an
    arbitrary instance of this class, so a theorem about it holds for every
    seed; code that sorts the keys first is proved independent of it. *)
Class HashOrder := {
  hm_entries : ∀ {K V : Type} `{Countable K}, gmap K V → list (K * V);
  hm_entries_perm : ∀ {K V : Type} `{Countable K} (m : gmap K V),
    hm_entries m ≡ₚ map_to_list m
}.

Definition hm_keys `{HashOrder} `{Countable K} {V} (m : gmap K V) : list K :=
  (hm_entries m).*1.
Definition hm_values `{HashOrder} `{Countable K} {V} (m : gmap K V) : list V :=
  (hm_entries m).*2.

(** One concrete order, for evaluating the model. *)
Definition canonical_order : HashOrder.
Proof.
  unshelve refine {| hm_entries K V _ _ m := map_to_list m |}. done.
Defined.

Section hash_order.
Context `{HashOrder} `{Countable K} {V : Type}.
Implicit Types m : gmap K V.

Lemma elem_of_hm_entries m k v : (k, v) ∈ hm_entries m ↔ m !! k = Some v.
Proof. rewrite hm_entries_perm. apply elem_of_map_to_list. Qed.
Lemma elem_of_hm_values m v : v ∈ hm_values m ↔ ∃ k, m !! k = Some v.
Proof.
  unfold hm_values. rewrite list_elem_of_fmap. split.
  - intros ([k ?] & -> & ?%elem_of_hm_entries). eauto.
  - intros [k ?]. exists (k, v). by rewrite elem_of_hm_entries.
Qed.
Lemma NoDup_hm_keys m : NoDup (hm_keys m).
Proof. unfold hm_keys. rewrite hm_entries_perm. apply NoDup_fst_map_to_list. Qed.
Lemma elem_of_hm_keys m k : k ∈ hm_keys m ↔ is_Some (m !! k).
Proof.
  unfold hm_keys. rewrite list_elem_of_fmap. split.
  - intros ([? v] & -> & ?%elem_of_hm_entries). eauto.
  - intros [v ?]. exists (k, v). by rewrite elem_of_hm_entries.
Qed.
Lemma hm_keys_perm m : hm_keys m ≡ₚ (map_to_list m).*1.
Proof. unfold hm_keys. by rewrite hm_entries_perm. Qed.
End hash_order.

(** [keys.sort()] on strings: byte-wise lexicographic order. *)
Definition sort_strings (l : list string) : list string := merge_sort String.le l.

Lemma sort_strings_perm l : sort_strings l ≡ₚ l.
Proof. apply merge_sort_Permutation. Qed.

(** Sorting forgets the order the keys were collected in. *)
Lemma sort_strings_canonical l k : l ≡ₚ k → sort_strings l = sort_strings k.
Proof.
  intros Hlk. apply (Sorted_unique String.le).
  - apply Sorted_merge_sort, _.
  - apply Sorted_merge_sort, _.
  - by rewrite !sort_strings_perm.
Qed.

(** The keys of a [BTreeMap<u64, _>], in increasing order. *)
Definition bt_keys {V} (m : gmap Z V) : list Z := merge_sort Z.le (map_to_list m).*1.

Lemma elem_of_bt_keys {V} (m : gmap Z V) k : k ∈ bt_keys m ↔ is_Some (m !! k).
Proof.
  unfold bt_keys. rewrite merge_sort_Permutation, list_elem_of_fmap. split.
  - intros ([? v] & -> & ?%elem_of_map_to_list). eauto.
  - intros [v ?]. exists (k, v). by rewrite elem_of_map_to_list.
Qed.

Lemma NoDup_bt_keys {V} (m : gmap Z V) : NoDup (bt_keys m).
Proof. unfold bt_keys. rewrite merge_sort_Permutation. apply NoDup_fst_map_to_list. Qed.

(** ** Sorting entries by key

    [entries.sort_by(|a, b| a.0.cmp(b.0))] over the entries of a map: the keys
    are distinct, so the result does not depend on the order they came in. *)
Section sort_by_key.
Context {K V : Type} (R : relation K) `{!RelDecision R, !Total R, !Transitive R, !AntiSymm (=) R}.
Implicit Types l k : list (K * V).

Definition key_le (a b : K * V) : Prop := R a.1 b.1.
#[local] Instance key_le_dec : RelDecision key_le.
Proof. intros a b. unfold key_le. apply _. Defined.
Definition sort_by_key (l : list (K * V)) : list (K * V) := merge_sort key_le l.

#[local] Instance key_le_total : Total key_le.
Proof. intros a b. apply (total R). Qed.

Lemma sort_by_key_perm l : sort_by_key l ≡ₚ l.
Proof. apply merge_sort_Permutation. Qed.

Lemma Sorted_keys l : Sorted key_le l → Sorted R l.*1.
Proof.
  induction 1 as [|a l Hl IH Hd]; simpl; constructor; [done|].
  destruct Hd; simpl; by constructor.
Qed.

Lemma keyed_unique l k :
  l ≡ₚ k → NoDup l.*1 → l.*1 = k.*1 → l = k.
Proof.
  intros Hp Hn E. apply list_eq. intros i.
  destruct (l !! i) as [[a v]|] eqn:El.
  - assert (Hk : k.*1 !! i = Some a) by (rewrite <-E, list_lookup_fmap, El; done).
    rewrite list_lookup_fmap in Hk. destruct (k !! i) as [[b w]|] eqn:Ek; simplify_eq/=.
    assert (Hw : (a, w) ∈ l) by (rewrite Hp; by eapply list_elem_of_lookup_2).
    apply list_elem_of_lookup in Hw as [j Hj].
    assert (i = j) as ->.
    { eapply NoDup_lookup; [exact Hn| |]; rewrite list_lookup_fmap; [by rewrite El|by rewrite Hj]. }
    congruence.
  - apply lookup_ge_None in El. symmetry. apply lookup_ge_None.
    by rewrite <-(length_fmap fst k), <-E, length_fmap.
Qed.

Lemma sort_by_key_canonical l k :
  l ≡ₚ k → NoDup l.*1 → sort_by_key l = sort_by_key k.
Proof.
  intros Hp Hn.
  assert (Hpp : sort_by_key l ≡ₚ sort_by_key k) by (by rewrite !sort_by_key_perm).
  apply keyed_unique; [done|by rewrite sort_by_key_perm|].
  apply (Sorted_unique R); [apply Sorted_keys, Sorted_merge_sort, _..|by rewrite Hpp].
Qed.
End sort_by_key.

(** Pairs of strings, compared component by component. *)
Definition pair_le (a b : string * string) : Prop :=
  a.1 = b.1 ∧ String.le a.2 b.2 ∨ a.1 ≠ b.1 ∧ String.le a.1 b.1.
#[global] Instance pair_le_dec : RelDecision pair_le.
Proof. intros a b. unfold pair_le. apply _. Defined.
#[global] Instance pair_le_total : Total pair_le.
Proof.
  intros [a b] [c d]. unfold pair_le; simpl. destruct (decide (a = c)) as [->|Hne].
  - destruct (total String.le b d); auto.
  - destruct (total String.le a c); [left|right]; auto.
Qed.
#[global] Instance pair_le_trans : Transitive pair_le.
Proof.
  intros [a b] [c d] [e f]. unfold pair_le; simpl.
  intros [[-> H1]|[Hn H1]] [[-> H2]|[Hn' H2]].
  - left. split; [done|by etrans].
  - right. done.
  - right. done.
  - right. assert (String.le a e) by (by etrans). split; [|done]. intros ->.
    apply Hn. by apply (anti_symm String.le).
Qed.
#[global] Instance pair_le_antisymm : AntiSymm (=) pair_le.
Proof.
  intros [a b] [c d]. unfold pair_le; simpl. intros [[-> H1]|[Hn H1]] [[? H2]|[Hn' H2]]; try done.
  - f_equal. by apply (anti_symm String.le).
  - destruct Hn. by apply (anti_symm String.le).
Qed.
