(* ===== verification/Bytes.v ===== *)
(** * Bytes, encodings and hashes

    Byte strings as the source builds them ([to_le_bytes], [to_be_bytes],
    [as_bytes]), encodings that can be read back from the front of a stream,
    and the hash function as a parameter with the law the code relies on. *)

From S2P Require Import Prelude.

(** ** Bytes *)

Abbreviation bytes := (list Z).

(** [x.to_le_bytes()] for an integer of [n] bytes. *)
Fixpoint to_le_bytes (n : nat) (x : Z) : bytes :=
  match n with
  | O => []
  | S n => x mod 256 :: to_le_bytes n (x / 256)
  end.
Definition to_be_bytes (n : nat) (x : Z) : bytes := reverse (to_le_bytes n x).
Fixpoint of_le_bytes (l : bytes) : Z :=
  match l with
  | [] => 0
  | b :: l => b + 256 * of_le_bytes l
  end.

Definition of_be_bytes (l : bytes) : Z := of_le_bytes (reverse l).

Fixpoint as_bytes (s : string) : bytes :=
  match s with
  | EmptyString => []
  | String a s => Z.of_N (Ascii.N_of_ascii a) :: as_bytes s
  end.

Lemma length_to_le_bytes n x : length (to_le_bytes n x) = n.
Proof. revert x. induction n as [|n IH]; intros x; simpl; [done|by rewrite IH]. Qed.

Lemma of_to_le_bytes n x : 0 <= x < 256 ^ Z.of_nat n → of_le_bytes (to_le_bytes n x) = x.
Proof.
  revert x. induction n as [|n IH]; intros x Hx; simpl in *; [lia|].
  assert (Hp : 256 ^ Z.of_nat (S n) = 256 * 256 ^ Z.of_nat n)
    by (rewrite Nat2Z.inj_succ, Z.pow_succ_r by lia; lia).
  rewrite IH.
  - pose proof (Z.div_mod x 256). lia.
  - split; [apply Z.div_pos; lia|]. apply Z.div_lt_upper_bound; [lia|].
    change (Z.pos (Pos.of_succ_nat n)) with (Z.of_nat (S n)) in Hx. lia.
Qed.

Lemma of_to_be_bytes n x : 0 <= x < 256 ^ Z.of_nat n → of_be_bytes (to_be_bytes n x) = x.
Proof. unfold of_be_bytes, to_be_bytes. rewrite reverse_involutive. apply of_to_le_bytes. Qed.

Lemma to_le_bytes_inj n x y :
  0 <= x < 256 ^ Z.of_nat n → 0 <= y < 256 ^ Z.of_nat n →
  to_le_bytes n x = to_le_bytes n y → x = y.
Proof. intros Hx Hy E. by rewrite <-(of_to_le_bytes n x), <-(of_to_le_bytes n y), E. Qed.

#[global] Instance as_bytes_inj : Inj (=) (=) as_bytes.
Proof.
  intros s. induction s as [|a s IH]; intros [|b t] E; simpl in E; try done.
  injection E as Ea Es. apply N2Z.inj in Ea. f_equal; [|by apply IH].
  by rewrite <-(Ascii.ascii_N_embedding a), Ea, Ascii.ascii_N_embedding.
Qed.

(** ** Text *)

(** [str::to_lowercase] on ASCII text, which addresses are. *)
Definition lower_ascii (a : Ascii.ascii) : Ascii.ascii :=
  let n := Ascii.N_of_ascii a in
  if (65 <=? n)%N && (n <=? 90)%N then Ascii.ascii_of_N (n + 32) else a.
Fixpoint to_lowercase (s : string) : string :=
  match s with
  | EmptyString => EmptyString
  | String a s => String (lower_ascii a) (to_lowercase s)
  end.

(** [str::trim_start_matches("0x")]: every leading repetition goes. *)
Fixpoint trim_0x (s : string) : string :=
  match s with
  | String a (String b r) =>
      if bool_decide (String a (String b "") = "0x") then trim_0x r else s
  | _ => s
  end.

(** ** Encodings that can be read back

    An encoding is prefix-free on a set of values when a stream that starts
    with an encoded value determines the value and the rest.  Such encodings
    compose, which is how the injectivity of a concatenated payload is shown. *)

Definition prefix_free {A} (ok : A → Prop) (enc : A → bytes) : Prop :=
  ∀ x y r r', ok x → ok y → enc x ++ r = enc y ++ r' → x = y ∧ r = r'.

Lemma prefix_free_inj {A} (ok : A → Prop) enc x y :
  prefix_free ok enc → ok x → ok y → enc x = enc y → x = y.
Proof.
  intros He Hx Hy E. apply (He x y [] []); [done..|]. by rewrite E.
Qed.

(** Values of one width. *)
Lemma prefix_free_fixed {A} (ok : A → Prop) enc n :
  (∀ x, ok x → length (enc x) = n) → (∀ x y, ok x → ok y → enc x = enc y → x = y) →
  prefix_free ok enc.
Proof.
  intros Hn Hi x y r r' Hx Hy E. apply app_inj_1 in E as [E ->]; [|by rewrite !Hn].
  split; [by apply Hi|done].
Qed.

Lemma length_to_be_bytes n x : length (to_be_bytes n x) = n.
Proof. unfold to_be_bytes. by rewrite length_reverse, length_to_le_bytes. Qed.

Lemma to_be_bytes_inj n x y :
  0 <= x < 256 ^ Z.of_nat n → 0 <= y < 256 ^ Z.of_nat n →
  to_be_bytes n x = to_be_bytes n y → x = y.
Proof. intros Hx Hy E. apply (inj reverse) in E. by eapply to_le_bytes_inj. Qed.

Lemma prefix_free_be n :
  prefix_free (λ x, 0 <= x < 256 ^ Z.of_nat n) (to_be_bytes n).
Proof.
  apply (prefix_free_fixed _ _ n); [intros; apply length_to_be_bytes|].
  intros. by eapply to_be_bytes_inj.
Qed.

Lemma prefix_free_pair {A B} (okA : A → Prop) (okB : B → Prop) encA encB :
  prefix_free okA encA → prefix_free okB encB →
  prefix_free (λ p, okA p.1 ∧ okB p.2) (λ p, encA p.1 ++ encB p.2).
Proof.
  intros HA HB [a b] [a' b'] r r' [Ha Hb] [Ha' Hb'] E. simpl in *. rewrite <-!app_assoc in E.
  apply HA in E as [-> E]; [|done..]. by apply HB in E as [-> ->].
Qed.

Lemma prefix_free_dep {A B} (okA : A → Prop) (okB : A → B → Prop) encA (encB : A → B → bytes) :
  prefix_free okA encA → (∀ a, okA a → prefix_free (okB a) (encB a)) →
  prefix_free (λ p, okA p.1 ∧ okB p.1 p.2) (λ p, encA p.1 ++ encB p.1 p.2).
Proof.
  intros HA HB [a b] [a' b'] r r' [Ha Hb] [Ha' Hb'] E. simpl in *. rewrite <-!app_assoc in E.
  apply HA in E as [-> E]; [|done..]. by apply HB in E as [-> ->].
Qed.

(** A length, then the items. *)
Definition enc_list {A} (enc : A → bytes) (l : list A) : bytes :=
  to_be_bytes 8 (Z.of_nat (length l)) ++ concat (enc <$> l).

Lemma prefix_free_list {A} (ok : A → Prop) enc :
  prefix_free ok enc →
  prefix_free (λ l, Forall ok l ∧ Z.of_nat (length l) <= U64_MAX) (enc_list enc).
Proof.
  intros He l l' r r' [Hl Hn] [Hl' Hn'] E. unfold enc_list in E. rewrite <-!app_assoc in E.
  apply (prefix_free_be 8) in E as [En E]; [|change (256 ^ Z.of_nat 8) with (U64_MAX + 1); lia..].
  apply Nat2Z.inj in En. clear Hn Hn'. revert l' Hl' En E.
  induction Hl as [|a l Ha Hl IH]; intros [|b l'] Hl' En E; try done.
  apply Forall_cons in Hl' as [Hb Hl']. simpl in E. rewrite <-!app_assoc in E.
  apply He in E as [-> E]; [|done..]. simpl in En.
  destruct (IH l' Hl' ltac:(lia) E) as [-> ->]. done.
Qed.

(** [h.update((s.len() as u64).to_be_bytes()); h.update(s.as_bytes())] *)
Definition enc_string (s : string) : bytes :=
  to_be_bytes 8 (Z.of_nat (String.length s)) ++ as_bytes s.
Definition short (s : string) : Prop := Z.of_nat (String.length s) <= U64_MAX.

Lemma length_as_bytes s : length (as_bytes s) = String.length s.
Proof. induction s as [|a s IH]; simpl; [done|by rewrite IH]. Qed.

Lemma prefix_free_string : prefix_free short enc_string.
Proof.
  intros s t r r' Hs Ht E. unfold enc_string in E. rewrite <-!app_assoc in E.
  unfold short in *.
  apply (prefix_free_be 8) in E as [En E]; [|change (256 ^ Z.of_nat 8) with (U64_MAX + 1); lia..].
  apply app_inj_1 in E as [E ->]; [|rewrite !length_as_bytes; lia].
  apply as_bytes_inj in E. done.
Qed.

Lemma string_length_app s t : String.length (s +:+ t) = (String.length s + String.length t)%nat.
Proof. induction s as [|a s IH]; simpl; [done|by rewrite IH]. Qed.
Lemma as_bytes_app s t : as_bytes (s +:+ t) = as_bytes s ++ as_bytes t.
Proof. induction s as [|a s IH]; simpl; [done|]. f_equal. apply IH. Qed.

(** A value whose text never contains the byte [c], closed by [c]. *)
Lemma prefix_free_until {A} (ok : A → Prop) (enc : A → bytes) c :
  (∀ x, ok x → c ∉ enc x) → (∀ x y, ok x → ok y → enc x = enc y → x = y) →
  prefix_free ok (λ x, enc x ++ [c]).
Proof.
  intros Hc Hi x y r r' Hx Hy. rewrite <-!app_assoc. simpl. intros E.
  enough (enc x = enc y ∧ r = r') as [??] by auto.
  specialize (Hc x Hx) as Hcx. specialize (Hc y Hy) as Hcy.
  revert Hcx Hcy E. generalize (enc x) (enc y). clear.
  intros b. induction b as [|a b IH]; intros [|a' b'] H1 H2 E; simplify_eq/=; [done|set_solver..|].
  destruct (IH b') as [-> ->]; [set_solver..|done|done].
Qed.

(** The decimal text of an integer: digits, and a sign. *)
Definition decimal_byte (b : Z) : Prop := 48 <= b <= 57 ∨ b = 45.

Lemma pretty_N_go_decimal n s :
  Forall decimal_byte (as_bytes s) → Forall decimal_byte (as_bytes (pretty_N_go n s)).
Proof.
  revert s. induction (N.lt_wf_0 n) as [n _ IH]; intros s Hs.
  destruct (decide (n = 0%N)) as [->|Hn]; [by rewrite pretty_N_go_0|].
  rewrite pretty_N_go_step by lia. apply IH; [apply N.div_lt; lia|].
  simpl. constructor; [|done].
  unfold decimal_byte, pretty_N_char. repeat case_match; simpl; lia.
Qed.
Lemma pretty_decimal (z : Z) : Forall decimal_byte (as_bytes (pretty z)).
Proof.
  assert (Hp : ∀ p : positive, Forall decimal_byte (as_bytes (pretty p))).
  { intros p. unfold pretty, pretty_positive, pretty, pretty_N.
    rewrite decide_False by done. by apply pretty_N_go_decimal. }
  destruct z as [|p|p]; [| |constructor; [by right|]]; try apply Hp.
  constructor; [by left|constructor].
Qed.

(** A number closed by a byte that is not part of a number. *)
Lemma prefix_free_decimal c :
  ¬ decimal_byte c → prefix_free (λ _ : Z, True) (λ x, as_bytes (pretty x) ++ [c]).
Proof.
  intros Hc. apply prefix_free_until.
  - intros x _ Hin. by pose proof (proj1 (Forall_forall _ _) (pretty_decimal x) c Hin).
  - intros x y _ _ E. by apply (inj pretty), (inj as_bytes).
Qed.

Lemma peel_decimal c (x y : Z) r r' :
  ¬ decimal_byte c → as_bytes (pretty x) ++ c :: r = as_bytes (pretty y) ++ c :: r' →
  x = y ∧ r = r'.
Proof. intros Hc E. apply (prefix_free_decimal c Hc); [done..|]. by rewrite <-!app_assoc. Qed.

(** ** SHA-256

    The digest as 64 hexadecimal characters, and as 32 bytes. *)
Class Sha256 := {
  sha256_hex : bytes → string;
  sha256_bytes : bytes → bytes;
}.

(** What the code relies on: the size of a digest. *)
Class Sha256Laws `{Sha256} : Prop := {
  sha256_hex_length x : String.length (sha256_hex x) = 64%nat;
  sha256_bytes_length x : length (sha256_bytes x) = 32%nat;
}.

(** No two of the inputs in [xs] collide.  (No fixed-size digest is injective
    on all inputs, so the inputs are always named.) *)
Definition collision_free {D} (h : bytes → D) (xs : list bytes) : Prop :=
  ∀ x y, x ∈ xs → y ∈ xs → h x = h y → x = y.

Lemma collision_free_sub {D} (h : bytes → D) xs ys :
  xs ⊆ ys → collision_free h ys → collision_free h xs.
Proof. intros Hs Hc x y Hx Hy. apply Hc; set_solver. Qed.

(** A test, for concrete inputs. *)
Definition collision_freeb (h : bytes → string) (xs : list bytes) : bool :=
  let hs := (λ x, (h x, x)) <$> xs in
  forallb (λ p, forallb (λ q, negb (bool_decide (p.1 = q.1)) || bool_decide (p.2 = q.2)) hs) hs.
Lemma collision_freeb_ok h xs : collision_freeb h xs = true → collision_free h xs.
Proof.
  unfold collision_freeb. rewrite forallb_forall. intros Hx x y Hin Hin' E.
  apply (list_elem_of_fmap_2 (λ x, (h x, x))) in Hin, Hin'.
  apply list_elem_of_In, Hx in Hin. rewrite forallb_forall in Hin.
  apply list_elem_of_In, Hin in Hin'. simpl in Hin'. rewrite bool_decide_eq_true_2 in Hin' by done.
  by apply bool_decide_eq_true_1 in Hin'.
Qed.

(** ** Hexadecimal text ([hex::encode]) *)
Class Hex := { hex_encode : bytes → string }.
Class HexLaws `{Hex} : Prop := {
  hex_length b : String.length (hex_encode b) = (2 * length b)%nat;
  hex_inj b c : Forall (λ x, 0 <= x < 256) b → Forall (λ x, 0 <= x < 256) c →
    hex_encode b = hex_encode c → b = c;
}.

(** ** Concrete functions, for evaluating the model *)

(** The [n] low decimal digits of [x]. *)
Fixpoint decimal_digits (n : nat) (x : Z) : string :=
  match n with
  | O => ""
  | S n => String (Ascii.ascii_of_N (Z.to_N (48 + x mod 10))) (decimal_digits n (x / 10))
  end.
(** A polynomial digest: not collision-resistant, but it tells the inputs of
    the examples apart. *)
Definition toy_digest (x : bytes) : Z :=
  fold_left (λ acc b, Z.land (acc * 257 + b + 1) 281474976710655) x 7.
Definition toy_sha : Sha256 := {|
  sha256_hex x := decimal_digits 64 (toy_digest x);
  sha256_bytes x := to_be_bytes 32 (toy_digest x);
|}.
Lemma toy_sha_laws : @Sha256Laws toy_sha.
Proof.
  assert (Hd : ∀ n x, String.length (decimal_digits n x) = n)
    by (induction n as [|n IH]; intros x; simpl; [done|by rewrite IH]).
  split; intros x; [apply Hd|apply length_to_be_bytes].
Qed.

Definition nibble (n : Z) : Ascii.ascii :=
  Ascii.ascii_of_N (Z.to_N (if n <? 10 then 48 + n else 87 + n)).
Definition toy_hex : Hex := {|
  hex_encode := foldr (λ b s, String (nibble (b / 16)) (String (nibble (b mod 16)) s)) "";
|}.
Lemma nibble_inj n m : 0 <= n < 16 → 0 <= m < 16 → nibble n = nibble m → n = m.
Proof.
  unfold nibble. intros Hn Hm E. apply (f_equal Ascii.N_of_ascii) in E.
  rewrite !Ascii.N_ascii_embedding in E by (repeat case_match; lia).
  destruct (Z.ltb_spec n 10), (Z.ltb_spec m 10); lia.
Qed.
Lemma toy_hex_laws : @HexLaws toy_hex.
Proof.
  split; simpl.
  - induction b as [|x b IH]; simpl; [done|]. rewrite IH. lia.
  - induction b as [|x b IH]; intros [|y c] Hb Hc E; try done.
    apply Forall_cons in Hb as [Hx Hb], Hc as [Hy Hc]. injection E as E1 E2 E.
    apply nibble_inj in E1; [|split; [apply Z.div_pos; lia|apply Z.div_lt_upper_bound; lia]..].
    apply nibble_inj in E2; [|by apply Z.mod_pos_bound..].
    f_equal; [|by apply IH]. pose proof (Z.div_mod x 16). pose proof (Z.div_mod y 16). lia.
Qed.
