(* ===== verification/Keys.v ===== *)
(** * Ordered keys and separated text

    The tables of the node are sorted by the bytes of their keys, and numbers in
    keys are big-endian so that the order of the keys is the order of the
    numbers.  Text keys separate their parts by a colon.  Sorting the entries of a
    hash map, or of a map of maps, forgets the order they were iterated in. *)

From S2P Require Import Prelude Bytes.

(** ** Text *)

(** [s.splitn(2, ':')] when there are two parts, [s.split_once(':')]. *)
Fixpoint split_colon (s : string) : option (string * string) :=
  match s with
  | EmptyString => None
  | String a s =>
      if bool_decide (String a "" = ":") then Some ("", s)
      else match split_colon s with Some (x, y) => Some (String a x, y) | None => None end
  end.
(** [s.strip_prefix("0x").unwrap_or(s)] *)
Definition strip_0x (s : string) : string :=
  match s with
  | String a (String b r) => if bool_decide (String a (String b "") = "0x") then r else s
  | _ => s
  end.
(** [s.strip_prefix(prefix)] *)
Fixpoint strip_prefix (prefix s : string) : option string :=
  match prefix, s with
  | EmptyString, _ => Some s
  | String a prefix, String b s => if bool_decide (a = b) then strip_prefix prefix s else None
  | String _ _, EmptyString => None
  end.

Lemma split_colon_join s x y : split_colon s = Some (x, y) → s = (x +:+ ":" +:+ y)%string.
Proof.
  revert x y. induction s as [|a s IH]; intros x y E; simpl in E; [done|].
  case_bool_decide as Ha.
  - injection E as <- <-. by injection Ha as ->.
  - destruct (split_colon s) as [[x' y']|]; [|done]. injection E as <- <-. simpl. by rewrite (IH x' y').
Qed.
Lemma strip_prefix_Some p s r : strip_prefix p s = Some r ↔ s = (p +:+ r)%string.
Proof.
  revert s. induction p as [|a p IH]; intros s; simpl; [split; [by intros [= ->]|by intros ->]|].
  destruct s as [|b s]; simpl; [by split|]. case_bool_decide as E; subst.
  - rewrite IH. split; [by intros ->|by intros [= ->]].
  - split; [done|by intros [= -> _]].
Qed.

(** Text without a colon. *)
Definition no_colon (s : string) : Prop := Ascii.ascii_of_N 58 ∉ String.list_ascii_of_string s.
Lemma split_colon_app x y : no_colon x → split_colon (x +:+ ":" +:+ y) = Some (x, y).
Proof.
  unfold no_colon. induction x as [|a x IH]; intros Hx; [done|]. simpl in Hx |- *.
  apply not_elem_of_cons in Hx as [Ha Hx]. rewrite bool_decide_false by (injection 1 as ->; done).
  by rewrite (IH Hx).
Qed.
Lemma join_inj x y x' y' :
  no_colon x → no_colon x' → (x +:+ ":" +:+ y = x' +:+ ":" +:+ y')%string → x = x' ∧ y = y'.
Proof.
  intros Hx Hx' E. pose proof (split_colon_app x y Hx) as E1. rewrite E in E1.
  rewrite (split_colon_app x' y' Hx') in E1. by injection E1 as -> ->.
Qed.

(** ** The order of byte strings *)

Fixpoint bytes_leb (a b : bytes) : bool :=
  match a, b with
  | [], _ => true
  | _ :: _, [] => false
  | x :: a, y :: b => (x <? y) || ((x =? y) && bytes_leb a b)
  end.
Definition bytes_le (a b : bytes) : Prop := bytes_leb a b = true.
#[global] Instance bytes_le_dec : RelDecision bytes_le.
Proof. intros a b. unfold bytes_le. apply _. Defined.

Lemma bytes_le_cons x y a b : bytes_le (x :: a) (y :: b) ↔ x < y ∨ x = y ∧ bytes_le a b.
Proof. unfold bytes_le. simpl. rewrite orb_true_iff, andb_true_iff, Z.ltb_lt, Z.eqb_eq. done. Qed.
Lemma bytes_le_nil b : bytes_le [] b.
Proof. done. Qed.

#[global] Instance bytes_le_total : Total bytes_le.
Proof.
  intros a. induction a as [|x a IH]; intros [|y b]; [by left|by left|by right|].
  rewrite !bytes_le_cons. destruct (IH b); destruct (Z.lt_trichotomy x y) as [|[|]]; lia || (subst; tauto).
Qed.
#[global] Instance bytes_le_refl : Reflexive bytes_le.
Proof. intros a. by destruct (total bytes_le a a). Qed.
#[global] Instance bytes_le_trans : Transitive bytes_le.
Proof.
  intros a. induction a as [|x a IH]; intros [|y b] [|z c]; try done.
  rewrite !bytes_le_cons. intros [|[-> Hab]] [|[-> Hbc]]; [left; lia..|]. right. split; [done|]. by apply (IH b).
Qed.
#[global] Instance bytes_le_antisym : AntiSymm (=) bytes_le.
Proof.
  intros a. induction a as [|x a IH]; intros [|y b]; try done.
  rewrite !bytes_le_cons. intros [|[-> Hab]] [|[E Hba]]; [lia..|]. f_equal. by apply IH.
Qed.

Lemma bytes_le_app p a b : bytes_le (p ++ a) (p ++ b) ↔ bytes_le a b.
Proof.
  induction p as [|x p IH]; [done|]. simpl. rewrite bytes_le_cons. split; [intros [|[_ ?]]; [lia|by apply IH]|].
  intros. right. split; [done|by apply IH].
Qed.

(** On keys of one length that start with a number of [n] bytes, the order is
    first by the number. *)
Lemma to_be_bytes_S n x : to_be_bytes (S n) x = to_be_bytes n (x / 256) ++ [x mod 256].
Proof. unfold to_be_bytes. simpl. by rewrite reverse_cons. Qed.

Lemma bytes_le_snoc a b x y :
  length a = length b → bytes_le (a ++ [x]) (b ++ [y]) ↔ (bytes_le a b ∧ a ≠ b) ∨ a = b ∧ x <= y.
Proof.
  revert b. induction a as [|u a IH]; intros [|v b] El; try done; simpl.
  - unfold bytes_le. simpl. rewrite orb_true_iff, andb_true_iff, Z.ltb_lt, Z.eqb_eq. naive_solver lia.
  - injection El as El. rewrite !bytes_le_cons, (IH b El).
    split; [intros [|[-> [[? ?]|[-> ?]]]]|intros [[[|[-> ?]] ?]|[? ?]]]; simplify_eq; auto with lia; try naive_solver.
    left. split; [by left|]. intros [=]. lia.
Qed.

Lemma be_order n x y :
  0 <= x < 256 ^ Z.of_nat n → 0 <= y < 256 ^ Z.of_nat n →
  bytes_le (to_be_bytes n x) (to_be_bytes n y) ↔ x <= y.
Proof.
  revert x y. induction n as [|n IH]; intros x y Hx Hy; [simpl in *; split; [lia|done]|].
  assert (Hp : 256 ^ Z.of_nat (S n) = 256 * 256 ^ Z.of_nat n)
    by (rewrite Nat2Z.inj_succ, Z.pow_succ_r by lia; lia).
  assert (Hd : ∀ z, 0 <= z < 256 ^ Z.of_nat (S n) → 0 <= z / 256 < 256 ^ Z.of_nat n).
  { intros z Hz. split; [apply Z.div_pos; lia|apply Z.div_lt_upper_bound; lia]. }
  rewrite !to_be_bytes_S, bytes_le_snoc by by rewrite !length_to_be_bytes.
  rewrite IH by auto.
  pose proof (Z.div_mod x 256). pose proof (Z.div_mod y 256).
  pose proof (Z.mod_pos_bound x 256). pose proof (Z.mod_pos_bound y 256).
  split.
  - intros [[Hle Hne]|[E Hm]].
    + assert (x / 256 ≠ y / 256) by (intros E; by rewrite E in Hne). lia.
    + apply (to_be_bytes_inj n) in E; auto. lia.
  - intros Hle. destruct (decide (x / 256 = y / 256)) as [E|Hne].
    + right. rewrite E. split; [done|]. lia.
    + left. split; [lia|]. intros E. apply (to_be_bytes_inj n) in E; auto.
Qed.

Lemma bytes_le_fields a b r s :
  length a = length b → bytes_le (a ++ r) (b ++ s) ↔ (bytes_le a b ∧ a ≠ b) ∨ a = b ∧ bytes_le r s.
Proof.
  revert b. induction a as [|u a IH]; intros [|v b] El; try done; simpl; [naive_solver|].
  injection El as El. rewrite !bytes_le_cons, (IH b El).
  split; [intros [|[-> [[? ?]|[-> ?]]]]|intros [[[|[-> ?]] ?]|[? ?]]]; simplify_eq; auto with lia; try naive_solver.
  left. split; [by left|]. intros [=]. lia.
Qed.

(** ** Loading a map *)

(** Loading a map from entries, where an entry may be skipped. *)
Definition load_map {E K V} `{Countable K} (f : E → option (K * V)) (m : gmap K V) (l : list E) : gmap K V :=
  foldl (λ m e, match f e with Some (k, v) => <[k := v]> m | None => m end) m l.

Section load_map.
Context {E K V : Type} `{Countable K} (f : E → option (K * V)).

Lemma load_map_other m l k :
  (∀ e v, e ∈ l → f e ≠ Some (k, v)) → load_map f m l !! k = m !! k.
Proof.
  unfold load_map. revert m. induction l as [|e l IH]; intros m Hl; [done|]. simpl. rewrite IH by set_solver.
  destruct (f e) as [[k' v]|] eqn:Ef; [|done]. apply lookup_insert_ne. intros ->.
  by apply (Hl e v); [set_solver|].
Qed.
Lemma load_map_at m l k e v :
  e ∈ l → f e = Some (k, v) → (∀ e' v', e' ∈ l → f e' = Some (k, v') → v' = v) →
  load_map f m l !! k = Some v.
Proof.
  unfold load_map. revert m. induction l as [|e' l IH] using rev_ind; intros m He Hf Hu; [set_solver|].
  rewrite foldl_app. simpl. destruct (f e') as [[k' v']|] eqn:Ef'.
  - destruct (decide (k' = k)) as [->|Hk].
    + rewrite lookup_insert_eq. f_equal. apply (Hu e'); [set_solver|done].
    + rewrite lookup_insert_ne by done. apply IH; [|done|set_solver].
      apply elem_of_app in He as [|He%list_elem_of_singleton]; [done|congruence].
  - apply IH; [|done|set_solver]. apply elem_of_app in He as [|He%list_elem_of_singleton]; [done|congruence].
Qed.
End load_map.

(** ** Maps of maps, flattened

    [.iter().flat_map(|(owner, m)| m.iter().map(..))]: the entries of a map of maps,
    in the order a process iterates in. *)

Lemma elem_of_concat {A} (x : A) ls : x ∈ concat ls ↔ ∃ l, l ∈ ls ∧ x ∈ l.
Proof.
  rewrite list_elem_of_In, in_concat. split; intros (l & H1 & H2); exists l;
    by rewrite ?list_elem_of_In in *.
Qed.

Section nested.
Context {V : Type}.
Implicit Types m : gmap string (gmap string V).

Definition flat_nested `{HashOrder} m : list ((string * string) * V) :=
  concat ((λ p : string * gmap string V, (λ q : string * V, ((p.1, q.1), q.2)) <$> hm_entries p.2)
          <$> hm_entries m).

Lemma elem_of_nested `{HashOrder} m o s x : ((o, s), x) ∈ flat_nested m ↔ m !! o ≫= (.!! s) = Some x.
Proof.
  unfold flat_nested. rewrite elem_of_concat. split.
  - intros (l & ([o' m'] & -> & Hm%elem_of_hm_entries)%list_elem_of_fmap & Hx).
    apply list_elem_of_fmap in Hx as ([s' x'] & ? & Hs%elem_of_hm_entries). simplify_eq/=.
    by rewrite Hm.
  - intros (m' & Hm & Hs)%bind_Some.
    exists ((λ q : string * V, ((o, q.1), q.2)) <$> hm_entries m').
    split; apply list_elem_of_fmap.
    + exists (o, m'). split; [done|by apply elem_of_hm_entries].
    + exists (s, x). split; [done|by apply elem_of_hm_entries].
Qed.

Lemma NoDup_nested `{HashOrder} m : NoDup (flat_nested m).*1.
Proof.
  unfold flat_nested. pose proof (NoDup_hm_keys m) as Hn.
  unfold hm_keys in Hn. induction (hm_entries m) as [|[o m'] l IH]; [constructor|].
  simpl in *. apply NoDup_cons in Hn as [Ho Hn]. rewrite fmap_app. apply NoDup_app.
  rewrite <-list_fmap_compose.
  assert (E : (fst ∘ λ q : string * V, (o, q.1, q.2)) <$> hm_entries m' = (o,.) <$> hm_keys m')
    by (unfold hm_keys; by rewrite <-list_fmap_compose).
  rewrite E. split_and!; [apply (NoDup_fmap_2 _), NoDup_hm_keys| |by apply IH].
  intros [o' s'] (s'' & [= -> ->] & _)%list_elem_of_fmap ([[] x] & [= <- <-] & Hin)%list_elem_of_fmap.
  apply Ho. apply elem_of_concat in Hin as (k & ([o2 m2] & -> & Hk)%list_elem_of_fmap & Hin).
  apply list_elem_of_fmap in Hin as (? & ? & _). simplify_eq/=.
  apply list_elem_of_fmap. by exists (o2, m2).
Qed.

(** Sorted, the entries depend on the map alone. *)
Lemma sorted_nested_canonical (H1 H2 : HashOrder) m k :
  (∀ o s, m !! o ≫= (.!! s) = k !! o ≫= (.!! s)) →
  sort_by_key pair_le (@flat_nested H1 m) = sort_by_key pair_le (@flat_nested H2 k).
Proof.
  intros E. apply (sort_by_key_canonical pair_le); [|apply NoDup_nested].
  apply NoDup_Permutation; [eapply NoDup_fmap_1, NoDup_nested..|].
  intros [[o s] x]. by rewrite !elem_of_nested, E.
Qed.
End nested.

(** The same for the entries of one map. *)
Lemma sorted_entries_canonical {K V} `{Countable K} (R : relation K)
    `{!RelDecision R, !Total R, !Transitive R, !AntiSymm (=) R} (H1 H2 : HashOrder) (m : gmap K V) :
  sort_by_key R (@hm_entries H1 _ _ _ _ m) = sort_by_key R (@hm_entries H2 _ _ _ _ m).
Proof.
  apply (sort_by_key_canonical R); [|apply (@NoDup_hm_keys H1)].
  etrans; [apply hm_entries_perm|symmetry; apply hm_entries_perm].
Qed.
Lemma sorted_hm_keys_canonical {V} (H1 H2 : HashOrder) (m : gmap string V) :
  sort_strings (@hm_keys H1 _ _ _ _ m) = sort_strings (@hm_keys H2 _ _ _ _ m).
Proof. apply sort_strings_canonical. by rewrite !hm_keys_perm. Qed.
