(* ===== verification/Account.v ===== *)
(** * Account database

    Model of crates/sentrix-primitives/src/account.rs: the [Account] record,
    the [AccountDB] that holds every balance and nonce, and each method of it.
    The theorems show value conservation, freedom from overflow below the
    supply bound, completeness of the per-block touch set, and the FIFO bound
    on the failed-transaction set. *)

From S2P Require Import Prelude.

(** ** Data *)

Definition MAX_FAILED_EVM_TXS : Z := 100000.
Definition SENTRI_PER_SRX : Z := 100000000.

Definition EMPTY_CODE_HASH : list Z :=
  [0xc5; 0xd2; 0x46; 0x01; 0x86; 0xf7; 0x23; 0x3c; 0x92; 0x7e; 0x7d; 0xb2; 0xdc; 0xc7; 0x03; 0xc0;
   0xe5; 0x00; 0xb6; 0x53; 0xca; 0x82; 0x27; 0x3b; 0x7b; 0xfa; 0xd8; 0x04; 0x5d; 0x85; 0xa4; 0x70].
Definition EMPTY_STORAGE_ROOT : list Z := replicate 32 0.

Record Account := mkAccount {
  acct_address : string;
  acct_balance : Z;
  acct_nonce : Z;
  acct_code_hash : list Z;
  acct_storage_root : list Z;
}.
#[global] Instance Account_eta : Eta Account := λ r,
  mkAccount (acct_address r) (acct_balance r) (acct_nonce r) (acct_code_hash r)
    (acct_storage_root r).
#[global] Instance Account_eq_dec : EqDecision Account.
Proof. solve_decision. Defined.

Definition Account_new (address : string) : Account := {|
  acct_address := address;
  acct_balance := 0;
  acct_nonce := 0;
  acct_code_hash := EMPTY_CODE_HASH;
  acct_storage_root := EMPTY_STORAGE_ROOT;
|}.

Definition is_contract (a : Account) : bool :=
  negb (bool_decide (acct_code_hash a = EMPTY_CODE_HASH)).

Record AccountDB := mkAccountDB {
  accounts : gmap string Account;
  total_burned : Z;
  contract_code : gmap string (list Z);
  contract_storage : gmap string (list Z);
  failed_evm_txs : gset string;
  failed_evm_txs_order : list string;
  touched_in_block : gset string;
}.
#[global] Instance AccountDB_eta : Eta AccountDB := λ r,
  mkAccountDB (accounts r) (total_burned r) (contract_code r) (contract_storage r)
    (failed_evm_txs r) (failed_evm_txs_order r) (touched_in_block r).

Definition AccountDB_new : AccountDB := mkAccountDB ∅ 0 ∅ ∅ ∅ [] ∅.

(** ** Operations *)

(** [entry(address).or_insert_with(..)]: the account a mutable reference to
    [address] points to, and the map with the entry present. *)
Definition account_or_new (db : AccountDB) (address : string) : Account :=
  default (Account_new address) (accounts db !! address).
Definition put_account (address : string) (a : Account) (db : AccountDB) : AccountDB :=
  db <| accounts := <[address := a]> (accounts db) |>.
Definition get_or_create (address : string) (db : AccountDB) : AccountDB :=
  put_account address (account_or_new db address) db.
Definition touch (address : string) (db : AccountDB) : AccountDB :=
  db <| touched_in_block := {[address]} ∪ touched_in_block db |>.

Definition get_balance (db : AccountDB) (address : string) : Z :=
  default 0 (acct_balance <$> accounts db !! address).
Definition get_nonce (db : AccountDB) (address : string) : Z :=
  default 0 (acct_nonce <$> accounts db !! address).

Definition burn (amount : Z) (db : AccountDB) : AccountDB :=
  db <| total_burned := saturating_add U64_MAX (total_burned db) amount |>.

Definition credit (address : string) (amount : Z) : st AccountDB unit :=
  modify (touch address) ;;
  modify (get_or_create address) ;;
  account ← gets (λ db, account_or_new db address) ;
  b ← ok_or (checked_add U64_MAX (acct_balance account) amount)
        (Internal "balance overflow") ;
  modify (put_account address (account <| acct_balance := b |>)).

Definition charge_fee_only (from : string) (fee : Z) : st AccountDB unit :=
  from_balance ← gets (λ db, get_balance db from) ;
  fail_if (from_balance <? fee) (InsufficientBalance from_balance fee) ;;
  modify (touch from) ;;
  modify (get_or_create from) ;;
  sender ← gets (λ db, account_or_new db from) ;
  b ← ok_or (checked_sub (acct_balance sender) fee) (Internal "balance underflow") ;
  modify (put_account from (sender <| acct_balance := b |>)) ;;
  modify (burn (div_ceil fee 2)).

Definition transfer (from to : string) (amount fee : Z) : st AccountDB unit :=
  total ← ok_or (checked_add U64_MAX amount fee) (Internal "amount + fee overflow") ;
  from_balance ← gets (λ db, get_balance db from) ;
  fail_if (from_balance <? total) (InsufficientBalance from_balance total) ;;
  modify (touch from) ;;
  modify (touch to) ;;
  modify (get_or_create from) ;;
  sender ← gets (λ db, account_or_new db from) ;
  b ← ok_or (checked_sub (acct_balance sender) total) (Internal "balance underflow") ;
  modify (put_account from (sender <| acct_balance := b |>)) ;;
  n ← ok_or (checked_add U64_MAX (acct_nonce sender) 1) (Internal "nonce overflow") ;
  modify (put_account from (sender <| acct_balance := b |> <| acct_nonce := n |>)) ;;
  credit to amount ;;
  modify (burn (div_ceil fee 2)).

Definition apply_block_reward (validator : string) (reward fee_share : Z)
    : st AccountDB unit :=
  total ← ok_or (checked_add U64_MAX reward fee_share) (Internal "reward overflow") ;
  credit validator total.

Definition total_supply (db : AccountDB) : Z :=
  wrap U64_MAX (map_sum (λ _ a, acct_balance a) (accounts db)).

Definition store_contract_code (code_hash_hex : string) (bytecode : list Z)
    (db : AccountDB) : AccountDB :=
  db <| contract_code := <[code_hash_hex := bytecode]> (contract_code db) |>.
Definition get_contract_code (db : AccountDB) (code_hash_hex : string) : option (list Z) :=
  contract_code db !! code_hash_hex.

Definition storage_key (address slot_hex : string) : string :=
  (address +:+ ":" +:+ slot_hex)%string.
Definition store_contract_storage (address slot_hex : string) (value : list Z)
    (db : AccountDB) : AccountDB :=
  let db := touch address db in
  db <| contract_storage :=
        <[storage_key address slot_hex := value]> (contract_storage db) |>.
Definition get_contract_storage (db : AccountDB) (address slot_hex : string)
    : option (list Z) :=
  contract_storage db !! storage_key address slot_hex.

Definition needs_evm_migration (a : Account) : bool :=
  bool_decide (acct_code_hash a = replicate 32 0).
Definition migrate_account (a : Account) : Account :=
  if needs_evm_migration a then a <| acct_code_hash := EMPTY_CODE_HASH |> else a.
(** Returns the new database and the number of migrated accounts. *)
Definition migrate_to_evm (db : AccountDB) : AccountDB * Z :=
  (db <| accounts := migrate_account <$> accounts db |>,
   map_sum (λ _ a, if needs_evm_migration a then 1 else 0) (accounts db)).

Definition set_contract (address : string) (code_hash : list Z) (db : AccountDB)
    : AccountDB :=
  let db := get_or_create address (touch address db) in
  put_account address (account_or_new db address <| acct_code_hash := code_hash |>) db.
Definition set_balance (address : string) (balance : Z) (db : AccountDB) : AccountDB :=
  let db := get_or_create address (touch address db) in
  put_account address (account_or_new db address <| acct_balance := balance |>) db.
Definition set_nonce (address : string) (nonce : Z) (db : AccountDB) : AccountDB :=
  let db := get_or_create address (touch address db) in
  put_account address (account_or_new db address <| acct_nonce := nonce |>) db.

Definition drain_touched_in_block (db : AccountDB) : AccountDB * gset string :=
  (db <| touched_in_block := ∅ |>, touched_in_block db).
Definition clear_touched_in_block (db : AccountDB) : AccountDB :=
  db <| touched_in_block := ∅ |>.

Definition mark_evm_tx_failed (txid : string) (db : AccountDB) : AccountDB :=
  if bool_decide (txid ∈ failed_evm_txs db) then db
  else
    let set := {[txid]} ∪ failed_evm_txs db in
    let order := failed_evm_txs_order db ++ [txid] in
    if MAX_FAILED_EVM_TXS <? Z.of_nat (length order) then
      match order with
      | oldest :: rest =>
          db <| failed_evm_txs := set ∖ {[oldest]} |> <| failed_evm_txs_order := rest |>
      | [] => db <| failed_evm_txs := set |> <| failed_evm_txs_order := order |>
      end
    else db <| failed_evm_txs := set |> <| failed_evm_txs_order := order |>.
Definition is_evm_tx_failed (db : AccountDB) (txid : string) : bool :=
  bool_decide (txid ∈ failed_evm_txs db).

(** ** Equations of the operations *)

(** [supply]: what every account holds together, as an unbounded integer. *)
Definition supply (db : AccountDB) : Z := map_sum (λ _ a, acct_balance a) (accounts db).

(** Every stored balance and nonce is a [u64]. *)
Definition accounts_wf (db : AccountDB) : Prop :=
  ∀ a acc, accounts db !! a = Some acc → in_u64 (acct_balance acc) ∧ in_u64 (acct_nonce acc).

Lemma balance_or_new db a : acct_balance (account_or_new db a) = get_balance db a.
Proof. unfold account_or_new, get_balance. by destruct (accounts db !! a). Qed.
Lemma nonce_or_new db a : acct_nonce (account_or_new db a) = get_nonce db a.
Proof. unfold account_or_new, get_nonce. by destruct (accounts db !! a). Qed.

Lemma account_or_new_put a b acc db :
  account_or_new (put_account a acc db) b
  = if decide (a = b) then acc else account_or_new db b.
Proof.
  unfold account_or_new, put_account; simpl. rewrite lookup_insert.
  by case_decide.
Qed.

Lemma put_put a acc acc' db : put_account a acc (put_account a acc' db) = put_account a acc db.
Proof. unfold put_account; simpl. by rewrite insert_insert_eq. Qed.

Lemma get_balance_put a b acc db :
  get_balance (put_account a acc db) b
  = if decide (a = b) then acct_balance acc else get_balance db b.
Proof. rewrite <-!balance_or_new, account_or_new_put. by case_decide. Qed.
Lemma get_nonce_put a b acc db :
  get_nonce (put_account a acc db) b
  = if decide (a = b) then acct_nonce acc else get_nonce db b.
Proof. rewrite <-!nonce_or_new, account_or_new_put. by case_decide. Qed.

Lemma supply_put a acc db :
  supply (put_account a acc db) = supply db + acct_balance acc - get_balance db a.
Proof.
  unfold supply, put_account, get_balance; simpl. rewrite map_sum_insert.
  destruct (accounts db !! a); simpl; lia.
Qed.

Lemma supply_nonneg db : accounts_wf db → 0 <= supply db.
Proof. intros Hwf. apply map_sum_nonneg. intros k a ?%Hwf. ulia. Qed.

Lemma get_balance_range db a : accounts_wf db → in_u64 (get_balance db a).
Proof.
  intros Hwf. unfold get_balance. destruct (accounts db !! a) eqn:E; simpl.
  - by apply Hwf in E as [??].
  - ulia.
Qed.
Lemma get_nonce_range db a : accounts_wf db → in_u64 (get_nonce db a).
Proof.
  intros Hwf. unfold get_nonce. destruct (accounts db !! a) eqn:E; simpl.
  - by apply Hwf in E as [??].
  - ulia.
Qed.

Lemma balance_le_supply db a : accounts_wf db → get_balance db a <= supply db.
Proof.
  intros Hwf. unfold get_balance. destruct (accounts db !! a) eqn:E; simpl.
  - apply (map_sum_elem_le (λ _ a, acct_balance a) _ a); [|done].
    intros k acc ?%Hwf. ulia.
  - by apply supply_nonneg.
Qed.

(** Two different accounts cannot together hold more than the supply. *)
Lemma two_balances_le_supply db a b :
  accounts_wf db → a ≠ b → get_balance db a + get_balance db b <= supply db.
Proof.
  intros Hwf Hab.
  assert (Hwf' : accounts_wf (put_account a (Account_new a) db)).
  { intros k acc. simpl. rewrite lookup_insert_Some.
    intros [[_ <-]|[_ ?%Hwf]]; [simpl; ulia|done]. }
  pose proof (balance_le_supply _ b Hwf') as H.
  rewrite supply_put, get_balance_put, decide_False in H by done. simpl in H. lia.
Qed.

Lemma credit_eq a x db :
  credit a x db =
    if get_balance db a + x <=? U64_MAX
    then (put_account a (account_or_new db a <| acct_balance := get_balance db a + x |>)
            (touch a db), Ok tt)
    else (get_or_create a (touch a db), Err (Internal "balance overflow")).
Proof.
  unfold credit. unfold_st_goal. unfold checked_add.
  change (account_or_new (get_or_create a (touch a db)) a)
    with (account_or_new (put_account a (account_or_new db a) (touch a db)) a).
  rewrite account_or_new_put, decide_True, balance_or_new by done.
  destruct (_ <=? _); [|done]. unfold get_or_create. by rewrite put_put.
Qed.

(** The sender's account after paying [total]. *)
Definition debited (db : AccountDB) (from : string) (total : Z) : Account :=
  account_or_new db from <| acct_balance := get_balance db from - total |>.

Lemma transfer_eq from to amount fee db :
  transfer from to amount fee db =
    if U64_MAX <? amount + fee then (db, Err (Internal "amount + fee overflow"))
    else if get_balance db from <? amount + fee
    then (db, Err (InsufficientBalance (get_balance db from) (amount + fee)))
    else
      let db1 := touch to (touch from db) in
      let sender := debited db from (amount + fee) in
      if U64_MAX <? get_nonce db from + 1
      then (put_account from sender db1, Err (Internal "nonce overflow"))
      else
        match credit to amount
                (put_account from (sender <| acct_nonce := get_nonce db from + 1 |>) db1) with
        | (db2, Ok _) => (burn (div_ceil fee 2) db2, Ok tt)
        | (db2, Err e) => (db2, Err e)
        end.
Proof.
  unfold transfer. unfold_st_goal. unfold checked_add at 1.
  rewrite Z.leb_antisym. destruct (U64_MAX <? amount + fee); [done|]; simpl.
  destruct (Z.ltb_spec (get_balance db from) (amount + fee)); [done|].
  change (account_or_new (get_or_create from (touch to (touch from db))) from)
    with (account_or_new
            (put_account from (account_or_new db from) (touch to (touch from db))) from).
  rewrite account_or_new_put, decide_True, balance_or_new by done.
  unfold checked_sub. rewrite (proj2 (Z.leb_le _ _)) by lia.
  rewrite nonce_or_new. unfold checked_add. rewrite (Z.leb_antisym U64_MAX).
  unfold get_or_create, debited. simpl. rewrite nonce_or_new.
  destruct (U64_MAX <? _); simpl; by rewrite ?put_put.
Qed.

(** ** Functional behaviour of [transfer] *)

Section transfer.
Context (db : AccountDB) (from to : string) (amount fee : Z).
Context (Hwf : accounts_wf db) (Ha : 0 <= amount) (Hf : 0 <= fee).

Lemma get_balance_touch a b d : get_balance (touch a d) b = get_balance d b.
Proof. done. Qed.

(** The recipient's credit cannot overflow while the supply is a [u64]. *)
Lemma transfer_credit_fits :
  supply db <= U64_MAX → amount + fee <= get_balance db from →
  get_balance (put_account from
    (debited db from (amount + fee) <| acct_nonce := get_nonce db from + 1 |>)
    (touch to (touch from db))) to + amount <= U64_MAX.
Proof.
  intros Hs Hb. rewrite get_balance_put. case_decide; simpl.
  - pose proof (get_balance_range db from Hwf). ulia.
  - pose proof (two_balances_le_supply db from to Hwf ltac:(done)). rewrite !get_balance_touch. lia.
Qed.

(** Below the supply bound the outcome of [transfer] depends only on the
    sender: it succeeds exactly when the sender covers amount and fee and
    its nonce can be incremented. *)
Lemma transfer_outcome :
  supply db <= U64_MAX →
  is_ok (transfer from to amount fee db).2 = true
  ↔ amount + fee <= get_balance db from ∧ get_nonce db from < U64_MAX.
Proof.
  intros Hs. rewrite transfer_eq. pose proof (get_balance_range db from Hwf).
  destruct (Z.ltb_spec U64_MAX (amount + fee)); [simpl; split; [done|ulia]|].
  destruct (Z.ltb_spec (get_balance db from) (amount + fee)); [simpl; split; [done|lia]|].
  destruct (Z.ltb_spec U64_MAX (get_nonce db from + 1)); [simpl; split; [done|lia]|].
  cbv zeta. rewrite credit_eq, (proj2 (Z.leb_le _ _)) by (by apply transfer_credit_fits).
  simpl. split; [lia|done].
Qed.

Lemma transfer_ok_state db' :
  transfer from to amount fee db = (db', Ok tt) →
  let db1 := put_account from
    (debited db from (amount + fee) <| acct_nonce := get_nonce db from + 1 |>)
    (touch to (touch from db)) in
  amount + fee <= get_balance db from ∧ get_nonce db from < U64_MAX ∧
  get_balance db1 to + amount <= U64_MAX ∧
  db' = burn (div_ceil fee 2)
          (put_account to (account_or_new db1 to
             <| acct_balance := get_balance db1 to + amount |>) (touch to db1)).
Proof.
  rewrite transfer_eq. intros H db1. revert H.
  destruct (Z.ltb_spec U64_MAX (amount + fee)); [done|].
  destruct (Z.ltb_spec (get_balance db from) (amount + fee)); [done|].
  destruct (Z.ltb_spec U64_MAX (get_nonce db from + 1)); [done|].
  cbv zeta. fold db1. rewrite credit_eq.
  destruct (Z.leb_spec (get_balance db1 to + amount) U64_MAX); [|done].
  intros [= <-]. repeat split; try lia; done.
Qed.
End transfer.

Lemma get_balance_burn x db a : get_balance (burn x db) a = get_balance db a.
Proof. done. Qed.
Lemma supply_burn x db : supply (burn x db) = supply db.
Proof. done. Qed.
Lemma supply_touch a db : supply (touch a db) = supply db.
Proof. done. Qed.

(** What a successful transfer changes. *)
Lemma transfer_effect db db' from to amount fee :
  0 <= amount → 0 <= fee →
  transfer from to amount fee db = (db', Ok tt) →
  (∀ a, get_balance db' a =
      get_balance db a - (if decide (a = from) then amount + fee else 0)
                       + (if decide (a = to) then amount else 0)) ∧
  (∀ a, get_nonce db' a = get_nonce db a + (if decide (a = from) then 1 else 0)) ∧
  supply db' = supply db - fee ∧
  total_burned db' = saturating_add U64_MAX (total_burned db) (div_ceil fee 2).
Proof.
  intros Ha Hf H. apply transfer_ok_state in H as (Hb & Hn & Hc & ->).
  set (db1 := put_account from _ _) in *.
  split_and!.
  - intros a. rewrite get_balance_burn, get_balance_put. unfold db1.
    rewrite get_balance_touch, !get_balance_put, !get_balance_touch.
    repeat case_decide; simplify_eq; simpl; lia.
  - intros a. change (get_nonce (burn ?x ?d) a) with (get_nonce d a).
    rewrite get_nonce_put. simpl. rewrite nonce_or_new.
    assert (Hdb1 : ∀ b, get_nonce db1 b
                        = get_nonce db b + (if decide (b = from) then 1 else 0)).
    { intros b. unfold db1. rewrite get_nonce_put. simpl.
      change (get_nonce (touch to (touch from db)) b) with (get_nonce db b).
      repeat case_decide; simplify_eq; lia. }
    change (get_nonce (touch to db1) a) with (get_nonce db1 a).
    rewrite !Hdb1. repeat case_decide; simplify_eq; lia.
  - rewrite supply_burn, supply_put, supply_touch, get_balance_touch. simpl.
    unfold db1 at 1. rewrite supply_put, !supply_touch, !get_balance_touch. simpl. lia.
  - done.
Qed.

Lemma credit_effect a x db db' :
  credit a x db = (db', Ok tt) →
  (∀ b, get_balance db' b = get_balance db b + (if decide (b = a) then x else 0)) ∧
  (∀ b, get_nonce db' b = get_nonce db b) ∧
  supply db' = supply db + x ∧ total_burned db' = total_burned db.
Proof.
  rewrite credit_eq. destruct (_ <=? _) eqn:E; [|done]. intros [= <-]. split_and!.
  - intros b. rewrite get_balance_put, get_balance_touch. simpl. repeat case_decide; simplify_eq; lia.
  - intros b. rewrite get_nonce_put. simpl. rewrite nonce_or_new.
    change (get_nonce (touch a db) b) with (get_nonce db b). by case_decide; simplify_eq.
  - rewrite supply_put, supply_touch, get_balance_touch. simpl. lia.
  - done.
Qed.

(** A successful transfer moves exactly [amount] to the recipient, takes
    [amount + fee] from the sender (net of a self-transfer), leaves every other
    balance alone, advances only the sender's nonce, and removes exactly the
    fee from circulation, of which the rounded-up half is recorded as burned. *)
Theorem transfer_spec db db' from to amount fee :
  0 <= amount → 0 <= fee →
  transfer from to amount fee db = (db', Ok tt) →
  (∀ a, get_balance db' a =
      get_balance db a - (if decide (a = from) then amount + fee else 0)
                       + (if decide (a = to) then amount else 0)) ∧
  (∀ a, get_nonce db' a = get_nonce db a + (if decide (a = from) then 1 else 0)) ∧
  supply db' = supply db - fee ∧
  total_burned db' = saturating_add U64_MAX (total_burned db) (div_ceil fee 2).
Proof. apply transfer_effect. Qed.

(** While the supply is a [u64] and the sender's nonce is not exhausted, a
    rejected transfer has no effect at all, although the code mutates the
    sender before it credits the recipient. *)
Theorem transfer_failure_atomic db db' from to amount fee e :
  accounts_wf db → supply db <= U64_MAX → 0 <= amount → 0 <= fee →
  get_nonce db from < U64_MAX →
  transfer from to amount fee db = (db', Err e) → db' = db.
Proof.
  intros Hwf Hs Ha Hf Hn. rewrite transfer_eq.
  destruct (U64_MAX <? amount + fee) eqn:E1; [by intros [= -> _]|].
  destruct (get_balance db from <? amount + fee) eqn:E2; [by intros [= -> _]|].
  destruct (U64_MAX <? get_nonce db from + 1) eqn:E3; bool_hyps; [lia|].
  cbv zeta. rewrite credit_eq, (proj2 (Z.leb_le _ _)) by (by apply transfer_credit_fits).
  done.
Qed.

(** ** Invariants over sequences of operations *)

(** The mutators of [AccountDB] that address an account, plus the ones that
    only touch the other tables. *)
Inductive ledger_op : Type :=
  | OpBurn (amount : Z)
  | OpCredit (a : string) (amount : Z)
  | OpChargeFee (a : string) (fee : Z)
  | OpTransfer (from to : string) (amount fee : Z)
  | OpReward (a : string) (reward fee_share : Z)
  | OpStoreCode (h : string) (code : list Z)
  | OpStoreStorage (a slot : string) (v : list Z)
  | OpSetContract (a : string) (h : list Z)
  | OpSetBalance (a : string) (b : Z)
  | OpSetNonce (a : string) (n : Z)
  | OpMarkFailed (txid : string).

(** Run an operation for its effect; a caller that ignores or propagates the
    error keeps the same state. *)
Definition run_account_op (o : ledger_op) (db : AccountDB) : AccountDB :=
  match o with
  | OpBurn x => burn x db
  | OpCredit a x => state_of (credit a x db)
  | OpChargeFee a fee => state_of (charge_fee_only a fee db)
  | OpTransfer from to amount fee => state_of (transfer from to amount fee db)
  | OpReward a r f => state_of (apply_block_reward a r f db)
  | OpStoreCode h c => store_contract_code h c db
  | OpStoreStorage a s v => store_contract_storage a s v db
  | OpSetContract a h => set_contract a h db
  | OpSetBalance a b => set_balance a b db
  | OpSetNonce a n => set_nonce a n db
  | OpMarkFailed t => mark_evm_tx_failed t db
  end.

Definition run_account_ops (os : list ledger_op) (db : AccountDB) : AccountDB :=
  foldl (λ db o, run_account_op o db) db os.

(** [db'] extends [db]: nothing leaves the touch set and every changed account
    is in it. *)
Definition tracked (db db' : AccountDB) : Prop :=
  touched_in_block db ⊆ touched_in_block db' ∧
  ∀ a, accounts db' !! a ≠ accounts db !! a → a ∈ touched_in_block db'.

#[global] Instance tracked_preorder : PreOrder tracked.
Proof.
  split.
  - intros db. split; [done|]. intros a H. by destruct H.
  - intros d1 d2 d3 [S12 T12] [S23 T23]. split; [by etrans|]. intros a Ha.
    destruct (decide (accounts d2 !! a = accounts d1 !! a)) as [E|E].
    + apply T23. by rewrite E.
    + by apply S23, T12.
Qed.

Lemma tracked_touch a db : tracked db (touch a db).
Proof. split; [simpl; set_solver|]. intros b Hb. by destruct Hb. Qed.
Lemma tracked_put a acc db : a ∈ touched_in_block db → tracked db (put_account a acc db).
Proof.
  intros Ha. split; [done|]. intros b. simpl. rewrite lookup_insert.
  case_decide; [congruence|]. intros Hb. by destruct Hb.
Qed.
Lemma tracked_touch_put a acc db : tracked db (put_account a acc (touch a db)).
Proof. etrans; [apply (tracked_touch a)|]. apply tracked_put. simpl. set_solver. Qed.
Lemma tracked_same_accounts db db' :
  accounts db' = accounts db → touched_in_block db' = touched_in_block db → tracked db db'.
Proof. intros E1 E2. split; [by rewrite E2|]. intros a H. by rewrite E1 in H. Qed.
Create HintDb account.
#[export] Hint Resolve tracked_touch tracked_put tracked_touch_put : account.

Lemma tracked_credit a x db : tracked db (state_of (credit a x db)).
Proof. rewrite credit_eq. destruct (_ <=? _); apply tracked_touch_put. Qed.

Lemma charge_fee_only_eq a fee db :
  charge_fee_only a fee db =
    if get_balance db a <? fee then (db, Err (InsufficientBalance (get_balance db a) fee))
    else (burn (div_ceil fee 2) (put_account a (debited db a fee) (touch a db)), Ok tt).
Proof.
  unfold charge_fee_only. unfold_st_goal.
  destruct (Z.ltb_spec (get_balance db a) fee); [done|].
  change (account_or_new (get_or_create a (touch a db)) a)
    with (account_or_new (put_account a (account_or_new db a) (touch a db)) a).
  rewrite account_or_new_put, decide_True, balance_or_new by done.
  unfold checked_sub. rewrite (proj2 (Z.leb_le _ _)) by lia.
  unfold get_or_create. by rewrite put_put.
Qed.

Lemma tracked_transfer from to amount fee db :
  tracked db (state_of (transfer from to amount fee db)).
Proof.
  rewrite transfer_eq.
  destruct (_ <? _); [done|]. destruct (_ <? _); [done|]. cbv zeta.
  set (db1 := touch to (touch from db)).
  assert (H1 : ∀ acc, tracked db (put_account from acc db1)).
  { intros acc. transitivity (touch from db); [apply tracked_touch|].
    transitivity db1; [apply tracked_touch|].
    apply tracked_put. unfold db1; simpl. set_solver. }
  destruct (_ <? _); [apply H1|].
  match goal with |- context [credit to amount ?d] => set (db2 := d) end.
  transitivity db2; [apply H1|].
  pose proof (tracked_credit to amount db2) as H2.
  by destruct (credit to amount db2) as [db3 [[]|]].
Qed.

Lemma tracked_op o db : tracked db (run_account_op o db).
Proof.
  destruct o; simpl.
  - by apply tracked_same_accounts.
  - apply tracked_credit.
  - rewrite charge_fee_only_eq. destruct (_ <? _); [done|].
    apply (tracked_touch_put a _ db).
  - apply tracked_transfer.
  - unfold apply_block_reward. unfold_st_goal. destruct (checked_add _ _ _); [|done].
    apply tracked_credit.
  - by apply tracked_same_accounts.
  - by apply (tracked_touch a db).
  - unfold set_contract, get_or_create. rewrite put_put. apply tracked_touch_put.
  - unfold set_balance, get_or_create. rewrite put_put. apply tracked_touch_put.
  - unfold set_nonce, get_or_create. rewrite put_put. apply tracked_touch_put.
  - unfold mark_evm_tx_failed. repeat case_match; by apply tracked_same_accounts.
Qed.

(** After any sequence of mutations, successful or failed, every account
    whose stored record differs from the start of the block is in the touch
    set that the state trie drains. *)
Theorem touched_complete os db a :
  accounts (run_account_ops os db) !! a ≠ accounts db !! a →
  a ∈ touched_in_block (run_account_ops os db).
Proof.
  enough (tracked db (run_account_ops os db)) as [_ H] by apply H.
  unfold run_account_ops. revert db. induction os as [|o os IH]; intros db; [done|].
  simpl. etrans; [apply tracked_op|]. apply IH.
Qed.

(** C35: a transfer does what it should and nothing else, while the money in circulation
    fits [u64]: it succeeds exactly when the sender covers the amount and the fee and
    its nonce can still grow; then it debits the sender amount and fee, credits the
    recipient the amount (a transfer to oneself costs the fee), counts the sender's
    nonce up, takes the fee out of circulation and adds its rounded-up half to the
    burn counter, leaves every other account as it was and records both parties as
    touched.  When it fails, nothing has changed, unless the nonce was used up. *)
Theorem transfer_correct db from to amount fee :
  accounts_wf db → supply db <= U64_MAX → in_u64 amount → in_u64 fee →
  let '(db', r) := transfer from to amount fee db in
  (is_ok r = true ↔ amount + fee <= get_balance db from ∧ get_nonce db from < U64_MAX) ∧
  (is_ok r = true →
    (∀ a, get_balance db' a = get_balance db a - (if decide (a = from) then amount + fee else 0)
                                               + (if decide (a = to) then amount else 0)) ∧
    (∀ a, get_nonce db' a = get_nonce db a + (if decide (a = from) then 1 else 0)) ∧
    supply db' = supply db - fee ∧
    total_burned db' = saturating_add U64_MAX (total_burned db) (div_ceil fee 2) ∧
    (∀ a, a ≠ from → a ≠ to → accounts db' !! a = accounts db !! a) ∧
    touched_in_block db' = {[from; to]} ∪ touched_in_block db) ∧
  (is_ok r = false → get_nonce db from < U64_MAX → db' = db).
Proof.
  intros Hwf Hs Ha Hf. destruct (transfer from to amount fee db) as [db' r] eqn:Et.
  pose proof (transfer_outcome db from to amount fee Hwf ltac:(ulia) Hs) as Ho. rewrite Et in Ho. cbn [snd] in Ho.
  split; [done|]. split; [intros Hr|intros Hr Hn].
  - destruct r as [[]|]; [|done].
    pose proof (transfer_effect db db' from to amount fee ltac:(ulia) ltac:(ulia) Et) as (Hb & Hn & Hsu & Hbu).
    apply transfer_ok_state in Et as (_ & _ & _ & ->). split_and!; try done; simpl; [|set_solver].
    intros a H1 H2. by rewrite !lookup_insert_ne by done.
  - destruct r as [|e]; [done|]. by apply (transfer_failure_atomic db db' from to amount fee e Hwf Hs ltac:(ulia) ltac:(ulia) Hn).
Qed.

(** The EVM migration is the one mutator that rewrites accounts without
    entering them in the touch set. *)
Definition legacy_account (a : string) : Account :=
  Account_new a <| acct_code_hash := replicate 32 0 |>.

(** [migrate_to_evm] changes account records but adds nothing to the touch
    set, so the claim that every mutator records the address it changes does
    not extend to it. *)
Theorem migrate_to_evm_untracked db a acc :
  accounts db !! a = Some acc → acct_code_hash acc = replicate 32 0 →
  touched_in_block db = ∅ →
  let db' := (migrate_to_evm db).1 in
  accounts db' !! a = Some (acc <| acct_code_hash := EMPTY_CODE_HASH |>) ∧
  accounts db' !! a ≠ accounts db !! a ∧ a ∉ touched_in_block db'.
Proof.
  intros Ha Hc Ht db'. unfold db'; simpl. rewrite lookup_fmap, Ha; simpl.
  unfold migrate_account, needs_evm_migration. rewrite bool_decide_eq_true_2 by done.
  simpl. split_and!; [done| |rewrite Ht; set_solver].
  intros [= E]. by rewrite <-E in Hc.
Qed.

Lemma migrate_to_evm_untracked_witness :
  let db := put_account "a" (legacy_account "a") AccountDB_new in
  accounts (migrate_to_evm db).1 !! "a" ≠ accounts db !! "a".
Proof.
  intros db.
  apply (migrate_to_evm_untracked db "a" (legacy_account "a"));
    vm_compute; reflexivity.
Defined.

(** ** Well-formedness is kept by every operation *)

Definition op_args_ok (o : ledger_op) : Prop :=
  match o with
  | OpBurn x => in_u64 x
  | OpCredit _ x | OpChargeFee _ x => in_u64 x
  | OpTransfer _ _ x y | OpReward _ x y => in_u64 x ∧ in_u64 y
  | OpSetBalance _ x | OpSetNonce _ x => in_u64 x
  | _ => True
  end.

Lemma wf_put a acc db :
  accounts_wf db → in_u64 (acct_balance acc) → in_u64 (acct_nonce acc) →
  accounts_wf (put_account a acc db).
Proof.
  intros Hwf ?? k acc'. simpl. rewrite lookup_insert_Some.
  intros [[_ <-]|[_ ?%Hwf]]; done.
Qed.
Lemma wf_touch a db : accounts_wf db → accounts_wf (touch a db).
Proof. done. Qed.
Lemma wf_account_or_new a db :
  accounts_wf db →
  in_u64 (acct_balance (account_or_new db a)) ∧ in_u64 (acct_nonce (account_or_new db a)).
Proof.
  intros. rewrite balance_or_new, nonce_or_new.
  split; [by apply get_balance_range|by apply get_nonce_range].
Qed.

Lemma wf_credit a x db : in_u64 x → accounts_wf db → accounts_wf (state_of (credit a x db)).
Proof.
  intros Hx Hwf. rewrite credit_eq. pose proof (wf_account_or_new a db Hwf) as [??].
  destruct (_ <=? _) eqn:E; bool_hyps; apply wf_put; simpl; try done.
  rewrite balance_or_new in *. ulia.
Qed.

Lemma wf_transfer from to x y db :
  in_u64 x → in_u64 y → accounts_wf db → accounts_wf (state_of (transfer from to x y db)).
Proof.
  intros Hx Hy Hwf. rewrite transfer_eq. pose proof (wf_account_or_new from db Hwf) as [Hb Hn].
  rewrite balance_or_new in Hb. rewrite nonce_or_new in Hn.
  destruct (U64_MAX <? x + y); [done|].
  destruct (get_balance db from <? x + y) eqn:E2; [done|].
  destruct (U64_MAX <? get_nonce db from + 1) eqn:E3; bool_hyps; cbv zeta.
  - apply wf_put; simpl; [done|ulia|by rewrite nonce_or_new].
  - match goal with |- context [credit to x ?d] => assert (Hd : accounts_wf d) end.
    { apply wf_put; simpl; [done| |]; ulia. }
    pose proof (wf_credit to x _ Hx Hd) as Hc.
    by destruct (credit to x _) as [? [[]|]].
Qed.

(** Every operation keeps all balances and nonces inside [u64], including
    the error paths, when its own arguments are [u64]s. *)
Theorem account_ops_wf os db :
  Forall op_args_ok os → accounts_wf db → accounts_wf (run_account_ops os db).
Proof.
  unfold run_account_ops. revert db.
  induction os as [|o os IH]; intros db Ho Hwf; [done|]. simpl.
  apply Forall_cons in Ho as [Ho Hos]. apply IH; [done|].
  pose proof (λ a, wf_account_or_new a db Hwf) as Hn.
  destruct o; simpl in *; try done.
  - by apply wf_credit.
  - rewrite charge_fee_only_eq. destruct (_ <? _) eqn:E; [done|]; bool_hyps.
    destruct (Hn a) as [Hb ?]. rewrite balance_or_new in Hb.
    apply wf_put; simpl; [done|ulia|done].
  - destruct Ho. by apply wf_transfer.
  - unfold apply_block_reward. unfold_st_goal.
    destruct (checked_add _ _ _) eqn:E; [|done]. bool_hyps.
    apply wf_credit; [ulia|done].
  - unfold set_contract, get_or_create. rewrite put_put.
    rewrite account_or_new_put, decide_True by done.
    destruct (Hn a). by apply wf_put.
  - unfold set_balance, get_or_create. rewrite put_put.
    rewrite account_or_new_put, decide_True by done.
    destruct (Hn a). by apply wf_put.
  - unfold set_nonce, get_or_create. rewrite put_put.
    rewrite account_or_new_put, decide_True by done.
    destruct (Hn a). by apply wf_put.
  - unfold mark_evm_tx_failed. repeat case_match; done.
Qed.

(** ** The failed-transaction set *)

(** The order list enumerates the set without repetition and stays bounded. *)
Definition fifo_inv (db : AccountDB) : Prop :=
  failed_evm_txs db = list_to_set (failed_evm_txs_order db) ∧
  NoDup (failed_evm_txs_order db) ∧
  Z.of_nat (length (failed_evm_txs_order db)) <= MAX_FAILED_EVM_TXS.

(** Marking a transaction failed keeps the set and its eviction order in
    lockstep and bounded, makes the transaction findable, and forgets at most
    the oldest entry. *)
Theorem mark_failed_fifo txid db :
  fifo_inv db →
  let db' := mark_evm_tx_failed txid db in
  fifo_inv db' ∧ is_evm_tx_failed db' txid = true ∧
  ∀ t, is_evm_tx_failed db t = true →
       is_evm_tx_failed db' t = true ∨ head (failed_evm_txs_order db) = Some t.
Proof.
  intros (Hset & Hnd & Hlen) db'. unfold db', mark_evm_tx_failed, is_evm_tx_failed.
  case_bool_decide as Hin.
  { split_and!; [done|by apply bool_decide_eq_true_2|auto]. }
  assert (Hpos : 0 < MAX_FAILED_EVM_TXS) by done.
  assert (Hnin : txid ∉ failed_evm_txs_order db) by (rewrite Hset in Hin; set_solver).
  destruct (Z.ltb_spec MAX_FAILED_EVM_TXS
              (Z.of_nat (length (failed_evm_txs_order db ++ [txid]))))
    as [Hgt|Hle]; rewrite length_app in *; simpl in *.
  - destruct (failed_evm_txs_order db) as [|o rest] eqn:Ho; simpl in *; [lia|].
    apply NoDup_cons in Hnd as [Ho' Hnd].
    unfold fifo_inv; simpl. rewrite length_app; simpl. split_and!.
    + rewrite Hset. set_solver.
    + apply NoDup_app. split_and!; [done|set_solver|apply NoDup_singleton].
    + lia.
    + apply bool_decide_eq_true_2. set_solver.
    + intros t Ht. apply bool_decide_eq_true_1 in Ht.
      destruct (decide (t = o)) as [->|]; [by right|left].
      apply bool_decide_eq_true_2. set_solver.
  - unfold fifo_inv; simpl. rewrite length_app; simpl. split_and!.
    + rewrite Hset. set_solver.
    + apply NoDup_app. split_and!; [done|set_solver|apply NoDup_singleton].
    + lia.
    + apply bool_decide_eq_true_2. set_solver.
    + intros t Ht%bool_decide_eq_true_1. left. apply bool_decide_eq_true_2. set_solver.
Qed.

(** ** Witnesses *)

Definition sample_db : AccountDB :=
  put_account "alice" (Account_new "alice" <| acct_balance := 1000 |>) AccountDB_new.

Lemma sample_wf : accounts_wf sample_db.
Proof.
  intros a acc. simpl. rewrite lookup_insert_Some, lookup_empty.
  intros [[_ <-]|[_ ?]]; [simpl; ulia|done].
Qed.

Lemma transfer_spec_witness :
  let db' := (transfer "alice" "bob" 100 7 sample_db).1 in
  get_balance db' "bob" = 100 ∧ supply db' = supply sample_db - 7.
Proof.
  intros db'.
  destruct (transfer_spec sample_db db' "alice" "bob" 100 7) as (Hb & _ & Hs & _);
    [lia|lia|vm_compute; reflexivity|].
  split; [rewrite (Hb "bob"); vm_compute; reflexivity|exact Hs].
Defined.

Lemma transfer_failure_atomic_witness :
  (transfer "alice" "bob" 1000 7 sample_db).1 = sample_db.
Proof.
  apply (transfer_failure_atomic sample_db _ "alice" "bob" 1000 7
           (InsufficientBalance 1000 1007)).
  - exact sample_wf.
  - vm_compute; discriminate.
  - lia.
  - lia.
  - vm_compute; reflexivity.
  - vm_compute; reflexivity.
Defined.

Lemma transfer_correct_witness :
  let db' := (transfer "alice" "bob" 100 7 sample_db).1 in
  get_balance db' "alice" = 893 ∧ get_balance db' "bob" = get_balance sample_db "bob" + 100 ∧
  get_nonce db' "alice" = get_nonce sample_db "alice" + 1.
Proof.
  pose proof (transfer_correct sample_db "alice" "bob" 100 7 sample_wf ltac:(vm_compute; discriminate) ltac:(ulia) ltac:(ulia)) as H.
  destruct (transfer "alice" "bob" 100 7 sample_db) as [db' r] eqn:E. destruct H as (Ho & Hok & _).
  destruct (Hok (proj2 Ho ltac:(vm_compute; split; [discriminate|reflexivity]))) as (Hb & Hn & _).
  cbn zeta. cbn [fst]. rewrite !Hb, Hn. vm_compute. split_and!; reflexivity.
Defined.

Lemma touched_complete_witness :
  "bob" ∈ touched_in_block (run_account_ops [OpTransfer "alice" "bob" 5 1] sample_db).
Proof.
  apply touched_complete. vm_compute. discriminate.
Defined.

Lemma account_ops_wf_witness :
  accounts_wf (run_account_ops [OpCredit "bob" 5; OpTransfer "alice" "bob" 5 1] sample_db).
Proof.
  apply account_ops_wf; [|exact sample_wf].
  repeat constructor; vm_compute; discriminate.
Defined.

Lemma mark_failed_fifo_witness :
  fifo_inv (mark_evm_tx_failed "t1" AccountDB_new).
Proof.
  apply mark_failed_fifo. split_and!; [reflexivity|constructor|vm_compute; discriminate].
Defined.
