(* ===== verification/Token.v ===== *)
(** * SRC-20 tokens

    Models crates/sentrix-core/src/vm.rs: [SRC20Contract], the native token
    contract, and [ContractRegistry], which deploys and calls them. *)

From S2P Require Import Prelude Bytes.

(** ** Contracts *)

Record SRC20Contract := mkSRC20 {
  tk_contract_address : string;
  tk_name : string;
  tk_symbol : string;
  tk_decimals : Z;
  tk_owner : string;
  tk_total_supply : Z;
  tk_max_supply : Z;
  tk_balances : gmap string Z;
  tk_allowances : gmap string (gmap string Z);
}.
#[global] Instance SRC20Contract_eta : Eta SRC20Contract := λ c,
  mkSRC20 (tk_contract_address c) (tk_name c) (tk_symbol c) (tk_decimals c) (tk_owner c)
    (tk_total_supply c) (tk_max_supply c) (tk_balances c) (tk_allowances c).

Definition SRC20Contract_new (contract_address name symbol : string) (decimals : Z)
    (owner : string) (max_supply : Z) : SRC20Contract :=
  mkSRC20 contract_address name symbol decimals owner 0 max_supply ∅ ∅.

Definition balance_of (c : SRC20Contract) (address : string) : Z :=
  default 0 (tk_balances c !! address).
Definition allowance (c : SRC20Contract) (owner spender : string) : Z :=
  default 0 (tk_allowances c !! owner ≫= λ m, m !! spender).
Definition holders (c : SRC20Contract) : nat :=
  size (filter (λ p : string * Z, 0 < p.2) (tk_balances c)).

(** [entry(a).or_insert(0)] and the write through the reference. *)
Definition set_token_balance (a : string) (x : Z) (c : SRC20Contract) : SRC20Contract :=
  c <| tk_balances := <[a := x]> (tk_balances c) |>.
Definition set_allowance (owner spender : string) (x : Z) (c : SRC20Contract) : SRC20Contract :=
  c <| tk_allowances :=
    <[owner := <[spender := x]> (default ∅ (tk_allowances c !! owner))]> (tk_allowances c) |>.

Definition is_empty (s : string) : bool := bool_decide (s = "").

(** [let entry = self.balances.entry(a).or_insert(0);
    *entry = entry.checked_add(x).ok_or(e)?] and its subtraction. *)
Definition token_add (a : string) (x : Z) (e : SentrixError) : st SRC20Contract unit :=
  b ← gets (λ c, balance_of c a) ;
  modify (set_token_balance a b) ;;
  b' ← ok_or (checked_add U64_MAX b x) e ;
  modify (set_token_balance a b').
Definition token_sub (a : string) (x : Z) (e : SentrixError) : st SRC20Contract unit :=
  b ← gets (λ c, balance_of c a) ;
  modify (set_token_balance a b) ;;
  b' ← ok_or (checked_sub b x) e ;
  modify (set_token_balance a b').

Definition mint (caller to : string) (amount : Z) : st SRC20Contract unit :=
  c ← gets (λ c, c) ;
  fail_if (negb (bool_decide (caller = tk_owner c)))
    (UnauthorizedValidator "only the contract owner can mint tokens") ;;
  fail_if (is_empty to || (amount =? 0)) (InvalidTransaction "invalid mint params") ;;
  (if 0 <? tk_max_supply c then
     new_supply ← ok_or (checked_add U64_MAX (tk_total_supply c) amount)
       (Internal "token supply overflow") ;
     fail_if (tk_max_supply c <? new_supply)
       (InvalidTransaction ("mint would exceed max_supply: " +:+ pretty (tk_total_supply c)
          +:+ " + " +:+ pretty amount +:+ " > " +:+ pretty (tk_max_supply c)))
   else mret tt) ;;
  token_add to amount (Internal "token balance overflow") ;;
  s ← ok_or (checked_add U64_MAX (tk_total_supply c) amount) (Internal "token supply overflow") ;
  modify (λ c, c <| tk_total_supply := s |>).

Definition burn_token (from : string) (amount : Z) : st SRC20Contract unit :=
  fail_if (is_empty from || (amount =? 0)) (InvalidTransaction "invalid burn params") ;;
  balance ← gets (λ c, balance_of c from) ;
  fail_if (balance <? amount) (InsufficientBalance balance amount) ;;
  token_sub from amount (Internal "token burn underflow") ;;
  supply ← gets tk_total_supply ;
  s ← ok_or (checked_sub supply amount) (Internal "supply underflow") ;
  modify (λ c, c <| tk_total_supply := s |>).

Definition transfer_token (from to : string) (amount : Z) : st SRC20Contract unit :=
  fail_if (is_empty from || is_empty to || (amount =? 0))
    (InvalidTransaction "invalid transfer params") ;;
  fail_if (bool_decide (from = to)) (InvalidTransaction "cannot transfer to self") ;;
  balance ← gets (λ c, balance_of c from) ;
  fail_if (balance <? amount) (InsufficientBalance balance amount) ;;
  token_sub from amount (Internal "transfer underflow") ;;
  token_add to amount (Internal "transfer overflow").

Definition approve (owner spender : string) (amount : Z) : st SRC20Contract unit :=
  fail_if (is_empty owner || is_empty spender) (InvalidTransaction "invalid approve params") ;;
  current ← gets (λ c, allowance c owner spender) ;
  fail_if (negb (current =? 0) && negb (amount =? 0))
    (InvalidTransaction "must set allowance to 0 before changing to non-zero value") ;;
  modify (set_allowance owner spender amount).

Definition increase_allowance (owner spender : string) (delta : Z) : st SRC20Contract unit :=
  fail_if (is_empty owner || is_empty spender || (delta =? 0))
    (InvalidTransaction "invalid increase_allowance params") ;;
  current ← gets (λ c, allowance c owner spender) ;
  modify (set_allowance owner spender current) ;;
  a ← ok_or (checked_add U64_MAX current delta) (Internal "allowance overflow") ;
  modify (set_allowance owner spender a).

Definition decrease_allowance (owner spender : string) (delta : Z) : st SRC20Contract unit :=
  fail_if (is_empty owner || is_empty spender || (delta =? 0))
    (InvalidTransaction "invalid decrease_allowance params") ;;
  current ← gets (λ c, allowance c owner spender) ;
  modify (set_allowance owner spender current) ;;
  a ← ok_or (checked_sub current delta) (InvalidTransaction "allowance underflow") ;
  modify (set_allowance owner spender a).

Definition transfer_from (spender from to : string) (amount : Z) : st SRC20Contract unit :=
  fail_if (is_empty spender || is_empty from || is_empty to || (amount =? 0))
    (InvalidTransaction "invalid transfer_from params") ;;
  allowed ← gets (λ c, allowance c from spender) ;
  fail_if (allowed <? amount) (InvalidTransaction ("allowance " +:+ pretty allowed
    +:+ " < amount " +:+ pretty amount)) ;;
  balance ← gets (λ c, balance_of c from) ;
  fail_if (balance <? amount) (InsufficientBalance balance amount) ;;
  new_allowance ← ok_or (checked_sub allowed amount) (Internal "allowance underflow") ;
  modify (set_allowance from spender new_allowance) ;;
  token_sub from amount (Internal "transfer_from underflow") ;;
  token_add to amount (Internal "transfer_from overflow").

(** ** The canonical payload

    The bytes that [SRC20Contract::canonical_hash] feeds to SHA-256: every map
    is walked in sorted key order. *)
Section canonical.
Context `{HashOrder}.

Definition sorted_balances (c : SRC20Contract) : list (string * Z) :=
  sort_by_key String.le (hm_entries (tk_balances c)).
(** [.iter().flat_map(|(owner, m)| m.iter().map(..))], sorted by owner, then
    spender. *)
Definition sorted_allowances (c : SRC20Contract) : list ((string * string) * Z) :=
  sort_by_key pair_le
    (concat ((λ p : string * gmap string Z,
               (λ q : string * Z, ((p.1, q.1), q.2)) <$> hm_entries p.2)
             <$> hm_entries (tk_allowances c))).

Definition enc_balance (p : string * Z) : bytes := enc_string p.1 ++ to_be_bytes 8 p.2.
Definition enc_allowance (p : (string * string) * Z) : bytes :=
  (enc_string p.1.1 ++ enc_string p.1.2) ++ to_be_bytes 8 p.2.

Definition contract_payload (c : SRC20Contract) : bytes :=
  enc_string (tk_contract_address c) ++ enc_string (tk_name c) ++ enc_string (tk_symbol c)
  ++ enc_string (tk_owner c) ++ [tk_decimals c] ++ to_be_bytes 8 (tk_total_supply c)
  ++ to_be_bytes 8 (tk_max_supply c) ++ enc_list enc_balance (sorted_balances c)
  ++ enc_list enc_allowance (sorted_allowances c).
End canonical.

Definition canonical_hash `{HashOrder, Sha256} (c : SRC20Contract) : bytes :=
  sha256_bytes (contract_payload c).

(** ** The registry *)

Record ContractRegistry := mkRegistry { rg_contracts : gmap string SRC20Contract }.
#[global] Instance ContractRegistry_eta : Eta ContractRegistry := λ r, mkRegistry (rg_contracts r).

Definition ContractRegistry_new : ContractRegistry := mkRegistry ∅.

Definition get_contract (r : ContractRegistry) (a : string) : option SRC20Contract :=
  rg_contracts r !! a.
Definition put_contract (a : string) (c : SRC20Contract) (r : ContractRegistry)
    : ContractRegistry := r <| rg_contracts := <[a := c]> (rg_contracts r) |>.
Definition contract_exists (r : ContractRegistry) (a : string) : bool :=
  bool_decide (is_Some (rg_contracts r !! a)).
Definition contract_count (r : ContractRegistry) : nat := size (rg_contracts r).
Definition get_token_balance (r : ContractRegistry) (contract address : string) : Z :=
  default 0 ((λ c, balance_of c address) <$> rg_contracts r !! contract).

(** The bytes that [ContractRegistry::canonical_hash] feeds to SHA-256. *)
Definition enc_contract `{HashOrder, Sha256} (p : string * SRC20Contract) : bytes :=
  enc_string p.1 ++ canonical_hash p.2.
Definition registry_payload `{HashOrder, Sha256} (r : ContractRegistry) : bytes :=
  enc_list enc_contract (omap (λ a, (a,.) <$> rg_contracts r !! a)
    (sort_strings (hm_keys (rg_contracts r)))).
Definition registry_hash `{HashOrder, Sha256} (r : ContractRegistry) : bytes :=
  sha256_bytes (registry_payload r).

Definition is_alphanumeric (a : Ascii.ascii) : bool :=
  let n := Ascii.N_of_ascii a in
  ((48 <=? n) && (n <=? 57) || (65 <=? n) && (n <=? 90) || (97 <=? n) && (n <=? 122))%N.
Fixpoint all_chars (p : Ascii.ascii → bool) (s : string) : bool :=
  match s with EmptyString => true | String a s => p a && all_chars p s end.

Section registry.
Context `{Sha256}.

Definition compute_contract_address (deployer seed : string) : string :=
  "SRC20_" +:+ String.substring 0 40 (sha256_hex (as_bytes (deployer +:+ "|" +:+ seed))).

(** The [while self.contracts.contains_key(&addr)] loop, from [counter] on;
    [None] when the fuel runs out. *)
Fixpoint free_address (fuel : nat) (r : ContractRegistry) (deployer seed : string)
    (counter : Z) (addr : string) : option string :=
  if contract_exists r addr then
    match fuel with
    | O => None
    | S fuel =>
        free_address fuel r deployer seed (counter + 1)
          (compute_contract_address deployer (seed +:+ "|" +:+ pretty (counter + 1)))
    end
  else Some addr.

(** [deploy] with a bound on the address search; [None] when it is not enough. *)
Definition deploy_with (fuel : nat) (deployer name symbol : string)
    (decimals total_supply max_supply : Z) (seed : string) (r : ContractRegistry)
    : option (ContractRegistry * result string) :=
  if is_empty name || (64 <? Z.of_nat (String.length name)) then
    Some (r, Err (InvalidTransaction "token name must be 1–64 characters"))
  else if is_empty symbol || (10 <? Z.of_nat (String.length symbol))
          || negb (all_chars is_alphanumeric symbol) then
    Some (r, Err (InvalidTransaction "token symbol must be 1–10 ASCII alphanumeric characters"))
  else
    match free_address fuel r deployer seed 0 (compute_contract_address deployer seed) with
    | None => None
    | Some addr =>
        Some (match mint deployer deployer total_supply
                      (SRC20Contract_new addr name symbol decimals deployer max_supply) with
              | (contract, Ok _) => (put_contract addr contract r, Ok addr)
              | (_, Err e) => (r, Err e)
              end)
    end.

(** Mutate one contract in place; its changes stay on the error path too. *)
Definition on_contract {A} (contract : string) (m : st SRC20Contract A)
    : st ContractRegistry A := λ r,
  match rg_contracts r !! contract with
  | None => (r, Err (NotFound ("contract " +:+ contract)))
  | Some c => let '(c', res) := m c in (put_contract contract c' r, res)
  end.

Definition execute_transfer (contract from to : string) (amount : Z) : st ContractRegistry unit :=
  on_contract contract (transfer_token from to amount).
Definition execute_burn (contract from : string) (amount : Z) : st ContractRegistry unit :=
  on_contract contract (burn_token from amount).
Definition execute_mint (contract caller to : string) (amount : Z) : st ContractRegistry unit :=
  on_contract contract (mint caller to amount).
Definition execute_approve (contract owner spender : string) (amount : Z)
    : st ContractRegistry unit :=
  on_contract contract (approve owner spender amount).

(** ** Calls by method name

    [call] reads its arguments from a JSON object: the two accessors stand for
    [params[key].as_str()] and [params[key].as_u64()], which fall back to the
    empty string and to zero. *)
Record call_params := mkParams {
  param_str : string → string;
  param_u64 : string → Z;
}.

(** The JSON objects [call] answers with. *)
Inductive call_reply :=
  | StatusOk
  | StatusBurned (burned : Z)
  | BalanceReply (balance : Z)
  | AllowanceReply (allowance : Z)
  | InfoReply (contract : SRC20Contract).

Definition call_method (method caller : string) (params : call_params)
    : st SRC20Contract call_reply :=
  let str := param_str params in
  let amount := param_u64 params "amount" in
  if bool_decide (method = "mint") then
    mint caller (str "to") amount ;; mret StatusOk
  else if bool_decide (method = "burn") then
    burn_token caller amount ;; mret (StatusBurned amount)
  else if bool_decide (method = "transfer") then
    transfer_token caller (str "to") amount ;; mret StatusOk
  else if bool_decide (method = "approve") then
    approve caller (str "spender") amount ;; mret StatusOk
  else if bool_decide (method = "increase_allowance") then
    increase_allowance caller (str "spender") amount ;; mret StatusOk
  else if bool_decide (method = "decrease_allowance") then
    decrease_allowance caller (str "spender") amount ;; mret StatusOk
  else if bool_decide (method = "transfer_from") then
    transfer_from caller (str "from") (str "to") amount ;; mret StatusOk
  else if bool_decide (method = "balance_of") then
    gets (λ c, BalanceReply (balance_of c (str "address")))
  else if bool_decide (method = "allowance") then
    gets (λ c, AllowanceReply (allowance c (str "owner") (str "spender")))
  else if bool_decide (method = "get_info") then gets InfoReply
  else throw (NotFound ("method " +:+ method)).

Definition call (contract_address method caller : string) (params : call_params)
    : st ContractRegistry call_reply :=
  on_contract contract_address (call_method method caller params).
End registry.
