(* ===== verification/TokenProps.v ===== *)
(** * SRC-20 tokens: invariant and refinement

    An abstract fungible-token machine over total functions, and the proof that
    the contract of [Token] implements it; the contract's accounting invariant
    along successful operations. *)

From S2P Require Import Prelude Bytes Token.

(** ** Equations of the two balance updates *)

Lemma balance_of_set a x c b :
  balance_of (set_token_balance a x c) b = if decide (a = b) then x else balance_of c b.
Proof.
  unfold balance_of, set_token_balance; simpl. rewrite lookup_insert. by case_decide.
Qed.
Lemma allowance_set o s x c o' s' :
  allowance (set_allowance o s x c) o' s'
  = if decide (o = o' ∧ s = s') then x else allowance c o' s'.
Proof.
  unfold allowance, set_allowance; simpl. rewrite lookup_insert.
  destruct (decide (o = o')) as [<-|]; simpl.
  - rewrite lookup_insert. destruct (decide (s = s')) as [<-|]; simpl.
    + by rewrite decide_True.
    + rewrite decide_False by naive_solver. by destruct (tk_allowances c !! o).
  - by rewrite decide_False by naive_solver.
Qed.
Lemma balance_of_set_allowance o s x c b : balance_of (set_allowance o s x c) b = balance_of c b.
Proof. done. Qed.
Lemma allowance_set_balance a x c o s : allowance (set_token_balance a x c) o s = allowance c o s.
Proof. done. Qed.
Lemma set_token_balance_twice a x y c :
  set_token_balance a x (set_token_balance a y c) = set_token_balance a x c.
Proof. unfold set_token_balance; simpl. by rewrite insert_insert_eq. Qed.

Lemma token_add_eq a x e c :
  token_add a x e c =
    if balance_of c a + x <=? U64_MAX
    then (set_token_balance a (balance_of c a + x) c, Ok tt)
    else (set_token_balance a (balance_of c a) c, Err e).
Proof.
  unfold token_add. unfold_st_goal. unfold checked_add.
  destruct (_ <=? _); [|done]. by rewrite set_token_balance_twice.
Qed.
Lemma token_sub_eq a x e c :
  token_sub a x e c =
    if x <=? balance_of c a
    then (set_token_balance a (balance_of c a - x) c, Ok tt)
    else (set_token_balance a (balance_of c a) c, Err e).
Proof.
  unfold token_sub. unfold_st_goal. unfold checked_sub.
  destruct (_ <=? _); [|done]. by rewrite set_token_balance_twice.
Qed.

(** ** The accounting invariant *)

(** What all holders own together. *)
Definition held (c : SRC20Contract) : Z := map_sum (λ _ x, x) (tk_balances c).

Record token_wf (c : SRC20Contract) : Prop := {
  wf_nonneg a : 0 <= balance_of c a;
  wf_held : held c = tk_total_supply c;
  wf_supply : tk_total_supply c <= U64_MAX;
  wf_cap : 0 <= tk_max_supply c;
  wf_max : 0 < tk_max_supply c → tk_total_supply c <= tk_max_supply c;
  wf_allow o s : in_u64 (allowance c o s);
}.

Lemma held_set a x c : held (set_token_balance a x c) = held c + x - balance_of c a.
Proof.
  unfold held, set_token_balance, balance_of; simpl. rewrite map_sum_insert.
  destruct (tk_balances c !! a); simpl; lia.
Qed.

Lemma held_set_allowance o s x c : held (set_allowance o s x c) = held c.
Proof. done. Qed.
Lemma held_supply x c : held (c <| tk_total_supply := x |>) = held c.
Proof. done. Qed.

Lemma balance_le_held c a : token_wf c → balance_of c a <= held c.
Proof.
  intros Hwf. assert (Hnn : ∀ k x, tk_balances c !! k = Some x → 0 <= x).
  { intros k x E. pose proof (wf_nonneg c Hwf k) as H. unfold balance_of in H.
    by rewrite E in H. }
  unfold balance_of. destruct (tk_balances c !! a) eqn:E; simpl.
  - by apply (map_sum_elem_le (λ _ x, x) _ a).
  - by apply map_sum_nonneg.
Qed.

Lemma two_le_held c a b : token_wf c → a ≠ b → balance_of c a + balance_of c b <= held c.
Proof.
  intros Hwf Hab.
  assert (Hwf' : token_wf (set_token_balance a 0 c
                   <| tk_total_supply := tk_total_supply c - balance_of c a |>)).
  { pose proof (balance_le_held c a Hwf). pose proof (wf_nonneg c Hwf a).
    destruct Hwf as [Hn Hh Hs Hc Hm Hal]. split; simpl; try done; try lia.
    - intros k. change (0 <= balance_of (set_token_balance a 0 c) k).
      rewrite balance_of_set. case_decide; [lia|apply Hn].
    - change (held (set_token_balance a 0 c) = tk_total_supply c - balance_of c a).
      rewrite held_set. lia. }
  pose proof (balance_le_held _ b Hwf') as H.
  change (balance_of (set_token_balance a 0 c) b <= held (set_token_balance a 0 c)) in H.
  rewrite held_set, balance_of_set, decide_False in H by done. lia.
Qed.

(** ** The abstract token

    Balances, allowances and supply as total functions, compared pointwise.
    Its transitions are the guards a caller can rely on and the pointwise
    effect, with no machine arithmetic and no partial updates. *)

Record erc20 := mkErc20 {
  e_owner : string;
  e_cap : Z;
  e_supply : Z;
  e_bal : string → Z;
  e_allow : string → string → Z;
}.
#[global] Instance erc20_eta : Eta erc20 := λ t,
  mkErc20 (e_owner t) (e_cap t) (e_supply t) (e_bal t) (e_allow t).

Record erc20_equiv (t u : erc20) : Prop := {
  eq_owner : e_owner t = e_owner u;
  eq_cap : e_cap t = e_cap u;
  eq_supply : e_supply t = e_supply u;
  eq_bal a : e_bal t a = e_bal u a;
  eq_allow o s : e_allow t o s = e_allow u o s;
}.
#[global] Instance erc20_Equiv : Equiv erc20 := erc20_equiv.
#[global] Instance erc20_Equivalence : Equivalence (≡@{erc20}).
Proof.
  split.
  - by split.
  - intros t u [???? ?]; split; by symmetry.
  - intros t u v [] []; split; intros; etrans; eauto.
Qed.

Inductive token_op :=
  | OpMint (caller to : string) (amount : Z)
  | OpBurn (from : string) (amount : Z)
  | OpTransfer (from to : string) (amount : Z)
  | OpApprove (owner spender : string) (amount : Z)
  | OpIncrease (owner spender : string) (delta : Z)
  | OpDecrease (owner spender : string) (delta : Z)
  | OpTransferFrom (spender from to : string) (amount : Z).

Definition op_amount (op : token_op) : Z :=
  match op with
  | OpMint _ _ x | OpBurn _ x | OpTransfer _ _ x | OpApprove _ _ x
  | OpIncrease _ _ x | OpDecrease _ _ x | OpTransferFrom _ _ _ x => x
  end.

Definition run_op (op : token_op) : st SRC20Contract unit :=
  match op with
  | OpMint caller to amount => mint caller to amount
  | OpBurn from amount => burn_token from amount
  | OpTransfer from to amount => transfer_token from to amount
  | OpApprove owner spender amount => approve owner spender amount
  | OpIncrease owner spender delta => increase_allowance owner spender delta
  | OpDecrease owner spender delta => decrease_allowance owner spender delta
  | OpTransferFrom spender from to amount => transfer_from spender from to amount
  end.

(** [delta a b x]: [x] at [a = b], zero elsewhere. *)
Definition at_key (a b : string) (x : Z) : Z := if decide (a = b) then x else 0.
Definition move_bal (from to : string) (x : Z) (f : string → Z) : string → Z := λ a,
  f a - at_key a from x + at_key a to x.
Definition set_allow (o s : string) (x : Z) (f : string → string → Z) : string → string → Z :=
  λ o' s', if decide (o = o' ∧ s = s') then x else f o' s'.

(** When the abstract token accepts an operation. *)
Definition erc20_guard (t : erc20) (op : token_op) : bool :=
  match op with
  | OpMint caller to amount =>
      bool_decide (caller = e_owner t) && negb (is_empty to) && negb (amount =? 0)
      && (e_supply t + amount <=? if 0 <? e_cap t then Z.min U64_MAX (e_cap t) else U64_MAX)
  | OpBurn from amount =>
      negb (is_empty from) && negb (amount =? 0) && (amount <=? e_bal t from)
  | OpTransfer from to amount =>
      negb (is_empty from) && negb (is_empty to) && negb (amount =? 0)
      && negb (bool_decide (from = to)) && (amount <=? e_bal t from)
  | OpApprove o s amount =>
      negb (is_empty o) && negb (is_empty s) && ((e_allow t o s =? 0) || (amount =? 0))
  | OpIncrease o s delta =>
      negb (is_empty o) && negb (is_empty s) && negb (delta =? 0)
      && (e_allow t o s + delta <=? U64_MAX)
  | OpDecrease o s delta =>
      negb (is_empty o) && negb (is_empty s) && negb (delta =? 0) && (delta <=? e_allow t o s)
  | OpTransferFrom s from to amount =>
      negb (is_empty s) && negb (is_empty from) && negb (is_empty to) && negb (amount =? 0)
      && (amount <=? e_allow t from s) && (amount <=? e_bal t from)
  end.

(** What it does then. *)
Definition erc20_effect (t : erc20) (op : token_op) : erc20 :=
  match op with
  | OpMint _ to x =>
      t <| e_supply := e_supply t + x |> <| e_bal := λ a, e_bal t a + at_key a to x |>
  | OpBurn from x =>
      t <| e_supply := e_supply t - x |> <| e_bal := λ a, e_bal t a - at_key a from x |>
  | OpTransfer from to x => t <| e_bal := move_bal from to x (e_bal t) |>
  | OpApprove o s x => t <| e_allow := set_allow o s x (e_allow t) |>
  | OpIncrease o s x => t <| e_allow := set_allow o s (e_allow t o s + x) (e_allow t) |>
  | OpDecrease o s x => t <| e_allow := set_allow o s (e_allow t o s - x) (e_allow t) |>
  | OpTransferFrom s from to x =>
      t <| e_allow := set_allow from s (e_allow t from s - x) (e_allow t) |>
        <| e_bal := move_bal from to x (e_bal t) |>
  end.

(** The abstraction function. *)
Definition token_abs (c : SRC20Contract) : erc20 :=
  mkErc20 (tk_owner c) (tk_max_supply c) (tk_total_supply c) (balance_of c) (allowance c).

(** [sim c op r]: the outcome [r] of the contract in state [c] is what the
    abstract token prescribes. *)
Definition sim (c : SRC20Contract) (op : token_op) (r : SRC20Contract * result unit) : Prop :=
  match r with
  | (c', Ok _) =>
      erc20_guard (token_abs c) op = true ∧ token_abs c' ≡ erc20_effect (token_abs c) op
  | (c', Err _) => erc20_guard (token_abs c) op = false ∧ token_abs c' ≡ token_abs c
  end.

(** The one case the contract does not refuse cleanly: a mint without a cap
    that overflows the supply. *)
Definition mint_fits (c : SRC20Contract) (op : token_op) : Prop :=
  match op with
  | OpMint _ _ x => tk_max_supply c = 0 → tk_total_supply c + x <= U64_MAX
  | _ => True
  end.

(** Split on every comparison of the goal and close the contradictory cases. *)
Ltac guards :=
  repeat match goal with
  | |- context [is_empty ?a] => destruct (is_empty a); simpl
  | |- context [?a =? ?b] => destruct (Z.eqb_spec a b); simpl
  | |- context [?a <=? ?b] => destruct (Z.leb_spec a b); simpl
  | |- context [?a <? ?b] => destruct (Z.ltb_spec a b); simpl
  | |- context [bool_decide ?P] => destruct (decide P); [rewrite (bool_decide_eq_true_2 P) by done
                                                     |rewrite (bool_decide_eq_false_2 P) by done]; simpl
  end; try done; try lia.

(** An equation of the abstraction at one key. *)
Ltac pointwise :=
  unfold at_key;
  repeat first [rewrite balance_of_set | rewrite allowance_set
               | rewrite balance_of_set_allowance | rewrite allowance_set_balance];
  repeat case_decide; simplify_eq; try done; try lia; naive_solver.

Section sim.
Context (c : SRC20Contract) (Hwf : token_wf c).

Lemma sim_burn from x : in_u64 x → sim c (OpBurn from x) (run_op (OpBurn from x) c).
Proof.
  intros Hx. simpl. unfold burn_token, sim. unfold_st_goal. simpl.
  pose proof (balance_le_held c from Hwf) as Hb. rewrite (wf_held c Hwf) in Hb.
  guards. rewrite token_sub_eq. guards. unfold checked_sub. guards.
  split; [done|]. split; try done. intros a. simpl.
  change (balance_of (set_token_balance from (balance_of c from - x) c) a
          = balance_of c a - at_key a from x). pointwise.
Qed.

Lemma sim_mint caller to x :
  in_u64 x → mint_fits c (OpMint caller to x) →
  sim c (OpMint caller to x) (run_op (OpMint caller to x) c).
Proof.
  intros Hx Hfit. simpl in Hfit |- *. unfold mint, sim. unfold_st_goal. simpl.
  pose proof (balance_le_held c to Hwf) as Hb. rewrite (wf_held c Hwf) in Hb.
  pose proof (wf_supply c Hwf). pose proof (wf_cap c Hwf). unfold checked_add.
  assert (Hok : tk_total_supply c + x <= U64_MAX →
    token_abs (set_token_balance to (balance_of c to + x) c
                 <| tk_total_supply := tk_total_supply c + x |>)
    ≡ erc20_effect (token_abs c) (OpMint caller to x)).
  { intros _. split; try done. intros a. simpl.
    change (balance_of (set_token_balance to (balance_of c to + x) c) a
            = balance_of c a + at_key a to x). pointwise. }
  guards; rewrite token_add_eq; guards; (split; [done|by apply Hok]).
Qed.

Lemma sim_transfer from to x :
  in_u64 x → sim c (OpTransfer from to x) (run_op (OpTransfer from to x) c).
Proof.
  intros Hx. simpl. unfold transfer_token, sim. unfold_st_goal. simpl. guards.
  rewrite token_sub_eq. guards. rewrite token_add_eq, balance_of_set, decide_False by done.
  pose proof (two_le_held c from to Hwf ltac:(done)) as Hb. rewrite (wf_held c Hwf) in Hb.
  pose proof (wf_supply c Hwf). guards. split; [done|]. split; try done.
  intros a. simpl. unfold move_bal. pointwise.
Qed.

Lemma sim_approve o s x : sim c (OpApprove o s x) (run_op (OpApprove o s x) c).
Proof.
  simpl. unfold approve, sim. unfold_st_goal. simpl. guards.
  all: split; [done|]; split; try done; intros o' s'; simpl; unfold set_allow; pointwise.
Qed.

Lemma sim_increase o s x : sim c (OpIncrease o s x) (run_op (OpIncrease o s x) c).
Proof.
  simpl. unfold increase_allowance, sim. unfold_st_goal. simpl. unfold checked_add. guards.
  all: split; [done|]; split; try done; intros o' s'; simpl; unfold set_allow; pointwise.
Qed.

Lemma sim_decrease o s x : sim c (OpDecrease o s x) (run_op (OpDecrease o s x) c).
Proof.
  simpl. unfold decrease_allowance, sim. unfold_st_goal. simpl. unfold checked_sub. guards.
  all: split; [done|]; split; try done; intros o' s'; simpl; unfold set_allow; pointwise.
Qed.

Lemma sim_transfer_from s from to x :
  in_u64 x → sim c (OpTransferFrom s from to x) (run_op (OpTransferFrom s from to x) c).
Proof.
  intros Hx. simpl. unfold transfer_from, sim. unfold_st_goal. simpl. guards.
  unfold checked_sub. guards. rewrite token_sub_eq, balance_of_set_allowance. guards.
  rewrite token_add_eq, balance_of_set, balance_of_set_allowance.
  pose proof (balance_le_held c from Hwf). pose proof (wf_held c Hwf).
  pose proof (wf_supply c Hwf).
  assert ((if decide (from = to) then balance_of c from - x else balance_of c to) + x <= U64_MAX).
  { case_decide; [lia|]. pose proof (two_le_held c from to Hwf ltac:(done)). lia. }
  guards. split; [done|]. split; try done; simpl; unfold move_bal, set_allow.
  - intros a. pointwise.
  - intros o' s'. pointwise.
Qed.

Lemma op_sim op : in_u64 (op_amount op) → mint_fits c op → sim c op (run_op op c).
Proof.
  destruct op; simpl op_amount; intros.
  - by apply sim_mint.
  - by apply sim_burn.
  - by apply sim_transfer.
  - apply sim_approve.
  - apply sim_increase.
  - apply sim_decrease.
  - by apply sim_transfer_from.
Qed.
End sim.

(** ** The invariant is kept *)

(** The invariant speaks about the abstraction, and about the sum of the stored
    balances. *)
Lemma held_step op c c' :
  run_op op c = (c', Ok tt) → held c' - tk_total_supply c' = held c - tk_total_supply c.
Proof.
  destruct op; simpl; intros H.
  all: unfold mint, burn_token, transfer_token, approve, increase_allowance,
         decrease_allowance, transfer_from in H; unfold_st H.
  all: repeat (first [rewrite token_sub_eq in H | rewrite token_add_eq in H | case_match];
               simplify_eq; try done).
  all: bool_hyps.
  all: repeat first [rewrite held_supply | rewrite held_set | rewrite balance_of_set];
       simpl; rewrite ?held_set_allowance; try case_decide; simplify_eq; try lia.
Qed.

Lemma mint_ok_fits op c c' : run_op op c = (c', Ok tt) → mint_fits c op.
Proof.
  destruct op; try done. simpl. intros H Hm. unfold mint in H. unfold_st H.
  repeat (first [rewrite token_add_eq in H | case_match]; simplify_eq; try done).
  all: bool_hyps; lia.
Qed.

(** The part of the invariant that is visible in the abstract token. *)
Record erc20_ok (t : erc20) : Prop := {
  ok_nonneg a : 0 <= e_bal t a;
  ok_supply : e_supply t <= U64_MAX;
  ok_cap : 0 <= e_cap t;
  ok_max : 0 < e_cap t → e_supply t <= e_cap t;
  ok_allow o s : in_u64 (e_allow t o s);
}.
#[global] Instance erc20_ok_proper : Proper ((≡) ==> iff) erc20_ok.
Proof.
  assert (∀ t u, t ≡ u → erc20_ok t → erc20_ok u) as Hp.
  { intros t u [Ho Hc Hs Hb Ha] [H1 H2 H3 H4 H5].
    split; intros; rewrite <-?Hc, <-?Hs, <-?Hb, <-?Ha in *; auto. }
  intros t u E. split; apply Hp; [done|by symmetry].
Qed.

Lemma token_wf_abs c : token_wf c ↔ erc20_ok (token_abs c) ∧ held c = tk_total_supply c.
Proof.
  split.
  - intros [H1 H2 H3 H4 H5 H6]. done.
  - intros [[H1 H2 H3 H4 H5] H6]. done.
Qed.

Lemma erc20_effect_ok t op :
  erc20_ok t → in_u64 (op_amount op) → erc20_guard t op = true → erc20_ok (erc20_effect t op).
Proof.
  intros [Hn Hs Hc Hm Ha] Hx. destruct op; simpl in *; intros Hg; bool_hyps.
  all: split; simpl; try done.
  all: unfold move_bal, at_key, set_allow; intros; repeat case_decide; simplify_eq.
  all: try match goal with
    | |- context [e_bal _ ?a] => pose proof (Hn a)
    | |- context [e_allow _ ?o ?s] => pose proof (Ha o s)
    end.
  all: try case_match; bool_hyps; ulia.
Qed.

(** Every operation that succeeds keeps the books. *)
Lemma token_wf_step op c c' :
  token_wf c → in_u64 (op_amount op) → run_op op c = (c', Ok tt) → token_wf c'.
Proof.
  intros Hwf Hx H. pose proof (held_step _ _ _ H) as Hh.
  pose proof (op_sim c Hwf op Hx (mint_ok_fits _ _ _ H)) as Hs. rewrite H in Hs.
  destruct Hs as [Hg Ha]. apply token_wf_abs in Hwf as [Hok Hc]. apply token_wf_abs.
  rewrite Ha. split; [by apply erc20_effect_ok|lia].
Qed.

(** ** Sequences of operations *)

(** Zero entries left behind by [entry(..).or_insert(0)] do not count. *)
Lemma map_sum_default (m m' : gmap string Z) :
  (∀ a, default 0 (m !! a) = default 0 (m' !! a)) →
  map_sum (λ _ x, x) m = map_sum (λ _ x, x) m'.
Proof.
  revert m'. induction m as [|i x m Hi IH] using map_ind; intros m' E.
  - rewrite map_sum_empty, (map_sum_ext _ (λ _ _, 0 * 1)).
    + by rewrite (map_sum_scale (λ _ _, 1)).
    + intros k a Ha. specialize (E k). by rewrite lookup_empty, Ha in E.
  - rewrite map_sum_insert_None, (IH (delete i m')) by (done || intros a; specialize (E a);
      rewrite ?lookup_insert, ?lookup_delete in *; by repeat case_decide; simplify_eq/=; rewrite ?Hi).
    specialize (E i). rewrite lookup_insert_eq in E. simpl in E.
    destruct (m' !! i) as [y|] eqn:Ey; simpl in E; subst.
    + by rewrite (map_sum_delete _ m' i y).
    + by rewrite delete_id.
Qed.

Lemma token_wf_equiv c c' : token_abs c' ≡ token_abs c → token_wf c → token_wf c'.
Proof.
  intros E Hwf. apply token_wf_abs in Hwf as [Hok Hh]. apply token_wf_abs.
  split; [by rewrite E|]. destruct E as [_ _ Hs Hb _]. simpl in *. rewrite Hs, <-Hh.
  by apply map_sum_default.
Qed.

Definition erc20_step (t : erc20) (op : token_op) : erc20 * bool :=
  if erc20_guard t op then (erc20_effect t op, true) else (t, false).

(** Run a sequence, failures included, collecting which operations succeeded. *)
Fixpoint run_ops (ops : list token_op) (c : SRC20Contract) : SRC20Contract * list bool :=
  match ops with
  | [] => (c, [])
  | op :: ops =>
      let '(c1, r) := run_op op c in
      let '(c2, rs) := run_ops ops c1 in (c2, is_ok r :: rs)
  end.
Fixpoint erc20_run (ops : list token_op) (t : erc20) : erc20 * list bool :=
  match ops with
  | [] => (t, [])
  | op :: ops =>
      let '(t1, r) := erc20_step t op in
      let '(t2, rs) := erc20_run ops t1 in (t2, r :: rs)
  end.

#[global] Instance erc20_guard_proper : Proper ((≡) ==> (=) ==> (=)) erc20_guard.
Proof.
  intros t u [Ho Hc Hs Hb Ha] op ? <-. destruct op; simpl;
    by rewrite ?Ho, ?Hc, ?Hs, ?Hb, ?Ha.
Qed.
#[global] Instance erc20_effect_proper : Proper ((≡) ==> (=) ==> (≡)) erc20_effect.
Proof.
  intros t u [Ho Hc Hs Hb Ha] op ? <-. destruct op; split; simpl; intros; try done;
    unfold move_bal, set_allow; by rewrite ?Hs, ?Hb, ?Ha.
Qed.
Lemma erc20_run_proper ops t u :
  t ≡ u → (erc20_run ops t).1 ≡ (erc20_run ops u).1 ∧ (erc20_run ops t).2 = (erc20_run ops u).2.
Proof.
  revert t u. induction ops as [|op ops IH]; intros t u E; [done|]. simpl.
  unfold erc20_step. rewrite <-(erc20_guard_proper t u E op op) by done.
  destruct (erc20_guard t op).
  - destruct (IH (erc20_effect t op) (erc20_effect u op)) as [E1 E2]; [by rewrite E|].
    destruct (erc20_run ops (erc20_effect t op)), (erc20_run ops (erc20_effect u op)).
    simpl in *. by subst.
  - destruct (IH t u E) as [E1 E2].
    destruct (erc20_run ops t), (erc20_run ops u). simpl in *. by subst.
Qed.

(** One step of the contract is one step of the abstract token. *)
Lemma token_step_refines c op :
  token_wf c → in_u64 (op_amount op) → mint_fits c op →
  let '(c', r) := run_op op c in let '(t, b) := erc20_step (token_abs c) op in
  token_abs c' ≡ t ∧ is_ok r = b ∧ token_wf c' ∧ tk_max_supply c' = tk_max_supply c.
Proof.
  intros Hwf Hx Hfit. pose proof (op_sim c Hwf op Hx Hfit) as Hs.
  destruct (run_op op c) as [c' [[]|e]] eqn:E; simpl in Hs; unfold erc20_step;
    destruct Hs as [-> Ha]; (split; [done|]); (split; [done|]).
  - split; [by eapply token_wf_step|]. etrans; [apply (eq_cap _ _ Ha)|]. by destruct op.
  - split; [by eapply token_wf_equiv|]. apply (eq_cap _ _ Ha).
Qed.

(** C28: a capped token refines the abstract one: along every sequence of calls,
    rejected ones included, each call is accepted exactly when the abstract
    guard holds, and balances, allowances and supply evolve as the abstract
    token's do. *)
Theorem token_refines ops c :
  token_wf c → 0 < tk_max_supply c → Forall (λ op, in_u64 (op_amount op)) ops →
  (run_ops ops c).2 = (erc20_run ops (token_abs c)).2 ∧
  token_abs (run_ops ops c).1 ≡ (erc20_run ops (token_abs c)).1 ∧
  token_wf (run_ops ops c).1.
Proof.
  revert c. induction ops as [|op ops IH]; intros c Hwf Hm Hx; [done|].
  apply Forall_cons in Hx as [Hx Hxs]. simpl.
  pose proof (token_step_refines c op Hwf Hx) as Hs.
  destruct (run_op op c) as [c1 r]. destruct (erc20_step (token_abs c) op) as [t b].
  destruct Hs as (Ha & Hr & Hwf1 & Hm1). { destruct op; simpl; lia || done. }
  destruct (IH c1) as (E1 & E2 & E3); [done|lia|done|].
  destruct (erc20_run_proper ops _ _ Ha) as [F1 F2].
  destruct (run_ops ops c1), (erc20_run ops (token_abs c1)), (erc20_run ops t).
  simpl in *. subst. split; [done|]. split; [by rewrite E2|done].
Qed.

(** A fresh capped token, minted, spent through an allowance and overdrawn. *)
Definition demo_token : SRC20Contract := SRC20Contract_new "SRC20_0" "Demo" "DMO" 18 "own" 1000.
Definition demo_ops : list token_op :=
  [OpMint "own" "own" 900; OpMint "own" "own" 101; OpApprove "own" "bob" 300;
   OpTransferFrom "bob" "own" "eve" 250; OpTransferFrom "bob" "own" "eve" 51;
   OpBurn "eve" 50; OpTransfer "own" "own" 1].

Lemma token_wf_new a n s d o cap :
  0 <= cap → token_wf (SRC20Contract_new a n s d o cap).
Proof. intros Hc. split; try done; intros; simpl; ulia. Qed.

Lemma token_refines_witness :
  token_wf demo_token ∧ 0 < tk_max_supply demo_token ∧
  (run_ops demo_ops demo_token).2 = [true; false; true; true; false; true; false] ∧
  (run_ops demo_ops demo_token).2 = (erc20_run demo_ops (token_abs demo_token)).2.
Proof.
  split; [by apply token_wf_new|]. split; [done|]. split; [vm_compute; reflexivity|].
  apply (token_refines demo_ops demo_token).
  - by apply token_wf_new.
  - done.
  - repeat constructor; done.
Defined.

(** A mint that overflows the supply of an uncapped token fails only after
    it has credited the recipient: the error leaves [amount] tokens that the
    supply does not count. *)
Theorem mint_overflow_inflates c to amount :
  to ≠ "" → 0 < amount → tk_max_supply c = 0 →
  balance_of c to + amount <= U64_MAX → U64_MAX < tk_total_supply c + amount →
  let '(c', r) := mint (tk_owner c) to amount c in
  r = Err (Internal "token supply overflow") ∧
  balance_of c' to = balance_of c to + amount ∧
  tk_total_supply c' = tk_total_supply c ∧ held c' = held c + amount.
Proof.
  intros Ht Ha Hm Hb Ho. unfold mint. unfold_st_goal. unfold is_empty, checked_add.
  rewrite bool_decide_eq_true_2, bool_decide_eq_false_2, (proj2 (Z.eqb_neq amount 0)) by (done || lia).
  simpl. rewrite Hm. simpl. rewrite token_add_eq, (proj2 (Z.leb_le _ _)) by done.
  rewrite (proj2 (Z.leb_gt _ _)) by done. split_and!; [done| |done|].
  - by rewrite balance_of_set, decide_True.
  - rewrite held_set. lia.
Qed.

Definition full_token : SRC20Contract :=
  SRC20Contract_new "SRC20_0" "Full" "FUL" 18 "own" 0
    <| tk_total_supply := U64_MAX |> <| tk_balances := {["own" := U64_MAX]} |>.

Lemma mint_overflow_inflates_witness :
  token_wf full_token ∧ held (mint "own" "eve" 5 full_token).1 = U64_MAX + 5.
Proof.
  split.
  - split; try done; intros; simpl; try ulia.
    unfold balance_of. simpl. rewrite lookup_singleton. by case_decide.
  - pose proof (mint_overflow_inflates full_token "eve" 5 ltac:(done) ltac:(done) ltac:(done)
      ltac:(done) ltac:(done)) as H.
    change (tk_owner full_token) with "own" in H.
    destruct (mint "own" "eve" 5 full_token) as [c' r].
    destruct H as (_ & _ & _ & H). exact H.
Defined.

