(* ===== verification/TokenRegistry.v ===== *)
(** * SRC-20 tokens: canonical payload and registry

    The payload a contract's hash commits to, the search for a free contract
    address, and the invariant of the registry over deployments and calls. *)

From S2P Require Import Prelude Bytes Keys Token TokenProps.

(** ** The canonical payload *)

(** An allowance entry, told apart from an absent one. *)
Definition allow_entry (c : SRC20Contract) (o s : string) : option Z :=
  tk_allowances c !! o ≫= λ m, m !! s.

(** What the canonical hash commits to: everything, except that an owner with an
    empty allowance map is an owner without one. *)
Record same_token (c d : SRC20Contract) : Prop := {
  same_address : tk_contract_address c = tk_contract_address d;
  same_name : tk_name c = tk_name d;
  same_symbol : tk_symbol c = tk_symbol d;
  same_owner : tk_owner c = tk_owner d;
  same_decimals : tk_decimals c = tk_decimals d;
  same_supply : tk_total_supply c = tk_total_supply d;
  same_max : tk_max_supply c = tk_max_supply d;
  same_balances : tk_balances c = tk_balances d;
  same_allow o s : allow_entry c o s = allow_entry d o s;
}.

(** The types of the fields. *)
Record payload_ok (c : SRC20Contract) : Prop := {
  pl_strings : Forall short [tk_contract_address c; tk_name c; tk_symbol c; tk_owner c];
  pl_supply : in_u64 (tk_total_supply c);
  pl_max : in_u64 (tk_max_supply c);
  pl_bal a x : tk_balances c !! a = Some x → short a ∧ in_u64 x;
  pl_allow o s x : allow_entry c o s = Some x → (short o ∧ short s) ∧ in_u64 x;
  pl_nbal : Z.of_nat (size (tk_balances c)) <= U64_MAX;
  pl_nallow : Z.of_nat (length (@sorted_allowances canonical_order c)) <= U64_MAX;
}.

Section payload.
Context `{HashOrder}.

Lemma sorted_balances_perm c : sorted_balances c ≡ₚ map_to_list (tk_balances c).
Proof. unfold sorted_balances. by rewrite sort_by_key_perm, hm_entries_perm. Qed.

Lemma sorted_allowances_spec c :
  (∀ o s x, ((o, s), x) ∈ sorted_allowances c ↔ allow_entry c o s = Some x).
Proof.
  intros. unfold sorted_allowances. rewrite sort_by_key_perm. apply (elem_of_nested (tk_allowances c)).
Qed.
End payload.

Lemma sorted_allowances_canonical (H1 H2 : HashOrder) c d :
  (∀ o s, allow_entry c o s = allow_entry d o s) →
  @sorted_allowances H1 c = @sorted_allowances H2 d.
Proof. apply (sorted_nested_canonical H1 H2). Qed.

Lemma sorted_balances_canonical (H1 H2 : HashOrder) c d :
  tk_balances c = tk_balances d → @sorted_balances H1 c = @sorted_balances H2 d.
Proof. intros E. unfold sorted_balances. rewrite E. apply (sorted_entries_canonical String.le). Qed.

Lemma prefix_free_u64 : prefix_free in_u64 (to_be_bytes 8).
Proof.
  intros x y r r' Hx Hy. apply (prefix_free_be 8);
    change (256 ^ Z.of_nat 8) with (U64_MAX + 1); ulia.
Qed.

Lemma prefix_free_balances :
  prefix_free (λ l, Forall (λ p : string * Z, short p.1 ∧ in_u64 p.2) l
                    ∧ Z.of_nat (length l) <= U64_MAX) (enc_list enc_balance).
Proof. apply prefix_free_list, (prefix_free_pair _ _ _ _ prefix_free_string prefix_free_u64). Qed.

Lemma prefix_free_allowances :
  prefix_free (λ l, Forall (λ p : (string * string) * Z,
                              (short p.1.1 ∧ short p.1.2) ∧ in_u64 p.2) l
                    ∧ Z.of_nat (length l) <= U64_MAX) (enc_list enc_allowance).
Proof.
  apply prefix_free_list.
  exact (prefix_free_pair _ _ _ _ (prefix_free_pair _ _ _ _ prefix_free_string prefix_free_string)
           prefix_free_u64).
Qed.

Section payload_ok.
Context (Ho : HashOrder) (c : SRC20Contract) (Hok : payload_ok c).

Lemma balances_ok :
  Forall (λ p : string * Z, short p.1 ∧ in_u64 p.2) (@sorted_balances Ho c)
  ∧ Z.of_nat (length (@sorted_balances Ho c)) <= U64_MAX.
Proof.
  rewrite sorted_balances_perm, Forall_forall. split.
  - intros [a x] Hx%elem_of_map_to_list. by apply (pl_bal c Hok).
  - rewrite length_map_to_list. apply Hok.
Qed.

Lemma allowances_ok :
  Forall (λ p : (string * string) * Z, (short p.1.1 ∧ short p.1.2) ∧ in_u64 p.2)
    (@sorted_allowances Ho c)
  ∧ Z.of_nat (length (@sorted_allowances Ho c)) <= U64_MAX.
Proof.
  rewrite (sorted_allowances_canonical Ho canonical_order c c) by done. split.
  - apply Forall_forall. intros [[o s] x] Hx%sorted_allowances_spec. by apply (pl_allow c Hok).
  - apply Hok.
Qed.
End payload_ok.

(** The payload a node hashes for a contract identifies its state: two
    nodes, whatever the order their hash maps iterate in, hash the same bytes
    exactly when they hold the same contract. *)
Theorem contract_payload_canonical (H1 H2 : HashOrder) c d :
  payload_ok c → payload_ok d →
  @contract_payload H1 c = @contract_payload H2 d ↔ same_token c d.
Proof.
  intros Hc Hd. split.
  - pose proof (pl_strings c Hc) as Sc. pose proof (pl_strings d Hd) as Sd.
    rewrite !Forall_cons in Sc, Sd. destruct Sc as (?&?&?&?&_), Sd as (?&?&?&?&_).
    unfold contract_payload. intros E.
    do 4 (apply prefix_free_string in E as [? E]; [|done..]).
    apply app_inj_1 in E as [[= Edec] E]; [|done].
    apply prefix_free_u64 in E as [? E]; [|apply Hc|apply Hd].
    apply prefix_free_u64 in E as [? E]; [|apply Hc|apply Hd].
    apply prefix_free_balances in E as [Eb E]; [|by apply balances_ok..].
    apply (prefix_free_inj _ _ _ _ prefix_free_allowances) in E; [|by apply allowances_ok..].
    split; try done.
    + apply map_to_list_inj. by rewrite <-(@sorted_balances_perm H1), <-(@sorted_balances_perm H2), Eb.
    + intros o s. apply option_eq. intros x.
      by rewrite <-(@sorted_allowances_spec H1), <-(@sorted_allowances_spec H2), E.
  - intros [E1 E2 E3 E4 E5 E6 E7 E8 E9]. unfold contract_payload.
    rewrite E1, E2, E3, E4, E5, E6, E7.
    by rewrite (sorted_balances_canonical H1 H2 c d), (sorted_allowances_canonical H1 H2 c d).
Qed.

Lemma contract_payload_canonical_witness :
  payload_ok demo_token ∧ payload_ok full_token ∧
  (@contract_payload canonical_order demo_token = @contract_payload canonical_order full_token
   ↔ same_token demo_token full_token).
Proof.
  assert (Hs : ∀ s, (String.length s <= 64)%nat → short s) by (intros; unfold short; ulia).
  assert (Hd : payload_ok demo_token).
  { split; simpl; [repeat constructor; apply Hs; simpl; lia|ulia|ulia|..].
    - intros a x. by rewrite lookup_empty.
    - intros o s x. unfold allow_entry. simpl. by rewrite lookup_empty.
    - rewrite map_size_empty. ulia.
    - vm_compute. discriminate. }
  assert (Hf : payload_ok full_token).
  { split; simpl; [repeat constructor; apply Hs; simpl; lia|ulia|ulia|..].
    - intros a x [<- <-]%lookup_singleton_Some. split; [apply Hs; simpl; lia|ulia].
    - intros o s x. unfold allow_entry. simpl. by rewrite lookup_empty.
    - rewrite map_size_singleton. ulia.
    - vm_compute. discriminate. }
  split; [done|]. split; [done|]. exact (contract_payload_canonical _ _ _ _ Hd Hf).
Defined.

(** ** Deployment *)

Lemma app_string_neq s a t : s ≠ s +:+ String a t.
Proof.
  intros E. apply (f_equal String.length) in E. rewrite string_length_app in E. simpl in E. lia.
Qed.

Section deploy.
Context `{Sha256} (r : ContractRegistry) (deployer seed : string).

(** The address the search tries after [i] collisions, and what is hashed for it. *)
Definition candidate_input (i : Z) : string :=
  deployer +:+ "|" +:+ (if i =? 0 then seed else seed +:+ "|" +:+ pretty i).
Definition candidate (i : Z) : string :=
  compute_contract_address deployer (if i =? 0 then seed else seed +:+ "|" +:+ pretty i).

Lemma candidate_input_inj i j :
  0 <= i → 0 <= j → candidate_input i = candidate_input j → i = j.
Proof.
  unfold candidate_input. intros Hi Hj E.
  do 2 apply (inj (String.append _)) in E.
  destruct (Z.eqb_spec i 0), (Z.eqb_spec j 0); subst; try done.
  - by apply app_string_neq in E.
  - symmetry in E. by apply app_string_neq in E.
  - do 2 apply (inj (String.append _)) in E. by apply (inj pretty).
Qed.

Lemma free_address_Some fuel k addr a :
  free_address fuel r deployer seed k addr = Some a → rg_contracts r !! a = None.
Proof.
  revert k addr. induction fuel as [|fuel IH]; intros k addr; simpl;
    unfold contract_exists; case_bool_decide as Hb; try done.
  - intros [= <-]. by apply eq_None_not_Some.
  - apply IH.
  - intros [= <-]. by apply eq_None_not_Some.
Qed.

Lemma free_address_None fuel k :
  0 <= k → free_address fuel r deployer seed k (candidate k) = None →
  ∀ i : nat, (i <= fuel)%nat → candidate (k + Z.of_nat i) ∈ dom (rg_contracts r).
Proof.
  revert k. induction fuel as [|fuel IH]; intros k Hk; simpl;
    unfold contract_exists; case_bool_decide as Hb; try done; intros E i Hi.
  - apply elem_of_dom. by replace (k + Z.of_nat i) with k by lia.
  - destruct i as [|i]; [apply elem_of_dom; by rewrite Z.add_0_r|].
    replace (k + Z.of_nat (S i)) with (k + 1 + Z.of_nat i) by lia. apply IH; [lia| |lia].
    unfold candidate. by rewrite (proj2 (Z.eqb_neq _ _)) by lia.
Qed.

(** C36: the address search of [deploy] ends: if the truncated digests of the
    first [n + 1] candidates are distinct, where [n] contracts exist, it
    finds a free address after at most [n] collisions. *)
Theorem free_address_terminates :
  let n := size (rg_contracts r) in
  collision_free (λ x, String.substring 0 40 (sha256_hex x))
    ((λ i, as_bytes (candidate_input (Z.of_nat i))) <$> seq 0 (S n)) →
  ∃ a, free_address n r deployer seed 0 (compute_contract_address deployer seed) = Some a ∧
       rg_contracts r !! a = None.
Proof.
  intros n Hcf. change (compute_contract_address deployer seed) with (candidate 0).
  destruct (free_address n r deployer seed 0 (candidate 0)) as [a|] eqn:E.
  { exists a. split; [done|by eapply free_address_Some]. }
  pose proof (free_address_None n 0 ltac:(lia) E) as Hall.
  set (l := (λ i, candidate (Z.of_nat i)) <$> seq 0 (S n)).
  assert (Hn : NoDup l).
  { apply NoDup_fmap_2_strong; [|apply NoDup_seq]. intros i j Hi Hj Eij.
    assert (Einp : candidate_input (Z.of_nat i) = candidate_input (Z.of_nat j)).
    { apply (inj as_bytes), Hcf;
        [apply list_elem_of_fmap; by exists i|apply list_elem_of_fmap; by exists j|].
      by apply (inj (String.append "SRC20_")). }
    apply Nat2Z.inj, candidate_input_inj; [lia..|done]. }
  assert (Hsub : list_to_set l ⊆ dom (rg_contracts r)).
  { intros a (i & -> & Hi%elem_of_seq)%elem_of_list_to_set%list_elem_of_fmap.
    apply (Hall i). lia. }
  apply subseteq_size in Hsub. rewrite size_list_to_set, size_dom in Hsub by done.
  unfold l in Hsub. rewrite length_fmap, length_seq in Hsub. lia.
Qed.
End deploy.

Definition busy_registry : ContractRegistry :=
  mkRegistry {[ @compute_contract_address toy_sha "own" "s" := demo_token ]}.

Lemma free_address_terminates_witness :
  ∃ a, @free_address toy_sha 1 busy_registry "own" "s" 0
         (@compute_contract_address toy_sha "own" "s") = Some a ∧
       rg_contracts busy_registry !! a = None.
Proof.
  apply (@free_address_terminates toy_sha busy_registry "own" "s").
  apply collision_freeb_ok. vm_compute. reflexivity.
Defined.

(** ** The registry invariant *)

Definition registry_wf (r : ContractRegistry) : Prop :=
  ∀ a c, rg_contracts r !! a = Some c → token_wf c ∧ tk_contract_address c = a.

Lemma op_address op c c' : run_op op c = (c', Ok tt) →
  tk_contract_address c' = tk_contract_address c.
Proof.
  destruct op; simpl; intros H.
  all: unfold mint, burn_token, transfer_token, approve, increase_allowance,
         decrease_allowance, transfer_from in H; unfold_st H.
  all: by repeat (first [rewrite token_sub_eq in H | rewrite token_add_eq in H | case_match];
               simplify_eq; try done).
Qed.

Lemma token_wf_op_registry a c c' op r :
  registry_wf r → rg_contracts r !! a = Some c → in_u64 (op_amount op) →
  run_op op c = (c', Ok tt) → registry_wf (put_contract a c' r).
Proof.
  intros Hr Ha Hx Hop k d. simpl. rewrite lookup_insert_Some. intros [[<- <-]|[_ ?]]; [|by apply Hr].
  destruct (Hr _ _ Ha) as [Hwf <-]. split; [by eapply token_wf_step|by eapply op_address].
Qed.

(** A call that succeeds is one of the seven operations, or reads only. *)
Lemma call_method_op method caller p c c' rep :
  call_method method caller p c = (c', Ok rep) →
  c' = c ∨ ∃ op, op_amount op = param_u64 p "amount" ∧ run_op op c = (c', Ok tt).
Proof.
  assert (Hop : ∀ op (v : call_reply), op_amount op = param_u64 p "amount" →
    (run_op op ;; mret v : st _ _) c = (c', Ok rep) →
    c' = c ∨ ∃ op, op_amount op = param_u64 p "amount" ∧ run_op op c = (c', Ok tt)).
  { intros op v Ho ([] & s1 & E & [= <- _])%st_bind_ok. right. by exists op. }
  unfold call_method. intros H. repeat case_match.
  - by eapply (Hop (OpMint caller (param_str p "to") _)).
  - by eapply (Hop (OpBurn caller _)).
  - by eapply (Hop (OpTransfer caller (param_str p "to") _)).
  - by eapply (Hop (OpApprove caller (param_str p "spender") _)).
  - by eapply (Hop (OpIncrease caller (param_str p "spender") _)).
  - by eapply (Hop (OpDecrease caller (param_str p "spender") _)).
  - by eapply (Hop (OpTransferFrom caller (param_str p "from") (param_str p "to") _)).
  - left. by injection H as <-.
  - left. by injection H as <-.
  - left. by injection H as <-.
  - done.
Qed.

(** The operations of the registry that a transaction can reach. *)
Inductive registry_step `{Sha256} : ContractRegistry → ContractRegistry → Prop :=
  | step_deploy fuel deployer name symbol decimals total max seed r r' a :
      in_u64 total → in_u64 max →
      deploy_with fuel deployer name symbol decimals total max seed r = Some (r', Ok a) →
      registry_step r r'
  | step_call contract method caller p r r' rep :
      in_u64 (param_u64 p "amount") →
      call contract method caller p r = (r', Ok rep) → registry_step r r'
  | step_execute contract op r r' :
      in_u64 (op_amount op) →
      on_contract contract (run_op op) r = (r', Ok tt) → registry_step r r'.

Lemma deploy_ok `{Sha256} fuel deployer name symbol decimals total max seed r r' a :
  in_u64 total → in_u64 max →
  deploy_with fuel deployer name symbol decimals total max seed r = Some (r', Ok a) →
  rg_contracts r !! a = None ∧
  ∃ c, r' = put_contract a c r ∧ token_wf c ∧ tk_contract_address c = a ∧
       token_abs c ≡ mkErc20 deployer max total (λ b, at_key b deployer total) (λ _ _, 0).
Proof.
  intros Ht Hm. unfold deploy_with. repeat case_match; simplify_eq; try done.
  intros [= <- <-]. split; [by eapply free_address_Some|]. eexists. split; [done|].
  match goal with H : mint _ _ _ ?c0 = (?c, Ok ?u) |- _ =>
    destruct u; set (op := OpMint deployer deployer total);
    assert (Hop : run_op op c0 = (c, Ok tt)) by exact H;
    assert (Hwf : token_wf c0) by (apply token_wf_new; ulia)
  end.
  split; [exact (token_wf_step op _ _ Hwf Ht Hop)|]. split; [exact (op_address op _ _ Hop)|].
  pose proof (op_sim _ Hwf op Ht (mint_ok_fits _ _ _ Hop)) as Hs. rewrite Hop in Hs.
  destruct Hs as [_ ->]. by split.
Qed.

(** Every contract of the registry stays solvent: along any sequence of
    successful deployments and calls, each contract is filed under its own
    address, its balances are non-negative and add up to its supply, and the
    supply respects the cap. *)
Theorem registry_wf_run `{Sha256} r r' :
  rtc registry_step r r' → registry_wf r → registry_wf r'.
Proof.
  induction 1 as [|r r1 r' Hstep _ IH]; [done|]. intros Hwf. apply IH. clear IH.
  destruct Hstep as [fuel deployer name symbol decimals total max seed r r1 a Ht Hm Hd
                    |contract method caller p r r1 rep Hp Hc|contract op r r1 Hx Ho].
  - apply deploy_ok in Hd as (Ha & c & -> & Hc & Hca & _); [|done..].
    intros k d. simpl. rewrite lookup_insert_Some. intros [[<- <-]|[_ ?]]; [done|by apply Hwf].
  - unfold call, on_contract in Hc. destruct (rg_contracts r !! contract) as [c|] eqn:Ec; [|done].
    destruct (call_method _ _ _ _) as [c' res] eqn:Em. injection Hc as <- ->.
    apply call_method_op in Em as [->|(op & Eo & Hop)].
    + unfold put_contract. destruct r as [m]. simpl in *. by rewrite insert_id.
    + eapply token_wf_op_registry; [done..| |done]. by rewrite Eo.
  - unfold on_contract in Ho. destruct (rg_contracts r !! contract) as [c|] eqn:Ec; [|done].
    destruct (run_op op c) as [c' res] eqn:Em. injection Ho as <- ->.
    by eapply token_wf_op_registry.
Qed.

Lemma registry_wf_run_witness :
  let r := match @deploy_with toy_sha 0 "own" "Demo" "DMO" 18 900 1000 "s" ContractRegistry_new with
           | Some (r, _) => r | None => ContractRegistry_new end in
  contract_count r = 1%nat ∧ registry_wf r.
Proof.
  split; [vm_compute; reflexivity|].
  apply (@registry_wf_run toy_sha ContractRegistry_new).
  - apply rtc_once. eapply (@step_deploy toy_sha 0 "own" "Demo" "DMO" 18 900 1000 "s").
    + done.
    + done.
    + vm_compute. reflexivity.
  - intros a c. simpl. by rewrite lookup_empty.
Defined.
