(* ===== verification/Merkle.v ===== *)
(** * The Merkle root of a block's transactions

    Models crates/sentrix-primitives/src/merkle.rs.  The last element of an odd
    level is paired with itself, so a list of transaction ids is determined by
    its root only because a block's ids are distinct and none is the digest of
    an inner node. *)

From S2P Require Import Prelude Bytes.

(** ["0".repeat(64)] *)
Definition zeros_64 : string :=
  "0000000000000000000000000000000000000000000000000000000000000000".

(** [if !level.len().is_multiple_of(2) { level.push(last) }] *)
Definition pad_level (level : list string) : list string :=
  if Nat.odd (length level) then
    match last level with Some l => level ++ [l] | None => level end
  else level.

Section merkle.
Context `{Sha256}.

(** The loop over [level.chunks(2)]; the level is padded, so every chunk is a
    pair. *)
Fixpoint hash_chunks (level : list string) : list string :=
  match level with
  | a :: b :: rest => sha256_hex (as_bytes (a +:+ b)) :: hash_chunks rest
  | _ => []
  end.

Definition next_level (level : list string) : list string := hash_chunks (pad_level level).

(** [while level.len() > 1], with a bound on the number of levels; [None] when
    it is not enough. *)
Fixpoint merkle_loop (fuel : nat) (level : list string) : option string :=
  if (1 <? length level)%nat then
    match fuel with
    | O => None
    | S fuel => merkle_loop fuel (next_level level)
    end
  else Some (default zeros_64 (head level)).

Definition merkle_root (txids : list string) : string :=
  match txids with
  | [] => zeros_64
  | [t] => sha256_hex (as_bytes t)
  | _ => default zeros_64 (merkle_loop (length txids) txids)
  end.

(** ** Levels *)

(** The byte strings hashed to build the next level. *)
Fixpoint pairs_of (level : list string) : list (string * string) :=
  match level with
  | a :: b :: rest => (a, b) :: pairs_of rest
  | [a] => [(a, a)]
  | [] => []
  end.
Definition level_inputs (level : list string) : list bytes :=
  (λ p : string * string, as_bytes (p.1 +:+ p.2)) <$> pairs_of level.

Lemma list_pair_ind {A} (P : list A → Prop) :
  P [] → (∀ a, P [a]) → (∀ a b l, P l → P (a :: b :: l)) → ∀ l, P l.
Proof.
  intros H0 H1 H2 l. enough (P l ∧ ∀ a, P (a :: l)) by tauto.
  induction l as [|b l [IH1 IH2]]; [auto|]. split; [apply IH2|]. intros a. by apply H2.
Qed.

Lemma pad_level_cons a b l : pad_level (a :: b :: l) = a :: b :: pad_level l.
Proof.
  unfold pad_level. change (Nat.odd (length (a :: b :: l))) with (Nat.odd (length l)).
  destruct (Nat.odd (length l)) eqn:E; [|done]. destruct l as [|x l]; [done|].
  rewrite !last_cons_cons. destruct (last (x :: l)) eqn:El; [done|]. by apply last_None in El.
Qed.

Lemma next_level_eq l : next_level l = sha256_hex <$> level_inputs l.
Proof.
  unfold next_level. induction l as [|a|a b l IH] using list_pair_ind; [done|done|].
  rewrite pad_level_cons. simpl. by rewrite IH.
Qed.

Lemma length_pairs_of l : (length (pairs_of l) <= length l)%nat
  ∧ ((2 <= length l)%nat → (length (pairs_of l) < length l)%nat)
  ∧ (l ≠ [] → pairs_of l ≠ []).
Proof. induction l as [|a|a b l (?&?&?)] using list_pair_ind; simpl; split_and!; try done; lia. Qed.

Lemma next_level_shorter l :
  (2 <= length l)%nat → (length (next_level l) < length l)%nat ∧ next_level l ≠ [].
Proof.
  intros Hl. rewrite next_level_eq. unfold level_inputs. rewrite !length_fmap.
  destruct (length_pairs_of l) as (_ & ? & Hne). split; [auto|].
  destruct (pairs_of l) eqn:E; [|done]. destruct l; [simpl in Hl; lia|]. by destruct Hne.
Qed.

Lemma merkle_loop_total l fuel :
  (length l <= fuel)%nat → merkle_loop fuel l = Some (default zeros_64 (merkle_loop (length l) l)).
Proof.
  enough (Hs : ∀ n l, (length l <= n)%nat → ∃ r, ∀ f, (length l <= f)%nat → merkle_loop f l = Some r).
  { intros Hf. destruct (Hs (length l) l) as [r Hr]; [done|]. by rewrite !Hr by lia. }
  clear. induction n as [|n IH]; intros l Hn.
  - exists zeros_64. intros f _. destruct l; [by destruct f|simpl in Hn; lia].
  - destruct (decide (2 <= length l)%nat) as [H2|H2].
    + destruct (next_level_shorter l H2) as [Hlt _].
      destruct (IH (next_level l)) as [r Hr]; [lia|]. exists r. intros [|f] Hf; [lia|].
      simpl. rewrite (proj2 (Nat.ltb_lt _ _)) by lia. apply Hr. lia.
    + eexists. intros f _. destruct f; simpl; by rewrite (proj2 (Nat.ltb_ge _ _)) by lia.
Qed.

(** ** The root determines the list *)

(** Everything hashed above a level. *)
Fixpoint tree_inputs (fuel : nat) (level : list string) : list bytes :=
  if (1 <? length level)%nat then
    level_inputs level ++
    match fuel with O => [] | S fuel => tree_inputs fuel (next_level level) end
  else [].
Definition inner_inputs (txids : list string) : list bytes := tree_inputs (length txids) txids.

Definition level_step (l k : list string) : Prop := (2 <= length l)%nat ∧ k = next_level l.
Definition top (l : list string) : string := default zeros_64 (merkle_loop (length l) l).

Lemma top_step l : (2 <= length l)%nat → top l = top (next_level l).
Proof.
  intros Hl. unfold top at 1. destruct (length l) as [|n] eqn:En; [lia|]. simpl.
  rewrite En, (proj2 (Nat.ltb_lt _ _)) by lia.
  destruct (next_level_shorter l) as [? _]; [lia|].
  by rewrite (merkle_loop_total (next_level l)) by lia.
Qed.

Lemma top_reached l : l ≠ [] → rtc level_step l [top l].
Proof.
  remember (length l) as n eqn:Hn. revert l Hn.
  induction n as [n IH] using lt_wf_ind. intros l -> Hne.
  destruct (decide (2 <= length l)%nat) as [H2|H2].
  - destruct (next_level_shorter l H2) as [Hlt Hne2]. rewrite (top_step l H2).
    eapply rtc_l; [by split|]. by eapply IH.
  - destruct l as [|x [|y l]]; [done| |simpl in H2; lia]. apply rtc_refl.
Qed.

Lemma tree_inputs_step fuel l k :
  (length l <= fuel)%nat → rtc level_step l k → (2 <= length k)%nat →
  level_inputs k ⊆ tree_inputs fuel l.
Proof.
  intros Hf Hr. revert fuel Hf. induction Hr as [l|l m k [Hl ->] _ IH]; intros fuel Hf Hk.
  - destruct fuel; simpl; rewrite (proj2 (Nat.ltb_lt _ _)) by lia; set_solver.
  - destruct fuel as [|fuel]; [lia|]. simpl. rewrite (proj2 (Nat.ltb_lt _ _)) by lia.
    destruct (next_level_shorter l Hl) as [? _]. pose proof (IH fuel ltac:(lia) Hk). set_solver.
Qed.

Lemma tree_inputs_elem fuel l x :
  x ∈ tree_inputs fuel l → ∃ k, rtc level_step l k ∧ (2 <= length k)%nat ∧ x ∈ level_inputs k.
Proof.
  revert l. induction fuel as [|fuel IH]; intros l; simpl;
    destruct (Nat.ltb_spec 1 (length l)); try set_solver.
  intros [Hx|(k & Hr & Hk & Hx)%IH]%elem_of_app.
  - exists l. by split.
  - exists k. split; [|done]. eapply rtc_l; [|done]. by split.
Qed.

Lemma inner_inputs_level l k : rtc level_step l k → inner_inputs k ⊆ inner_inputs l.
Proof.
  intros Hr x (m & Hm & Hl & Hx)%tree_inputs_elem.
  apply (tree_inputs_step (length l) l m); [done|by etrans|done..].
Qed.

Lemma level_inputs_inner l k :
  rtc level_step l k → (2 <= length k)%nat → level_inputs k ⊆ inner_inputs l.
Proof. intros. by apply tree_inputs_step. Qed.

Definition len64 (s : string) : Prop := String.length s = 64%nat.

Lemma pair_bytes_inj a b c d :
  len64 a → len64 c → as_bytes (a +:+ b) = as_bytes (c +:+ d) → a = c ∧ b = d.
Proof.
  intros Ha Hc. rewrite !as_bytes_app. intros [E1 E2]%app_inj_1; [|rewrite !length_as_bytes; congruence].
  split; by apply (inj as_bytes).
Qed.

Lemma fmap_collision_free {D} (h : bytes → D) xs l1 l2 :
  collision_free h xs → l1 ⊆ xs → l2 ⊆ xs → h <$> l1 = h <$> l2 → l1 = l2.
Proof.
  intros Hc. revert l2. induction l1 as [|x l1 IH]; intros [|y l2] H1 H2 E; try done.
  injection E as Eh E. f_equal; [apply Hc; set_solver|]. apply IH; [set_solver..|done].
Qed.

Lemma pairs_fst l : (pairs_of l).*1 `sublist_of` l.
Proof.
  induction l as [|a|a b l IH] using list_pair_ind; simpl; [done..|].
  by apply sublist_skip, sublist_cons.
Qed.
Lemma elem_of_pairs a b l : (a, b) ∈ pairs_of l → a ∈ l ∧ b ∈ l.
Proof. induction l as [|c|c d l IH] using list_pair_ind; simpl; set_solver. Qed.

(** The lemmas below are about a level of 64-character strings. *)
Lemma NoDup_inputs l : Forall len64 l → NoDup l → NoDup (level_inputs l).
Proof.
  intros H64 Hn. apply NoDup_fmap_2_strong.
  - intros [a b] [c d] [Ha _]%elem_of_pairs [Hc _]%elem_of_pairs E. simpl in E.
    rewrite Forall_forall in H64. destruct (pair_bytes_inj a b c d) as [-> ->]; auto.
  - eapply NoDup_fmap_1, sublist_NoDup, pairs_fst. done.
Qed.
Lemma pairs_inj l l' : NoDup l → NoDup l' → pairs_of l = pairs_of l' → l = l'.
Proof.
  revert l'. induction l as [|a|a b l IH] using list_pair_ind;
    intros l' Hn Hn' E; destruct l' as [|c [|d l']]; simpl in E; try done.
  - by simplify_eq.
  - simplify_eq. apply NoDup_cons in Hn' as [Hc _]. set_solver.
  - simplify_eq. apply NoDup_cons in Hn as [Hc _]. set_solver.
  - simplify_eq. f_equal. f_equal. apply IH; [|..|done].
    + by do 2 apply NoDup_cons_1_2 in Hn.
    + by do 2 apply NoDup_cons_1_2 in Hn'.
Qed.
Lemma inputs_inj l l' :
  Forall len64 l → Forall len64 l' → NoDup l → NoDup l' → level_inputs l = level_inputs l' → l = l'.
Proof.
  intros H64 H64' Hn Hn' E. apply pairs_inj; [done..|]. unfold level_inputs in E.
  assert (Hp : ∀ p k, Forall len64 k → p ∈ pairs_of k → len64 p.1).
  { intros [a b] k Hk [Ha _]%elem_of_pairs. rewrite Forall_forall in Hk. by apply Hk. }
  revert E. generalize (λ p, Hp p l H64) (λ p, Hp p l' H64').
  generalize (pairs_of l) (pairs_of l'). clear. intros ps.
  induction ps as [|[a b] ps IH]; intros [|[c d] qs] H1 H2 E; try done.
  injection E as E1 E.
  destruct (pair_bytes_inj a b c d (H1 (a, b) ltac:(set_solver)) (H2 (c, d) ltac:(set_solver)) E1)
    as [-> ->].
  f_equal. apply IH; [set_solver..|done].
Qed.

Context `{!Sha256Laws}.

Lemma next_level_64 l : Forall len64 (next_level l).
Proof. rewrite next_level_eq. apply Forall_fmap, Forall_true. intros x. apply sha256_hex_length. Qed.

Lemma next_level_NoDup l xs :
  collision_free sha256_hex xs → level_inputs l ⊆ xs → Forall len64 l → NoDup l → NoDup (next_level l).
Proof.
  intros Hc Hs H64 Hn. rewrite next_level_eq. apply NoDup_fmap_2_strong; [|by apply NoDup_inputs].
  intros x y Hx Hy. apply Hc; set_solver.
Qed.

(** A level of a tree whose inner digests do not collide. *)
Lemma level_ok xs l k :
  collision_free sha256_hex xs → inner_inputs l ⊆ xs → Forall len64 l → NoDup l →
  rtc level_step l k → Forall len64 k ∧ NoDup k.
Proof.
  intros Hc Hs H64 Hn. revert k. refine (rtc_ind_r _ _ _ _); [done|].
  intros k m Hr [Hk ->] [IH1 IH2].
  split; [apply next_level_64|]. eapply next_level_NoDup; [done| |done..].
  pose proof (tree_inputs_step (length l) l k ltac:(done) Hr Hk). unfold inner_inputs in Hs. set_solver.
Qed.

(** The level loop ends: as many steps as there are ids always suffice, the
    result is then the root, and further steps change nothing. *)
Theorem merkle_loop_terminates t u l fuel :
  (length (t :: u :: l) <= fuel)%nat →
  merkle_loop fuel (t :: u :: l) = Some (merkle_root (t :: u :: l)).
Proof. apply merkle_loop_total. Qed.

Section binds.
Context (xs : list bytes) (Hc : collision_free sha256_hex xs).

Lemma next_level_inj l l' :
  level_inputs l ⊆ xs → level_inputs l' ⊆ xs → Forall len64 l ∧ NoDup l → Forall len64 l' ∧ NoDup l' →
  next_level l = next_level l' → l = l'.
Proof.
  intros Hs Hs' [??] [??]. rewrite !next_level_eq. intros E.
  apply inputs_inj; [done..|]. by eapply fmap_collision_free.
Qed.

(** A level of the tree of [l'] that hashes to the level above [l] is [l]. *)
Lemma step_back l l' :
  (2 <= length l)%nat → (2 <= length l')%nat →
  Forall len64 l ∧ NoDup l → Forall len64 l' ∧ NoDup l' →
  inner_inputs l ⊆ xs → inner_inputs l' ⊆ xs →
  rtc level_step (next_level l) (next_level l') → rtc level_step l l'.
Proof.
  intros H2 H2' Hl Hl' Hs Hs' Hr.
  assert (Hi' : level_inputs l' ⊆ xs) by (etrans; [by apply level_inputs_inner|done]).
  assert (∃ m, rtc level_step l m ∧ (2 <= length m)%nat ∧ next_level m = next_level l')
    as (m & Hm & Hm2 & E).
  { apply rtc_inv_r in Hr as [E|(m & Hm & Hm2 & E)]; [by exists l|].
    exists m. split; [|done]. eapply rtc_l; [|done]. by split. }
  assert (level_inputs m ⊆ xs) by (etrans; [by apply level_inputs_inner|done]).
  destruct Hl as [Hl64 Hld]. pose proof (level_ok xs l m Hc Hs Hl64 Hld Hm).
  by rewrite <-(next_level_inj m l').
Qed.

(** Two trees with one root: one list is a level of the other's tree. *)
Lemma same_top_level n l l' :
  (length l <= n)%nat → l ≠ [] → l' ≠ [] → Forall len64 l → NoDup l → Forall len64 l' → NoDup l' →
  inner_inputs l ⊆ xs → inner_inputs l' ⊆ xs → top l = top l' →
  rtc level_step l l' ∨ rtc level_step l' l.
Proof.
  revert l l'. induction n as [|n IH]; intros l l' Hn Hne Hne' H64 Hd H64' Hd' Hs Hs' E.
  { destruct l; [done|simpl in Hn; lia]. }
  destruct (decide (2 <= length l)%nat) as [H2|H2].
  2:{ right. pose proof (top_reached l' Hne') as Hr. destruct l as [|x [|y l]]; [done| |simpl in H2; lia].
      by rewrite <-E in Hr. }
  destruct (decide (2 <= length l')%nat) as [H2'|H2'].
  2:{ left. pose proof (top_reached l Hne) as Hr. destruct l' as [|x [|y l']]; [done| |simpl in H2'; lia].
      by rewrite E in Hr. }
  destruct (next_level_shorter l H2) as [Hlt Hne1].
  destruct (next_level_shorter l' H2') as [_ Hne1'].
  assert (Hi : level_inputs l ⊆ xs) by (etrans; [by apply level_inputs_inner|done]).
  assert (Hi' : level_inputs l' ⊆ xs) by (etrans; [by apply level_inputs_inner|done]).
  assert (Hr : rtc level_step l (next_level l)) by (by apply rtc_once).
  assert (Hr' : rtc level_step l' (next_level l')) by (by apply rtc_once).
  destruct (IH (next_level l) (next_level l')) as [Hup|Hup]; try done; try lia.
  - apply next_level_64.
  - by eapply next_level_NoDup.
  - apply next_level_64.
  - by eapply next_level_NoDup.
  - etrans; [by apply inner_inputs_level|done].
  - etrans; [by apply inner_inputs_level|done].
  - by rewrite <-!top_step.
  - left. by apply (step_back l l').
  - right. by apply (step_back l' l).
Qed.
End binds.

Lemma level_64 l k : Forall len64 l → rtc level_step l k → Forall len64 k.
Proof.
  intros H64 [E|(m & _ & _ & ->)]%rtc_inv_r; [by subst|apply next_level_64].
Qed.

(** A level above [l] consists of inner digests. *)
Lemma level_above l k :
  rtc level_step l k → l = k ∨ ∃ v, v ∈ k ∧ ∃ x, v = sha256_hex x ∧ x ∈ inner_inputs l.
Proof.
  intros [E|(m & Hm & H2 & ->)]%rtc_inv_r; [by left|]. right.
  destruct (next_level_shorter m H2) as [_ Hne]. rewrite next_level_eq in Hne |- *.
  destruct (level_inputs m) as [|x xs] eqn:Ex; [done|].
  exists (sha256_hex x). split; [set_solver|]. exists x. split; [done|].
  apply (level_inputs_inner l m Hm H2). rewrite Ex. set_solver.
Qed.

(** The root of a single id hashes 64 bytes, every other root 128. *)
Lemma top_inner l :
  (2 <= length l)%nat → Forall len64 l →
  ∃ i, i ∈ inner_inputs l ∧ top l = sha256_hex i ∧ length i = 128%nat.
Proof.
  intros Hl H64. assert (Hr : rtc level_step l [top l]).
  { apply top_reached. intros ->. simpl in Hl. lia. }
  apply rtc_inv_r in Hr as [E|(m & Hm & H2 & E)];
    [apply (f_equal length) in E; simpl in E; lia|].
  pose proof (level_64 l m H64 Hm) as Hm64. rewrite Forall_forall in Hm64.
  rewrite next_level_eq in E. pose proof (level_inputs_inner l m Hm H2) as Hsub.
  assert (Hlen : ∀ i, i ∈ level_inputs m → length i = 128%nat).
  { intros i ([a b] & -> & [Ha Hb]%elem_of_pairs)%list_elem_of_fmap. simpl.
    rewrite as_bytes_app, length_app, !length_as_bytes. rewrite (Hm64 a), (Hm64 b) by done. done. }
  destruct (level_inputs m) as [|i k]; [done|]. injection E as E _.
  exists i. split_and!; [set_solver|done|apply Hlen; set_solver].
Qed.

Lemma leaf_not_top xs t l :
  collision_free sha256_hex xs → inner_inputs l ⊆ xs → Forall len64 l → (2 <= length l)%nat →
  as_bytes t ∈ xs → len64 t → sha256_hex (as_bytes t) ≠ top l.
Proof.
  intros Hc Hs H64 Hl Hin Ht E. destruct (top_inner l Hl H64) as (i & Hi & Ei & Hlen).
  rewrite Ei in E. apply Hc in E; [|done|by apply Hs].
  rewrite <-E, length_as_bytes, Ht in Hlen. done.
Qed.

(** The statement of [merkle_root_binds], for use by other components. *)
Lemma merkle_root_inj l l' :
  l ≠ [] → l' ≠ [] → NoDup l → NoDup l' → Forall len64 (l ++ l') →
  collision_free sha256_hex ((as_bytes <$> l ++ l') ++ inner_inputs l ++ inner_inputs l') →
  (∀ t x, t ∈ l ++ l' → x ∈ inner_inputs l ++ inner_inputs l' → t ≠ sha256_hex x) →
  merkle_root l = merkle_root l' → l = l'.
Proof.
  intros Hne Hne' Hd Hd' H64 Hc Hleaf E. apply Forall_app in H64 as [H64 H64'].
  set (xs := _ ++ _ ++ _) in Hc.
  assert (Hin : ∀ t, t ∈ l ++ l' → as_bytes t ∈ xs)
    by (intros; apply elem_of_app; left; by apply list_elem_of_fmap_2).
  assert (Hs : inner_inputs l ⊆ xs) by set_solver.
  assert (Hs' : inner_inputs l' ⊆ xs) by set_solver.
  destruct l as [|t [|u l]]; [done| |]; destruct l' as [|t' [|u' l']]; try done.
  - apply Hc in E; [|apply Hin; set_solver..]. apply (inj as_bytes) in E. by subst.
  - exfalso. apply (leaf_not_top xs t (t' :: u' :: l')); try done; [simpl; lia| |].
    + apply Hin. set_solver.
    + by apply Forall_cons in H64 as [? _].
  - exfalso. apply (leaf_not_top xs t' (t :: u :: l)); try done; [simpl; lia| |].
    + apply Hin. set_solver.
    + by apply Forall_cons in H64' as [? _].
  - destruct (same_top_level xs Hc _ (t :: u :: l) (t' :: u' :: l') (le_n _)) as [Hr|Hr]; try done.
    + apply level_above in Hr as [?|(v & Hv & x & -> & Hx)]; [done|].
      by destruct (Hleaf (sha256_hex x) x); [apply elem_of_app; right|apply elem_of_app; left|].
    + apply level_above in Hr as [?|(v & Hv & x & -> & Hx)]; [done|].
      by destruct (Hleaf (sha256_hex x) x); [apply elem_of_app; left|apply elem_of_app; right|].
Qed.

(** The Merkle root identifies the transaction ids of a block: two non-empty
    lists of distinct 64-character ids with one root are equal, whatever their
    lengths, if no two of the hashed strings collide and no id is itself the
    digest of an inner node. *)
Theorem merkle_root_binds l l' :
  l ≠ [] → l' ≠ [] → NoDup l → NoDup l' → Forall len64 (l ++ l') →
  collision_free sha256_hex ((as_bytes <$> l ++ l') ++ inner_inputs l ++ inner_inputs l') →
  (∀ t x, t ∈ l ++ l' → x ∈ inner_inputs l ++ inner_inputs l' → t ≠ sha256_hex x) →
  merkle_root l = merkle_root l' → l = l'.
Proof. apply merkle_root_inj. Qed.
End merkle.

(** A test for the side condition on ids, for concrete inputs. *)
Definition not_innerb `{Sha256} (ts : list string) (xs : list bytes) : bool :=
  let hs := sha256_hex <$> xs in forallb (λ t, bool_decide (t ∉ hs)) ts.
Lemma not_innerb_ok `{Sha256} ts xs :
  not_innerb ts xs = true → ∀ t x, t ∈ ts → x ∈ xs → t ≠ sha256_hex x.
Proof.
  unfold not_innerb. rewrite forallb_forall. intros Hb t x Ht Hx ->.
  apply list_elem_of_In, Hb, bool_decide_eq_true_1 in Ht. by apply Ht, list_elem_of_fmap_2.
Qed.

Definition demo_ids : list string :=
  decimal_digits 64 <$> [3; 14; 159].

Lemma merkle_root_binds_witness :
  @merkle_root toy_sha demo_ids = @merkle_root toy_sha (take 3 demo_ids) ∧ demo_ids = take 3 demo_ids.
Proof.
  split; [vm_compute; reflexivity|].
  apply (@merkle_root_binds toy_sha toy_sha_laws demo_ids (take 3 demo_ids)).
  - done.
  - done.
  - apply (bool_decide_unpack _). vm_compute. exact I.
  - apply (bool_decide_unpack _). vm_compute. exact I.
  - vm_compute. repeat constructor.
  - apply collision_freeb_ok. vm_compute. reflexivity.
  - apply not_innerb_ok. vm_compute. reflexivity.
  - vm_compute. reflexivity.
Defined.

Lemma merkle_loop_terminates_witness :
  (length ["a"; "b"; "c"] <= 3)%nat ∧
  @merkle_loop toy_sha 3 ["a"; "b"; "c"] = Some (@merkle_root toy_sha ["a"; "b"; "c"]).
Proof. split; [done|]. apply merkle_loop_terminates. simpl. lia. Defined.

(** The odd-duplication property the distinctness of ids guards against. *)
Example merkle_odd_duplication `{Sha256} a b c : merkle_root [a; b; c] = merkle_root [a; b; c; c].
Proof. reflexivity. Qed.
