(* ===== verification/Trie.v ===== *)
(** * The state trie

    Models crates/sentrix-trie: the binary sparse Merkle tree (tree.rs) over a
    content-addressed node store with a write buffer (cache.rs, storage.rs), its
    hashes (node.rs), its proofs (proof.rs) and the keys and values of the state
    it commits to (address.rs).  The LRU cache only repeats what the buffer and
    the tables hold and is left out; storage calls succeed. *)

From S2P Require Import Prelude Bytes.

(** ** Hashes (node.rs) *)

Class Blake3 := { blake3 : bytes → bytes }.

Section hashes.
Context `{Sha256, Blake3}.

Definition NULL_HASH : bytes := replicate 32 0.
Definition hash_internal (left right : bytes) : bytes := sha256_bytes (1 :: left ++ right).
Definition hash_leaf (key value : bytes) : bytes := blake3 (0 :: key ++ value).

(** The table of empty subtrees, counted from the leaves up. *)
Fixpoint empty_table (height : nat) : bytes :=
  match height with
  | O => sha256_bytes (replicate 32 0)
  | S n => let e := empty_table n in hash_internal e e
  end.
Definition empty_hash (depth : nat) : bytes :=
  if (depth <=? 256)%nat then empty_table (256 - depth) else NULL_HASH.
End hashes.

Definition get_bit (key : bytes) (i : nat) : bool :=
  Z.testbit (key !!! (i / 8)%nat) (7 - Z.of_nat (i mod 8)).

Inductive TrieNode :=
  | LeafNode (key value_hash : bytes)
  | InternalNode (left right hash : bytes).

(** ** Storage *)

(** What a tombstone is about: a node or a value. *)
Inductive Disc := DiscNode | DiscValue.
#[global] Instance Disc_eq_dec : EqDecision Disc.
Proof. solve_decision. Defined.
#[global] Instance Disc_countable : Countable Disc.
Proof.
  apply (inj_countable' (λ d, match d with DiscNode => true | DiscValue => false end)
    (λ b, if b : bool then DiscNode else DiscValue)). by intros [].
Defined.

(** The tables trie_nodes, trie_values, trie_roots, trie_committed_roots and
    trie_tombstones. *)
Record TrieStorage := mkTrieStorage {
  ts_nodes : gmap bytes TrieNode;
  ts_values : gmap bytes bytes;
  ts_roots : gmap Z bytes;
  ts_committed : gmap bytes Z;
  ts_tombstones : gmap (Disc * bytes) Z;
  ts_ready : bool;
}.
#[global] Instance TrieStorage_eta : Eta TrieStorage := λ s,
  mkTrieStorage (ts_nodes s) (ts_values s) (ts_roots s) (ts_committed s) (ts_tombstones s) (ts_ready s).
Definition empty_storage : TrieStorage := mkTrieStorage ∅ ∅ ∅ ∅ ∅ false.

Record SentrixTrie := mkTrie {
  tr_pending_nodes : gmap bytes TrieNode;
  tr_pending_values : gmap bytes bytes;
  tr_storage : TrieStorage;
  tr_root : bytes;
  tr_version : Z;
  tr_canonical_delete : bool;
}.
#[global] Instance SentrixTrie_eta : Eta SentrixTrie := λ t,
  mkTrie (tr_pending_nodes t) (tr_pending_values t) (tr_storage t) (tr_root t) (tr_version t)
    (tr_canonical_delete t).

Definition get_node (t : SentrixTrie) (hash : bytes) : option TrieNode :=
  match tr_pending_nodes t !! hash with
  | Some n => Some n
  | None => ts_nodes (tr_storage t) !! hash
  end.
Definition put_node (hash : bytes) (node : TrieNode) (t : SentrixTrie) : SentrixTrie :=
  t <| tr_pending_nodes := <[hash := node]> (tr_pending_nodes t) |>.
Definition store_value (hash value : bytes) (t : SentrixTrie) : SentrixTrie :=
  t <| tr_pending_values := <[hash := value]> (tr_pending_values t) |>.
Definition load_value (t : SentrixTrie) (hash : bytes) : option bytes :=
  match tr_pending_values t !! hash with
  | Some v => Some v
  | None => ts_values (tr_storage t) !! hash
  end.
(** One transaction: the buffered nodes and values, the root and its reverse index. *)
Definition flush_trie_batch (nodes : gmap bytes TrieNode) (values : gmap bytes bytes) (version : Z)
    (root : bytes) (s : TrieStorage) : TrieStorage :=
  mkTrieStorage (nodes ∪ ts_nodes s) (values ∪ ts_values s) (<[version := root]> (ts_roots s))
    (<[root := version]> (ts_committed s)) (ts_tombstones s) (ts_ready s).
(** The single-entry operations, which the trie itself never calls. *)
Definition store_node_now (hash : bytes) (node : TrieNode) (s : TrieStorage) : TrieStorage :=
  s <| ts_nodes := <[hash := node]> (ts_nodes s) |>.
Definition store_value_now (hash value : bytes) (s : TrieStorage) : TrieStorage :=
  s <| ts_values := <[hash := value]> (ts_values s) |>.
Definition store_root (version : Z) (root : bytes) (s : TrieStorage) : TrieStorage :=
  s <| ts_roots := <[version := root]> (ts_roots s) |>
    <| ts_committed := <[root := version]> (ts_committed s) |> <| ts_ready := true |>.
Definition is_committed_root (s : TrieStorage) (hash : bytes) : bool := bool_decide (is_Some (ts_committed s !! hash)).
(** The migration at open: the reverse index is filled from the roots, in
    version order, unless its sentinel is there. *)
Definition ensure_committed_roots_index (s : TrieStorage) : TrieStorage :=
  let entries := sort_by_key Z.le (map_to_list (ts_roots s)) in
  s <| ts_committed := if ts_ready s then ts_committed s
                       else foldl (λ m e, <[e.2 := e.1]> m) (ts_committed s) entries |>
    <| ts_ready := ts_ready s || negb (bool_decide (entries = [])) |>.
(** Through the cache: the store and the buffers. *)
Definition delete_node (hash : bytes) (t : SentrixTrie) : SentrixTrie :=
  t <| tr_storage := (tr_storage t) <| ts_nodes := base.delete hash (ts_nodes (tr_storage t)) |> |>
    <| tr_pending_nodes := base.delete hash (tr_pending_nodes t) |>.
Definition delete_value (hash : bytes) (t : SentrixTrie) : SentrixTrie :=
  t <| tr_storage := (tr_storage t) <| ts_values := base.delete hash (ts_values (tr_storage t)) |> |>
    <| tr_pending_values := base.delete hash (tr_pending_values t) |>.
(** The batch is written, then the buffers are cleared. *)
Definition flush_pending (version : Z) (root : bytes) (t : SentrixTrie) : SentrixTrie :=
  t <| tr_storage := flush_trie_batch (tr_pending_nodes t) (tr_pending_values t) version root (tr_storage t) |>
    <| tr_pending_nodes := ∅ |> <| tr_pending_values := ∅ |>.

Section tree.
Context `{Sha256, Blake3, Hex}.
Implicit Types t : SentrixTrie.

Definition trie_open (storage : TrieStorage) (version : Z) : SentrixTrie :=
  mkTrie ∅ ∅ (ensure_committed_roots_index storage) (default (empty_hash 0) (ts_roots storage !! version)) version false.
(** A clone shares the storage and starts with empty buffers. *)
Definition trie_clone t : SentrixTrie := mkTrie ∅ ∅ (tr_storage t) (tr_root t) (tr_version t) (tr_canonical_delete t).
Definition set_canonical_delete (on : bool) t : SentrixTrie := t <| tr_canonical_delete := on |>.
Definition set_root (root : bytes) t : SentrixTrie := t <| tr_root := root |>.
Definition reset_to_empty t : SentrixTrie := t <| tr_root := empty_hash 0 |>.
Definition root_at_version t (version : Z) : option bytes := ts_roots (tr_storage t) !! version.
Definition node_exists t (hash : bytes) : bool := bool_decide (is_Some (ts_nodes (tr_storage t) !! hash)).

Definition missing_node (hash : bytes) : SentrixError :=
  Internal ("trie: missing node " +:+ hex_encode hash).

(** ** Insertion *)

(** A path holds the sibling at each level and whether the key went rgt, the
    deepest level first. *)
Abbreviation path := (list (bytes * bool)).

(** The levels that separate the key from a leaf found at [split]; [fuel] is
    [256 - split]. *)
Fixpoint expand (fuel : nat) (key leaf_key leaf_hash : bytes) (split : nat) (p : path)
    : result path :=
  match fuel with
  | O => Err (Internal "trie: two keys are identical")
  | S fuel =>
      if eqb (get_bit key split) (get_bit leaf_key split)
      then expand fuel key leaf_key leaf_hash (S split) ((empty_hash (S split), get_bit key split) :: p)
      else Ok ((leaf_hash, get_bit key split) :: p)
  end.

(** Phase 1; [fuel] is [257 - depth]. *)
Fixpoint walk_insert (fuel : nat) t (key current : bytes) (depth : nat) (p : path) : result path :=
  match fuel with
  | O => Err (Internal "SMT depth exceeded 256 — key space exhausted")
  | S fuel =>
      if bool_decide (current = empty_hash depth) then Ok p
      else
        match get_node t current with
        | None => Err (missing_node current)
        | Some (LeafNode leaf_key leaf_vh) =>
            if bool_decide (leaf_key = key) then Ok p
            else expand (256 - depth) key leaf_key leaf_vh depth p
        | Some (InternalNode lft rgt _) =>
            if (256 <=? depth)%nat then
              Err (Internal "trie: corrupt tree — Internal node at depth 256 (key space exhausted)")
            else
              let bit := get_bit key depth in
              if bit then walk_insert fuel t key rgt (S depth) ((lft, bit) :: p)
              else walk_insert fuel t key lft (S depth) ((rgt, bit) :: p)
        end
  end.

(** The two children of a node on the path. *)
Definition children (sibling : bytes) (is_right : bool) (up : bytes) : bytes * bytes :=
  if is_right then (sibling, up) else (up, sibling).

(** Phase 3: the internal nodes on the way up. *)
Fixpoint relink (p : path) (up : bytes) t : SentrixTrie * bytes :=
  match p with
  | [] => (t, up)
  | (sibling, is_right) :: p =>
      let '(lft, rgt) := children sibling is_right up in
      let h := hash_internal lft rgt in
      relink p h (put_node h (InternalNode lft rgt h) t)
  end.

Definition insert (key value : bytes) : st SentrixTrie bytes := λ t,
  let h := hash_leaf key value in
  match walk_insert 257 t key (tr_root t) 0 [] with
  | Err e => (t, Err e)
  | Ok p =>
      let t := store_value h value (put_node h (LeafNode key h) t) in
      let '(t, up) := relink p h t in
      (t <| tr_root := up |>, Ok up)
  end.

(** ** Lookup *)

Fixpoint get_from (fuel : nat) t (key current : bytes) (depth : nat) : result (option bytes) :=
  match fuel with
  | O => Ok None
  | S fuel =>
      if bool_decide (current = empty_hash depth) then Ok None
      else
        match get_node t current with
        | None => Err (missing_node current)
        | Some (LeafNode leaf_key value_hash) =>
            if bool_decide (leaf_key = key) then Ok (load_value t value_hash) else Ok None
        | Some (InternalNode lft rgt _) =>
            get_from fuel t key (if get_bit key depth then rgt else lft) (S depth)
        end
  end.
Definition get t (key : bytes) : result (option bytes) := get_from 257 t key (tr_root t) 0.

(** ** Deletion *)

(** Phase 1: the path to the key's leaf and its depth, if the key is present. *)
Fixpoint walk_delete (fuel : nat) t (key current : bytes) (depth : nat) (p : path)
    : result (option (path * nat)) :=
  match fuel with
  | O => Ok None
  | S fuel =>
      if bool_decide (current = empty_hash depth) then Ok None
      else
        match get_node t current with
        | None => Err (missing_node current)
        | Some (LeafNode leaf_key _) =>
            if bool_decide (leaf_key = key) then Ok (Some (p, depth)) else Ok None
        | Some (InternalNode lft rgt _) =>
            if (256 <=? depth)%nat then
              Err (Internal "trie: corrupt tree — Internal node at depth 256")
            else
              let bit := get_bit key depth in
              if bit then walk_delete fuel t key rgt (S depth) ((lft, bit) :: p)
              else walk_delete fuel t key lft (S depth) ((rgt, bit) :: p)
        end
  end.

Inductive Up := UpEmpty | UpLeaf (h : bytes) | UpInternal (h : bytes).
Definition up_hash (up : Up) (depth : nat) : bytes :=
  match up with UpEmpty => empty_hash depth | UpLeaf h | UpInternal h => h end.

Definition is_leaf_node t (h : bytes) : bool :=
  match get_node t h with Some (LeafNode _ _) => true | _ => false end.

(** A new internal node above [up] and [sibling], which sit at depth [depth]. *)
Definition branch (sibling : bytes) (is_right : bool) (up : Up) (depth : nat) t : SentrixTrie * Up :=
  let '(lft, rgt) := children sibling is_right (up_hash up depth) in
  let h := hash_internal lft rgt in
  (put_node h (InternalNode lft rgt h) t, UpInternal h).

(** One step of Phase 2; [depth] is the depth of [up] and of the sibling. *)
Definition relink_step (sibling : bytes) (is_right : bool) (up : Up) (depth : nat) t
    : SentrixTrie * Up :=
  let child_empty := empty_hash depth in
  let sib_empty := bool_decide (sibling = child_empty) in
  if tr_canonical_delete t then
    let sib_is_leaf := if sib_empty then false else is_leaf_node t sibling in
    match up with
    | UpEmpty =>
        if sib_empty then (t, UpEmpty)
        else if sib_is_leaf then (t, UpLeaf sibling)
        else branch sibling is_right up depth t
    | UpLeaf h => if sib_empty then (t, UpLeaf h) else branch sibling is_right up depth t
    | UpInternal _ => branch sibling is_right up depth t
    end
  else
    let '(lft, rgt) := children sibling is_right (up_hash up depth) in
    if bool_decide (lft = child_empty) && bool_decide (rgt = child_empty) then (t, UpEmpty)
    else branch sibling is_right up depth t.

Fixpoint relink_delete (p : path) (up : Up) (up_depth : nat) t : SentrixTrie * Up * nat :=
  match p, up_depth with
  | (sibling, is_right) :: p, S d =>
      let '(t, up) := relink_step sibling is_right up (S d) t in
      relink_delete p up d t
  | _, _ => (t, up, up_depth)
  end.

Definition delete (key : bytes) : st SentrixTrie bytes := λ t,
  match walk_delete 257 t key (tr_root t) 0 [] with
  | Err e => (t, Err e)
  | Ok None => (t, Ok (tr_root t))
  | Ok (Some (p, found_depth)) =>
      let '(t, up, d) := relink_delete p UpEmpty found_depth t in
      let h := up_hash up d in
      (t <| tr_root := h |>, Ok h)
  end.

Definition commit_trie (version : Z) : st SentrixTrie bytes := λ t,
  (flush_pending version (tr_root t) t <| tr_version := version |>, Ok (tr_root t)).

(** ** Proofs *)

Record MerkleProof := mkProof {
  mp_key : bytes;
  mp_value : bytes;
  mp_siblings : list bytes;
  mp_depth : nat;
  mp_found : bool;
  mp_terminal_hash : bytes;
}.
#[local] Instance MerkleProof_eta : Eta MerkleProof := λ p,
  mkProof (mp_key p) (mp_value p) (mp_siblings p) (mp_depth p) (mp_found p) (mp_terminal_hash p).

(** [fuel] is [257 - depth]; [siblings] are from the root down. *)
Fixpoint prove_from (fuel : nat) t (key current : bytes) (depth : nat) (siblings : list bytes)
    : result MerkleProof :=
  match fuel with
  | O => Ok (mkProof key [] siblings depth false (empty_hash depth))
  | S fuel =>
      if bool_decide (current = empty_hash depth)
      then Ok (mkProof key [] siblings depth false (empty_hash depth))
      else
        match get_node t current with
        | None => Err (Internal "trie: missing node in prove")
        | Some (LeafNode leaf_key value_hash) =>
            if bool_decide (leaf_key = key) then
              let value := default [] (load_value t value_hash) in
              Ok (mkProof key value siblings depth true (hash_leaf key value))
            else Ok (mkProof key [] siblings depth false value_hash)
        | Some (InternalNode lft rgt _) =>
            if (256 <=? depth)%nat then
              Err (Internal "trie: corrupt tree — Internal node at depth 256 in prove")
            else
              let bit := get_bit key depth in
              if bit then prove_from fuel t key rgt (S depth) (siblings ++ [lft])
              else prove_from fuel t key lft (S depth) (siblings ++ [rgt])
        end
  end.
Definition prove t (key : bytes) : result MerkleProof := prove_from 257 t key (tr_root t) 0 [].

(** The loop from [depth - 1] down to zero: [n] levels remain. *)
Fixpoint root_from (key : bytes) (siblings : list bytes) (n : nat) (current : bytes) : bytes :=
  match n with
  | O => current
  | S d =>
      let '(lft, rgt) := children (siblings !!! d) (get_bit key d) current in
      root_from key siblings d (hash_internal lft rgt)
  end.
Definition compute_root (p : MerkleProof) (leaf_hash : bytes) : bytes :=
  root_from (mp_key p) (mp_siblings p) (mp_depth p) leaf_hash.

Definition verify_membership (p : MerkleProof) (root : bytes) : bool :=
  if negb (mp_found p) then false
  else if negb (length (mp_siblings p) =? mp_depth p)%nat then false
  else bool_decide (compute_root p (hash_leaf (mp_key p) (mp_value p)) = root).
Definition verify_nonmembership (p : MerkleProof) (root : bytes) : bool :=
  if mp_found p then false
  else if negb (length (mp_siblings p) =? mp_depth p)%nat then false
  else bool_decide (compute_root p (mp_terminal_hash p) = root).
End tree.
