(* ===== verification/TrieTree.v ===== *)
(** * The tree a trie stands for

    The sparse Merkle tree without hashes: what insertion and the two kinds of
    deletion do to its shape and to the map it represents, and why the shape is
    a function of the map when deletion is canonical. *)

From S2P Require Import Prelude Bytes Trie.

(** ** Keys *)

Definition byte_ok (x : Z) : Prop := 0 <= x < 256.
Definition key_ok (k : bytes) : Prop := length k = 32%nat ∧ Forall byte_ok k.

Lemma key_bits_inj k k' :
  key_ok k → key_ok k' → (∀ i, (i < 256)%nat → get_bit k i = get_bit k' i) → k = k'.
Proof.
  intros [Hl Hb] [Hl' Hb'] Hbits. apply list_eq. intros j.
  destruct (decide (j < 32)%nat) as [Hj|Hj]; last first.
  { rewrite !lookup_ge_None_2 by lia. done. }
  destruct (lookup_lt_is_Some_2 k j) as [x Hx]; [lia|].
  destruct (lookup_lt_is_Some_2 k' j) as [y Hy]; [lia|].
  rewrite Hx, Hy. f_equal. rewrite Forall_lookup in Hb, Hb'.
  pose proof (Hb j x Hx) as Hbx. pose proof (Hb' j y Hy) as Hby. unfold byte_ok in *.
  apply Z.bits_inj'. intros n Hn. destruct (Z.lt_ge_cases n 8) as [H8|H8].
  - specialize (Hbits (8 * j + (7 - Z.to_nat n))%nat ltac:(lia)). unfold get_bit in Hbits.
    replace ((8 * j + (7 - Z.to_nat n)) / 8)%nat with j in Hbits
      by (apply Nat.div_unique with (7 - Z.to_nat n)%nat; lia).
    replace ((8 * j + (7 - Z.to_nat n)) mod 8)%nat with (7 - Z.to_nat n)%nat in Hbits
      by (apply Nat.mod_unique with j; lia).
    rewrite !list_lookup_total_alt, Hx, Hy in Hbits. simpl in Hbits.
    by replace (7 - Z.of_nat (7 - Z.to_nat n)) with n in Hbits by lia.
  - assert (Hp : 256 <= 2 ^ n) by (change 256 with (2 ^ 8); apply Z.pow_le_mono_r; lia).
    rewrite !Z.bits_above_log2; try done; try lia.
    + destruct (decide (y = 0)) as [->|]; [simpl; lia|]. apply Z.log2_lt_pow2; lia.
    + destruct (decide (x = 0)) as [->|]; [simpl; lia|]. apply Z.log2_lt_pow2; lia.
Qed.

(** ** Trees *)

Inductive tree :=
  | TEmpty
  | TLeaf (k v : bytes)
  | TNode (l r : tree).

Implicit Types (t l r : tree) (k v : bytes) (d : nat).

Fixpoint t_lookup d k t : option bytes :=
  match t with
  | TEmpty => None
  | TLeaf k' v => if decide (k' = k) then Some v else None
  | TNode l r => if get_bit k d then t_lookup (S d) k r else t_lookup (S d) k l
  end.

(** Two leaves whose keys part at some level from [d] on; [fuel] is [256 - d]. *)
Fixpoint t_split (fuel : nat) d k v k' v' : tree :=
  match fuel with
  | O => TLeaf k v
  | S fuel =>
      if eqb (get_bit k d) (get_bit k' d) then
        let below := t_split fuel (S d) k v k' v' in
        if get_bit k d then TNode TEmpty below else TNode below TEmpty
      else if get_bit k d then TNode (TLeaf k' v') (TLeaf k v) else TNode (TLeaf k v) (TLeaf k' v')
  end.

Fixpoint t_insert d k v t : tree :=
  match t with
  | TEmpty => TLeaf k v
  | TLeaf k' v' => if decide (k' = k) then TLeaf k v else t_split (256 - d) d k v k' v'
  | TNode l r => if get_bit k d then TNode l (t_insert (S d) k v r) else TNode (t_insert (S d) k v l) r
  end.

(** What becomes of a node whose children are [l] and [r] after a removal. *)
Definition t_join (canonical : bool) l r : tree :=
  match l, r with
  | TEmpty, TEmpty => TEmpty
  | TEmpty, TLeaf _ _ => if canonical then r else TNode l r
  | TLeaf _ _, TEmpty => if canonical then l else TNode l r
  | _, _ => TNode l r
  end.
Fixpoint t_remove (canonical : bool) d k t : tree :=
  match t with
  | TEmpty => TEmpty
  | TLeaf _ _ => TEmpty
  | TNode l r =>
      if get_bit k d then t_join canonical l (t_remove canonical (S d) k r)
      else t_join canonical (t_remove canonical (S d) k l) r
  end.
Definition t_delete (canonical : bool) k t : tree :=
  match t_lookup 0 k t with
  | Some _ => t_remove canonical 0 k t
  | None => t
  end.

Fixpoint elems t : list (bytes * bytes) :=
  match t with
  | TEmpty => []
  | TLeaf k v => [(k, v)]
  | TNode l r => elems l ++ elems r
  end.

(** ** Well-formed trees *)

(** Leaves sit where their key leads, no node has two empty children, and
    nothing is deeper than a key. *)
Fixpoint wf d t : Prop :=
  match t with
  | TEmpty => True
  | TLeaf k _ => key_ok k
  | TNode l r =>
      (d < 256)%nat ∧ ¬ (l = TEmpty ∧ r = TEmpty) ∧ wf (S d) l ∧ wf (S d) r ∧
      Forall (λ kv, get_bit kv.1 d = false) (elems l) ∧
      Forall (λ kv, get_bit kv.1 d = true) (elems r)
  end.

(** [k] agrees with every key of [t] above depth [d]. *)
Definition fits d k t : Prop :=
  Forall (λ kv, ∀ i, (i < d)%nat → get_bit kv.1 i = get_bit k i) (elems t).

Lemma fits_child d k l r b :
  fits d k (TNode l r) → Forall (λ kv, get_bit kv.1 d = b) (elems (if b then r else l)) →
  get_bit k d = b → fits (S d) k (if b then r else l).
Proof.
  unfold fits. simpl. rewrite Forall_app. intros [Hl Hr] Hb Hk.
  assert (Hc : Forall (λ kv, ∀ i, (i < d)%nat → get_bit kv.1 i = get_bit k i)
    (elems (if b then r else l))) by (by destruct b).
  rewrite Forall_forall in *. intros kv Hkv i Hi.
  destruct (decide (i = d)) as [->|]; [by rewrite Hk, Hb|]. apply Hc; [done|lia].
Qed.

(** Lookup finds exactly the leaves. *)
Lemma t_lookup_elems d k v t : wf d t → t_lookup d k t = Some v ↔ (k, v) ∈ elems t.
Proof.
  revert d. induction t as [|k' v'|l IHl r IHr]; intros d Hwf; simpl.
  - split; [done|]. by intros ?%elem_of_nil.
  - rewrite list_elem_of_singleton. case_decide; split; [by intros [= ->]; subst|by intros [= _ ->]|done|].
    by intros [= -> _].
  - destruct Hwf as (_ & _ & Hl & Hr & Fl & Fr). rewrite elem_of_app.
    rewrite Forall_forall in Fl, Fr.
    destruct (get_bit k d) eqn:Hb; [rewrite (IHr _ Hr)|rewrite (IHl _ Hl)]; (split; [auto|]);
      intros [Hin|Hin]; try done.
    + specialize (Fl _ Hin). simpl in Fl. congruence.
    + specialize (Fr _ Hin). simpl in Fr. congruence.
Qed.

(** Any property of the keys above holds of the keys below. *)
Lemma t_split_elems fuel d k v k' v' kv :
  (∃ i, (d <= i < d + fuel)%nat ∧ get_bit k i ≠ get_bit k' i) →
  kv ∈ elems (t_split fuel d k v k' v') ↔ kv = (k, v) ∨ kv = (k', v').
Proof.
  revert d. induction fuel as [|fuel IH]; intros d (i & Hi & Hne); [lia|]. simpl.
  destruct (eqb_spec (get_bit k d) (get_bit k' d)) as [E|E].
  - assert (Hex : ∃ j, (S d <= j < S d + fuel)%nat ∧ get_bit k j ≠ get_bit k' j).
    { exists i. split; [|done]. destruct (decide (i = d)) as [->|]; [done|lia]. }
    destruct (get_bit k d); simpl; rewrite ?app_nil_r; by apply IH.
  - destruct (get_bit k d); simpl; set_solver.
Qed.

(** Different keys part at some level. *)
Lemma keys_part d k k' :
  key_ok k → key_ok k' → k ≠ k' → (∀ i, (i < d)%nat → get_bit k i = get_bit k' i) →
  ∃ i, (d <= i < 256)%nat ∧ get_bit k i ≠ get_bit k' i.
Proof.
  intros Hk Hk' Hne Hd.
  destruct (list_find (λ i, get_bit k i ≠ get_bit k' i) (seq 0 256)) as [[j i]|] eqn:Hf.
  - apply list_find_Some in Hf as (Hj & Hi & _). exists i. split; [|done].
    apply lookup_seq in Hj as [-> Hj]. simpl in *.
    destruct (decide (j < d)%nat); [|lia]. by rewrite Hd in Hi by done.
  - exfalso. apply Hne, key_bits_inj; [done..|]. intros i Hi.
    apply list_find_None in Hf. rewrite Forall_forall in Hf.
    specialize (Hf i). rewrite elem_of_seq in Hf.
    destruct (get_bit k i), (get_bit k' i); try done; exfalso; apply Hf; [lia|done|lia|done].
Qed.

Lemma fits_leaf d k k' v' :
  key_ok k → wf d (TLeaf k' v') → k' ≠ k → fits d k (TLeaf k' v') →
  ∃ i, (d <= i < 256)%nat ∧ get_bit k i ≠ get_bit k' i.
Proof.
  intros Hk Hk' Hne Hfit. apply keys_part; try done. intros i Hi.
  unfold fits in Hfit. simpl in Hfit. apply Forall_cons in Hfit as [Hf _]. symmetry. by apply Hf.
Qed.
Lemma fits_node d k l r b :
  wf d (TNode l r) → fits d k (TNode l r) → get_bit k d = b → fits (S d) k (if b then r else l).
Proof. intros (_ & _ & _ & _ & Fl & Fr) Hf Hb. apply fits_child; [done| |done]. by destruct b. Qed.

Lemma t_split_wf fuel d k v k' v' :
  key_ok k → key_ok k' → (d + fuel <= 256)%nat →
  (∃ i, (d <= i < d + fuel)%nat ∧ get_bit k i ≠ get_bit k' i) →
  wf d (t_split fuel d k v k' v') ∧ length (elems (t_split fuel d k v k' v')) = 2%nat.
Proof.
  intros Hk Hk'. revert d. induction fuel as [|fuel IH]; intros d Hf Hex; [destruct Hex as (?&?&_); lia|].
  simpl. destruct (eqb_spec (get_bit k d) (get_bit k' d)) as [E|E].
  - assert (Hex' : ∃ j, (S d <= j < S d + fuel)%nat ∧ get_bit k j ≠ get_bit k' j).
    { destruct Hex as (i & Hi & Hne). exists i. split; [|done].
      destruct (decide (i = d)) as [->|]; [done|lia]. }
    destruct (IH (S d) ltac:(lia) Hex') as [Hw Hlen].
    assert (Hb : Forall (λ kv, get_bit kv.1 d = get_bit k d) (elems (t_split fuel (S d) k v k' v'))).
    { apply Forall_forall. intros kv Hkv. apply t_split_elems in Hkv as [-> | ->]; done. }
    assert (Hne : t_split fuel (S d) k v k' v' ≠ TEmpty) by (intros Et; by rewrite Et in Hlen).
    destruct (get_bit k d); simpl; rewrite ?app_nil_r; (split; [|exact Hlen]);
      (split_and!; [lia|by intros [? ?]|..]); try done; by constructor.
  - destruct (get_bit k d) eqn:Eb, (get_bit k' d) eqn:Eb'; try done; simpl; (split; [|done]);
      (split_and!; [lia|by intros [? ?]|..]); try done; repeat constructor; done.
Qed.

Section insert.
Context (k v : bytes) (Hk : key_ok k).

Lemma t_insert_spec d t :
  (d <= 256)%nat → wf d t → fits d k t →
  wf d (t_insert d k v t) ∧ t_insert d k v t ≠ TEmpty ∧
  (length (elems t) <= length (elems (t_insert d k v t)))%nat ∧
  ∀ kv, kv ∈ elems (t_insert d k v t) ↔ kv = (k, v) ∨ kv ∈ elems t ∧ kv.1 ≠ k.
Proof.
  revert d. induction t as [|k' v'|l IHl r IHr]; intros d Hd Hwf Hfit; simpl.
  - split_and!; try done; [lia|]. set_solver.
  - case_decide as E; [subst; split_and!; try done; intros [? ?]; set_solver|].
    assert (Hex : ∃ i, (d <= i < d + (256 - d))%nat ∧ get_bit k i ≠ get_bit k' i).
    { replace (d + (256 - d))%nat with 256%nat by lia. by apply (fits_leaf d k k' v'). }
    destruct (t_split_wf (256 - d) d k v k' v') as [Hw Hlen]; try done; [lia|].
    split_and!; [done|intros Et; by rewrite Et in Hlen|lia|].
    intros kv. rewrite t_split_elems, list_elem_of_singleton by done. naive_solver.
  - destruct Hwf as (Hd' & Hne & Hl & Hr & Fl & Fr).
    assert (Fl' : ∀ kv, kv ∈ elems l → get_bit kv.1 d = false) by (by apply Forall_forall).
    assert (Fr' : ∀ kv, kv ∈ elems r → get_bit kv.1 d = true) by (by apply Forall_forall).
    destruct (get_bit k d) eqn:Hb; simpl.
    + destruct (IHr (S d)) as (Hw & Hn & Hlen & He); [lia|done|by apply (fits_child d k l r true)|].
      rewrite !length_app. split_and!; try done; [by intros [? ?]| |lia|].
      * apply Forall_forall. intros kv [->|[? _]]%He; [done|auto].
      * intros kv. rewrite !elem_of_app, He. assert (kv ∈ elems l → kv.1 ≠ k) by (intros Hin E; specialize (Fl' _ Hin); congruence). tauto.
    + destruct (IHl (S d)) as (Hw & Hn & Hlen & He); [lia|done|by apply (fits_child d k l r false)|].
      rewrite !length_app. split_and!; try done; [by intros [? ?]| |lia|].
      * apply Forall_forall. intros kv [->|[? _]]%He; [done|auto].
      * intros kv. rewrite !elem_of_app, He. assert (kv ∈ elems r → kv.1 ≠ k) by (intros Hin E; specialize (Fr' _ Hin); congruence). tauto.
Qed.
End insert.

Lemma elems_join c l r : elems (t_join c l r) = elems l ++ elems r.
Proof. destruct l, r, c; simpl; rewrite ?app_nil_r; done. Qed.
Lemma wf_join c d l r :
  (d < 256)%nat → wf (S d) l → wf (S d) r →
  Forall (λ kv, get_bit kv.1 d = false) (elems l) → Forall (λ kv, get_bit kv.1 d = true) (elems r) →
  wf d (t_join c l r).
Proof.
  intros Hd Hl Hr Fl Fr. destruct l, r; simpl; try done; try (destruct c; [done|]);
    split_and!; try done; naive_solver.
Qed.

Lemma t_remove_spec c d k w t :
  wf d t → t_lookup d k t = Some w →
  wf d (t_remove c d k t) ∧
  ∀ kv, kv ∈ elems (t_remove c d k t) ↔ kv ∈ elems t ∧ kv.1 ≠ k.
Proof.
  revert d. induction t as [|k' v'|l IHl r IHr]; intros d Hwf Hl; simpl in *; [done| |].
  - case_decide; [|done]. subst. split; [done|]. set_solver.
  - destruct Hwf as (Hd & Hne & Wl & Wr & Fl & Fr).
    assert (Fl' : ∀ kv, kv ∈ elems l → get_bit kv.1 d = false) by (by apply Forall_forall).
    assert (Fr' : ∀ kv, kv ∈ elems r → get_bit kv.1 d = true) by (by apply Forall_forall).
    destruct (get_bit k d) eqn:Hb.
    + destruct (IHr (S d) Wr Hl) as [Hw He]. split.
      * apply wf_join; try done. apply Forall_forall. intros kv [? _]%He. auto.
      * intros kv. rewrite elems_join, !elem_of_app, He. specialize (Fl' kv). naive_solver congruence.
    + destruct (IHl (S d) Wl Hl) as [Hw He]. split.
      * apply wf_join; try done. apply Forall_forall. intros kv [? _]%He. auto.
      * intros kv. rewrite elems_join, !elem_of_app, He. specialize (Fr' kv). naive_solver congruence.
Qed.

(** ** The canonical shape *)

(** Every inner node separates at least two keys. *)
Fixpoint canon t : Prop :=
  match t with
  | TNode l r => (2 <= length (elems l ++ elems r))%nat ∧ canon l ∧ canon r
  | _ => True
  end.

Lemma canon_split fuel d k v k' v' :
  key_ok k → key_ok k' → (d + fuel <= 256)%nat →
  (∃ i, (d <= i < d + fuel)%nat ∧ get_bit k i ≠ get_bit k' i) → canon (t_split fuel d k v k' v').
Proof.
  intros Hk Hk'. revert d. induction fuel as [|fuel IH]; intros d Hf Hex; [done|].
  pose proof (t_split_wf (S fuel) d k v k' v' Hk Hk' Hf Hex) as [_ Hlen]. simpl in *.
  destruct (eqb_spec (get_bit k d) (get_bit k' d)) as [E|E].
  - assert (Hc : canon (t_split fuel (S d) k v k' v')).
    { apply IH; [lia|]. destruct Hex as (i & Hi & Hne). exists i. split; [|done].
      destruct (decide (i = d)) as [->|]; [done|lia]. }
    destruct (get_bit k d); simpl in *; split_and!; try done; lia.
  - destruct (get_bit k d); simpl in *; split_and!; done.
Qed.

Lemma canon_insert d k v t :
  key_ok k → (d <= 256)%nat → wf d t → fits d k t → canon t → canon (t_insert d k v t).
Proof.
  intros Hk. revert d. induction t as [|k' v'|l IHl r IHr]; intros d Hd Hwf Hfit Hc; simpl; [done| |].
  - case_decide as E; [done|]. apply canon_split; try done; [lia|].
    replace (d + (256 - d))%nat with 256%nat by lia. by apply (fits_leaf d k k' v').
  - destruct Hwf as (Hd' & _ & Wl & Wr & Fl & Fr), Hc as (Hlen & Cl & Cr).
    rewrite length_app in Hlen. destruct (get_bit k d) eqn:Hb; simpl; rewrite length_app.
    + assert (Hf : fits (S d) k r) by (by apply (fits_child d k l r true)).
      destruct (t_insert_spec k v Hk (S d) r) as (_ & _ & Hle & _); try done.
      split_and!; [lia|done|by apply IHr].
    + assert (Hf : fits (S d) k l) by (by apply (fits_child d k l r false)).
      destruct (t_insert_spec k v Hk (S d) l) as (_ & _ & Hle & _); try done.
      split_and!; [lia|by apply IHl|done].
Qed.

Lemma canon_join l r : canon l → canon r → canon (t_join true l r).
Proof.
  destruct l as [| |l1 l2], r as [| |r1 r2]; simpl; try done; rewrite ?length_app; simpl;
    intros; destruct_and?; split_and!; try done; rewrite ?length_app in *; simpl in *; lia.
Qed.
Lemma canon_remove d k t : canon t → canon (t_remove true d k t).
Proof.
  revert d. induction t as [| |l IHl r IHr]; intros d Hc; simpl; [done..|].
  destruct Hc as (_ & Cl & Cr). destruct (get_bit k d); apply canon_join; auto.
Qed.

Lemma elems_nil t d : wf d t → elems t = [] → t = TEmpty.
Proof.
  revert d. induction t as [| |l IHl r IHr]; intros d Hwf He; [done..|]. simpl in *.
  destruct Hwf as (_ & Hne & Wl & Wr & _). apply app_nil in He as [El Er].
  exfalso. apply Hne. eauto.
Qed.
Lemma elems_NoDup d t : wf d t → NoDup (elems t).
Proof.
  revert d. induction t as [|k v|l IHl r IHr]; intros d Hwf; simpl.
  - constructor.
  - by apply NoDup_singleton.
  - destruct Hwf as (_ & _ & Wl & Wr & Fl & Fr). apply NoDup_app. split_and!; eauto.
    intros kv Hl Hr. rewrite Forall_forall in Fl, Fr. specialize (Fl kv Hl). specialize (Fr kv Hr).
    congruence.
Qed.

(** A canonical tree is determined by its leaves. *)
Lemma canon_unique d t1 t2 :
  wf d t1 → wf d t2 → canon t1 → canon t2 → (∀ kv, kv ∈ elems t1 ↔ kv ∈ elems t2) → t1 = t2.
Proof.
  revert d t2. induction t1 as [|k v|l1 IHl r1 IHr]; intros d t2 W1 W2 C1 C2 He.
  - symmetry. apply (elems_nil _ d W2). destruct (elems t2) as [|kv ?]; [done|].
    exfalso. apply (elem_of_nil kv), He. left.
  - assert (Hp : elems t2 ≡ₚ [(k, v)]).
    { apply NoDup_Permutation; [by apply (elems_NoDup d)|by apply NoDup_singleton|].
      intros kv. symmetry. apply He. }
    destruct t2 as [|k2 v2|l2 r2]; simpl in *.
    + by apply Permutation_nil_l in Hp.
    + apply Permutation_singleton_r in Hp. by injection Hp as -> ->.
    + apply Permutation_length in Hp. destruct C2 as [Hlen _]. rewrite Hp in Hlen. simpl in Hlen. lia.
  - assert (Hp : elems (TNode l1 r1) ≡ₚ elems t2).
    { apply NoDup_Permutation; [by apply (elems_NoDup d)..|done]. }
    apply Permutation_length in Hp. destruct C1 as (Hlen & Cl1 & Cr1). simpl in Hp.
    destruct t2 as [|k2 v2|l2 r2]; simpl in Hp; [lia..|].
    destruct C2 as (_ & Cl2 & Cr2), W1 as (_ & _ & Wl1 & Wr1 & Fl1 & Fr1), W2 as (_ & _ & Wl2 & Wr2 & Fl2 & Fr2).
    rewrite !Forall_forall in *. simpl in He.
    assert (Hs : ∀ kv, (kv ∈ elems l1 ↔ kv ∈ elems l2) ∧ (kv ∈ elems r1 ↔ kv ∈ elems r2)).
    { intros kv. specialize (He kv). rewrite !elem_of_app in He.
      specialize (Fl1 kv). specialize (Fr1 kv). specialize (Fl2 kv). specialize (Fr2 kv).
      destruct (get_bit kv.1 d); naive_solver congruence. }
    f_equal; [apply (IHl (S d)); try done; intros kv; apply Hs|apply (IHr (S d)); try done; intros kv; apply Hs].
Qed.
