(* ===== verification/TrieRefine.v ===== *)
(** * The trie implements a map

    A content-addressed store holds a tree when it holds every node of it under
    its hash.  Each operation of the trie carries a store that holds [t] to one
    that holds the tree of [TrieTree] after the same operation, as long as no
    two of the preimages that were hashed collide; trees in turn implement
    finite maps. *)

From S2P Require Import Prelude Bytes Trie TrieTree.

(** ** What is hashed *)

Inductive Pre :=
  | PZero
  | PLeaf (k v : bytes)
  | PNode (lft rgt : bytes).
#[global] Instance Pre_eq_dec : EqDecision Pre.
Proof. solve_decision. Defined.

Section refine.
Context `{Sha256, Blake3, Hex}.
Implicit Types (t l r s : tree) (T : SentrixTrie) (k v : bytes) (d n : nat).

Definition digest (p : Pre) : bytes :=
  match p with
  | PZero => sha256_bytes (replicate 32 0)
  | PLeaf k v => hash_leaf k v
  | PNode lft rgt => hash_internal lft rgt
  end.

Fixpoint tree_hash d t : bytes :=
  match t with
  | TEmpty => empty_hash d
  | TLeaf k v => hash_leaf k v
  | TNode l r => hash_internal (tree_hash (S d) l) (tree_hash (S d) r)
  end.

Fixpoint preimages d t : list Pre :=
  match t with
  | TEmpty => []
  | TLeaf k v => [PLeaf k v]
  | TNode l r =>
      PNode (tree_hash (S d) l) (tree_hash (S d) r) :: preimages (S d) l ++ preimages (S d) r
  end.
(** What the table of empty subtrees hashes. *)
Definition empty_pre n : Pre :=
  match n with O => PZero | S n => PNode (empty_table n) (empty_table n) end.
Definition empty_pres : list Pre := empty_pre <$> seq 0 257.

#[global] Typeclasses Opaque empty_pres.

(** The hash functions do not collide on [U], which covers the empty subtrees. *)
Definition pre_collision_free (U : list Pre) : Prop :=
  ∀ p q, p ∈ U → q ∈ U → digest p = digest q → p = q.

Lemma pre_collision_free_subset U V : V ⊆ U → pre_collision_free U → pre_collision_free V.
Proof. intros Hs Hc p q Hp Hq. apply Hc; by apply Hs. Qed.

(** [T] holds the node of the preimage [p], and its value. *)
Definition has T (p : Pre) : Prop :=
  match p with
  | PZero => True
  | PLeaf k v => get_node T (hash_leaf k v) = Some (LeafNode k (hash_leaf k v)) ∧
      load_value T (hash_leaf k v) = Some v
  | PNode lft rgt => get_node T (hash_internal lft rgt) = Some (InternalNode lft rgt (hash_internal lft rgt))
  end.
Definition holds T d t : Prop := ∀ p, p ∈ preimages d t → has T p.

Lemma holds_node T d l r :
  holds T d (TNode l r) ↔
  has T (PNode (tree_hash (S d) l) (tree_hash (S d) r)) ∧ holds T (S d) l ∧ holds T (S d) r.
Proof. unfold holds. simpl. set_solver. Qed.

Lemma empty_hash_table d : (d <= 256)%nat → empty_hash d = digest (empty_pre (256 - d)).
Proof. intros Hd. unfold empty_hash. destruct (Nat.leb_spec d 256); [|lia]. by destruct (256 - d)%nat. Qed.

Section universe.
Context (U : list Pre) (Hcf : pre_collision_free U) (Hemp : empty_pres ⊆ U).

Lemma empty_pre_in n : (n <= 256)%nat → empty_pre n ∈ U.
Proof.
  intros Hn. apply Hemp, list_elem_of_fmap. exists n. split; [done|]. apply elem_of_seq. lia.
Qed.

(** A tree hashes to an empty subtree's hash only when it is empty. *)
Lemma tree_hash_empty d d' t :
  wf d' t → (d <= 256)%nat → preimages d' t ⊆ U → tree_hash d' t = empty_hash d → t = TEmpty.
Proof.
  revert d d'. induction t as [|k v|l IHl r IHr]; intros d d' Hwf Hd HU Hh; [done|exfalso..];
    rewrite (empty_hash_table d Hd) in Hh; simpl in Hh.
  - assert (E : PLeaf k v = empty_pre (256 - d)).
    { apply Hcf; [set_solver|apply empty_pre_in; lia|done]. }
    by destruct (256 - d)%nat.
  - assert (E : PNode (tree_hash (S d') l) (tree_hash (S d') r) = empty_pre (256 - d)).
    { apply Hcf; [set_solver|apply empty_pre_in; lia|done]. }
    destruct (256 - d)%nat as [|n] eqn:En; [done|]. injection E as El Er.
    assert (He : empty_table n = empty_hash (S d)).
    { unfold empty_hash. destruct (Nat.leb_spec (S d) 256); [f_equal; lia|lia]. }
    destruct Hwf as (_ & Hne & Wl & Wr & _). simpl in HU. apply Hne. split.
    + apply (IHl (S d) (S d')); try done; [lia|set_solver|congruence].
    + apply (IHr (S d) (S d')); try done; [lia|set_solver|congruence].
Qed.

(** The hash commits to the tree. *)
Lemma tree_hash_inj d t1 t2 :
  (d <= 256)%nat → wf d t1 → wf d t2 → preimages d t1 ⊆ U → preimages d t2 ⊆ U →
  tree_hash d t1 = tree_hash d t2 → t1 = t2.
Proof.
  revert d t2. induction t1 as [|k v|l IHl r IHr]; intros d t2 Hd W1 W2 U1 U2 Hh.
  - symmetry. by apply (tree_hash_empty d d).
  - destruct t2 as [|k2 v2|l2 r2]; [by apply (tree_hash_empty d d)|..].
    + assert (E : PLeaf k v = PLeaf k2 v2) by (apply Hcf; [set_solver..|done]). by injection E as -> ->.
    + assert (E : PLeaf k v = PNode (tree_hash (S d) l2) (tree_hash (S d) r2))
        by (apply Hcf; [set_solver..|done]). done.
  - destruct t2 as [|k2 v2|l2 r2]; [by apply (tree_hash_empty d d)|..].
    + assert (E : PNode (tree_hash (S d) l) (tree_hash (S d) r) = PLeaf k2 v2)
        by (apply Hcf; [set_solver..|done]). done.
    + assert (E : PNode (tree_hash (S d) l) (tree_hash (S d) r) =
        PNode (tree_hash (S d) l2) (tree_hash (S d) r2)) by (apply Hcf; [set_solver..|done]).
      injection E as El Er. simpl in U1, U2. destruct W1 as (? & _ & ? & ? & _), W2 as (? & _ & ? & ? & _).
      f_equal; [apply (IHl (S d))|apply (IHr (S d))]; try done; try lia; set_solver.
Qed.

(** ** Stores only grow *)

Record grows T T' : Prop := {
  grows_has : ∀ p, p ∈ U → has T p → has T' p;
  grows_frame : (tr_storage T', tr_version T', tr_canonical_delete T') =
    (tr_storage T, tr_version T, tr_canonical_delete T);
}.
#[global] Instance grows_po : PreOrder grows.
Proof.
  split; [by intros T|]. intros T1 T2 T3 [Ha Hf] [Hb Hg]. split; [auto|]. by rewrite Hg, Hf.
Qed.

Lemma holds_grows T T' d t : grows T T' → preimages d t ⊆ U → holds T d t → holds T' d t.
Proof. intros Hg HU Hh p Hp. apply (grows_has _ _ Hg); [by apply HU|by apply Hh]. Qed.

Lemma put_internal T (lft rgt : bytes) :
  let p := PNode lft rgt in let h := hash_internal lft rgt in p ∈ U →
  grows T (put_node h (InternalNode lft rgt h) T) ∧ has (put_node h (InternalNode lft rgt h) T) p.
Proof.
  intros p h Hp. split; [split; [|done]|].
  - intros q Hq Hh. destruct q as [|k v|l' r']; [done|..].
    + simpl. unfold get_node, put_node, load_value. simpl. destruct Hh as [Hn Hv].
      destruct (decide (h = hash_leaf k v)) as [E|E].
      * exfalso. by specialize (Hcf p (PLeaf k v) Hp Hq E).
      * rewrite lookup_insert_ne by done. done.
    + simpl. unfold get_node, put_node. simpl.
      destruct (decide (h = hash_internal l' r')) as [E|E].
      * specialize (Hcf p (PNode l' r') Hp Hq E). injection Hcf as -> ->.
        subst h. by rewrite lookup_insert_eq.
      * rewrite lookup_insert_ne by done. done.
  - simpl. unfold get_node, put_node. simpl. by rewrite lookup_insert_eq.
Qed.

Lemma put_leaf T k v :
  let p := PLeaf k v in let h := hash_leaf k v in
  let T' := store_value h v (put_node h (LeafNode k h) T) in p ∈ U → grows T T' ∧ has T' p.
Proof.
  intros p h T' Hp. split; [split; [|done]|].
  - intros q Hq Hh. destruct q as [|k' v'|l' r']; [done|..];
      simpl; unfold T', get_node, put_node, store_value, load_value; simpl.
    + destruct (decide (h = hash_leaf k' v')) as [E|E].
      * specialize (Hcf p (PLeaf k' v') Hp Hq E). injection Hcf as <- <-.
        subst h. by rewrite !lookup_insert_eq.
      * rewrite !lookup_insert_ne by done. done.
    + destruct (decide (h = hash_internal l' r')) as [E|E].
      * exfalso. by specialize (Hcf p (PNode l' r') Hp Hq E).
      * rewrite lookup_insert_ne by done. done.
  - simpl. unfold T', get_node, put_node, store_value, load_value. simpl. by rewrite !lookup_insert_eq.
Qed.

(** ** Lookup *)

Lemma at_empty d t :
  wf d t → (d <= 256)%nat → preimages d t ⊆ U →
  bool_decide (tree_hash d t = empty_hash d) = match t with TEmpty => true | _ => false end.
Proof.
  intros Hwf Hd HU. destruct t as [|k v|l r]; [by apply bool_decide_eq_true_2|..];
    apply bool_decide_eq_false_2; intros E; by apply tree_hash_empty in E.
Qed.

Lemma wf_node_depth d l r : wf d (TNode l r) → (S d <= 256)%nat ∧ wf (S d) l ∧ wf (S d) r.
Proof. intros (? & _ & ? & ? & _). split_and!; [lia|done|done]. Qed.

(** The children of a tree that satisfies what the walks ask for. *)
Definition ready T d t : Prop := wf d t ∧ (d <= 256)%nat ∧ preimages d t ⊆ U ∧ holds T d t.
Lemma ready_child T d l r b : ready T d (TNode l r) → ready T (S d) (if b : bool then r else l).
Proof.
  intros (Hwf & Hd & HU & Hh). apply wf_node_depth in Hwf as (Hd' & Wl & Wr).
  apply holds_node in Hh as (_ & Hl & Hr). simpl in HU.
  destruct b; (split_and!; [done|lia|set_solver|done]).
Qed.
Lemma ready_node T d l r :
  ready T d (TNode l r) → get_node T (tree_hash d (TNode l r)) =
    Some (InternalNode (tree_hash (S d) l) (tree_hash (S d) r) (tree_hash d (TNode l r))).
Proof. intros (_ & _ & _ & Hh). apply holds_node in Hh as (Hn & _). exact Hn. Qed.
Lemma ready_leaf T d k v :
  ready T d (TLeaf k v) → get_node T (hash_leaf k v) = Some (LeafNode k (hash_leaf k v)) ∧
    load_value T (hash_leaf k v) = Some v.
Proof. intros (_ & _ & _ & Hh). apply (Hh (PLeaf k v)). left. Qed.

Lemma get_from_spec T k d t :
  ready T d t → get_from (257 - d) T k (tree_hash d t) d = Ok (t_lookup d k t).
Proof.
  revert d. induction t as [|k' v'|l IHl r IHr]; intros d Hr0; pose proof Hr0 as (Hwf & Hd & HU & _);
    replace (257 - d)%nat with (S (256 - d))%nat by lia; cbn [get_from];
    rewrite at_empty by done; [done|..].
  - apply ready_leaf in Hr0 as [Hn Hv]. simpl. rewrite Hn, Hv.
    repeat case_bool_decide; case_decide; congruence.
  - rewrite ready_node by done. apply wf_node_depth in Hwf as (Hd' & _).
    replace (256 - d)%nat with (257 - S d)%nat by lia. simpl t_lookup.
    destruct (get_bit k d); [apply IHr, (ready_child T d l r true Hr0)|apply IHl, (ready_child T d l r false Hr0)].
Qed.

(** ** Insertion *)

Definition t_node (b : bool) (sib x : tree) : tree := if b then TNode sib x else TNode x sib.

Lemma relink_node T d b sib x (p : list (bytes * bool)) :
  preimages d (t_node b sib x) ⊆ U → holds T (S d) sib → holds T (S d) x →
  ∃ T', relink ((tree_hash (S d) sib, b) :: p) (tree_hash (S d) x) T = relink p (tree_hash d (t_node b sib x)) T' ∧
    grows T T' ∧ holds T' d (t_node b sib x).
Proof.
  intros HU Hs Hx. destruct b; simpl in *;
    (eexists; split; [reflexivity|]);
    match goal with |- grows _ (put_node _ (InternalNode ?a ?b _) _) ∧ _ =>
      destruct (put_internal T a b) as [Hg Hp]; [set_solver|] end;
    (split; [exact Hg|]); apply holds_node;
    (split; [exact Hp|split; (eapply holds_grows; [exact Hg|set_solver|done])]).
Qed.

(** Relinking the path [q] over a leaf stored in [T] builds the tree [t']. *)
Definition relinks d (q : list (bytes * bool)) T k v t' : Prop :=
  has T (PLeaf k v) → preimages d t' ⊆ U →
  ∃ T', (∀ p', relink (q ++ p') (hash_leaf k v) T = relink p' (tree_hash d t') T') ∧
    grows T T' ∧ holds T' d t'.

Lemma relinks_step d q T k v b sib x :
  relinks (S d) q T k v x → holds T (S d) sib →
  relinks d (q ++ [(tree_hash (S d) sib, b)]) T k v (t_node b sib x).
Proof.
  intros Hx Hs Hl HU.
  assert (HUs : preimages (S d) sib ⊆ U ∧ preimages (S d) x ⊆ U) by (destruct b; simpl in HU; set_solver).
  destruct (Hx Hl) as (T1 & E1 & Hg1 & Hh1); [tauto|].
  destruct (relink_node T1 d b sib x []) as (T2 & E2 & Hg2 & Hh2);
    [done|by eapply holds_grows; [|tauto|]|done|].
  exists T2. split_and!; [|by etrans|done]. intros p'. rewrite <- app_assoc, E1.
  simpl in E2 |- *. by destruct b; injection E2 as <-.
Qed.

Lemma expand_path fuel d k v k' v' :
  (d + fuel <= 256)%nat → (∃ i, (d <= i < d + fuel)%nat ∧ get_bit k i ≠ get_bit k' i) →
  ∃ q, (∀ p', expand fuel k k' (hash_leaf k' v') d p' = Ok (q ++ p')) ∧
    ∀ T, has T (PLeaf k' v') → relinks d q T k v (t_split fuel d k v k' v').
Proof.
  revert d. induction fuel as [|fuel IH]; intros d Hf (i & Hi & Hne); [lia|]. simpl.
  destruct (eqb_spec (get_bit k d) (get_bit k' d)) as [E|E].
  - destruct (IH (S d)) as (q & Eq & Hq); [lia|exists i; split; [|done]; destruct (decide (i = d)) as [->|]; [done|lia]|].
    exists (q ++ [(tree_hash (S d) TEmpty, get_bit k d)]). split.
    + intros p'. simpl in Eq |- *. by rewrite Eq, <- app_assoc.
    + intros T Hl. pose proof (relinks_step d q T k v (get_bit k d) TEmpty _ (Hq T Hl)) as Hs.
      unfold t_node in Hs. apply Hs. intros p Hp. by apply elem_of_nil in Hp.
  - exists [(hash_leaf k' v', get_bit k d)]. split; [done|]. intros T Hl.
    pose proof (relinks_step d [] T k v (get_bit k d) (TLeaf k' v') (TLeaf k v)) as Hs.
    unfold t_node in Hs. apply Hs.
    + intros Hk HU. exists T. split_and!; [done|done|]. intros p ->%list_elem_of_singleton. done.
    + intros p ->%list_elem_of_singleton. done.
Qed.

Lemma insert_path T k v d t :
  key_ok k → ready T d t → fits d k t →
  ∃ q, (∀ p', walk_insert (257 - d) T k (tree_hash d t) d p' = Ok (q ++ p')) ∧
    ∀ T', grows T T' → relinks d q T' k v (t_insert d k v t).
Proof.
  intros Hk. revert d. induction t as [|k' v'|l IHl r IHr]; intros d Hr0 Hfit;
    pose proof Hr0 as (Hwf & Hd & HU & Hh);
    replace (257 - d)%nat with (S (256 - d))%nat by lia; cbn [walk_insert]; rewrite at_empty by done.
  - exists []. split; [done|]. intros T' _ Hl _. exists T'. split_and!; [done|done|].
    intros p ->%list_elem_of_singleton. done.
  - apply ready_leaf in Hr0 as [Hn Hv]. simpl. rewrite Hn. case_bool_decide as E; case_decide; try done.
    + subst k'. exists []. split; [done|]. intros T' _ Hl _. exists T'. split_and!; [done|done|].
      intros p ->%list_elem_of_singleton. done.
    + destruct (expand_path (256 - d) d k v k' v') as (q & Eq & Hq); [lia| |].
      { replace (d + (256 - d))%nat with 256%nat by lia. by apply (fits_leaf d k k' v'). }
      exists q. split; [done|]. intros T' Hg. apply Hq, (grows_has _ _ Hg); [apply HU; left|done].
  - rewrite ready_node by done. pose proof (wf_node_depth d l r Hwf) as (Hd' & Wl & Wr).
    destruct (Nat.leb_spec 256 d); [lia|]. replace (256 - d)%nat with (257 - S d)%nat by lia.
    assert (Hc : ∀ T', grows T T' → holds T' (S d) l ∧ holds T' (S d) r).
    { intros T' Hg. apply holds_node in Hh as (_ & ? & ?). simpl in HU.
      split; (eapply holds_grows; [done|set_solver|done]). }
    simpl t_insert. destruct (get_bit k d) eqn:Hb.
    + destruct (IHr (S d)) as (q & Eq & Hq);
        [apply (ready_child T d l r true Hr0)|by apply (fits_node d k l r true)|].
      exists (q ++ [(tree_hash (S d) l, true)]). split; [intros p'; by rewrite Eq, <- app_assoc|].
      intros T' Hg. apply (relinks_step d q T' k v true l); [by apply Hq|by apply Hc].
    + destruct (IHl (S d)) as (q & Eq & Hq);
        [apply (ready_child T d l r false Hr0)|by apply (fits_node d k l r false)|].
      exists (q ++ [(tree_hash (S d) r, false)]). split; [intros p'; by rewrite Eq, <- app_assoc|].
      intros T' Hg. apply (relinks_step d q T' k v false r); [by apply Hq|by apply Hc].
Qed.

(** The trie [T] is at the tree [t]. *)
Definition models T t : Prop := ready T 0 t ∧ tr_root T = tree_hash 0 t.

Lemma elems_preimages d k v t : (k, v) ∈ elems t → PLeaf k v ∈ preimages d t.
Proof.
  revert d. induction t as [|k' v'|l IHl r IHr]; intros d Hin; simpl in *.
  - by apply elem_of_nil in Hin.
  - apply list_elem_of_singleton in Hin. injection Hin as -> ->. left.
  - apply elem_of_app in Hin. right. apply elem_of_app. destruct Hin; auto.
Qed.

Lemma fits_root k t : fits 0 k t.
Proof. apply Forall_forall. intros ? _ i. lia. Qed.

Lemma insert_models T k v t :
  key_ok k → models T t → preimages 0 (t_insert 0 k v t) ⊆ U →
  ∃ T', insert k v T = (T', Ok (tree_hash 0 (t_insert 0 k v t))) ∧
    models T' (t_insert 0 k v t) ∧ grows T T'.
Proof.
  intros Hk [Hr Hroot] HU. pose proof Hr as (Hwf & _).
  destruct (insert_path T k v 0 t Hk Hr (fits_root k t)) as (q & Eq & Hq). unfold insert.
  destruct (t_insert_spec k v Hk 0 t) as (Hw' & _ & _ & He); [lia|done|apply fits_root|].
  assert (Hin : PLeaf k v ∈ U) by (apply HU, elems_preimages, He; by left).
  destruct (put_leaf T k v Hin) as [Hg Hp].
  destruct (Hq _ Hg Hp HU) as (T1 & E1 & Hg1 & Hh1).
  specialize (Eq []). specialize (E1 []). rewrite app_nil_r in Eq, E1.
  rewrite Hroot. change 257%nat with (257 - 0)%nat. rewrite Eq, E1. simpl.
  eexists. split; [reflexivity|]. split; [split; [|done]|].
  - split_and!; [done|lia|done|exact Hh1].
  - etrans; [exact Hg|]. etrans; [exact Hg1|]. by split.
Qed.

Lemma get_models T t k : models T t → get T k = Ok (t_lookup 0 k t).
Proof. intros [Hr Hroot]. unfold get. rewrite Hroot. by apply (get_from_spec T k 0). Qed.

(** ** Deletion *)

Definition up_of d t : Up :=
  match t with
  | TEmpty => UpEmpty
  | TLeaf k v => UpLeaf (hash_leaf k v)
  | TNode _ _ => UpInternal (tree_hash d t)
  end.
Lemma up_hash_of d t : up_hash (up_of d t) d = tree_hash d t.
Proof. by destruct t. Qed.

Definition join_at (c b : bool) (sib x : tree) : tree := if b then t_join c sib x else t_join c x sib.

Lemma join_preimages c d l r :
  preimages (S d) l ⊆ preimages d (t_join c l r) ∧ preimages (S d) r ⊆ preimages d (t_join c l r).
Proof. destruct l, r, c; simpl; set_solver. Qed.

Lemma branch_spec T d b sib x :
  preimages d (t_node b sib x) ⊆ U → holds T (S d) sib → holds T (S d) x →
  ∃ T', branch (tree_hash (S d) sib) b (up_of (S d) x) (S d) T = (T', up_of d (t_node b sib x)) ∧
    grows T T' ∧ holds T' d (t_node b sib x).
Proof.
  intros HU Hs Hx. destruct (relink_node T d b sib x [] HU Hs Hx) as (T' & E & Hg & Hh).
  exists T'. split_and!; [|done|done]. unfold branch. rewrite up_hash_of. simpl in E.
  by destruct b; injection E as <-.
Qed.

Lemma is_leaf_ready T d t :
  ready T d t → t ≠ TEmpty →
  is_leaf_node T (tree_hash d t) = match t with TLeaf _ _ => true | _ => false end.
Proof.
  intros Hr Hne. unfold is_leaf_node. destruct t as [|k v|l r]; [done|..].
  - apply ready_leaf in Hr as [Hn _]. simpl. by rewrite Hn.
  - by rewrite ready_node.
Qed.

Lemma relink_step_spec T d b sib x :
  ready T (S d) sib → ready T (S d) x → preimages d (join_at (tr_canonical_delete T) b sib x) ⊆ U →
  ∃ T', relink_step (tree_hash (S d) sib) b (up_of (S d) x) (S d) T =
      (T', up_of d (join_at (tr_canonical_delete T) b sib x)) ∧
    grows T T' ∧ holds T' d (join_at (tr_canonical_delete T) b sib x).
Proof.
  intros Hs Hx HU.
  pose proof Hs as (Ws & Hd & HUs & Hhs). pose proof Hx as (Wx & _ & HUx & Hhx).
  assert (Hbr : join_at (tr_canonical_delete T) b sib x = t_node b sib x →
    ∃ T', branch (tree_hash (S d) sib) b (up_of (S d) x) (S d) T =
        (T', up_of d (join_at (tr_canonical_delete T) b sib x)) ∧
      grows T T' ∧ holds T' d (join_at (tr_canonical_delete T) b sib x)).
  { intros E. rewrite E in HU |- *. by apply branch_spec. }
  unfold relink_step. rewrite (at_empty (S d) sib), up_hash_of by done.
  destruct (tr_canonical_delete T) eqn:Ec.
  - destruct sib as [|ks vs|ls rs]; try rewrite is_leaf_ready by done;
      destruct x as [|kx vx|lx rx]; destruct b; cbn [join_at t_join] in *;
      first [by apply Hbr | by exists T; split_and!; [|reflexivity|first [exact Hhs|exact Hhx]]].
  - assert (Eb : (let '(lft, rgt) := children (tree_hash (S d) sib) b (tree_hash (S d) x) in
        bool_decide (lft = empty_hash (S d)) && bool_decide (rgt = empty_hash (S d))) =
      match sib, x with TEmpty, TEmpty => true | _, _ => false end).
    { unfold children. destruct b; rewrite !at_empty by done; by destruct sib, x. }
    destruct (children _ _ _) as [lft rgt]. rewrite Eb.
    destruct sib as [|ks vs|ls rs], x as [|kx vx|lx rx]; destruct b; cbn [join_at t_join] in *;
      first [by apply Hbr | by exists T; split_and!; [|reflexivity|first [exact Hhs|exact Hhx]]].
Qed.

Lemma relink_delete_cons T T' (sib : bytes) b up up' d p' :
  relink_step sib b up (S d) T = (T', up') →
  relink_delete ((sib, b) :: p') up (S d) T = relink_delete p' up' d T'.
Proof. intros E. cbn [relink_delete]. by rewrite E. Qed.

Lemma ready_grows T T' d t : grows T T' → ready T d t → ready T' d t.
Proof. intros Hg (? & ? & ? & ?). split_and!; try done. by eapply holds_grows. Qed.

(** Relinking the path [q] over the removed leaf builds the tree [t']. *)
Definition unlinks d (q : list (bytes * bool)) T t' : Prop :=
  preimages d t' ⊆ U →
  ∃ T', (∀ p', relink_delete (q ++ p') UpEmpty (d + length q) T = relink_delete p' (up_of d t') d T') ∧
    grows T T' ∧ holds T' d t'.

Lemma unlinks_step d q T b sib x :
  unlinks (S d) q T x → ready T (S d) sib → wf (S d) x →
  unlinks d (q ++ [(tree_hash (S d) sib, b)]) T (join_at (tr_canonical_delete T) b sib x).
Proof.
  intros Hx Hs Wx HU.
  assert (HUx : preimages (S d) x ⊆ U).
  { destruct b; simpl in HU; [destruct (join_preimages (tr_canonical_delete T) d sib x)|
      destruct (join_preimages (tr_canonical_delete T) d x sib)]; by etrans. }
  destruct (Hx HUx) as (T1 & E1 & Hg1 & Hh1). pose proof Hs as (_ & Hd & _).
  assert (Ec : tr_canonical_delete T1 = tr_canonical_delete T).
  { pose proof (grows_frame _ _ Hg1) as Hf. by injection Hf. }
  rewrite <- Ec in HU |- *.
  destruct (relink_step_spec T1 d b sib x) as (T2 & E2 & Hg2 & Hh2);
    [by eapply ready_grows|by split_and!|done|].
  exists T2. split_and!; [|by etrans|done]. intros p'.
  rewrite length_app, <- app_assoc. simpl length.
  replace (d + (length q + 1))%nat with (S d + length q)%nat by lia.
  rewrite E1. by apply relink_delete_cons.
Qed.

Lemma delete_path T k w d t :
  ready T d t → t_lookup d k t = Some w →
  ∃ q, (∀ p', walk_delete (257 - d) T k (tree_hash d t) d p' = Ok (Some (q ++ p', (d + length q)%nat))) ∧
    unlinks d q T (t_remove (tr_canonical_delete T) d k t).
Proof.
  revert d. induction t as [|k' v'|l IHl r IHr]; intros d Hr0 Hl;
    pose proof Hr0 as (Hwf & Hd & HU & Hh);
    replace (257 - d)%nat with (S (256 - d))%nat by lia; cbn [walk_delete]; rewrite at_empty by done.
  - done.
  - apply ready_leaf in Hr0 as [Hn _]. simpl. rewrite Hn. simpl in Hl. case_decide; [|done].
    rewrite bool_decide_eq_true_2 by done. exists []. split; [intros; simpl; by rewrite Nat.add_0_r|].
    intros _. exists T. simpl. rewrite Nat.add_0_r. split_and!; [done|done|].
    intros p Hp. by apply elem_of_nil in Hp.
  - rewrite ready_node by done. pose proof (wf_node_depth d l r Hwf) as (Hd' & Wl & Wr).
    destruct (Nat.leb_spec 256 d); [lia|]. replace (256 - d)%nat with (257 - S d)%nat by lia.
    pose proof (ready_child T d l r true Hr0) as Rr. pose proof (ready_child T d l r false Hr0) as Rl.
    simpl in Hl |- *. destruct (get_bit k d) eqn:Hb.
    + destruct (IHr (S d) Rr Hl) as (q & Eq & Hq). exists (q ++ [(tree_hash (S d) l, true)]).
      split; [intros p'; rewrite Eq, <- app_assoc, length_app; simpl; do 3 f_equal; lia|].
      apply (unlinks_step d q T true l); [done|done|].
      by eapply t_remove_spec.
    + destruct (IHl (S d) Rl Hl) as (q & Eq & Hq). exists (q ++ [(tree_hash (S d) r, false)]).
      split; [intros p'; rewrite Eq, <- app_assoc, length_app; simpl; do 3 f_equal; lia|].
      apply (unlinks_step d q T false r); [done|done|].
      by eapply t_remove_spec.
Qed.

Lemma delete_absent T k d t p' :
  ready T d t → t_lookup d k t = None → walk_delete (257 - d) T k (tree_hash d t) d p' = Ok None.
Proof.
  revert d p'. induction t as [|k' v'|l IHl r IHr]; intros d p' Hr0 Hl;
    pose proof Hr0 as (Hwf & Hd & HU & Hh);
    replace (257 - d)%nat with (S (256 - d))%nat by lia; cbn [walk_delete]; rewrite at_empty by done.
  - done.
  - apply ready_leaf in Hr0 as [Hn _]. simpl in Hl |- *. rewrite Hn. case_decide; [done|].
    by rewrite bool_decide_eq_false_2.
  - rewrite ready_node by done. pose proof (wf_node_depth d l r Hwf) as (Hd' & Wl & Wr).
    destruct (Nat.leb_spec 256 d); [lia|]. replace (256 - d)%nat with (257 - S d)%nat by lia.
    simpl in Hl. destruct (get_bit k d).
    + apply IHr; [exact (ready_child T d l r true Hr0)|done].
    + apply IHl; [exact (ready_child T d l r false Hr0)|done].
Qed.

Lemma t_delete_wf c k t : wf 0 t → wf 0 (t_delete c k t).
Proof.
  intros Hwf. unfold t_delete. destruct (t_lookup 0 k t) as [w|] eqn:Hl; [|done].
  by eapply t_remove_spec.
Qed.

Lemma delete_models T k t :
  let t' := t_delete (tr_canonical_delete T) k t in
  models T t → preimages 0 t' ⊆ U →
  ∃ T', delete k T = (T', Ok (tree_hash 0 t')) ∧ models T' t' ∧ grows T T'.
Proof.
  intros t' [Hr Hroot] HU. pose proof Hr as (Hwf & _).
  pose proof (t_delete_wf (tr_canonical_delete T) k t Hwf) as Hw'. fold t' in Hw'.
  unfold delete. rewrite Hroot. change 257%nat with (257 - 0)%nat.
  unfold t', t_delete in *. destruct (t_lookup 0 k t) as [w|] eqn:Hl.
  - destruct (delete_path T k w 0 t Hr Hl) as (q & Eq & Hq).
    destruct (Hq HU) as (T1 & E1 & Hg1 & Hh1).
    specialize (Eq []). specialize (E1 []). rewrite app_nil_r in Eq, E1. rewrite Eq. simpl in E1 |- *.
    rewrite E1. simpl. rewrite up_hash_of. eexists. split; [reflexivity|].
    split; [split; [|done]|]; [split_and!; [done|lia|done|exact Hh1]|etrans; [exact Hg1|by split]].
  - rewrite (delete_absent T k 0 t [] Hr Hl). by exists T.
Qed.

(** ** Commit, rollback *)

Lemma commit_reads T version h :
  get_node (commit_trie version T).1 h = get_node T h ∧
  load_value (commit_trie version T).1 h = load_value T h.
Proof.
  unfold commit_trie, flush_pending, get_node, load_value. simpl.
  rewrite !lookup_empty, !lookup_union.
  split; [by destruct (tr_pending_nodes T !! h), (ts_nodes (tr_storage T) !! h)|
    by destruct (tr_pending_values T !! h), (ts_values (tr_storage T) !! h)].
Qed.
Lemma has_commit T version p : has T p ↔ has (commit_trie version T).1 p.
Proof.
  unfold has. destruct p as [|k v|lft rgt]; [done|..].
  - by destruct (commit_reads T version (hash_leaf k v)) as [-> ->].
  - by destruct (commit_reads T version (hash_internal lft rgt)) as [-> _].
Qed.
Lemma commit_models T version t : models T t → models (commit_trie version T).1 t.
Proof.
  intros [(? & ? & ? & Hh) Hroot]. split; [|done]. split_and!; try done.
  intros p Hp. by apply has_commit, Hh.
Qed.

(** A clone of a trie whose buffers are empty reads the same. *)
Lemma has_clone T version p : has T p → has (trie_clone (commit_trie version T).1) p.
Proof. intros Hp. by apply (has_commit T version) in Hp. Qed.
End universe.
End refine.
