(* ===== verification/TrieTheorems.v ===== *)
(** * What the trie guarantees

    Runs of insertions, deletions and commits from the empty trie: they succeed,
    read back as a finite map, commit to it with the root, and keep every
    committed version readable. *)

From S2P Require Import Prelude Bytes Trie TrieTree TrieRefine.

Inductive TrieOp :=
  | OInsert (k v : bytes)
  | ODelete (k : bytes)
  | OCommit (version : Z).
#[global] Instance TrieOp_eq_dec : EqDecision TrieOp.
Proof. solve_decision. Defined.

Definition op_ok (o : TrieOp) : Prop := match o with OInsert k _ => key_ok k | _ => True end.

(** The specification: a finite map, and the tree it is kept as. *)
Definition map_op (o : TrieOp) (m : gmap bytes bytes) : gmap bytes bytes :=
  match o with
  | OInsert k v => <[k := v]> m
  | ODelete k => base.delete k m
  | OCommit _ => m
  end.
Definition map_run (ops : list TrieOp) (m : gmap bytes bytes) : gmap bytes bytes :=
  foldl (λ m o, map_op o m) m ops.

Definition tree_op (c : bool) (o : TrieOp) (t : tree) : tree :=
  match o with
  | OInsert k v => t_insert 0 k v t
  | ODelete k => t_delete c k t
  | OCommit _ => t
  end.
Definition tree_run (c : bool) (ops : list TrieOp) (t : tree) : tree :=
  foldl (λ t o, tree_op c o t) t ops.

Section theorems.
Context `{Sha256, Blake3, Hex}.
Implicit Types (t : tree) (T : SentrixTrie) (m : gmap bytes bytes) (o : TrieOp) (ops : list TrieOp).

(** The implementation. *)
Definition run_op o : st SentrixTrie bytes :=
  match o with
  | OInsert k v => insert k v
  | ODelete k => delete k
  | OCommit version => commit_trie version
  end.
Fixpoint run_ops ops T : SentrixTrie * result bytes :=
  match ops with
  | [] => (T, Ok (tr_root T))
  | o :: ops => match run_op o T with (T, Ok _) => run_ops ops T | (T, Err e) => (T, Err e) end
  end.
Definition empty_trie (canonical : bool) : SentrixTrie :=
  set_canonical_delete canonical (trie_open empty_storage 0).

(** Everything a run hashes. *)
Fixpoint hashed (c : bool) ops t : list Pre :=
  match ops with
  | [] => []
  | o :: ops => preimages 0 (tree_op c o t) ++ hashed c ops (tree_op c o t)
  end.
Definition universe (c : bool) ops : list Pre := empty_pres ++ hashed c ops TEmpty.

(** ** Trees implement maps *)

Definition represents t m : Prop := ∀ k, t_lookup 0 k t = m !! k.

Lemma represents_elems t m : wf 0 t → represents t m ↔ ∀ k v, (k, v) ∈ elems t ↔ m !! k = Some v.
Proof.
  intros Hwf. split.
  - intros Hr k v. rewrite <- Hr. symmetry. by apply t_lookup_elems.
  - intros He k. apply option_eq. intros v. rewrite <- He. by apply t_lookup_elems.
Qed.

Lemma tree_op_spec c o t m :
  op_ok o → wf 0 t → represents t m → wf 0 (tree_op c o t) ∧ represents (tree_op c o t) (map_op o m).
Proof.
  intros Ho Hwf Hr. destruct o as [k v|k|n]; simpl in *; [..|done].
  - destruct (t_insert_spec k v Ho 0 t) as (Hw & _ & _ & He); [lia|done|apply fits_root|].
    split; [done|]. apply represents_elems; [done|]. intros k' v'. rewrite He, lookup_insert_Some. simpl.
    rewrite (proj1 (represents_elems t m Hwf) Hr). naive_solver.
  - pose proof (t_delete_wf c k t Hwf) as Hw. split; [done|].
    apply represents_elems; [done|]. intros k' v'. rewrite lookup_delete_Some.
    rewrite <- (proj1 (represents_elems t m Hwf) Hr k' v').
    unfold t_delete. destruct (t_lookup 0 k t) as [w|] eqn:Hl.
    + destruct (t_remove_spec c 0 k w t Hwf Hl) as [_ He]. rewrite He. simpl. naive_solver.
    + split; [|naive_solver]. intros Hin. split; [|done]. intros ->.
      apply (t_lookup_elems 0) in Hin; [congruence|done].
Qed.

Lemma tree_run_spec c ops t m :
  Forall op_ok ops → wf 0 t → represents t m →
  wf 0 (tree_run c ops t) ∧ represents (tree_run c ops t) (map_run ops m).
Proof.
  revert t m. induction ops as [|o ops IH]; intros t m Hops Hwf Hr; [done|].
  apply Forall_cons in Hops as [Ho Hops]. simpl.
  destruct (tree_op_spec c o t m Ho Hwf Hr). by apply IH.
Qed.

Lemma tree_op_canon o t : op_ok o → wf 0 t → canon t → canon (tree_op true o t).
Proof.
  intros Ho Hwf Hc. destruct o as [k v|k|n]; simpl; [..|done].
  - apply canon_insert; try done; [lia|apply fits_root].
  - unfold t_delete. destruct (t_lookup 0 k t); [by apply canon_remove|done].
Qed.
Lemma tree_run_canon ops t :
  Forall op_ok ops → wf 0 t → canon t → canon (tree_run true ops t).
Proof.
  revert t. induction ops as [|o ops IH]; intros t Hops Hwf Hc; [done|].
  apply Forall_cons in Hops as [Ho Hops]. simpl. apply IH; [done| |by apply tree_op_canon].
  destruct o as [k v|k|n]; simpl; [|by apply t_delete_wf|done].
  apply (t_insert_spec k v Ho 0 t); [lia|done|apply fits_root].
Qed.

(** ** Runs of the trie follow the tree *)

#[local] Opaque empty_table.

Section universe.
Context (U : list Pre) (Hcf : pre_collision_free U) (Hemp : empty_pres ⊆ U).

(** What the storage alone holds is also what the trie reads. *)
Definition coherent T : Prop := ∀ p, p ∈ U → has (trie_clone T) p → has T p.
(** Between two states of a run. *)
Record follows T T' : Prop := {
  follows_has : ∀ p, p ∈ U → has T p → has T' p;
  follows_disk : ∀ p, p ∈ U → has (trie_clone T) p → has (trie_clone T') p;
  follows_mode : tr_canonical_delete T' = tr_canonical_delete T;
  follows_coherent : coherent T';
}.

Lemma grows_follows T T' : coherent T → grows U T T' → follows T T'.
Proof.
  intros Hco [Hh Hf]. injection Hf as Es Ev Ec.
  assert (Hd : ∀ p, has (trie_clone T) p → has (trie_clone T') p).
  { intros p. unfold trie_clone. rewrite Es. destruct p; done. }
  split; [done|auto|done|]. intros p Hp Hs. apply Hh; [done|]. apply Hco; [done|].
  revert Hs. unfold trie_clone. rewrite Es. by destruct p.
Qed.
Lemma commit_follows T version : coherent T → follows T (commit_trie version T).1.
Proof.
  intros Hco. split; [|..].
  - intros p _. apply has_commit.
  - intros p Hp Hs. apply has_clone, Hco; done.
  - done.
  - intros p Hp Hs. exact Hs.
Qed.
Lemma follows_trans T1 T2 T3 : follows T1 T2 → follows T2 T3 → follows T1 T3.
Proof. intros [] []. split; auto. congruence. Qed.

Lemma run_op_models o T t c :
  op_ok o → models U T t → coherent T → tr_canonical_delete T = c → preimages 0 (tree_op c o t) ⊆ U →
  ∃ T', run_op o T = (T', Ok (tree_hash 0 (tree_op c o t))) ∧ models U T' (tree_op c o t) ∧ follows T T'.
Proof.
  intros Ho Hm Hco Hc HU. destruct o as [k v|k|n]; simpl in *.
  - destruct (insert_models U Hcf Hemp T k v t) as (T' & E & Hm' & Hg); try done.
    exists T'. split_and!; try done. by apply grows_follows.
  - subst c. destruct (delete_models U Hcf Hemp T k t) as (T' & E & Hm' & Hg); try done.
    exists T'. split_and!; try done. by apply grows_follows.
  - exists (commit_trie n T).1. split_and!.
    + unfold commit_trie. simpl. by destruct Hm as [_ ->].
    + by apply commit_models.
    + by apply commit_follows.
Qed.

Lemma run_models ops T t c :
  Forall op_ok ops → models U T t → coherent T → tr_canonical_delete T = c → hashed c ops t ⊆ U →
  ∃ T', run_ops ops T = (T', Ok (tree_hash 0 (tree_run c ops t))) ∧
    models U T' (tree_run c ops t) ∧ (follows T T' ∨ ops = []).
Proof.
  revert T t. induction ops as [|o ops IH]; intros T t Hops Hm Hco Hc HU; simpl.
  - exists T. split_and!; [by destruct Hm as [_ ->]|done|auto].
  - apply Forall_cons in Hops as [Ho Hops]. simpl in HU.
    destruct (run_op_models o T t c) as (T1 & E1 & Hm1 & Hf1); try done; [set_solver|].
    pose proof (follows_mode _ _ Hf1) as Hc1. pose proof (follows_coherent _ _ Hf1) as Hco1.
    destruct (IH T1 (tree_op c o t)) as (T2 & E2 & Hm2 & Hf2); try done; [congruence|set_solver|].
    exists T2. rewrite E1. split_and!; try done. left.
    destruct Hf2 as [Hf2| ->]; [by eapply follows_trans|]. simpl in E2. by injection E2 as <- _.
Qed.

Lemma empty_models c : models U (empty_trie c) TEmpty ∧ coherent (empty_trie c).
Proof.
  split; [split; [|unfold empty_trie, trie_open; simpl; by rewrite lookup_empty]|].
  - split_and!; [exact I|lia|intros p Hp; by apply elem_of_nil in Hp|].
    intros p Hp. by apply elem_of_nil in Hp.
  - intros p _ Hp. by destruct p.
Qed.
End universe.

Lemma represents_empty : represents TEmpty ∅.
Proof. intros k. simpl. by rewrite lookup_empty. Qed.
Lemma map_run_app ops ops' m : map_run (ops ++ ops') m = map_run ops' (map_run ops m).
Proof. unfold map_run. by rewrite foldl_app. Qed.
Lemma hashed_app c ops ops' t :
  hashed c (ops ++ ops') t = hashed c ops t ++ hashed c ops' (tree_run c ops t).
Proof. revert t. induction ops as [|o ops IH]; intros t; simpl; [done|]. by rewrite IH, <- app_assoc. Qed.

(** The whole run from the empty trie. *)
Lemma run_from_empty U c ops :
  pre_collision_free U → empty_pres ⊆ U → Forall op_ok ops → hashed c ops TEmpty ⊆ U →
  ∃ T, run_ops ops (empty_trie c) = (T, Ok (tree_hash 0 (tree_run c ops TEmpty))) ∧
    models U T (tree_run c ops TEmpty) ∧ coherent U T ∧ tr_canonical_delete T = c ∧
    wf 0 (tree_run c ops TEmpty) ∧ represents (tree_run c ops TEmpty) (map_run ops ∅).
Proof.
  intros Hcf Hemp Hops HU. destruct (empty_models U c) as [Hm Hco].
  destruct (run_models U Hcf Hemp ops (empty_trie c) TEmpty c) as (T & E & HmT & Hf); try done.
  destruct (tree_run_spec c ops TEmpty ∅ Hops I represents_empty) as [Hw Hr].
  exists T. split_and!; try done.
  - destruct Hf as [Hf| ->]; [by apply (follows_coherent _ _ _ Hf)|]. by injection E as <-.
  - destruct Hf as [Hf| ->]; [by rewrite (follows_mode _ _ _ Hf)|]. by injection E as <-.
Qed.

Lemma universe_parts c ops : empty_pres ⊆ universe c ops ∧ hashed c ops TEmpty ⊆ universe c ops.
Proof. split; intros p Hp; apply elem_of_app; auto. Qed.
Lemma sub_app_l (V W : list Pre) X : X ⊆ V → X ⊆ V ++ W.
Proof. intros HX p Hp. apply elem_of_app. auto. Qed.
Lemma sub_app_r (V W : list Pre) X : X ⊆ W → X ⊆ V ++ W.
Proof. intros HX p Hp. apply elem_of_app. auto. Qed.

(** C3: every run of insertions, deletions and commits from the empty trie
    succeeds, and the trie then reads as the map those operations build, as long
    as no two of the byte strings hashed on the way collide. *)
Theorem trie_refines_map c ops :
  Forall op_ok ops → pre_collision_free (universe c ops) →
  ∃ T root, run_ops ops (empty_trie c) = (T, Ok root) ∧ tr_root T = root ∧
    ∀ k, get T k = Ok (map_run ops ∅ !! k).
Proof.
  intros Hops Hcf. destruct (universe_parts c ops) as [He Hh].
  destruct (run_from_empty (universe c ops) c ops) as (T & E & Hm & _ & _ & _ & Hr); try done.
  eexists T, _. split; [exact E|]. split; [apply Hm|]. intros k. rewrite <- Hr.
  by apply (get_models (universe c ops)).
Qed.

(** C22: with canonical deletion the root is a function of the map: two runs that
    build the same map end with the same root, whatever they did in between. *)
Theorem root_history_independent ops1 ops2 :
  Forall op_ok ops1 → Forall op_ok ops2 → pre_collision_free (universe true ops1 ++ universe true ops2) →
  map_run ops1 ∅ = map_run ops2 ∅ →
  (run_ops ops1 (empty_trie true)).2 = (run_ops ops2 (empty_trie true)).2.
Proof.
  intros Ho1 Ho2 Hcf Hmap.
  destruct (universe_parts true ops1) as [He1 Hh1], (universe_parts true ops2) as [He2 Hh2].
  destruct (run_from_empty _ true ops1 Hcf) as (T1 & E1 & _ & _ & _ & W1 & R1);
    [by apply sub_app_l|done|by apply sub_app_l|].
  destruct (run_from_empty _ true ops2 Hcf) as (T2 & E2 & _ & _ & _ & W2 & R2);
    [by apply sub_app_r|done|by apply sub_app_r|].
  rewrite E1, E2. simpl. do 2 f_equal. apply (canon_unique 0); try done; try by apply tree_run_canon.
  intros [k v]. rewrite represents_elems in R1, R2 by done. by rewrite R1, R2, Hmap.
Qed.

(** Equal roots come from equal trees. *)
Lemma equal_roots c1 c2 ops1 ops2 :
  Forall op_ok ops1 → Forall op_ok ops2 → pre_collision_free (universe c1 ops1 ++ universe c2 ops2) →
  (run_ops ops1 (empty_trie c1)).2 = (run_ops ops2 (empty_trie c2)).2 →
  tree_run c1 ops1 TEmpty = tree_run c2 ops2 TEmpty.
Proof.
  intros Ho1 Ho2 Hcf Heq.
  destruct (universe_parts c1 ops1) as [He1 Hh1], (universe_parts c2 ops2) as [He2 Hh2].
  pose proof (sub_app_l _ (universe c2 ops2) _ He1) as Hemp.
  destruct (run_from_empty _ c1 ops1 Hcf Hemp) as (T1 & E1 & M1 & _ & _ & W1 & _);
    [done|by apply sub_app_l|].
  destruct (run_from_empty _ c2 ops2 Hcf Hemp) as (T2 & E2 & M2 & _ & _ & W2 & _);
    [done|by apply sub_app_r|].
  rewrite E1, E2 in Heq. injection Heq as Heq.
  destruct M1 as [(_ & _ & U1 & _) _], M2 as [(_ & _ & U2 & _) _].
  apply (tree_hash_inj _ Hcf Hemp) in Heq; try done. lia.
Qed.

(** The root commits to the map: runs that end with equal roots built equal
    maps, in either deletion mode. *)
Theorem root_binds_map c1 c2 ops1 ops2 :
  Forall op_ok ops1 → Forall op_ok ops2 → pre_collision_free (universe c1 ops1 ++ universe c2 ops2) →
  (run_ops ops1 (empty_trie c1)).2 = (run_ops ops2 (empty_trie c2)).2 →
  map_run ops1 ∅ = map_run ops2 ∅.
Proof.
  intros Ho1 Ho2 Hcf Heq. apply equal_roots in Heq; try done.
  destruct (tree_run_spec c1 ops1 TEmpty ∅ Ho1 I represents_empty) as [_ R1].
  destruct (tree_run_spec c2 ops2 TEmpty ∅ Ho2 I represents_empty) as [_ R2].
  apply map_eq. intros k. by rewrite <- R1, <- R2, Heq.
Qed.

Lemma join_legacy_not_leaf l r k v : t_join false l r ≠ TLeaf k v.
Proof. by destruct l, r. Qed.
Lemma remove_legacy_not_leaf d k t k' v' : t_remove false d k t ≠ TLeaf k' v'.
Proof. destruct t as [| |l r]; simpl; [done..|]. destruct (get_bit k d); apply join_legacy_not_leaf. Qed.

(** The legacy deletion leaves a trace: inserting a second key and deleting it
    again gives back the map but never the root. *)
Theorem legacy_delete_leaks_history ka va kb vb :
  let with_b := [OInsert ka va; OInsert kb vb; ODelete kb] in
  key_ok ka → key_ok kb → ka ≠ kb →
  pre_collision_free (universe false with_b ++ universe false [OInsert ka va]) →
  map_run with_b ∅ = map_run [OInsert ka va] ∅ ∧
  (run_ops with_b (empty_trie false)).2 ≠ (run_ops [OInsert ka va] (empty_trie false)).2.
Proof.
  intros with_b Ha Hb Hne Hcf.
  assert (Ho1 : Forall op_ok with_b) by (unfold with_b; rewrite !Forall_cons; split_and!; done).
  assert (Ho2 : Forall op_ok [OInsert ka va]) by (rewrite !Forall_cons; split_and!; done).
  split.
  { simpl. apply map_eq. intros k. unfold map_op. simpl.
    destruct (decide (k = kb)) as [->|]; [by rewrite lookup_delete_eq, lookup_insert_ne, lookup_empty|].
    by rewrite lookup_delete_ne, lookup_insert_ne. }
  intros Heq. apply equal_roots in Heq; try done. revert Heq. unfold with_b, tree_run. cbn [foldl tree_op].
  change (t_insert 0 ka va TEmpty) with (TLeaf ka va). set (t2 := t_insert 0 kb vb _). unfold t_delete.
  destruct (t_lookup 0 kb t2) eqn:Hl; [apply remove_legacy_not_leaf|].
  destruct (t_insert_spec kb vb Hb 0 (TLeaf ka va)) as (Hw & _ & _ & He); [lia|done|apply fits_root|].
  assert (Hin : t_lookup 0 kb (t_insert 0 kb vb (TLeaf ka va)) = Some vb).
  { apply t_lookup_elems; [done|]. apply He. by left. }
  fold t2 in Hin. congruence.
Qed.

(** ** Earlier roots stay readable *)

Lemma hashed_tree c ops t : ops ≠ [] → preimages 0 (tree_run c ops t) ⊆ hashed c ops t.
Proof.
  revert t. induction ops as [|o ops IH]; intros t Hne; [done|]. simpl.
  destruct ops as [|o' ops]; [by apply sub_app_l|]. apply sub_app_r. by apply IH.
Qed.

(** Two runs one after the other. *)
Lemma run_two_phases c ops ops' :
  let U := universe c (ops ++ ops') in
  Forall op_ok (ops ++ ops') → pre_collision_free U →
  ∃ T T', run_ops ops (empty_trie c) = (T, Ok (tr_root T)) ∧ run_ops ops' T = (T', Ok (tr_root T')) ∧
    models U T (tree_run c ops TEmpty) ∧ represents (tree_run c ops TEmpty) (map_run ops ∅) ∧
    coherent U T ∧ (follows U T T' ∨ ops' = []).
Proof.
  intros U Hops Hcf. destruct (universe_parts c (ops ++ ops')) as [He Hh].
  rewrite hashed_app in Hh. apply Forall_app in Hops as [Ho Ho'].
  assert (Hh1 : hashed c ops TEmpty ⊆ U) by (by etrans; [apply sub_app_l|exact Hh]).
  assert (Hh2 : hashed c ops' (tree_run c ops TEmpty) ⊆ U) by (by etrans; [apply sub_app_r|exact Hh]).
  destruct (run_from_empty U c ops Hcf He Ho Hh1) as (T & E & Hm & Hco & Hc & _ & Hr).
  destruct (run_models U Hcf He ops' T _ c Ho' Hm Hco Hc Hh2) as (T' & E' & Hm' & Hf).
  exists T, T'. split_and!; try done; [by rewrite E; destruct Hm as [_ ->]|by rewrite E'; destruct Hm' as [_ ->]].
Qed.

(** Putting an earlier root back restores everything that was readable under it:
    whatever ran since, each key reads as it did then. *)
Theorem set_root_restores c ops ops' :
  Forall op_ok (ops ++ ops') → pre_collision_free (universe c (ops ++ ops')) →
  ∃ T T', run_ops ops (empty_trie c) = (T, Ok (tr_root T)) ∧ run_ops ops' T = (T', Ok (tr_root T')) ∧
    ∀ k, get (set_root (tr_root T) T') k = Ok (map_run ops ∅ !! k).
Proof.
  intros Hops Hcf. destruct (universe_parts c (ops ++ ops')) as [He _].
  destruct (run_two_phases c ops ops' Hops Hcf) as (T & T' & E & E' & [Hr Hroot] & Hrep & _ & Hf).
  exists T, T'. split_and!; try done. intros k. rewrite <- Hrep.
  apply (get_models _ Hcf He). split; [|done]. destruct Hr as (? & ? & HU & Hh). split_and!; try done.
  intros p Hp. specialize (Hh p Hp). destruct Hf as [Hf| ->].
  - apply (follows_has _ _ _ Hf) in Hh; [by destruct p|by apply HU].
  - injection E' as <-. by destruct p.
Qed.

Lemma relink_storage p h T : tr_storage (relink p h T).1 = tr_storage T.
Proof.
  revert h T. induction p as [|[sib b] p IH]; intros h T; [done|].
  destruct b; simpl; by rewrite IH.
Qed.
Lemma relink_delete_storage p up d T : tr_storage (relink_delete p up d T).1.1 = tr_storage T.
Proof.
  revert up d T. induction p as [|[sib b] p IH]; intros up d T; destruct d; simpl; try done.
  destruct (relink_step sib b up (S d) T) as [T1 up1] eqn:E. rewrite IH. clear IH.
  unfold relink_step, branch in E. repeat (case_match; simplify_eq/=); done.
Qed.

(** Only a commit at [version] changes the root recorded for it. *)
Lemma run_op_roots o T version :
  o ≠ OCommit version → ts_roots (tr_storage (run_op o T).1) !! version = ts_roots (tr_storage T) !! version.
Proof.
  intros Ho. destruct o as [k v|k|n]; simpl.
  - unfold insert. destruct (walk_insert _ _ _ _ _ _) as [p|]; [|done].
    pose proof (relink_storage p (hash_leaf k v) (store_value (hash_leaf k v) v
      (put_node (hash_leaf k v) (LeafNode k (hash_leaf k v)) T))) as E.
    destruct (relink _ _ _) as [T2 up]. simpl in *. by rewrite E.
  - unfold delete. destruct (walk_delete _ _ _ _ _ _) as [[[p d]|]|]; [|done|done].
    pose proof (relink_delete_storage p UpEmpty d T) as E.
    destruct (relink_delete _ _ _ _) as [[T2 up] d']. simpl in *. by rewrite E.
  - apply lookup_insert_ne. congruence.
Qed.
Lemma run_ops_roots ops T version :
  Forall (λ o, o ≠ OCommit version) ops →
  ts_roots (tr_storage (run_ops ops T).1) !! version = ts_roots (tr_storage T) !! version.
Proof.
  revert T. induction ops as [|o ops IH]; intros T Hv; [done|].
  apply Forall_cons in Hv as [Ho Hv]. rewrite <- (run_op_roots o T version Ho). simpl.
  destruct (run_op o T) as [T1 [h|e]]; [by apply IH|done].
Qed.
Lemma run_ops_commit ops T0 version T :
  run_ops (ops ++ [OCommit version]) T0 = (T, Ok (tr_root T)) →
  ∃ T1, T = (commit_trie version T1).1.
Proof.
  revert T0. induction ops as [|o ops IH]; intros T0 E; simpl in E.
  - injection E as <-. by eexists.
  - destruct (run_op o T0) as [T1 [h|e]]; [by eapply IH|done].
Qed.

(** A committed version survives: after any further operations that do not
    commit the same version again, reopening the storage at it reads the map as
    it was committed. *)
Theorem committed_version_survives c ops version ops' :
  Forall op_ok ((ops ++ [OCommit version]) ++ ops') → Forall (λ o, o ≠ OCommit version) ops' →
  pre_collision_free (universe c ((ops ++ [OCommit version]) ++ ops')) →
  ∃ T T', run_ops (ops ++ [OCommit version]) (empty_trie c) = (T, Ok (tr_root T)) ∧
    run_ops ops' T = (T', Ok (tr_root T')) ∧
    ∀ k, get (trie_open (tr_storage T') version) k = Ok (map_run ops ∅ !! k).
Proof.
  intros Hops Hv Hcf. destruct (universe_parts c ((ops ++ [OCommit version]) ++ ops')) as [He _].
  destruct (run_two_phases c _ ops' Hops Hcf) as (T & T' & E & E' & [Hr Hroot] & Hrep & _ & Hf).
  exists T, T'. split_and!; try done. intros k.
  replace (map_run ops ∅) with (map_run (ops ++ [OCommit version]) ∅) by (by rewrite map_run_app).
  rewrite <- Hrep. apply (get_models _ Hcf He).
  pose proof (run_ops_roots ops' T version Hv) as Hroots. rewrite E' in Hroots. simpl in Hroots.
  destruct (run_ops_commit _ _ _ _ E) as [T1 ET].
  split.
  - destruct Hr as (? & ? & HU & Hh). split_and!; try done. intros p Hp.
    assert (Hd : has (trie_clone T) p) by (rewrite ET in Hh |- *; exact (Hh p Hp)).
    assert (Hd' : has (trie_clone T') p).
    { destruct Hf as [Hf| ->]; [by apply (follows_disk _ _ _ Hf); [apply HU|]|].
      by injection E' as <-. }
    by destruct p.
  - rewrite <- Hroot. unfold trie_open. simpl. rewrite Hroots, ET. simpl. by rewrite lookup_insert_eq.
Qed.
End theorems.
