(* ===== verification/TrieProofs.v ===== *)
(** * Merkle proofs of the trie

    What [prove] returns, what the two verifiers of proof.rs accept, and what an
    accepted proof says about the map under the root. *)

From S2P Require Import Prelude Bytes Trie TrieTree TrieRefine TrieTheorems.

Section proofs.
Context `{Sha256, Blake3, Hex}.
Implicit Types (t s : tree) (T : SentrixTrie) (k v h : bytes) (d n : nat) (sibs : list bytes).
#[local] Opaque empty_table.

(** ** The proof of a key *)

(** The siblings on the way to a key, and the tree the way ends in. *)
Fixpoint t_siblings d k t : list bytes :=
  match t with
  | TNode l r =>
      if get_bit k d then tree_hash (S d) l :: t_siblings (S d) k r
      else tree_hash (S d) r :: t_siblings (S d) k l
  | _ => []
  end.
Fixpoint t_end d k t : tree :=
  match t with
  | TNode l r => if get_bit k d then t_end (S d) k r else t_end (S d) k l
  | _ => t
  end.
Definition proof_of k sibs d (e : tree) : MerkleProof :=
  match e with
  | TLeaf k' v' =>
      if decide (k' = k) then mkProof k v' sibs d true (hash_leaf k v')
      else mkProof k [] sibs d false (hash_leaf k' v')
  | _ => mkProof k [] sibs d false (empty_hash d)
  end.

Lemma t_lookup_end d k t : t_lookup d k t = t_lookup (d + length (t_siblings d k t)) k (t_end d k t).
Proof.
  revert d. induction t as [|k' v'|l IHl r IHr]; intros d; simpl; [done..|].
  destruct (get_bit k d); simpl; rewrite Nat.add_succ_r; auto.
Qed.
Lemma t_end_not_node d k t : match t_end d k t with TNode _ _ => False | _ => True end.
Proof. revert d. induction t as [| |l IHl r IHr]; intros d; simpl; [done..|].
  destruct (get_bit k d); [apply IHr|apply IHl]. Qed.

Section universe.
Context (U : list Pre) (Hcf : pre_collision_free U) (Hemp : empty_pres ⊆ U).

Lemma prove_from_spec T k d t sibs :
  ready U T d t →
  prove_from (257 - d) T k (tree_hash d t) d sibs =
    Ok (proof_of k (sibs ++ t_siblings d k t) (d + length (t_siblings d k t)) (t_end d k t)).
Proof.
  revert d sibs. induction t as [|k' v'|l IHl r IHr]; intros d sibs Hr0;
    pose proof Hr0 as (Hwf & Hd & HU & Hh);
    replace (257 - d)%nat with (S (256 - d))%nat by lia; cbn [prove_from];
    rewrite (at_empty U) by done; simpl t_siblings; simpl t_end.
  - by rewrite app_nil_r, Nat.add_0_r.
  - apply ready_leaf in Hr0 as [Hn Hv]. simpl. rewrite Hn, Hv, app_nil_r, Nat.add_0_r.
    case_bool_decide; case_decide; by subst.
  - rewrite (ready_node U) by done. pose proof (wf_node_depth d l r Hwf) as (Hd' & _).
    destruct (Nat.leb_spec 256 d); [lia|]. replace (256 - d)%nat with (257 - S d)%nat by lia.
    destruct (get_bit k d); simpl length; rewrite Nat.add_succ_r.
    + rewrite IHr by exact (ready_child U Hcf Hemp T d l r true Hr0). by rewrite <- app_assoc.
    + rewrite IHl by exact (ready_child U Hcf Hemp T d l r false Hr0). by rewrite <- app_assoc.
Qed.

Lemma root_from_prefix k sibs sibs' n h :
  (n <= length sibs)%nat → root_from k (sibs ++ sibs') n h = root_from k sibs n h.
Proof.
  revert h. induction n as [|n IH]; intros h Hn; simpl; [done|].
  rewrite lookup_total_app_l by lia. destruct (children _ _ _). apply IH. lia.
Qed.

(** Hashing up from the end of the way gives the root. *)
Lemma root_from_path k d t sibs :
  length sibs = d →
  let q := t_siblings d k t in
  root_from k (sibs ++ q) (d + length q) (tree_hash (d + length q) (t_end d k t)) =
    root_from k sibs d (tree_hash d t).
Proof.
  revert d sibs. induction t as [|k' v'|l IHl r IHr]; intros d sibs Hlen q.
  1,2: by subst q; simpl; rewrite app_nil_r, Nat.add_0_r.
  subst q. cbn [t_siblings t_end]. destruct (get_bit k d) eqn:Hb; cbn [length];
    rewrite Nat.add_succ_r, cons_middle, app_assoc.
  - etrans; [apply (IHr (S d) (sibs ++ [tree_hash (S d) l])); rewrite length_app; simpl; lia|].
    cbn [root_from]. rewrite Hb, lookup_total_app_r by lia.
    rewrite Hlen, Nat.sub_diag. simpl. apply root_from_prefix. lia.
  - etrans; [apply (IHl (S d) (sibs ++ [tree_hash (S d) r])); rewrite length_app; simpl; lia|].
    cbn [root_from]. rewrite Hb, lookup_total_app_r by lia.
    rewrite Hlen, Nat.sub_diag. simpl. apply root_from_prefix. lia.
Qed.

Lemma prove_models T k t :
  models U T t →
  ∃ p, prove T k = Ok p ∧ mp_key p = k ∧
    match t_lookup 0 k t with
    | Some v => mp_value p = v ∧ verify_membership p (tr_root T) = true
    | None => verify_nonmembership p (tr_root T) = true
    end.
Proof.
  intros [Hr Hroot]. unfold prove. rewrite Hroot.
  change 257%nat with (257 - 0)%nat. rewrite prove_from_spec by done. eexists. split; [reflexivity|].
  pose proof (root_from_path k 0 t [] eq_refl) as Er. cbn [app Nat.add root_from] in *.
  rewrite t_lookup_end. pose proof (t_end_not_node 0 k t) as Hend. cbn [Nat.add].
  destruct (t_end 0 k t) as [|k' v'|]; [|cbn [proof_of t_lookup]; case_decide; subst|done]; cbn [proof_of t_lookup]; (split; [done|]).
  - unfold verify_nonmembership, compute_root. cbn in Er |- *. by rewrite Nat.eqb_refl, Er, bool_decide_eq_true_2.
  - unfold verify_membership, compute_root. cbn in Er |- *. by rewrite Nat.eqb_refl, Er, bool_decide_eq_true_2.
  - unfold verify_nonmembership, compute_root. cbn in Er |- *. by rewrite Nat.eqb_refl, Er, bool_decide_eq_true_2.
Qed.

(** ** What a path of siblings says *)

(** The nodes [compute_root] hashes. *)
Fixpoint path_pres k sibs n h : list Pre :=
  match n with
  | O => []
  | S d =>
      let '(lft, rgt) := children (sibs !!! d) (get_bit k d) h in
      PNode lft rgt :: path_pres k sibs d (hash_internal lft rgt)
  end.

Lemma path_sound k sibs n h t :
  wf 0 t → preimages 0 t ⊆ U → path_pres k sibs n h ⊆ U → root_from k sibs n h = tree_hash 0 t →
  ∃ s, (n <= 256)%nat ∧ wf n s ∧ preimages n s ⊆ U ∧ tree_hash n s = h ∧ t_lookup 0 k t = t_lookup n k s.
Proof.
  intros Hwf HU. revert h. induction n as [|d IH]; intros h Hp Hroot.
  - exists t. split_and!; try done. lia.
  - simpl in Hp, Hroot. destruct (children _ _ _) as [lft rgt] eqn:Hc.
    destruct (IH (hash_internal lft rgt)) as (s & Hd & Ws & HUs & Hs & Hl); [set_solver|done|].
    assert (Hin : PNode lft rgt ∈ U) by set_solver. rewrite Hl. clear IH Hl Hroot Hp.
    assert (Hh : h = if get_bit k d then rgt else lft).
    { unfold children in Hc. by destruct (get_bit k d); simplify_eq. }
    destruct s as [|k' v'|l r].
    + simpl in Hs. rewrite empty_hash_table in Hs by done.
      apply (Hcf (empty_pre (256 - d)) (PNode lft rgt)) in Hs; [|by apply empty_pre_in; [|lia]|done].
      destruct (256 - d)%nat as [|m] eqn:Em; [done|]. injection Hs as El Er.
      exists TEmpty. split_and!; [lia|done|simpl; set_solver| |done].
      simpl. rewrite empty_hash_table, Hh by lia. replace (256 - S d)%nat with m by lia.
      assert (Ed : digest (empty_pre m) = empty_table m) by (by destruct m).
      rewrite Ed. destruct (get_bit k d); congruence.
    + apply (Hcf (PLeaf k' v') (PNode lft rgt)) in Hs; [done|simpl in HUs; set_solver|done].
    + simpl in HUs. apply wf_node_depth in Ws as (Hd' & Wl & Wr).
      apply (Hcf (PNode (tree_hash (S d) l) (tree_hash (S d) r)) (PNode lft rgt)) in Hs; [|set_solver|done].
      injection Hs as <- <-. simpl. destruct (get_bit k d).
      * exists r. split_and!; try done. set_solver.
      * exists l. split_and!; try done. set_solver.
Qed.
End universe.

(** Everything a verifier of [p] hashes when it starts from the leaf. *)
Definition proof_pres (p : MerkleProof) : list Pre :=
  PLeaf (mp_key p) (mp_value p) ::
  path_pres (mp_key p) (mp_siblings p) (mp_depth p) (hash_leaf (mp_key p) (mp_value p)).

(** After any run, [prove] returns for every key a proof its verifier accepts
    against the root: of membership with the value the map has, or of
    non-membership when it has none. *)
Theorem prove_complete c ops k :
  Forall op_ok ops → pre_collision_free (universe c ops) →
  ∃ T p, run_ops ops (empty_trie c) = (T, Ok (tr_root T)) ∧ prove T k = Ok p ∧ mp_key p = k ∧
    match map_run ops ∅ !! k with
    | Some v => mp_value p = v ∧ verify_membership p (tr_root T) = true
    | None => verify_nonmembership p (tr_root T) = true
    end.
Proof.
  intros Hops Hcf. destruct (universe_parts c ops) as [He Hh].
  destruct (run_from_empty (universe c ops) c ops) as (T & E & Hm & _ & _ & _ & Hr); try done.
  destruct (prove_models _ Hcf He T k _ Hm) as (p & Ep & Hk & Hv). rewrite Hr in Hv.
  exists T, p. split_and!; try done. by rewrite E; destruct Hm as [_ ->].
Qed.

(** C40: a membership proof that verifies against the root of a trie names a key and
    the value the trie has for it, whoever made the proof and whatever its siblings,
    its depth and its flags; every run of insertions, deletions and commits returns
    such a root.  The hash functions are assumed collision free on what the run and
    the verifier hash. *)
Theorem membership_sound c ops p :
  Forall op_ok ops → pre_collision_free (universe c ops ++ proof_pres p) →
  ∃ T, run_ops ops (empty_trie c) = (T, Ok (tr_root T)) ∧
    (verify_membership p (tr_root T) = true → map_run ops ∅ !! mp_key p = Some (mp_value p)).
Proof.
  intros Hops Hcf. destruct (universe_parts c ops) as [He Hh].
  pose proof (sub_app_l _ (proof_pres p) _ He) as He'.
  destruct (run_from_empty _ c ops Hcf He') as (T & E & Hm & _ & _ & Hw & Hr); [done|by apply sub_app_l|].
  exists T. split; [by rewrite E; destruct Hm as [_ ->]|]. intros Hv.
  unfold verify_membership in Hv. repeat (case_match; try done). apply bool_decide_eq_true in Hv.
  destruct Hm as [(_ & _ & HU & _) Hroot]. rewrite Hroot in Hv.
  assert (Hpp : proof_pres p ⊆ universe c ops ++ proof_pres p) by (by apply sub_app_r).
  destruct (path_sound _ Hcf He' (mp_key p) (mp_siblings p) (mp_depth p)
    (hash_leaf (mp_key p) (mp_value p)) (tree_run c ops TEmpty)) as (s & Hd & Ws & HUs & Hs & Hl); try done.
  { intros q Hq. apply Hpp. by right. }
  assert (Hleaf : PLeaf (mp_key p) (mp_value p) ∈ universe c ops ++ proof_pres p) by (apply Hpp; left).
  rewrite <- Hr, Hl. destruct s as [|k' v'|l r]; simpl in Hs.
  - rewrite empty_hash_table in Hs by done.
    apply (Hcf _ (PLeaf (mp_key p) (mp_value p))) in Hs; [|by eapply empty_pre_in; [|lia]|done].
    by destruct (256 - mp_depth p)%nat.
  - apply (Hcf (PLeaf k' v') (PLeaf (mp_key p) (mp_value p))) in Hs; [|apply HUs; left|done].
    injection Hs as -> ->. simpl. by rewrite decide_True.
  - apply (Hcf (PNode (tree_hash _ l) (tree_hash _ r)) (PLeaf (mp_key p) (mp_value p))) in Hs;
      [done|apply HUs; left|done].
Qed.

(** The converse fails for non-membership: [verify_nonmembership] hashes up from
    whatever terminal hash the proof carries, so for every key the trie holds
    there is a proof of non-membership it accepts. *)
Theorem nonmembership_forgeable c ops k v :
  Forall op_ok ops → pre_collision_free (universe c ops) → map_run ops ∅ !! k = Some v →
  ∃ T p, run_ops ops (empty_trie c) = (T, Ok (tr_root T)) ∧ get T k = Ok (Some v) ∧
    mp_key p = k ∧ verify_nonmembership p (tr_root T) = true.
Proof.
  intros Hops Hcf Hk. destruct (universe_parts c ops) as [He Hh].
  destruct (run_from_empty (universe c ops) c ops) as (T & E & Hm & _ & _ & _ & Hr); try done.
  destruct (prove_models _ Hcf He T k _ Hm) as (p & Ep & Hpk & Hv). rewrite Hr, Hk in Hv.
  destruct Hv as [Hval Hv].
  exists T, (mkProof k [] (mp_siblings p) (mp_depth p) false (hash_leaf k v)). split_and!; try done.
  - by rewrite E; destruct Hm as [_ ->].
  - by rewrite (get_models _ Hcf He T _ k Hm), Hr, Hk.
  - unfold verify_membership in Hv. unfold verify_nonmembership. simpl.
    destruct (mp_found p); simpl in Hv; [|done].
    destruct (length (mp_siblings p) =? mp_depth p)%nat; simpl in Hv |- *; [|done].
    unfold compute_root in *. simpl. by rewrite <- Hpk, <- Hval.
Qed.
End proofs.
