(* ===== verification/TrieGc.v ===== *)
(** * Integrity checks and garbage collection of the trie

    Models [verify_integrity], [verify_integrity_strict], [collect_reachable],
    [prune] and [prune_offline] of tree.rs and the table scans of storage.rs they
    use.  The recursive walks take fuel: [collect_reachable] visits a hash at
    most once, so one more than the number of nodes is enough
    ([collect_terminates]); the integrity walks have no such bound on a damaged
    store and return nothing when the fuel runs out. *)

From S2P Require Import Prelude Bytes Trie TrieTree TrieRefine TrieTheorems.

Section gc.
Context `{Sha256, Blake3, Hex}.
Implicit Types (T : SentrixTrie) (st : TrieStorage) (h : bytes) (live : gset bytes) (depth : nat).

(** ** Integrity *)

Definition orphan_node h depth : SentrixError :=
  Internal ("trie integrity: orphan node reference " +:+ hex_encode h +:+ " at depth "
    +:+ pretty (Z.of_nat depth)).
Definition orphan_value vh h depth : SentrixError :=
  Internal ("trie integrity: orphan value reference " +:+ hex_encode vh +:+ " from leaf "
    +:+ hex_encode h +:+ " at depth " +:+ pretty (Z.of_nat depth)).

(** [None] when the fuel runs out; otherwise the verdict of both subtrees, the
    left one first. *)
Fixpoint walk_verify (fuel : nat) st h depth : option (result unit) :=
  match fuel with
  | O => None
  | S fuel =>
      if bool_decide (h = empty_hash (Nat.min depth 256)) then Some (Ok tt)
      else
        match ts_nodes st !! h with
        | None => Some (Err (orphan_node h depth))
        | Some (LeafNode _ vh) =>
            match ts_values st !! vh with
            | None => Some (Err (orphan_value vh h depth))
            | Some _ => Some (Ok tt)
            end
        | Some (InternalNode lft rgt _) =>
            match walk_verify fuel st lft (S depth) with
            | Some (Ok _) => walk_verify fuel st rgt (S depth)
            | r => r
            end
        end
  end.
Definition verify_integrity (fuel : nat) T : option (result unit) :=
  if bool_decide (tr_root T = empty_hash 0) then Some (Ok tt)
  else walk_verify fuel (tr_storage T) (tr_root T) 0.

Definition strict_error (what : string) h : SentrixError :=
  Internal ("trie strict integrity: " +:+ what +:+ " " +:+ hex_encode h).
Fixpoint walk_verify_strict (fuel : nat) st h depth : option (result unit) :=
  match fuel with
  | O => None
  | S fuel =>
      if bool_decide (h = empty_hash (Nat.min depth 256)) then Some (Ok tt)
      else
        match ts_nodes st !! h with
        | None => Some (Err (strict_error "missing node" h))
        | Some (LeafNode key vh) =>
            match ts_values st !! vh with
            | None => Some (Err (strict_error "missing value" vh))
            | Some value =>
                if bool_decide (hash_leaf key value = vh) then Some (Ok tt)
                else Some (Err (strict_error "leaf" h))
            end
        | Some (InternalNode lft rgt stored) =>
            if negb (bool_decide (stored = h)) then Some (Err (strict_error "internal node loaded by hash" h))
            else if negb (bool_decide (hash_internal lft rgt = stored))
            then Some (Err (strict_error "internal node at" h))
            else
              match walk_verify_strict fuel st lft (S depth) with
              | Some (Ok _) => walk_verify_strict fuel st rgt (S depth)
              | r => r
              end
        end
  end.
Definition verify_integrity_strict (fuel : nat) T : option (result unit) :=
  if bool_decide (tr_root T = empty_hash 0) then Some (Ok tt)
  else walk_verify_strict fuel (tr_storage T) (tr_root T) 0.

(** ** The live set *)

Fixpoint collect_reachable (fuel : nat) st h depth live : option (gset bytes) :=
  match fuel with
  | O => None
  | S fuel =>
      if bool_decide (h = empty_hash depth) || bool_decide (h ∈ live) then Some live
      else
        let live := {[h]} ∪ live in
        match ts_nodes st !! h with
        | None => Some live
        | Some (LeafNode _ vh) => Some ({[vh]} ∪ live)
        | Some (InternalNode lft rgt _) =>
            match collect_reachable fuel st lft (S depth) live with
            | Some live => collect_reachable fuel st rgt (S depth) live
            | None => None
            end
        end
  end.
Definition collect st h live : option (gset bytes) :=
  collect_reachable (S (size (ts_nodes st))) st h 0 live.

(** The roots recorded for [versions] that are not yet in [live]. *)
Fixpoint collect_versions st (versions : list Z) live : option (gset bytes) :=
  match versions with
  | [] => Some live
  | v :: versions =>
      match ts_roots st !! v with
      | Some root =>
          if bool_decide (root ∈ live) then collect_versions st versions live
          else match collect st root live with
               | Some live => collect_versions st versions live
               | None => None
               end
      | None => collect_versions st versions live
      end
  end.

(** ** Pruning *)

(** The storage and how many roots were removed. *)
Definition prune_old_roots (latest keep : Z) st : TrieStorage * nat :=
  if latest <=? keep then (st, O)
  else
    let cutoff := latest - keep in
    let old := filter (λ e, e.1 <= cutoff) (ts_roots st) in
    (st <| ts_roots := filter (λ e, ¬ e.1 <= cutoff) (ts_roots st) |>
        <| ts_committed := filter (λ e, e.1 ∉ (map_to_list old).*2) (ts_committed st) |>,
     size old).

(** [gc_table]: the entries that stay and how many were removed. *)
Definition gc_table {V} live (table : gmap bytes V) : gmap bytes V * nat :=
  let kept := filter (λ e, e.1 ∈ live) table in (kept, (size table - size kept)%nat).
Definition gc_orphaned_nodes live st : TrieStorage * nat :=
  let '(nodes, n) := gc_table live (ts_nodes st) in
  let '(values, v) := gc_table live (ts_values st) in
  (st <| ts_nodes := nodes |> <| ts_values := values |>, (n + v)%nat).

Definition kept_versions (version keep : Z) : list Z :=
  let cutoff := saturating_sub version keep in seqZ (cutoff + 1) (version - cutoff).

Definition prune_offline (keep : Z) T : option (SentrixTrie * (nat * nat)) :=
  let '(st, roots_pruned) := prune_old_roots (tr_version T) keep (tr_storage T) in
  let T := T <| tr_storage := st |> in
  if (roots_pruned =? 0)%nat then Some (T, (O, O))
  else
    match collect st (tr_root T) ∅ with
    | None => None
    | Some live =>
        match collect_versions st (kept_versions (tr_version T) keep) live with
        | None => None
        | Some live =>
            let '(st, gc) := gc_orphaned_nodes live st in
            Some (T <| tr_storage := st |>, (roots_pruned, gc))
        end
    end.

(** ** The walk ends *)

Lemma collect_terminates fuel st h depth live :
  (size (dom (ts_nodes st) ∖ live) < fuel)%nat →
  ∃ live', collect_reachable fuel st h depth live = Some live' ∧ live ⊆ live'.
Proof.
  revert h depth live. induction fuel as [|fuel IH]; intros h depth live Hf; [lia|]. cbn [collect_reachable].
  case_bool_decide as He; [by exists live|]. case_bool_decide as Hl; [by exists live|]. simpl.
  destruct (ts_nodes st !! h) as [[key vh|lft rgt hh]|] eqn:Hn.
  - exists ({[vh]} ∪ ({[h]} ∪ live)). split; [done|set_solver].
  - assert (Hsz : (size (dom (ts_nodes st) ∖ ({[h]} ∪ live)) < size (dom (ts_nodes st) ∖ live))%nat).
    { apply subset_size. apply elem_of_dom_2 in Hn. set_solver. }
    destruct (IH lft (S depth) ({[h]} ∪ live)) as (live1 & -> & Hs1); [lia|].
    destruct (IH rgt (S depth) live1) as (live2 & -> & Hs2).
    { assert (size (dom (ts_nodes st) ∖ live1) <= size (dom (ts_nodes st) ∖ ({[h]} ∪ live)))%nat
        by (apply subseteq_size; set_solver). lia. }
    exists live2. split; [done|set_solver].
  - exists ({[h]} ∪ live). split; [done|set_solver].
Qed.
Lemma collect_total st h live : ∃ live', collect st h live = Some live' ∧ live ⊆ live'.
Proof.
  apply collect_terminates. rewrite <- (size_dom (ts_nodes st)).
  assert (size (dom (ts_nodes st) ∖ live) <= size (dom (ts_nodes st)))%nat
    by (apply subseteq_size; set_solver). lia.
Qed.
Lemma collect_versions_total st versions live :
  ∃ live', collect_versions st versions live = Some live' ∧ live ⊆ live'.
Proof.
  revert live. induction versions as [|v versions IH]; intros live; simpl; [by exists live|].
  destruct (ts_roots st !! v) as [root|]; [|done]. case_bool_decide; [done|].
  destruct (collect_total st root live) as (live1 & -> & Hs1).
  destruct (IH live1) as (live2 & -> & Hs2). exists live2. split; [done|set_solver].
Qed.

(** ** The live set is closed *)

(** A storage on its own. *)
Definition disk st : SentrixTrie := mkTrie ∅ ∅ st [] 0 false.

Section universe.
Context (U : list Pre) (Hcf : pre_collision_free U) (Hemp : empty_pres ⊆ U).

Definition empty_or_live live h : Prop := h ∈ live ∨ ∃ d, (d <= 256)%nat ∧ h = empty_hash d.
(** The children of a node of the store are live too. *)
Definition covered live (p : Pre) : Prop :=
  match p with PNode lft rgt => empty_or_live live lft ∧ empty_or_live live rgt | _ => True end.
(** Every node in [live] is covered, those still being visited excepted. *)
Definition closed st (grey : list Pre) live : Prop :=
  ∀ p, p ∈ U → has (disk st) p → digest p ∈ live → p ∈ grey ∨ covered live p.

Lemma covered_mono live live' p : live ⊆ live' → covered live p → covered live' p.
Proof. unfold covered, empty_or_live. destruct p; set_solver. Qed.

Lemma has_get st p : has (disk st) p →
  match p with
  | PZero => True
  | PLeaf k v => ts_nodes st !! digest p = Some (LeafNode k (digest p)) ∧ ts_values st !! digest p = Some v
  | PNode lft rgt => ts_nodes st !! digest p = Some (InternalNode lft rgt (digest p))
  end.
Proof. unfold has, get_node, load_value, disk. destruct p; simpl; rewrite ?lookup_empty; done. Qed.

Lemma collect_tree fuel st d t grey live live' :
  wf d t → (d <= 256)%nat → preimages d t ⊆ U → holds (disk st) d t → closed st grey live →
  collect_reachable fuel st (tree_hash d t) d live = Some live' →
  live ⊆ live' ∧ closed st grey live' ∧ empty_or_live live' (tree_hash d t).
Proof.
  revert d fuel grey live live'. induction t as [|k v|l IHl r IHr]; intros d fuel grey live live'
    Hwf Hd HU Hh Hcl Hc; destruct fuel as [|fuel]; try done; cbn [collect_reachable] in Hc;
    rewrite (at_empty U) in Hc by done; simpl orb in Hc.
  - injection Hc as <-. split_and!; [done|done|]. right. by exists d.
  - case_bool_decide as Hin; [injection Hc as <-; split_and!; [done|done|by left]|].
    pose proof (has_get st (PLeaf k v) (Hh _ (list_elem_of_here _ _))) as [Hn _]. simpl in Hn, Hc.
    rewrite Hn in Hc. injection Hc as <-. split_and!; [set_solver| |left; simpl; set_solver].
    intros p Hp Hhp Hl. destruct (decide (digest p ∈ live)) as [Hl'|Hl'].
    + destruct (Hcl p Hp Hhp Hl') as [?|?]; [by left|right]. eapply covered_mono; [|done]. set_solver.
    + right. replace p with (PLeaf k v); [done|]. apply Hcf; [set_solver|done|simpl; set_solver].
  - case_bool_decide as Hin; [injection Hc as <-; split_and!; [done|done|by left]|].
    set (p0 := PNode (tree_hash (S d) l) (tree_hash (S d) r)).
    apply holds_node in Hh as (Hn0 & Hhl & Hhr). pose proof (has_get st p0 Hn0) as Hn. simpl in Hn.
    change (tree_hash d (TNode l r)) with (digest p0) in *. simpl in Hc. rewrite Hn in Hc.
    apply wf_node_depth in Hwf as (Hd' & Wl & Wr). simpl in HU.
    destruct (collect_reachable fuel st (tree_hash (S d) l) (S d) _) as [live1|] eqn:E1; [|done].
    assert (Hcl0 : closed st (p0 :: grey) ({[digest p0]} ∪ live)).
    { intros p Hp Hhp Hl. destruct (decide (digest p ∈ live)) as [Hl'|Hl'].
      - destruct (Hcl p Hp Hhp Hl') as [?|?]; [left; by right|right]. eapply covered_mono; [|done]. set_solver.
      - left. replace p with p0; [left|]. apply Hcf; [set_solver|done|set_solver]. }
    destruct (IHl (S d) fuel _ _ _ Wl Hd' ltac:(set_solver) Hhl Hcl0 E1) as (S1 & C1 & L1).
    destruct (IHr (S d) fuel _ _ _ Wr Hd' ltac:(set_solver) Hhr C1 Hc) as (S2 & C2 & L2).
    split_and!; [set_solver| |left; set_solver].
    intros p Hp Hhp Hl. destruct (C2 p Hp Hhp Hl) as [Hg|?]; [|by right].
    apply elem_of_cons in Hg as [->|?]; [right|by left]. split; [|done].
    destruct L1 as [L1|L1]; [left; set_solver|by right].
Qed.

(** A closed live set that contains the root of a held tree contains all of it. *)
Lemma closed_tree st d t live :
  closed st [] live → wf d t → (d <= 256)%nat → preimages d t ⊆ U → holds (disk st) d t →
  empty_or_live live (tree_hash d t) → ∀ p, p ∈ preimages d t → digest p ∈ live.
Proof.
  intros Hcl. revert d. induction t as [|k v|l IHl r IHr]; intros d Hwf Hd HU Hh Hr p Hp.
  - by apply elem_of_nil in Hp.
  - destruct Hr as [Hr|(d' & Hd' & E)]; [by apply list_elem_of_singleton in Hp as ->|].
    by apply (tree_hash_empty U Hcf Hemp) in E.
  - destruct Hr as [Hr|(d' & Hd' & E)]; [|by apply (tree_hash_empty U Hcf Hemp) in E].
    set (p0 := PNode (tree_hash (S d) l) (tree_hash (S d) r)).
    assert (Hp0 : p0 ∈ U) by (apply HU; left).
    apply holds_node in Hh as (Hn0 & Hhl & Hhr). apply wf_node_depth in Hwf as (Hdd & Wl & Wr). simpl in HU.
    destruct (Hcl p0 Hp0 Hn0 Hr) as [Hg|[Cl Cr]]; [by apply elem_of_nil in Hg|].
    simpl in Hp. apply elem_of_cons in Hp as [->|Hp]; [done|]. apply elem_of_app in Hp as [Hp|Hp].
    + apply (IHl (S d)); try done. set_solver.
    + apply (IHr (S d)); try done. set_solver.
Qed.

(** ** What pruning keeps *)

(** Every recorded root is the root of a tree the storage holds. *)
Definition tree_on st (root : bytes) (t : tree) : Prop :=
  wf 0 t ∧ preimages 0 t ⊆ U ∧ root = tree_hash 0 t ∧ holds (disk st) 0 t.
Definition disk_inv st : Prop := ∀ v root, ts_roots st !! v = Some root → ∃ t, tree_on st root t.

Lemma collect_versions_closed st versions live live' :
  disk_inv st → closed st [] live → collect_versions st versions live = Some live' →
  closed st [] live' ∧
  ∀ v root, v ∈ versions → ts_roots st !! v = Some root → empty_or_live live' root.
Proof.
  intros Hinv. revert live. induction versions as [|v versions IH]; intros live Hcl Hc; simpl in Hc.
  - injection Hc as <-. split; [done|]. intros v root Hv. by apply elem_of_nil in Hv.
  - assert (Hmono : ∀ live0, collect_versions st versions live0 = Some live' → live0 ⊆ live').
    { intros live0 E. destruct (collect_versions_total st versions live0) as (l & E' & Hs).
      rewrite E in E'. by injection E' as <-. }
    assert (Hstep : ∀ live0, closed st [] live0 → collect_versions st versions live0 = Some live' →
      (∀ root, ts_roots st !! v = Some root → empty_or_live live0 root) →
      closed st [] live' ∧
      ∀ v' root, v' ∈ v :: versions → ts_roots st !! v' = Some root → empty_or_live live' root).
    { intros live0 Hcl0 E Hv. destruct (IH live0 Hcl0 E) as [Hcl' Hr]. split; [done|].
      intros v' root [->|Hin]%elem_of_cons Hroot; [|by apply (Hr v')].
      destruct (Hv root Hroot) as [?|?]; [left; by apply (Hmono live0)|by right]. }
    destruct (ts_roots st !! v) as [root|] eqn:Hroot; [|by apply (Hstep live)].
    case_bool_decide as Hin.
    + apply (Hstep live); try done. intros ? [= <-]. by left.
    + destruct (collect st root live) as [live1|] eqn:E1; [|done].
      destruct (Hinv v root Hroot) as (t & Hwf & HU & -> & Hh).
      destruct (collect_tree _ st 0 t [] live live1 Hwf ltac:(lia) HU Hh Hcl E1) as (_ & Hcl1 & Hl1).
      apply (Hstep live1); try done. by intros ? [= <-].
Qed.

Lemma gc_reads st live p :
  digest p ∈ live → has (disk st) p → has (disk (gc_orphaned_nodes live st).1) p.
Proof.
  intros Hl Hh. pose proof (has_get st p Hh) as Hg. unfold has, disk, get_node, load_value.
  destruct p as [|k v|lft rgt]; [done|..]; simpl in *; rewrite !lookup_empty, ?map_lookup_filter;
    [destruct Hg as [-> ->]|rewrite Hg]; simpl; rewrite ?option_guard_True by done; done.
Qed.

Lemma open_models st version root t :
  ts_roots st !! version = Some root → tree_on st root t → models U (trie_open st version) t.
Proof.
  intros Hr (Hwf & HU & -> & Hh). split; [|unfold trie_open; simpl; by rewrite Hr].
  split_and!; [done|lia|done|]. intros p Hp. specialize (Hh p Hp). by destruct p.
Qed.

Lemma open_unrecorded st version :
  ts_roots st !! version = None → models U (trie_open st version) TEmpty.
Proof.
  intros Hr. split; [|unfold trie_open; simpl; by rewrite Hr].
  split_and!; [exact I|lia|intros p Hp; by apply elem_of_nil in Hp|].
  intros p Hp. by apply elem_of_nil in Hp.
Qed.

(** The runs from the empty trie. *)
Lemma run_op_disk o T t T' h :
  models U T t → disk_inv (tr_storage T) → run_op o T = (T', Ok h) → follows U T T' →
  disk_inv (tr_storage T').
Proof.
  intros Hm Hinv E Hf v root Hroot. assert (ET : T' = (run_op o T).1) by (by rewrite E).
  destruct (decide (o = OCommit v)) as [->|Hne].
  - rewrite ET in Hroot |- *. simpl in Hroot. rewrite lookup_insert_eq in Hroot. injection Hroot as <-.
    destruct Hm as [(Hwf & _ & HU & Hh) Hr]. exists t. split_and!; try done.
    intros p Hp. pose proof (has_clone T v p (Hh p Hp)) as Hd. by destruct p.
  - rewrite ET, run_op_roots in Hroot by done. destruct (Hinv v root Hroot) as (t' & ? & HU & ? & Hh).
    exists t'. split_and!; try done. intros p Hp. specialize (Hh p Hp).
    assert (Hd : has (trie_clone T) p) by (by destruct p).
    apply (follows_disk _ _ _ Hf) in Hd; [|by apply HU]. by destruct p.
Qed.
Lemma run_ops_disk ops T t c :
  Forall op_ok ops → models U T t → coherent U T → tr_canonical_delete T = c → hashed c ops t ⊆ U →
  disk_inv (tr_storage T) → disk_inv (tr_storage (run_ops ops T).1).
Proof.
  revert T t. induction ops as [|o ops IH]; intros T t Hops Hm Hco Hc HU Hinv; [done|].
  apply Forall_cons in Hops as [Ho Hops]. simpl in HU.
  assert (HUs : preimages 0 (tree_op c o t) ⊆ U ∧ hashed c ops (tree_op c o t) ⊆ U) by set_solver.
  destruct HUs as [HU1 HU2].
  destruct (run_op_models U Hcf Hemp o T t c Ho Hm Hco Hc HU1) as (T1 & E1 & Hm1 & Hf1).
  simpl. rewrite E1. apply (IH T1 (tree_op c o t)); try done.
  - by apply (follows_coherent _ _ _ Hf1).
  - by rewrite (follows_mode _ _ _ Hf1).
  - exact (run_op_disk o T t T1 _ Hm Hinv E1 Hf1).
Qed.

Lemma prune_window version keep st v :
  version - keep < v → ts_roots (prune_old_roots version keep st).1 !! v = ts_roots st !! v.
Proof.
  intros Hv. unfold prune_old_roots. destruct (Z.leb_spec version keep); [done|]. simpl.
  rewrite map_lookup_filter. destruct (ts_roots st !! v); [|done]. simpl.
  rewrite option_guard_True; [done|lia].
Qed.
Lemma prune_roots_sub version keep st v root :
  ts_roots (prune_old_roots version keep st).1 !! v = Some root → ts_roots st !! v = Some root.
Proof.
  unfold prune_old_roots. destruct (version <=? keep); [done|]. simpl. rewrite map_lookup_filter_Some. tauto.
Qed.
Lemma prune_disk version keep st : disk_inv st → disk_inv (prune_old_roots version keep st).1.
Proof.
  intros Hinv v root Hr. apply prune_roots_sub in Hr. destruct (Hinv v root Hr) as (t & ? & ? & ? & Hh).
  exists t. split_and!; try done. intros p Hp. specialize (Hh p Hp). revert Hh.
  unfold prune_old_roots. destruct (version <=? keep); by destruct p.
Qed.

Lemma prune_tree_on version keep st root t :
  tree_on st root t → tree_on (prune_old_roots version keep st).1 root t.
Proof.
  intros (? & ? & ? & Hh). split_and!; try done. intros p Hp. specialize (Hh p Hp). revert Hh.
  unfold prune_old_roots. destruct (version <=? keep); by destruct p.
Qed.
Lemma gc_tree_on st live root t :
  closed st [] live → empty_or_live live root → tree_on st root t →
  tree_on (gc_orphaned_nodes live st).1 root t.
Proof.
  intros Hcl Hl (Hwf & HU & -> & Hh). split_and!; try done. intros p Hp.
  apply gc_reads; [|by apply Hh]. apply (closed_tree st 0 t); try done. lia.
Qed.

(** The trie is quiescent at [n]: its root is the one committed there.  Then
    pruning returns, and keeps the tree of every recorded version of the
    window. *)
Lemma prune_offline_keeps T n keep root t :
  0 <= keep → 0 <= n → tr_version T = n → tr_root T = root → disk_inv (tr_storage T) →
  tree_on (tr_storage T) root t →
  ∃ T' counts, prune_offline keep T = Some (T', counts) ∧ T' = T <| tr_storage := tr_storage T' |> ∧
    tree_on (tr_storage T') root t ∧
    ∀ v, n - keep < v <= n → ts_roots (tr_storage T') !! v = ts_roots (tr_storage T) !! v ∧
      ∀ root' t', ts_roots (tr_storage T) !! v = Some root' → tree_on (tr_storage T) root' t' →
        tree_on (tr_storage T') root' t'.
Proof.
  intros Hkeep Hn Hver Hroot Hinv Hon. unfold prune_offline. rewrite Hver.
  pose proof (prune_disk n keep _ Hinv) as Hinv1. pose proof (prune_tree_on n keep _ _ _ Hon) as Hon1.
  assert (Hwin : ∀ v, n - keep < v → ts_roots (prune_old_roots n keep (tr_storage T)).1 !! v =
    ts_roots (tr_storage T) !! v) by (intros; by apply prune_window).
  assert (Hons : ∀ root' t', tree_on (tr_storage T) root' t' →
    tree_on (prune_old_roots n keep (tr_storage T)).1 root' t') by (intros; by apply prune_tree_on).
  assert (Hold : n <= keep → (prune_old_roots n keep (tr_storage T)).2 = O).
  { intros Hle. unfold prune_old_roots. by rewrite (proj2 (Z.leb_le n keep)). }
  destruct (prune_old_roots n keep (tr_storage T)) as [st pruned]. simpl in *.
  destruct (Nat.eqb_spec pruned 0) as [_|Hpr]; [eexists _, _; (split; [reflexivity|]); split_and!; try done; intros; split; auto; apply Hwin; lia|].
  change (tr_version (T <| tr_storage := st |>)) with (tr_version T).
  change (tr_root (T <| tr_storage := st |>)) with (tr_root T).
  rewrite Hver, Hroot. destruct (collect_total st root ∅) as (live1 & E1 & _). rewrite E1.
  destruct Hon1 as (Hwf & HU & Er & Hh). rewrite Er in E1.
  assert (Hcl0 : closed st [] ∅) by (intros p _ _ Hp; set_solver).
  destruct (collect_tree _ st 0 t [] ∅ live1 Hwf ltac:(lia) HU Hh Hcl0 E1) as (_ & Hcl1 & Hl1).
  destruct (collect_versions_total st (kept_versions n keep) live1) as (live2 & E2 & Hs2). rewrite E2.
  destruct (collect_versions_closed st _ live1 live2 Hinv1 Hcl1 E2) as [Hcl2 Hv2].
  eexists _, _. split; [reflexivity|]. split_and!; [done| |].
  - apply gc_tree_on; [done| |done]. rewrite Er. destruct Hl1 as [?|?]; [left; by apply Hs2|by right].
  - intros v Hv. split; [apply Hwin; lia|]. intros root' t' Hr' Ht'. apply gc_tree_on; [done| |by apply Hons].
    apply (Hv2 v); [|by rewrite Hwin by lia]. unfold kept_versions, saturating_sub.
    apply elem_of_seqZ. destruct (Z.le_gt_cases n keep); [by rewrite Hold in Hpr|lia].
Qed.

(** ** What the integrity walk accepts *)

(** A walk over a held tree succeeds; [257 - d] steps are enough. *)
Lemma walk_verify_tree st d t :
  wf d t → (d <= 256)%nat → preimages d t ⊆ U → holds (disk st) d t →
  walk_verify (257 - d) st (tree_hash d t) d = Some (Ok tt) ∧
  walk_verify_strict (257 - d) st (tree_hash d t) d = Some (Ok tt).
Proof.
  revert d. induction t as [|k v|l IHl r IHr]; intros d Hwf Hd HU Hh;
    replace (257 - d)%nat with (S (256 - d))%nat by lia; cbn [walk_verify walk_verify_strict];
    rewrite (Nat.min_l d 256), (at_empty U) by done; [done|..].
  - pose proof (has_get st (PLeaf k v) (Hh _ (list_elem_of_here _ _))) as [Hn Hv]. simpl in *.
    by rewrite Hn, Hv, bool_decide_eq_true_2.
  - apply holds_node in Hh as (Hn0 & Hhl & Hhr). pose proof (has_get st _ Hn0) as Hn. simpl in Hn, HU.
    apply wf_node_depth in Hwf as (Hd' & Wl & Wr). replace (256 - d)%nat with (257 - S d)%nat by lia.
    destruct (IHl (S d)) as [E1 E2]; try done; [set_solver|].
    destruct (IHr (S d)) as [E3 E4]; try done; [set_solver|].
    simpl tree_hash. rewrite Hn, !bool_decide_eq_true_2 by done. cbn [negb]. by rewrite E1, E2.
Qed.
End universe.

(** What a run that ends with a commit leaves: a tree that represents the map,
    all of it in storage, and the same for every recorded root. *)
Lemma committed_run c ops n :
  let U := universe c (ops ++ [OCommit n]) in
  Forall op_ok ops → pre_collision_free U →
  ∃ T t, run_ops (ops ++ [OCommit n]) (empty_trie c) = (T, Ok (tr_root T)) ∧
    represents t (map_run ops ∅) ∧ tree_on U (tr_storage T) (tr_root T) t ∧ disk_inv U (tr_storage T) ∧
    (∃ T1, T = (commit_trie n T1).1).
Proof.
  intros U Hops Hcf. destruct (universe_parts c (ops ++ [OCommit n])) as [He Hh].
  assert (Hops' : Forall op_ok (ops ++ [OCommit n])) by (apply Forall_app; by rewrite Forall_singleton).
  destruct (run_from_empty U c _ Hcf He Hops' Hh) as (T & E & Hm & Hco & Hc & Hwf & Hrep).
  destruct (empty_models U c) as [Hm0 Hco0].
  assert (E' : run_ops (ops ++ [OCommit n]) (empty_trie c) = (T, Ok (tr_root T)))
    by (by rewrite E; destruct Hm as [_ ->]).
  destruct (run_ops_commit _ _ _ _ E') as [T1 ET].
  exists T, (tree_run c (ops ++ [OCommit n]) TEmpty). split_and!; [done| | | |by exists T1].
  - by rewrite map_run_app in Hrep.
  - destruct Hm as [(? & _ & ? & Hhold) Hroot]. split_and!; try done. intros p Hp.
    specialize (Hhold p Hp). rewrite ET in Hhold |- *. by destruct p.
  - replace T with (run_ops (ops ++ [OCommit n]) (empty_trie c)).1 by (by rewrite E).
    by apply (run_ops_disk U Hcf He _ (empty_trie c) TEmpty c).
Qed.

(** C23: pruning a quiescent trie returns, keeps the current map and every committed
    version of the window readable exactly as before, and forgets only older
    roots.  The hash functions are assumed collision free on what the run hashes. *)
Theorem prune_offline_keeps_window c ops n keep :
  0 <= keep → 0 <= n → Forall op_ok ops → pre_collision_free (universe c (ops ++ [OCommit n])) →
  ∃ T T' counts, run_ops (ops ++ [OCommit n]) (empty_trie c) = (T, Ok (tr_root T)) ∧
    prune_offline keep T = Some (T', counts) ∧
    (∀ k, get T' k = Ok (map_run ops ∅ !! k)) ∧
    ∀ v, n - keep < v <= n →
      root_at_version T' v = root_at_version T v ∧
      ∀ k, get (trie_open (tr_storage T') v) k = get (trie_open (tr_storage T) v) k.
Proof.
  intros Hkeep Hn Hops Hcf. destruct (universe_parts c (ops ++ [OCommit n])) as [He _].
  destruct (committed_run c ops n Hops Hcf) as (T & t & E & Hrep & Hon & Hinv & T1 & ET).
  destruct (prune_offline_keeps _ Hcf He T n keep (tr_root T) t) as (T' & counts & Ep & Ec & Hon' & Hwin);
    try done; [by rewrite ET|].
  exists T, T', counts. split_and!; try done.
  - intros k. rewrite <- Hrep. apply (get_models _ Hcf He). rewrite Ec.
    destruct Hon' as (Hw & HU & Hr & Hhold). split; [|exact Hr].
    split_and!; [done|lia|done|]. intros p Hp. specialize (Hhold p Hp). rewrite ET. by destruct p.
  - intros v Hv. destruct (Hwin v Hv) as [Hr Hkept]. split; [exact Hr|]. intros k.
    destruct (ts_roots (tr_storage T) !! v) as [root|] eqn:Hroot.
    + destruct (Hinv v root Hroot) as [t' Ht'].
      rewrite !(get_models _ Hcf He _ t'); [done|by eapply open_models|].
      apply (open_models _ _ _ root); [by rewrite Hr|by apply (Hkept root)].
    + by rewrite !(get_models _ Hcf He _ TEmpty) by (apply open_unrecorded; congruence).
Qed.

(** The boot-time check passes on every committed state, within 257 levels. *)
Theorem committed_state_passes_integrity c ops n :
  Forall op_ok ops → pre_collision_free (universe c (ops ++ [OCommit n])) →
  ∃ T, run_ops (ops ++ [OCommit n]) (empty_trie c) = (T, Ok (tr_root T)) ∧
    verify_integrity 257 T = Some (Ok tt) ∧ verify_integrity_strict 257 T = Some (Ok tt).
Proof.
  intros Hops Hcf. destruct (universe_parts c (ops ++ [OCommit n])) as [He _].
  destruct (committed_run c ops n Hops Hcf) as (T & t & E & _ & (Hwf & HU & Hr & Hh) & _).
  exists T. unfold verify_integrity, verify_integrity_strict. rewrite Hr.
  destruct (walk_verify_tree _ Hcf He (tr_storage T) 0 t) as [E1 E2]; try done; [lia|].
  change 257%nat with (257 - 0)%nat. rewrite E1, E2. split_and!; [by rewrite <- Hr| |]; by case_bool_decide.
Qed.

(** A trie that passes the check reads without error at every key. *)
Lemma walk_verify_get fuel st k h depth n T :
  walk_verify fuel st h depth = Some (Ok tt) → (depth + n <= 257)%nat →
  (∀ h', get_node T h' = ts_nodes st !! h') →
  ∃ o, get_from n T k h depth = Ok o.
Proof.
  intros Hw Hd Hg. revert fuel h depth Hw Hd. induction n as [|n IH]; intros fuel h depth Hw Hd; simpl; [by eexists|].
  case_bool_decide as He; [by eexists|]. destruct fuel as [|fuel]; [done|]. simpl in Hw.
  rewrite Nat.min_l, bool_decide_eq_false_2 in Hw by (done || lia).
  rewrite Hg. destruct (ts_nodes st !! h) as [[key vh|lft rgt hh]|]; [case_bool_decide; by eexists| |done].
  destruct (walk_verify fuel st lft (S depth)) as [[[]|]|] eqn:El; try done.
  destruct (get_bit k depth); eapply IH; try done; lia.
Qed.
Theorem integrity_check_sound fuel T k :
  tr_pending_nodes T = ∅ → verify_integrity fuel T = Some (Ok tt) → ∃ o, get T k = Ok o.
Proof.
  intros Hp Hv. unfold verify_integrity in Hv. unfold get. case_bool_decide as He.
  - exists None. cbn [get_from]. by rewrite bool_decide_eq_true_2.
  - eapply (walk_verify_get fuel (tr_storage T)); [done|lia|]. intros h'. unfold get_node.
    by rewrite Hp, lookup_empty.
Qed.

(** ** The reverse index of the roots *)

(** Opening a store without the index fills it. *)
Lemma index_filled_at_open st v root :
  ts_ready st = false → ts_roots st !! v = Some root →
  is_committed_root (ensure_committed_roots_index st) root = true.
Proof.
  intros Hr Hv. unfold is_committed_root, ensure_committed_roots_index. simpl. rewrite Hr.
  apply bool_decide_eq_true_2.
  assert (Hin : (v, root) ∈ sort_by_key Z.le (map_to_list (ts_roots st))).
  { rewrite sort_by_key_perm. by apply elem_of_map_to_list. }
  revert Hin. generalize (sort_by_key Z.le (map_to_list (ts_roots st))) as es. generalize (ts_committed st) as m.
  intros m es. revert m. induction es as [|e es IH] using rev_ind; intros m Hin; [by apply elem_of_nil in Hin|].
  rewrite foldl_app. simpl. apply elem_of_app in Hin as [Hin|Hin].
  - destruct (decide (e.2 = root)) as [->|]; [rewrite lookup_insert_eq; by eexists|].
    rewrite lookup_insert_ne by done. by apply IH.
  - apply list_elem_of_singleton in Hin as <-. rewrite lookup_insert_eq. by eexists.
Qed.

(** Pruning forgets too much of it: a root that is recorded both at a pruned and
    at a kept version is no longer known as committed. *)
Lemma prune_unindexes_kept_root latest keep st old v root :
  keep < latest → old <= latest - keep < v → ts_roots st !! old = Some root → ts_roots st !! v = Some root →
  let st' := (prune_old_roots latest keep st).1 in
  ts_roots st' !! v = Some root ∧ is_committed_root st' root = false.
Proof.
  intros Hk Hv Ho Hr st'. split; [by unfold st'; rewrite prune_window by lia|].
  unfold st', is_committed_root, prune_old_roots. destruct (Z.leb_spec latest keep); [lia|]. simpl.
  apply bool_decide_eq_false_2. intros [x Hx]. apply map_lookup_filter_Some in Hx as [_ Hx]. apply Hx.
  apply list_elem_of_fmap. exists (old, root). split; [done|]. apply elem_of_map_to_list, map_lookup_filter_Some.
  split; [done|]. simpl. lia.
Qed.
End gc.
