(* ===== verification/TrieGenerational.v ===== *)
(** * Generational garbage collection

    Models [gc_table_generational] of storage.rs and [prune] of tree.rs, which
    runs beside block application: the storage may change between its phases,
    which is modelled by functions on the storage at those points. *)

From S2P Require Import Prelude Bytes Trie TrieTree TrieRefine TrieTheorems TrieGc.

Section generational.
Context `{Sha256, Blake3, Hex}.
Implicit Types (T : SentrixTrie) (st : TrieStorage) (h : bytes) (live : gset bytes) (disc : Disc) (version : Z).

(** A tombstone is dropped when its hash is live again or is deleted now. *)
Definition dropped disc live (version : Z) (e : (Disc * bytes) * Z) : Prop :=
  e.1.1 = disc ∧ (e.1.2 ∈ live ∨ e.2 < version).
#[local] Instance dropped_dec disc live version e : Decision (dropped disc live version e).
Proof. unfold dropped. apply _. Defined.
(** A hash is deleted when it is no longer live and was tombstoned in an earlier cycle. *)
Definition reaped disc live (version : Z) (tombs : gmap (Disc * bytes) Z) h : bool :=
  match tombs !! (disc, h) with
  | Some tv => negb (bool_decide (h ∈ live)) && (tv <? version)
  | None => false
  end.
Definition fresh_tombs {V : Type} disc live (version : Z) (tombs : gmap (Disc * bytes) Z) (table : gmap bytes V)
    : gmap (Disc * bytes) Z :=
  list_to_map ((λ h, ((disc, h), version)) <$>
    filter (λ h, h ∉ live ∧ tombs !! (disc, h) = None) (map_to_list table).*1).

(** The table, the tombstones and how many hashes were reaped. *)
Definition gc_table_generational {V : Type} disc live (version : Z) (table : gmap bytes V)
    (tombs : gmap (Disc * bytes) Z) : gmap bytes V * gmap (Disc * bytes) Z * nat :=
  let reap := filter (λ e, e.1.1 = disc ∧ reaped disc live version tombs e.1.2 = true) tombs in
  let table := filter (λ e, reaped disc live version tombs e.1 = false) table in
  let kept := filter (λ e, ¬ dropped disc live version e) tombs in
  (table, fresh_tombs disc live version tombs table ∪ kept, size reap).

Definition gc_nodes_generational live (version : Z) st : TrieStorage * nat :=
  let '(nodes, tombs, n) := gc_table_generational DiscNode live version (ts_nodes st) (ts_tombstones st) in
  (st <| ts_nodes := nodes |> <| ts_tombstones := tombs |>, n).
Definition gc_values_generational live (version : Z) st : TrieStorage * nat :=
  let '(values, tombs, n) := gc_table_generational DiscValue live version (ts_values st) (ts_tombstones st) in
  (st <| ts_values := values |> <| ts_tombstones := tombs |>, n).

Definition latest_version st : option Z :=
  foldr (λ v acc, Some (match acc with Some o => Z.max o v | None => v end)) None (map_to_list (ts_roots st)).*1.

(** The live set with the roots from [from] to the latest on disk, and that version. *)
Definition augment_live_to_latest st (own from : Z) live : option (gset bytes * Z) :=
  let latest := default own (latest_version st) in
  match collect_versions st (seqZ from (latest + 1 - from)) live with
  | Some live => Some (live, latest)
  | None => None
  end.

(** A block committed while the prune runs. *)
Record Batch := mkBatch {
  b_nodes : gmap bytes TrieNode;
  b_values : gmap bytes bytes;
  b_version : Z;
  b_root : bytes;
}.
Definition flush_batches (bs : list Batch) st : TrieStorage :=
  foldl (λ st b, flush_trie_batch (b_nodes b) (b_values b) (b_version b) (b_root b) st) st bs.

(** [env1], [env2] and [env3] are the blocks committed before the nodes pass,
    between the passes, and between the second walk and the values pass. *)
Definition prune (keep : Z) (env1 env2 env3 : list Batch) T : option (SentrixTrie * (nat * nat)) :=
  let version := tr_version T in
  let '(st, roots_pruned) := prune_old_roots version keep (tr_storage T) in
  if (roots_pruned =? 0)%nat then Some (T <| tr_storage := st |>, (O, O))
  else
    live ← collect st (tr_root T) ∅;
    live ← collect_versions st (kept_versions version keep) live;
    let st := flush_batches env1 st in
    '(live, on_disk) ← augment_live_to_latest st version (version + 1) live;
    let '(st, nodes_gc) := gc_nodes_generational live version st in
    let st := flush_batches env2 st in
    '(live, _) ← augment_live_to_latest st version (on_disk + 1) live;
    let '(st, values_gc) := gc_values_generational live version (flush_batches env3 st) in
    Some (T <| tr_storage := st |>, (roots_pruned, (nodes_gc + values_gc)%nat)).

(** ** Who survives *)

Lemma reaped_spec disc live version tombs h :
  reaped disc live version tombs h = true ↔
  ∃ tv, tombs !! (disc, h) = Some tv ∧ h ∉ live ∧ tv < version.
Proof.
  unfold reaped. destruct (tombs !! (disc, h)) as [tv|]; [|naive_solver].
  rewrite andb_true_iff, negb_true_iff, bool_decide_eq_false, Z.ltb_lt. naive_solver.
Qed.
Lemma reaped_false disc live version tombs h :
  (h ∈ live ∨ ∀ tv, tombs !! (disc, h) = Some tv → version <= tv) →
  reaped disc live version tombs h = false.
Proof.
  intros Hc. apply not_true_iff_false. rewrite reaped_spec. intros (tv & Ht & Hl & Hlt).
  destruct Hc as [?|Hc]; [done|]. specialize (Hc tv Ht). lia.
Qed.

Section one_table.
Context {V : Type}.
Implicit Types (table : gmap bytes V) (tombs : gmap (Disc * bytes) Z).

Lemma gc_generational_lookup disc live version table tombs h :
  (gc_table_generational disc live version table tombs).1.1 !! h =
    if reaped disc live version tombs h then None else table !! h.
Proof.
  simpl. rewrite map_lookup_filter. destruct (table !! h); simpl.
  - by destruct (reaped disc live version tombs h).
  - by destruct (reaped _ _ _ _ _).
Qed.
Lemma fresh_tombs_lookup disc live version tombs table h :
  fresh_tombs disc live version tombs table !! (disc, h) =
    if bool_decide (is_Some (table !! h) ∧ h ∉ live ∧ tombs !! (disc, h) = None) then Some version else None.
Proof.
  unfold fresh_tombs. case_bool_decide as Hc.
  - apply elem_of_list_to_map_1'.
    + intros y Hy. apply list_elem_of_fmap in Hy as (h' & [= <- ->] & _). done.
    + apply list_elem_of_fmap. exists h. split; [done|]. apply list_elem_of_filter. split; [tauto|].
      destruct Hc as [[x Hx] _]. apply list_elem_of_fmap. exists (h, x). split; [done|]. by apply elem_of_map_to_list.
  - apply not_elem_of_list_to_map_1. rewrite <- list_fmap_compose. intros Hin.
    apply list_elem_of_fmap in Hin as (h' & [= <-] & Hin). apply list_elem_of_filter in Hin as [Hf Hin].
    apply list_elem_of_fmap in Hin as ([h0 x] & -> & Hin). apply elem_of_map_to_list in Hin.
    apply Hc. split; [by eexists|done].
Qed.

(** The tombstones of the other kind are left alone. *)
Lemma gc_generational_other disc disc' live version table tombs h :
  disc ≠ disc' →
  (gc_table_generational disc live version table tombs).1.2 !! (disc', h) = tombs !! (disc', h).
Proof.
  intros Hne. simpl. rewrite lookup_union_r.
  - rewrite map_lookup_filter. destruct (tombs !! (disc', h)); [|done]. simpl.
    case_guard as Hg; [done|]. destruct Hg as [Hd _]. by destruct Hne.
  - apply not_elem_of_list_to_map_1. rewrite <- list_fmap_compose. intros Hin.
    apply list_elem_of_fmap in Hin as (h' & [= -> _] & _). done.
Qed.

(** A hash is deleted only when two successive cycles found it dead: the first
    cycle deletes nothing, and of what is present at the second the hashes that
    were live in either cycle, or were written in between, stay; the others go. *)
Theorem generational_gc_two_cycles disc live1 (v1 : Z) live2 (v2 : Z) table1 (written : gmap bytes V) :
  let '(kept1, tombs1, n1) := gc_table_generational disc live1 v1 table1 ∅ in
  let table2 := written ∪ kept1 in
  let '(kept2, _, _) := gc_table_generational disc live2 v2 table2 tombs1 in
  kept1 = table1 ∧ n1 = O ∧
  ∀ h, kept2 !! h = if bool_decide (is_Some (table1 !! h) ∧ h ∉ live1 ∧ h ∉ live2 ∧ v1 < v2) then None
                    else table2 !! h.
Proof.
  destruct (gc_table_generational disc live1 v1 table1 ∅) as [[kept1 tombs1] n1] eqn:E1.
  pose proof (gc_generational_lookup disc live1 v1 table1 ∅) as L1. rewrite E1 in L1. simpl in L1.
  assert (Hk : kept1 = table1).
  { apply map_eq. intros h. rewrite L1, reaped_false; [done|]. right. intros tv. by rewrite lookup_empty. }
  pose proof (gc_generational_lookup disc live2 v2 (written ∪ kept1) tombs1) as L2.
  assert (Ht : ∀ h, tombs1 !! (disc, h) =
    if bool_decide (is_Some (table1 !! h) ∧ h ∉ live1) then Some v1 else None).
  { intros h. unfold gc_table_generational in E1. injection E1 as E1a E1b E1c. rewrite <- E1b, E1a, Hk.
    rewrite map_filter_empty, (right_id_L ∅ (∪)), fresh_tombs_lookup.
    repeat case_bool_decide; try done; rewrite lookup_empty in *; naive_solver. }
  split_and!; [done| |].
  - unfold gc_table_generational in E1. injection E1 as _ _ <-. by rewrite map_filter_empty, map_size_empty.
  - intros h. etrans; [exact (L2 h)|]. unfold reaped. rewrite Ht.
    case_bool_decide as Hd; [destruct (Z.ltb_spec v1 v2)|]; repeat case_bool_decide; simpl; try done;
      exfalso; intuition lia.
Qed.
End one_table.

Definition untombed st disc h : Prop := ts_tombstones st !! (disc, h) = None.

Lemma flush_batches_tombs bs st : ts_tombstones (flush_batches bs st) = ts_tombstones st.
Proof. revert st. induction bs as [|b bs IH]; intros st; [done|]. simpl. by rewrite IH. Qed.
Lemma flush_batches_has bs st h :
  (is_Some (ts_nodes st !! h) → is_Some (ts_nodes (flush_batches bs st) !! h)) ∧
  (is_Some (ts_values st !! h) → is_Some (ts_values (flush_batches bs st) !! h)).
Proof.
  revert st. induction bs as [|b bs IH]; intros st; [done|]. simpl.
  destruct (IH (flush_trie_batch (b_nodes b) (b_values b) (b_version b) (b_root b) st)) as [Hn Hv].
  split; intros Hs; [apply Hn|apply Hv]; simpl; apply lookup_union_is_Some; by right.
Qed.
Lemma flush_batches_written bs b st h :
  b ∈ bs →
  (is_Some (b_nodes b !! h) → is_Some (ts_nodes (flush_batches bs st) !! h)) ∧
  (is_Some (b_values b !! h) → is_Some (ts_values (flush_batches bs st) !! h)).
Proof.
  intros Hb. revert st. induction bs as [|b' bs IH]; intros st; [by apply elem_of_nil in Hb|]. simpl.
  apply elem_of_cons in Hb as [<-|Hb]; [|by apply IH].
  destruct (flush_batches_has bs (flush_trie_batch (b_nodes b) (b_values b) (b_version b) (b_root b) st) h) as [Hn Hv].
  split; intros Hs; [apply Hn|apply Hv]; simpl; apply lookup_union_is_Some; by left.
Qed.

Lemma gc_nodes_phase live version st h :
  let st' := (gc_nodes_generational live version st).1 in
  (untombed st DiscNode h → is_Some (ts_nodes st !! h) → is_Some (ts_nodes st' !! h)) ∧
  ts_values st' = ts_values st ∧ (untombed st DiscValue h → untombed st' DiscValue h).
Proof.
  pose proof (gc_generational_lookup DiscNode live version (ts_nodes st) (ts_tombstones st) h) as L.
  pose proof (gc_generational_other DiscNode DiscValue live version (ts_nodes st) (ts_tombstones st) h) as O.
  unfold gc_nodes_generational. destruct (gc_table_generational _ _ _ _ _) as [[nodes tombs] n]. simpl in *.
  unfold untombed in *. simpl. split_and!; [|done|by rewrite O].
  intros Ht Hs. rewrite L, reaped_false; [done|]. right. congruence.
Qed.
Lemma gc_values_phase live version st h :
  let st' := (gc_values_generational live version st).1 in
  (untombed st DiscValue h → is_Some (ts_values st !! h) → is_Some (ts_values st' !! h)) ∧
  ts_nodes st' = ts_nodes st.
Proof.
  pose proof (gc_generational_lookup DiscValue live version (ts_values st) (ts_tombstones st) h) as L.
  unfold gc_values_generational. destruct (gc_table_generational _ _ _ _ _) as [[values tombs] n]. simpl in *.
  unfold untombed in *. split; [|done]. intros Ht Hs. rewrite L, reaped_false; [done|]. right. congruence.
Qed.
Lemma in_some_batch (f : Batch → Prop) env1 env2 env3 (P : Prop) :
  (P ∨ ∃ b, b ∈ env1 ++ env2 ++ env3 ∧ f b) →
  P ∨ (∃ b, b ∈ env1 ∧ f b) ∨ (∃ b, b ∈ env2 ∧ f b) ∨ (∃ b, b ∈ env3 ∧ f b).
Proof. setoid_rewrite elem_of_app. setoid_rewrite elem_of_app. naive_solver. Qed.

(** Whatever blocks are committed meanwhile, a prune deletes no node and no value
    that an earlier one did not tombstone: each one present at the start, or
    committed while it runs, that has no tombstone is still there at the end. *)
Theorem prune_spares_untombed keep env1 env2 env3 T T' counts h :
  prune keep env1 env2 env3 T = Some (T', counts) → counts.1 ≠ O →
  (untombed (tr_storage T) DiscNode h →
   is_Some (ts_nodes (tr_storage T) !! h) ∨ (∃ b, b ∈ env1 ++ env2 ++ env3 ∧ is_Some (b_nodes b !! h)) →
   is_Some (ts_nodes (tr_storage T') !! h)) ∧
  (untombed (tr_storage T) DiscValue h →
   is_Some (ts_values (tr_storage T) !! h) ∨ (∃ b, b ∈ env1 ++ env2 ++ env3 ∧ is_Some (b_values b !! h)) →
   is_Some (ts_values (tr_storage T') !! h)).
Proof.
  intros Hp Hc. unfold prune in Hp.
  assert (Ho : ∀ keep, let st := (prune_old_roots (tr_version T) keep (tr_storage T)).1 in
    (ts_nodes st, ts_values st, ts_tombstones st) =
    (ts_nodes (tr_storage T), ts_values (tr_storage T), ts_tombstones (tr_storage T)))
    by (intros keep'; unfold prune_old_roots; by destruct (_ <=? _)).
  specialize (Ho keep). destruct (prune_old_roots _ _ _) as [st pruned]. simpl in Ho.
  injection Ho as En Ev Et. destruct (Nat.eqb_spec pruned 0); [by injection Hp as <- <-|].
  apply bind_Some in Hp as (live0 & _ & Hp). apply bind_Some in Hp as (live1 & _ & Hp).
  apply bind_Some in Hp as ([live2 on_disk] & _ & Hp).
  set (st1 := flush_batches env1 st) in *.
  pose proof (gc_nodes_phase live2 (tr_version T) st1 h) as (Gn & Gv & Gt).
  destruct (gc_nodes_generational live2 (tr_version T) st1) as [st2 n2].
  apply bind_Some in Hp as ([live3 on_disk'] & _ & Hp).
  set (st4 := flush_batches env3 (flush_batches env2 st2)) in *.
  pose proof (gc_values_phase live3 (tr_version T) st4 h) as (Kv & Kn).
  destruct (gc_values_generational live3 (tr_version T) st4) as [st5 n5]. injection Hp as <- _. simpl in *.
  assert (Ht : ∀ disc, untombed (tr_storage T) disc h → untombed st1 disc h).
  { intros disc. unfold untombed, st1. by rewrite flush_batches_tombs, Et. }
  destruct (flush_batches_has env1 st h) as [F1n F1v], (flush_batches_has env2 st2 h) as [F2n F2v].
  destruct (flush_batches_has env3 (flush_batches env2 st2) h) as [F3n F3v]. fold st1 st4 in F1n, F1v, F3n, F3v.
  split; intros Hu Hin; apply in_some_batch in Hin.
  - rewrite Kn. destruct Hin as [Hin|[(b & Hb & Hin)|[(b & Hb & Hin)|(b & Hb & Hin)]]].
    + rewrite <- En in Hin. auto.
    + destruct (flush_batches_written env1 b st h Hb) as [W _]. auto.
    + destruct (flush_batches_written env2 b st2 h Hb) as [W _]. auto.
    + destruct (flush_batches_written env3 b (flush_batches env2 st2) h Hb) as [W _]. auto.
  - assert (Hu4 : untombed st4 DiscValue h).
    { apply Ht, Gt in Hu. unfold untombed, st4 in *. by rewrite !flush_batches_tombs. }
    rewrite <- Gv in F1v. apply Kv; [done|].
    destruct Hin as [Hin|[(b & Hb & Hin)|[(b & Hb & Hin)|(b & Hb & Hin)]]].
    + rewrite <- Ev in Hin. auto.
    + destruct (flush_batches_written env1 b st h Hb) as [_ W]. fold st1 in W. rewrite <- Gv in W. auto.
    + destruct (flush_batches_written env2 b st2 h Hb) as [_ W]. auto.
    + destruct (flush_batches_written env3 b (flush_batches env2 st2) h Hb) as [_ W]. auto.
Qed.
End generational.
