(* ===== verification/TrieExamples.v ===== *)
(** * The trie on concrete runs

    An idealised hash that is injective on everything a run hashes, so that the
    premises of the theorems hold for every run, and each theorem at a small
    one. *)

From S2P Require Import Prelude Bytes Trie TrieTree TrieRefine TrieTheorems TrieProofs.

(** A digest of one (unbounded) word that names its input. *)
Definition ideal_word (x : bytes) : bytes := [Z.pos (encode x)].
(** The inputs of the node hashes; other inputs are padded to 32 bytes. *)
Definition node_input (x : bytes) : bool := bool_decide (head x = Some 1 ∨ x = replicate 32 0).
Definition node_word (x : bytes) : bytes :=
  if node_input x then ideal_word x else take 32 (x ++ replicate 32 0).
Definition ideal_sha : Sha256 := {| sha256_hex _ := ""; sha256_bytes := node_word |}.
Definition ideal_blake : Blake3 := {| blake3 := ideal_word |}.
#[local] Existing Instances ideal_sha ideal_blake toy_hex.
#[local] Opaque empty_table.

Lemma ideal_word_inj x y : ideal_word x = ideal_word y → x = y.
Proof. unfold ideal_word. intros E. injection E as E. by apply encode_inj in E. Qed.

(** What a run hashes: leaves under 32-byte keys, nodes over one-word hashes. *)
Definition pre_ok (p : Pre) : Prop :=
  match p with
  | PZero => True
  | PLeaf k _ => length k = 32%nat
  | PNode lft rgt => length lft = 1%nat ∧ length rgt = 1%nat
  end.

Lemma ideal_collision_free U : (∀ p, p ∈ U → pre_ok p) → pre_collision_free U.
Proof.
  intros HU p q Hp%HU Hq%HU E. destruct p as [|k v|l r], q as [|k' v'|l' r']; simpl in *;
    try apply ideal_word_inj in E; try done.
  - injection E as E. by apply (f_equal length) in E; rewrite length_app in E; simpl in E; lia.
  - by injection E as E; apply (f_equal length) in E; rewrite length_app in E; simpl in E; lia.
  - injection E as E. apply app_inj_1 in E as [-> ->]; [done|congruence].
  - injection E as E. apply app_inj_1 in E as [-> ->]; [done|lia].
Qed.

Lemma tree_hash_word d t : (d <= 256)%nat → length (tree_hash d t) = 1%nat.
Proof.
  intros Hd. destruct t as [|k v|l r]; [|done..]. simpl. rewrite empty_hash_table by done.
  by destruct (256 - d)%nat.
Qed.
Lemma empty_pre_ok p : p ∈ empty_pres → pre_ok p.
Proof.
  intros (n & -> & Hn)%list_elem_of_fmap. destruct n as [|n]; [done|]. simpl.
  apply elem_of_seq in Hn. assert (E : empty_table n = tree_hash (256 - n) TEmpty).
  { simpl. rewrite empty_hash_table by lia. replace (256 - (256 - n))%nat with n by lia. by destruct n. }
  rewrite E. split; apply tree_hash_word; lia.
Qed.
Lemma preimages_ok d t p : wf d t → p ∈ preimages d t → pre_ok p.
Proof.
  revert d. induction t as [|k v|l IHl r IHr]; intros d Hwf Hp; simpl in Hp.
  - by apply elem_of_nil in Hp.
  - apply list_elem_of_singleton in Hp as ->. apply Hwf.
  - apply wf_node_depth in Hwf as (Hd & Wl & Wr). apply elem_of_cons in Hp as [->|Hp].
    + split; apply tree_hash_word; lia.
    + apply elem_of_app in Hp as [Hp|Hp]; eauto.
Qed.
Lemma hashed_ok c ops t p : Forall op_ok ops → wf 0 t → p ∈ hashed c ops t → pre_ok p.
Proof.
  revert t. induction ops as [|o ops IH]; intros t Hops Hwf Hp; [by apply elem_of_nil in Hp|].
  apply Forall_cons in Hops as [Ho Hops].
  assert (Hw : wf 0 (tree_op c o t)).
  { destruct o as [k v|k|n]; simpl; [|by apply t_delete_wf|done].
    apply (t_insert_spec k v Ho 0 t); [lia|done|apply fits_root]. }
  simpl in Hp. apply elem_of_app in Hp as [Hp|Hp]; [by eapply preimages_ok|by eapply IH].
Qed.

(** Under the ideal hash no run collides. *)
Lemma ideal_universe c ops p : Forall op_ok ops → p ∈ universe c ops → pre_ok p.
Proof.
  intros Hops [Hp|Hp]%elem_of_app; [by apply empty_pre_ok|by apply (hashed_ok c ops TEmpty)].
Qed.

(** ** Small runs *)

Definition key_a : bytes := replicate 32 0.
Definition key_b : bytes := 64 :: replicate 31 0.
Definition run_a : list TrieOp := [OInsert key_a [7]; OCommit 1].
Definition run_ab : list TrieOp := [OInsert key_b [8]; OInsert key_a [7]; ODelete key_b].
Definition run_later : list TrieOp := [OInsert key_b [9]; OCommit 2; ODelete key_a].

Lemma key_a_ok : key_ok key_a.
Proof. split; [done|]. apply Forall_replicate. unfold byte_ok. lia. Qed.
Lemma key_b_ok : key_ok key_b.
Proof. split; [done|]. constructor; [|apply Forall_replicate]; unfold byte_ok; lia. Qed.
Lemma run_a_ok : Forall op_ok run_a.
Proof. unfold run_a. rewrite !Forall_cons. split_and!; [apply key_a_ok|done|constructor]. Qed.
Lemma run_ab_ok : Forall op_ok run_ab.
Proof. unfold run_ab. rewrite !Forall_cons. split_and!; [apply key_b_ok|apply key_a_ok|done|constructor]. Qed.
Lemma run_later_ok : Forall op_ok (run_a ++ run_later).
Proof.
  apply Forall_app. split; [apply run_a_ok|]. unfold run_later. rewrite !Forall_cons.
  split_and!; [apply key_b_ok|done|done|constructor].
Qed.

Lemma trie_refines_map_witness :
  ∃ T root, run_ops run_ab (empty_trie true) = (T, Ok root) ∧ tr_root T = root ∧
    get T key_a = Ok (Some [7]) ∧ get T key_b = Ok None.
Proof.
  destruct (trie_refines_map true run_ab run_ab_ok) as (T & root & E & Hr & Hg).
  { apply ideal_collision_free. intros p. apply ideal_universe, run_ab_ok. }
  exists T, root. split_and!; [done|done|..]; rewrite Hg; by vm_compute.
Defined.

Lemma ideal_two c1 c2 ops1 ops2 :
  Forall op_ok ops1 → Forall op_ok ops2 → pre_collision_free (universe c1 ops1 ++ universe c2 ops2).
Proof.
  intros H1 H2. apply ideal_collision_free. intros p [Hp|Hp]%elem_of_app;
    [by apply (ideal_universe c1 ops1)|by apply (ideal_universe c2 ops2)].
Qed.

Lemma root_history_independent_witness :
  (run_ops run_a (empty_trie true)).2 = (run_ops run_ab (empty_trie true)).2.
Proof.
  apply root_history_independent;
    [apply run_a_ok|apply run_ab_ok|apply ideal_two; [apply run_a_ok|apply run_ab_ok]|by vm_compute].
Defined.
Lemma ideal_root c ops :
  Forall op_ok ops → (run_ops ops (empty_trie c)).2 = Ok (tree_hash 0 (tree_run c ops TEmpty)).
Proof.
  intros Hops. destruct (universe_parts c ops) as [He Hh].
  destruct (run_from_empty (universe c ops) c ops) as (T & E & _); try done.
  { apply ideal_collision_free. intros p. by apply ideal_universe. }
  by rewrite E.
Qed.
Lemma root_binds_map_witness : map_run run_a ∅ = map_run run_ab ∅.
Proof.
  apply (root_binds_map true true);
    [apply run_a_ok|apply run_ab_ok|apply ideal_two; [apply run_a_ok|apply run_ab_ok]|].
  rewrite !ideal_root by (apply run_a_ok || apply run_ab_ok).
  by replace (tree_run true run_ab TEmpty) with (tree_run true run_a TEmpty) by (vm_compute; reflexivity).
Defined.

Lemma ideal_one c ops : Forall op_ok ops → pre_collision_free (universe c ops).
Proof. intros Hops. apply ideal_collision_free. intros p. by apply ideal_universe. Qed.

Lemma set_root_restores_witness :
  ∃ T T', run_ops run_a (empty_trie false) = (T, Ok (tr_root T)) ∧
    run_ops run_later T = (T', Ok (tr_root T')) ∧
    get (set_root (tr_root T) T') key_a = Ok (Some [7]) ∧ get (set_root (tr_root T) T') key_b = Ok None.
Proof.
  destruct (set_root_restores false run_a run_later) as (T & T' & E & E' & Hg);
    [apply run_later_ok|apply ideal_one, run_later_ok|].
  exists T, T'. split_and!; [done|done|..]; rewrite Hg; by vm_compute.
Defined.
Lemma committed_version_survives_witness :
  ∃ T T', run_ops run_a (empty_trie true) = (T, Ok (tr_root T)) ∧
    run_ops run_later T = (T', Ok (tr_root T')) ∧
    get (trie_open (tr_storage T') 1) key_a = Ok (Some [7]).
Proof.
  destruct (committed_version_survives true [OInsert key_a [7]] 1 run_later) as (T & T' & E & E' & Hg);
    [apply run_later_ok|by unfold run_later; rewrite !Forall_cons|apply ideal_one, run_later_ok|].
  exists T, T'. split_and!; [done|done|]. rewrite Hg. by vm_compute.
Defined.

Lemma prove_complete_witness :
  ∃ T p, run_ops run_ab (empty_trie true) = (T, Ok (tr_root T)) ∧ prove T key_a = Ok p ∧ mp_value p = [7] ∧
    verify_membership p (tr_root T) = true.
Proof.
  destruct (prove_complete true run_ab key_a run_ab_ok (ideal_one true _ run_ab_ok)) as (T & p & E & Ep & _ & Hv).
  replace (map_run run_ab ∅ !! key_a) with (Some [7]) in Hv by (vm_compute; reflexivity).
  destruct Hv as [Hval Hv]. exists T, p. split; [exact E|]. split; [exact Ep|]. split; [exact Hval|exact Hv].
Defined.
Lemma membership_sound_witness :
  ∃ T, run_ops run_a (empty_trie true) = (T, Ok (tr_root T)) ∧
    verify_membership (mkProof key_a [7] [] 0 true []) (tr_root T) = true ∧
    map_run run_a ∅ !! key_a = Some [7].
Proof.
  set (p := mkProof key_a [7] [] 0 true []).
  destruct (membership_sound true run_a p run_a_ok) as (T & E & Hs).
  { apply ideal_collision_free. intros q [Hq|Hq]%elem_of_app; [by eapply ideal_universe; [apply run_a_ok|]|].
    simpl in Hq. by apply list_elem_of_singleton in Hq as ->. }
  exists T. assert (Hv : verify_membership p (tr_root T) = true).
  { apply bool_decide_eq_true_2. pose proof (ideal_root true run_a run_a_ok) as Hr.
    rewrite E in Hr. injection Hr as ->. by vm_compute. }
  split_and!; [done|done|by apply Hs].
Defined.
Lemma nonmembership_forgeable_witness :
  ∃ T p, run_ops run_ab (empty_trie true) = (T, Ok (tr_root T)) ∧ get T key_a = Ok (Some [7]) ∧
    mp_key p = key_a ∧ verify_nonmembership p (tr_root T) = true.
Proof.
  apply nonmembership_forgeable; [apply run_ab_ok|apply ideal_one, run_ab_ok|by vm_compute].
Defined.

Lemma legacy_delete_leaks_history_witness :
  (run_ops [OInsert key_a [7]; OInsert key_b [8]; ODelete key_b] (empty_trie false)).2 ≠
  (run_ops [OInsert key_a [7]] (empty_trie false)).2.
Proof.
  apply legacy_delete_leaks_history; [apply key_a_ok|apply key_b_ok|done|].
  apply ideal_two; rewrite !Forall_cons; split_and!; apply key_a_ok || apply key_b_ok || done || constructor.
Defined.
