(* ===== verification/Transaction.v ===== *)
(** * Transactions

    Models crates/sentrix-primitives/src/transaction.rs: the operations carried
    in the data field, the signed payload and transaction id, and [verify] and
    [validate].  JSON (serde_json), elliptic-curve signatures (secp256k1) and
    SHA-256 are parameters. *)

From S2P Require Import Prelude Bytes.

Definition MIN_TX_FEE : Z := 10000.
Definition COINBASE_ADDRESS : string := "COINBASE".
Definition TOKEN_OP_ADDRESS : string := "0x0000000000000000000000000000000000000000".
Definition PROTOCOL_TREASURY : string := "0x0000000000000000000000000000000000000002".
Definition STAKING_ADDRESS : string := "0x0000000000000000000000000000000000000100".

(** ** Operations in the data field *)

Inductive TokenOp :=
  | TokenOp_Deploy (name symbol : string) (decimals supply max_supply : Z)
  | TokenOp_Transfer (contract to : string) (amount : Z)
  | TokenOp_Burn (contract : string) (amount : Z)
  | TokenOp_Mint (contract to : string) (amount : Z)
  | TokenOp_Approve (contract spender : string) (amount : Z)
  | TokenOp_DeployNft (name symbol base_uri : string) (max_supply : Z)
  | TokenOp_MintNft (contract to : string) (token_id : Z) (metadata_uri : string)
  | TokenOp_TransferNft (contract from to : string) (token_id : Z)
  | TokenOp_BurnNft (contract : string) (token_id : Z)
  | TokenOp_ApproveNft (contract spender : string) (token_id : Z)
  | TokenOp_SetApprovalForAll (contract operator : string) (approved : bool)
  | TokenOp_DeployMulti (name symbol base_uri : string)
  | TokenOp_MintMulti (contract to : string) (token_id amount : Z) (data : string)
  | TokenOp_TransferMulti (contract from to : string) (token_id amount : Z)
  | TokenOp_BurnMulti (contract from : string) (token_id amount : Z)
  | TokenOp_BatchMintMulti (contract to : string) (ids amounts : list Z)
  | TokenOp_BatchTransferMulti (contract from to : string) (ids amounts : list Z).

Definition is_nft_family (op : TokenOp) : bool :=
  match op with
  | TokenOp_Deploy _ _ _ _ _ | TokenOp_Transfer _ _ _ | TokenOp_Burn _ _
  | TokenOp_Mint _ _ _ | TokenOp_Approve _ _ _ => false
  | _ => true
  end.

Record JailEvidence := mkJailEvidence {
  je_validator : string;
  je_signed_count : Z;
  je_missed_count : Z;
  je_justification_hashes : list string;
}.
#[global] Instance JailEvidence_eq_dec : EqDecision JailEvidence.
Proof. solve_decision. Defined.

Inductive StakingOp :=
  | StakingOp_RegisterValidator (self_stake commission_rate : Z) (public_key : string)
  | StakingOp_Delegate (validator : string) (amount : Z)
  | StakingOp_Undelegate (validator : string) (amount : Z)
  | StakingOp_Redelegate (from_validator to_validator : string) (amount : Z)
  | StakingOp_Unjail
  | StakingOp_ClaimRewards
  | StakingOp_SubmitEvidence (height : Z)
      (block_hash_a block_hash_b signature_a signature_b offender : string)
  | StakingOp_JailEvidenceBundle (epoch epoch_start_block epoch_end_block : Z)
      (evidence : list JailEvidence) (active_set : list string)
  | StakingOp_AddSelfStake (amount : Z).
#[global] Instance StakingOp_eq_dec : EqDecision StakingOp.
Proof. solve_decision. Defined.

(** The parts of serde_json the code uses: a string as a JSON string, and the
    tagged encodings of the two operation types. *)
Class Json := {
  json_string : string → string;
  token_op_encode : TokenOp → option string;
  token_op_decode : string → option TokenOp;
  staking_op_encode : StakingOp → option string;
  staking_op_decode : string → option StakingOp;
}.

(** What the code relies on: the end of a JSON string can be found while
    reading it, and an encoded staking operation decodes to itself. *)
Class JsonLaws `{Json} : Prop := {
  json_string_prefix_free : prefix_free (λ _, True) (λ s, as_bytes (json_string s));
  staking_op_roundtrip op d : staking_op_encode op = Some d → staking_op_decode d = Some op;
}.

(** ** Transactions *)

Record Transaction := mkTx {
  txid : string;
  tx_from : string;
  tx_to : string;
  tx_amount : Z;
  tx_fee : Z;
  tx_nonce : Z;
  tx_data : string;
  tx_timestamp : Z;
  tx_chain_id : Z;
  tx_signature : string;
  tx_public_key : string;
}.
#[global] Instance Transaction_eta : Eta Transaction := λ t,
  mkTx (txid t) (tx_from t) (tx_to t) (tx_amount t) (tx_fee t) (tx_nonce t) (tx_data t)
    (tx_timestamp t) (tx_chain_id t) (tx_signature t) (tx_public_key t).
#[global] Instance Transaction_eq_dec : EqDecision Transaction.
Proof. solve_decision. Defined.

(** secp256k1 without recovery, and hexadecimal text: [hex::decode],
    [PublicKey::from_slice] and [Signature::from_compact], and the texts of a key
    and of a signature. *)
Class TxCrypto := {
  TxSecretKey : Type;
  TxPublicKey : Type;
  TxSignature : Type;
  hex_decode : string → option bytes;
  public_key_from_slice : bytes → option TxPublicKey;
  signature_from_compact : bytes → option TxSignature;
  show_public_key : TxPublicKey → string;
  show_signature : TxSignature → string;
  sign_ecdsa : bytes → TxSecretKey → TxSignature;
  verify_ecdsa : bytes → TxSignature → TxPublicKey → bool;
  pk_of : TxSecretKey → TxPublicKey;
  pk_address : TxPublicKey → string;
}.
Definition parse_public_key `{TxCrypto} (s : string) : option TxPublicKey :=
  hex_decode s ≫= public_key_from_slice.
Definition parse_signature `{TxCrypto} (s : string) : option TxSignature :=
  hex_decode s ≫= signature_from_compact.
Class TxCryptoLaws `{TxCrypto} : Prop := {
  parse_show_public_key pk : parse_public_key (show_public_key pk) = Some pk;
  parse_show_signature s : parse_signature (show_signature s) = Some s;
  verify_sign d sk : verify_ecdsa d (sign_ecdsa d sk) (pk_of sk) = true;
}.

Section transaction.
Context `{Json, Sha256, TxCrypto}.

Definition is_token_op (d : string) : bool := bool_decide (is_Some (token_op_decode d)).
Definition is_staking_op (d : string) : bool := bool_decide (is_Some (staking_op_decode d)).

Definition is_coinbase (tx : Transaction) : bool :=
  bool_decide (tx_from tx = COINBASE_ADDRESS).
Definition is_evm_tx (tx : Transaction) : bool := String.prefix "EVM:" (tx_data tx).

(** [self.data.contains(..)] *)
Fixpoint str_contains (pat s : string) : bool :=
  String.prefix pat s || match s with EmptyString => false | String _ s => str_contains pat s end.

Definition is_jail_evidence_bundle_tx (tx : Transaction) : bool :=
  str_contains (json_string "jail_evidence_bundle") (tx_data tx) &&
  match staking_op_decode (tx_data tx) with
  | Some (StakingOp_JailEvidenceBundle _ _ _ _ _) => true
  | _ => false
  end.
Definition is_system_tx (tx : Transaction) : bool :=
  bool_decide (tx_from tx = PROTOCOL_TREASURY) && is_jail_evidence_bundle_tx tx.

(** One member of the JSON object, and the object of eight, keys in order. *)
Definition json_field (k v : string) : string := json_string k +:+ ":" +:+ v.
Definition signing_payload (tx : Transaction) : string :=
  "{" +:+ json_field "amount" (pretty (tx_amount tx))
  +:+ "," +:+ json_field "chain_id" (pretty (tx_chain_id tx))
  +:+ "," +:+ json_field "data" (json_string (tx_data tx))
  +:+ "," +:+ json_field "fee" (pretty (tx_fee tx))
  +:+ "," +:+ json_field "from" (json_string (tx_from tx))
  +:+ "," +:+ json_field "nonce" (pretty (tx_nonce tx))
  +:+ "," +:+ json_field "timestamp" (pretty (tx_timestamp tx))
  +:+ "," +:+ json_field "to" (json_string (tx_to tx)) +:+ "}".

Definition compute_txid (tx : Transaction) : string :=
  sha256_hex (as_bytes (signing_payload tx)).
Definition payload_to_message (payload : string) : bytes := sha256_bytes (as_bytes payload).

(** [Transaction::new], with the clock as an argument. *)
Definition Transaction_new (from to : string) (amt f n : Z) (d : string) (cid : Z)
    (sk : TxSecretKey) (pk : TxPublicKey) (now : Z) : Transaction :=
  let tx := mkTx "" from to amt f n d now cid "" (show_public_key pk) in
  let tx := tx <| tx_signature :=
    show_signature (sign_ecdsa (payload_to_message (signing_payload tx)) sk) |> in
  tx <| txid := compute_txid tx |>.

Definition new_coinbase (to : string) (amt block_index block_timestamp : Z) : Transaction :=
  let tx := mkTx "" COINBASE_ADDRESS to amt 0 0 ("block_" +:+ pretty block_index)
    block_timestamp 0 "" "" in
  tx <| txid := compute_txid tx |>.

Definition new_jail_evidence_bundle (op : StakingOp) (block_index block_timestamp : Z)
    : result Transaction :=
  match op with
  | StakingOp_JailEvidenceBundle _ _ _ _ _ =>
      match staking_op_encode op with
      | None => Err (InvalidTransaction "new_jail_evidence_bundle: serialize failed")
      | Some d =>
          let tx := mkTx "" PROTOCOL_TREASURY PROTOCOL_TREASURY 0 0 block_index d
            block_timestamp 0 "" "" in
          Ok (tx <| txid := compute_txid tx |>)
      end
  | _ => Err (InvalidTransaction
           "new_jail_evidence_bundle: op must be StakingOp::JailEvidenceBundle")
  end.

Definition str_empty (s : string) : bool := bool_decide (s = "").

Definition verify (tx : Transaction) : result unit :=
  if is_coinbase tx then
    if negb (str_empty (tx_signature tx)) || negb (str_empty (tx_public_key tx)) then
      Err (InvalidTransaction "coinbase transaction must not have signature or public_key")
    else Ok tt
  else if is_evm_tx tx then Ok tt
  else if bool_decide (tx_from tx = PROTOCOL_TREASURY) && is_jail_evidence_bundle_tx tx then
    if negb (str_empty (tx_signature tx)) || negb (str_empty (tx_public_key tx)) then
      Err (InvalidTransaction "JailEvidenceBundle system tx must not have signature or public_key")
    else Ok tt
  else
    match parse_public_key (tx_public_key tx) with
    | None => Err InvalidSignature
    | Some pk =>
        if negb (bool_decide (pk_address pk = tx_from tx)) then
          Err (InvalidTransaction ("public key does not match from_address: expected "
            +:+ tx_from tx +:+ ", derived " +:+ pk_address pk))
        else
          match parse_signature (tx_signature tx) with
          | None => Err InvalidSignature
          | Some sig =>
              if verify_ecdsa (payload_to_message (signing_payload tx)) sig pk then Ok tt
              else Err InvalidSignature
          end
    end.

Definition validate (tx : Transaction) (expected_nonce expected_chain_id : Z) : result unit :=
  if is_coinbase tx then Ok tt
  else if is_system_tx tx then Ok tt
  else if tx_fee tx <? MIN_TX_FEE then
    Err (InvalidTransaction ("fee " +:+ pretty (tx_fee tx) +:+ " below minimum "
      +:+ pretty MIN_TX_FEE))
  else if (tx_amount tx =? 0) && negb (is_token_op (tx_data tx)) && negb (is_evm_tx tx)
          && negb (is_staking_op (tx_data tx)) then
    Err (InvalidTransaction "amount must be > 0 (unless token/EVM/staking operation)")
  else if negb (tx_nonce tx =? expected_nonce) then Err (InvalidNonce expected_nonce (tx_nonce tx))
  else if negb (tx_chain_id tx =? expected_chain_id) then
    Err (InvalidTransaction ("wrong chain_id: expected " +:+ pretty expected_chain_id
      +:+ ", got " +:+ pretty (tx_chain_id tx)))
  else verify tx.
End transaction.
