(* ===== verification/TransactionProps.v ===== *)
(** * Transactions: what a signature covers

    The signed payload determines the signed fields; [Transaction::new] makes
    transactions that validate; what an accepted transaction guarantees, and
    the two gaps: the transaction id is never recomputed, and a data field that
    starts with the EVM tag is accepted unsigned. *)

From S2P Require Import Prelude Bytes Transaction.

(** The fields under the signature. *)
Record same_signed (a b : Transaction) : Prop := {
  ss_amount : tx_amount a = tx_amount b;
  ss_chain : tx_chain_id a = tx_chain_id b;
  ss_data : tx_data a = tx_data b;
  ss_fee : tx_fee a = tx_fee b;
  ss_from : tx_from a = tx_from b;
  ss_nonce : tx_nonce a = tx_nonce b;
  ss_time : tx_timestamp a = tx_timestamp b;
  ss_to : tx_to a = tx_to b;
}.

Section payload.
Context `{Json, !JsonLaws}.

Lemma peel_number (x y : Z) r r' :
  as_bytes (pretty x) ++ as_bytes "," ++ r = as_bytes (pretty y) ++ as_bytes "," ++ r' →
  x = y ∧ r = r'.
Proof.
  apply (peel_decimal 44). unfold decimal_byte. lia.
Qed.
Lemma peel_string s t r r' :
  as_bytes (json_string s) ++ r = as_bytes (json_string t) ++ r' → s = t ∧ r = r'.
Proof. by apply json_string_prefix_free. Qed.

Lemma signing_payload_determines a b :
  signing_payload a = signing_payload b → same_signed a b.
Proof.
  intros E. apply (f_equal as_bytes) in E. unfold signing_payload, json_field in E.
  rewrite !as_bytes_app in E. rewrite <-!app_assoc in E.
  repeat match goal with
  | E : as_bytes (pretty _) ++ as_bytes "," ++ _ = _ |- _ => apply peel_number in E as [? E]
  | E : as_bytes (json_string ?s) ++ _ = as_bytes (json_string ?s) ++ _ |- _ =>
      apply (inj (app _)) in E
  | E : as_bytes (json_string _) ++ _ = as_bytes (json_string _) ++ _ |- _ =>
      apply peel_string in E as [? E]
  | E : as_bytes ?s ++ _ = as_bytes ?s ++ _ |- _ => apply (inj (app _)) in E
  end.
  by split.
Qed.
End payload.

(** ** Concrete parameters for the examples

    A string is written with its length in front; a signature is the signer's
    name. *)
Definition toy_json : Json := {|
  json_string s := pretty (Z.of_nat (String.length s)) +:+ ":" +:+ s;
  token_op_encode _ := None;
  token_op_decode _ := None;
  staking_op_encode _ := None;
  staking_op_decode _ := None;
|}.
Lemma toy_json_laws : @JsonLaws toy_json.
Proof.
  split; [|done]. intros s t r r' _ _. simpl. rewrite !as_bytes_app, <-!app_assoc. intros E.
  apply (peel_decimal 58) in E as [En E]; [|unfold decimal_byte; lia].
  apply app_inj_1 in E as [E ->]; [|rewrite !length_as_bytes; lia].
  by apply (inj as_bytes) in E.
Qed.

Section validate.
Context `{Json, Sha256, TxCrypto}.
Implicit Types tx : Transaction.

(** Ordinary transactions: the ones that must be signed. *)
Definition ordinary (tx : Transaction) : Prop :=
  is_coinbase tx = false ∧ is_system_tx tx = false ∧ is_evm_tx tx = false.

(** A valid signature over the payload by the key behind [tx_from]. *)
Definition signed_by_sender (tx : Transaction) : Prop :=
  ∃ pk sig, parse_public_key (tx_public_key tx) = Some pk ∧ pk_address pk = tx_from tx ∧
    parse_signature (tx_signature tx) = Some sig ∧
    verify_ecdsa (payload_to_message (signing_payload tx)) sig pk = true.

Lemma verify_ordinary tx :
  ordinary tx → verify tx = Ok tt ↔ signed_by_sender tx.
Proof.
  intros (Hc & Hs & He). unfold verify, signed_by_sender. rewrite Hc, He.
  unfold is_system_tx in Hs. rewrite Hs. split.
  - repeat case_match; try done. intros _. bool_hyps. naive_solver.
  - intros (pk & sig & -> & Hpk & -> & ->). by rewrite bool_decide_eq_true_2.
Qed.

Lemma validate_checks tx n cid :
  is_coinbase tx = false → is_system_tx tx = false →
  validate tx n cid = Ok tt ↔
    MIN_TX_FEE <= tx_fee tx ∧
    (tx_amount tx = 0 → is_token_op (tx_data tx) || is_evm_tx tx || is_staking_op (tx_data tx) = true) ∧
    tx_nonce tx = n ∧ tx_chain_id tx = cid ∧ verify tx = Ok tt.
Proof.
  intros Hc Hs. unfold validate. rewrite Hc, Hs.
  destruct (Z.ltb_spec (tx_fee tx) MIN_TX_FEE); [naive_solver lia|].
  destruct (Z.eqb_spec (tx_amount tx) 0), (is_token_op (tx_data tx)), (is_evm_tx tx),
    (is_staking_op (tx_data tx)), (Z.eqb_spec (tx_nonce tx) n), (Z.eqb_spec (tx_chain_id tx) cid);
    simpl; naive_solver lia.
Qed.

(** An ordinary transaction validates exactly when it pays the minimum fee,
    moves value or carries an operation, has the expected nonce and chain, and
    its signature over all its signed fields verifies under a key whose address
    is the sender. *)
Theorem validate_ordinary tx n cid :
  ordinary tx →
  validate tx n cid = Ok tt ↔
    MIN_TX_FEE <= tx_fee tx ∧
    (tx_amount tx = 0 → is_token_op (tx_data tx) || is_staking_op (tx_data tx) = true) ∧
    tx_nonce tx = n ∧ tx_chain_id tx = cid ∧ signed_by_sender tx.
Proof.
  intros Ho. destruct (Ho) as (Hc & Hs & He).
  rewrite validate_checks, He, verify_ordinary, orb_false_r by done. done.
Qed.

(** A transaction whose data starts with the EVM tag is accepted without any
    signature: whoever writes it can name any sender, and neither the signature,
    the public key nor the transaction id is looked at. *)
Theorem validate_evm_unsigned tx n cid sig pk id :
  is_coinbase tx = false → is_system_tx tx = false → is_evm_tx tx = true →
  validate (tx <| tx_signature := sig |> <| tx_public_key := pk |> <| txid := id |>) n cid = Ok tt ↔
    MIN_TX_FEE <= tx_fee tx ∧ tx_nonce tx = n ∧ tx_chain_id tx = cid.
Proof.
  intros Hc Hs He. set (t := tx <| tx_signature := sig |> <| tx_public_key := pk |> <| txid := id |>).
  change (is_coinbase t = false) in Hc. change (is_system_tx t = false) in Hs.
  change (is_evm_tx t = true) in He.
  rewrite validate_checks, He, orb_true_r by done. unfold verify. rewrite Hc, He.
  simpl. naive_solver.
Qed.

(** Validation never compares the transaction id with the contents: any id
    may be attached to a valid transaction. *)
Theorem validate_ignores_txid tx id n cid :
  validate (tx <| txid := id |>) n cid = validate tx n cid.
Proof. by destruct tx. Qed.

(** A transaction built by [Transaction::new] with the sender's own key, the
    minimum fee and a positive amount validates at its nonce and chain, and its
    id is the digest of its payload. *)
Theorem Transaction_new_validates `{!TxCryptoLaws} to amt f n d cid sk now :
  let from := pk_address (pk_of sk) in
  let tx := Transaction_new from to amt f n d cid sk (pk_of sk) now in
  from ≠ COINBASE_ADDRESS → from ≠ PROTOCOL_TREASURY → String.prefix "EVM:" d = false →
  0 < amt → MIN_TX_FEE <= f →
  validate tx n cid = Ok tt ∧ txid tx = compute_txid tx.
Proof.
  intros from tx Hc Ht Hd Ha Hf. split; [|done].
  assert (Hco : is_coinbase tx = false) by (by apply bool_decide_eq_false_2).
  assert (Hsy : is_system_tx tx = false)
    by (unfold is_system_tx; by rewrite bool_decide_eq_false_2).
  apply validate_checks; [done..|]. split_and!; [done| |done|done|].
  { intros E. change (amt = 0) in E. lia. }
  apply verify_ordinary; [done|].
  exists (pk_of sk), (sign_ecdsa (payload_to_message (signing_payload tx)) sk).
  split_and!; [apply parse_show_public_key|done|apply parse_show_signature|apply verify_sign].
Qed.
End validate.

(** ** Examples *)

Fixpoint of_bytes (b : bytes) : string :=
  match b with [] => "" | x :: b => String (Ascii.ascii_of_N (Z.to_N x)) (of_bytes b) end.
Lemma of_as_bytes s : of_bytes (as_bytes s) = s.
Proof.
  induction s as [|a s IH]; simpl; [done|]. by rewrite IH, N2Z.id, Ascii.ascii_N_embedding.
Qed.

Definition toy_tx_crypto : TxCrypto := {|
  TxSecretKey := string; TxPublicKey := string; TxSignature := string;
  hex_decode s := Some (as_bytes s);
  public_key_from_slice b := Some (of_bytes b); show_public_key k := k;
  signature_from_compact b := Some (of_bytes b); show_signature s := s;
  sign_ecdsa _ sk := sk; verify_ecdsa _ s pk := bool_decide (s = pk);
  pk_of sk := sk; pk_address pk := pk;
|}.
Lemma toy_tx_crypto_laws : @TxCryptoLaws toy_tx_crypto.
Proof.
  split; intros; [| |by apply bool_decide_eq_true_2];
    unfold parse_public_key, parse_signature; simpl; by rewrite of_as_bytes.
Qed.

Section examples.
#[local] Existing Instances toy_json toy_sha toy_tx_crypto toy_tx_crypto_laws.

Definition demo_tx : Transaction :=
  @Transaction_new toy_json toy_sha toy_tx_crypto "alice" "bob" 500 20000 7 "" 7119 "alice" "alice" 1000.
Definition forged_evm_tx : Transaction :=
  mkTx "00" "alice" "eve" 0 20000 7 "EVM:21000:00" 1000 7119 "" "".

Lemma validate_ordinary_witness :
  @ordinary toy_json demo_tx ∧ signed_by_sender demo_tx.
Proof.
  assert (Ho : @ordinary toy_json demo_tx) by (split_and!; vm_compute; reflexivity).
  split; [exact Ho|].
  apply (validate_ordinary demo_tx 7 7119 Ho). vm_compute. reflexivity.
Defined.

Lemma validate_evm_unsigned_witness :
  validate (forged_evm_tx <| tx_signature := "" |> <| tx_public_key := "" |> <| txid := "01" |>) 7 7119
  = Ok tt.
Proof.
  apply (validate_evm_unsigned forged_evm_tx 7 7119 "" "" "01").
  - vm_compute. reflexivity.
  - vm_compute. reflexivity.
  - vm_compute. reflexivity.
  - split_and!; [vm_compute; discriminate|reflexivity|reflexivity].
Defined.

Lemma Transaction_new_validates_witness : validate demo_tx 7 7119 = Ok tt ∧ txid demo_tx = compute_txid demo_tx.
Proof.
  apply (@Transaction_new_validates toy_json toy_sha toy_tx_crypto toy_tx_crypto_laws "bob" 500 20000 7 "" 7119 "alice" 1000).
  - vm_compute. discriminate.
  - vm_compute. discriminate.
  - reflexivity.
  - reflexivity.
  - vm_compute. discriminate.
Defined.
End examples.
