(* ===== verification/Parallel.v ===== *)
(** * Access sets and parallel batches

    Models crates/sentrix-core/src/parallel: the access sets of transactions, the
    conflict test between them and the batches built from it.  The batch builder
    is a scaffold that puts each transaction in a batch of its own; what is proved
    is what the conflict test is worth to any builder: which schedules of a block
    are equivalent to its order. *)

From S2P Require Import Prelude Bytes.

Inductive GlobalKey := TotalMinted | TotalBurned.
#[global] Instance GlobalKey_eq_dec : EqDecision GlobalKey.
Proof. solve_decision. Defined.
Inductive AccountKey :=
  | KeyAccount (a : string)
  | KeyContractStorage (contract : string) (slot : bytes)
  | KeyGlobalCounter (g : GlobalKey)
  | Pessimistic.
#[global] Instance AccountKey_eq_dec : EqDecision AccountKey.
Proof. solve_decision. Defined.
#[global] Instance AccountKey_countable : Countable AccountKey.
Proof.
  set (enc k := match k with
    | KeyAccount a => inl (inl a)
    | KeyContractStorage c s => inl (inr (c, s))
    | KeyGlobalCounter TotalMinted => inr (inl true)
    | KeyGlobalCounter TotalBurned => inr (inl false)
    | Pessimistic => inr (inr tt)
    end : (string + string * bytes) + (bool + unit)).
  set (dec x := match x : (string + string * bytes) + (bool + unit) with
    | inl (inl a) => KeyAccount a
    | inl (inr (c, s)) => KeyContractStorage c s
    | inr (inl true) => KeyGlobalCounter TotalMinted
    | inr (inl false) => KeyGlobalCounter TotalBurned
    | inr (inr _) => Pessimistic
    end).
  refine (inj_countable' enc dec _). by intros [| |[]|].
Defined.

Record TxAccess := mkAccess { reads : gset AccountKey; writes : gset AccountKey }.
Definition pessimistic : TxAccess := mkAccess {[Pessimistic]} {[Pessimistic]}.

Definition conflicts_with (a b : TxAccess) : bool :=
  existsb (λ w, bool_decide (w ∈ reads b) || bool_decide (w ∈ writes b)) (elements (writes a)) ||
  existsb (λ w, bool_decide (w ∈ reads a) || bool_decide (w ∈ writes a)) (elements (writes b)).

Definition derive_access (_tx_payload : bytes) (_validator : string) : TxAccess := pessimistic.

Record Batch := mkBatch { tx_indices : list nat }.
Definition singleton (idx : nat) : Batch := mkBatch [idx].
Definition build_batches (txs : list bytes) (validator : string) : list Batch :=
  singleton <$> seq 0 (length txs).

(** ** What the test says *)

Lemma conflicts_spec a b :
  conflicts_with a b = true ↔
  ∃ k, (k ∈ writes a ∧ k ∈ reads b ∪ writes b) ∨ (k ∈ writes b ∧ k ∈ reads a ∪ writes a).
Proof.
  unfold conflicts_with. rewrite orb_true_iff, !existsb_exists.
  setoid_rewrite orb_true_iff. setoid_rewrite bool_decide_eq_true. setoid_rewrite elem_of_union.
  setoid_rewrite <- list_elem_of_In. setoid_rewrite elem_of_elements. naive_solver.
Qed.
Lemma conflicts_sym a b : conflicts_with a b = conflicts_with b a.
Proof. apply eq_bool_prop_intro. rewrite !Is_true_true, !conflicts_spec. naive_solver. Qed.

(** The sentinel is an ordinary key: a transaction that may touch anything does
    not conflict with one that touches no sentinel. *)
Lemma pessimistic_misses_others a :
  Pessimistic ∉ reads a → Pessimistic ∉ writes a → conflicts_with pessimistic a = false.
Proof.
  intros Hr Hw. apply not_true_iff_false. rewrite conflicts_spec. simpl. set_solver.
Qed.

(** ** Transactions on a state *)

Section effects.
Context {V : Type}.
Notation State := (AccountKey → V).
Implicit Types (s : State) (a : TxAccess).

#[global] Instance state_equiv : Equiv State := λ s s', ∀ k, s k = s' k.
#[global] Instance state_equivalence : Equivalence (≡@{State}).
Proof. split; [done|by intros s s' E k|intros s1 s2 s3 E1 E2 k; by rewrite E1]. Qed.

(** A transaction: its access set and its effect. *)
Definition Tx : Type := TxAccess * (State → State).
(** The effect changes only what is written, and what it writes depends only on
    what is read or written. *)
Record respects (t : Tx) : Prop := {
  respects_writes s k : k ∉ writes t.1 → t.2 s k = s k;
  respects_reads s s' : (∀ k, k ∈ reads t.1 ∪ writes t.1 → s k = s' k) →
    ∀ k, k ∈ writes t.1 → t.2 s k = t.2 s' k;
}.
#[local] Instance respects_proper t : respects t → Proper ((≡) ==> (≡)) t.2.
Proof.
  intros [Hw Hr] s s' E k. destruct (decide (k ∈ writes t.1)); [by apply Hr|]. by rewrite !Hw.
Qed.

Lemma conflict_free_commute t u s :
  respects t → respects u → conflicts_with t.1 u.1 = false → t.2 (u.2 s) ≡ u.2 (t.2 s).
Proof.
  intros [Wt Rt] [Wu Ru] Hc k.
  assert (Hd : ∀ k, ¬ (k ∈ writes t.1 ∧ k ∈ reads u.1 ∪ writes u.1) ∧
                    ¬ (k ∈ writes u.1 ∧ k ∈ reads t.1 ∪ writes t.1)).
  { intros k'. apply not_true_iff_false in Hc. rewrite conflicts_spec in Hc. split; intros ?; apply Hc; eauto. }
  destruct (decide (k ∈ writes t.1)) as [Ht|Ht].
  - rewrite (Wu _ k) by (specialize (Hd k); set_solver). apply Rt; [|done].
    intros k' Hk'. apply Wu. specialize (Hd k'). tauto.
  - rewrite (Wt _ k) by done. destruct (decide (k ∈ writes u.1)) as [Hu|Hu]; [|by rewrite !Wu, Wt].
    apply Ru; [|done]. intros k' Hk'. symmetry. apply Wt. specialize (Hd k'). tauto.
Qed.

Definition run (ts : list Tx) s : State := foldl (λ s t, t.2 s) s ts.

(** A schedule of the block [ts]: the same transactions, conflicting ones in the
    order of the block. *)
Inductive schedule : list Tx → list Tx → Prop :=
  | schedule_nil : schedule [] []
  | schedule_cons t ts us vs :
      (∀ u, u ∈ us → conflicts_with t.1 u.1 = false) →
      schedule ts (us ++ vs) → schedule (t :: ts) (us ++ t :: vs).

Lemma run_proper ts s s' : Forall respects ts → s ≡ s' → run ts s ≡ run ts s'.
Proof.
  revert s s'. induction ts as [|t ts IH]; intros s s' Hr E; [done|].
  apply Forall_cons in Hr as [Ht Hr]. simpl. apply IH; [done|]. by apply respects_proper.
Qed.
Lemma run_early t us s :
  respects t → Forall respects us → (∀ u, u ∈ us → conflicts_with t.1 u.1 = false) →
  t.2 (run us s) ≡ run us (t.2 s).
Proof.
  intros Ht. revert s. induction us as [|u us IH]; intros s Hr Hc; [done|].
  apply Forall_cons in Hr as [Hu Hr]. simpl. rewrite IH by (done || set_solver).
  apply run_proper; [done|]. apply conflict_free_commute; [done..|]. apply Hc. set_solver.
Qed.

Lemma schedule_perm ts us : schedule ts us → ts ≡ₚ us.
Proof. intros Hs. induction Hs as [|t ts us vs _ _ IH]; [done|]. rewrite IH. apply Permutation_middle. Qed.

(** Every schedule that keeps conflicting transactions in the order of the block
    ends in the state of the sequential execution. *)
Theorem schedule_serial ts us s :
  Forall respects ts → schedule ts us → run us s ≡ run ts s.
Proof.
  intros Hr Hs. revert s Hr. induction Hs as [|t ts us vs Hc Hs IH]; intros s Hr; [done|].
  apply Forall_cons in Hr as [Ht Hr]. simpl. rewrite <- IH by done.
  assert (Hp : Forall respects (us ++ vs)) by (by rewrite <- (schedule_perm _ _ Hs)).
  apply Forall_app in Hp as [Hu Hv]. unfold run. rewrite !foldl_app. simpl.
  apply run_proper; [done|]. by apply run_early.
Qed.

(** The batches of the scaffold execute the block in its order. *)
Lemma build_batches_serial (txs : list bytes) (validator : string) :
  concat (tx_indices <$> build_batches txs validator) = seq 0 (length txs).
Proof.
  unfold build_batches. rewrite <- list_fmap_compose. generalize (seq 0 (length txs)).
  intros l. induction l as [|i l IH]; simpl; [done|by f_equal].
Qed.
End effects.

(** ** The documented contract is too weak

    Batches without inner conflicts, ascending inside and ordered by their lowest
    index, do not preserve the order of conflicting transactions: of three
    transfers, the last may join the first in a batch and run before the second,
    with which it conflicts. *)
Definition conflict_free (accs : list TxAccess) (b : Batch) : Prop :=
  ∀ i j a a', i ∈ tx_indices b → j ∈ tx_indices b → i ≠ j → accs !! i = Some a → accs !! j = Some a' →
    conflicts_with a a' = false.
Definition documented_contract (accs : list TxAccess) (bs : list Batch) : Prop :=
  concat (tx_indices <$> bs) ≡ₚ seq 0 (length accs) ∧ Forall (conflict_free accs) bs ∧
  Forall (λ b, Sorted lt (tx_indices b)) bs ∧ Sorted lt (default 0%nat ∘ head ∘ tx_indices <$> bs).

Definition access_of (k : string) : TxAccess := mkAccess {[KeyAccount k]} {[KeyAccount k]}.
Definition three_accesses : list TxAccess := [access_of "a"; access_of "b"; access_of "b"].
Definition inverted : list Batch := [mkBatch [0; 2]; mkBatch [1]]%nat.
Lemma inverted_contract : documented_contract three_accesses inverted.
Proof.
  split_and!.
  - simpl. apply perm_skip, Permutation_swap.
  - repeat constructor; intros i j a a' Hi Hj Hne Ha Ha'; simpl in Hi, Hj;
      repeat (apply elem_of_cons in Hi as [->|Hi] || apply elem_of_nil in Hi as []);
      repeat (apply elem_of_cons in Hj as [->|Hj] || apply elem_of_nil in Hj as []);
      simplify_eq/=; vm_compute; done.
  - repeat constructor; lia.
  - repeat constructor; simpl; lia.
Qed.

(** A transaction that sets one account. *)
Definition set_tx (k : string) (v : Z) : Tx (V := Z) :=
  (access_of k, λ s k', if decide (k' = KeyAccount k) then v else s k').
Definition three_txs : list (Tx (V := Z)) := [set_tx "a" 1; set_tx "b" 2; set_tx "b" 3].
Lemma set_tx_respects k v : respects (set_tx k v).
Proof.
  split; simpl.
  - intros s k' Hk. case_decide; set_solver.
  - intros s s' _ k' Hk. case_decide; [done|set_solver].
Qed.

(** Batches that satisfy the documented contract can end in another state than
    the block. *)
Lemma documented_contract_insufficient :
  three_txs.*1 = three_accesses ∧ Forall respects three_txs ∧ documented_contract three_accesses inverted ∧
  ∃ order, omap (λ i, three_txs !! i) (concat (tx_indices <$> inverted)) = order ∧
    ∀ s, ¬ run order s ≡ run three_txs s.
Proof.
  split_and!; [done|repeat constructor; apply set_tx_respects|apply inverted_contract|].
  eexists. split; [reflexivity|]. intros s E. specialize (E (KeyAccount "b")). by vm_compute in E.
Qed.

(** Two payments to different accounts, swapped. *)
Lemma schedule_serial_witness :
  run [set_tx "b" 2; set_tx "a" 1] (λ _, 0) ≡ run [set_tx "a" 1; set_tx "b" 2] (λ _, 0).
Proof.
  apply schedule_serial.
  - repeat constructor; apply set_tx_respects.
  - apply (schedule_cons (set_tx "a" 1) [set_tx "b" 2] [set_tx "b" 2] []).
    + intros u Hu. apply list_elem_of_singleton in Hu as ->. by vm_compute.
    + apply (schedule_cons (set_tx "b" 2) [] [] []); [|constructor]. intros u Hu. by apply elem_of_nil in Hu.
Defined.
