(* ===== verification/Authority.v ===== *)
(** * Pioneer-mode authority

    Models crates/sentrix-core/src/authority.rs, the admin-managed validator set
    that proposes in turn before the switch to proof of stake, and the address
    format of crates/sentrix-core/src/address.rs. *)

From S2P Require Import Prelude Bytes Transaction TransactionProps.

(** ** Addresses *)

Definition is_ascii_hexdigit (a : Ascii.ascii) : bool :=
  let n := Ascii.N_of_ascii a in
  ((48 <=? n) && (n <=? 57) || (65 <=? n) && (n <=? 70) || (97 <=? n) && (n <=? 102))%N.
Definition is_valid_sentrix_address (addr : string) : bool :=
  (String.length addr =? 42)%nat && String.prefix "0x" addr
  && forallb is_ascii_hexdigit (String.list_ascii_of_string (String.substring 2 40 addr)).
Definition ZERO_ADDRESS : string := "0x0000000000000000000000000000000000000000".
Definition is_spendable_sentrix_address (addr : string) : bool :=
  is_valid_sentrix_address addr && negb (bool_decide (addr = ZERO_ADDRESS)).
Definition ECOSYSTEM_FUND_ADDRESS : string := "0xeb70fdefd00fdb768dec06c478f450c351499f14".
Definition TOTAL_PREMINE : Z := 63000000 * 100000000.

(** ** The manager *)

Definition MIN_ACTIVE_VALIDATORS : nat := 1.
Definition MAX_ADMIN_LOG_SIZE : nat := 100 * 100.

Record AdminEvent := mkAdminEvent {
  ae_operation : string;
  ae_caller : string;
  ae_target_address : string;
  ae_target_name : string;
  ae_timestamp : Z;
}.

Record AuthValidator := mkAuthValidator {
  av_address : string;
  av_name : string;
  av_public_key : string;
  av_registered_at : Z;
  av_blocks_produced : Z;
  av_is_active : bool;
  av_last_block_time : Z;
}.
#[global] Instance AuthValidator_eta : Eta AuthValidator := λ v,
  mkAuthValidator (av_address v) (av_name v) (av_public_key v) (av_registered_at v)
    (av_blocks_produced v) (av_is_active v) (av_last_block_time v).
Definition AuthValidator_new (address name public_key : string) (now : Z) : AuthValidator :=
  mkAuthValidator address name public_key now 0 true 0.

Record AuthorityManager := mkAuthority {
  auth_validators : gmap string AuthValidator;
  admin_address : string;
  admin_log : list AdminEvent;
}.
#[global] Instance AuthorityManager_eta : Eta AuthorityManager := λ m,
  mkAuthority (auth_validators m) (admin_address m) (admin_log m).
Definition AuthorityManager_new (admin : string) : AuthorityManager := mkAuthority ∅ admin [].

Definition address_le (a b : AuthValidator) : Prop := String.le (av_address a) (av_address b).
#[global] Instance address_le_dec : RelDecision address_le.
Proof. intros a b. unfold address_le. apply _. Defined.
#[global] Instance address_le_total : Total address_le.
Proof. intros a b. apply (total String.le). Qed.

Section authority.
Context `{HashOrder, TxCrypto} (now : Z).

Definition active_validators (m : AuthorityManager) : list AuthValidator :=
  merge_sort address_le (filter (λ v, av_is_active v = true) (hm_values (auth_validators m))).
Definition all_validators (m : AuthorityManager) : list AuthValidator :=
  merge_sort address_le (hm_values (auth_validators m)).
Definition auth_active_count (m : AuthorityManager) : nat := length (active_validators m).
Definition validator_count (m : AuthorityManager) : nat := size (auth_validators m).

Definition expected_validator (m : AuthorityManager) (block_height : Z) : result AuthValidator :=
  let active := active_validators m in
  match active !! Z.to_nat (block_height mod Z.of_nat (length active)) with
  | Some v => Ok v
  | None => Err NoActiveValidators
  end.
Definition is_authorized (m : AuthorityManager) (address : string) (block_height : Z)
    : result bool :=
  match expected_validator m block_height with
  | Ok v => Ok (bool_decide (av_address v = address))
  | Err e => Err e
  end.
Definition is_active_validator (m : AuthorityManager) (address : string) : bool :=
  match auth_validators m !! address with Some v => av_is_active v | None => false end.
Definition collusion_risk (m : AuthorityManager) : nat :=
  let n := auth_active_count m in if (n =? 0)%nat then 0%nat else (n / 2 + 1)%nat.

Definition trim_admin_log (m : AuthorityManager) : AuthorityManager :=
  if (MAX_ADMIN_LOG_SIZE <? length (admin_log m))%nat then
    m <| admin_log := drop (length (admin_log m) - MAX_ADMIN_LOG_SIZE) (admin_log m) |>
  else m.
(** [self.admin_log.push(AdminEvent::now(..)); self.trim_admin_log()] *)
Definition log_admin (op caller target name : string) (m : AuthorityManager) : AuthorityManager :=
  trim_admin_log (m <| admin_log := admin_log m ++ [mkAdminEvent op caller target name now] |>).
Definition put_auth (a : string) (v : AuthValidator) (m : AuthorityManager) : AuthorityManager :=
  m <| auth_validators := <[a := v]> (auth_validators m) |>.
Definition require_admin (caller : string) : st AuthorityManager unit :=
  m ← gets (λ m, m) ;
  fail_if (negb (bool_decide (caller = admin_address m)))
    (UnauthorizedValidator (caller +:+ " is not admin")).
(** The active validators other than [address]. *)
Definition active_without (m : AuthorityManager) (address : string) : nat :=
  length (filter (λ v, av_address v ≠ address) (active_validators m)).

Definition add_validator (caller address name public_key : string) : st AuthorityManager unit :=
  require_admin caller ;;
  m ← gets (λ m, m) ;
  fail_if (bool_decide (is_Some (auth_validators m !! address)))
    (InvalidBlock ("validator " +:+ address +:+ " already exists")) ;;
  fail_if (negb (is_valid_sentrix_address address))
    (InvalidTransaction ("invalid validator address format: " +:+ address)) ;;
  pk_bytes ← ok_or (hex_decode public_key)
    (InvalidTransaction "public_key: invalid hex encoding") ;
  pk ← ok_or (public_key_from_slice pk_bytes)
    (InvalidTransaction "public_key: not a valid secp256k1 public key") ;
  fail_if (negb (bool_decide (pk_address pk = address)))
    (InvalidTransaction ("public_key does not correspond to address — derived "
       +:+ pk_address pk +:+ ", expected " +:+ address)) ;;
  modify (put_auth address (AuthValidator_new address name public_key now)) ;;
  modify (log_admin "add_validator" caller address name).

Definition remove_validator (caller address : string) : st AuthorityManager unit :=
  require_admin caller ;;
  m ← gets (λ m, m) ;
  fail_if (bool_decide (address = admin_address m)) (InvalidBlock "admin cannot remove itself") ;;
  fail_if (active_without m address <? MIN_ACTIVE_VALIDATORS)%nat
    (InvalidBlock "cannot remove: at least 1 active validators required") ;;
  v ← ok_or (auth_validators m !! address) (NotFound ("validator " +:+ address)) ;
  modify (λ m, m <| auth_validators := delete address (auth_validators m) |>) ;;
  modify (log_admin "remove_validator" caller address (av_name v)).

Definition toggle_validator (caller address : string) : st AuthorityManager bool :=
  require_admin caller ;;
  m ← gets (λ m, m) ;
  v ← ok_or (auth_validators m !! address) (NotFound ("validator " +:+ address)) ;
  fail_if (av_is_active v && (active_without m address <? MIN_ACTIVE_VALIDATORS)%nat)
    (InvalidBlock "cannot deactivate: at least 1 active validators required") ;;
  let new_state := negb (av_is_active v) in
  modify (put_auth address (v <| av_is_active := new_state |>)) ;;
  modify (log_admin (if new_state then "activate_validator" else "deactivate_validator")
            caller address (av_name v)) ;;
  mret new_state.

Definition rename_validator (caller address new_name : string) : st AuthorityManager unit :=
  require_admin caller ;;
  m ← gets (λ m, m) ;
  v ← ok_or (auth_validators m !! address) (NotFound ("validator " +:+ address)) ;
  modify (put_auth address (v <| av_name := new_name |>)) ;;
  modify (log_admin "rename_validator" caller address (av_name v +:+ " -> " +:+ new_name)).

Definition record_block_produced (address : string) (timestamp : Z) (m : AuthorityManager)
    : AuthorityManager :=
  match auth_validators m !! address with
  | Some v => put_auth address
      (v <| av_blocks_produced := wrapping_add U64_MAX (av_blocks_produced v) 1 |>
         <| av_last_block_time := timestamp |>) m
  | None => m
  end.

Definition transfer_admin (caller new_admin : string) : st AuthorityManager unit :=
  require_admin caller ;;
  fail_if (negb (is_valid_sentrix_address new_admin))
    (InvalidTransaction ("invalid new admin address format: " +:+ new_admin)) ;;
  m ← gets (λ m, m) ;
  fail_if (bool_decide (new_admin = admin_address m))
    (InvalidTransaction "new admin address is the same as the current admin (no-op)") ;;
  modify (λ m, m <| admin_address := new_admin |>) ;;
  modify (log_admin "transfer_admin" (admin_address m) new_admin "(admin role)").

Definition add_validator_unchecked (address name public_key : string) (m : AuthorityManager)
    : AuthorityManager := put_auth address (AuthValidator_new address name public_key now) m.
End authority.

(** ** Invariant over administration *)

Definition log_bounded (m : AuthorityManager) : Prop := (length (admin_log m) <= MAX_ADMIN_LOG_SIZE)%nat.
Definition keyed (m : AuthorityManager) : Prop :=
  ∀ a v, auth_validators m !! a = Some v → av_address v = a.
Definition has_active (m : AuthorityManager) : Prop :=
  ∃ a v, auth_validators m !! a = Some v ∧ av_is_active v = true.

Record auth_inv (m : AuthorityManager) : Prop := {
  ai_keyed : keyed m;
  ai_active : has_active m;
  ai_log : log_bounded m;
}.

Inductive auth_op :=
  | AddValidator (caller address name public_key : string)
  | RemoveValidator (caller address : string)
  | ToggleValidator (caller address : string)
  | RenameValidator (caller address new_name : string)
  | TransferAdmin (caller new_admin : string)
  | RecordBlock (address : string) (timestamp : Z)
  | AddUnchecked (address name public_key : string).

Section invariant.
Context `{HashOrder, TxCrypto}.
#[local] Arguments Nat.ltb : simpl never.

Lemma elem_of_active m v :
  v ∈ active_validators m ↔ av_is_active v = true ∧ ∃ a, auth_validators m !! a = Some v.
Proof.
  unfold active_validators. by rewrite merge_sort_Permutation, list_elem_of_filter, elem_of_hm_values.
Qed.

Lemma active_without_pos m address :
  keyed m → (MIN_ACTIVE_VALIDATORS <= active_without m address)%nat →
  ∃ a v, a ≠ address ∧ auth_validators m !! a = Some v ∧ av_is_active v = true.
Proof.
  intros Hk Hn. unfold active_without, MIN_ACTIVE_VALIDATORS in Hn.
  destruct (filter _ _) as [|v l] eqn:E; [simpl in Hn; lia|].
  assert (Hv : v ∈ filter (λ v, av_address v ≠ address) (active_validators m))
    by (rewrite E; set_solver).
  apply list_elem_of_filter in Hv as [Hne [Ha [a Hl]]%elem_of_active].
  exists a, v. split_and!; [|done..]. by rewrite <-(Hk a v).
Qed.

Lemma trim_log m : log_bounded (trim_admin_log m) ∧
  auth_validators (trim_admin_log m) = auth_validators m ∧ admin_address (trim_admin_log m) = admin_address m.
Proof.
  unfold trim_admin_log, log_bounded. destruct (Nat.ltb_spec MAX_ADMIN_LOG_SIZE (length (admin_log m))); [|done].
  simpl. rewrite length_drop. split; [lia|done].
Qed.

(** Logging keeps the set, and its own bound. *)
Lemma log_admin_inv now op c t n m : keyed m → has_active m → auth_inv (log_admin now op c t n m).
Proof.
  intros Hk Ha. unfold log_admin. match goal with |- auth_inv (trim_admin_log ?x) =>
    destruct (trim_log x) as (Hl & Hv & _); set (m' := trim_admin_log x) in * end.
  split; [|destruct Ha as (a & v & ? & ?); exists a, v; by rewrite Hv|done].
  intros a v. rewrite Hv. apply Hk.
Qed.

Definition run_auth (now : Z) (op : auth_op) (m : AuthorityManager) : AuthorityManager :=
  match op with
  | AddValidator c a n k => state_of (add_validator now c a n k m)
  | RemoveValidator c a => state_of (remove_validator now c a m)
  | ToggleValidator c a => state_of (toggle_validator now c a m)
  | RenameValidator c a n => state_of (rename_validator now c a n m)
  | TransferAdmin c a => state_of (transfer_admin now c a m)
  | RecordBlock a t => record_block_produced a t m
  | AddUnchecked a n k => add_validator_unchecked now a n k m
  end.

Lemma put_keyed a v m : keyed m → av_address v = a → keyed (put_auth a v m).
Proof.
  intros Hk Ha b w. simpl. rewrite lookup_insert_Some. intros [[<- <-]|[_ ?]]; [done|by apply Hk].
Qed.
Lemma put_keyed_same a v v' m :
  keyed m → auth_validators m !! a = Some v → av_address v' = av_address v → keyed (put_auth a v' m).
Proof. intros Hk Ha Hv. apply put_keyed; [done|]. rewrite Hv. by apply Hk. Qed.
Lemma put_active a v m :
  av_is_active v = true ∨
  (∃ b w, b ≠ a ∧ auth_validators m !! b = Some w ∧ av_is_active w = true) →
  has_active (put_auth a v m).
Proof.
  intros [Hv|(b & w & Hb & Hl & Hw)].
  - exists a, v. simpl. by rewrite lookup_insert_eq.
  - exists b, w. simpl. by rewrite lookup_insert_ne.
Qed.
Lemma put_active_same a v v' m :
  auth_validators m !! a = Some v → av_is_active v' = av_is_active v → has_active m →
  has_active (put_auth a v' m).
Proof.
  intros Ha Hv (b & w & Hb & Hw). apply put_active. destruct (decide (b = a)) as [->|].
  - left. congruence.
  - right. eauto.
Qed.

Lemma run_auth_inv now op m : auth_inv m → auth_inv (run_auth now op m).
Proof.
  intros Hm. destruct (Hm) as [Hk Ha Hl].
  destruct op as [c a n k|c a|c a|c a n|c a|a t|a n k]; simpl.
  - unfold add_validator, require_admin. run_st_goal. apply log_admin_inv.
    + by apply put_keyed.
    + apply put_active. by left.
  - unfold remove_validator, require_admin. run_st_goal. bool_hyps.
    match goal with H : (_ <? _)%nat = false |- _ => apply Nat.ltb_ge in H;
      apply active_without_pos in H as (b & w & Hb & Hw & Hact); [|done] end.
    apply log_admin_inv; simpl.
    + intros x y. simpl. intros [_ ?]%lookup_delete_Some. by apply Hk.
    + exists b, w. simpl. by rewrite lookup_delete_ne.
  - unfold toggle_validator, require_admin. run_st_goal.
    all: match goal with H : _ && _ = false |- _ => rename H into Hg end.
    all: apply log_admin_inv; [by eapply put_keyed_same|apply put_active].
    + by left.
    + right. bool_hyps. rewrite H1 in Hg. apply Nat.ltb_ge in Hg. by apply active_without_pos.
  - unfold rename_validator, require_admin. run_st_goal. apply log_admin_inv; simpl.
    + by eapply put_keyed_same.
    + by eapply put_active_same.
  - unfold transfer_admin, require_admin. run_st_goal. by apply log_admin_inv.
  - unfold record_block_produced. destruct (auth_validators m !! a) as [v|] eqn:Hv; [|done].
    split; [by eapply put_keyed_same|by eapply put_active_same|done].
  - unfold add_validator_unchecked. split; [by apply put_keyed|apply put_active; by left|done].
Qed.

Lemma expected_validator_ok m h :
  has_active m → ∃ v, expected_validator m h = Ok v ∧ v ∈ active_validators m.
Proof.
  intros (a & v & Hv & Ha). unfold expected_validator.
  assert (Hin : v ∈ active_validators m) by (apply elem_of_active; eauto).
  assert (0 < Z.of_nat (length (active_validators m))).
  { destruct (active_validators m); [set_solver|simpl; lia]. }
  destruct (lookup_lt_is_Some_2 (active_validators m)
              (Z.to_nat (h mod Z.of_nat (length (active_validators m))))) as [w Hw].
  - pose proof (Z.mod_pos_bound h (Z.of_nat (length (active_validators m)))). lia.
  - exists w. rewrite Hw. split; [done|by eapply list_elem_of_lookup_2].
Qed.

(** No sequence of administrative operations, failing ones included, can
    halt the chain: starting with one active validator, after any of them every
    height still has an expected, active proposer, each validator is filed under
    its address, and the audit log holds at most ten thousand entries. *)
Theorem authority_never_empty now ops m :
  auth_inv m →
  let m' := foldl (λ m op, run_auth now op m) m ops in
  auth_inv m' ∧
  ∀ h, ∃ v, expected_validator m' h = Ok v ∧ is_active_validator m' (av_address v) = true ∧
            is_authorized m' (av_address v) h = Ok true.
Proof.
  intros Hm m'. assert (Hm' : auth_inv m').
  { unfold m'. clear m'. revert m Hm. induction ops as [|op ops IH]; intros m Hm; [done|].
    simpl. by apply IH, run_auth_inv. }
  split; [done|]. intros h. destruct (expected_validator_ok m' h (ai_active _ Hm')) as (v & Hv & Hin).
  exists v. split; [done|]. unfold is_authorized. rewrite Hv, bool_decide_eq_true_2 by done.
  split; [|done]. apply elem_of_active in Hin as [Hact [a Ha]]. unfold is_active_validator.
  by rewrite (ai_keyed _ Hm' a v Ha), Ha.
Qed.
End invariant.

Definition demo_authority : AuthorityManager :=
  mkAuthority {["0xaa" := AuthValidator_new "0xaa" "a" "" 0; "0xbb" := AuthValidator_new "0xbb" "b" "" 0]}
    "0xaa" [].
Definition demo_auth_ops : list auth_op :=
  [ToggleValidator "0xaa" "0xaa"; ToggleValidator "0xaa" "0xbb"; RemoveValidator "0xaa" "0xbb";
   RemoveValidator "0xbb" "0xaa"; RenameValidator "0xaa" "0xbb" "c"].

Lemma authority_never_empty_witness :
  let m := foldl (λ m op, @run_auth canonical_order toy_tx_crypto 5 op m) demo_authority demo_auth_ops in
  auth_inv demo_authority ∧ length (admin_log m) = 2%nat ∧
  ∃ v, @expected_validator canonical_order m 9 = Ok v.
Proof.
  assert (Hinv : auth_inv demo_authority).
  { split.
    - intros a v. simpl. rewrite lookup_insert_Some, lookup_singleton_Some.
      by intros [[<- <-]|[_ [<- <-]]].
    - exists "0xaa", (AuthValidator_new "0xaa" "a" "" 0). split; [|done]. reflexivity.
    - unfold log_bounded. simpl. lia. }
  split; [exact Hinv|]. split; [vm_compute; reflexivity|].
  destruct (@authority_never_empty canonical_order toy_tx_crypto 5 demo_auth_ops demo_authority Hinv)
    as [_ H].
  destruct (H 9) as (v & Hv & _). exists v. exact Hv.
Defined.
