(* ===== verification/TrieState.v ===== *)
(** * Keys and values of the state trie

    Models crates/sentrix-trie/src/address.rs: under which key each part of the
    consensus state is committed and how its value is laid out. *)

From S2P Require Import Prelude Bytes Trie Authority.

(** [hex::decode]. *)
Class HexDecode := { hex_decode : string → option bytes }.

Section keys.
Context `{Sha256, HexDecode}.

(** ** Keys *)

Definition addr_text (address : string) : string := to_lowercase (trim_0x address).
(** The raw bytes of an address: decoded, or its text when it is not hexadecimal. *)
Definition addr_raw (address : string) : bytes :=
  default (as_bytes (addr_text address)) (hex_decode (addr_text address)).

Definition address_to_key (address : string) : bytes := sha256_bytes (addr_raw address).
Definition REWARDS_DOMAIN : bytes := as_bytes "sentrix/v1/pending_rewards/".
Definition validator_pending_rewards_key (address : string) : bytes :=
  sha256_bytes (REWARDS_DOMAIN ++ addr_raw address).
Definition LIVENESS_DOMAIN : bytes := as_bytes "sentrix/v1/liveness/".
Definition validator_liveness_key (address : string) : bytes :=
  sha256_bytes (LIVENESS_DOMAIN ++ addr_raw address).
Definition total_minted_key : bytes := sha256_bytes (as_bytes "sentrix/v1/total_minted").
Definition native_src20_registry_key : bytes := sha256_bytes (as_bytes "sentrix/v1/native_src20_registry").
Definition native_nft_registry_key : bytes := sha256_bytes (as_bytes "sentrix/v1/native_nft_registry").
Definition epoch_state_key : bytes := sha256_bytes (as_bytes "sentrix/v1/epoch_state").
End keys.

(** ** Values *)

Definition be8 : Z → bytes := to_be_bytes 8.
(** [u64::from_be_bytes(bytes[8 * i .. 8 * i + 8])] *)
Definition word_at (i : nat) (b : bytes) : Z := of_be_bytes (take 8 (drop (8 * i) b)).

Definition account_value_bytes (balance nonce : Z) : bytes := be8 balance ++ be8 nonce.
Definition account_value_decode (b : bytes) : option (Z * Z) :=
  if (length b <? 16)%nat then None else Some (word_at 0 b, word_at 1 b).

Definition pending_rewards_value_bytes (rewards : Z) : bytes := be8 rewards.
Definition pending_rewards_value_decode (b : bytes) : option Z :=
  if (length b <? 8)%nat then None else Some (word_at 0 b).
Definition total_minted_value_bytes (total : Z) : bytes := be8 total.
Definition total_minted_value_decode (b : bytes) : option Z :=
  if (length b <? 8)%nat then None else Some (word_at 0 b).

Definition liveness_value_bytes (signed missed jail_until : Z) (is_jailed : bool) : bytes :=
  be8 signed ++ be8 missed ++ be8 jail_until ++ [if is_jailed then 1 else 0].
Definition liveness_value_decode (b : bytes) : option (Z * Z * Z * bool) :=
  if (length b <? 25)%nat then None
  else Some (word_at 0 b, word_at 1 b, word_at 2 b, negb (b !!! 24%nat =? 0)).

Section epoch.
Context `{Sha256}.

(** The hash of the sorted validator set. *)
Definition validator_set_hash (validator_set : list string) : bytes :=
  sha256_bytes (concat ((λ a, as_bytes a ++ [10]) <$> sort_strings (addr_text <$> validator_set))).
Definition epoch_state_value_bytes (epoch_number start_height end_height total_staked total_rewards
    total_blocks_produced : Z) (validator_set : list string) : bytes :=
  be8 epoch_number ++ be8 start_height ++ be8 end_height ++ be8 total_staked ++ be8 total_rewards ++
  be8 total_blocks_produced ++ validator_set_hash validator_set.
Definition epoch_state_value_decode (b : bytes) : option (Z * Z * Z * Z * Z * Z * bytes) :=
  if (length b <? 80)%nat then None
  else Some (word_at 0 b, word_at 1 b, word_at 2 b, word_at 3 b, word_at 4 b, word_at 5 b,
             take 32 (drop 48 b)).
End epoch.

(** ** Round trips *)

Definition u64 (x : Z) : Prop := 0 <= x <= U64_MAX.
Lemma be8_word x r : u64 x → word_at 0 (be8 x ++ r) = x.
Proof.
  intros Hx. unfold word_at. rewrite Nat.mul_0_r, drop_0, take_app_length' by (symmetry; apply length_to_be_bytes).
  apply of_to_be_bytes. unfold u64, U64_MAX in Hx. simpl. lia.
Qed.
Lemma word_at_skip i x r : word_at (S i) (be8 x ++ r) = word_at i r.
Proof.
  unfold word_at. replace (8 * S i)%nat with (length (be8 x) + 8 * i)%nat
    by (unfold be8; rewrite length_to_be_bytes; lia).
  by rewrite drop_app_add.
Qed.
Lemma be8_nil x : be8 x = be8 x ++ [].
Proof. by rewrite app_nil_r. Qed.
#[local] Hint Rewrite be8_word word_at_skip using done : words.

Lemma length_be8 x : length (be8 x) = 8%nat.
Proof. apply length_to_be_bytes. Qed.

Lemma drop_be8 n x r : drop (8 + n) (be8 x ++ r) = drop n r.
Proof. rewrite <- (length_be8 x) at 1. apply drop_app_add. Qed.

(** Decoding any committed value gives back what was encoded, for every value
    that fits in 64 bits. *)
Theorem state_values_roundtrip `{Sha256Laws} (a b c d e f : Z) (jailed : bool) (set : list string) :
  u64 a → u64 b → u64 c → u64 d → u64 e → u64 f →
  account_value_decode (account_value_bytes a b) = Some (a, b) ∧
  pending_rewards_value_decode (pending_rewards_value_bytes a) = Some a ∧
  total_minted_value_decode (total_minted_value_bytes a) = Some a ∧
  liveness_value_decode (liveness_value_bytes a b c jailed) = Some (a, b, c, jailed) ∧
  epoch_state_value_decode (epoch_state_value_bytes a b c d e f set) =
    Some (a, b, c, d, e, f, validator_set_hash set).
Proof.
  intros. split_and!.
  - unfold account_value_decode, account_value_bytes. rewrite length_app, !length_be8. simpl Nat.ltb.
    rewrite (be8_nil b). by autorewrite with words.
  - unfold pending_rewards_value_decode, pending_rewards_value_bytes. rewrite length_be8. simpl Nat.ltb.
    rewrite (be8_nil a). by autorewrite with words.
  - unfold total_minted_value_decode, total_minted_value_bytes. rewrite length_be8. simpl Nat.ltb.
    rewrite (be8_nil a). by autorewrite with words.
  - unfold liveness_value_decode, liveness_value_bytes. rewrite !length_app, !length_be8. simpl Nat.ltb.
    autorewrite with words. do 2 f_equal.
    rewrite !lookup_total_app_r; rewrite !length_be8; try lia. by destruct jailed.
  - unfold epoch_state_value_decode, epoch_state_value_bytes.
    rewrite !length_app, !length_be8. unfold validator_set_hash at 1. rewrite sha256_bytes_length.
    simpl Nat.ltb. autorewrite with words. do 2 f_equal.
    change 48%nat with (8 + (8 + (8 + (8 + (8 + (8 + 0))))))%nat. rewrite !drop_be8, drop_0.
    apply take_ge. unfold validator_set_hash. rewrite sha256_bytes_length. lia.
Qed.

(** ** Domain separation *)

(** The parts of the state that have a key of their own. *)
Inductive StateSlot :=
  | SAccount (a : string)
  | SRewards (a : string)
  | SLiveness (a : string)
  | SMinted | SSrc20 | SNft | SEpoch.

(** What the code relies on of [hex::decode]: it accepts exactly text of even
    length in hexadecimal digits, encoding the result gives the text in lower
    case, and what was encoded decodes to itself. *)
Class HexDecodeLaws `{Hex, HexDecode} : Prop := {
  hex_decode_some s n : String.length s = (2 * n)%nat →
    forallb is_ascii_hexdigit (String.list_ascii_of_string s) = true → is_Some (hex_decode s);
  hex_decode_none s : forallb is_ascii_hexdigit (String.list_ascii_of_string s) = false → hex_decode s = None;
  hex_decode_encode s b : hex_decode s = Some b → hex_encode b = to_lowercase s;
  hex_roundtrip b : Forall (λ x, 0 <= x < 256) b → hex_decode (hex_encode b) = Some b;
}.

Section separation.
Context `{Sha256, Hex, HexDecode, !HexLaws, !HexDecodeLaws}.
Implicit Types s : StateSlot.

Definition slot_key s : bytes :=
  match s with
  | SAccount a => address_to_key a
  | SRewards a => validator_pending_rewards_key a
  | SLiveness a => validator_liveness_key a
  | SMinted => total_minted_key
  | SSrc20 => native_src20_registry_key
  | SNft => native_nft_registry_key
  | SEpoch => epoch_state_key
  end.
Definition slot_pre s : bytes :=
  match s with
  | SAccount a => addr_raw a
  | SRewards a => REWARDS_DOMAIN ++ addr_raw a
  | SLiveness a => LIVENESS_DOMAIN ++ addr_raw a
  | SMinted => as_bytes "sentrix/v1/total_minted"
  | SSrc20 => as_bytes "sentrix/v1/native_src20_registry"
  | SNft => as_bytes "sentrix/v1/native_nft_registry"
  | SEpoch => as_bytes "sentrix/v1/epoch_state"
  end.
Lemma slot_key_pre s : slot_key s = sha256_bytes (slot_pre s).
Proof. by destruct s. Qed.

Definition slot_ok s : Prop :=
  match s with
  | SAccount a | SRewards a | SLiveness a => is_valid_sentrix_address a = true
  | _ => True
  end.
(** Slots up to the case of the address. *)
Definition slot_norm s : StateSlot :=
  match s with
  | SAccount a => SAccount (to_lowercase a)
  | SRewards a => SRewards (to_lowercase a)
  | SLiveness a => SLiveness (to_lowercase a)
  | s => s
  end.

Lemma valid_address_shape a :
  is_valid_sentrix_address a = true →
  ∃ r, a = "0x" +:+ r ∧ String.length r = 40%nat ∧
    forallb is_ascii_hexdigit (String.list_ascii_of_string r) = true.
Proof.
  unfold is_valid_sentrix_address. intros Hv.
  apply andb_prop in Hv as [Hv Hh]. apply andb_prop in Hv as [Hl Hp]. apply Nat.eqb_eq in Hl.
  destruct a as [|a1 [|a2 r]]; try done. exists r.
  assert (E : String a1 (String a2 r) = "0x" +:+ r).
  { simpl in Hp. by repeat (case_match; try done). }
  simpl in Hl. injection Hl as Hl. split_and!; [done|done|].
  replace r with (String.substring 2 40 (String a1 (String a2 r))); [done|].
  simpl. rewrite <- Hl. clear. induction r as [|c r IH]; simpl; [done|]. by rewrite IH.
Qed.

Lemma length_lower r : String.length (to_lowercase r) = String.length r.
Proof. induction r as [|c r IH]; simpl; [done|by rewrite IH]. Qed.
Lemma lower_hex c : is_ascii_hexdigit c = true →
  is_ascii_hexdigit (lower_ascii c) = true ∧ lower_ascii (lower_ascii c) = lower_ascii c.
Proof. by destruct c as [[] [] [] [] [] [] [] []]. Qed.
Lemma lower_hex_string r :
  forallb is_ascii_hexdigit (String.list_ascii_of_string r) = true →
  forallb is_ascii_hexdigit (String.list_ascii_of_string (to_lowercase r)) = true ∧
  to_lowercase (to_lowercase r) = to_lowercase r.
Proof.
  induction r as [|c r IH]; simpl; [done|]. intros [Hc Hr]%andb_prop.
  destruct (lower_hex c Hc) as [-> ->], (IH Hr) as [-> ->]. done.
Qed.
Lemma trim_hex r :
  forallb is_ascii_hexdigit (String.list_ascii_of_string r) = true → trim_0x r = r.
Proof.
  destruct r as [|a [|b r]]; simpl; try done. intros Hh. case_bool_decide as E; [|done].
  injection E as -> ->. simpl in Hh. done.
Qed.

(** A valid address stands for twenty bytes, which name it up to case. *)
Lemma addr_raw_valid a :
  is_valid_sentrix_address a = true →
  length (addr_raw a) = 20%nat ∧ "0x" +:+ hex_encode (addr_raw a) = to_lowercase a.
Proof.
  intros (r & -> & Hl & Hh)%valid_address_shape.
  assert (Et : addr_text ("0x" +:+ r) = to_lowercase r).
  { unfold addr_text. simpl. by rewrite trim_hex. }
  destruct (lower_hex_string r Hh) as [Hh' Hll]. unfold addr_raw. rewrite Et.
  destruct (hex_decode_some (to_lowercase r) 20) as [b Hb]; [by rewrite length_lower|done|].
  rewrite Hb. simpl. pose proof (hex_decode_encode _ _ Hb) as He. rewrite Hll in He.
  pose proof (hex_length b) as Hlen. rewrite He, length_lower in Hlen. split; [lia|]. by rewrite He.
Qed.

(** Each part of the state has a key of its own: two slots with the same key
    are the same slot, up to the case of a valid address. *)
Theorem state_keys_separate s1 s2 :
  slot_ok s1 → slot_ok s2 → collision_free sha256_bytes [slot_pre s1; slot_pre s2] →
  slot_key s1 = slot_key s2 → slot_norm s1 = slot_norm s2.
Proof.
  intros Hok1 Hok2 Hcf Hk. rewrite !slot_key_pre in Hk.
  apply Hcf in Hk; [|set_solver..]. clear Hcf.
  assert (Hlen : length (slot_pre s1) = length (slot_pre s2)) by (by rewrite Hk).
  destruct s1 as [a|a|a| | | |], s2 as [b|b|b| | | |]; simpl in *;
    repeat match goal with Hv : is_valid_sentrix_address ?x = true |- _ =>
      apply addr_raw_valid in Hv as [? ?] end;
    rewrite ?length_app in Hlen; simpl in Hlen; try lia; try done;
    try apply app_inv_head in Hk; f_equal; congruence.
Qed.

(** Text that is not an address escapes the separation: the key of the account
    named like a domain is that domain's key. *)
Lemma domain_named_account : address_to_key "sentrix/v1/total_minted" = total_minted_key.
Proof.
  unfold address_to_key, total_minted_key, addr_raw.
  by rewrite (hex_decode_none (addr_text "sentrix/v1/total_minted")).
Qed.
End separation.

(** ** A concrete decoder *)

Definition hex_value (a : Ascii.ascii) : option Z :=
  let n := Z.of_N (Ascii.N_of_ascii a) in
  if (48 <=? n) && (n <=? 57) then Some (n - 48)
  else if (65 <=? n) && (n <=? 70) then Some (n - 55)
  else if (97 <=? n) && (n <=? 102) then Some (n - 87)
  else None.
Fixpoint toy_decode (s : string) : option bytes :=
  match s with
  | EmptyString => Some []
  | String a (String b r) =>
      match hex_value a, hex_value b, toy_decode r with
      | Some x, Some y, Some l => Some (16 * x + y :: l)
      | _, _, _ => None
      end
  | _ => None
  end.
Definition toy_hex_decode : HexDecode := {| hex_decode := toy_decode |}.

Lemma hex_value_spec a :
  match hex_value a with
  | Some x => is_ascii_hexdigit a = true ∧ 0 <= x < 16 ∧ nibble x = lower_ascii a
  | None => is_ascii_hexdigit a = false
  end.
Proof. destruct a as [[] [] [] [] [] [] [] []]; vm_compute; split_and?; congruence. Qed.

Lemma string_pair_ind (P : string → Prop) :
  P EmptyString → (∀ a, P (String a EmptyString)) → (∀ a b r, P r → P (String a (String b r))) → ∀ s, P s.
Proof.
  intros H0 H1 H2 s. enough (P s ∧ ∀ a, P (String a s)) by tauto.
  induction s as [|c s [IH1 IH2]]; split; auto.
Qed.

Lemma toy_hex_decode_laws : @HexDecodeLaws toy_hex toy_hex_decode.
Proof.
  split; simpl.
  - intros s n. revert n. induction s as [|a|a b r IH] using string_pair_ind; intros n Hl Hh; simpl in *.
    + by eexists.
    + lia.
    + pose proof (hex_value_spec a). pose proof (hex_value_spec b).
      apply andb_prop in Hh as [Ha Hh]. apply andb_prop in Hh as [Hb Hh].
      destruct (hex_value a), (hex_value b); try congruence.
      destruct (IH (n - 1)%nat) as [l ->]; [lia|done|]. by eexists.
  - intros s. induction s as [|a|a b r IH] using string_pair_ind; intros Hh; simpl in *; [done..|].
    pose proof (hex_value_spec a). pose proof (hex_value_spec b).
    destruct (hex_value a) as [x|], (hex_value b) as [y|]; try done.
    destruct_and?. rewrite IH; [done|]. destruct (is_ascii_hexdigit a), (is_ascii_hexdigit b); try done.
  - intros s. induction s as [|a|a b r IH] using string_pair_ind; intros l Hl; simpl in *; [by simplify_eq|done|].
    pose proof (hex_value_spec a). pose proof (hex_value_spec b).
    destruct (hex_value a) as [x|], (hex_value b) as [y|]; try done.
    destruct (toy_decode r) as [l'|]; [|done]. injection Hl as <-. destruct_and?. cbn [foldr].
    rewrite (Z.add_comm (16 * x)), (Z.mul_comm 16), Z.div_add, Z.div_small, Z.mod_add, Z.mod_small by lia.
    rewrite Z.add_0_l, (IH l') by done. congruence.
  - assert (Hn : ∀ x, 0 <= x < 16 → hex_value (nibble x) = Some x).
    { intros x Hx. unfold hex_value, nibble.
      rewrite Ascii.N_ascii_embedding by (destruct (x <? 10); lia). destruct (Z.ltb_spec x 10); rewrite Z2N.id by lia.
      - replace (48 <=? 48 + x) with true by (symmetry; apply Z.leb_le; lia).
        replace (48 + x <=? 57) with true by (symmetry; apply Z.leb_le; lia). simpl. f_equal. lia.
      - replace (87 + x <=? 57) with false by (symmetry; apply Z.leb_gt; lia).
        replace (87 + x <=? 70) with false by (symmetry; apply Z.leb_gt; lia). rewrite !andb_false_r.
        replace (97 <=? 87 + x) with true by (symmetry; apply Z.leb_le; lia).
        replace (87 + x <=? 102) with true by (symmetry; apply Z.leb_le; lia). simpl. f_equal. lia. }
    intros b Hb. induction Hb as [|x b Hx _ IH]; [done|]. cbn [foldr toy_decode].
    rewrite !Hn, IH by (split; [apply Z.div_pos || apply Z.mod_pos_bound|apply Z.div_lt_upper_bound || apply Z.mod_pos_bound]; lia).
    do 2 f_equal. pose proof (Z.div_mod x 16). lia.
Qed.

Lemma state_keys_separate_witness :
  let a := "0x00000000000000000000000000000000000000aB" in
  let b := "0x00000000000000000000000000000000000000Ab" in
  slot_norm (SAccount a) = slot_norm (SAccount b).
Proof.
  intros a b.
  apply (@state_keys_separate toy_sha toy_hex toy_hex_decode toy_hex_laws toy_hex_decode_laws);
    [done|done| |by vm_compute].
  replace (@slot_pre toy_hex_decode (SAccount b)) with (@slot_pre toy_hex_decode (SAccount a)) by (by vm_compute).
  intros x y Hx Hy _. set_solver.
Defined.
Lemma state_values_roundtrip_witness :
  account_value_decode (account_value_bytes 7 1) = Some (7, 1) ∧
  liveness_value_decode (liveness_value_bytes 7 1 U64_MAX true) = Some (7, 1, U64_MAX, true).
Proof.
  destruct (@state_values_roundtrip toy_sha toy_sha_laws 7 1 U64_MAX 0 0 0 true []) as (Ha & _ & _ & Hl & _);
    [by vm_compute..|]. done.
Defined.
