(* ===== verification/Nft.v ===== *)
(** * The NFT registry

    Models crates/sentrix-nft (tokens, collections, registry, events, errors)
    and its facade crates/sentrix-core/src/nft.rs.  A method
    [fn f(&mut self, ..) -> NftResult<A>] is a function from the state to the
    state after it and its result, as for the other components, with the NFT
    error type. *)

From S2P Require Import Prelude Bytes Token Transaction Authority.

(** ** Errors and events *)

Inductive NftError :=
  | Unauthorized (msg : string)
  | TokenAlreadyExists (token_id : Z)
  | TokenNotFound (token_id : Z)
  | NotOwner (token_id : Z) (claimed : string)
  | NotTransferable (token_id : Z)
  | TokenFrozen (token_id : Z)
  | CollectionFrozen
  | MetadataLocked
  | MaxSupplyReached (minted max : Z)
  | InvalidParams (msg : string)
  | CollectionExists (id : string)
  | CollectionNotFound (id : string)
  | Overflow (msg : string).

Definition nft_error_text (e : NftError) : string :=
  match e with
  | Unauthorized m => "unauthorized: " +:+ m
  | TokenAlreadyExists i => "token_id " +:+ pretty i +:+ " already exists (ids are never reused after burn)"
  | TokenNotFound i => "token_id " +:+ pretty i +:+ " not found"
  | NotOwner i claimed => "token_id " +:+ pretty i +:+ ": " +:+ claimed +:+ " is not the owner"
  | NotTransferable i => "token_id " +:+ pretty i +:+ " is soulbound (non-transferable)"
  | TokenFrozen i => "token_id " +:+ pretty i +:+ " is frozen"
  | CollectionFrozen => "collection is frozen"
  | MetadataLocked => "collection metadata is locked"
  | MaxSupplyReached minted max =>
      "max supply reached: " +:+ pretty minted +:+ " minted, max " +:+ pretty max
  | InvalidParams m => "invalid params: " +:+ m
  | CollectionExists id => "collection " +:+ id +:+ " already exists"
  | CollectionNotFound id => "collection " +:+ id +:+ " not found"
  | Overflow m => "arithmetic overflow: " +:+ m
  end.

Inductive NftEvent :=
  | EvCollectionCreated (collection_id creator name symbol : string)
  | EvCollectionUpdated (collection_id : string)
  | EvCollectionFrozen (collection_id : string)
  | EvCollectionMetadataLocked (collection_id : string)
  | EvTokenMinted (collection_id : string) (token_id : Z) (to : string) (transferable : bool)
  | EvTokenTransferred (collection_id : string) (token_id : Z) (from to : string)
  | EvTokenBurned (collection_id : string) (token_id : Z) (owner : string)
  | EvTokenApproved (collection_id : string) (token_id : Z) (owner approved : string)
  | EvApprovalForAll (collection_id owner operator : string) (approved : bool)
  | EvTokenUriUpdated (collection_id : string) (token_id : Z)
  | EvTokenFrozen (collection_id : string) (token_id : Z)
  | EvTokenUnfrozen (collection_id : string) (token_id : Z).

Inductive NftResult (A : Type) := NOk (a : A) | NErr (e : NftError).
Arguments NOk {A} a.
Arguments NErr {A} e.

Definition nst (S A : Type) : Type := S → S * NftResult A.
#[global] Instance nst_ret {S} : MRet (nst S) := λ A a s, (s, NOk a).
#[global] Instance nst_bind {S} : MBind (nst S) := λ A B f m s,
  match m s with
  | (s', NOk a) => f a s'
  | (s', NErr e) => (s', NErr e)
  end.
Definition nget {S A} (f : S → A) : nst S A := λ s, (s, NOk (f s)).
Definition nput {S} (f : S → S) : nst S unit := λ s, (f s, NOk tt).
Definition nfail_if {S} (b : bool) (e : NftError) : nst S unit := λ s, (s, if b then NErr e else NOk tt).
Definition nok_or {S A} (o : option A) (e : NftError) : nst S A := λ s,
  (s, match o with Some a => NOk a | None => NErr e end).

(** ** Tokens and collections *)

Record NftToken := mkNftToken {
  nt_collection_id : string;
  nt_token_id : Z;
  nt_owner : string;
  nt_uri : string;
  nt_uri_hash : option string;
  nt_metadata_hash : option string;
  nt_transferable : bool;
  nt_frozen : bool;
  nt_burned : bool;
}.
#[global] Instance NftToken_eta : Eta NftToken := λ t,
  mkNftToken (nt_collection_id t) (nt_token_id t) (nt_owner t) (nt_uri t) (nt_uri_hash t)
    (nt_metadata_hash t) (nt_transferable t) (nt_frozen t) (nt_burned t).
Definition NftToken_new (collection_id : string) (token_id : Z) (owner uri : string) (transferable : bool)
    : NftToken := mkNftToken collection_id token_id owner uri None None transferable false false.
Definition mark_burned (t : NftToken) : NftToken := t <| nt_burned := true |> <| nt_frozen := false |>.

Record NftCollection := mkCollection {
  nc_id : string;
  nc_creator : string;
  nc_admin : string;
  nc_name : string;
  nc_symbol : string;
  nc_description : string;
  nc_base_uri : string;
  nc_external_url : string;
  nc_max_supply : option Z;
  nc_total_supply : Z;
  nc_total_minted : Z;
  nc_default_transferable : bool;
  nc_metadata_mutable : bool;
  nc_frozen : bool;
  nc_tokens : gmap Z NftToken;
  nc_balances : gmap string Z;
  nc_token_approvals : gmap Z string;
  nc_operator_approvals : gmap string (gmap string bool);
}.
#[global] Instance NftCollection_eta : Eta NftCollection := λ c,
  mkCollection (nc_id c) (nc_creator c) (nc_admin c) (nc_name c) (nc_symbol c) (nc_description c)
    (nc_base_uri c) (nc_external_url c) (nc_max_supply c) (nc_total_supply c) (nc_total_minted c)
    (nc_default_transferable c) (nc_metadata_mutable c) (nc_frozen c) (nc_tokens c) (nc_balances c)
    (nc_token_approvals c) (nc_operator_approvals c).

Definition NftCollection_new (id creator name symbol base_uri : string) (max_supply : option Z)
    (default_transferable metadata_mutable : bool) : NftCollection :=
  mkCollection id creator creator name symbol "" base_uri "" max_supply 0 0 default_transferable
    metadata_mutable false ∅ ∅ ∅ ∅.

Implicit Types c : NftCollection.

Definition live_token c (token_id : Z) : option NftToken :=
  match nc_tokens c !! token_id with
  | Some t => if nt_burned t then None else Some t
  | None => None
  end.
Definition owner_of c (token_id : Z) : option string := nt_owner <$> live_token c token_id.
Definition nft_balance_of c (address : string) : Z := default 0 (nc_balances c !! address).
Definition get_approved c (token_id : Z) : option string := nc_token_approvals c !! token_id.
Definition is_approved_for_all c (owner operator : string) : bool :=
  default false (nc_operator_approvals c !! owner ≫= λ m, m !! operator).
Definition token_uri c (token_id : Z) : string :=
  match live_token c token_id with
  | Some t => if is_empty (nt_uri t) then nc_base_uri c +:+ pretty token_id else nt_uri t
  | None => ""
  end.
Definition transfer_authorized c (caller owner : string) (token_id : Z) : bool :=
  bool_decide (caller = owner) || bool_decide (nc_token_approvals c !! token_id = Some caller)
  || is_approved_for_all c owner caller.
Definition live_owner (token_id : Z) : nst NftCollection string := λ c,
  (c, match owner_of c token_id with Some o => NOk o | None => NErr (TokenNotFound token_id) end).

(** [self.tokens.get_mut(&token_id)] *)
Definition on_token (token_id : Z) (f : NftToken → NftToken) c : NftCollection :=
  c <| nc_tokens := alter f token_id (nc_tokens c) |>.

(** ** Writes *)

Definition nft_mint (caller to : string) (token_id : Z) (uri : string) (transferable : option bool)
    : nst NftCollection NftEvent :=
  c ← nget (λ c, c) ;
  nfail_if (negb (bool_decide (caller = nc_admin c))) (Unauthorized "only the collection admin can mint") ;;
  nfail_if (is_empty to) (InvalidParams "empty recipient") ;;
  nfail_if (bool_decide (is_Some (nc_tokens c !! token_id))) (TokenAlreadyExists token_id) ;;
  (match nc_max_supply c with
   | Some max => nfail_if (max <=? nc_total_minted c) (MaxSupplyReached (nc_total_minted c) max)
   | None => mret tt
   end) ;;
  let transferable := default (nc_default_transferable c) transferable in
  new_balance ← nok_or (checked_add U64_MAX (nft_balance_of c to) 1) (Overflow "balance") ;
  new_total_supply ← nok_or (checked_add U64_MAX (nc_total_supply c) 1) (Overflow "total_supply") ;
  new_total_minted ← nok_or (checked_add U64_MAX (nc_total_minted c) 1) (Overflow "total_minted") ;
  nput (λ c, c <| nc_tokens := <[token_id := NftToken_new (nc_id c) token_id to uri transferable]> (nc_tokens c) |>
               <| nc_balances := <[to := new_balance]> (nc_balances c) |>
               <| nc_total_supply := new_total_supply |> <| nc_total_minted := new_total_minted |>) ;;
  mret (EvTokenMinted (nc_id c) token_id to transferable).

Definition nft_transfer (caller from to : string) (token_id : Z) : nst NftCollection NftEvent :=
  c ← nget (λ c, c) ;
  nfail_if (is_empty from || is_empty to) (InvalidParams "empty address") ;;
  nfail_if (bool_decide (from = to)) (InvalidParams "cannot transfer to self") ;;
  token ← nok_or (live_token c token_id) (TokenNotFound token_id) ;
  nfail_if (negb (nt_transferable token)) (NotTransferable token_id) ;;
  nfail_if (nt_frozen token) (TokenFrozen token_id) ;;
  nfail_if (nc_frozen c) CollectionFrozen ;;
  nfail_if (negb (bool_decide (nt_owner token = from))) (NotOwner token_id from) ;;
  nfail_if (negb (transfer_authorized c caller from token_id))
    (Unauthorized (caller +:+ " cannot transfer token_id " +:+ pretty token_id)) ;;
  new_from ← nok_or (checked_sub (nft_balance_of c from) 1) (Overflow "transfer underflow") ;
  new_to ← nok_or (checked_add U64_MAX (nft_balance_of c to) 1) (Overflow "transfer overflow") ;
  nput (λ c, on_token token_id (λ t, t <| nt_owner := to |>)
    (c <| nc_balances := <[to := new_to]> (<[from := new_from]> (nc_balances c)) |>)) ;;
  nput (λ c, c <| nc_token_approvals := delete token_id (nc_token_approvals c) |>) ;;
  mret (EvTokenTransferred (nc_id c) token_id from to).

Definition nft_approve (caller spender : string) (token_id : Z) : nst NftCollection NftEvent :=
  c ← nget (λ c, c) ;
  nfail_if (is_empty spender) (InvalidParams "empty spender (use clear_approval)") ;;
  owner ← live_owner token_id ;
  nfail_if (negb (bool_decide (caller = owner)) && negb (is_approved_for_all c owner caller))
    (Unauthorized (caller +:+ " cannot approve token_id " +:+ pretty token_id)) ;;
  nput (λ c, c <| nc_token_approvals := <[token_id := spender]> (nc_token_approvals c) |>) ;;
  mret (EvTokenApproved (nc_id c) token_id owner spender).

Definition clear_approval (caller : string) (token_id : Z) : nst NftCollection NftEvent :=
  c ← nget (λ c, c) ;
  owner ← live_owner token_id ;
  nfail_if (negb (bool_decide (caller = owner)) && negb (is_approved_for_all c owner caller))
    (Unauthorized (caller +:+ " cannot clear approval on token_id " +:+ pretty token_id)) ;;
  nput (λ c, c <| nc_token_approvals := delete token_id (nc_token_approvals c) |>) ;;
  mret (EvTokenApproved (nc_id c) token_id owner "").

Definition set_approval_for_all (caller owner operator : string) (approved : bool)
    : nst NftCollection NftEvent :=
  c ← nget (λ c, c) ;
  nfail_if (is_empty owner || is_empty operator) (InvalidParams "empty address") ;;
  nfail_if (negb (bool_decide (caller = owner)))
    (Unauthorized "caller may only set operator approvals for itself") ;;
  nfail_if (bool_decide (owner = operator)) (InvalidParams "cannot set operator for self") ;;
  nput (λ c, c <| nc_operator_approvals :=
    <[owner := <[operator := approved]> (default ∅ (nc_operator_approvals c !! owner))]>
      (nc_operator_approvals c) |>) ;;
  mret (EvApprovalForAll (nc_id c) owner operator approved).

Definition nft_burn (caller : string) (token_id : Z) : nst NftCollection NftEvent :=
  c ← nget (λ c, c) ;
  owner ← live_owner token_id ;
  nfail_if (negb (bool_decide (caller = owner)) && negb (bool_decide (caller = nc_admin c)))
    (Unauthorized ("only owner or admin can burn token_id " +:+ pretty token_id)) ;;
  new_balance ← nok_or (checked_sub (nft_balance_of c owner) 1) (Overflow "burn underflow") ;
  new_total_supply ← nok_or (checked_sub (nc_total_supply c) 1) (Overflow "total_supply underflow") ;
  nput (λ c, c <| nc_balances := <[owner := new_balance]> (nc_balances c) |>
               <| nc_total_supply := new_total_supply |>
               <| nc_token_approvals := delete token_id (nc_token_approvals c) |>) ;;
  nput (on_token token_id mark_burned) ;;
  mret (EvTokenBurned (nc_id c) token_id owner).

Definition update_token_uri (caller : string) (token_id : Z) (new_uri : string) : nst NftCollection NftEvent :=
  c ← nget (λ c, c) ;
  nfail_if (nc_frozen c) CollectionFrozen ;;
  nfail_if (negb (nc_metadata_mutable c)) MetadataLocked ;;
  owner ← live_owner token_id ;
  nfail_if (negb (bool_decide (caller = nc_admin c)) && negb (bool_decide (caller = owner)))
    (Unauthorized (caller +:+ " cannot update token_id " +:+ pretty token_id +:+ " uri")) ;;
  nfail_if (default false (nt_frozen <$> nc_tokens c !! token_id)) (TokenFrozen token_id) ;;
  nput (on_token token_id (λ t, t <| nt_uri := new_uri |>)) ;;
  mret (EvTokenUriUpdated (nc_id c) token_id).

Definition update_collection_metadata (caller : string) (description base_uri external_url : option string)
    : nst NftCollection NftEvent :=
  c ← nget (λ c, c) ;
  nfail_if (negb (bool_decide (caller = nc_admin c))) (Unauthorized "only admin can update metadata") ;;
  nfail_if (nc_frozen c) CollectionFrozen ;;
  nfail_if (negb (nc_metadata_mutable c)) MetadataLocked ;;
  nput (λ c, c <| nc_description := default (nc_description c) description |>
               <| nc_base_uri := default (nc_base_uri c) base_uri |>
               <| nc_external_url := default (nc_external_url c) external_url |>) ;;
  mret (EvCollectionUpdated (nc_id c)).

Definition freeze_collection (caller : string) : nst NftCollection NftEvent :=
  c ← nget (λ c, c) ;
  nfail_if (negb (bool_decide (caller = nc_admin c))) (Unauthorized "only admin can freeze") ;;
  nput (λ c, c <| nc_frozen := true |>) ;;
  mret (EvCollectionFrozen (nc_id c)).

Definition lock_metadata (caller : string) : nst NftCollection NftEvent :=
  c ← nget (λ c, c) ;
  nfail_if (negb (bool_decide (caller = nc_admin c))) (Unauthorized "only admin can lock metadata") ;;
  nput (λ c, c <| nc_metadata_mutable := false |>) ;;
  mret (EvCollectionMetadataLocked (nc_id c)).

Definition set_token_frozen (caller : string) (token_id : Z) (frozen : bool) : nst NftCollection NftEvent :=
  c ← nget (λ c, c) ;
  nfail_if (negb (bool_decide (caller = nc_admin c))) (Unauthorized "only admin can freeze tokens") ;;
  live_owner token_id ;;
  nput (on_token token_id (λ t, t <| nt_frozen := frozen |>)) ;;
  mret (if frozen then EvTokenFrozen (nc_id c) token_id else EvTokenUnfrozen (nc_id c) token_id).

(** ** Canonical hash

    Every map is walked in sorted key order; [hm_entries] is the order a
    process happens to iterate in. *)
Section canonical.
Context `{HashOrder}.

Definition enc_bool (b : bool) : bytes := [if b then 1 else 0].
Definition enc_opt_string (o : option string) : bytes :=
  match o with Some s => 1 :: enc_string s | None => [0] end.
Definition enc_opt_u64 (o : option Z) : bytes :=
  match o with Some m => 1 :: to_be_bytes 8 m | None => [0] end.

Definition enc_token (p : Z * NftToken) : bytes :=
  let t := p.2 in
  to_be_bytes 8 p.1 ++ enc_string (nt_owner t) ++ enc_string (nt_uri t)
  ++ enc_opt_string (nt_uri_hash t) ++ enc_opt_string (nt_metadata_hash t)
  ++ enc_bool (nt_transferable t) ++ enc_bool (nt_frozen t) ++ enc_bool (nt_burned t).
Definition enc_nft_balance (p : string * Z) : bytes := enc_string p.1 ++ to_be_bytes 8 p.2.
Definition enc_approval (p : Z * string) : bytes := to_be_bytes 8 p.1 ++ enc_string p.2.
Definition enc_operator (p : (string * string) * bool) : bytes :=
  enc_string p.1.1 ++ enc_string p.1.2 ++ enc_bool p.2.
Definition flat_operators c : list ((string * string) * bool) :=
  concat ((λ p : string * gmap string bool, (λ q : string * bool, ((p.1, q.1), q.2)) <$> hm_entries p.2)
          <$> hm_entries (nc_operator_approvals c)).

(** The bytes [NftCollection::canonical_hash] feeds to SHA-256. *)
Definition collection_payload c : bytes :=
  enc_string (nc_id c) ++ enc_string (nc_creator c) ++ enc_string (nc_admin c) ++ enc_string (nc_name c)
  ++ enc_string (nc_symbol c) ++ enc_string (nc_description c) ++ enc_string (nc_base_uri c)
  ++ enc_string (nc_external_url c) ++ enc_opt_u64 (nc_max_supply c)
  ++ to_be_bytes 8 (nc_total_supply c) ++ to_be_bytes 8 (nc_total_minted c)
  ++ enc_bool (nc_default_transferable c) ++ enc_bool (nc_metadata_mutable c) ++ enc_bool (nc_frozen c)
  ++ enc_list enc_token (sort_by_key Z.le (hm_entries (nc_tokens c)))
  ++ enc_list enc_nft_balance (sort_by_key String.le (hm_entries (nc_balances c)))
  ++ enc_list enc_approval (sort_by_key Z.le (hm_entries (nc_token_approvals c)))
  ++ enc_list enc_operator (sort_by_key pair_le (flat_operators c)).
Definition collection_hash `{Sha256} c : bytes := sha256_bytes (collection_payload c).
End canonical.

(** ** The registry *)

Record NftRegistry := mkNftRegistry { nr_collections : gmap string NftCollection }.
#[global] Instance NftRegistry_eta : Eta NftRegistry := λ r, mkNftRegistry (nr_collections r).
Definition NftRegistry_new : NftRegistry := mkNftRegistry ∅.

Section registry.
Context `{Sha256, Hex}.
Implicit Types r : NftRegistry.

Definition collection_id_payload (creator seed : string) : bytes := enc_string creator ++ enc_string seed.
Definition compute_collection_id (creator seed : string) : string :=
  "SRC721_" +:+ hex_encode (take 20 (sha256_bytes (collection_id_payload creator seed))).

Definition deploy_collection (creator name symbol base_uri : string) (max_supply : option Z)
    (default_transferable metadata_mutable : bool) (seed : string) : nst NftRegistry (string * NftEvent) :=
  r ← nget (λ r, r) ;
  nfail_if (is_empty creator) (InvalidParams "empty creator") ;;
  nfail_if (is_empty name || (64 <? Z.of_nat (String.length name))) (InvalidParams "name must be 1–64 bytes") ;;
  nfail_if (is_empty symbol || (10 <? Z.of_nat (String.length symbol)) || negb (all_chars is_alphanumeric symbol))
    (InvalidParams "symbol must be 1–10 ASCII alphanumeric chars") ;;
  nfail_if (bool_decide (max_supply = Some 0)) (InvalidParams "max_supply cannot be 0 (use None for unlimited)") ;;
  let id := compute_collection_id creator seed in
  nfail_if (bool_decide (is_Some (nr_collections r !! id))) (CollectionExists id) ;;
  nput (λ r, r <| nr_collections := <[id := NftCollection_new id creator name symbol base_uri max_supply
    default_transferable metadata_mutable]> (nr_collections r) |>) ;;
  mret (id, EvCollectionCreated id creator name symbol).

Definition get_collection r (id : string) : option NftCollection := nr_collections r !! id.
Definition collection_exists r (id : string) : bool := bool_decide (is_Some (nr_collections r !! id)).
Definition collection_count r : nat := size (nr_collections r).

Definition enc_collection `{HashOrder} (p : string * NftCollection) : bytes :=
  enc_string p.1 ++ collection_hash p.2.
Definition nft_registry_payload `{HashOrder} r : bytes :=
  enc_list enc_collection (omap (λ id, (id,.) <$> nr_collections r !! id)
    (sort_strings (hm_keys (nr_collections r)))).
Definition nft_registry_hash `{HashOrder} r : bytes := sha256_bytes (nft_registry_payload r).

(** ** The facade (nft.rs) *)

Definition nft_err_to_sentrix (e : NftError) : SentrixError :=
  match e with
  | Unauthorized _ => UnauthorizedValidator (nft_error_text e)
  | Overflow _ => Internal (nft_error_text e)
  | _ => InvalidTransaction (nft_error_text e)
  end.

(** [.map_err(nft_err_to_sentrix)] *)
Definition nft_lift {S A} (m : nst S A) : st S A := λ s,
  match m s with
  | (s, NOk a) => (s, Ok a)
  | (s, NErr e) => (s, Err (nft_err_to_sentrix e))
  end.
(** [collection_mut(registry, contract)?.op(..)] *)
Definition on_collection (contract : string) (m : nst NftCollection NftEvent) : st NftRegistry NftEvent := λ r,
  match nr_collections r !! contract with
  | None => (r, Err (NotFound ("nft collection " +:+ contract)))
  | Some c =>
      let '(c, res) := nft_lift m c in
      (r <| nr_collections := <[contract := c]> (nr_collections r) |>, res)
  end.
Definition recipient (label a : string) : st NftRegistry unit :=
  fail_if (negb (is_spendable_sentrix_address a))
    (InvalidTransaction ("invalid NFT " +:+ label +:+ " address: " +:+ a)).
Definition party (label a : string) : st NftRegistry unit :=
  fail_if (negb (is_valid_sentrix_address a))
    (InvalidTransaction ("invalid NFT " +:+ label +:+ " address: " +:+ a)).

Definition apply_nft_op (op : TokenOp) (sender seed : string) : st NftRegistry (list NftEvent) :=
  event ← (match op with
   | TokenOp_DeployNft name symbol base_uri max_supply =>
       let max := if max_supply =? 0 then None else Some max_supply in
       out ← nft_lift (deploy_collection sender name symbol base_uri max true true seed) ;
       mret (snd out)
   | TokenOp_MintNft contract to token_id metadata_uri =>
       recipient "mint to" to ;; on_collection contract (nft_mint sender to token_id metadata_uri None)
   | TokenOp_TransferNft contract from to token_id =>
       party "transfer from" from ;; recipient "transfer to" to ;;
       on_collection contract (nft_transfer sender from to token_id)
   | TokenOp_BurnNft contract token_id => on_collection contract (nft_burn sender token_id)
   | TokenOp_ApproveNft contract spender token_id =>
       party "approve spender" spender ;; on_collection contract (nft_approve sender spender token_id)
   | TokenOp_SetApprovalForAll contract operator approved =>
       party "operator" operator ;;
       on_collection contract (set_approval_for_all sender sender operator approved)
   | _ => throw (InvalidTransaction
       "unsupported NFT TokenOp in apply path (SRC-1155 / admin metadata ops deferred)")
   end) ;
  mret [event].
End registry.

(** The WebSocket event of an NFT event: kind, contract, from, to, amount. *)
Record TokenOpEvent := mkTokenOpEvent {
  te_op : string; te_contract : string; te_from : string; te_to : string;
  te_amount : Z; te_txid : string; te_block_height : Z;
}.
Definition nft_event_to_token_op_event (ev : NftEvent) (txid : string) (block_height : Z) : TokenOpEvent :=
  let mk (op contract from to : string) (amount : Z) := mkTokenOpEvent op contract from to amount txid block_height in
  match ev with
  | EvCollectionCreated cid creator _ _ => mk "deploy_nft" cid creator "" 0
  | EvTokenMinted cid token_id to _ => mk "mint_nft" cid "" to token_id
  | EvTokenTransferred cid token_id from to => mk "transfer_nft" cid from to token_id
  | EvTokenBurned cid token_id owner => mk "burn_nft" cid owner "" token_id
  | EvTokenApproved cid token_id owner approved => mk "approve_nft" cid owner approved token_id
  | EvApprovalForAll cid owner operator approved =>
      mk "set_approval_for_all" cid owner operator (if approved then 1 else 0)
  | EvCollectionUpdated cid | EvCollectionFrozen cid | EvCollectionMetadataLocked cid =>
      mk "nft_collection_update" cid "" "" 0
  | EvTokenUriUpdated cid token_id | EvTokenFrozen cid token_id | EvTokenUnfrozen cid token_id =>
      mk "nft_token_update" cid "" "" token_id
  end.
