(* ===== verification/NftProps.v ===== *)
(** * The NFT registry: ownership, supply and soulbound tokens

    An invariant of collections that every operation keeps, and what no sequence
    of operations can do: move a soulbound token, bring back a burned id, take a
    token without its owner's authority, or mint past the maximum. *)

From S2P Require Import Prelude Bytes Token Transaction Authority Nft.

Implicit Types (c d : NftCollection) (t : NftToken) (i : Z) (a : string).

(** ** Operations as data *)

Inductive NftOp :=
  | NMint (caller to : string) (i : Z) (uri : string) (transferable : option bool)
  | NTransfer (caller from to : string) (i : Z)
  | NApprove (caller spender : string) (i : Z)
  | NClear (caller : string) (i : Z)
  | NSetAll (caller owner operator : string) (approved : bool)
  | NBurn (caller : string) (i : Z)
  | NUri (caller : string) (i : Z) (uri : string)
  | NMeta (caller : string) (description base_uri external_url : option string)
  | NFreeze (caller : string)
  | NLock (caller : string)
  | NTokenFrozen (caller : string) (i : Z) (frozen : bool).

Definition run_nft (op : NftOp) : nst NftCollection NftEvent :=
  match op with
  | NMint caller to i uri tr => nft_mint caller to i uri tr
  | NTransfer caller from to i => nft_transfer caller from to i
  | NApprove caller spender i => nft_approve caller spender i
  | NClear caller i => clear_approval caller i
  | NSetAll caller owner operator b => set_approval_for_all caller owner operator b
  | NBurn caller i => nft_burn caller i
  | NUri caller i uri => update_token_uri caller i uri
  | NMeta caller x y z => update_collection_metadata caller x y z
  | NFreeze caller => freeze_collection caller
  | NLock caller => lock_metadata caller
  | NTokenFrozen caller i b => set_token_frozen caller i b
  end.
Definition caller_of (op : NftOp) : string :=
  match op with
  | NMint a _ _ _ _ | NTransfer a _ _ _ | NApprove a _ _ | NClear a _ | NSetAll a _ _ _ | NBurn a _
  | NUri a _ _ | NMeta a _ _ _ | NFreeze a | NLock a | NTokenFrozen a _ _ => a
  end.
(** Operations one after the other, failed ones included. *)
Definition nft_run (ops : list NftOp) c : NftCollection := foldl (λ c op, (run_nft op c).1) c ops.

(** ** The effect of an operation *)

(** What one operation does to the state, with its guards; [stay] covers both
    failures and the operations that leave tokens, balances and counters alone. *)
Inductive effect (caller : string) c : NftCollection → Prop :=
  | eff_same d :
      nc_tokens d = nc_tokens c → nc_balances d = nc_balances c → nc_total_supply d = nc_total_supply c →
      nc_total_minted d = nc_total_minted c → nc_max_supply d = nc_max_supply c → nc_id d = nc_id c →
      (∀ i s, nc_token_approvals d !! i = Some s →
        nc_token_approvals c !! i = Some s ∨ is_Some (live_token c i)) →
      effect caller c d
  | eff_mint to i uri tr nb ns nm :
      caller = nc_admin c → nc_tokens c !! i = None →
      match nc_max_supply c with Some m => nc_total_minted c < m | None => True end →
      checked_add U64_MAX (nft_balance_of c to) 1 = Some nb →
      checked_add U64_MAX (nc_total_supply c) 1 = Some ns →
      checked_add U64_MAX (nc_total_minted c) 1 = Some nm →
      effect caller c (c <| nc_tokens := <[i := NftToken_new (nc_id c) i to uri tr]> (nc_tokens c) |>
        <| nc_balances := <[to := nb]> (nc_balances c) |> <| nc_total_supply := ns |> <| nc_total_minted := nm |>)
  | eff_transfer from to i t nf nt :
      live_token c i = Some t → nt_owner t = from → nt_transferable t = true → nt_frozen t = false →
      nc_frozen c = false → from ≠ to → transfer_authorized c caller from i = true →
      checked_sub (nft_balance_of c from) 1 = Some nf → checked_add U64_MAX (nft_balance_of c to) 1 = Some nt →
      effect caller c (on_token i (λ t, t <| nt_owner := to |>)
        (c <| nc_balances := <[to := nt]> (<[from := nf]> (nc_balances c)) |>)
        <| nc_token_approvals := delete i (nc_token_approvals c) |>)
  | eff_burn i t nb ns :
      live_token c i = Some t → caller = nt_owner t ∨ caller = nc_admin c →
      checked_sub (nft_balance_of c (nt_owner t)) 1 = Some nb → checked_sub (nc_total_supply c) 1 = Some ns →
      effect caller c (on_token i mark_burned (c <| nc_balances := <[nt_owner t := nb]> (nc_balances c) |>
        <| nc_total_supply := ns |> <| nc_token_approvals := delete i (nc_token_approvals c) |>))
  | eff_edit i t f :
      live_token c i = Some t →
      (nt_collection_id (f t), nt_token_id (f t), nt_owner (f t), nt_transferable (f t), nt_burned (f t)) =
        (nt_collection_id t, nt_token_id t, nt_owner t, nt_transferable t, nt_burned t) →
      effect caller c (on_token i f c).

Lemma owner_live c i o : owner_of c i = Some o → ∃ t, live_token c i = Some t ∧ nt_owner t = o.
Proof. unfold owner_of. destruct (live_token c i) as [t|]; [|done]. intros [= <-]. by exists t. Qed.

Ltac same_effect := apply eff_same; simpl; auto.
Ltac step_nst :=
  cbv [mbind nst_bind mret nst_ret nget nput nfail_if nok_or live_owner];
  repeat (case_match; simplify_eq; simpl in *); try (same_effect; fail).

Ltac nft_bools :=
  repeat match goal with
  | H : negb _ = false |- _ => apply negb_false_iff in H
  | H : bool_decide _ = true |- _ => apply bool_decide_eq_true in H
  | H : bool_decide _ = false |- _ => apply bool_decide_eq_false in H
  | H : ¬ is_Some _ |- _ => rewrite <- eq_None_not_Some in H
  | H : (_ <=? _) = false |- _ => apply Z.leb_gt in H
  end.

Lemma run_nft_effect op c : effect (caller_of op) c (run_nft op c).1.
Proof.
  destruct op; simpl.
  - unfold nft_mint. step_nst; nft_bools; apply eff_mint; try done;
      match goal with E : nc_max_supply _ = _ |- _ => by rewrite E end.
  - unfold nft_transfer. step_nst. nft_bools.
    match goal with Hl : live_token c i = Some ?t, Hf : checked_sub _ _ = Some ?nf, Ht : checked_add _ _ _ = Some ?nt |- _ =>
      refine (eq_ind _ (effect caller c) (eff_transfer caller c from to i t nf nt _ _ _ _ _ _ _ _ _) _ _); try done end.
    unfold on_token. simpl. by f_equal.
  - unfold nft_approve. step_nst. apply eff_same; simpl; try done. intros j s.
    destruct (owner_live _ _ _ ltac:(eassumption)) as (t & Ht & _).
    destruct (decide (j = i)) as [->|Hj]; [right; by eexists|]. rewrite lookup_insert_ne by done. by left.
  - unfold clear_approval. step_nst. apply eff_same; simpl; try done. intros j s [_ Hs]%lookup_delete_Some. by left.
  - unfold set_approval_for_all. step_nst.
  - unfold nft_burn. step_nst. destruct (owner_live _ _ _ ltac:(eassumption)) as (t & Ht & <-).
    match goal with Hf : checked_sub (nft_balance_of _ _) _ = Some ?nb, Hs : checked_sub (nc_total_supply _) _ = Some ?ns,
        Ha : _ && _ = false |- _ =>
      apply (eff_burn caller c i t nb ns); try done; apply andb_false_iff in Ha as [?|?]; nft_bools; auto end.
  - unfold update_token_uri. step_nst. destruct (owner_live _ _ _ ltac:(eassumption)) as (t & Ht & <-).
    match goal with |- effect _ _ (on_token _ ?f _) => exact (eff_edit caller c i t f Ht eq_refl) end.
  - unfold update_collection_metadata. step_nst.
  - unfold freeze_collection. step_nst.
  - unfold lock_metadata. step_nst.
  - unfold set_token_frozen. step_nst; destruct (owner_live _ _ _ ltac:(eassumption)) as (t & Ht & <-);
      match goal with |- effect _ _ (on_token _ ?f _) => exact (eff_edit caller c i t f Ht eq_refl) end.
Qed.

(** ** Counting tokens *)

Section count.
Context (P : Z * NftToken → Prop) `{!∀ x, Decision (P x)}.
Definition count (m : gmap Z NftToken) : Z := Z.of_nat (size (filter P m)).
Definition one (x : Z * NftToken) : Z := if decide (P x) then 1 else 0.

Lemma count_insert_new m i t : m !! i = None → count (<[i := t]> m) = count m + one (i, t).
Proof.
  intros Hn. unfold count, one. destruct (decide (P (i, t))) as [Hp|Hp].
  - rewrite map_filter_insert_True by done. rewrite map_size_insert_None; [lia|].
    apply map_lookup_filter_None. left. done.
  - rewrite map_filter_insert_False by done. rewrite delete_id by done. lia.
Qed.
Lemma count_insert m i t t' : m !! i = Some t → count (<[i := t']> m) = count m - one (i, t) + one (i, t').
Proof.
  intros Hs. rewrite <- (insert_delete_id m i t Hs) at 2. rewrite <- (insert_delete_eq m i t').
  rewrite !count_insert_new by apply lookup_delete_eq. lia.
Qed.
Lemma count_alter m i t f : m !! i = Some t → count (alter f i m) = count m - one (i, t) + one (i, f t).
Proof.
  intros Hs. rewrite <- (count_insert m i t (f t) Hs). f_equal. apply map_eq. intros j.
  destruct (decide (j = i)) as [->|]; [by rewrite lookup_alter_eq, lookup_insert_eq, Hs|].
  by rewrite lookup_alter_ne, lookup_insert_ne.
Qed.
Lemma count_nonneg m : 0 <= count m.
Proof. unfold count. lia. Qed.
Lemma count_le m : count m <= Z.of_nat (size m).
Proof. unfold count. pose proof (map_filter_subseteq P m) as Hs. apply map_subseteq_size in Hs. lia. Qed.
Lemma count_member m i t : m !! i = Some t → P (i, t) → 1 <= count m.
Proof.
  intros Hs Hp. rewrite <- (insert_delete_id m i t Hs), count_insert_new by apply lookup_delete_eq.
  unfold one. rewrite decide_True by done. pose proof (count_nonneg (delete i m)). lia.
Qed.
End count.

Definition is_live (x : Z * NftToken) : Prop := nt_burned x.2 = false.
Definition held_by a (x : Z * NftToken) : Prop := nt_burned x.2 = false ∧ nt_owner x.2 = a.
#[global] Instance is_live_dec x : Decision (is_live x).
Proof. unfold is_live. apply _. Defined.
#[global] Instance held_by_dec a x : Decision (held_by a x).
Proof. unfold held_by. apply _. Defined.

(** ** The invariant *)

Record coll_inv c : Prop := {
  ci_token i t : nc_tokens c !! i = Some t → nt_token_id t = i ∧ nt_collection_id t = nc_id c;
  ci_balance a : nft_balance_of c a = count (held_by a) (nc_tokens c);
  ci_supply : nc_total_supply c = count is_live (nc_tokens c);
  ci_minted : nc_total_minted c = Z.of_nat (size (nc_tokens c));
  ci_max m : nc_max_supply c = Some m → nc_total_minted c <= m;
  ci_approval i s : nc_token_approvals c !! i = Some s → is_Some (live_token c i);
}.

Lemma live_some c i t : live_token c i = Some t ↔ nc_tokens c !! i = Some t ∧ nt_burned t = false.
Proof.
  unfold live_token. destruct (nc_tokens c !! i) as [t'|]; [|naive_solver].
  destruct (nt_burned t') eqn:E; naive_solver congruence.
Qed.

Lemma new_inv id creator name symbol uri max tr mu :
  (∀ m, max = Some m → 0 <= m) → coll_inv (NftCollection_new id creator name symbol uri max tr mu).
Proof.
  intros Hm. split; simpl; try done.
Qed.

Lemma one_live i t : one is_live (i, t) = if nt_burned t then 0 else 1.
Proof. unfold one. case_decide as E; unfold is_live in E; simpl in E; destruct (nt_burned t); done. Qed.
Lemma one_held a i t : one (held_by a) (i, t) = if nt_burned t then 0 else if decide (nt_owner t = a) then 1 else 0.
Proof.
  unfold one. case_decide as E; unfold held_by in E; simpl in E; destruct (nt_burned t); try case_decide; naive_solver.
Qed.
Lemma checked_add_val M x y z : checked_add M x y = Some z → z = x + y.
Proof. unfold checked_add. case_match; naive_solver. Qed.
Lemma checked_sub_val x y z : checked_sub x y = Some z → z = x - y.
Proof. unfold checked_sub. case_match; naive_solver. Qed.
Lemma balance_insert c (m : gmap string Z) a x b :
  default 0 (<[a := x]> m !! b) = if decide (a = b) then x else default 0 (m !! b).
Proof. case_decide as E; [subst; by rewrite lookup_insert_eq|by rewrite lookup_insert_ne]. Qed.
Lemma live_alter c i j f t :
  live_token c i = Some t → nt_burned (f t) = false →
  is_Some (live_token c j) → is_Some (live_token (on_token i f c) j).
Proof.
  intros [Ht Hb]%live_some Hf [t' [Ht' Hb']%live_some]. unfold on_token.
  destruct (decide (j = i)) as [->|Hj].
  - exists (f t). apply live_some. simpl. rewrite lookup_alter_eq, Ht. done.
  - exists t'. apply live_some. simpl. by rewrite lookup_alter_ne.
Qed.

Lemma tokens_size_alter (m : gmap Z NftToken) f i : size (alter f i m) = size m.
Proof. by rewrite <- !size_dom, dom_alter_L. Qed.

Lemma effect_inv caller c d : coll_inv c → effect caller c d → coll_inv d.
Proof.
  intros [It Ib Is Im Ix Ia]. destruct 1 as [d Et Eb Es Em Ex Ei Ea|to i uri tr nb ns nm Had Hn Hmax E1 E2 E3
    |from to i t nf nt Hl Ho Htr Hfr Hcf Hne Hau E1 E2|i t nb ns Hl Hau E1 E2|i t f Hl Ef].
  - assert (El : ∀ j, live_token d j = live_token c j) by (intros j; unfold live_token; by rewrite Et).
    split; unfold nft_balance_of in *; rewrite ?Et, ?Eb, ?Es, ?Em, ?Ex, ?Ei; try done.
    intros j s Hs. rewrite El. destruct (Ea j s Hs) as [?|?]; [by eapply Ia|done].
  - apply checked_add_val in E1 as ->, E2 as ->, E3 as ->. split; simpl.
    + intros j t. rewrite lookup_insert_Some. intros [[<- <-]|[_ Hj]]; [done|by apply It].
    + intros a. unfold nft_balance_of. simpl. rewrite (balance_insert c), count_insert_new, one_held by done. simpl.
      fold (nft_balance_of c a) (nft_balance_of c to). rewrite !Ib. repeat case_decide; subst; try done; lia.
    + rewrite count_insert_new, one_live by done. simpl. lia.
    + rewrite map_size_insert_None by done. lia.
    + intros m Hm. rewrite Hm in Hmax. lia.
    + intros j s Hs. destruct (Ia j s Hs) as [t [Ht Hb]%live_some]. exists t. apply live_some. simpl.
      rewrite lookup_insert_ne by congruence. done.
  - apply checked_sub_val in E1 as ->. apply checked_add_val in E2 as ->.
    pose proof Hl as [Ht Hb]%live_some. split; simpl.
    + intros j t'. destruct (decide (j = i)) as [->|Hj]; [|rewrite lookup_alter_ne by done; apply It].
      rewrite lookup_alter_eq, Ht. intros [= <-]. simpl. by apply It.
    + intros a. unfold nft_balance_of. simpl. rewrite !(balance_insert c).
      rewrite (count_alter _ _ _ t), !one_held by done. simpl. rewrite Hb.
      fold (nft_balance_of c a) (nft_balance_of c from) (nft_balance_of c to).
      rewrite !Ib. repeat case_decide; subst; try done; lia.
    + rewrite (count_alter _ _ _ t), !one_live by done. simpl. lia.
    + by rewrite tokens_size_alter.
    + done.
    + intros j s [Hj Hs]%lookup_delete_Some. destruct (Ia j s Hs) as [t' Ht'].
      assert (Hlive : is_Some (live_token (on_token i (λ t, t <| nt_owner := to |>) c) j))
        by (by eapply live_alter).
      destruct Hlive as [t'' [Ht'' Hb'']%live_some]. exists t''. by apply live_some.
  - apply checked_sub_val in E1 as ->, E2 as ->. pose proof Hl as [Ht Hb]%live_some. split; simpl.
    + intros j t'. destruct (decide (j = i)) as [->|Hj]; [|rewrite lookup_alter_ne by done; apply It].
      rewrite lookup_alter_eq, Ht. intros [= <-]. simpl. by apply It.
    + intros a. unfold nft_balance_of. simpl. rewrite (balance_insert c).
      rewrite (count_alter _ _ _ t), !one_held by done. simpl. rewrite Hb.
      fold (nft_balance_of c a) (nft_balance_of c (nt_owner t)). rewrite !Ib. repeat case_decide; subst; try done; lia.
    + rewrite (count_alter _ _ _ t), !one_live by done. simpl. rewrite Hb. lia.
    + by rewrite tokens_size_alter.
    + done.
    + intros j s [Hj Hs]%lookup_delete_Some. destruct (Ia j s Hs) as [t' [Ht' Hb']%live_some].
      exists t'. apply live_some. simpl. by rewrite lookup_alter_ne by done.
  - pose proof Hl as [Ht Hb]%live_some. injection Ef as F1 F2 F3 F4 F5. split; simpl.
    + intros j t'. destruct (decide (j = i)) as [->|Hj]; [|rewrite lookup_alter_ne by done; apply It].
      rewrite lookup_alter_eq, Ht. intros [= <-]. rewrite F1, F2. by apply It.
    + intros a. rewrite (count_alter _ _ _ t), !one_held, F3, F5 by done.
      unfold nft_balance_of in *. simpl. rewrite Ib. lia.
    + rewrite (count_alter _ _ _ t), !one_live, F5 by done. lia.
    + by rewrite tokens_size_alter.
    + done.
    + intros j s Hs. eapply live_alter; [done|congruence|by eapply Ia].
Qed.

(** ** Every sequence of operations *)

(** C29: from a new collection, whatever is attempted: balances count the live tokens
    each address owns, the supply counts the live tokens, every id ever minted
    counts against the maximum, and only live tokens carry an approval. *)
Theorem nft_run_inv id creator name symbol uri max tr mu ops :
  (∀ m, max = Some m → 0 <= m) →
  coll_inv (nft_run ops (NftCollection_new id creator name symbol uri max tr mu)).
Proof.
  intros Hm. apply (new_inv id creator name symbol uri max tr mu) in Hm.
  revert Hm. generalize (NftCollection_new id creator name symbol uri max tr mu).
  induction ops as [|op ops IH]; intros c Hc; [done|]. simpl. apply IH.
  eapply effect_inv; [done|]. apply (run_nft_effect op c).
Qed.
Lemma nft_run_inv_witness :
  coll_inv (nft_run [NMint "admin" "alice" 1 "" None; NTransfer "alice" "alice" "bob" 1; NBurn "bob" 1]
    (NftCollection_new "c" "admin" "Proof" "PRF" "u/" (Some 1) true true)).
Proof. apply nft_run_inv. intros m [= <-]. lia. Defined.

(** The fate of a token: its record never goes away, a burned one stays burned,
    and one that cannot be transferred keeps its owner. *)
Definition later t t' : Prop :=
  nt_transferable t' = nt_transferable t ∧ (nt_burned t = true → nt_burned t' = true) ∧
  (nt_transferable t = false ∨ nt_burned t = true → nt_owner t' = nt_owner t).
Lemma later_refl t : later t t.
Proof. by unfold later. Qed.
Lemma later_trans t1 t2 t3 : later t1 t2 → later t2 t3 → later t1 t3.
Proof. unfold later. intros (E1 & B1 & O1) (E2 & B2 & O2). split_and!; [congruence|auto|]. intros [Ht|Hb].
  - rewrite O2 by (left; congruence). auto.
  - rewrite O2 by (right; auto). auto.
Qed.

Lemma effect_later caller c d i t :
  effect caller c d → nc_tokens c !! i = Some t → ∃ t', nc_tokens d !! i = Some t' ∧ later t t'.
Proof.
  assert (Halter : ∀ j f t0, nc_tokens c !! j = Some t0 → later t0 (f t0) →
    nc_tokens c !! i = Some t → ∃ t', alter f j (nc_tokens c) !! i = Some t' ∧ later t t').
  { intros j f t0 Hj Hf Hi. destruct (decide (i = j)) as [->|Hne].
    - rewrite lookup_alter_eq, Hj. simplify_eq. by eexists.
    - rewrite lookup_alter_ne by done. exists t. split; [done|apply later_refl]. }
  destruct 1 as [d Et _ _ _ _ _ _|to j uri tr nb ns nm _ Hn _ _ _ _
    |from to j t0 nf nt Hl Ho Htr _ _ _ _ _ _|j t0 nb ns Hl _ _ _|j t0 f Hl Ef]; intros Hi.
  - rewrite Et. exists t. split; [done|apply later_refl].
  - simpl. rewrite lookup_insert_ne by congruence. exists t. split; [done|apply later_refl].
  - apply live_some in Hl as [Hj Hb]. apply (Halter j _ t0 Hj); [|done]. unfold later. simpl. naive_solver congruence.
  - apply live_some in Hl as [Hj Hb]. apply (Halter j _ t0 Hj); [|done]. unfold later. simpl. naive_solver.
  - apply live_some in Hl as [Hj Hb]. injection Ef as _ _ Fo Ft Fb.
    apply (Halter j _ t0 Hj); [|done]. unfold later. naive_solver congruence.
Qed.
Lemma run_later ops c i t :
  nc_tokens c !! i = Some t → ∃ t', nc_tokens (nft_run ops c) !! i = Some t' ∧ later t t'.
Proof.
  revert c t. induction ops as [|op ops IH]; intros c t Hi; [exists t; split; [done|apply later_refl]|].
  destruct (effect_later _ _ _ i t (run_nft_effect op c) Hi) as (t1 & H1 & L1).
  destruct (IH _ t1 H1) as (t2 & H2 & L2). exists t2. split; [done|by eapply later_trans].
Qed.

(** A soulbound token never changes hands: whoever calls what, it is with the
    owner it was minted to, or burned. *)
Theorem soulbound_never_moves c i t ops :
  live_token c i = Some t → nt_transferable t = false →
  owner_of (nft_run ops c) i = Some (nt_owner t) ∨ owner_of (nft_run ops c) i = None.
Proof.
  intros [Hi Hb]%live_some Ht. destruct (run_later ops c i t Hi) as (t' & Hi' & _ & _ & Ho).
  unfold owner_of, live_token. rewrite Hi'. destruct (nt_burned t'); [by right|left]. simpl. f_equal. auto.
Qed.
Lemma soulbound_never_moves_witness :
  let c := nft_run [NMint "admin" "alice" 1 "" (Some false)]
    (NftCollection_new "c" "admin" "Proof" "PRF" "u/" None true true) in
  let ops := [NSetAll "alice" "alice" "eve" true; NApprove "alice" "eve" 1; NTransfer "eve" "alice" "eve" 1] in
  owner_of (nft_run ops c) 1 = Some "alice" ∨ owner_of (nft_run ops c) 1 = None.
Proof.
  intros c ops. apply (soulbound_never_moves c 1 (NftToken_new "c" 1 "alice" "" false)); by vm_compute.
Defined.

(** A burned id is retired: it has no owner ever after and cannot be minted again. *)
Theorem burned_id_retired c i t ops caller to uri tr :
  nc_tokens c !! i = Some t → nt_burned t = true →
  let d := nft_run ops c in
  owner_of d i = None ∧ (run_nft (NMint caller to i uri tr) d).1 = d ∧
  ∀ ev, (run_nft (NMint caller to i uri tr) d).2 ≠ NOk ev.
Proof.
  intros Hi Hb d. destruct (run_later ops c i t Hi) as (t' & Hi' & _ & Hb' & _).
  split; [unfold owner_of, live_token; fold d in Hi'; by rewrite Hi', (Hb' Hb)|].
  fold d in Hi'. simpl. unfold nft_mint.
  cbv [mbind nst_bind mret nst_ret nget nput nfail_if nok_or].
  rewrite (bool_decide_eq_true_2 (is_Some (nc_tokens d !! i))) by (by eexists).
  destruct (negb _); [done|]. by destruct (is_empty to).
Qed.
Lemma burned_id_retired_witness :
  let c := nft_run [NMint "admin" "alice" 1 "" None; NBurn "alice" 1]
    (NftCollection_new "c" "admin" "Proof" "PRF" "u/" None true true) in
  let d := nft_run [NFreeze "admin"] c in
  owner_of d 1 = None ∧ (run_nft (NMint "admin" "bob" 1 "" None) d).1 = d ∧
  ∀ ev, (run_nft (NMint "admin" "bob" 1 "" None) d).2 ≠ NOk ev.
Proof.
  intros c. exact (burned_id_retired c 1 (mark_burned (NftToken_new "c" 1 "alice" "" true)) [NFreeze "admin"]
    "admin" "bob" "" None ltac:(by vm_compute) ltac:(by vm_compute)).
Defined.

(** An owner loses a token only by its own act, by the act of the spender it
    approved or of an operator it appointed, or when the collection's admin
    burns it; and nothing moves while token or collection is frozen. *)
Theorem loss_needs_authority op c i a :
  owner_of c i = Some a → owner_of (run_nft op c).1 i ≠ Some a →
  (owner_of (run_nft op c).1 i = None ∧ (caller_of op = a ∨ caller_of op = nc_admin c)) ∨
  (∃ b t, owner_of (run_nft op c).1 i = Some b ∧ live_token c i = Some t ∧ nt_frozen t = false ∧
    nc_frozen c = false ∧
    (caller_of op = a ∨ get_approved c i = Some (caller_of op) ∨ is_approved_for_all c a (caller_of op) = true)).
Proof.
  intros (t & Hl & <-)%owner_live Hne. pose proof Hl as [Hi Hb]%live_some.
  assert (Hother : ∀ j f, i ≠ j → owner_of (on_token j f c) i = owner_of c i).
  { intros j f Hj. unfold owner_of, live_token, on_token. simpl. by rewrite lookup_alter_ne. }
  destruct (run_nft_effect op c) as [d Et _ _ _ _ _ _|to j uri tr nb ns nm _ Hn _ _ _ _
    |from to j t0 nf nt Hl0 Ho Htr Hfr Hcf _ Hau _ _|j t0 nb ns Hl0 Hau _ _|j t0 f Hl0 Ef].
  - destruct Hne. unfold owner_of, live_token. rewrite Et. by rewrite Hi, Hb.
  - destruct Hne. unfold owner_of, live_token. simpl. rewrite lookup_insert_ne by congruence. by rewrite Hi, Hb.
  - destruct (decide (i = j)) as [<-|Hj].
    + simplify_eq. right. exists to, t. unfold transfer_authorized in Hau.
      split_and!; try done.
      * unfold owner_of, live_token. simpl. by rewrite lookup_alter_eq, Hi; simpl; rewrite Hb.
      * apply orb_true_iff in Hau as [[?|?]%orb_true_iff|?]; nft_bools; auto.
    + destruct Hne. unfold owner_of, live_token. simpl. rewrite lookup_alter_ne by done. by rewrite Hi, Hb.
  - destruct (decide (i = j)) as [<-|Hj].
    + simplify_eq. left. split; [|done]. unfold owner_of, live_token. simpl. by rewrite lookup_alter_eq, Hi.
    + destruct Hne. unfold owner_of, live_token. simpl. rewrite lookup_alter_ne by done. by rewrite Hi, Hb.
  - destruct Hne. destruct (decide (i = j)) as [<-|Hj].
    + assert (t0 = t) as -> by congruence. injection Ef as _ _ Fo _ Fb. unfold owner_of, live_token. simpl.
      rewrite lookup_alter_eq, Hi. simpl. by rewrite Fb, Hb, <- Fo.
    + rewrite Hother by done. unfold owner_of. by rewrite Hl.
Qed.
Lemma loss_needs_authority_witness :
  let c := nft_run [NMint "admin" "alice" 1 "" None; NApprove "alice" "eve" 1]
    (NftCollection_new "c" "admin" "Proof" "PRF" "u/" None true true) in
  let op := NTransfer "eve" "alice" "bob" 1 in
  ∃ b t, owner_of (run_nft op c).1 1 = Some b ∧ live_token c 1 = Some t ∧ nt_frozen t = false ∧
    nc_frozen c = false ∧
    (caller_of op = "alice" ∨ get_approved c 1 = Some (caller_of op) ∨
      is_approved_for_all c "alice" (caller_of op) = true).
Proof.
  intros c op. destruct (loss_needs_authority op c 1 "alice") as [[E _]|E]; [by vm_compute| | |exact E].
  - intros E. vm_compute in E. discriminate E.
  - vm_compute in E. discriminate E.
Defined.
