(* ===== verification/Emission.v ===== *)
(** * Emission

    Models crates/sentrix-core/src/tokenomics.rs and [get_block_reward] of
    blockchain_block_accessors.rs: the halving schedule, its fork, and the cap
    on what is ever minted.  The fork height, an environment setting, is a
    parameter; [U64_MAX] disables the fork. *)

From S2P Require Import Prelude Authority.

Definition MAX_SUPPLY : Z := 210000000 * 100000000.
Definition MAX_SUPPLY_V2 : Z := 315000000 * 100000000.
Definition BLOCK_REWARD : Z := 100000000.
Definition HALVING_INTERVAL : Z := 42000000.
Definition HALVING_INTERVAL_V2 : Z := 126000000.

(** [fork != u64::MAX && height >= fork], the shape of every fork test. *)
Definition fork_active (fork height : Z) : bool := negb (fork =? U64_MAX) && (fork <=? height).

Section emission.
Context (fork : Z).

Definition max_supply_for (height : Z) : Z :=
  if fork_active fork height then MAX_SUPPLY_V2 else MAX_SUPPLY.
Definition halving_interval_for (height : Z) : Z :=
  if fork_active fork height then HALVING_INTERVAL_V2 else HALVING_INTERVAL.
(** [x.try_into().unwrap_or(u32::MAX)] *)
Definition to_u32 (x : Z) : Z := if x <=? U32_MAX then x else U32_MAX.
Definition halvings_at (height : Z) : Z :=
  if (fork =? U64_MAX) || (height <? fork) then to_u32 (height / HALVING_INTERVAL)
  else to_u32 (saturating_sub height fork / HALVING_INTERVAL_V2).

(** [BLOCK_REWARD.checked_shr(halvings).unwrap_or(0)] *)
Definition subsidy (height : Z) : Z :=
  if halvings_at height <? 64 then Z.shiftr BLOCK_REWARD (halvings_at height) else 0.

(** [get_block_reward] at the current height, with [total_minted] so far. *)
Definition get_block_reward (height total_minted : Z) : Z :=
  let remaining := saturating_sub (max_supply_for height) total_minted in
  if remaining =? 0 then 0
  else if subsidy height =? 0 then 0 else Z.min (subsidy height) remaining.

(** What has been minted once block [n] is on the chain: each block mints the
    reward computed at the height before it. *)
Fixpoint minted_after (n : nat) (minted : Z) : Z :=
  match n with
  | O => minted
  | S n => let m := minted_after n minted in m + get_block_reward (Z.of_nat n) m
  end.

(** ** The schedule *)

Lemma shiftr_pow x k : 0 <= k → Z.shiftr x k = x / 2 ^ k.
Proof. apply Z.shiftr_div_pow2. Qed.

(** Era [k] pays [BLOCK_REWARD] halved [k] times; from era 64 on the shift count
    would exceed the width, and the division is zero anyway. *)
Definition era_reward (k : Z) : Z := BLOCK_REWARD / 2 ^ k.

Lemma era_reward_zero k : 64 <= k → era_reward k = 0.
Proof.
  intros Hk. unfold era_reward. apply Z.div_small. unfold BLOCK_REWARD.
  split; [lia|]. apply Z.lt_le_trans with (2 ^ 64); [lia|]. apply Z.pow_le_mono_r; lia.
Qed.
Lemma era_reward_half k : 0 <= k → 2 * era_reward (k + 1) <= era_reward k.
Proof.
  intros Hk. unfold era_reward. rewrite Z.pow_add_r, <-Z.div_div by lia.
  change (2 ^ 1) with 2. pose proof (Z.mul_div_le (BLOCK_REWARD / 2 ^ k) 2). lia.
Qed.
Lemma era_reward_nonneg k : 0 <= era_reward k.
Proof.
  unfold era_reward, BLOCK_REWARD. destruct (Z.le_gt_cases 0 k).
  - apply Z.div_pos; [lia|]. by apply Z.pow_pos_nonneg.
  - by rewrite Z.pow_neg_r, Zdiv_0_r.
Qed.

(** The era of a height, in the schedule that applies there. *)
Definition era_at (height : Z) : Z :=
  if fork_active fork height then (height - fork) / HALVING_INTERVAL_V2 else height / HALVING_INTERVAL.

Lemma subsidy_era h : 0 <= h → 0 <= fork → subsidy h = era_reward (era_at h).
Proof.
  intros Hh Hf.
  assert (E : halvings_at h = to_u32 (era_at h)).
  { unfold halvings_at, era_at, fork_active, saturating_sub. rewrite Z.ltb_antisym.
    destruct (fork =? U64_MAX); simpl; [done|].
    destruct (Z.leb_spec fork h); simpl; [|done]. by rewrite Z.max_r by lia. }
  assert (H0 : 0 <= era_at h).
  { unfold era_at, fork_active. destruct (negb _ && _) eqn:Ef; bool_hyps;
      apply Z.div_pos; unfold HALVING_INTERVAL, HALVING_INTERVAL_V2; lia. }
  unfold subsidy. rewrite E. unfold to_u32. destruct (Z.leb_spec (era_at h) U32_MAX).
  - destruct (Z.ltb_spec (era_at h) 64); [by apply shiftr_pow|by rewrite era_reward_zero].
  - simpl. rewrite era_reward_zero; [done|]. ulia.
Qed.

(** ** Sums over eras *)

(** What blocks [0 .. n-1] pay with eras of [interval] blocks. *)
Definition era_sum (interval : Z) (n : nat) : Z :=
  sum_of (λ i, era_reward (Z.of_nat i / interval)) (seq 0 n).

Lemma era_sum_S interval n :
  era_sum interval (S n) = era_sum interval n + era_reward (Z.of_nat n / interval).
Proof. unfold era_sum. rewrite seq_S, sum_of_app. unfold sum_of. simpl. lia. Qed.

(** The geometric series: twice one era at the full reward bounds everything. *)
Lemma era_sum_bound interval n :
  0 < interval → era_sum interval n <= 2 * BLOCK_REWARD * interval.
Proof.
  intros HI.
  enough (Hs : era_sum interval n
    + (2 * interval - Z.of_nat n mod interval) * era_reward (Z.of_nat n / interval)
    <= 2 * BLOCK_REWARD * interval).
  { pose proof (era_reward_nonneg (Z.of_nat n / interval)).
    pose proof (Z.mod_pos_bound (Z.of_nat n) interval HI). nia. }
  induction n as [|n IH].
  - change (Z.of_nat 0) with 0. rewrite Z.mod_0_l, Z.div_0_l by lia.
    unfold era_sum, era_reward, sum_of. simpl. rewrite Z.div_1_r. lia.
  - rewrite era_sum_S. set (x := Z.of_nat n) in *. replace (Z.of_nat (S n)) with (x + 1) by lia.
    pose proof (Z.div_mod x interval ltac:(lia)) as Hx.
    pose proof (Z.mod_pos_bound x interval HI) as Hr.
    destruct (decide (x mod interval = interval - 1)) as [Hlast|Hin].
    + assert ((x + 1) / interval = x / interval + 1 ∧ (x + 1) mod interval = 0) as [-> ->].
      { split; symmetry; [apply (Z.div_unique _ _ _ 0)|apply (Z.mod_unique _ _ (x / interval + 1))]; nia. }
      pose proof (era_reward_half (x / interval) ltac:(apply Z.div_pos; lia)). nia.
    + assert ((x + 1) / interval = x / interval ∧ (x + 1) mod interval = x mod interval + 1)
        as [-> ->].
      { split; symmetry; [apply (Z.div_unique _ _ _ (x mod interval + 1))
                         |apply (Z.mod_unique _ _ (x / interval))]; nia. }
      nia.
Qed.

(** ** Minted supply *)

Lemma subsidy_nonneg h : 0 <= subsidy h.
Proof. unfold subsidy. case_match; [|done]. apply Z.shiftr_nonneg. unfold BLOCK_REWARD. lia. Qed.

Lemma get_block_reward_range h m :
  m <= max_supply_for h →
  0 <= get_block_reward h m <= subsidy h ∧ m + get_block_reward h m <= max_supply_for h.
Proof.
  intros Hm. unfold get_block_reward, saturating_sub. pose proof (subsidy_nonneg h).
  repeat case_match; bool_hyps; lia.
Qed.

Lemma max_supply_for_mono h h' : h <= h' → max_supply_for h <= max_supply_for h'.
Proof.
  intros Hh. unfold max_supply_for, fork_active, MAX_SUPPLY, MAX_SUPPLY_V2.
  destruct (negb _); simpl; [|lia]. destruct (Z.leb_spec fork h), (Z.leb_spec fork h'); lia.
Qed.

Lemma minted_after_range n m :
  m <= max_supply_for 0 → m <= minted_after n m <= max_supply_for (Z.of_nat n).
Proof.
  intros Hm. induction n as [|n IH]; simpl minted_after; [done|].
  pose proof (get_block_reward_range (Z.of_nat n) (minted_after n m)) as [[??] ?]; [lia|].
  pose proof (max_supply_for_mono (Z.of_nat n) (Z.of_nat (S n))). lia.
Qed.

(** However long the chain runs, what has been minted never decreases and
    never exceeds the cap in force at its height, 210 million coins before the
    fork and 315 million after it. *)
Theorem emission_capped m n k :
  m <= MAX_SUPPLY → (n <= k)%nat →
  m <= minted_after n m <= minted_after k m ∧
  minted_after k m <= max_supply_for (Z.of_nat k) <= MAX_SUPPLY_V2.
Proof.
  intros Hm Hnk.
  assert (Hm0 : m <= max_supply_for 0)
    by (unfold max_supply_for, MAX_SUPPLY, MAX_SUPPLY_V2 in *; case_match; lia).
  pose proof (minted_after_range n m Hm0). pose proof (minted_after_range k m Hm0).
  assert (max_supply_for (Z.of_nat k) <= MAX_SUPPLY_V2)
    by (unfold max_supply_for, MAX_SUPPLY, MAX_SUPPLY_V2; case_match; lia).
  split; [split; [lia|]|lia]. clear -Hnk Hm0. induction Hnk as [|k Hk IH]; [done|].
  simpl. pose proof (minted_after_range k m Hm0).
  pose proof (get_block_reward_range (Z.of_nat k) (minted_after k m)). lia.
Qed.

(** Without the fork the cap never binds: from the genesis premine of 63
    million coins the chain mints exactly the halving schedule, which adds up to
    less than 84 million, so at most 147 of the 210 million coins ever exist. *)
Theorem emission_v1_schedule n :
  fork = U64_MAX →
  minted_after n TOTAL_PREMINE = TOTAL_PREMINE + era_sum HALVING_INTERVAL n ∧
  TOTAL_PREMINE + era_sum HALVING_INTERVAL n <= 147000000 * 100000000.
Proof.
  intros Hf. assert (Hb : ∀ n, era_sum HALVING_INTERVAL n <= 84000000 * 100000000).
  { intros k. pose proof (era_sum_bound HALVING_INTERVAL k). unfold HALVING_INTERVAL, BLOCK_REWARD in *. lia. }
  split; [|pose proof (Hb n); unfold TOTAL_PREMINE; lia].
  induction n as [|n IH]; [done|]. simpl. rewrite IH, era_sum_S.
  assert (Hs : subsidy (Z.of_nat n) = era_reward (Z.of_nat n / HALVING_INTERVAL)).
  { rewrite subsidy_era by (rewrite ?Hf; ulia). unfold era_at, fork_active. by rewrite Hf. }
  unfold get_block_reward, max_supply_for, fork_active, saturating_sub. rewrite Hf. simpl. rewrite Hs.
  pose proof (Hb n) as H1. pose proof (Hb (S n)) as H2. rewrite era_sum_S in H2.
  unfold TOTAL_PREMINE, MAX_SUPPLY in *.
  repeat case_match; bool_hyps; lia.
Qed.

(** The subsidy never grows, if the fork activates in the first era. *)
Lemma era_reward_anti k j : 0 <= k <= j → era_reward j <= era_reward k.
Proof.
  intros [Hk Hj]. unfold era_reward. apply Z.div_le_compat_l; [unfold BLOCK_REWARD; lia|].
  split; [by apply Z.pow_pos_nonneg|]. apply Z.pow_le_mono_r; lia.
Qed.

(** The subsidy never increases with the height, provided the fork comes
    before the first halving, as the schedule assumes. *)
Theorem subsidy_decreases h h' :
  0 <= fork <= HALVING_INTERVAL → 0 <= h <= h' → subsidy h' <= subsidy h.
Proof.
  intros Hf Hh. rewrite !subsidy_era by lia. unfold era_at, fork_active.
  destruct (Z.eqb_spec fork U64_MAX) as [->|_]; [unfold HALVING_INTERVAL in *; ulia|]. simpl.
  unfold HALVING_INTERVAL, HALVING_INTERVAL_V2 in *.
  destruct (Z.leb_spec fork h), (Z.leb_spec fork h'); try lia; apply era_reward_anti.
  - split; [apply Z.div_pos; lia|apply Z.div_le_mono; lia].
  - rewrite (Z.div_small h) by lia. split; [lia|apply Z.div_pos; lia].
  - split; [apply Z.div_pos; lia|apply Z.div_le_mono; lia].
Qed.
End emission.

(** A fork in a later era would raise the reward back. *)
Example late_fork_raises_reward :
  subsidy 50000000 49999999 = 50000000 ∧ subsidy 50000000 50000000 = 100000000.
Proof. split; reflexivity. Qed.

Lemma emission_capped_witness :
  TOTAL_PREMINE <= minted_after 381651 3 TOTAL_PREMINE <= minted_after 381651 5 TOTAL_PREMINE ∧
  minted_after 381651 5 TOTAL_PREMINE <= max_supply_for 381651 5 <= MAX_SUPPLY_V2.
Proof. apply (emission_capped 381651 TOTAL_PREMINE 3 5); [vm_compute; discriminate|lia]. Defined.

Lemma emission_v1_schedule_witness :
  minted_after U64_MAX 4 TOTAL_PREMINE = TOTAL_PREMINE + era_sum HALVING_INTERVAL 4 ∧
  TOTAL_PREMINE + era_sum HALVING_INTERVAL 4 <= 147000000 * 100000000.
Proof. apply (emission_v1_schedule U64_MAX 4). reflexivity. Defined.

Lemma subsidy_decreases_witness : subsidy 381651 200000000 <= subsidy 381651 381651.
Proof.
  apply (subsidy_decreases 381651 381651 200000000); [unfold HALVING_INTERVAL; lia|lia].
Defined.
