(* ===== verification/Staking.v ===== *)
(** * Stake registry: data and operations

    Model of crates/sentrix-staking/src/staking.rs: validators, delegations,
    the unbonding queue, slashing, the active set and reward distribution.
    This file holds the definitions; StakingProps.v holds the theorems. *)

From S2P Require Import Prelude.

(** ** Constants *)

Definition MIN_SELF_STAKE : Z := 15000 * 100000000.
Definition MAX_ACTIVE_VALIDATORS : nat := 21.
Definition MIN_BFT_VALIDATORS : Z := 4.
Definition UNBONDING_PERIOD : Z := 201600.
Definition MAX_DELEGATIONS_PER_ACCOUNT : Z := 10.
Definition MAX_UNBONDING_ENTRIES : Z := 7.
Definition MAX_UNBONDING_PER_VALIDATOR : Z := 10000.
Definition REDELEGATE_COOLDOWN : Z := 201600.
Definition MIN_COMMISSION : Z := 500.
Definition MAX_COMMISSION : Z := 2000.
Definition MAX_COMMISSION_CHANGE_PER_EPOCH : Z := 200.
(** From crates/sentrix-staking/src/epoch.rs. *)
Definition EPOCH_LENGTH : Z := 28800.

(** ** Data *)

Record ValidatorStake := mkValidator {
  v_address : string;
  v_self_stake : Z;
  v_total_delegated : Z;
  v_commission_rate : Z;
  v_max_commission_rate : Z;
  v_is_jailed : bool;
  v_jail_until : Z;
  v_is_tombstoned : bool;
  v_blocks_signed : Z;
  v_blocks_missed : Z;
  v_pending_rewards : Z;
  v_registration_height : Z;
  v_last_commission_change_height : Z;
}.
#[global] Instance ValidatorStake_eta : Eta ValidatorStake := λ v,
  mkValidator (v_address v) (v_self_stake v) (v_total_delegated v) (v_commission_rate v)
    (v_max_commission_rate v) (v_is_jailed v) (v_jail_until v) (v_is_tombstoned v)
    (v_blocks_signed v) (v_blocks_missed v) (v_pending_rewards v)
    (v_registration_height v) (v_last_commission_change_height v).

Definition v_total_stake (v : ValidatorStake) : Z :=
  saturating_add U64_MAX (v_self_stake v) (v_total_delegated v).
Definition is_active_eligible (v : ValidatorStake) : bool :=
  negb (v_is_jailed v) && negb (v_is_tombstoned v) && (MIN_SELF_STAKE <=? v_self_stake v).

Record DelegationEntry := mkDelegation {
  de_delegator : string;
  de_validator : string;
  de_amount : Z;
  de_height : Z;
}.
#[global] Instance DelegationEntry_eta : Eta DelegationEntry := λ e,
  mkDelegation (de_delegator e) (de_validator e) (de_amount e) (de_height e).
#[global] Instance DelegationEntry_eq_dec : EqDecision DelegationEntry.
Proof. solve_decision. Defined.

Record UnbondingEntry := mkUnbonding {
  ue_delegator : string;
  ue_validator : string;
  ue_amount : Z;
  ue_completion_height : Z;
}.
#[global] Instance UnbondingEntry_eta : Eta UnbondingEntry := λ e,
  mkUnbonding (ue_delegator e) (ue_validator e) (ue_amount e) (ue_completion_height e).
#[global] Instance UnbondingEntry_eq_dec : EqDecision UnbondingEntry.
Proof. solve_decision. Defined.

Record StakeRegistry := mkRegistry {
  validators : gmap string ValidatorStake;
  delegations : gmap string (list DelegationEntry);
  unbonding_queue : gmap Z (list UnbondingEntry);
  redelegate_cooldowns : gmap string Z;
  active_set : list string;
  delegator_rewards : gmap string Z;
}.
#[global] Instance StakeRegistry_eta : Eta StakeRegistry := λ r,
  mkRegistry (validators r) (delegations r) (unbonding_queue r) (redelegate_cooldowns r)
    (active_set r) (delegator_rewards r).

Definition StakeRegistry_new : StakeRegistry := mkRegistry ∅ ∅ ∅ ∅ [] ∅.

Notation invalid_tx m := (InvalidTransaction m%string).

(** ** Shared steps *)

(** [self.validators.get_mut(a).ok_or_else(..)?] *)
Definition find_validator (a : string) (msg : string) : st StakeRegistry ValidatorStake :=
  ov ← gets (λ r, validators r !! a) ;
  ok_or ov (InvalidTransaction msg).
(** Write back through the mutable reference. *)
Definition put_validator (a : string) (v : ValidatorStake) (r : StakeRegistry)
    : StakeRegistry :=
  r <| validators := <[a := v]> (validators r) |>.
Definition put_delegations (d : string) (es : list DelegationEntry) (r : StakeRegistry)
    : StakeRegistry :=
  r <| delegations := <[d := es]> (delegations r) |>.

(** [entries.iter_mut().find(|e| e.validator == v)]: index and entry. *)
Definition find_entry (v : string) (es : list DelegationEntry)
    : option (nat * DelegationEntry) :=
  list_find (λ e, de_validator e = v) es.
(** [entries.retain(|e| !(e.validator == v && e.amount == 0))] *)
Definition drop_empty (v : string) (es : list DelegationEntry) : list DelegationEntry :=
  filter (λ e, ¬ (de_validator e = v ∧ de_amount e = 0)) es.

(** Every unbonding entry, of all heights. *)
Definition all_unbonding (r : StakeRegistry) : list UnbondingEntry :=
  concat (map_to_list (unbonding_queue r)).*2.

(** ** Registration and self-stake *)

Definition new_validator (address : string) (self_stake commission_rate current_height : Z)
    : ValidatorStake := {|
  v_address := address;
  v_self_stake := self_stake;
  v_total_delegated := 0;
  v_commission_rate := commission_rate;
  v_max_commission_rate :=
    Z.min (saturating_add U16_MAX commission_rate (MAX_COMMISSION_CHANGE_PER_EPOCH * 5))
      MAX_COMMISSION;
  v_is_jailed := false;
  v_jail_until := 0;
  v_is_tombstoned := false;
  v_blocks_signed := 0;
  v_blocks_missed := 0;
  v_pending_rewards := 0;
  v_registration_height := current_height;
  v_last_commission_change_height := 0;
|}.

Definition commission_in_range (c : Z) : bool :=
  (MIN_COMMISSION <=? c) && (c <=? MAX_COMMISSION).

Definition register_validator (address : string)
    (self_stake commission_rate current_height : Z) : st StakeRegistry unit :=
  ov ← gets (λ r, validators r !! address) ;
  fail_if (bool_decide (is_Some ov)) (invalid_tx "validator already registered") ;;
  fail_if (self_stake <? MIN_SELF_STAKE)
    (invalid_tx ("self-stake " +:+ pretty self_stake +:+ " below minimum "
                 +:+ pretty MIN_SELF_STAKE)) ;;
  fail_if (negb (commission_in_range commission_rate))
    (invalid_tx ("commission " +:+ pretty commission_rate +:+ " out of range ["
                 +:+ pretty MIN_COMMISSION +:+ ", " +:+ pretty MAX_COMMISSION +:+ "]")) ;;
  modify (put_validator address
            (new_validator address self_stake commission_rate current_height)).

Definition add_self_stake (validator : string) (amount : Z) : st StakeRegistry unit :=
  fail_if (amount =? 0) (invalid_tx "AddSelfStake: amount must be > 0") ;;
  val ← find_validator validator "validator not found" ;
  fail_if (v_is_tombstoned val)
    (invalid_tx "AddSelfStake: tombstoned validators cannot add self_stake") ;;
  s ← ok_or (checked_add U64_MAX (v_self_stake val) amount)
        (invalid_tx "AddSelfStake: self_stake overflow") ;
  modify (put_validator validator (val <| v_self_stake := s |>)).

(** ** Delegation *)

(** Add [amount] to the delegator's entry for [validator], creating the entry
    when it has fewer than the maximum. *)
Definition add_delegation (delegator validator : string) (amount current_height : Z)
    : st StakeRegistry unit :=
  modify (λ r, put_delegations delegator (default [] (delegations r !! delegator)) r) ;;
  es ← gets (λ r, default [] (delegations r !! delegator)) ;
  match find_entry validator es with
  | Some (i, entry) =>
      a ← ok_or (checked_add U64_MAX (de_amount entry) amount)
            (invalid_tx "delegation overflow") ;
      modify (put_delegations delegator (<[i := entry <| de_amount := a |>]> es))
  | None =>
      fail_if (MAX_DELEGATIONS_PER_ACCOUNT <=? Z.of_nat (length es))
        (invalid_tx ("max " +:+ pretty MAX_DELEGATIONS_PER_ACCOUNT
                     +:+ " delegations per account")) ;;
      modify (put_delegations delegator
                (es ++ [mkDelegation delegator validator amount current_height]))
  end.

Definition delegate (delegator validator : string) (amount current_height : Z)
    : st StakeRegistry unit :=
  fail_if (amount =? 0) (invalid_tx "delegation amount must be > 0") ;;
  val ← find_validator validator "validator not found" ;
  fail_if (v_is_tombstoned val) (invalid_tx "cannot delegate to tombstoned validator") ;;
  add_delegation delegator validator amount current_height ;;
  val ← find_validator validator "validator not found" ;
  t ← ok_or (checked_add U64_MAX (v_total_delegated val) amount)
        (invalid_tx "delegated total overflow") ;
  modify (put_validator validator (val <| v_total_delegated := t |>)).

(** Take [amount] out of the delegator's entry for [validator]. *)
Definition reduce_delegation (delegator validator : string) (amount : Z)
    (msg_missing msg_exceeds : string) : st StakeRegistry unit :=
  oes ← gets (λ r, delegations r !! delegator) ;
  es ← ok_or oes (invalid_tx "no delegations found") ;
  p ← ok_or (find_entry validator es) (InvalidTransaction msg_missing) ;
  let '(i, entry) := p in
  fail_if (de_amount entry <? amount) (InvalidTransaction msg_exceeds) ;;
  let a := saturating_sub (de_amount entry) amount in
  let es := <[i := entry <| de_amount := a |>]> es in
  modify (put_delegations delegator es) ;;
  if a =? 0 then modify (put_delegations delegator (drop_empty validator es)) else mret tt.

Definition unbonding_to (validator : string) (r : StakeRegistry) : list UnbondingEntry :=
  filter (λ u, ue_validator u = validator) (all_unbonding r).

Definition queue_unbonding (u : UnbondingEntry) (r : StakeRegistry) : StakeRegistry :=
  let k := ue_completion_height u in
  r <| unbonding_queue :=
       <[k := default [] (unbonding_queue r !! k) ++ [u]]> (unbonding_queue r) |>.

Definition undelegate (delegator validator : string) (amount current_height : Z)
    : st StakeRegistry unit :=
  fail_if (amount =? 0) (invalid_tx "undelegation amount must be > 0") ;;
  reduce_delegation delegator validator amount
    "delegation to this validator not found" "undelegation exceeds delegated amount" ;;
  us ← gets (unbonding_to validator) ;
  fail_if (MAX_UNBONDING_ENTRIES <=?
             Z.of_nat (length (filter (λ u, ue_delegator u = delegator) us)))
    (invalid_tx ("max " +:+ pretty MAX_UNBONDING_ENTRIES
                 +:+ " unbonding entries per delegation")) ;;
  fail_if (MAX_UNBONDING_PER_VALIDATOR <=? Z.of_nat (length us))
    (invalid_tx ("max " +:+ pretty MAX_UNBONDING_PER_VALIDATOR
                 +:+ " unbonding entries per validator reached")) ;;
  val ← find_validator validator "validator not found" ;
  modify (put_validator validator
            (val <| v_total_delegated := saturating_sub (v_total_delegated val) amount |>)) ;;
  let completion := saturating_add U64_MAX current_height UNBONDING_PERIOD in
  modify (queue_unbonding (mkUnbonding delegator validator amount completion)).

Definition redelegate (delegator from_validator to_validator : string)
    (amount current_height : Z) : st StakeRegistry unit :=
  fail_if (bool_decide (from_validator = to_validator))
    (invalid_tx "cannot redelegate to same validator") ;;
  fail_if (amount =? 0) (invalid_tx "redelegate amount must be > 0") ;;
  cd ← gets (λ r, redelegate_cooldowns r !! delegator) ;
  match cd with
  | Some last =>
      fail_if (current_height <? last)
        (invalid_tx ("redelegate cooldown active until height " +:+ pretty last))
  | None => mret tt
  end ;;
  otv ← gets (λ r, validators r !! to_validator) ;
  fail_if (bool_decide (otv = None)) (invalid_tx "target validator not found") ;;
  fail_if (default true (v_is_tombstoned <$> otv))
    (invalid_tx "cannot redelegate to tombstoned validator") ;;
  reduce_delegation delegator from_validator amount
    "delegation to source validator not found" "redelegate exceeds delegated amount" ;;
  ofv ← gets (λ r, validators r !! from_validator) ;
  match ofv with
  | Some val => modify (put_validator from_validator
      (val <| v_total_delegated := saturating_sub (v_total_delegated val) amount |>))
  | None => mret tt
  end ;;
  add_delegation delegator to_validator amount current_height ;;
  otv ← gets (λ r, validators r !! to_validator) ;
  match otv with
  | Some val =>
      t ← ok_or (checked_add U64_MAX (v_total_delegated val) amount)
            (invalid_tx "delegated total overflow") ;
      modify (put_validator to_validator (val <| v_total_delegated := t |>))
  | None => mret tt
  end ;;
  modify (λ r, r <| redelegate_cooldowns :=
    <[delegator := saturating_add U64_MAX current_height REDELEGATE_COOLDOWN]>
      (redelegate_cooldowns r) |>).

(** ** Active set *)

(** The comparator of [sort_by]: larger total stake first, then lower address. *)
Definition stake_order (a b : ValidatorStake) : Prop :=
  v_total_stake b < v_total_stake a ∨
  v_total_stake a = v_total_stake b ∧ String.le (v_address a) (v_address b).
#[global] Instance stake_order_dec : RelDecision stake_order.
Proof. intros a b. unfold stake_order. apply _. Defined.

Section with_hash_order.
Context `{HashOrder}.

Definition eligible_validators (r : StakeRegistry) : list ValidatorStake :=
  filter (λ v, is_active_eligible v = true) (hm_values (validators r)).
Definition compute_active_set (r : StakeRegistry) : list string :=
  v_address <$> take MAX_ACTIVE_VALIDATORS (merge_sort stake_order (eligible_validators r)).
Definition update_active_set (r : StakeRegistry) : StakeRegistry :=
  r <| active_set := compute_active_set r |>.

(** ** Slashing and jailing *)

(** The slash of one delegation entry: its share of [remaining], rounded up. *)
Definition slash_delegation (validator : string) (remaining delegated_before : Z)
    (e : DelegationEntry) : DelegationEntry :=
  if bool_decide (de_validator e = validator) then
    let num := saturating_mul U128_MAX (de_amount e) remaining in
    let entry_slash := div_ceil num delegated_before in
    e <| de_amount := saturating_sub (de_amount e) (as_u64 entry_slash) |>
  else e.

(** The inner loop over one delegator's entries, accumulating what survives. *)
Fixpoint slash_entries (validator : string) (remaining delegated_before : Z)
    (es : list DelegationEntry) (delegated_after : Z) : list DelegationEntry * Z :=
  match es with
  | [] => ([], delegated_after)
  | e :: es =>
      let e' := slash_delegation validator remaining delegated_before e in
      let acc := if bool_decide (de_validator e = validator)
                 then saturating_add U128_MAX delegated_after (de_amount e')
                 else delegated_after in
      let '(es', acc') := slash_entries validator remaining delegated_before es acc in
      (e' :: es', acc')
  end.

(** The outer loop over delegator keys. *)
Fixpoint slash_delegators (validator : string) (remaining delegated_before : Z)
    (keys : list string) (ds : gmap string (list DelegationEntry)) (delegated_after : Z)
    : gmap string (list DelegationEntry) * Z :=
  match keys with
  | [] => (ds, delegated_after)
  | key :: keys =>
      match ds !! key with
      | Some es =>
          let '(es', acc) :=
            slash_entries validator remaining delegated_before es delegated_after in
          slash_delegators validator remaining delegated_before keys (<[key := es']> ds) acc
      | None =>
          slash_delegators validator remaining delegated_before keys ds delegated_after
      end
  end.

Definition slash_unbonding (validator : string) (basis_points : Z) (u : UnbondingEntry)
    : UnbondingEntry :=
  if bool_decide (ue_validator u = validator) then
    let entry_slash := saturating_mul U128_MAX (ue_amount u) basis_points / 10000 in
    u <| ue_amount := saturating_sub (ue_amount u) (as_u64 entry_slash) |>
  else u.

Definition slash_queue (validator : string) (basis_points : Z)
    (q : gmap Z (list UnbondingEntry)) : gmap Z (list UnbondingEntry) :=
  (λ es : list UnbondingEntry, slash_unbonding validator basis_points <$> es) <$> q.

Definition slash (validator : string) (basis_points : Z) : st StakeRegistry Z :=
  val ← find_validator validator "validator not found" ;
  let total := v_total_stake val in
  p ← ok_or (checked_mul U128_MAX total basis_points)
        (invalid_tx "slash calculation overflow") ;
  let slash_amount := as_u64 (p / 10000) in
  let from_self := Z.min slash_amount (v_self_stake val) in
  let val := val <| v_self_stake := saturating_sub (v_self_stake val) from_self |> in
  modify (put_validator validator val) ;;
  let remaining := saturating_sub slash_amount from_self in
  (if (0 <? remaining) && (0 <? v_total_delegated val) then
     modify (λ r,
       let delegated_before := v_total_delegated val in
       let delegator_keys := sort_strings (hm_keys (delegations r)) in
       let '(ds, delegated_after) :=
         slash_delegators validator remaining delegated_before delegator_keys
           (delegations r) 0 in
       put_validator validator
         (val <| v_total_delegated :=
            if delegated_after <=? U64_MAX then delegated_after else U64_MAX |>)
         (r <| delegations := ds |>))
   else mret tt) ;;
  modify (λ r, r <| unbonding_queue :=
    slash_queue validator basis_points (unbonding_queue r) |>) ;;
  modify update_active_set ;;
  mret slash_amount.

Definition jail (validator : string) (duration current_height : Z)
    : st StakeRegistry unit :=
  val ← find_validator validator "validator not found" ;
  modify (put_validator validator
    (val <| v_is_jailed := true |>
         <| v_jail_until := saturating_add U64_MAX current_height duration |>)) ;;
  modify update_active_set.

Definition tombstone (validator : string) : st StakeRegistry unit :=
  val ← find_validator validator "validator not found" ;
  modify (put_validator validator
    (val <| v_is_jailed := true |> <| v_is_tombstoned := true |>
         <| v_jail_until := U64_MAX |>)) ;;
  modify update_active_set.

Definition unjail (validator : string) (current_height : Z) : st StakeRegistry unit :=
  val ← find_validator validator "validator not found" ;
  fail_if (v_is_tombstoned val) (invalid_tx "tombstoned validators cannot unjail") ;;
  fail_if (current_height <? v_jail_until val)
    (invalid_tx ("jail period active until height " +:+ pretty (v_jail_until val))) ;;
  fail_if (v_self_stake val <? MIN_SELF_STAKE)
    (invalid_tx "self-stake below minimum after slashing — add more stake first") ;;
  modify (put_validator validator (val <| v_is_jailed := false |> <| v_jail_until := 0 |>)) ;;
  modify update_active_set.

Definition force_unjail (validator : string) : st StakeRegistry unit :=
  val ← find_validator validator "validator not found" ;
  fail_if (v_is_tombstoned val) (invalid_tx "tombstoned validators cannot unjail") ;;
  let s := if v_self_stake val <? MIN_SELF_STAKE then MIN_SELF_STAKE else v_self_stake val in
  modify (put_validator validator
    (val <| v_self_stake := s |> <| v_is_jailed := false |> <| v_jail_until := 0 |>)).

(** ** Rewards *)

Definition distribute_to_single_validator (validator_addr : string) (total_reward : Z)
    : st StakeRegistry unit :=
  val ← find_validator validator_addr "proposer not found in stake registry" ;
  let commission :=
    as_u64 (saturating_mul U128_MAX total_reward (v_commission_rate val) / 10000) in
  let delegator_pool := saturating_sub total_reward commission in
  let total_stake := v_total_stake val in
  let self_stake := v_self_stake val in
  let val := val <| v_pending_rewards :=
    saturating_add U64_MAX (v_pending_rewards val) commission |> in
  modify (put_validator validator_addr val) ;;
  if (total_stake =? 0) || (delegator_pool =? 0) then mret tt
  else
    let self_share := saturating_mul U128_MAX delegator_pool self_stake / total_stake in
    modify (put_validator validator_addr
      (val <| v_pending_rewards :=
         saturating_add U64_MAX (v_pending_rewards val) (as_u64 self_share) |>)).

(** The delegations to [validator_addr], delegator by delegator in key order. *)
Definition delegations_in_order (validator_addr : string) (r : StakeRegistry)
    : list DelegationEntry :=
  filter (λ e, de_validator e = validator_addr)
    (concat (omap (λ k, delegations r !! k) (sort_strings (hm_keys (delegations r))))).

Definition add_delegator_reward (r : StakeRegistry) (p : string * Z) : StakeRegistry :=
  let '(delegator, share) := p in
  if share =? 0 then r
  else r <| delegator_rewards :=
    <[delegator := saturating_add U64_MAX
        (default 0 (delegator_rewards r !! delegator)) share]> (delegator_rewards r) |>.

Definition pay_delegators (validator_addr : string) (delegator_pool : Z)
    : st StakeRegistry unit :=
  es ← gets (delegations_in_order validator_addr) ;
  let total_delegated := wrap U64_MAX (sum_of de_amount es) in
  if total_delegated =? 0 then mret tt
  else
    let shares := (λ e, (de_delegator e,
      as_u64 (saturating_mul U128_MAX delegator_pool (de_amount e) / total_delegated))) <$> es in
    modify (λ r, foldl add_delegator_reward r shares).

Definition pay_one_signer (validator_addr : string) (signer_share : Z)
    : st StakeRegistry unit :=
  ov ← gets (λ r, validators r !! validator_addr) ;
  match ov with
  | None => mret tt
  | Some val =>
      let total_stake := v_total_stake val in
      let commission :=
        as_u64 (saturating_mul U128_MAX signer_share (v_commission_rate val) / 10000) in
      let pool := saturating_sub signer_share commission in
      let val := val <| v_pending_rewards :=
        saturating_add U64_MAX (v_pending_rewards val) commission |> in
      modify (put_validator validator_addr val) ;;
      if (total_stake =? 0) || (pool =? 0) then mret tt
      else
        let self_share :=
          as_u64 (saturating_mul U128_MAX pool (v_self_stake val) / total_stake) in
        modify (put_validator validator_addr
          (val <| v_pending_rewards :=
             saturating_add U64_MAX (v_pending_rewards val) self_share |>)) ;;
        let delegator_pool := saturating_sub pool self_share in
        if delegator_pool =? 0 then mret tt
        else pay_delegators validator_addr delegator_pool
  end.

Definition pay_signer_pro_rata (total_reward total_signer_stake : Z) (p : string * Z)
    : st StakeRegistry unit :=
  let '(addr, signer_stake) := p in
  if signer_stake =? 0 then mret tt
  else
    let signer_share :=
      as_u64 (saturating_mul U128_MAX total_reward signer_stake / total_signer_stake) in
    if signer_share =? 0 then mret tt else pay_one_signer addr signer_share.

Definition distribute_reward (proposer : string) (signers : list (string * Z))
    (block_reward validator_fee_share : Z) : st StakeRegistry unit :=
  let total_reward := saturating_add U64_MAX block_reward validator_fee_share in
  match signers with
  | [] => distribute_to_single_validator proposer total_reward
  | _ =>
      let total_signer_stake := wrap U64_MAX (sum_of snd signers) in
      if total_signer_stake =? 0 then distribute_to_single_validator proposer total_reward
      else for_each (pay_signer_pro_rata total_reward total_signer_stake) signers
  end.

End with_hash_order.

(** ** Unbonding, commission and queries *)

Fixpoint release_keys (keys : list Z) (q : gmap Z (list UnbondingEntry))
    : gmap Z (list UnbondingEntry) * list (string * Z) :=
  match keys with
  | [] => (q, [])
  | k :: keys =>
      match q !! k with
      | Some es =>
          let '(q', rest) := release_keys keys (delete k q) in
          (q', ((λ e, (ue_delegator e, ue_amount e)) <$> es) ++ rest)
      | None => release_keys keys q
      end
  end.

(** Returns the registry and the [(delegator, amount)] pairs to credit. *)
Definition process_unbonding (current_height : Z) (r : StakeRegistry)
    : StakeRegistry * list (string * Z) :=
  let matured_keys := filter (λ k, k <= current_height) (bt_keys (unbonding_queue r)) in
  let '(q, released) := release_keys matured_keys (unbonding_queue r) in
  (r <| unbonding_queue := q |>, released).

Definition update_commission (validator : string) (new_rate current_height : Z)
    : st StakeRegistry unit :=
  val ← find_validator validator "validator not found" ;
  fail_if (negb (commission_in_range new_rate))
    (invalid_tx ("commission " +:+ pretty new_rate +:+ " out of range ["
                 +:+ pretty MIN_COMMISSION +:+ ", " +:+ pretty MAX_COMMISSION +:+ "]")) ;;
  fail_if (v_max_commission_rate val <? new_rate)
    (invalid_tx ("commission " +:+ pretty new_rate +:+ " exceeds max "
                 +:+ pretty (v_max_commission_rate val))) ;;
  let diff := abs_diff new_rate (v_commission_rate val) in
  fail_if (MAX_COMMISSION_CHANGE_PER_EPOCH <? diff)
    (invalid_tx ("commission change " +:+ pretty diff +:+ " exceeds max "
                 +:+ pretty MAX_COMMISSION_CHANGE_PER_EPOCH +:+ " per epoch")) ;;
  (if 0 <? v_last_commission_change_height val then
     let last_epoch := v_last_commission_change_height val / EPOCH_LENGTH in
     let current_epoch := current_height / EPOCH_LENGTH in
     fail_if (last_epoch =? current_epoch)
       (invalid_tx ("commission already changed in epoch " +:+ pretty current_epoch
          +:+ " (at height " +:+ pretty (v_last_commission_change_height val)
          +:+ "); at most one change per epoch"))
   else mret tt) ;;
  modify (put_validator validator
    (val <| v_commission_rate := new_rate |>
         <| v_last_commission_change_height := current_height |>)).

Definition get_validator (r : StakeRegistry) (a : string) : option ValidatorStake :=
  validators r !! a.
Definition get_delegations (r : StakeRegistry) (d : string) : list DelegationEntry :=
  default [] (delegations r !! d).
Definition get_pending_unbonding (r : StakeRegistry) (d : string) : list UnbondingEntry :=
  filter (λ e, ue_delegator e = d)
    (concat (omap (λ k, unbonding_queue r !! k) (bt_keys (unbonding_queue r)))).
Definition delegations_to `{HashOrder} (r : StakeRegistry) (v : string)
    : list DelegationEntry :=
  filter (λ e, de_validator e = v) (concat (hm_values (delegations r))).
Definition is_active (r : StakeRegistry) (a : string) : bool :=
  bool_decide (a ∈ active_set r).
Definition active_count (r : StakeRegistry) : Z := Z.of_nat (length (active_set r)).

Definition take_delegator_rewards (d : string) (r : StakeRegistry) : StakeRegistry * Z :=
  (r <| delegator_rewards := delete d (delegator_rewards r) |>,
   default 0 (delegator_rewards r !! d)).
Definition peek_delegator_rewards (r : StakeRegistry) (d : string) : Z :=
  default 0 (delegator_rewards r !! d).

Definition weighted_proposer (r : StakeRegistry) (height round : Z) : option string :=
  match active_set r with
  | [] => None
  | _ =>
      let n := Z.of_nat (length (active_set r)) in
      let idx := wrapping_add U64_MAX height round mod n in
      active_set r !! Z.to_nat idx
  end.
