(* ===== verification/StakingProps.v ===== *)
(** * Stake registry: invariants and behaviour

    The central invariant [reg_inv] ties each validator's [total_delegated] to
    the delegation entries that name it.  It is preserved by every successful
    operation, slashing included.  Further sections cover the active set, the
    proposer rotation, reward distribution, unbonding and commissions. *)

From S2P Require Import Prelude Staking.

(** ** The registry invariant *)

(** What the entries of one delegator hold with validator [a]. *)
Definition entries_to (a : string) (es : list DelegationEntry) : Z :=
  sum_of (λ e, if decide (de_validator e = a) then de_amount e else 0) es.
(** What all delegators together hold with validator [a]. *)
Definition delegated_to (a : string) (ds : gmap string (list DelegationEntry)) : Z :=
  map_sum (λ _ es, entries_to a es) ds.

Definition validator_wf (a : string) (v : ValidatorStake) : Prop :=
  v_address v = a ∧ in_u64 (v_self_stake v) ∧ in_u64 (v_total_delegated v) ∧
  in_u64 (v_pending_rewards v) ∧
  MIN_COMMISSION <= v_commission_rate v <= v_max_commission_rate v ∧
  v_max_commission_rate v <= MAX_COMMISSION ∧
  (v_is_tombstoned v = true → v_is_jailed v = true).

Definition entries_wf (vs : gmap string ValidatorStake) (d : string)
    (es : list DelegationEntry) : Prop :=
  Forall (λ e, de_delegator e = d ∧ 0 <= de_amount e ∧ is_Some (vs !! de_validator e)) es ∧
  NoDup (de_validator <$> es) ∧
  Z.of_nat (length es) <= MAX_DELEGATIONS_PER_ACCOUNT.

Record reg_inv (r : StakeRegistry) : Prop := {
  inv_validators : ∀ a v, validators r !! a = Some v → validator_wf a v;
  inv_entries : ∀ d es, delegations r !! d = Some es → entries_wf (validators r) d es;
  inv_totals : ∀ a v, validators r !! a = Some v →
    v_total_delegated v = delegated_to a (delegations r);
}.

Lemma reg_inv_new : reg_inv StakeRegistry_new.
Proof. split; intros ??; simpl; rewrite lookup_empty; done. Qed.

Lemma entries_to_nonneg vs d es a : entries_wf vs d es → 0 <= entries_to a es.
Proof.
  intros [Hf _]. apply sum_of_nonneg. intros e He.
  rewrite Forall_forall in Hf. destruct (Hf e He) as (_ & ? & _). by case_decide.
Qed.

Lemma delegated_to_insert a ds d es :
  delegated_to a (<[d := es]> ds)
  = delegated_to a ds + entries_to a es - entries_to a (default [] (ds !! d)).
Proof.
  unfold delegated_to. rewrite map_sum_insert.
  destruct (ds !! d); simpl; unfold entries_to; rewrite ?sum_of_nil; lia.
Qed.

Lemma delegated_to_unregistered r a :
  reg_inv r → validators r !! a = None → delegated_to a (delegations r) = 0.
Proof.
  intros Hr Ha. unfold delegated_to.
  rewrite (map_sum_ext _ (λ _ _, 0)).
  - rewrite map_sum_list. apply Z.le_antisymm.
    + induction (map_to_list _); [done|]. rewrite sum_of_cons. lia.
    + apply sum_of_nonneg. done.
  - intros d es Hd. apply inv_entries in Hd as [Hf _]; [|done].
    unfold entries_to. induction es as [|e es IH]; [done|].
    apply Forall_cons in Hf as [(_ & _ & [v Hv]) Hf].
    rewrite sum_of_cons, IH by done. case_decide; [congruence|done].
Qed.

(** *** Replacing one validator record *)

Lemma lookup_put_validator a v r b :
  validators (put_validator a v r) !! b = if decide (a = b) then Some v else validators r !! b.
Proof. simpl. apply lookup_insert. Qed.

Lemma entries_wf_mono vs vs' d es :
  (∀ a, is_Some (vs !! a) → is_Some (vs' !! a)) → entries_wf vs d es → entries_wf vs' d es.
Proof.
  intros Hm (Hf & Hn). split; [|done]. eapply Forall_impl; [exact Hf|]. naive_solver.
Qed.

(** Updating a validator without touching [total_delegated] keeps the invariant. *)
Lemma reg_inv_put r a v v' :
  reg_inv r → validators r !! a = Some v → validator_wf a v' →
  v_total_delegated v' = v_total_delegated v → reg_inv (put_validator a v' r).
Proof.
  intros Hr Ha Hwf Ht. split.
  - intros b w. rewrite lookup_put_validator. case_decide; [naive_solver|].
    by apply inv_validators.
  - intros d es Hd. eapply entries_wf_mono; [|by apply (inv_entries r Hr)].
    intros b. rewrite lookup_put_validator. by case_decide.
  - intros b w. rewrite lookup_put_validator. simpl.
    case_decide; intros; simplify_eq.
    + rewrite Ht. by apply inv_totals.
    + by apply inv_totals.
Qed.

(** Only the validator and delegation tables matter. *)
Lemma reg_inv_ext r r' :
  validators r' = validators r → delegations r' = delegations r → reg_inv r → reg_inv r'.
Proof. intros E1 E2 [???]. split; rewrite ?E1, ?E2; done. Qed.
Lemma reg_inv_update_active_set `{HashOrder} r : reg_inv r → reg_inv (update_active_set r).
Proof. by apply reg_inv_ext. Qed.
Lemma reg_inv_queue r q : reg_inv r → reg_inv (r <| unbonding_queue := q |>).
Proof. by apply reg_inv_ext. Qed.
Lemma reg_inv_rewards r q : reg_inv r → reg_inv (r <| delegator_rewards := q |>).
Proof. by apply reg_inv_ext. Qed.
Create HintDb staking.
#[export] Hint Resolve reg_inv_update_active_set reg_inv_queue reg_inv_rewards : staking.

(** *** Changing one delegator's entries *)

Lemma find_entry_Some v es i e :
  find_entry v es = Some (i, e) → es !! i = Some e ∧ de_validator e = v.
Proof. intros (? & ? & _)%list_find_Some. done. Qed.
Lemma find_entry_None v es : find_entry v es = None → v ∉ de_validator <$> es.
Proof.
  intros Hf%list_find_None. rewrite list_elem_of_fmap.
  intros (e & -> & He). rewrite Forall_forall in Hf. by apply (Hf e He).
Qed.

(** An in-place change of one entry that keeps who delegates to whom. *)
Lemma entries_to_update a es i e e' :
  es !! i = Some e → de_validator e' = de_validator e →
  entries_to a (<[i := e']> es)
  = entries_to a es
    + (if decide (de_validator e = a) then de_amount e' - de_amount e else 0).
Proof.
  intros Hi Hv. unfold entries_to. rewrite (sum_of_insert _ es i e) by done.
  rewrite Hv. case_decide; lia.
Qed.

Lemma entries_wf_update vs d es i e e' :
  es !! i = Some e → de_validator e' = de_validator e → de_delegator e' = de_delegator e →
  0 <= de_amount e' → entries_wf vs d es → entries_wf vs d (<[i := e']> es).
Proof.
  intros Hi Hv Hd Hx (Hf & Hn & Hl). split_and!.
  - apply Forall_insert; [done|]. rewrite Hv, Hd.
    pose proof (Forall_lookup_1 _ _ _ _ Hf Hi). naive_solver.
  - rewrite list_fmap_insert, Hv.
    rewrite list_insert_id; [done|]. by rewrite list_lookup_fmap, Hi.
  - by rewrite length_insert.
Qed.

Lemma entries_to_drop_empty a v es : entries_to a (drop_empty v es) = entries_to a es.
Proof.
  unfold entries_to, drop_empty. induction es as [|e es IH]; [done|].
  rewrite filter_cons, sum_of_cons. case_decide as Hd; rewrite ?sum_of_cons, IH; [done|].
  destruct Hd as [_ E]. case_decide; lia.
Qed.
Lemma entries_wf_drop_empty vs d v es : entries_wf vs d es → entries_wf vs d (drop_empty v es).
Proof.
  intros (Hf & Hn & Hl). split_and!.
  - by apply Forall_filter_l.
  - eapply sublist_NoDup; [exact Hn|]. apply fmap_sublist, sublist_filter.
  - pose proof (length_filter (λ e, ¬ (de_validator e = v ∧ de_amount e = 0)) es).
    unfold drop_empty. lia.
Qed.

Lemma entries_wf_snoc vs d es v x h :
  entries_wf vs d es → v ∉ de_validator <$> es → 0 <= x → is_Some (vs !! v) →
  Z.of_nat (length es) < MAX_DELEGATIONS_PER_ACCOUNT →
  entries_wf vs d (es ++ [mkDelegation d v x h]).
Proof.
  intros (Hf & Hn & Hl) Hv Hx Hs Hlt. split_and!.
  - apply Forall_app. split; [done|]. by repeat constructor.
  - rewrite fmap_app. apply NoDup_app. split_and!; [done| |apply NoDup_singleton].
    simpl. set_solver.
  - rewrite length_app. simpl. lia.
Qed.

(** *** Registry-level effect of the two delegation steps *)

(** [r'] is [r] with delegator entries changed: everything else is the same,
    and what is delegated to [v] has moved by [delta]. *)
Definition moved (v : string) (delta : Z) (r r' : StakeRegistry) : Prop :=
  validators r' = validators r ∧ unbonding_queue r' = unbonding_queue r ∧
  redelegate_cooldowns r' = redelegate_cooldowns r ∧
  active_set r' = active_set r ∧ delegator_rewards r' = delegator_rewards r ∧
  (∀ d es, delegations r' !! d = Some es → entries_wf (validators r) d es) ∧
  ∀ a, delegated_to a (delegations r')
       = delegated_to a (delegations r) + (if decide (a = v) then delta else 0).

Lemma entries_wf_default r d :
  reg_inv r → entries_wf (validators r) d (default [] (delegations r !! d)).
Proof.
  intros Hr. destruct (delegations r !! d) eqn:E; simpl; [by apply inv_entries|].
  split_and!; [constructor|constructor|done].
Qed.

Lemma put_delegations_moved r d v es delta :
  reg_inv r → entries_wf (validators r) d es →
  (∀ a, entries_to a es = entries_to a (default [] (delegations r !! d))
                          + (if decide (a = v) then delta else 0)) →
  moved v delta r (put_delegations d es r).
Proof.
  intros Hr Hes Hd. unfold moved. split_and!; try done.
  - intros d' es' Hl. simpl in Hl.
    apply lookup_insert_Some in Hl as [[<- <-]|[_ Hl]]; [done|by apply (inv_entries r Hr)].
  - intros a. simpl. rewrite delegated_to_insert, Hd. lia.
Qed.

Lemma put_put_delegations d es es' r :
  put_delegations d es (put_delegations d es' r) = put_delegations d es r.
Proof. unfold put_delegations; simpl. by rewrite insert_insert_eq. Qed.

Lemma add_delegation_moved r r' d v x h :
  reg_inv r → is_Some (validators r !! v) → 0 <= x →
  add_delegation d v x h r = (r', Ok tt) → moved v x r r'.
Proof.
  intros Hr Hv Hx H. unfold add_delegation in H. unfold_st H.
  set (es := default [] (delegations r !! d)) in *.
  assert (Hes : entries_wf (validators r) d es) by by apply entries_wf_default.
  assert (E : default [] (delegations (put_delegations d es r) !! d) = es)
    by (simpl; by rewrite lookup_insert_eq).
  rewrite E in H.
  destruct (find_entry v es) as [[i e]|] eqn:Hfe.
  - apply find_entry_Some in Hfe as [Hi <-].
    destruct (checked_add _ _ _) eqn:Hc; [|done]. bool_hyps. injection H as <-.
    rewrite put_put_delegations. apply put_delegations_moved; [done| |].
    + eapply entries_wf_update; [done..| |done]. simpl. destruct Hes as [Hf _].
      pose proof (Forall_lookup_1 _ _ _ _ Hf Hi). naive_solver lia.
    + intros a. rewrite (entries_to_update a es i e) by done. simpl. fold es.
      repeat case_decide; simplify_eq; lia.
  - apply find_entry_None in Hfe.
    destruct (_ <=? _) eqn:Hlen; [done|]. bool_hyps. injection H as <-.
    rewrite put_put_delegations. apply put_delegations_moved; [done| |].
    + by apply entries_wf_snoc.
    + intros a. unfold entries_to. rewrite sum_of_app, sum_of_cons, sum_of_nil. simpl.
      fold es. repeat case_decide; simplify_eq; lia.
Qed.

Lemma reduce_delegation_moved r r' d v x m1 m2 :
  reg_inv r → 0 <= x →
  reduce_delegation d v x m1 m2 r = (r', Ok tt) →
  moved v (- x) r r' ∧ ∃ e, e ∈ get_delegations r d ∧ de_validator e = v ∧ x <= de_amount e.
Proof.
  intros Hr Hx H. unfold reduce_delegation in H. unfold_st H.
  destruct (delegations r !! d) as [es|] eqn:Hd; [|done].
  assert (Hes : entries_wf (validators r) d es) by by apply inv_entries.
  destruct (find_entry v es) as [[i e]|] eqn:Hfe; [|done].
  apply find_entry_Some in Hfe as [Hi <-].
  destruct (de_amount e <? x) eqn:Hlt; [done|]. bool_hyps.
  assert (Hsub : saturating_sub (de_amount e) x = de_amount e - x) by ulia.
  rewrite Hsub in H.
  set (es' := <[i := e <| de_amount := de_amount e - x |>]> es) in *.
  assert (Hes' : entries_wf (validators r) d es') by (eapply entries_wf_update; [done..|simpl; lia|done]).
  assert (Hsum : ∀ a, entries_to a es' = entries_to a (default [] (delegations r !! d))
                        + (if decide (a = de_validator e) then - x else 0)).
  { intros a. unfold es'. rewrite (entries_to_update a es i e), Hd by done. simpl.
    repeat case_decide; simplify_eq; lia. }
  split.
  - destruct (_ =? 0); simplify_eq; rewrite ?put_put_delegations;
      apply put_delegations_moved; try done.
    + by apply entries_wf_drop_empty.
    + intros a. rewrite entries_to_drop_empty. apply Hsum.
  - exists e. split_and!; [|done|lia]. unfold get_delegations. rewrite Hd. simpl.
    by eapply list_elem_of_lookup_2.
Qed.

Lemma delegated_to_nonneg vs a ds :
  (∀ d es, ds !! d = Some es → entries_wf vs d es) → 0 <= delegated_to a ds.
Proof. intros Hw. apply map_sum_nonneg. intros d es ?%Hw. by eapply entries_to_nonneg. Qed.

(** Completing a move by the matching change of the validator's total. *)
Lemma reg_inv_moved_put r r' v val val' delta :
  reg_inv r → moved v delta r r' → validators r !! v = Some val → validator_wf v val' →
  v_total_delegated val' = v_total_delegated val + delta → reg_inv (put_validator v val' r').
Proof.
  intros Hr (Ev & _ & _ & _ & _ & Hw & Hd) Hv Hwf Ht. split.
  - intros b w. rewrite lookup_put_validator, Ev. case_decide; [naive_solver|].
    by apply inv_validators.
  - intros d es Hes. eapply entries_wf_mono; [|by apply Hw].
    intros b. rewrite lookup_put_validator, Ev. by case_decide.
  - intros b w. rewrite lookup_put_validator, Ev. simpl. rewrite Hd.
    case_decide; intros; simplify_eq.
    + rewrite decide_True, Ht by done. f_equal. by apply inv_totals.
    + rewrite decide_False by done. rewrite Z.add_0_r. by apply inv_totals.
Qed.

Lemma validator_wf_total v val t :
  validator_wf v val → in_u64 t → validator_wf v (val <| v_total_delegated := t |>).
Proof. unfold validator_wf. simpl. tauto. Qed.

Lemma reg_inv_delegate r r' d v x h :
  reg_inv r → 0 <= x → delegate d v x h r = (r', Ok tt) → reg_inv r'.
Proof.
  intros Hr Hx H. unfold delegate, find_validator in H. unfold_st H.
  destruct (x =? 0); [done|].
  destruct (validators r !! v) as [val|] eqn:Hv; [|done].
  destruct (v_is_tombstoned val); [done|].
  destruct (add_delegation d v x h r) as [r1 [[]|e]] eqn:Hadd; [|done].
  apply add_delegation_moved in Hadd as Hm; [|done|by rewrite Hv|done].
  rewrite (proj1 Hm), Hv in H.
  destruct (checked_add _ _ _) eqn:Hc; [|done]. bool_hyps. injection H as <-.
  pose proof (inv_validators r Hr v val Hv) as Hwf.
  eapply reg_inv_moved_put; [done..| |done].
  apply validator_wf_total; [done|]. destruct Hwf as (_ & _ & ? & _). ulia.
Qed.

(** The total of the source validator covers what is taken from it. *)
Lemma moved_out_covers r r' v val x :
  reg_inv r → moved v (- x) r r' → validators r !! v = Some val →
  x <= v_total_delegated val.
Proof.
  intros Hr (_ & _ & _ & _ & _ & Hw & Hd) Hv.
  rewrite (inv_totals r Hr v val Hv).
  pose proof (delegated_to_nonneg _ v _ Hw) as Hnn. rewrite Hd in Hnn.
  rewrite decide_True in Hnn by done. lia.
Qed.

Lemma reg_inv_moved_out r r1 v val x :
  reg_inv r → moved v (- x) r r1 → 0 <= x → validators r !! v = Some val →
  reg_inv (put_validator v
    (val <| v_total_delegated := saturating_sub (v_total_delegated val) x |>) r1).
Proof.
  intros Hr Hm Hx Hv. pose proof (moved_out_covers _ _ _ _ _ Hr Hm Hv).
  pose proof (inv_validators r Hr v val Hv) as Hwf.
  eapply reg_inv_moved_put; [done..| |simpl; ulia].
  apply validator_wf_total; [done|]. destruct Hwf as (_ & _ & ? & _). ulia.
Qed.

Lemma reg_inv_undelegate r r' d v x h :
  reg_inv r → 0 <= x → undelegate d v x h r = (r', Ok tt) → reg_inv r'.
Proof.
  intros Hr Hx H. unfold undelegate, find_validator in H. unfold_st H.
  destruct (x =? 0); [done|].
  destruct (reduce_delegation _ _ _ _ _ r) as [r1 [[]|e]] eqn:Hred; [|done].
  apply reduce_delegation_moved in Hred as [Hm _]; [|done..].
  destruct (_ <=? _); [done|]. destruct (_ <=? _); [done|].
  rewrite (proj1 Hm) in H.
  destruct (validators r !! v) as [val|] eqn:Hv; [|done]. injection H as <-.
  apply reg_inv_queue. by eapply reg_inv_moved_out.
Qed.

Lemma reg_inv_redelegate r r' d f t x h :
  reg_inv r → 0 <= x → redelegate d f t x h r = (r', Ok tt) → reg_inv r'.
Proof.
  intros Hr Hx H. unfold redelegate in H. unfold_st H.
  case_bool_decide; [done|]. destruct (x =? 0); [done|].
  match type of H with context [redelegate_cooldowns r !! d] =>
    destruct (match redelegate_cooldowns r !! d with Some _ => _ | None => _ end)
      as [r0 [[]|e]] eqn:Hcd; [|done] end.
  assert (r0 = r) as -> by (repeat case_match; by simplify_eq).
  destruct (validators r !! t) as [tv|] eqn:Ht; simpl in H; [|done].
  destruct (v_is_tombstoned tv); [done|].
  destruct (reduce_delegation _ _ _ _ _ r) as [r1 [[]|e]] eqn:Hred; [|done].
  apply reduce_delegation_moved in Hred as [Hm (e & He & Hev & _)]; [|done..].
  assert (is_Some (validators r !! f)) as [fv Hf].
  { unfold get_delegations in He. destruct (delegations r !! d) eqn:Hd; simpl in He; [|set_solver].
    apply (inv_entries r Hr) in Hd as [Hall _]. rewrite Forall_forall in Hall.
    rewrite <-Hev. by apply Hall. }
  rewrite (proj1 Hm), Hf in H.
  pose proof (reg_inv_moved_out r r1 f fv x Hr Hm Hx Hf) as Hr2.
  set (r2 := put_validator f _ r1) in *.
  assert (Ht2 : validators r2 !! t = Some tv).
  { unfold r2. rewrite lookup_put_validator, (proj1 Hm). by rewrite decide_False. }
  destruct (add_delegation d t x h r2) as [r3 [[]|e']] eqn:Hadd; [|done].
  apply add_delegation_moved in Hadd as Hm3; [|done|by rewrite Ht2|done].
  rewrite (proj1 Hm3), Ht2 in H.
  destruct (checked_add _ _ _) eqn:Hc; [|done]. bool_hyps. injection H as <-.
  eapply (reg_inv_ext (put_validator t
    (tv <| v_total_delegated := v_total_delegated tv + x |>) r3)); [done..|].
  eapply reg_inv_moved_put; [done..| |done].
  apply validator_wf_total; [by apply (inv_validators r2)|].
  destruct (inv_validators r Hr t tv Ht) as (_ & _ & ? & _). ulia.
Qed.

(** ** Slashing *)

Section slash.
Context (v : string) (remaining den : Z).
Context (Hrem : 0 <= remaining <= den) (Hden : 0 < den <= U64_MAX).

Notation slash_e := (slash_delegation v remaining den).
Definition slashed_map (ds : gmap string (list DelegationEntry))
    : gmap string (list DelegationEntry) :=
  (λ es : list DelegationEntry, slash_delegation v remaining den <$> es) <$> ds.

(** Entries to [v] are no larger than the denominator. *)
Definition amount_ok (e : DelegationEntry) : Prop :=
  0 <= de_amount e ∧ (de_validator e = v → de_amount e <= den).

(** The rounded-up share of an entry no larger than the denominator. *)
Lemma slash_delegation_amount e :
  amount_ok e → de_validator e = v →
  de_amount (slash_e e) = de_amount e - div_ceil (de_amount e * remaining) den
  ∧ 0 <= div_ceil (de_amount e * remaining) den <= de_amount e.
Proof.
  intros [Ha0 Ha] Hv. specialize (Ha Hv).
  unfold slash_delegation. rewrite bool_decide_eq_true_2 by done. simpl.
  assert (Hm : saturating_mul U128_MAX (de_amount e) remaining = de_amount e * remaining).
  { unfold saturating_mul. apply Z.min_r.
    transitivity (U64_MAX * U64_MAX); [|done]. apply Z.mul_le_mono_nonneg; lia. }
  rewrite Hm.
  pose proof (div_ceil_spec (de_amount e * remaining) den ltac:(lia)) as Hc.
  set (q := div_ceil _ _) in *.
  assert (0 <= q <= de_amount e) by nia.
  rewrite wrap_small by ulia. split; [|done]. ulia.
Qed.

Lemma slash_delegation_other e : de_validator e ≠ v → slash_e e = e.
Proof. intros. unfold slash_delegation. by rewrite bool_decide_eq_false_2. Qed.

Lemma slash_delegation_keys e :
  de_validator (slash_e e) = de_validator e ∧ de_delegator (slash_e e) = de_delegator e.
Proof. unfold slash_delegation. by case_bool_decide. Qed.

Lemma slash_delegation_range e :
  amount_ok e → 0 <= de_amount (slash_e e) <= de_amount e.
Proof.
  intros Ha. destruct (decide (de_validator e = v)) as [Hv|Hv].
  - destruct (slash_delegation_amount e Ha Hv) as [-> ?]. lia.
  - rewrite slash_delegation_other by done. destruct Ha. lia.
Qed.

Lemma entries_wf_slash vs d es :
  Forall amount_ok es → entries_wf vs d es → entries_wf vs d (slash_e <$> es).
Proof.
  intros Hle (Hf & Hn & Hl). split_and!.
  - apply Forall_fmap. eapply Forall_impl; [exact (proj2 (Forall_and _ _) (conj Hf Hle))|].
    intros e ((? & ? & ?) & ?). simpl. destruct (slash_delegation_keys e) as [-> ->].
    pose proof (slash_delegation_range e ltac:(done)). naive_solver lia.
  - rewrite <-list_fmap_compose.
    rewrite (list_fmap_ext _ de_validator); [done|].
    intros i e _. apply slash_delegation_keys.
  - by rewrite length_fmap.
Qed.

(** What survives of the delegations to [v], and to anyone else. *)
Lemma entries_to_slash_other a es : a ≠ v → entries_to a (slash_e <$> es) = entries_to a es.
Proof.
  intros Ha. unfold entries_to. rewrite sum_of_fmap. apply sum_of_ext. intros e _.
  destruct (slash_delegation_keys e) as [-> _]. case_decide as E; [|done].
  rewrite slash_delegation_other; congruence.
Qed.

Lemma entries_to_slash es :
  Forall amount_ok es →
  0 <= entries_to v (slash_e <$> es) <= entries_to v es ∧
  entries_to v (slash_e <$> es) * den <= (den - remaining) * entries_to v es.
Proof.
  unfold entries_to. rewrite sum_of_fmap.
  induction 1 as [|e es He Hes IH]; [rewrite !sum_of_nil; lia|].
  rewrite !sum_of_cons. destruct (slash_delegation_keys e) as [-> _].
  case_decide as Hv; [|lia].
  destruct (slash_delegation_amount e He Hv) as [-> Hq]. destruct He as [He0 _].
  pose proof (div_ceil_spec (de_amount e * remaining) den ltac:(lia)). nia.
Qed.

Lemma slash_entries_eq es acc :
  Forall amount_ok es → 0 <= acc →
  acc + entries_to v (slash_e <$> es) <= U128_MAX →
  slash_entries v remaining den es acc
  = (slash_e <$> es, acc + entries_to v (slash_e <$> es)).
Proof.
  intros Hes. revert acc. induction Hes as [|e es He Hes IH]; intros acc Hacc Hle.
  - simpl. unfold entries_to. rewrite sum_of_nil. f_equal. lia.
  - simpl slash_entries. unfold entries_to in *. rewrite fmap_cons, sum_of_cons in *.
    destruct (slash_delegation_keys e) as [Hk _]. rewrite Hk in *.
    pose proof (slash_delegation_range e He).
    pose proof (entries_to_slash es Hes) as [[Hnn _] _]. unfold entries_to in Hnn.
    case_decide as E.
    + rewrite bool_decide_eq_true_2 by done.
      unfold saturating_add. rewrite Z.min_r by lia.
      rewrite IH by lia. f_equal. lia.
    + rewrite bool_decide_eq_false_2 by done. rewrite IH by lia. f_equal.
Qed.

Definition amounts_ok (ds : gmap string (list DelegationEntry)) : Prop :=
  ∀ d es, ds !! d = Some es → Forall amount_ok es.

Lemma survivors_nonneg ds k :
  amounts_ok ds → 0 <= entries_to v (slash_e <$> default [] (ds !! k)).
Proof.
  intros Hok. destruct (ds !! k) as [es|] eqn:E; simpl; [|done].
  apply entries_to_slash. by apply Hok in E.
Qed.

Lemma slash_delegators_eq keys ds acc :
  NoDup keys → amounts_ok ds → 0 <= acc →
  acc + sum_of (λ k, entries_to v (slash_e <$> default [] (ds !! k))) keys <= U128_MAX →
  let '(ds', acc') := slash_delegators v remaining den keys ds acc in
  acc' = acc + sum_of (λ k, entries_to v (slash_e <$> default [] (ds !! k))) keys ∧
  ∀ k, ds' !! k = (if decide (k ∈ keys) then (λ es, slash_e <$> es) <$> ds !! k else ds !! k).
Proof.
  intros Hnd. revert ds acc. induction Hnd as [|k keys Hk Hnd IH]; intros ds acc Hok Hacc Hle.
  - simpl. rewrite sum_of_nil. split; [lia|done].
  - simpl slash_delegators. rewrite sum_of_cons in *.
    pose proof (survivors_nonneg ds k Hok) as Hk0.
    pose proof (sum_of_nonneg (λ k, entries_to v (slash_e <$> default [] (ds !! k))) keys
                  (λ a _, survivors_nonneg ds a Hok)) as Hks.
    destruct (ds !! k) as [es|] eqn:E; simpl in Hk0, Hle |- *.
    + rewrite slash_entries_eq by (try apply (Hok k es E); lia).
      assert (Hext : ∀ k', k' ∈ keys → <[k := slash_e <$> es]> ds !! k' = ds !! k').
      { intros k' ?. apply lookup_insert_ne. set_solver. }
      specialize (IH (<[k := slash_e <$> es]> ds) (acc + entries_to v (slash_e <$> es))).
      rewrite (sum_of_ext _ (λ k, entries_to v (slash_e <$> default [] (ds !! k)))) in IH
        by (intros k' Hk'; by rewrite Hext).
      destruct (slash_delegators _ _ _ keys _ _) as [ds' acc'].
      destruct IH as [-> Hl]; [|lia|lia|].
      { intros d es'. rewrite lookup_insert_Some. intros [[_ <-]|[_ ?]]; [|by eapply Hok].
        apply Forall_fmap. eapply Forall_impl; [by eapply Hok|].
        intros e He. pose proof (slash_delegation_range e He). unfold compose, amount_ok.
        destruct (slash_delegation_keys e) as [-> _]. destruct He. naive_solver lia. }
      split; [lia|]. intros k'. rewrite Hl.
      destruct (decide (k' = k)) as [->|].
      * rewrite decide_False, decide_True by set_solver.
        by rewrite lookup_insert_eq, E.
      * rewrite lookup_insert_ne by done. repeat case_decide; set_solver.
    + specialize (IH ds acc Hok Hacc). destruct (slash_delegators _ _ _ keys _ _) as [ds' acc'].
      unfold entries_to at 1 in Hle. destruct IH as [-> Hl]; [rewrite sum_of_nil in Hle; lia|].
      split; [unfold entries_to at 2; rewrite sum_of_nil; lia|]. intros k'. rewrite Hl.
      destruct (decide (k' = k)) as [->|].
      * rewrite decide_False, decide_True by set_solver. by rewrite E.
      * repeat case_decide; set_solver.
Qed.

Lemma delegated_to_slashed ds :
  amounts_ok ds →
  0 <= delegated_to v (slashed_map ds) <= delegated_to v ds ∧
  delegated_to v (slashed_map ds) * den <= (den - remaining) * delegated_to v ds.
Proof.
  intros Hok. unfold delegated_to, slashed_map. rewrite map_sum_fmap.
  assert (Hok' : ∀ (k : string) es, ds !! k = Some es →
    0 <= entries_to v (slash_e <$> es) <= entries_to v es ∧
    entries_to v (slash_e <$> es) * den <= (den - remaining) * entries_to v es).
  { intros k es ?%Hok. by apply entries_to_slash. }
  split_and!.
  - apply map_sum_nonneg. intros k es ?%Hok'. lia.
  - apply map_sum_le. intros k es ?%Hok'. lia.
  - rewrite Z.mul_comm, <-!map_sum_scale. apply map_sum_le. intros k es ?%Hok'. lia.
Qed.

Lemma delegated_to_slashed_other a ds :
  a ≠ v → delegated_to a (slashed_map ds) = delegated_to a ds.
Proof.
  intros Ha. unfold delegated_to, slashed_map. rewrite map_sum_fmap.
  apply map_sum_ext. intros k es _. by apply entries_to_slash_other.
Qed.

(** The two nested loops compute the entry-wise slash and its exact sum. *)
Lemma slash_loop_eq `{HashOrder} ds :
  amounts_ok ds → delegated_to v ds <= U64_MAX →
  slash_delegators v remaining den (sort_strings (hm_keys ds)) ds 0
  = (slashed_map ds, delegated_to v (slashed_map ds)).
Proof.
  intros Hok Hle.
  assert (Hp : sort_strings (hm_keys ds) ≡ₚ (map_to_list ds).*1)
    by by rewrite sort_strings_perm, hm_keys_perm.
  assert (Hsum : sum_of (λ k, entries_to v (slash_e <$> default [] (ds !! k)))
                   (sort_strings (hm_keys ds)) = delegated_to v (slashed_map ds)).
  { unfold delegated_to, slashed_map. rewrite map_sum_fmap.
    by rewrite <-(map_sum_keys (λ es, entries_to v (slash_e <$> es)) [] ds _ Hp). }
  pose proof (slash_delegators_eq (sort_strings (hm_keys ds)) ds 0) as Heq.
  destruct (slash_delegators _ _ _ _ _ _) as [ds' acc'].
  pose proof (delegated_to_slashed ds Hok) as [? _].
  destruct Heq as [-> Hl]; [|done|done|rewrite ?Hsum; ulia|].
  { rewrite sort_strings_perm. apply NoDup_hm_keys. }
  rewrite Hsum. f_equal. apply map_eq. intros k. rewrite Hl.
  unfold slashed_map. rewrite lookup_fmap.
  case_decide as E; [done|]. rewrite sort_strings_perm, elem_of_hm_keys in E.
  destruct (ds !! k); [by destruct E|done].
Qed.
End slash.

(** Entry amounts are bounded by the total of the validator they go to. *)
Lemma entry_le_total r d es e v val :
  reg_inv r → delegations r !! d = Some es → e ∈ es → de_validator e = v →
  validators r !! v = Some val → de_amount e <= v_total_delegated val.
Proof.
  intros Hr Hd He Hv Hval. rewrite (inv_totals r Hr v val Hval).
  transitivity (entries_to v es).
  - unfold entries_to.
    pose proof (sum_of_elem_le (λ e, if decide (de_validator e = v) then de_amount e else 0) es e)
      as Hs. simpl in Hs. rewrite decide_True in Hs by done. apply Hs; [|done].
    intros b Hb. apply (inv_entries r Hr) in Hd as [Hf _]. rewrite Forall_forall in Hf.
    destruct (Hf b Hb) as (_ & ? & _). by case_decide.
  - apply (map_sum_elem_le (λ _ es, entries_to v es) _ d); [|done].
    intros k es' ?%(inv_entries r Hr). by eapply entries_to_nonneg.
Qed.

Section slash_op.
Context `{HashOrder} (r : StakeRegistry) (v : string) (bp : Z).
Context (Hr : reg_inv r) (Hbp : 0 <= bp <= 10000).

Lemma amounts_ok_total val :
  validators r !! v = Some val →
  amounts_ok v (v_total_delegated val) (delegations r).
Proof.
  intros Hv d es Hd. apply Forall_forall. intros e He. split.
  - apply (inv_entries r Hr) in Hd as [Hf _]. rewrite Forall_forall in Hf. by apply Hf.
  - intros Hev. by eapply (entry_le_total r d es e v val).
Qed.

(** The slash of the total stake: what is taken, and from whom. *)
Lemma slash_amount_range val :
  validator_wf v val →
  let amt := as_u64 (v_total_stake val * bp / 10000) in
  amt = v_total_stake val * bp / 10000 ∧ 0 <= amt <= v_total_stake val.
Proof.
  intros (_ & Hs & Hd & _) amt.
  assert (Ht : 0 <= v_total_stake val <= U64_MAX) by (unfold v_total_stake; ulia).
  assert (Hq : 0 <= v_total_stake val * bp / 10000 <= v_total_stake val).
  { split; [apply Z.div_pos; nia|apply Z.div_le_upper_bound; nia]. }
  unfold amt. rewrite wrap_small by ulia. done.
Qed.

(** Every registered validator can be slashed; the result is described by
    the validator's new record and the entry-wise slash of its delegators. *)
Lemma slash_eq val :
  validators r !! v = Some val →
  let amt := v_total_stake val * bp / 10000 in
  let from_self := Z.min amt (v_self_stake val) in
  let rem := amt - from_self in
  let den := v_total_delegated val in
  let ds := if 0 <? rem then slashed_map v rem den (delegations r) else delegations r in
  let val' := val <| v_self_stake := v_self_stake val - from_self |>
                  <| v_total_delegated := delegated_to v ds |> in
  0 <= rem <= den ∧
  ∃ r', slash v bp r = (r', Ok amt) ∧
    validators r' = <[v := val']> (validators r) ∧ delegations r' = ds ∧
    unbonding_queue r' = slash_queue v bp (unbonding_queue r) ∧
    redelegate_cooldowns r' = redelegate_cooldowns r ∧
    delegator_rewards r' = delegator_rewards r ∧
    active_set r' = compute_active_set r'.
Proof.
  intros Hv amt from_self rem den ds val'.
  pose proof (inv_validators r Hr v val Hv) as Hwf.
  destruct (slash_amount_range val Hwf) as [Hamt Hle]. fold amt in Hamt, Hle.
  rewrite Hamt in Hle.
  pose proof Hwf as (_ & Hs & Hd & _).
  assert (Hrem : 0 <= rem <= den).
  { unfold rem, from_self, den. unfold v_total_stake in Hle. ulia. }
  split; [done|].
  unfold slash, find_validator. unfold_st_goal. rewrite Hv.
  unfold checked_mul at 1. rewrite (proj2 (Z.leb_le _ _)); last first.
  { assert (0 <= v_total_stake val <= U64_MAX) by (unfold v_total_stake; ulia).
    unfold U64_MAX, U128_MAX in *. nia. }
  fold amt. rewrite Hamt. fold from_self. simpl v_total_delegated.
  replace (saturating_sub amt from_self) with rem by (unfold rem, from_self; ulia).
  replace (saturating_sub (v_self_stake val) from_self)
    with (v_self_stake val - from_self) by (unfold from_self; ulia).
  destruct (Z.ltb_spec 0 rem) as [Hpos|Hz]; simpl; fold den.
  - rewrite (proj2 (Z.ltb_lt 0 den)) by lia.
    simpl delegations. rewrite slash_loop_eq;
      [|lia|ulia|by apply amounts_ok_total|rewrite <-(inv_totals r Hr v val Hv); ulia].
    destruct (delegated_to_slashed v rem den Hrem ltac:(ulia) (delegations r)
                (amounts_ok_total val Hv)) as [Hub _].
    rewrite (proj2 (Z.leb_le _ _)).
    2:{ pose proof (inv_totals r Hr v val Hv). ulia. }
    eexists. split; [reflexivity|]. simpl. split_and!; try done.
    by rewrite insert_insert_eq.
  - eexists. split; [reflexivity|]. simpl. split_and!; try done.
    f_equal. unfold val', ds. simpl. by rewrite <-(inv_totals r Hr v val Hv).
Qed.

Lemma reg_inv_slash r' amt : slash v bp r = (r', Ok amt) → reg_inv r'.
Proof.
  intros Hok. destruct (validators r !! v) as [val|] eqn:Hv; last first.
  { unfold slash, find_validator in Hok. unfold_st Hok. by rewrite Hv in Hok. }
  destruct (slash_eq val Hv) as [Hrem (r1 & E & Ev & Ed & _)].
  rewrite Hok in E. injection E as <- _.
  pose proof (inv_validators r Hr v val Hv) as Hwf.
  set (amt' := v_total_stake val * bp / 10000) in *.
  set (rem := amt' - Z.min amt' (v_self_stake val)) in *.
  set (ds := if 0 <? rem then _ else _) in *.
  assert (Hds : ∀ a, a ≠ v → delegated_to a ds = delegated_to a (delegations r)).
  { intros a Ha. unfold ds. destruct (0 <? rem); [by apply delegated_to_slashed_other|done]. }
  assert (Hle : 0 <= delegated_to v ds <= v_total_delegated val).
  { rewrite (inv_totals r Hr v val Hv). unfold ds. destruct (Z.ltb_spec 0 rem).
    - destruct Hwf as (_ & _ & ? & _). apply delegated_to_slashed; [lia|ulia|].
      by apply amounts_ok_total.
    - split; [|done]. eapply delegated_to_nonneg. apply (inv_entries r Hr). }
  assert (Hw : ∀ d es, ds !! d = Some es → entries_wf (validators r) d es).
  { intros d es. unfold ds. destruct (Z.ltb_spec 0 rem); [|by apply inv_entries].
    unfold slashed_map. rewrite lookup_fmap_Some. intros (es0 & <- & Hes0).
    destruct Hwf as (_ & _ & ? & _).
    apply entries_wf_slash; [lia|ulia| |by apply (inv_entries r Hr)].
    by eapply amounts_ok_total. }
  split; rewrite Ev, ?Ed.
  - intros a w. rewrite lookup_insert_Some. intros [[<- <-]|[_ ?]]; [|by apply (inv_validators r Hr)].
    destruct (slash_amount_range val Hwf) as [Ha1 Ha2]. fold amt' in Ha1, Ha2.
    unfold validator_wf in *. simpl. destruct Hwf as (?&?&?&?&?&?&?). split_and!; try done; ulia.
  - intros d es Hd. eapply entries_wf_mono; [|by apply Hw].
    intros a. rewrite lookup_insert. by case_decide.
  - intros a w. rewrite lookup_insert_Some. intros [[<- <-]|[? ?]]; [done|].
    rewrite Hds by done. by apply (inv_totals r Hr).
Qed.
End slash_op.
