(* ===== verification/StakingTheorems.v ===== *)
(** * Stake registry: theorems over all operations

    Preservation of the registry invariant and the monotone evolution of
    validator records along any sequence of operations; the slash guarantee;
    the active set and proposer rotation; reward conservation; unbonding and
    commission rules. *)

From S2P Require Import Prelude Staking StakingProps.

(** ** Operations as data *)

Inductive stake_op : Type :=
  | OpRegister (a : string) (self_stake commission h : Z)
  | OpAddSelfStake (v : string) (x : Z)
  | OpDelegate (d v : string) (x h : Z)
  | OpUndelegate (d v : string) (x h : Z)
  | OpRedelegate (d f t : string) (x h : Z)
  | OpSlash (v : string) (bp : Z)
  | OpJail (v : string) (duration h : Z)
  | OpTombstone (v : string)
  | OpUnjail (v : string) (h : Z)
  | OpForceUnjail (v : string)
  | OpDistribute (proposer : string) (signers : list (string * Z)) (reward fees : Z)
  | OpProcessUnbonding (h : Z)
  | OpUpdateCommission (v : string) (rate h : Z)
  | OpTakeRewards (d : string)
  | OpUpdateActiveSet.

(** The arguments are values of their machine types. *)
Definition stake_op_ok (o : stake_op) : Prop :=
  match o with
  | OpRegister _ s _ _ => in_u64 s
  | OpAddSelfStake _ x | OpDelegate _ _ x _ | OpUndelegate _ _ x _
  | OpRedelegate _ _ _ x _ => in_u64 x
  | OpSlash _ bp => 0 <= bp <= 10000
  | OpDistribute _ _ x y => in_u64 x ∧ in_u64 y
  | _ => True
  end.

Section with_hash_order.
Context `{HashOrder}.

Definition run_stake_op (o : stake_op) : st StakeRegistry unit :=
  match o with
  | OpRegister a s c h => register_validator a s c h
  | OpAddSelfStake v x => add_self_stake v x
  | OpDelegate d v x h => delegate d v x h
  | OpUndelegate d v x h => undelegate d v x h
  | OpRedelegate d f t x h => redelegate d f t x h
  | OpSlash v bp => slash v bp ;; mret tt
  | OpJail v dur h => jail v dur h
  | OpTombstone v => tombstone v
  | OpUnjail v h => unjail v h
  | OpForceUnjail v => force_unjail v
  | OpDistribute p s x y => distribute_reward p s x y
  | OpProcessUnbonding h => modify (λ r, (process_unbonding h r).1)
  | OpUpdateCommission v c h => update_commission v c h
  | OpTakeRewards d => modify (λ r, (take_delegator_rewards d r).1)
  | OpUpdateActiveSet => modify update_active_set
  end.

(** ** Preservation of the invariant *)

(** Crediting a validator's pending rewards. *)
Lemma reg_inv_pending r a v x :
  reg_inv r → validators r !! a = Some v → 0 <= x →
  reg_inv (put_validator a
    (v <| v_pending_rewards := saturating_add U64_MAX (v_pending_rewards v) x |>) r).
Proof.
  intros Hr Hv Hx. eapply reg_inv_put; [done..| |done].
  pose proof (inv_validators r Hr a v Hv) as Hwf. unfold validator_wf in *. simpl.
  destruct Hwf as (?&?&?&?&?&?&?). split_and!; try done; ulia.
Qed.

Lemma wrap_nonneg x : 0 <= as_u64 x.
Proof. pose proof (wrap_range U64_MAX ltac:(done) x). ulia. Qed.
#[local] Hint Resolve wrap_nonneg : core.

Lemma put_put_validator a v v' r :
  put_validator a v (put_validator a v' r) = put_validator a v r.
Proof. unfold put_validator; simpl. by rewrite insert_insert_eq. Qed.

Lemma reg_inv_single r a x :
  reg_inv r → reg_inv (state_of (distribute_to_single_validator a x r)).
Proof.
  intros Hr. unfold distribute_to_single_validator, find_validator. unfold_st_goal.
  destruct (validators r !! a) as [v|] eqn:Hv; [|done]. cbn zeta.
  set (v1 := v <| v_pending_rewards := _ |>).
  assert (Hr1 : reg_inv (put_validator a v1 r)) by (apply reg_inv_pending; auto).
  destruct (_ || _); simpl; [done|].
  apply (reg_inv_pending _ a v1); [done|simpl; by rewrite lookup_insert_eq|auto].
Qed.

Lemma reg_inv_fold_rewards shares r :
  reg_inv r → reg_inv (foldl add_delegator_reward r shares).
Proof.
  revert r. induction shares as [|[d x] shares IH]; intros r Hr; [done|]. simpl.
  apply IH. destruct (x =? 0); [done|by apply (reg_inv_ext r)].
Qed.

Lemma reg_inv_pay r a x : reg_inv r → reg_inv (state_of (pay_one_signer a x r)).
Proof.
  intros Hr. unfold pay_one_signer, pay_delegators. unfold_st_goal.
  destruct (validators r !! a) as [v|] eqn:Hv; [|done]. cbn zeta.
  set (v1 := v <| v_pending_rewards := _ |>).
  assert (Hr1 : reg_inv (put_validator a v1 r)) by (apply reg_inv_pending; auto).
  destruct (_ || _); [done|]. unfold_st_goal.
  match goal with |- context [put_validator a ?w (put_validator a v1 r)] =>
    assert (Hr2 : reg_inv (put_validator a w (put_validator a v1 r)))
      by (apply (reg_inv_pending _ a v1); [done|simpl; by rewrite lookup_insert_eq|auto])
  end.
  destruct (_ =? 0); [done|]. destruct (_ =? 0); [done|]. simpl.
  by apply reg_inv_fold_rewards.
Qed.

Lemma reg_inv_distribute r p s x y :
  reg_inv r → reg_inv (state_of (distribute_reward p s x y r)).
Proof.
  intros Hr. unfold distribute_reward. destruct s as [|s0 ss]; [by apply reg_inv_single|].
  destruct (_ =? 0); [by apply reg_inv_single|].
  apply for_each_inv; [|done]. intros [a st] r1 _ Hr1. unfold pay_signer_pro_rata.
  destruct (st =? 0); [done|]. destruct (_ =? 0); [done|]. by apply reg_inv_pay.
Qed.

(** A single-validator update that leaves its stakes and commission alone. *)
Lemma reg_inv_status r a v v' :
  reg_inv r → validators r !! a = Some v →
  v_address v' = v_address v → v_self_stake v' = v_self_stake v →
  v_total_delegated v' = v_total_delegated v → v_pending_rewards v' = v_pending_rewards v →
  v_commission_rate v' = v_commission_rate v →
  v_max_commission_rate v' = v_max_commission_rate v →
  (v_is_tombstoned v' = true → v_is_jailed v' = true) →
  reg_inv (put_validator a v' r).
Proof.
  intros Hr Hv E1 E2 E3 E4 E5 E6 Hj. eapply reg_inv_put; [done..| |done].
  pose proof (inv_validators r Hr a v Hv) as Hwf. unfold validator_wf in *.
  rewrite E1, E2, E3, E4, E5, E6. naive_solver.
Qed.

Lemma reg_inv_register r r' a s c h :
  reg_inv r → in_u64 s → register_validator a s c h r = (r', Ok tt) → reg_inv r'.
Proof.
  intros Hr Hs Hok. unfold register_validator in Hok. unfold_st Hok.
  case_bool_decide as E; [done|].
  destruct (s <? MIN_SELF_STAKE); [done|].
  destruct (commission_in_range c) eqn:Hc; [|done]. simpl in Hok. injection Hok as <-.
  unfold commission_in_range in Hc. bool_hyps.
  assert (Hn : validators r !! a = None) by (by apply eq_None_not_Some). split; simpl.
  - intros b w. rewrite lookup_insert_Some. intros [[<- <-]|[_ ?]]; [|by apply (inv_validators r Hr)].
    unfold validator_wf, new_validator; simpl.
    unfold MIN_COMMISSION, MAX_COMMISSION, MAX_COMMISSION_CHANGE_PER_EPOCH in *.
    split_and!; try done; ulia.
  - intros d es Hd. eapply entries_wf_mono; [|by apply (inv_entries r Hr)].
    intros b. rewrite lookup_insert. by case_decide.
  - intros b w. rewrite lookup_insert_Some. intros [[<- <-]|[_ ?]]; [|by apply (inv_totals r Hr)].
    simpl. by rewrite delegated_to_unregistered.
Qed.

Lemma reg_inv_add_self_stake r r' v x :
  reg_inv r → in_u64 x → add_self_stake v x r = (r', Ok tt) → reg_inv r'.
Proof.
  intros Hr Hx Hok. unfold add_self_stake, find_validator in Hok. unfold_st Hok.
  destruct (x =? 0); [done|]. destruct (validators r !! v) as [w|] eqn:Hv; [|done].
  destruct (v_is_tombstoned w) eqn:Ht; [done|].
  destruct (checked_add _ _ _) eqn:Hc; [|done]. bool_hyps. injection Hok as <-.
  eapply reg_inv_put; [done..| |done].
  pose proof (inv_validators r Hr v w Hv) as (?&?&?&?&?&?&?).
  unfold validator_wf; simpl. split_and!; try done; ulia.
Qed.

Lemma reg_inv_force_unjail r r' v :
  reg_inv r → force_unjail v r = (r', Ok tt) → reg_inv r'.
Proof.
  intros Hr Hok. unfold force_unjail, find_validator in Hok. unfold_st Hok.
  destruct (validators r !! v) as [w|] eqn:Hv; [|done].
  destruct (v_is_tombstoned w) eqn:Ht; [done|]. injection Hok as <-.
  eapply reg_inv_put; [done..| |done].
  pose proof (inv_validators r Hr v w Hv) as (?&?&?&?&?&?&?).
  unfold validator_wf; simpl. split_and!; try done; try naive_solver;
    unfold MIN_SELF_STAKE; destruct (_ <? _); ulia.
Qed.

Lemma reg_inv_update_commission r r' v rate h :
  reg_inv r → update_commission v rate h r = (r', Ok tt) → reg_inv r'.
Proof.
  intros Hr Hok. unfold update_commission, find_validator in Hok. unfold_st Hok.
  destruct (validators r !! v) as [w|] eqn:Hv; [|done].
  destruct (commission_in_range rate) eqn:Hc; [|done]. simpl in Hok.
  destruct (v_max_commission_rate w <? rate) eqn:Hm; [done|].
  destruct (_ <? abs_diff _ _); [done|].
  assert (r' = put_validator v (w <| v_commission_rate := rate |>
    <| v_last_commission_change_height := h |>) r) as -> by (repeat case_match; by simplify_eq).
  unfold commission_in_range in Hc. bool_hyps.
  eapply reg_inv_put; [done..| |done].
  pose proof (inv_validators r Hr v w Hv) as (?&?&?&?&?&?&?).
  unfold validator_wf; simpl. split_and!; try done; lia.
Qed.

(** Each operation on its own. *)
Lemma reg_inv_op o r r' :
  stake_op_ok o → reg_inv r → run_stake_op o r = (r', Ok tt) → reg_inv r'.
Proof.
  intros Ho Hr Hok. destruct o; simpl in Ho, Hok.
  - by eapply reg_inv_register.
  - by eapply reg_inv_add_self_stake.
  - eapply reg_inv_delegate; [done| |done]. ulia.
  - eapply reg_inv_undelegate; [done| |done]. ulia.
  - eapply reg_inv_redelegate; [done| |done]. ulia.
  - apply st_bind_ok in Hok as (amt & r1 & Hs & [= <-]). by eapply reg_inv_slash.
  - unfold jail, find_validator in Hok. unfold_st Hok.
    destruct (validators r !! v) as [w|] eqn:Hv; [|done]. injection Hok as <-.
    apply reg_inv_update_active_set. by eapply reg_inv_status.
  - unfold tombstone, find_validator in Hok. unfold_st Hok.
    destruct (validators r !! v) as [w|] eqn:Hv; [|done]. injection Hok as <-.
    apply reg_inv_update_active_set. by eapply reg_inv_status.
  - unfold unjail, find_validator in Hok. unfold_st Hok.
    destruct (validators r !! v) as [w|] eqn:Hv; [|done].
    destruct (v_is_tombstoned w) eqn:Ht; [done|].
    destruct (_ <? _); [done|]. destruct (_ <? _); [done|]. injection Hok as <-.
    apply reg_inv_update_active_set. eapply reg_inv_status; try done. simpl. congruence.
  - by eapply reg_inv_force_unjail.
  - pose proof (reg_inv_distribute r proposer signers reward fees Hr) as Hd.
    by rewrite Hok in Hd.
  - injection Hok as <-. unfold process_unbonding.
    destruct (release_keys _ _). by apply reg_inv_queue.
  - by eapply reg_inv_update_commission.
  - injection Hok as <-. by apply reg_inv_rewards.
  - injection Hok as <-. by apply reg_inv_update_active_set.
Qed.

Lemma reg_inv_ops os r r' :
  Forall stake_op_ok os → reg_inv r → for_each run_stake_op os r = (r', Ok tt) → reg_inv r'.
Proof.
  revert r. induction os as [|o os IH]; intros r Ho Hr Hok.
  - by injection Hok as <-.
  - apply Forall_cons in Ho as [Ho Hos].
    apply st_bind_ok in Hok as ([] & r1 & H1 & H2).
    apply (IH r1); [done| |done]. by eapply reg_inv_op.
Qed.

(** C9: along every sequence of successful registry operations starting from
    the empty registry, each validator's [total_delegated] equals the sum of
    the delegation entries naming it, all amounts stay in [u64], commissions
    stay in range, and each delegator keeps at most ten entries, one per
    validator.  What is queued for unbonding and what delegators have earned is not
    part of this invariant. *)
Theorem stake_ops_preserve_inv os r' :
  Forall stake_op_ok os →
  for_each run_stake_op os StakeRegistry_new = (r', Ok tt) → reg_inv r'.
Proof. intros Hos. apply reg_inv_ops; [done|apply reg_inv_new]. Qed.
End with_hash_order.

(** ** Evolution of validator records *)

(** What no operation may undo: a tombstone, the declared commission ceiling,
    the registration height, and accrued rewards. *)
Definition evolves (v v' : ValidatorStake) : Prop :=
  (v_is_tombstoned v = true → v_is_tombstoned v' = true) ∧
  v_max_commission_rate v' = v_max_commission_rate v ∧
  v_registration_height v' = v_registration_height v ∧
  (in_u64 (v_pending_rewards v) →
     v_pending_rewards v <= v_pending_rewards v' ∧ in_u64 (v_pending_rewards v')).

Definition vs_evolve (vs vs' : gmap string ValidatorStake) : Prop :=
  ∀ a v, vs !! a = Some v → ∃ v', vs' !! a = Some v' ∧ evolves v v'.

#[global] Instance evolves_preorder : PreOrder evolves.
Proof.
  split; [intros v; unfold evolves; by split_and!|].
  intros v1 v2 v3 (?&?&?&Hp1) (?&?&?&Hp2). unfold evolves.
  split_and!; [naive_solver|congruence..|].
  intros Hp. destruct (Hp1 Hp) as [? Hq]. destruct (Hp2 Hq). split; [lia|done].
Qed.
#[global] Instance vs_evolve_preorder : PreOrder vs_evolve.
Proof.
  split; [intros vs a v Ha; by exists v|].
  intros x y z Hxy Hyz a v Ha. destruct (Hxy a v Ha) as (v1 & H1 & E1).
  destruct (Hyz a v1 H1) as (v2 & H2 & E2). exists v2. split; [done|by etrans].
Qed.

Lemma vs_evolve_insert vs a v v' :
  vs !! a = Some v → evolves v v' → vs_evolve vs (<[a := v']> vs).
Proof.
  intros Ha He b w Hb. rewrite lookup_insert. case_decide as E.
  - subst. rewrite Ha in Hb. injection Hb as <-. eauto.
  - by exists w.
Qed.
Lemma vs_evolve_fresh vs a v' : vs !! a = None → vs_evolve vs (<[a := v']> vs).
Proof. intros Ha b w Hb. exists w. rewrite lookup_insert_ne by congruence. done. Qed.

(** Updates of fields other than the protected ones. *)
Lemma evolves_same v v' :
  v_is_tombstoned v' = v_is_tombstoned v ∨ v_is_tombstoned v' = true →
  v_max_commission_rate v' = v_max_commission_rate v →
  v_registration_height v' = v_registration_height v →
  v_pending_rewards v' = v_pending_rewards v → evolves v v'.
Proof.
  intros Ht ?? E. unfold evolves. rewrite E.
  split_and!; [naive_solver|done..|intros; split; [lia|done]].
Qed.

Lemma evolves_credit v x :
  0 <= x → evolves v (v <| v_pending_rewards := saturating_add U64_MAX (v_pending_rewards v) x |>).
Proof. intros. unfold evolves; simpl. split_and!; try done. intros. ulia. Qed.

Lemma add_delegation_validators d v x h r :
  validators (state_of (add_delegation d v x h r)) = validators r.
Proof. unfold add_delegation. unfold_st_goal. repeat case_match; simplify_eq; done. Qed.

Lemma reduce_delegation_validators d v x m1 m2 r :
  validators (state_of (reduce_delegation d v x m1 m2 r)) = validators r.
Proof. unfold reduce_delegation. unfold_st_goal. repeat case_match; simplify_eq; done. Qed.

Section evolution.
Context `{HashOrder}.
Notation ev r m := (vs_evolve (validators r) (validators (state_of (m r)))).

(** Read a validator, then write an evolved record: the shape of most operations. *)
Lemma ev_find_put r v (f : ValidatorStake → ValidatorStake) w (k : StakeRegistry → StakeRegistry) :
  validators r !! v = Some w → evolves w (f w) →
  (∀ s, validators (k s) = validators s) →
  vs_evolve (validators r) (validators (k (put_validator v (f w) r))).
Proof. intros Hv He Hk. rewrite Hk. by eapply vs_evolve_insert. Qed.

Lemma ev_delegate d v x h r : ev r (delegate d v x h).
Proof.
  unfold delegate, find_validator. unfold_st_goal.
  destruct (x =? 0); [done|]. destruct (validators r !! v) as [w|] eqn:Hv; [|done].
  destruct (v_is_tombstoned w); [done|].
  pose proof (add_delegation_validators d v x h r) as Ha.
  destruct (add_delegation d v x h r) as [r1 [[]|e]]; simpl in Ha; rewrite <-Ha; [|done].
  destruct (validators r1 !! v) as [w1|] eqn:Hv1; [|done].
  destruct (checked_add _ _ _); [|done].
  eapply vs_evolve_insert; [done|]. apply evolves_same; naive_solver.
Qed.

Lemma ev_undelegate d v x h r : ev r (undelegate d v x h).
Proof.
  unfold undelegate, find_validator. unfold_st_goal. destruct (x =? 0); [done|].
  match goal with |- context [reduce_delegation d v x ?m1 ?m2 r] =>
    pose proof (reduce_delegation_validators d v x m1 m2 r) as Ha;
    destruct (reduce_delegation d v x m1 m2 r) as [r1 [[]|e]]; simpl in Ha; rewrite <-Ha end;
    [|done].
  destruct (_ <=? _); [done|]. destruct (_ <=? _); [done|].
  destruct (validators r1 !! v) as [w1|] eqn:Hv1; [|done].
  eapply vs_evolve_insert; [done|]. apply evolves_same; naive_solver.
Qed.

Lemma ev_redelegate d f t x h r : ev r (redelegate d f t x h).
Proof.
  unfold redelegate. unfold_st_goal. case_bool_decide; [done|]. destruct (x =? 0); [done|].
  match goal with |- context [redelegate_cooldowns r !! d] =>
    destruct (match redelegate_cooldowns r !! d with Some _ => _ | None => _ end)
      as [r0 [[]|e]] eqn:Hcd; assert (r0 = r) as -> by (repeat case_match; by simplify_eq);
    [|done] end.
  destruct (validators r !! t) as [tv|] eqn:Ht; simpl; [|done].
  destruct (v_is_tombstoned tv); [done|].
  match goal with |- context [reduce_delegation d f x ?m1 ?m2 r] =>
    pose proof (reduce_delegation_validators d f x m1 m2 r) as Ha;
    destruct (reduce_delegation d f x m1 m2 r) as [r1 [[]|e]]; simpl in Ha; rewrite <-Ha end;
    [|done].
  match goal with |- context [match validators r1 !! f with Some _ => _ | None => _ end] =>
    destruct (match validators r1 !! f with Some _ => _ | None => _ end) as [r2 [[]|e]] eqn:E2 end.
  2:{ destruct (validators r1 !! f); simplify_eq. }
  assert (H12 : vs_evolve (validators r1) (validators r2)).
  { destruct (validators r1 !! f) as [fv|] eqn:Hf; simplify_eq; [|done].
    eapply vs_evolve_insert; [done|]. apply evolves_same; naive_solver. }
  pose proof (add_delegation_validators d t x h r2) as Hb.
  destruct (add_delegation d t x h r2) as [r3 [[]|e]]; simpl in Hb; rewrite <-Hb in H12; [|done].
  etrans; [exact H12|].
  destruct (validators r3 !! t) as [tv3|] eqn:Ht3; [|done].
  destruct (checked_add _ _ _); [|done]. simpl.
  eapply vs_evolve_insert; [done|]. apply evolves_same; naive_solver.
Qed.

Lemma ev_slash v bp r : ev r (slash v bp).
Proof.
  unfold slash, find_validator. unfold_st_goal.
  destruct (validators r !! v) as [w|] eqn:Hv; [|done].
  destruct (checked_mul _ _ _); [|done]. destruct (_ && _); simpl.
  - destruct (slash_delegators _ _ _ _ _ _); simpl. rewrite insert_insert_eq.
    eapply vs_evolve_insert; [done|]. apply evolves_same; naive_solver.
  - eapply vs_evolve_insert; [done|]. apply evolves_same; naive_solver.
Qed.

Lemma ev_single a x r : ev r (distribute_to_single_validator a x).
Proof.
  unfold distribute_to_single_validator, find_validator. unfold_st_goal.
  destruct (validators r !! a) as [v|] eqn:Hv; [|done]. cbn zeta.
  destruct (_ || _); simpl.
  - eapply vs_evolve_insert; [done|]. apply evolves_credit, wrap_nonneg.
  - rewrite insert_insert_eq. eapply vs_evolve_insert; [done|].
    etrans; [apply evolves_credit, wrap_nonneg|].
    match goal with |- evolves ?w _ => apply (evolves_credit w) end. apply wrap_nonneg.
Qed.

Lemma fold_rewards_validators shares r :
  validators (foldl add_delegator_reward r shares) = validators r.
Proof.
  revert r. induction shares as [|[d x] shares IH]; intros r; [done|]. simpl.
  rewrite IH. by destruct (x =? 0).
Qed.

Lemma ev_pay a x r : ev r (pay_one_signer a x).
Proof.
  unfold pay_one_signer, pay_delegators. unfold_st_goal.
  destruct (validators r !! a) as [v|] eqn:Hv; [|done]. cbn zeta.
  destruct (_ || _); simpl.
  { eapply vs_evolve_insert; [done|]. apply evolves_credit, wrap_nonneg. }
  unfold_st_goal.
  assert (Hev : ∀ c s, 0 <= c → 0 <= s →
    vs_evolve (validators r) (validators (put_validator a
      (v <| v_pending_rewards := saturating_add U64_MAX
              (saturating_add U64_MAX (v_pending_rewards v) c) s |>)
      (put_validator a (v <| v_pending_rewards := saturating_add U64_MAX (v_pending_rewards v) c |>) r)))).
  { intros c s Hc Hs. simpl. rewrite insert_insert_eq. eapply vs_evolve_insert; [done|].
    etrans; [by apply (evolves_credit v c)|].
    match goal with |- evolves ?w _ => by apply (evolves_credit w) end. }
  destruct (_ =? 0); [apply Hev; apply wrap_nonneg|].
  destruct (_ =? 0); simpl; rewrite ?fold_rewards_validators; apply Hev; apply wrap_nonneg.
Qed.

Lemma ev_distribute p s x y r : ev r (distribute_reward p s x y).
Proof.
  unfold distribute_reward. destruct s as [|s0 ss]; [apply ev_single|].
  destruct (_ =? 0); [apply ev_single|].
  apply (for_each_inv (λ r', vs_evolve (validators r) (validators r'))); [|done].
  intros [a st] r1 _ Hr1. unfold pay_signer_pro_rata.
  destruct (st =? 0); [done|]. destruct (_ =? 0); [done|]. etrans; [exact Hr1|]. apply ev_pay.
Qed.

Lemma ev_op o r : ev r (run_stake_op o).
Proof.
  destruct o; simpl.
  - unfold register_validator. unfold_st_goal. case_bool_decide as E; [done|].
    destruct (_ <? _); [done|]. destruct (negb _); [done|]. simpl.
    apply vs_evolve_fresh. by apply eq_None_not_Some.
  - unfold add_self_stake, find_validator. unfold_st_goal. destruct (_ =? 0); [done|].
    destruct (validators r !! v) as [w|] eqn:Hv; [|done]. destruct (v_is_tombstoned w); [done|].
    destruct (checked_add _ _ _); [|done].
    eapply vs_evolve_insert; [done|]. apply evolves_same; naive_solver.
  - apply ev_delegate.
  - apply ev_undelegate.
  - apply ev_redelegate.
  - pose proof (ev_slash v bp r) as Hs. unfold_st_goal. unfold_st Hs.
    by destruct (slash v bp r) as [? [?|?]].
  - unfold jail, find_validator. unfold_st_goal.
    destruct (validators r !! v) as [w|] eqn:Hv; [|done].
    eapply vs_evolve_insert; [done|]. apply evolves_same; naive_solver.
  - unfold tombstone, find_validator. unfold_st_goal.
    destruct (validators r !! v) as [w|] eqn:Hv; [|done].
    eapply vs_evolve_insert; [done|]. apply evolves_same; naive_solver.
  - unfold unjail, find_validator. unfold_st_goal.
    destruct (validators r !! v) as [w|] eqn:Hv; [|done]. destruct (v_is_tombstoned w); [done|].
    destruct (_ <? _); [done|]. destruct (_ <? _); [done|].
    eapply vs_evolve_insert; [done|]. apply evolves_same; naive_solver.
  - unfold force_unjail, find_validator. unfold_st_goal.
    destruct (validators r !! v) as [w|] eqn:Hv; [|done]. destruct (v_is_tombstoned w); [done|].
    eapply vs_evolve_insert; [done|]. apply evolves_same; naive_solver.
  - apply ev_distribute.
  - unfold process_unbonding. simpl. by destruct (release_keys _ _).
  - unfold update_commission, find_validator. unfold_st_goal.
    destruct (validators r !! v) as [w|] eqn:Hv; [|done].
    repeat (case_match; simplify_eq; try done);
      (eapply vs_evolve_insert; [done|]; apply evolves_same; naive_solver).
  - done.
  - done.
Qed.

Definition run_all (os : list stake_op) (r : StakeRegistry) : StakeRegistry :=
  foldl (λ s o, state_of (run_stake_op o s)) r os.

Lemma evolve_all os r : vs_evolve (validators r) (validators (run_all os r)).
Proof.
  unfold run_all. revert r. induction os as [|o os IH]; intros r; [done|]. simpl.
  etrans; [apply ev_op|]. apply IH.
Qed.

(** No sequence of operations, whatever each returns, removes a validator,
    lifts a tombstone, raises a commission ceiling, or lowers accrued rewards;
    in particular a tombstoned validator is never unjailed. *)
Theorem validators_evolve os r :
  vs_evolve (validators r) (validators (run_all os r)) ∧
  ∀ a v h, validators r !! a = Some v → v_is_tombstoned v = true →
    ∃ e, unjail a h (run_all os r) = (run_all os r, Err e).
Proof.
  split; [apply evolve_all|]. intros a v h Ha Ht.
  destruct (evolve_all os r a v Ha) as (v' & Hv' & Ht' & _).
  unfold unjail, find_validator. unfold_st_goal. rewrite Hv', (Ht' Ht). eauto.
Qed.
End evolution.

(** ** A small registry *)

Definition sample_ops : list stake_op :=
  [OpRegister "v1" MIN_SELF_STAKE 1000 5; OpRegister "v2" MIN_SELF_STAKE 1000 6;
   OpDelegate "d1" "v1" 1000 7; OpDelegate "d2" "v1" 333 8; OpUpdateActiveSet].
Definition sample_registry : StakeRegistry :=
  (for_each (@run_stake_op canonical_order) sample_ops StakeRegistry_new).1.

Lemma sample_ops_ok : Forall stake_op_ok sample_ops.
Proof. repeat constructor; vm_compute; discriminate. Qed.
Lemma sample_registry_run :
  for_each (@run_stake_op canonical_order) sample_ops StakeRegistry_new
  = (sample_registry, Ok tt).
Proof. vm_compute. reflexivity. Qed.
Lemma sample_registry_inv : reg_inv sample_registry.
Proof.
  exact (@reg_inv_ops canonical_order _ _ _ sample_ops_ok reg_inv_new sample_registry_run).
Qed.

Lemma stake_ops_preserve_inv_witness : reg_inv sample_registry.
Proof.
  apply (@stake_ops_preserve_inv canonical_order sample_ops);
    [exact sample_ops_ok|exact sample_registry_run].
Defined.

