(* ===== verification/StakingSets.v ===== *)
(** * Active set and proposer rotation

    [compute_active_set] selects the top eligible validators in an order that
    does not depend on hash-map iteration; [weighted_proposer] rotates through
    the set. *)

From S2P Require Import Prelude Staking StakingProps StakingTheorems.

(** ** The comparator *)

#[global] Instance stake_order_total : Total stake_order.
Proof.
  intros a b. unfold stake_order.
  destruct (Z.lt_trichotomy (v_total_stake a) (v_total_stake b)) as [?|[?|?]]; [auto| |auto].
  destruct (total String.le (v_address a) (v_address b)); auto.
Qed.
#[global] Instance stake_order_trans : Transitive stake_order.
Proof.
  intros a b c. unfold stake_order. intros [?|[? ?]] [?|[? ?]]; [left; lia..|].
  right. split; [congruence|]. by etrans.
Qed.
Lemma stake_order_antisym a b : stake_order a b → stake_order b a → v_address a = v_address b.
Proof.
  unfold stake_order. intros [?|[? ?]] [?|[? ?]]; try lia. by apply (anti_symm String.le).
Qed.

Definition addresses_wf (r : StakeRegistry) : Prop :=
  ∀ a v, validators r !! a = Some v → v_address v = a.

Lemma reg_inv_addresses r : reg_inv r → addresses_wf r.
Proof. intros Hr a v Hv. by apply (inv_validators r Hr a v Hv). Qed.

Section active_set.
Context `{HashOrder} (r : StakeRegistry) (Hwf : addresses_wf r).

Notation sorted := (merge_sort stake_order (eligible_validators r)).

Lemma elem_of_eligible v :
  v ∈ eligible_validators r ↔
  is_active_eligible v = true ∧ validators r !! v_address v = Some v.
Proof.
  unfold eligible_validators. rewrite list_elem_of_filter, elem_of_hm_values. split.
  - intros [? [k Hk]]. pose proof (Hwf k v Hk). subst. done.
  - naive_solver.
Qed.

Lemma NoDup_eligible_addresses : NoDup (v_address <$> eligible_validators r).
Proof.
  assert (Hv : v_address <$> hm_values (validators r) = hm_keys (validators r)).
  { unfold hm_values, hm_keys. rewrite <-list_fmap_compose. apply list_fmap_ext.
    intros i [k v] Hi. simpl. apply Hwf, elem_of_hm_entries.
    by eapply list_elem_of_lookup_2. }
  eapply sublist_NoDup; [apply (NoDup_hm_keys (validators r))|].
  rewrite <-Hv. apply fmap_sublist, sublist_filter.
Qed.

Lemma elem_of_sorted v : v ∈ sorted ↔ v ∈ eligible_validators r.
Proof. by rewrite merge_sort_Permutation. Qed.

Lemma sorted_address_inj v w :
  v ∈ sorted → w ∈ sorted → v_address v = v_address w → v = w.
Proof.
  rewrite !elem_of_sorted, !elem_of_eligible. intros [_ Hv] [_ Hw] E. congruence.
Qed.

Lemma active_set_NoDup : NoDup (compute_active_set r).
Proof.
  unfold compute_active_set. rewrite fmap_take. eapply sublist_NoDup; [|apply sublist_take].
  rewrite merge_sort_Permutation. apply NoDup_eligible_addresses.
Qed.

Lemma active_set_length :
  length (compute_active_set r)
  = (MAX_ACTIVE_VALIDATORS `min` length (eligible_validators r))%nat.
Proof.
  unfold compute_active_set. rewrite length_fmap, length_take. f_equal.
  by rewrite merge_sort_Permutation.
Qed.

Lemma elem_of_active_set a :
  a ∈ compute_active_set r ↔
  ∃ v, v ∈ take MAX_ACTIVE_VALIDATORS sorted ∧ validators r !! a = Some v ∧ v_address v = a.
Proof.
  unfold compute_active_set. rewrite list_elem_of_fmap. split.
  - intros (v & -> & Hv). exists v. split_and!; [done| |done].
    assert (Hs : v ∈ sorted) by (eapply elem_of_sublist; [done|apply sublist_take]).
    by apply elem_of_sorted, elem_of_eligible in Hs as [_ ?].
  - intros (v & Hv & _ & <-). eauto.
Qed.

Lemma active_set_eligible a :
  a ∈ compute_active_set r → ∃ v, validators r !! a = Some v ∧ is_active_eligible v = true.
Proof.
  intros (v & Hv & Ha & _)%elem_of_active_set. exists v. split; [done|].
  assert (Hs : v ∈ sorted) by (eapply elem_of_sublist; [done|apply sublist_take]).
  by apply elem_of_sorted, elem_of_eligible in Hs as [? _].
Qed.

Lemma active_set_top a v :
  validators r !! a = Some v → is_active_eligible v = true → a ∉ compute_active_set r →
  length (compute_active_set r) = MAX_ACTIVE_VALIDATORS ∧
  ∀ b w, b ∈ compute_active_set r → validators r !! b = Some w → stake_order w v.
Proof.
  intros Ha He Hn. pose proof (Hwf a v Ha) as Hav.
  assert (Hin : v ∈ sorted).
  { apply elem_of_sorted, elem_of_eligible. by rewrite Hav. }
  assert (Hdrop : v ∈ drop MAX_ACTIVE_VALIDATORS sorted).
  { rewrite <-(take_drop MAX_ACTIVE_VALIDATORS) in Hin.
    apply elem_of_app in Hin as [Hin|Hin]; [|done].
    destruct Hn. apply elem_of_active_set. eauto. }
  split.
  - rewrite active_set_length. apply Nat.min_l.
    assert (0 < length (drop MAX_ACTIVE_VALIDATORS sorted))%nat as Hl
      by (destruct (drop _ sorted); [set_solver|simpl; lia]).
    rewrite length_drop, merge_sort_Permutation in Hl. lia.
  - intros b w Hb Hw. apply elem_of_active_set in Hb as (w' & Hw' & Hbw & _).
    rewrite Hw in Hbw. injection Hbw as <-.
    eapply (StronglySorted_app_1_elem_of stake_order); [|exact Hw'|exact Hdrop].
    rewrite take_drop. apply StronglySorted_merge_sort; apply _.
Qed.
End active_set.

(** C20: the active set is duplicate-free, has at most 21 members, all of them
    registered, unjailed, untombstoned and above the minimum self-stake; and an
    eligible validator is left out only when the set is full of validators
    that precede it in (stake descending, address ascending) order. *)
Theorem compute_active_set_spec `{HashOrder} r :
  addresses_wf r →
  NoDup (compute_active_set r) ∧
  (length (compute_active_set r) <= MAX_ACTIVE_VALIDATORS)%nat ∧
  (∀ a, a ∈ compute_active_set r →
     ∃ v, validators r !! a = Some v ∧ is_active_eligible v = true) ∧
  (∀ a v, validators r !! a = Some v → is_active_eligible v = true →
     a ∉ compute_active_set r →
     length (compute_active_set r) = MAX_ACTIVE_VALIDATORS ∧
     ∀ b w, b ∈ compute_active_set r → validators r !! b = Some w → stake_order w v).
Proof.
  intros Hwf. split_and!.
  - by apply active_set_NoDup.
  - rewrite active_set_length. lia.
  - by apply active_set_eligible.
  - by apply active_set_top.
Qed.

(** Two processes that iterate their hash maps in different orders compute
    the same active set. *)
Theorem compute_active_set_deterministic (O1 O2 : HashOrder) r :
  addresses_wf r → @compute_active_set O1 r = @compute_active_set O2 r.
Proof.
  intros Hwf. unfold compute_active_set. do 2 f_equal.
  apply (Sorted_unique_strong stake_order).
  - intros v w Hv Hw H1 H2. 
    pose proof (stake_order_antisym v w H1 H2) as E.
    rewrite (@elem_of_sorted O1 r), (@elem_of_eligible O1 r Hwf) in Hv.
    rewrite (@elem_of_sorted O2 r), (@elem_of_eligible O2 r Hwf) in Hw.
    destruct Hv as [_ Hv], Hw as [_ Hw]. congruence.
  - apply Sorted_merge_sort, _.
  - apply Sorted_merge_sort, _.
  - rewrite !merge_sort_Permutation. unfold eligible_validators, hm_values.
    by rewrite (@hm_entries_perm O1), (@hm_entries_perm O2).
Qed.

(** A jailed, tombstoned or under-staked validator leaves the set at once. *)
Lemma ineligible_not_active `{HashOrder} r a v :
  addresses_wf r → validators r !! a = Some v → is_active_eligible v = false →
  a ∉ active_set (update_active_set r).
Proof.
  intros Hwf Ha He Hin. simpl in Hin.
  apply active_set_eligible in Hin as (v' & Hv' & He'); [|done]. congruence.
Qed.

(** Jailing or tombstoning evicts the validator from the proposer
    rotation in the same call. *)
Theorem jail_evicts `{HashOrder} r r' v duration h :
  addresses_wf r →
  (jail v duration h r = (r', Ok tt) ∨ tombstone v r = (r', Ok tt)) →
  v ∉ active_set r' ∧ ∀ height round, weighted_proposer r' height round ≠ Some v.
Proof.
  intros Hwf Hop.
  assert (v ∉ active_set r') as Hv.
  { destruct Hop as [Hop|Hop]; unfold jail, tombstone, find_validator in Hop; unfold_st Hop;
      (destruct (validators r !! v) as [w|] eqn:Hv; [|done]); injection Hop as <-;
      (eapply ineligible_not_active;
        [intros a u; rewrite lookup_put_validator; case_decide; intros; simplify_eq; simpl;
         eauto using Hwf
        |rewrite lookup_put_validator; by rewrite decide_True
        |done]). }
  split; [done|]. intros height round Hp. unfold weighted_proposer in Hp.
  destruct (active_set r') eqn:E; [done|]. rewrite <-E in Hp, Hv.
  apply Hv. by eapply list_elem_of_lookup_2.
Qed.

(** ** Proposer rotation *)

Lemma weighted_proposer_lookup r height round :
  active_set r ≠ [] →
  weighted_proposer r height round
  = active_set r !! Z.to_nat (wrapping_add U64_MAX height round mod Z.of_nat (length (active_set r))).
Proof. unfold weighted_proposer. by destruct (active_set r). Qed.

(** Away from the 64-bit wrap-around, in any window of as many consecutive
    rounds as there are active validators, each of them is the proposer in
    exactly one round, so stake gives no extra proposer slots. *)
Theorem proposer_rotation_fair r height a :
  NoDup (active_set r) → a ∈ active_set r →
  let n := Z.of_nat (length (active_set r)) in
  0 <= height → height + n <= U64_MAX →
  ∃ round, 0 <= round < n ∧ weighted_proposer r height round = Some a ∧
    ∀ round', 0 <= round' < n → weighted_proposer r height round' = Some a → round' = round.
Proof.
  intros Hnd Ha n Hh Hn.
  assert (Hne : active_set r ≠ []) by (destruct (active_set r); [set_solver|done]).
  apply list_elem_of_lookup in Ha as [j Hj].
  pose proof (lookup_lt_Some _ _ _ Hj) as Hjn.
  assert (Hidx : ∀ i, 0 <= i < n →
    weighted_proposer r height i = active_set r !! Z.to_nat ((height + i) mod n)).
  { intros i Hi. rewrite weighted_proposer_lookup by done. fold n.
    unfold wrapping_add. rewrite wrap_small by ulia. done. }
  assert (Hpos : 0 < n) by lia.
  exists ((Z.of_nat j - height) mod n).
  pose proof (Z.mod_pos_bound (Z.of_nat j - height) n Hpos). split_and!; [lia|lia| |].
  - rewrite Hidx by done. rewrite Z.add_mod_idemp_r by lia.
    replace (height + (Z.of_nat j - height)) with (Z.of_nat j) by lia.
    rewrite Z.mod_small by lia. by rewrite Nat2Z.id.
  - intros i Hi Hp. rewrite Hidx in Hp by done.
    assert (E : Z.to_nat ((height + i) mod n) = j) by (eapply NoDup_lookup; eauto).
    pose proof (Z.mod_pos_bound (height + i) n Hpos).
    assert (E' : Z.of_nat j = (height + i) mod n) by lia. rewrite E'.
    rewrite Zminus_mod_idemp_l. replace (height + i - height) with i by lia.
    by rewrite Z.mod_small.
Qed.

(** ** The theorems at a concrete registry *)

Lemma compute_active_set_spec_witness :
  addresses_wf sample_registry ∧ NoDup (@compute_active_set canonical_order sample_registry).
Proof.
  pose proof (reg_inv_addresses _ sample_registry_inv) as Hwf. split; [exact Hwf|].
  apply (@compute_active_set_spec canonical_order sample_registry Hwf).
Defined.

Lemma compute_active_set_deterministic_witness :
  @compute_active_set canonical_order sample_registry
  = @compute_active_set canonical_order sample_registry.
Proof.
  apply (compute_active_set_deterministic canonical_order canonical_order).
  exact (reg_inv_addresses _ sample_registry_inv).
Defined.

Lemma jail_evicts_witness :
  "v1" ∉ active_set (@jail canonical_order "v1" 100 50 sample_registry).1.
Proof.
  apply (@jail_evicts canonical_order sample_registry _ "v1" 100 50).
  - exact (reg_inv_addresses _ sample_registry_inv).
  - left. vm_compute. reflexivity.
Defined.

Lemma proposer_rotation_fair_witness :
  ∃ round, 0 <= round < 2 ∧ weighted_proposer sample_registry 10 round = Some "v2".
Proof.
  destruct (proposer_rotation_fair sample_registry 10 "v2") as (round & Hr & Hp & _).
  - apply (bool_decide_unpack _). vm_compute. exact I.
  - apply (bool_decide_unpack _). vm_compute. exact I.
  - vm_compute. discriminate.
  - vm_compute. discriminate.
  - exists round. exact (conj Hr Hp).
Defined.
