(* ===== verification/StakingFlow.v ===== *)
(** * Stake flows: slashing, rewards, unbonding, commission

    What leaves and enters the stake registry: a slash takes at least the
    stated rate, a reward distribution pays out at most the reward, unbonding
    conserves stake and respects the waiting period, and commissions change at
    most once per epoch. *)

From S2P Require Import Prelude Staking StakingProps StakingTheorems StakingSets.

(** ** Slashing takes at least the stated rate *)

(** Number of delegation entries naming [v]. *)
Definition delegators_of (v : string) (ds : gmap string (list DelegationEntry)) : Z :=
  map_sum (λ _ es, sum_of (λ e, if decide (de_validator e = v) then 1 else 0) es) ds.

Lemma delegated_to_slashed_lower v rem den ds :
  0 <= rem <= den → 0 < den <= U64_MAX → amounts_ok v den ds →
  (den - rem) * delegated_to v ds - den * delegators_of v ds
  <= delegated_to v (slashed_map v rem den ds) * den.
Proof.
  intros Hrem Hden Hok. unfold delegated_to, delegators_of, slashed_map.
  rewrite map_sum_fmap, (Z.mul_comm _ den), <-!map_sum_scale.
  enough (map_sum (λ (_ : string) es, (den - rem) * entries_to v es) ds
    <= map_sum (λ (_ : string) es, den * entries_to v (slash_delegation v rem den <$> es)
         + den * sum_of (λ e, if decide (de_validator e = v) then 1 else 0) es) ds) as Hle.
  { rewrite (map_sum_plus (λ _ es, den * entries_to v _)) in Hle. lia. }
  apply map_sum_le. intros k es Hes%Hok. unfold entries_to. rewrite sum_of_fmap.
  clear -Hrem Hden Hes. induction Hes as [|e es He Hes IH]; [rewrite !sum_of_nil; lia|].
  rewrite !sum_of_cons. destruct (slash_delegation_keys v rem den e) as [-> _].
  case_decide as Hv; [|lia].
  destruct (slash_delegation_amount v rem den Hrem Hden e He Hv) as [-> _].
  pose proof (div_ceil_spec (de_amount e * rem) den ltac:(lia)). nia.
Qed.

(** C16: slashing a registered validator always succeeds, reports exactly
    [total * bp / 10000], removes at least that much from its self-stake and
    delegations together, over-slashes by at most one unit per delegation, and
    leaves the delegations to every other validator unchanged. *)
Theorem slash_takes_stated_rate `{HashOrder} r v val bp :
  reg_inv r → 0 <= bp <= 10000 → validators r !! v = Some val →
  v_self_stake val + v_total_delegated val <= U64_MAX →
  let stake := v_self_stake val + v_total_delegated val in
  let amt := stake * bp / 10000 in
  ∃ r' val', slash v bp r = (r', Ok amt) ∧ validators r' !! v = Some val' ∧
    v_self_stake val' + v_total_delegated val' <= stake - amt ∧
    stake - amt - delegators_of v (delegations r)
      <= v_self_stake val' + v_total_delegated val' ∧
    ∀ a, a ≠ v → delegated_to a (delegations r') = delegated_to a (delegations r).
Proof.
  intros Hr Hbp Hv Hle stake amt.
  pose proof (inv_validators r Hr v val Hv) as (_ & Hs & Hd & _).
  assert (Et : v_total_stake val = stake) by (unfold v_total_stake, stake; ulia).
  destruct (slash_eq r v bp Hr Hbp val Hv) as [Hrem (r' & E & Ev & Ed & _)].
  rewrite Et in *. fold amt in Hrem, E, Ev, Ed.
  set (rem := amt - Z.min amt (v_self_stake val)) in *.
  set (den := v_total_delegated val) in *.
  pose proof (inv_totals r Hr v val Hv) as Htot. fold den in Htot.
  assert (Hcnt : 0 <= delegators_of v (delegations r)).
  { apply map_sum_nonneg. intros. apply sum_of_nonneg. intros. by case_decide. }
  eexists r', _. split; [exact E|]. split; [by rewrite Ev, lookup_insert_eq|]. simpl.
  destruct (Z.ltb_spec 0 rem) as [Hpos|Hz].
  - assert (Hden : 0 < den <= U64_MAX) by ulia.
    pose proof (amounts_ok_total r v Hr val Hv) as Hok.
    destruct (delegated_to_slashed v rem den Hrem Hden _ Hok) as [_ Hup].
    pose proof (delegated_to_slashed_lower v rem den _ Hrem Hden Hok) as Hlo.
    rewrite <-Htot in Hup, Hlo. unfold rem, stake, den in *.
    split_and!; [nia|nia|].
    intros a Ha. rewrite Ed. by apply delegated_to_slashed_other.
  - rewrite <-Htot. unfold rem, stake, den in *. split_and!; [lia|lia|].
    intros a Ha. by rewrite Ed.
Qed.

(** ** Rewards *)

(** Everything accrued but not yet claimed. *)
Definition total_rewards (r : StakeRegistry) : Z :=
  map_sum (λ _ v, v_pending_rewards v) (validators r)
  + map_sum (λ _ x, x) (delegator_rewards r).

Lemma total_rewards_put a v v' r :
  validators r !! a = Some v →
  total_rewards (put_validator a v' r)
  = total_rewards r + v_pending_rewards v' - v_pending_rewards v.
Proof.
  intros Ha. unfold total_rewards; simpl. rewrite map_sum_insert, Ha. simpl. lia.
Qed.

Lemma total_rewards_fold shares r :
  Forall (λ p, 0 <= p.2) shares →
  total_rewards (foldl add_delegator_reward r shares) <= total_rewards r + sum_of snd shares.
Proof.
  revert r. induction shares as [|[d x] shares IH]; intros r Hs; simpl.
  - rewrite sum_of_nil. lia.
  - apply Forall_cons in Hs as [Hx Hs]. simpl in Hx. rewrite sum_of_cons. simpl.
    etrans; [by apply IH|].
    enough (total_rewards (add_delegator_reward r (d, x)) <= total_rewards r + x) by (simpl in *; lia).
    unfold add_delegator_reward. destruct (x =? 0); [lia|].
    unfold total_rewards; simpl. rewrite map_sum_insert.
    destruct (delegator_rewards r !! d); simpl; ulia.
Qed.

Lemma as_u64_le x : 0 <= x → 0 <= as_u64 x <= x.
Proof.
  intros Hx. unfold wrap. pose proof (Z.mod_pos_bound x (U64_MAX + 1) ltac:(done)).
  split; [lia|]. apply Z.mod_le; [done|done].
Qed.

(** A floored proportional share, in machine arithmetic. *)
Lemma machine_share_le pool w total :
  0 <= pool → 0 <= w → 0 < total →
  0 <= as_u64 (saturating_mul U128_MAX pool w / total) ∧
  as_u64 (saturating_mul U128_MAX pool w / total) * total <= pool * w.
Proof.
  intros Hp Hw Ht.
  assert (0 <= saturating_mul U128_MAX pool w <= pool * w)
    by (unfold saturating_mul, U128_MAX; nia).
  pose proof (Z.div_pos (saturating_mul U128_MAX pool w) total).
  pose proof (Z.mul_div_le (saturating_mul U128_MAX pool w) total).
  pose proof (as_u64_le (saturating_mul U128_MAX pool w / total)). nia.
Qed.

Section rewards.
Context `{HashOrder}.

Lemma delegations_in_order_sum a r :
  sum_of de_amount (delegations_in_order a r) = delegated_to a (delegations r).
Proof.
  unfold delegations_in_order. rewrite sum_of_filter, sum_of_concat_omap.
  apply (map_sum_keys (λ es, entries_to a es)).
  by rewrite sort_strings_perm, hm_keys_perm.
Qed.

Lemma delegations_in_order_nonneg a r :
  reg_inv r → Forall (λ e, 0 <= de_amount e) (delegations_in_order a r).
Proof.
  intros Hr. apply Forall_filter_l, Forall_concat, Forall_forall.
  intros es Hes. apply list_elem_of_omap in Hes as (k & _ & Hk).
  apply (inv_entries r Hr) in Hk as [Hf _].
  eapply Forall_impl; [exact Hf|]. naive_solver.
Qed.

Lemma shares_le pool total es :
  0 <= pool → 0 < total → Forall (λ e, 0 <= de_amount e) es →
  let shares := (λ e, (de_delegator e,
    as_u64 (saturating_mul U128_MAX pool (de_amount e) / total))) <$> es in
  Forall (λ p, 0 <= p.2) shares ∧ sum_of snd shares * total <= pool * sum_of de_amount es.
Proof.
  intros Hp Ht Hes. cbn zeta. rewrite sum_of_fmap, Forall_fmap.
  unfold compose; cbn [snd].
  induction Hes as [|e es He Hes [IH1 IH2]].
  - rewrite !sum_of_nil. split; [constructor|lia].
  - pose proof (machine_share_le pool (de_amount e) total Hp He Ht).
    rewrite !sum_of_cons. split; [constructor; [lia|done]|lia].
Qed.

Lemma pay_delegators_le a pool r :
  reg_inv r → is_Some (validators r !! a) → 0 <= pool →
  total_rewards (state_of (pay_delegators a pool r)) <= total_rewards r + pool.
Proof.
  intros Hr [v Hv] Hp. unfold pay_delegators. unfold_st_goal.
  pose proof (delegations_in_order_nonneg a r Hr) as Hnn.
  pose proof (delegations_in_order_sum a r) as Hsum.
  pose proof (inv_totals r Hr a v Hv) as Htot.
  pose proof (inv_validators r Hr a v Hv) as (_ & _ & Hd & _).
  rewrite (wrap_small U64_MAX) by (rewrite Hsum, <-Htot; done). simpl.
  destruct (Z.eqb_spec (sum_of de_amount (delegations_in_order a r)) 0) as [?|Hz]; simpl; [lia|].
  assert (Hpos : 0 < sum_of de_amount (delegations_in_order a r)) by (rewrite Hsum in *; ulia).
  destruct (shares_le pool _ _ Hp Hpos Hnn) as [Hsh Hle].
  etrans; [by apply total_rewards_fold|]. nia.
Qed.

Lemma pay_one_signer_le a x r :
  reg_inv r → in_u64 x → total_rewards (state_of (pay_one_signer a x r)) <= total_rewards r + x.
Proof.
  intros Hr Hx. unfold pay_one_signer. unfold_st_goal.
  destruct (validators r !! a) as [v|] eqn:Hv; [|simpl; ulia]. cbn zeta.
  pose proof (inv_validators r Hr a v Hv) as (_ & Hs & Hd & Hp & Hc & Hm & _).
  unfold MIN_COMMISSION, MAX_COMMISSION in *.
  pose proof (machine_share_le x (v_commission_rate v) 10000 ltac:(ulia) ltac:(lia) ltac:(lia)) as Hcom.
  set (commission := as_u64 (_ / 10000)) in *. clearbody commission.
  assert (Hcx : commission <= x) by (destruct Hx, Hcom; nia).
  set (pool := saturating_sub x commission).
  assert (Hpool : pool = x - commission) by (unfold pool; ulia).
  set (v1 := v <| v_pending_rewards := _ |>).
  assert (Hr1 : reg_inv (put_validator a v1 r)) by (apply reg_inv_pending; [done|done|lia]).
  assert (H1 : total_rewards (put_validator a v1 r) <= total_rewards r + commission).
  { rewrite (total_rewards_put a v) by done. unfold v1; simpl. ulia. }
  destruct (Z.eqb_spec (v_total_stake v) 0) as [?|Hts]; simpl; [lia|].
  destruct (Z.eqb_spec pool 0) as [?|Hpz]; simpl; [lia|]. unfold_st_goal.
  assert (Hts' : v_self_stake v <= v_total_stake v ∧ 0 < v_total_stake v)
    by (unfold v_total_stake in *; ulia).
  pose proof (machine_share_le pool (v_self_stake v) (v_total_stake v)
                ltac:(lia) ltac:(ulia) ltac:(lia)) as Hss.
  set (self_share := as_u64 (_ / v_total_stake v)) in *. clearbody self_share.
  assert (Hsp : self_share <= pool) by (destruct Hts', Hss; nia).
  match goal with |- context [put_validator a ?w (put_validator a v1 r)] =>
    set (r2 := put_validator a w (put_validator a v1 r));
    assert (Hr2 : reg_inv r2) by (apply (reg_inv_pending _ a v1);
      [done|simpl; by rewrite lookup_insert_eq|lia]);
    assert (H2 : total_rewards r2 <= total_rewards (put_validator a v1 r) + self_share)
      by (unfold r2; rewrite (total_rewards_put a v1) by (simpl; by rewrite lookup_insert_eq);
          simpl; ulia)
  end.
  replace (saturating_sub pool self_share) with (pool - self_share) by ulia.
  destruct (_ =? 0); [simpl; lia|].
  pose proof (pay_delegators_le a (pool - self_share) r2 Hr2
    ltac:(unfold r2; simpl; rewrite lookup_insert_eq; eauto) ltac:(lia)) as H3.
  destruct (pay_delegators a (pool - self_share) r2). simpl in *. lia.
Qed.

Lemma distribute_single_le a x r :
  reg_inv r → in_u64 x →
  total_rewards (state_of (distribute_to_single_validator a x r)) <= total_rewards r + x.
Proof.
  intros Hr Hx. unfold distribute_to_single_validator, find_validator. unfold_st_goal.
  destruct (validators r !! a) as [v|] eqn:Hv; [|simpl; ulia]. cbn zeta.
  pose proof (inv_validators r Hr a v Hv) as (_ & Hs & Hd & Hp & Hc & Hm & _).
  unfold MIN_COMMISSION, MAX_COMMISSION in *.
  pose proof (machine_share_le x (v_commission_rate v) 10000 ltac:(ulia) ltac:(lia) ltac:(lia)) as Hcom.
  set (commission := as_u64 (_ / 10000)) in *. clearbody commission.
  assert (Hcx : commission <= x) by (destruct Hx, Hcom; nia).
  set (pool := saturating_sub x commission).
  assert (Hpool : pool = x - commission) by (unfold pool; ulia).
  set (v1 := v <| v_pending_rewards := _ |>).
  destruct (Z.eqb_spec (v_total_stake v) 0) as [?|Hts];
    [|destruct (Z.eqb_spec pool 0) as [?|Hpz]]; simpl;
    rewrite ?put_put_validator, (total_rewards_put a v) by done; unfold v1; simpl; [ulia..|].
  assert (Hts' : v_self_stake v <= v_total_stake v ∧ 0 < v_total_stake v)
    by (unfold v_total_stake in *; ulia).
  pose proof (machine_share_le pool (v_self_stake v) (v_total_stake v)
                ltac:(lia) ltac:(ulia) ltac:(lia)) as Hss.
  set (self_share := as_u64 (_ / v_total_stake v)) in *. clearbody self_share.
  assert (Hsp : self_share <= pool) by (destruct Hts', Hss; nia).
  ulia.
Qed.

Lemma pay_signer_le total tss a w r :
  reg_inv r → in_u64 total → 0 <= w <= tss → 0 < tss →
  let r' := state_of (pay_signer_pro_rata total tss (a, w) r) in
  reg_inv r' ∧ tss * total_rewards r' <= tss * total_rewards r + total * w.
Proof.
  intros Hr Ht Hw Hpos r'. subst r'. unfold pay_signer_pro_rata, mret, st_ret.
  destruct (Z.eqb_spec w 0) as [->|Hw0]; [split; [done|]; simpl; lia|].
  pose proof (machine_share_le total w tss ltac:(ulia) ltac:(lia) Hpos) as [Hx0 Hx].
  set (x := as_u64 (_ / tss)) in *. clearbody x. destruct Ht.
  assert (Hxt : x <= total) by nia.
  destruct (Z.eqb_spec x 0) as [->|Hx1]; [split; [done|]; simpl; nia|].
  pose proof (pay_one_signer_le a x r Hr ltac:(ulia)) as Hp.
  split; [by apply reg_inv_pay|nia].
Qed.

Lemma signer_shares_le total tss signers r :
  reg_inv r → in_u64 total → 0 < tss →
  Forall (λ p, 0 <= p.2) signers → sum_of snd signers <= tss →
  tss * total_rewards (state_of (for_each (pay_signer_pro_rata total tss) signers r))
  <= tss * total_rewards r + total * sum_of snd signers.
Proof.
  intros Hr Ht Hpos Hs Hsum. revert r Hr Hsum.
  induction Hs as [|[a w] signers Hw Hs IH]; intros r Hr Hsum.
  { rewrite sum_of_nil. unfold state_of; simpl. lia. }
  rewrite sum_of_cons in *. simpl snd in *.
  assert (Hss : 0 <= sum_of snd signers).
  { apply sum_of_nonneg. rewrite Forall_forall in Hs. done. }
  destruct (pay_signer_le total tss a w r Hr Ht ltac:(lia) Hpos) as [Hr1 Hp].
  cbn [for_each]. unfold mbind, st_bind.
  destruct (pay_signer_pro_rata total tss (a, w) r) as [r1 [[]|e]];
    cbn [state_of fst] in *.
  - specialize (IH r1 Hr1 ltac:(lia)). lia.
  - destruct Ht. nia.
Qed.

(** C17: as long as the weights of the signers sum within [u64], a reward distribution
    credits at most the block reward plus the validator share of the fees, over all
    validators and delegators together, whichever path (signer pro-rata or single
    proposer) is taken.  The code adds the weights with wrap-around and takes them
    from the justification. *)
Theorem distribute_reward_bounded r proposer signers reward fees :
  reg_inv r → in_u64 reward → in_u64 fees →
  Forall (λ p, 0 <= p.2) signers → sum_of snd signers <= U64_MAX →
  total_rewards (state_of (distribute_reward proposer signers reward fees r))
  <= total_rewards r + (reward + fees).
Proof.
  intros Hr Hx Hy Hs Hsum. unfold distribute_reward.
  set (total := saturating_add U64_MAX reward fees).
  assert (Ht : in_u64 total ∧ total <= reward + fees) by (unfold total; ulia).
  destruct Ht as [Ht Hle]. clearbody total.
  pose proof (distribute_single_le proposer total r Hr Ht) as H1.
  assert (Hnn : 0 <= sum_of snd signers).
  { apply sum_of_nonneg. rewrite Forall_forall in Hs. done. }
  destruct signers as [|sg sgs]; [lia|].
  rewrite (wrap_small U64_MAX) by done.
  destruct (Z.eqb_spec (sum_of snd (sg :: sgs)) 0) as [?|Hz]; [lia|].
  pose proof (signer_shares_le total (sum_of snd (sg :: sgs)) (sg :: sgs) r
    Hr Ht ltac:(lia) Hs ltac:(lia)). nia.
Qed.

(** A signer without delegations keeps its whole share. *)
Lemma pay_sole_staker r a val x :
  reg_inv r → validators r !! a = Some val → v_total_delegated val = 0 → 0 < v_self_stake val →
  v_pending_rewards val = 0 → 0 < x <= U64_MAX →
  ∃ r', pay_one_signer a x r = (r', Ok tt) ∧
    validators r' !! a = Some (val <| v_pending_rewards := x |>) ∧ ∀ b, b ≠ a → validators r' !! b = validators r !! b.
Proof.
  intros Hr Hv Hd Hs Hp Hx. pose proof (inv_validators r Hr a val Hv) as (_ & Hss & _ & _ & Hc & Hm & _).
  unfold MIN_COMMISSION, MAX_COMMISSION in *.
  assert (Et : v_total_stake val = v_self_stake val) by (unfold v_total_stake; rewrite Hd; ulia).
  unfold pay_one_signer. unfold_st_goal. rewrite Hv. cbn zeta. rewrite Et, Hp.
  pose proof (machine_share_le x (v_commission_rate val) 10000 ltac:(lia) ltac:(lia) ltac:(lia)) as Hcom.
  set (c := as_u64 (_ / 10000)) in *. clearbody c. assert (Hcx : c <= x) by nia.
  replace (saturating_add U64_MAX 0 c) with c by ulia. replace (saturating_sub x c) with (x - c) by ulia.
  rewrite (proj2 (Z.eqb_neq (v_self_stake val) 0)) by lia. simpl.
  destruct (Z.eqb_spec (x - c) 0) as [Ez|Ez].
  { eexists. split; [reflexivity|]. replace c with x by lia. simpl.
    split; [by rewrite lookup_insert_eq|intros b' Hb'; by rewrite lookup_insert_ne]. }
  assert (Esf : as_u64 (saturating_mul U128_MAX (x - c) (v_self_stake val) / v_self_stake val) = x - c).
  { unfold saturating_mul. rewrite Z.min_r by (unfold U128_MAX; ulia; nia). rewrite Z.div_mul by lia.
    unfold as_u64. apply wrap_small. ulia. }
  simpl. rewrite Esf. replace (saturating_sub (x - c) (x - c)) with 0 by ulia. simpl.
  replace (saturating_add U64_MAX c (x - c)) with x by ulia.
  eexists. split; [reflexivity|]. simpl.
  split; [by rewrite lookup_insert_eq|intros b' Hb'; by rewrite !lookup_insert_ne by done].
Qed.

(** Weights that wrap: the first signer of a justification that claims the weights
    [u64::MAX] and 2 is credited almost the whole range, whatever the reward. *)
Theorem wrapped_weights_overpay r a b proposer reward val :
  reg_inv r → validators r !! a = Some val → validators r !! b = None →
  v_total_delegated val = 0 → 0 < v_self_stake val → v_pending_rewards val = 0 → 0 < reward <= U64_MAX →
  ∃ val', validators (state_of (distribute_reward proposer [(a, U64_MAX); (b, 2)] reward 0 r)) !! a = Some val' ∧
    v_pending_rewards val' = U64_MAX + 1 - reward.
Proof.
  intros Hr Hv Hb Hd Hs Hp Hx. pose proof (inv_validators r Hr a val Hv) as (_ & Hss & _ & _ & Hc & Hm & _).
  unfold MIN_COMMISSION, MAX_COMMISSION in *.
  assert (Et : v_total_stake val = v_self_stake val) by (unfold v_total_stake; rewrite Hd; ulia).
  assert (Ex : saturating_add U64_MAX reward 0 = reward) by ulia.
  assert (Esh : as_u64 (saturating_mul U128_MAX reward U64_MAX / 1) = U64_MAX + 1 - reward).
  { rewrite Z.div_1_r. unfold saturating_mul. rewrite Z.min_r by (unfold U128_MAX; ulia).
    unfold as_u64, wrap. symmetry. apply (Z.mod_unique_pos _ _ (reward - 1)); ulia. }
  set (share := U64_MAX + 1 - reward) in *. assert (Hsh : 0 < share <= U64_MAX) by (unfold share; ulia).
  unfold distribute_reward. rewrite Ex.
  change (wrap U64_MAX (sum_of snd [(a, U64_MAX); (b, 2)])) with 1. cbn [Z.eqb for_each].
  assert (E0 : pay_signer_pro_rata reward 1 (a, U64_MAX) r = pay_one_signer a share r).
  { unfold pay_signer_pro_rata. change (U64_MAX =? 0) with false. cbv zeta. rewrite Esh.
    by rewrite (proj2 (Z.eqb_neq share 0)) by lia. }
  destruct (pay_sole_staker r a val share Hr Hv) as (r1 & E1 & Ev & Hrest); [done..|].
  unfold mbind, st_bind. rewrite E0, E1.
  assert (E2 : pay_signer_pro_rata reward 1 (b, 2) r1 = (r1, Ok tt)).
  { unfold pay_signer_pro_rata. cbn [Z.eqb]. destruct (_ =? 0); [done|]. unfold pay_one_signer. unfold_st_goal.
    rewrite Hrest by congruence. by rewrite Hb. }
  rewrite E2. unfold state_of. simpl. eexists. split; [exact Ev|]. done.
Qed.
End rewards.

(** ** Unbonding *)

(** Stake that has left the delegations and is not yet released. *)
Definition total_unbonding (r : StakeRegistry) : Z :=
  map_sum (λ _ es, sum_of ue_amount es) (unbonding_queue r).

Lemma total_unbonding_queue u r :
  total_unbonding (queue_unbonding u r) = total_unbonding r + ue_amount u.
Proof.
  unfold total_unbonding, queue_unbonding; simpl. rewrite map_sum_insert.
  rewrite sum_of_app, sum_of_cons, sum_of_nil.
  destruct (unbonding_queue r !! _); simpl; rewrite ?sum_of_nil; lia.
Qed.

(** A successful undelegation moves exactly [amount] from the
    delegations of that validator (and its recorded total) into the unbonding
    queue, under a key [UNBONDING_PERIOD] blocks in the future, and never
    touches what is delegated to anyone else. *)
Theorem undelegate_conserves r r' d v x h :
  reg_inv r → 0 <= x → undelegate d v x h r = (r', Ok tt) →
  let key := saturating_add U64_MAX h UNBONDING_PERIOD in
  0 < x ∧
  (∀ a, delegated_to a (delegations r') =
        delegated_to a (delegations r) - (if decide (a = v) then x else 0)) ∧
  (∃ val val', validators r !! v = Some val ∧ validators r' !! v = Some val' ∧
     v_total_delegated val' = v_total_delegated val - x) ∧
  total_unbonding r' = total_unbonding r + x ∧
  unbonding_queue r' !! key
  = Some (default [] (unbonding_queue r !! key) ++ [mkUnbonding d v x key]).
Proof.
  intros Hr Hx H key. unfold undelegate, find_validator in H. unfold_st H.
  destruct (Z.eqb_spec x 0) as [|Hx0]; [done|].
  destruct (reduce_delegation _ _ _ _ _ r) as [r1 [[]|e]] eqn:Hred; [|done].
  apply reduce_delegation_moved in Hred as [Hm _]; [|done..].
  destruct (_ <=? _); [done|]. destruct (_ <=? _); [done|].
  pose proof Hm as (Ev & Eq & _ & _ & _ & _ & Hd). rewrite Ev in H.
  destruct (validators r !! v) as [val|] eqn:Hv; [|done]. injection H as <-.
  pose proof (moved_out_covers _ _ _ _ _ Hr Hm Hv) as Hc.
  split_and!; [lia| | | |].
  - intros a. simpl. rewrite Hd. case_decide; lia.
  - eexists val, _. split_and!; [done|simpl; by rewrite lookup_insert_eq|]. simpl. ulia.
  - rewrite total_unbonding_queue. unfold total_unbonding; simpl. by rewrite Eq.
  - simpl. rewrite Eq. apply lookup_insert_eq.
Qed.

Definition credit_of (e : UnbondingEntry) : string * Z := (ue_delegator e, ue_amount e).

Lemma omap_delete_notin (q : gmap Z (list UnbondingEntry)) k (keys : list Z) :
  k ∉ keys → omap (λ j, delete k q !! j) keys = omap (λ j, q !! j) keys.
Proof.
  intros Hk. apply list_omap_ext, Forall2_same_length_lookup_2; [done|].
  intros i x y Hx Hy. simplify_eq. apply list_elem_of_lookup_2 in Hx.
  rewrite lookup_delete_ne; [done|set_solver].
Qed.

Lemma release_keys_spec keys q :
  NoDup keys →
  let '(q', rel) := release_keys keys q in
  (∀ k, q' !! k = if decide (k ∈ keys) then None else q !! k) ∧
  rel = credit_of <$> concat (omap (λ k, q !! k) keys) ∧
  map_sum (λ _ es, sum_of ue_amount es) q
  = sum_of snd rel + map_sum (λ _ es, sum_of ue_amount es) q'.
Proof.
  intros Hn. revert q. induction Hn as [|k keys Hk Hn IH]; intros q; cbn [release_keys].
  { split_and!; [intros; by rewrite decide_False by set_solver|done|by simpl]. }
  destruct (q !! k) as [es|] eqn:Hq.
  - specialize (IH (delete k q)). destruct (release_keys keys (delete k q)) as [q' rel].
    destruct IH as (Hl & -> & Hs). split_and!.
    + intros k'. rewrite Hl, lookup_delete. repeat case_decide; set_solver.
    + rewrite omap_delete_notin by done. cbn. rewrite Hq. cbn. by rewrite fmap_app.
    + rewrite sum_of_app, (map_sum_delete _ q k es), Hs by done.
      rewrite (sum_of_fmap _ snd es). apply Z.add_assoc.
  - specialize (IH q). destruct (release_keys keys q) as [q' rel].
    destruct IH as (Hl & -> & Hs). split_and!; [| |done].
    + intros k'. rewrite Hl. repeat case_decide; set_solver.
    + cbn. by rewrite Hq.
Qed.

(** Processing the unbonding queue at height [h] releases exactly the
    entries whose completion height has been reached, in order of completion
    height; it keeps all later ones, pays out what it removes, and changes
    nothing else in the registry. *)
Theorem process_unbonding_releases_matured r h :
  let r' := (process_unbonding h r).1 in
  let released := (process_unbonding h r).2 in
  released = credit_of <$> concat (omap (λ k, unbonding_queue r !! k)
               (filter (λ k, k <= h) (bt_keys (unbonding_queue r)))) ∧
  (∀ k, unbonding_queue r' !! k = if decide (k <= h) then None else unbonding_queue r !! k) ∧
  sum_of snd released + total_unbonding r' = total_unbonding r ∧
  r' = r <| unbonding_queue := unbonding_queue r' |>.
Proof.
  unfold process_unbonding.
  set (keys := filter (λ k, k <= h) (bt_keys (unbonding_queue r))).
  pose proof (release_keys_spec keys (unbonding_queue r)
    ltac:(apply NoDup_filter, NoDup_bt_keys)) as Hs.
  destruct (release_keys keys (unbonding_queue r)) as [q rel]. simpl.
  destruct Hs as (Hl & Hrel & Hsum). split_and!; [done| |unfold total_unbonding; simpl; lia|done].
  intros k. rewrite Hl. unfold keys.
  destruct (decide (k ∈ _)) as [Hi|Hi]; rewrite list_elem_of_filter, elem_of_bt_keys in Hi;
    case_decide; try done; [by destruct Hi|].
  apply eq_None_not_Some. naive_solver.
Qed.

(** ** Commission changes *)

(** A successful commission change stays in range, below the declared
    ceiling, and within 200 basis points of the old rate; and no second change
    succeeds in the same epoch. *)
Theorem commission_change_limited v rate h r r' :
  0 < h → update_commission v rate h r = (r', Ok tt) →
  ∃ old new, validators r !! v = Some old ∧ validators r' !! v = Some new ∧
    v_commission_rate new = rate ∧
    MIN_COMMISSION <= rate <= MAX_COMMISSION ∧ rate <= v_max_commission_rate old ∧
    Z.abs (rate - v_commission_rate old) <= MAX_COMMISSION_CHANGE_PER_EPOCH ∧
    ∀ rate' h', h' / EPOCH_LENGTH = h / EPOCH_LENGTH →
      ∃ e, update_commission v rate' h' r' = (r', Err e).
Proof.
  intros Hh H. unfold update_commission, find_validator in H. unfold_st H.
  destruct (validators r !! v) as [w|] eqn:Hv; [|done].
  destruct (commission_in_range rate) eqn:Hc; [|done]. simpl in H.
  destruct (v_max_commission_rate w <? rate) eqn:Hm; [done|].
  destruct (_ <? abs_diff _ _) eqn:Hd; [done|].
  assert (r' = put_validator v (w <| v_commission_rate := rate |>
    <| v_last_commission_change_height := h |>) r) as -> by (repeat case_match; by simplify_eq).
  unfold commission_in_range in Hc. bool_hyps. unfold abs_diff in Hd.
  eexists w, _. split_and!; [done|simpl; apply lookup_insert_eq|done|lia|lia|lia|lia|].
  intros rate' h' Heq. unfold update_commission, find_validator. unfold_st_goal.
  simpl. rewrite lookup_insert_eq. simpl.
  repeat (case_match; simplify_eq; eauto); bool_hyps; lia.
Qed.

(** ** The theorems at a concrete registry *)

Lemma slash_takes_stated_rate_witness :
  ∃ r', @slash canonical_order "v1" 100 sample_registry = (r', Ok 15000000013).
Proof.
  destruct (validators sample_registry !! "v1") as [val|] eqn:Hv; [|vm_compute in Hv; discriminate].
  vm_compute in Hv. injection Hv as <-.
  destruct (@slash_takes_stated_rate canonical_order sample_registry "v1" _ 100
    sample_registry_inv ltac:(lia) ltac:(vm_compute; reflexivity)
    ltac:(vm_compute; discriminate)) as (r' & val' & E & _).
  exists r'. exact E.
Defined.

Lemma distribute_reward_bounded_witness :
  total_rewards (state_of (@distribute_reward canonical_order "v1" [("v1", 100); ("v2", 50)]
    1000 7 sample_registry)) <= 1007.
Proof.
  exact (@distribute_reward_bounded canonical_order sample_registry "v1"
    [("v1", 100); ("v2", 50)] 1000 7 sample_registry_inv ltac:(vm_compute; split; discriminate)
    ltac:(vm_compute; split; discriminate) ltac:(repeat constructor; vm_compute; discriminate)
    ltac:(vm_compute; discriminate)).
Defined.

Lemma undelegate_conserves_witness :
  total_unbonding (undelegate "d1" "v1" 400 50 sample_registry).1 = 400.
Proof.
  destruct (undelegate_conserves sample_registry
    (undelegate "d1" "v1" 400 50 sample_registry).1 "d1" "v1" 400 50 sample_registry_inv
    ltac:(lia) ltac:(vm_compute; reflexivity)) as (_ & _ & _ & E & _).
  rewrite E. vm_compute. reflexivity.
Defined.

Lemma commission_change_limited_witness :
  ∃ e, update_commission "v1" 1150 3000 (update_commission "v1" 1100 2000 sample_registry).1
       = ((update_commission "v1" 1100 2000 sample_registry).1, Err e).
Proof.
  destruct (commission_change_limited "v1" 1100 2000 sample_registry
    (update_commission "v1" 1100 2000 sample_registry).1 ltac:(lia)
    ltac:(vm_compute; reflexivity)) as (old & new & _ & _ & _ & _ & _ & _ & Hn).
  apply Hn. reflexivity.
Defined.
