(* ===== verification/Epoch.v ===== *)
(** * Epochs (crates/sentrix-staking/src/epoch.rs)

    The epoch manager: the current epoch, the bounded history of past epochs,
    and the transition at an epoch boundary, which releases matured unbonding
    and freezes the next validator set.  The theorems tie epoch numbers to
    heights and describe the transition. *)

From S2P Require Import Prelude Staking StakingProps StakingTheorems StakingFlow.

(** ** Data *)

Record EpochInfo := mkEpoch {
  epoch_number : Z;
  start_height : Z;
  end_height : Z;
  validator_set : list string;
  total_staked : Z;
  ep_total_rewards : Z;
  total_blocks_produced : Z;
}.
#[global] Instance EpochInfo_eta : Eta EpochInfo := λ e,
  mkEpoch (epoch_number e) (start_height e) (end_height e) (validator_set e)
    (total_staked e) (ep_total_rewards e) (total_blocks_produced e).

Definition EpochInfo_genesis : EpochInfo :=
  mkEpoch 0 0 (saturating_sub EPOCH_LENGTH 1) [] 0 0 0.

Definition contains_height (e : EpochInfo) (height : Z) : bool :=
  (start_height e <=? height) && (height <=? end_height e).

Record EpochManager := mkEpochManager {
  current_epoch : EpochInfo;
  history : list EpochInfo;
  max_history : Z;
}.
#[global] Instance EpochManager_eta : Eta EpochManager := λ m,
  mkEpochManager (current_epoch m) (history m) (max_history m).

Definition EpochManager_new : EpochManager := mkEpochManager EpochInfo_genesis [] 100.

(** ** Operations *)

Definition epoch_for_height (height : Z) : Z := height / EPOCH_LENGTH.
Definition is_epoch_boundary (height : Z) : bool :=
  (0 <? height) && is_multiple_of (wrapping_add U64_MAX height 1) EPOCH_LENGTH.
Definition is_epoch_start (height : Z) : bool := is_multiple_of height EPOCH_LENGTH.

(** The stake of the validators of [active] that are still registered. *)
Definition staked_by (r : StakeRegistry) (active : list string) : Z :=
  wrap U64_MAX (sum_of v_total_stake (omap (get_validator r) active)).

(** A fresh epoch [n] with the given validator set. *)
Definition open_epoch (n : Z) (active : list string) (staked : Z) : EpochInfo :=
  let start := wrap U64_MAX (n * EPOCH_LENGTH) in
  mkEpoch n start (wrap U64_MAX (start + EPOCH_LENGTH - 1)) active staked 0 0.

Section with_hash_order.
Context `{HashOrder}.

Definition initialize (r : StakeRegistry) (fork_height : Z) (m : EpochManager)
    : EpochManager :=
  let epoch_num := epoch_for_height fork_height in
  let active := compute_active_set r in
  m <| current_epoch := open_epoch epoch_num active (staked_by r active) |>.

(** Returns the manager, the registry and the matured unbonding to pay out. *)
Definition transition (current_height : Z) (m : EpochManager) (r : StakeRegistry)
    : EpochManager * StakeRegistry * list (string * Z) :=
  let h := history m ++ [current_epoch m] in
  let h := if max_history m <? Z.of_nat (length h) then drop 1 h else h in
  let '(r, released) := process_unbonding current_height r in
  let r := update_active_set r in
  let active := active_set r in
  let next_epoch := wrapping_add U64_MAX (epoch_number (current_epoch m)) 1 in
  (m <| history := h |>
     <| current_epoch := open_epoch next_epoch active (staked_by r active) |>,
   r, released).
End with_hash_order.

Definition record_block (reward : Z) (m : EpochManager) : EpochManager :=
  let e := current_epoch m in
  m <| current_epoch :=
    e <| total_blocks_produced := wrapping_add U64_MAX (total_blocks_produced e) 1 |>
      <| ep_total_rewards := saturating_add U64_MAX (ep_total_rewards e) reward |> |>.

Definition get_proposer (m : EpochManager) (r : StakeRegistry) (height round : Z)
    : option string :=
  match validator_set (current_epoch m) with
  | [] => None
  | _ => weighted_proposer r height round
  end.
Definition is_current_validator (m : EpochManager) (a : string) : bool :=
  bool_decide (a ∈ validator_set (current_epoch m)).
Definition get_epoch (m : EpochManager) (n : Z) : option EpochInfo :=
  if n =? epoch_number (current_epoch m) then Some (current_epoch m)
  else snd <$> list_find (λ e, epoch_number e = n) (history m).
Definition recent_epochs (m : EpochManager) (count : nat) : list EpochInfo :=
  current_epoch m :: take (count - 1) (reverse (history m)).

(** ** Properties *)

(** An epoch covers exactly the heights that [epoch_for_height] sends to it. *)
Definition epoch_wf (e : EpochInfo) : Prop :=
  0 <= epoch_number e ∧ start_height e = epoch_number e * EPOCH_LENGTH ∧
  end_height e = start_height e + EPOCH_LENGTH - 1 ∧ end_height e <= U64_MAX.

(** The epochs on record, oldest first, are numbered consecutively. *)
Fixpoint consecutive (n : Z) (l : list EpochInfo) : Prop :=
  match l with
  | [] => True
  | e :: l => epoch_number e = n ∧ epoch_wf e ∧ consecutive (n + 1) l
  end.

Lemma consecutive_app n l k :
  consecutive n (l ++ k) ↔ consecutive n l ∧ consecutive (n + Z.of_nat (length l)) k.
Proof.
  revert n. induction l as [|e l IH]; intros n; simpl.
  - rewrite Z.add_0_r. tauto.
  - rewrite IH. replace (n + 1 + Z.of_nat (length l)) with (n + Z.pos (Pos.of_succ_nat (length l))) by lia.
    tauto.
Qed.

Lemma consecutive_elem n l e :
  consecutive n l → e ∈ l →
  epoch_wf e ∧ n <= epoch_number e < n + Z.of_nat (length l).
Proof.
  revert n. induction l as [|e' l IH]; intros n; [set_solver|].
  intros (? & ? & Hl) [->|He]%elem_of_cons; simpl; [split; [done|lia]|].
  destruct (IH _ Hl He). split; [done|lia].
Qed.

Definition manager_wf (m : EpochManager) : Prop :=
  Z.of_nat (length (history m)) <= max_history m ∧ 0 < max_history m ∧
  consecutive (epoch_number (current_epoch m) - Z.of_nat (length (history m)))
    (history m ++ [current_epoch m]).

Lemma open_epoch_wf n active staked :
  0 <= n → (n + 1) * EPOCH_LENGTH - 1 <= U64_MAX → epoch_wf (open_epoch n active staked).
Proof.
  unfold epoch_wf, open_epoch, EPOCH_LENGTH. intros Hn Hle. cbn -[wrap].
  rewrite !wrap_small by (rewrite ?wrap_small by ulia; ulia). lia.
Qed.

Lemma is_epoch_boundary_spec h :
  0 <= h < U64_MAX → is_epoch_boundary h = true ↔ (h + 1) mod EPOCH_LENGTH = 0.
Proof.
  intros Hh. unfold is_epoch_boundary, is_multiple_of, wrapping_add, EPOCH_LENGTH.
  rewrite wrap_small by ulia. rewrite andb_true_iff, Z.ltb_lt, Z.eqb_eq.
  split; [tauto|]. intros E. split; [|done].
  destruct (Z.eq_dec h 0) as [->|]; [vm_compute in E; done|lia].
Qed.

(** Away from the 64-bit limit, a height lies in a well-formed epoch
    exactly when [epoch_for_height] gives that epoch's number, and it is an
    epoch boundary exactly when it is that epoch's last height. *)
Theorem epoch_height_correspondence e h :
  epoch_wf e → 0 <= h < U64_MAX →
  (contains_height e h = true ↔ epoch_for_height h = epoch_number e) ∧
  (contains_height e h = true → is_epoch_boundary h = true ↔ h = end_height e) ∧
  (contains_height e h = true → is_epoch_start h = true ↔ h = start_height e).
Proof.
  intros (Hn & Hs & He & _) Hh. unfold contains_height, epoch_for_height.
  rewrite andb_true_iff, !Z.leb_le, (is_epoch_boundary_spec h Hh).
  unfold is_epoch_start, is_multiple_of. rewrite Z.eqb_eq, Hs, He, Hs.
  unfold EPOCH_LENGTH. split_and!; Z.to_euclidean_division_equations; lia.
Qed.

Lemma drop_oldest_wf n l e k :
  consecutive n (l ++ [e]) → Z.of_nat (length l) <= k → 0 < k →
  let h := if k <? Z.of_nat (length (l ++ [e])) then drop 1 (l ++ [e]) else l ++ [e] in
  Z.of_nat (length h) <= k ∧
  consecutive (n + Z.of_nat (length l) + 1 - Z.of_nat (length h)) h.
Proof.
  intros Hc Hl Hk. rewrite length_app. simpl length.
  destruct (Z.ltb_spec k (Z.of_nat (length l + 1))) as [Hlt|Hge]; cbn zeta.
  - rewrite length_drop, length_app. simpl length. split; [lia|].
    destruct l as [|e' l]; [simpl in *; lia|]. simpl in Hc |- *.
    destruct Hc as (_ & _ & Hc). rewrite drop_0.
    replace (n + _ + 1 - _) with (n + 1) by lia. done.
  - rewrite length_app. simpl length. split; [lia|].
    replace (n + _ + 1 - _) with n by lia. done.
Qed.

(** A transition archives the finished epoch, opens the epoch with the
    next number on the registry's recomputed active set, pays out exactly what
    [process_unbonding] releases, and keeps the record of epochs bounded,
    well-formed and consecutively numbered. *)
Theorem transition_spec `{HashOrder} m r h :
  manager_wf m → (epoch_number (current_epoch m) + 2) * EPOCH_LENGTH - 1 <= U64_MAX →
  let '(m', r', released) := transition h m r in
  manager_wf m' ∧
  epoch_number (current_epoch m') = epoch_number (current_epoch m) + 1 ∧
  start_height (current_epoch m') = end_height (current_epoch m) + 1 ∧
  last (history m') = Some (current_epoch m) ∧
  released = (process_unbonding h r).2 ∧
  r' = update_active_set (process_unbonding h r).1 ∧
  validator_set (current_epoch m') = active_set r'.
Proof.
  intros (Hlen & Hmax & Hc) Hn. unfold transition.
  destruct (process_unbonding h r) as [r1 released] eqn:E.
  pose proof (consecutive_elem _ _ (current_epoch m) Hc ltac:(set_solver)) as [Hwf _].
  pose proof Hwf as (Hn0 & Hs & He & _).
  pose proof (drop_oldest_wf _ _ _ (max_history m) Hc Hlen Hmax) as [Hlen' Hc'].
  set (hist := if _ <? _ then _ else _) in *.
  assert (Hlast : last hist = Some (current_epoch m)).
  { unfold hist. destruct (_ <? _) eqn:Hlt; [|by rewrite last_snoc].
    destruct (history m) as [|e' l]; [simpl in Hlt; bool_hyps; lia|].
    simpl. rewrite drop_0. apply last_snoc. }
  assert (Enext : wrapping_add U64_MAX (epoch_number (current_epoch m)) 1
                  = epoch_number (current_epoch m) + 1).
  { unfold wrapping_add. apply wrap_small. unfold EPOCH_LENGTH in *. ulia. }
  rewrite Enext.
  assert (Hwf' : ∀ a s, epoch_wf (open_epoch (epoch_number (current_epoch m) + 1) a s))
    by (intros; apply open_epoch_wf; unfold EPOCH_LENGTH in *; lia).
  split_and!; simpl; try done.
  - split_and!; [done|done|]. apply consecutive_app. split; simpl.
    + replace (_ + 1 - _) with (epoch_number (current_epoch m) - Z.of_nat (length (history m))
        + Z.of_nat (length (history m)) + 1 - Z.of_nat (length hist)) by lia. done.
    + split_and!; [lia|apply Hwf'|done].
  - destruct (Hwf' [] 0) as (_ & E1 & _). simpl in E1. rewrite E1, He, Hs. lia.
Qed.

Lemma genesis_wf : manager_wf EpochManager_new.
Proof. vm_compute. repeat split; discriminate. Qed.

(** *** The theorems at a concrete epoch *)

Lemma epoch_height_correspondence_witness :
  epoch_for_height 28799 = 0 ∧ is_epoch_boundary 28799 = true.
Proof.
  destruct (epoch_height_correspondence EpochInfo_genesis 28799) as (H1 & H2 & _).
  - vm_compute. repeat split; discriminate.
  - vm_compute. split; [discriminate|reflexivity].
  - split; [apply H1; vm_compute; reflexivity|apply H2; vm_compute; reflexivity].
Defined.

Lemma transition_spec_witness :
  start_height (current_epoch
    (@transition canonical_order 28799 EpochManager_new sample_registry).1.1) = 28800.
Proof.
  pose proof (@transition_spec canonical_order EpochManager_new sample_registry 28799
    genesis_wf ltac:(vm_compute; discriminate)) as Ht.
  destruct (@transition canonical_order 28799 EpochManager_new sample_registry)
    as [[m' r'] released].
  destruct Ht as (_ & _ & Hs & _). exact Hs.
Defined.
