(* ===== verification/Slashing.v ===== *)
(** * Slashing (crates/sentrix-staking/src/slashing.rs and slashing/)

    The sliding-window liveness tracker, the double-sign detector and the
    engine that turns both into slashes, jails and tombstones of the stake
    registry. *)

From S2P Require Import Prelude Transaction Staking.

Definition LIVENESS_WINDOW : Z := 14400.
Definition MIN_SIGNED_PER_WINDOW : Z := 4320.
Definition DOWNTIME_SLASH_BP : Z := 10.
Definition DOWNTIME_JAIL_BLOCKS : Z := 600.
Definition DOUBLE_SIGN_SLASH_BP : Z := 2000.

(** ** Liveness tracker *)

Record LivenessRecord := mkLiveness { lr_height : Z; lr_signed : bool }.

Record LivenessTracker := mkTracker {
  records : gmap string (list LivenessRecord);
  first_seen : gmap string Z;
}.
#[global] Instance LivenessTracker_eta : Eta LivenessTracker := λ t,
  mkTracker (records t) (first_seen t).
Definition LivenessTracker_new : LivenessTracker := mkTracker ∅ ∅.

(** [entry(k).or_insert(x)] *)
Definition or_insert {A} (k : string) (x : A) (m : gmap string A) : gmap string A :=
  <[k := default x (m !! k)]> m.

(** Keep the last [LIVENESS_WINDOW] entries. *)
Definition trim_window (es : list LivenessRecord) : list LivenessRecord :=
  if LIVENESS_WINDOW <? Z.of_nat (length es)
  then drop (length es - Z.to_nat LIVENESS_WINDOW) es else es.

Definition record_signed (validator : string) (height : Z) (t : LivenessTracker)
    : LivenessTracker :=
  let t := t <| first_seen := or_insert validator height (first_seen t) |> in
  let t := t <| records := or_insert validator [] (records t) |> in
  let entries := default [] (records t !! validator) in
  if bool_decide (lr_height <$> last entries = Some height) then t
  else t <| records :=
    <[validator := trim_window (entries ++ [mkLiveness height true])]> (records t) |>.

Definition record (validator : string) (height : Z) (signed : bool) (t : LivenessTracker)
    : LivenessTracker :=
  let t := if signed
           then t <| first_seen := or_insert validator height (first_seen t) |> else t in
  let entries := default [] (records t !! validator) in
  t <| records :=
    <[validator := trim_window (entries ++ [mkLiveness height signed])]> (records t) |>.

Definition signed_after (cutoff : Z) (es : list LivenessRecord) : list LivenessRecord :=
  filter (λ r, lr_signed r = true ∧ cutoff < lr_height r) es.

Definition is_downtime_at (t : LivenessTracker) (validator : string) (current_height : Z)
    : bool :=
  if current_height <? LIVENESS_WINDOW then false
  else
    match first_seen t !! validator with
    | None => false
    | Some first =>
        let cutoff := current_height - LIVENESS_WINDOW in
        if cutoff <? first then false
        else
          let signed_in_window :=
            match records t !! validator with
            | Some es => Z.of_nat (length (signed_after cutoff es))
            | None => 0
            end in
          signed_in_window <? MIN_SIGNED_PER_WINDOW
    end.

Definition is_downtime (t : LivenessTracker) (validator : string) : bool :=
  match records t !! validator with
  | None => false
  | Some es =>
      if Z.of_nat (length es) <? LIVENESS_WINDOW then false
      else Z.of_nat (length (filter (λ r, lr_signed r = true) es)) <? MIN_SIGNED_PER_WINDOW
  end.

Definition get_stats (t : LivenessTracker) (validator : string) : Z * Z :=
  match records t !! validator with
  | None => (0, 0)
  | Some es =>
      (Z.of_nat (length (filter (λ r, lr_signed r = true) es)),
       Z.of_nat (length (filter (λ r, lr_signed r = false) es)))
  end.

Definition reset (validator : string) (t : LivenessTracker) : LivenessTracker :=
  t <| records := delete validator (records t) |>.

(** ** Double-sign detector *)

Record DoubleSignEvidence := mkEvidence {
  ev_validator : string;
  ev_height : Z;
  ev_block_hash_a : string;
  ev_block_hash_b : string;
  ev_signature_a : string;
  ev_signature_b : string;
}.

Record DoubleSignDetector := mkDetector {
  recent_blocks : gmap (string * Z) string;
  max_entries : Z;
  processed : list string;
}.
#[global] Instance DoubleSignDetector_eta : Eta DoubleSignDetector := λ d,
  mkDetector (recent_blocks d) (max_entries d) (processed d).
Definition DoubleSignDetector_new : DoubleSignDetector := mkDetector ∅ 10000 [].
(** The derived [Default]. *)
Definition DoubleSignDetector_default : DoubleSignDetector := mkDetector ∅ 0 [].

Definition record_block_sign (validator : string) (height : Z) (block_hash signature : string)
    (d : DoubleSignDetector) : DoubleSignDetector * option DoubleSignEvidence :=
  match recent_blocks d !! (validator, height) with
  | Some existing_hash =>
      if bool_decide (existing_hash = block_hash) then (d, None)
      else (d, Some (mkEvidence validator height existing_hash block_hash "" signature))
  | None =>
      let d := d <| recent_blocks := <[(validator, height) := block_hash]> (recent_blocks d) |> in
      let d :=
        if max_entries d <? Z.of_nat (size (recent_blocks d)) then
          let cutoff_height := saturating_sub height (LIVENESS_WINDOW * 10) in
          d <| recent_blocks :=
            filter (λ p, cutoff_height < p.1.2) (recent_blocks d) |>
        else d in
      (d, None)
  end.

(** [format!("{}:{}:{}:{}", ...)] *)
Definition evidence_id (e : DoubleSignEvidence) : string :=
  ev_validator e +:+ ":" +:+ pretty (ev_height e) +:+ ":" +:+ ev_block_hash_a e
  +:+ ":" +:+ ev_block_hash_b e.

Definition process_evidence (e : DoubleSignEvidence) : st DoubleSignDetector bool :=
  fail_if (bool_decide (ev_block_hash_a e = ev_block_hash_b e))
    (invalid_tx "evidence hashes must differ") ;;
  fail_if (bool_decide (ev_validator e = ""))
    (invalid_tx "evidence missing validator") ;;
  done ← gets (λ d, bool_decide (evidence_id e ∈ processed d)) ;
  if done : bool then mret false
  else
    modify (λ d, d <| processed := processed d ++ [evidence_id e] |>) ;;
    modify (λ d, if 1000 <? Z.of_nat (length (processed d))
                 then d <| processed := drop 500 (processed d) |> else d) ;;
    mret true.

(** ** Slashing engine *)

Record SlashingEngine := mkEngine {
  liveness : LivenessTracker;
  double_sign : DoubleSignDetector;
  total_slashed : Z;
}.
#[global] Instance SlashingEngine_eta : Eta SlashingEngine := λ s,
  mkEngine (liveness s) (double_sign s) (total_slashed s).
Definition SlashingEngine_new : SlashingEngine :=
  mkEngine LivenessTracker_new DoubleSignDetector_default 0.

(** The engine works on the registry it is handed: the state is the pair. *)
Abbreviation world := (SlashingEngine * StakeRegistry)%type.

Section with_hash_order.
Context `{HashOrder}.

(** One iteration of [check_liveness]: the world and the slash, if any. *)
Definition check_validator (current_height : Z) (validator : string) (w : world)
    : world * list (string * Z) :=
  let '(s, r) := w in
  if negb (is_downtime_at (liveness s) validator current_height) then (w, [])
  else if default false (v_is_jailed <$> get_validator r validator) then (w, [])
  else
    match slash validator DOWNTIME_SLASH_BP r with
    | (r, Ok amount) =>
        let r := (jail validator DOWNTIME_JAIL_BLOCKS current_height r).1 in
        let s := s <| liveness := reset validator (liveness s) |>
                   <| total_slashed := saturating_add U64_MAX (total_slashed s) amount |> in
        ((s, r), [(validator, amount)])
    | (r, Err _) => ((s, r), [])
    end.

Fixpoint check_liveness (active : list string) (current_height : Z) (w : world)
    : world * list (string * Z) :=
  match active with
  | [] => (w, [])
  | v :: active =>
      let '(w, now) := check_validator current_height v w in
      let '(w, later) := check_liveness active current_height w in
      (w, now ++ later)
  end.

(** Run an operation of the detector or of the registry on the pair. *)
Definition on_detector {A} (m : st DoubleSignDetector A) : st world A := λ '(s, r),
  let '(d, x) := m (double_sign s) in ((s <| double_sign := d |>, r), x).
Definition on_registry {A} (m : st StakeRegistry A) : st world A := λ '(s, r),
  let '(r, x) := m r in ((s, r), x).

Definition process_double_sign (e : DoubleSignEvidence) : st world Z :=
  ov ← gets (λ w : world, get_validator w.2 (ev_validator e)) ;
  fail_if (default false (v_is_tombstoned <$> ov))
    (invalid_tx "validator already tombstoned") ;;
  is_new ← on_detector (process_evidence e) ;
  if negb is_new then mret 0
  else
    amount ← on_registry (slash (ev_validator e) DOUBLE_SIGN_SLASH_BP) ;
    on_registry (tombstone (ev_validator e)) ;;
    modify (λ w : world, (w.1 <| total_slashed :=
      saturating_add U64_MAX (total_slashed w.1) amount |>, w.2)) ;;
    mret amount.
End with_hash_order.

(** The periodic snapshot of the source only logs. *)
Definition record_block_signatures (active signers : list string) (height : Z)
    (s : SlashingEngine) : SlashingEngine :=
  s <| liveness := foldl (λ t signer, record_signed signer height t) (liveness s) signers |>.

Definition compute_jail_evidence (s : SlashingEngine) (active : list string)
    (current_height : Z) : list JailEvidence :=
  (λ v, let '(signed_count, missed_count) := get_stats (liveness s) v in
        mkJailEvidence v signed_count missed_count [])
  <$> filter (λ v, is_downtime_at (liveness s) v current_height = true) active.
