(* ===== verification/SlashingProps.v ===== *)
(** * Slashing: theorems

    The liveness tracker against its specification as a function of the chain
    history, harmless redelivery of a block, who can never be flagged, and the
    effect of the two slashing paths on the registry. *)

From S2P Require Import Prelude Staking StakingProps StakingTheorems StakingSets StakingFlow.
From S2P Require Import Transaction Slashing.

(** ** The tracker, one validator at a time *)

Abbreviation WINDOW := (Z.to_nat LIVENESS_WINDOW).

Definition view (t : LivenessTracker) (v : string)
    : option (list LivenessRecord) * option Z :=
  (records t !! v, first_seen t !! v).

(** What recording height [h] does to the signer's own view. *)
Definition view_step (h : Z) (x : option (list LivenessRecord) * option Z)
    : option (list LivenessRecord) * option Z :=
  let es := default [] x.1 in
  (Some (if decide (lr_height <$> last es = Some h) then es
         else trim_window (es ++ [mkLiveness h true])), Some (default h x.2)).

Lemma trim_window_eq es : trim_window es = drop (length es - WINDOW) es.
Proof.
  unfold trim_window. destruct (Z.ltb_spec LIVENESS_WINDOW (Z.of_nat (length es))); [done|].
  unfold LIVENESS_WINDOW in *. replace (length es - _)%nat with 0%nat by lia. done.
Qed.

Lemma last_trim es r : last (trim_window (es ++ [r])) = Some r.
Proof.
  rewrite trim_window_eq, length_app. simpl length. unfold LIVENESS_WINDOW.
  rewrite drop_app_le by lia. apply last_snoc.
Qed.

Lemma view_step_idemp h x : view_step h (view_step h x) = view_step h x.
Proof.
  unfold view_step. simpl. f_equal. f_equal.
  destruct (decide (lr_height <$> last (default [] x.1) = Some h)) as [E|E].
  - by rewrite decide_True.
  - by rewrite last_trim, decide_True.
Qed.

Lemma record_signed_view u h t v :
  view (record_signed u h t) v
  = if decide (u = v) then view_step h (view t v) else view t v.
Proof.
  unfold record_signed, view, view_step, or_insert. simpl. rewrite lookup_insert_eq. simpl.
  rewrite bool_decide_decide. destruct (decide (u = v)) as [->|Huv];
    destruct (decide (lr_height <$> last _ = Some h)); simpl;
    rewrite ?lookup_insert_eq, ?lookup_insert_ne by done; done.
Qed.

Lemma record_signers_view signers h t v :
  view (foldl (λ t s, record_signed s h t) t signers) v
  = if decide (v ∈ signers) then view_step h (view t v) else view t v.
Proof.
  revert t. induction signers as [|u us IH]; intros t; [done|].
  cbn [foldl]. rewrite IH, record_signed_view.
  destruct (decide (u = v)) as [->|Hne].
  - rewrite (decide_True (P := v ∈ v :: us)) by set_solver.
    case_decide; [apply view_step_idemp|done].
  - repeat case_decide; set_solver.
Qed.

Lemma view_ext t1 t2 : (∀ v, view t1 v = view t2 v) → t1 = t2.
Proof.
  intros H. destruct t1 as [r1 f1], t2 as [r2 f2]. unfold view in H; simpl in H.
  f_equal; apply map_eq; intros v; specialize (H v); congruence.
Qed.

(** The same finalised block reaches [record_block_signatures] through
    several code paths; recording it again, whatever active set each call
    passes, changes nothing. *)
Theorem record_block_signatures_idempotent a a' signers h s :
  record_block_signatures a signers h (record_block_signatures a' signers h s)
  = record_block_signatures a signers h s.
Proof.
  unfold record_block_signatures; simpl. destruct s as [t d n]; simpl. f_equal.
  apply view_ext. intros v. rewrite !record_signers_view.
  case_decide; [apply view_step_idemp|done].
Qed.

(** ** The tracker against the chain history *)

(** A block as the tracker sees it: its height and its precommit signers. *)
Abbreviation signed_block := (Z * list string)%type.

Definition record_chain (bs : list signed_block) (s : SlashingEngine) : SlashingEngine :=
  foldl (λ s b, record_block_signatures [] b.2 b.1 s) s bs.

Definition signed_heights (v : string) (bs : list signed_block) : list Z :=
  (filter (λ b, v ∈ b.2) bs).*1.

(** The view the tracker should have after the heights [l] were signed. *)
Definition ideal_view (l : list Z) : option (list LivenessRecord) * option Z :=
  match l with
  | [] => (None, None)
  | h0 :: _ => (Some (trim_window ((λ h, mkLiveness h true) <$> l)), Some h0)
  end.

Lemma trim_trim es r : trim_window (trim_window es ++ [r]) = trim_window (es ++ [r]).
Proof.
  rewrite !trim_window_eq, !length_app, length_drop. simpl length.
  set (n := length es). set (w := WINDOW). assert (Hw : (0 < w)%nat) by (unfold w, LIVENESS_WINDOW; lia).
  clearbody w. rewrite !drop_app_le by (rewrite ?length_drop; fold n; lia).
  rewrite drop_drop. do 2 f_equal. lia.
Qed.

Lemma ideal_view_snoc l h :
  Forall (λ x, x < h) l → view_step h (ideal_view l) = ideal_view (l ++ [h]).
Proof.
  intros Hl. destruct l as [|h0 l].
  { done. }
  unfold view_step, ideal_view. cbn [fst snd from_option id app]. f_equal. f_equal.
  rewrite decide_False.
  - rewrite trim_trim. f_equal. cbn. by rewrite fmap_app.
  - destruct (exists_last (l := h0 :: l) ltac:(done)) as (l' & x & E).
    rewrite E in *. rewrite fmap_app. simpl. rewrite last_trim. simpl.
    intros [= Ex]. apply Forall_app in Hl as [_ Hx]. apply Forall_cons in Hx as [Hx _]. lia.
Qed.

Lemma ideal_view_chain bs v :
  StronglySorted Z.lt bs.*1 →
  view (liveness (record_chain bs SlashingEngine_new)) v = ideal_view (signed_heights v bs).
Proof.
  induction bs as [|[h signers] bs IH] using rev_ind; intros Hs; [done|].
  unfold record_chain in *. rewrite foldl_snoc. simpl.
  rewrite fmap_app in Hs. apply StronglySorted_app in Hs as (Hlt & Hs & _).
  rewrite record_signers_view, IH by done.
  unfold signed_heights. rewrite filter_app, fmap_app. simpl.
  rewrite filter_cons, filter_nil. simpl. case_decide as Hv; [|by rewrite app_nil_r].
  apply ideal_view_snoc. apply Forall_forall. intros x (b & -> & Hb)%list_elem_of_fmap.
  apply list_elem_of_filter in Hb as [_ Hb].
  apply Hlt; [|set_solver]. apply list_elem_of_fmap. eauto.
Qed.

(** Strictly ascending heights below [cur] leave room for those that follow. *)
Lemma sorted_gap l cur i x :
  StronglySorted Z.lt l → Forall (λ h, h <= cur) l → l !! i = Some x →
  x + Z.of_nat (length l) - 1 - Z.of_nat i <= cur.
Proof.
  intros Hs. revert i x. induction Hs as [|a l Hs IH Ha]; intros i x Hc Hi; [done|].
  apply Forall_cons in Hc as [Hac Hc]. destruct i as [|i]; simpl in Hi; simplify_eq.
  - destruct l as [|b l]; [simpl; lia|].
    pose proof (IH 0%nat b Hc eq_refl). apply Forall_cons in Ha as [? _]. simpl in *. lia.
  - pose proof (IH i x Hc Hi). simpl. lia.
Qed.

Lemma signed_after_fmap cutoff l :
  signed_after cutoff ((λ h, mkLiveness h true) <$> l)
  = (λ h, mkLiveness h true) <$> filter (λ h, cutoff < h) l.
Proof.
  induction l as [|h l IH]; [done|]. rewrite filter_cons.
  unfold signed_after in *. rewrite fmap_cons, filter_cons, IH. simpl.
  repeat case_decide; naive_solver.
Qed.

Lemma filter_all_out {A} (P : A → Prop) `{∀ x, Decision (P x)} l :
  Forall (λ x, ¬ P x) l → filter P l = [].
Proof. induction 1; [done|]. rewrite filter_cons, decide_False by done. done. Qed.

(** Trimming never drops a record of the last [LIVENESS_WINDOW] heights. *)
Lemma window_count l cur :
  StronglySorted Z.lt l → Forall (λ h, h <= cur) l →
  length (signed_after (cur - LIVENESS_WINDOW)
            (trim_window ((λ h, mkLiveness h true) <$> l)))
  = length (filter (λ h, cur - LIVENESS_WINDOW < h) l).
Proof.
  intros Hs Hc. rewrite trim_window_eq, length_fmap.
  rewrite <-fmap_drop, signed_after_fmap, length_fmap.
  set (k := (length l - WINDOW)%nat).
  enough (filter (λ h, cur - LIVENESS_WINDOW < h) (take k l) = []) as E.
  { rewrite <-(take_drop k l) at 2. by rewrite filter_app, E. }
  apply filter_all_out. unfold k.
  apply Forall_lookup. intros i x Hx.
  apply lookup_take_Some in Hx as [Hx Hi].
  pose proof (sorted_gap l cur i x Hs Hc Hx). unfold LIVENESS_WINDOW in *. lia.
Qed.

Lemma StronglySorted_filter_fst v (bs : list signed_block) :
  StronglySorted Z.lt bs.*1 → StronglySorted Z.lt (signed_heights v bs).
Proof.
  unfold signed_heights. induction bs as [|b bs IH]; [done|]. simpl.
  intros [Hs Hf]%StronglySorted_inv. rewrite filter_cons. case_decide; [|by apply IH].
  simpl. constructor; [by apply IH|]. rewrite Forall_forall in *.
  intros h (b' & -> & [_ Hb]%list_elem_of_filter)%list_elem_of_fmap.
  apply Hf, list_elem_of_fmap. eauto.
Qed.

Lemma head_signed v bs h0 l :
  StronglySorted Z.lt bs.*1 → signed_heights v bs = h0 :: l →
  ∀ c, h0 <= c ↔ ∃ b, b ∈ bs ∧ v ∈ b.2 ∧ b.1 <= c.
Proof.
  intros Hs E c. pose proof (StronglySorted_filter_fst v bs Hs) as Hs'. rewrite E in Hs'.
  apply StronglySorted_inv in Hs' as [_ Hf]. rewrite Forall_forall in Hf.
  assert (Hin : ∀ h, h ∈ h0 :: l ↔ ∃ b, b ∈ bs ∧ v ∈ b.2 ∧ h = b.1).
  { intros h. rewrite <-E. unfold signed_heights. rewrite list_elem_of_fmap.
    setoid_rewrite list_elem_of_filter. naive_solver. }
  split.
  - intros Hle. destruct (proj1 (Hin h0) ltac:(set_solver)) as (b & ? & ? & ->). eauto.
  - intros (b & Hb & Hv & Hle).
    assert (b.1 ∈ h0 :: l) as Hi by (apply Hin; eauto).
    apply elem_of_cons in Hi as [E1|Hi]; [lia|]. specialize (Hf _ Hi). lia.
Qed.

Lemma signed_count v bs c :
  length (filter (λ h, c < h) (signed_heights v bs))
  = length (filter (λ b, v ∈ b.2 ∧ c < b.1) bs).
Proof.
  unfold signed_heights. induction bs as [|b bs IH]; [done|]. rewrite !filter_cons.
  destruct (decide (v ∈ b.2)) as [Hv|Hv]; simpl.
  - rewrite filter_cons. repeat case_decide; simpl; try rewrite IH; naive_solver.
  - rewrite (decide_False (P := v ∈ b.2 ∧ _)) by naive_solver. done.
Qed.

(** C19: after any history of recorded block signatures (blocks in ascending height
    order, up to the current height, none of them followed by the reset that a slash
    does) the tracker flags a validator exactly when the chain is a
    full window old, the validator signed some block at or before the window's
    start, and it signed fewer than [MIN_SIGNED_PER_WINDOW] of the blocks in
    the window.  The verdict depends on the canonical history alone, although
    the tracker only keeps a trimmed window. *)
Theorem is_downtime_at_correct bs v cur :
  StronglySorted Z.lt bs.*1 → Forall (λ b, b.1 <= cur) bs →
  is_downtime_at (liveness (record_chain bs SlashingEngine_new)) v cur = true ↔
  LIVENESS_WINDOW <= cur ∧
  (∃ b, b ∈ bs ∧ v ∈ b.2 ∧ b.1 <= cur - LIVENESS_WINDOW) ∧
  Z.of_nat (length (filter (λ b, v ∈ b.2 ∧ cur - LIVENESS_WINDOW < b.1) bs))
    < MIN_SIGNED_PER_WINDOW.
Proof.
  intros Hs Hc. pose proof (ideal_view_chain bs v Hs) as Hv. unfold view in Hv.
  assert (Hl : Forall (λ h, h <= cur) (signed_heights v bs)).
  { apply Forall_forall. intros h (b & -> & [_ Hb]%list_elem_of_filter)%list_elem_of_fmap.
    rewrite Forall_forall in Hc. by apply Hc. }
  pose proof (window_count _ cur (StronglySorted_filter_fst v bs Hs) Hl) as Hw.
  rewrite signed_count in Hw. unfold is_downtime_at.
  destruct (signed_heights v bs) as [|h0 l] eqn:E; cbn [ideal_view] in Hv;
    apply pair_eq in Hv as [-> ->].
  - destruct (_ <? _); (split; [done|]); intros (_ & (b & Hb & Hin & _) & _);
      assert (b.1 ∈ signed_heights v bs) as Hbad
        by (apply list_elem_of_fmap; exists b; by rewrite list_elem_of_filter);
      rewrite E in Hbad; set_solver.
  - rewrite <-(head_signed v bs h0 l Hs E).
    rewrite Hw.
    destruct (Z.ltb_spec cur LIVENESS_WINDOW); [split; [done|lia]|].
    destruct (Z.ltb_spec (cur - LIVENESS_WINDOW) h0); [split; [done|lia]|].
    rewrite Z.ltb_lt. tauto.
Qed.

(** ** Who can never be flagged *)

(** A validator that has never signed a block is never flagged for
    downtime, at any height, and so never appears in the jail evidence. *)
Theorem never_signed_never_flagged bs v active cur :
  Forall (λ b, v ∉ b.2) bs →
  let s := record_chain bs SlashingEngine_new in
  is_downtime_at (liveness s) v cur = false ∧
  v ∉ je_validator <$> compute_jail_evidence s active cur.
Proof.
  intros Hv s.
  assert (Hview : view (liveness s) v = (None, None)).
  { unfold s, record_chain. clear s.
    assert (Hgen : ∀ s0, view (liveness s0) v = (None, None) →
      view (liveness (foldl (λ s b, record_block_signatures [] b.2 b.1 s) s0 bs)) v = (None, None));
      [|by apply Hgen].
    induction Hv as [|b bs Hb Hbs IH]; intros s0 H0; [done|]. cbn [foldl]. apply IH.
    simpl. by rewrite record_signers_view, decide_False. }
  assert (Hd : is_downtime_at (liveness s) v cur = false).
  { unfold is_downtime_at. injection Hview as _ ->. by destruct (_ <? _). }
  split; [done|]. unfold compute_jail_evidence.
  intros (je & Hje & (u & -> & [Hu _]%list_elem_of_filter)%list_elem_of_fmap)%list_elem_of_fmap.
  destruct (get_stats (liveness s) u). simpl in Hje. congruence.
Qed.

(** [reset] forgets the signatures but not the anchor height, so a
    validator flagged once stays flagged right after the reset that follows
    its slash, at every later height, until it signs again. *)
Theorem reset_keeps_flag t v cur cur' :
  is_downtime_at t v cur = true → cur <= cur' → is_downtime_at (reset v t) v cur' = true.
Proof.
  unfold is_downtime_at, reset. simpl. intros H Hle.
  destruct (Z.ltb_spec cur LIVENESS_WINDOW); [done|].
  destruct (first_seen t !! v) as [f|]; [|done].
  destruct (Z.ltb_spec (cur - LIVENESS_WINDOW) f); [done|].
  destruct (Z.ltb_spec cur' LIVENESS_WINDOW); [lia|].
  destruct (Z.ltb_spec (cur' - LIVENESS_WINDOW) f); [lia|].
  by rewrite lookup_delete_eq.
Qed.

(** ** The engine on the registry *)

Section engine.
Context `{HashOrder}.

(** The record a downtime slash leaves behind. *)
Definition jailed_until (h : Z) (val' : ValidatorStake) : Prop :=
  v_is_jailed val' = true ∧ v_jail_until val' = saturating_add U64_MAX h DOWNTIME_JAIL_BLOCKS.
Definition downtime_slash (val : ValidatorStake) : Z :=
  v_total_stake val * DOWNTIME_SLASH_BP / 10000.

Definition flagged (s : SlashingEngine) (r : StakeRegistry) (h : Z) (v : string)
    (val : ValidatorStake) : Prop :=
  is_downtime_at (liveness s) v h = true ∧ validators r !! v = Some val ∧
  v_is_jailed val = false.

Lemma jail_eq r v val duration h :
  validators r !! v = Some val →
  ∃ r1, jail v duration h r = (r1, Ok tt) ∧
    validators r1 = <[v := val <| v_is_jailed := true |>
      <| v_jail_until := saturating_add U64_MAX h duration |>]> (validators r).
Proof.
  intros Hv. unfold jail, find_validator. unfold_st_goal. rewrite Hv. eauto.
Qed.

Lemma check_validator_cases h v s r :
  reg_inv r →
  (check_validator h v (s, r) = ((s, r), []) ∧ ∀ val, ¬ flagged s r h v val) ∨
  (∃ val val' r1, flagged s r h v val ∧
     check_validator h v (s, r) =
       ((s <| liveness := reset v (liveness s) |>
           <| total_slashed := saturating_add U64_MAX (total_slashed s) (downtime_slash val) |>,
         r1), [(v, downtime_slash val)]) ∧
     reg_inv r1 ∧ validators r1 = <[v := val']> (validators r) ∧ jailed_until h val').
Proof.
  intros Hr. unfold check_validator, get_validator, flagged.
  destruct (is_downtime_at (liveness s) v h); simpl;
    [|left; split; [done|]; intros ? (? & ? & ?); congruence].
  destruct (validators r !! v) as [val|] eqn:Hv; simpl.
  2:{ left. unfold slash, find_validator. unfold_st_goal. rewrite Hv.
      split; [done|]. intros ? (? & ? & ?); congruence. }
  destruct (v_is_jailed val) eqn:Hj;
    [left; split; [done|]; intros ? (? & ? & ?); congruence|].
  destruct (slash_eq r v DOWNTIME_SLASH_BP Hr ltac:(done) val Hv) as [_ (r1 & E & Ev & _)].
  pose proof (reg_inv_slash r v DOWNTIME_SLASH_BP Hr ltac:(done) _ _ E) as Hr1.
  rewrite E. set (val1 := val <| v_self_stake := _ |> <| v_total_delegated := _ |>) in Ev.
  destruct (jail_eq r1 v val1 DOWNTIME_JAIL_BLOCKS h) as (r2 & E2 & Ev2);
    [by rewrite Ev, lookup_insert_eq|].
  pose proof (reg_inv_op (OpJail v DOWNTIME_JAIL_BLOCKS h) r1 r2 I Hr1 E2) as Hr2.
  rewrite E2. right. eexists val, _, r2. split; [done|]. split; [done|]. split; [done|].
  split; [rewrite Ev2, Ev, insert_insert_eq; reflexivity|done].
Qed.

Lemma flagged_other s r h u v val n r1 val' :
  u ≠ v → validators r1 = <[u := val']> (validators r) →
  flagged (s <| liveness := reset u (liveness s) |> <| total_slashed := n |>) r1 h v val
  ↔ flagged s r h v val.
Proof.
  intros Hne Ev. unfold flagged, is_downtime_at, reset. simpl.
  rewrite Ev, lookup_insert_ne, lookup_delete_ne by done. done.
Qed.

(** What one sweep over [active] does, for the induction over the loop. *)
Definition sweep_ok (active : list string) (h : Z) (s : SlashingEngine) (r : StakeRegistry)
    (s' : SlashingEngine) (r' : StakeRegistry) (sl : list (string * Z)) : Prop :=
  reg_inv r' ∧ NoDup sl.*1 ∧
  (∀ v x, (v, x) ∈ sl → v ∈ active ∧ ∃ val val', flagged s r h v val ∧ x = downtime_slash val ∧
     validators r' !! v = Some val' ∧ jailed_until h val') ∧
  (∀ v val, v ∈ active → flagged s r h v val → v ∈ sl.*1) ∧
  (∀ v, v ∉ sl.*1 → validators r' !! v = validators r !! v) ∧
  total_slashed s' = saturating_add U64_MAX (total_slashed s) (sum_of snd sl).

Lemma downtime_slash_nonneg r v val : reg_inv r → validators r !! v = Some val → 0 <= downtime_slash val.
Proof.
  intros Hr Hv. pose proof (inv_validators r Hr v val Hv) as (_ & Hs & Hd & _).
  unfold downtime_slash, DOWNTIME_SLASH_BP, v_total_stake. apply Z.div_pos; ulia.
Qed.

Lemma check_liveness_sweep active h s r :
  reg_inv r → in_u64 (total_slashed s) →
  let '((s', r'), sl) := check_liveness active h (s, r) in sweep_ok active h s r s' r' sl.
Proof.
  revert s r. induction active as [|v active IH]; intros s r Hr Hs; cbn [check_liveness].
  { unfold sweep_ok. split_and!; try done; try constructor; try set_solver.
    rewrite sum_of_nil. ulia. }
  destruct (check_validator_cases h v s r Hr)
    as [[-> Hno]|(val & val' & r1 & Hf & -> & Hr1 & Ev & Hj)].
  - specialize (IH s r Hr Hs). destruct (check_liveness active h (s, r)) as [[s' r'] sl].
    destruct IH as (H1 & H2 & H3 & H4 & H5 & H6). unfold sweep_ok. simpl.
    split_and!; try done.
    + intros u x Hu. destruct (H3 u x Hu). split; [set_solver|done].
    + intros u val [->|Hu]%elem_of_cons Hf; [by destruct (Hno val)|by eapply H4].
  - pose proof (downtime_slash_nonneg r v val Hr (proj1 (proj2 Hf))) as Hnn.
    set (s1 := s <| liveness := _ |> <| total_slashed := _ |>).
    specialize (IH s1 r1 Hr1 ltac:(unfold s1; simpl; ulia)).
    destruct (check_liveness active h (s1, r1)) as [[s' r'] sl].
    destruct IH as (H1 & H2 & H3 & H4 & H5 & H6). unfold sweep_ok. simpl.
    assert (Hv : v ∉ sl.*1).
    { intros ([u x] & -> & Hu)%list_elem_of_fmap. destruct (H3 u x Hu) as (_ & w & w' & Hw & _).
      destruct Hw as (_ & Hw & Hjw). simpl in *. rewrite Ev, lookup_insert_eq in Hw.
      destruct Hj. congruence. }
    split_and!; [done|by constructor| | | |].
    + intros u x [[= -> ->]|Hu]%elem_of_cons.
      * split; [set_solver|]. exists val, val'. split_and!; try done.
        rewrite H5 by done. by rewrite Ev, lookup_insert_eq.
      * assert (u ≠ v) by (intros ->; apply Hv, list_elem_of_fmap; by exists (v, x)).
        destruct (H3 u x Hu) as (? & w & w' & Hw & ? & ? & ?). split; [set_solver|].
        exists w, w'. split_and!; try done. by eapply (flagged_other s r h v u w).
    + intros u w Hu Hfu. destruct (decide (u = v)) as [->|Hne]; [set_solver|].
      right. apply (H4 u w); [set_solver|]. by eapply (flagged_other s r h v u w).
    + intros u Hu. rewrite H5 by set_solver. rewrite Ev, lookup_insert_ne by set_solver. done.
    + rewrite H6, sum_of_cons. unfold s1. simpl.
      assert (0 <= sum_of snd sl).
      { apply sum_of_nonneg. intros [u x] Hu. destruct (H3 u x Hu) as (_ & w & _ & Hw & -> & _).
        destruct Hw as (_ & Hw & _). by eapply downtime_slash_nonneg. }
      ulia.
Qed.

(** One downtime sweep slashes exactly the registered, unjailed
    validators of the active set that the tracker flags, each once even if the
    set lists it twice, at the downtime rate of its stake before the sweep; it
    jails them for [DOWNTIME_JAIL_BLOCKS], leaves every other validator record
    as it was, keeps the registry invariant, and adds the slashed sum to the
    running total. *)
Theorem check_liveness_slashes_flagged active h s r :
  reg_inv r → in_u64 (total_slashed s) →
  let '((s', r'), sl) := check_liveness active h (s, r) in
  reg_inv r' ∧ NoDup sl.*1 ∧
  (∀ v, v ∈ sl.*1 ↔ v ∈ active ∧ ∃ val, flagged s r h v val) ∧
  (∀ v x, (v, x) ∈ sl → ∃ val val', validators r !! v = Some val ∧ x = downtime_slash val ∧
     validators r' !! v = Some val' ∧ jailed_until h val') ∧
  (∀ v, v ∉ sl.*1 → validators r' !! v = validators r !! v) ∧
  total_slashed s' = saturating_add U64_MAX (total_slashed s) (sum_of snd sl).
Proof.
  intros Hr Hs. pose proof (check_liveness_sweep active h s r Hr Hs) as Hw.
  destruct (check_liveness active h (s, r)) as [[s' r'] sl].
  destruct Hw as (H1 & H2 & H3 & H4 & H5 & H6). split_and!; try done.
  - intros v. split; [|intros [? [val ?]]; by eapply H4].
    intros ([u x] & -> & Hu)%list_elem_of_fmap. destruct (H3 u x Hu) as (? & val & ? & ? & _). eauto.
  - intros v x Hu. destruct (H3 v x Hu) as (_ & val & val' & (_ & ? & _) & ? & ? & ?). eauto 10.
Qed.

Lemma process_evidence_new e d d' :
  process_evidence e d = (d', Ok true) ∨ process_evidence e d = (d', Ok false) →
  evidence_id e ∉ processed d → process_evidence e d = (d', Ok true).
Proof.
  intros [E|E] Hn; [done|]. unfold process_evidence in E. unfold_st E.
  repeat (case_match; simplify_eq); bool_hyps; done.
Qed.

Lemma tombstone_eq r v val :
  validators r !! v = Some val →
  ∃ r1, tombstone v r = (r1, Ok tt) ∧
    validators r1 = <[v := val <| v_is_jailed := true |> <| v_is_tombstoned := true |>
      <| v_jail_until := U64_MAX |>]> (validators r).
Proof.
  intros Hv. unfold tombstone, find_validator. unfold_st_goal. rewrite Hv. eauto.
Qed.

(** The fresh-evidence path of [process_double_sign]. *)
Lemma double_sign_fresh e s r w amt :
  reg_inv r → process_double_sign e (s, r) = (w, Ok amt) →
  evidence_id e ∉ processed (double_sign s) →
  ∃ val val', validators r !! ev_validator e = Some val ∧
    amt = v_total_stake val * DOUBLE_SIGN_SLASH_BP / 10000 ∧ reg_inv w.2 ∧
    validators w.2 !! ev_validator e = Some val' ∧ v_is_tombstoned val' = true ∧
    v_is_jailed val' = true ∧ active_set w.2 = compute_active_set w.2.
Proof.
  intros Hr Hok Hn. unfold process_double_sign in Hok. unfold_st Hok.
  destruct (default false _); [done|]. unfold on_detector, on_registry in Hok.
  destruct (process_evidence e (double_sign s)) as [d' [b|er]] eqn:Ep; [|done].
  assert (b = true) as ->.
  { pose proof (process_evidence_new e (double_sign s) d'
      ltac:(destruct b; auto) Hn). congruence. }
  simpl in Hok. unfold_st Hok.
  destruct (validators r !! ev_validator e) as [val|] eqn:Hv; last first.
  { unfold slash, find_validator in Hok. unfold_st Hok. by rewrite Hv in Hok. }
  destruct (slash_eq r (ev_validator e) DOUBLE_SIGN_SLASH_BP Hr ltac:(done) val Hv)
    as [_ (r1 & E & Ev & _)].
  pose proof (reg_inv_slash r _ DOUBLE_SIGN_SLASH_BP Hr ltac:(done) _ _ E) as Hr1.
  rewrite E in Hok. simpl in Hok.
  edestruct (tombstone_eq r1 (ev_validator e)) as (r2 & E2 & Ev2);
    [by rewrite Ev, lookup_insert_eq|].
  pose proof (reg_inv_op (OpTombstone (ev_validator e)) r1 r2 I Hr1 E2) as Hr2.
  rewrite E2 in Hok. injection Hok as <- <-. simpl.
  eexists val, _. split_and!; try done; [by rewrite Ev2, lookup_insert_eq|done|done|].
  unfold tombstone, find_validator in E2. unfold_st E2.
  destruct (validators r1 !! _); [|done]. by injection E2 as <-.
Qed.

(** Fresh double-sign evidence against a registered validator takes
    exactly 20% of its stake, tombstones and evicts it, and no later evidence
    against it is accepted, whatever registry operations come in between. *)
Theorem double_sign_tombstones e s r w amt :
  reg_inv r → process_double_sign e (s, r) = (w, Ok amt) →
  evidence_id e ∉ processed (double_sign s) →
  (∃ val, validators r !! ev_validator e = Some val ∧
     amt = v_total_stake val * DOUBLE_SIGN_SLASH_BP / 10000) ∧
  reg_inv w.2 ∧ ev_validator e ∉ active_set w.2 ∧
  ∀ os e' s', ev_validator e' = ev_validator e →
    process_double_sign e' (s', run_all os w.2)
    = ((s', run_all os w.2), Err (invalid_tx "validator already tombstoned")).
Proof.
  intros Hr Hok Hn.
  destruct (double_sign_fresh e s r w amt Hr Hok Hn)
    as (val & val' & Hv & Ha & Hw & Hv' & Ht & Hj & Has).
  split_and!; [by exists val|done| |].
  - rewrite Has. apply (ineligible_not_active w.2 _ val'); [by apply reg_inv_addresses|done|].
    unfold is_active_eligible. by rewrite Hj.
  - intros os e' s' He. destruct (evolve_all os w.2 _ _ Hv') as (v2 & Hv2 & Ht2 & _).
    unfold process_double_sign. unfold_st_goal. simpl. unfold get_validator.
    rewrite He, Hv2. simpl. by rewrite (Ht2 Ht).
Qed.
End engine.

(** ** The theorems at concrete inputs *)

Definition sample_chain : list signed_block :=
  [(1, ["v1"; "v2"]); (2, ["v2"]); (20000, ["v1"; "v2"])].
Definition sample_engine : SlashingEngine := record_chain sample_chain SlashingEngine_new.

Lemma sample_chain_sorted : StronglySorted Z.lt sample_chain.*1.
Proof. repeat constructor. Qed.

Lemma is_downtime_at_correct_witness :
  is_downtime_at (liveness sample_engine) "v1" 20000 = true.
Proof.
  apply (is_downtime_at_correct sample_chain "v1" 20000 sample_chain_sorted).
  - repeat constructor; discriminate.
  - split_and!; [discriminate| |reflexivity].
    exists (1, ["v1"; "v2"]). split_and!; [left|left|discriminate].
Defined.

Lemma never_signed_never_flagged_witness :
  is_downtime_at (liveness sample_engine) "v3" 20000 = false.
Proof.
  apply (never_signed_never_flagged sample_chain "v3" [] 20000).
  apply (bool_decide_unpack _). vm_compute. exact I.
Defined.

Lemma reset_keeps_flag_witness :
  is_downtime_at (reset "v1" (liveness sample_engine)) "v1" 20600 = true.
Proof. apply (reset_keeps_flag _ "v1" 20000 20600); [vm_compute; reflexivity|lia]. Defined.

Lemma check_liveness_slashes_flagged_witness :
  NoDup (@check_liveness canonical_order ["v1"; "v1"] 20000
           (sample_engine, sample_registry)).2.*1.
Proof.
  pose proof (@check_liveness_slashes_flagged canonical_order ["v1"; "v1"] 20000 sample_engine
    sample_registry sample_registry_inv ltac:(vm_compute; split; discriminate)) as H.
  destruct (@check_liveness canonical_order ["v1"; "v1"] 20000 (sample_engine, sample_registry))
    as [[s' r'] sl].
  apply H.
Defined.

Definition sample_evidence : DoubleSignEvidence := mkEvidence "v1" 40 "aa" "bb" "s1" "s2".

Lemma double_sign_tombstones_witness :
  "v1" ∉ active_set
    (@process_double_sign canonical_order sample_evidence (sample_engine, sample_registry)).1.2.
Proof.
  apply (@double_sign_tombstones canonical_order sample_evidence sample_engine sample_registry
    _ 300000000266).
  - exact sample_registry_inv.
  - vm_compute. reflexivity.
  - vm_compute. set_solver.
Defined.
