(* ===== verification/BftMessages.v ===== *)
(** * BFT messages and justifications

    Models crates/sentrix-primitives/src/justification.rs and the message
    types, signing payloads and signature checks of
    crates/sentrix-bft/src/messages.rs.  ECDSA, SHA-256 and address derivation
    are parameters. *)

From S2P Require Import Prelude.
From S2P Require Export Bytes.

(** ** Messages *)

Record Prevote := mkPrevote {
  pv_height : Z;
  pv_round : Z;
  pv_block_hash : option string;
  pv_validator : string;
  pv_signature : bytes;
}.
#[global] Instance Prevote_eta : Eta Prevote := λ p,
  mkPrevote (pv_height p) (pv_round p) (pv_block_hash p) (pv_validator p) (pv_signature p).
#[global] Instance Prevote_eq_dec : EqDecision Prevote.
Proof. solve_decision. Defined.

Record Precommit := mkPrecommit {
  pc_height : Z;
  pc_round : Z;
  pc_block_hash : option string;
  pc_validator : string;
  pc_signature : bytes;
}.
#[global] Instance Precommit_eta : Eta Precommit := λ p,
  mkPrecommit (pc_height p) (pc_round p) (pc_block_hash p) (pc_validator p) (pc_signature p).
#[global] Instance Precommit_eq_dec : EqDecision Precommit.
Proof. solve_decision. Defined.

Record Proposal := mkProposal {
  pp_height : Z;
  pp_round : Z;
  pp_block_hash : string;
  pp_block_data : bytes;
  pp_proposer : string;
  pp_signature : bytes;
  pp_proposer_prevote : option Prevote;
}.
#[global] Instance Proposal_eta : Eta Proposal := λ p,
  mkProposal (pp_height p) (pp_round p) (pp_block_hash p) (pp_block_data p) (pp_proposer p)
    (pp_signature p) (pp_proposer_prevote p).

Record RoundStatus := mkRoundStatus {
  rs_height : Z;
  rs_round : Z;
  rs_validator : string;
  rs_signature : bytes;
}.
#[global] Instance RoundStatus_eta : Eta RoundStatus := λ p,
  mkRoundStatus (rs_height p) (rs_round p) (rs_validator p) (rs_signature p).

Definition pv_is_nil (p : Prevote) : bool := bool_decide (pv_block_hash p = None).
Definition pc_is_nil (p : Precommit) : bool := bool_decide (pc_block_hash p = None).

(** ** Signing payloads *)

Definition BFT_SIGNING_V2_FORK_HEIGHT : Z := U64_MAX.
Definition BFT_V2_MAGIC : Z := 0x20.
Definition is_bft_signing_v2_active (height : Z) : bool :=
  BFT_SIGNING_V2_FORK_HEIGHT <=? height.
Definition bft_v2_prefix (chain_id : Z) : bytes := BFT_V2_MAGIC :: to_be_bytes 8 chain_id.

(** The bytes of a vote's hash; [None] is a nil vote. *)
Definition vote_bytes (block_hash : option string) : bytes :=
  match block_hash with
  | Some h => as_bytes h
  | None => as_bytes "NIL"
  end.

Definition prop_signing_payload (height round : Z) (block_hash : string) : bytes :=
  to_le_bytes 8 height ++ to_le_bytes 4 round ++ as_bytes block_hash ++ [0x01].
Definition pv_signing_payload (height round : Z) (block_hash : option string) : bytes :=
  to_le_bytes 8 height ++ to_le_bytes 4 round ++ vote_bytes block_hash ++ [0x02].
Definition pc_signing_payload (height round : Z) (block_hash : option string) : bytes :=
  to_le_bytes 8 height ++ to_le_bytes 4 round ++ vote_bytes block_hash ++ [0x03].
Definition rs_signing_payload (height round : Z) (validator : string) : bytes :=
  to_le_bytes 8 height ++ to_le_bytes 4 round ++ as_bytes validator ++ [0x04].

Definition prop_signing_payload_v2 (height round : Z) (block_hash : string) (chain_id : Z)
    : bytes :=
  bft_v2_prefix chain_id ++ to_le_bytes 8 height ++ to_le_bytes 4 round
  ++ as_bytes block_hash ++ [0x01].
Definition pv_signing_payload_v2 (height round : Z) (block_hash : option string)
    (chain_id : Z) : bytes :=
  bft_v2_prefix chain_id ++ to_le_bytes 8 height ++ to_le_bytes 4 round
  ++ vote_bytes block_hash ++ [0x02].
Definition pc_signing_payload_v2 (height round : Z) (block_hash : option string)
    (chain_id : Z) : bytes :=
  bft_v2_prefix chain_id ++ to_le_bytes 8 height ++ to_le_bytes 4 round
  ++ vote_bytes block_hash ++ [0x03].
Definition rs_signing_payload_v2 (height round : Z) (validator : string) (chain_id : Z)
    : bytes :=
  bft_v2_prefix chain_id ++ to_le_bytes 8 height ++ to_le_bytes 4 round
  ++ as_bytes validator ++ [0x04].

Definition prop_signing_payload_for_height (height round : Z) (block_hash : string)
    (chain_id : Z) : bytes :=
  if is_bft_signing_v2_active height then prop_signing_payload_v2 height round block_hash chain_id
  else prop_signing_payload height round block_hash.
Definition pv_signing_payload_for_height (height round : Z) (block_hash : option string)
    (chain_id : Z) : bytes :=
  if is_bft_signing_v2_active height then pv_signing_payload_v2 height round block_hash chain_id
  else pv_signing_payload height round block_hash.
Definition pc_signing_payload_for_height (height round : Z) (block_hash : option string)
    (chain_id : Z) : bytes :=
  if is_bft_signing_v2_active height then pc_signing_payload_v2 height round block_hash chain_id
  else pc_signing_payload height round block_hash.
Definition rs_signing_payload_for_height (height round : Z) (validator : string)
    (chain_id : Z) : bytes :=
  if is_bft_signing_v2_active height then rs_signing_payload_v2 height round validator chain_id
  else rs_signing_payload height round validator.

(** ** Signatures

    The cryptographic libraries, as the operations the source calls. *)

Class Crypto := {
  SecretKey : Type;
  PublicKey : Type;
  sha256 : bytes → bytes;
  public_key : SecretKey → PublicKey;
  (** [sign_ecdsa_recoverable] then [serialize_compact]: compact signature and
      recovery id. *)
  sign_recoverable : bytes → SecretKey → bytes * Z;
  (** [RecoverableSignature::from_compact] then [recover_ecdsa]. *)
  recover_ecdsa : bytes → bytes → Z → option PublicKey;
  derive_address : PublicKey → string;
}.

(** Documented behaviour of recoverable ECDSA. *)
Class CryptoLaws `{Crypto} : Prop := {
  compact_length d sk : length (sign_recoverable d sk).1 = 64%nat;
  recovery_id_range d sk : 0 <= (sign_recoverable d sk).2 < 4;
  recover_sign d sk :
    recover_ecdsa d (sign_recoverable d sk).1 (sign_recoverable d sk).2
    = Some (public_key sk);
}.

Section signatures.
Context `{Crypto}.

Definition sign_payload (payload : bytes) (secret_key : SecretKey) : bytes :=
  let '(compact, rec_id) := sign_recoverable (sha256 payload) secret_key in
  compact ++ [rec_id].

(** [RecoveryId::try_from] accepts 0 to 3. *)
Definition recover_signer (payload signature : bytes) : result string :=
  if negb (Nat.eqb (length signature) 65) then Err InvalidSignature
  else
    match signature !! 64%nat with
    | None => Err InvalidSignature
    | Some rec_id =>
        if negb ((0 <=? rec_id) && (rec_id <? 4)) then Err InvalidSignature
        else
          match recover_ecdsa (sha256 payload) (take 64 signature) rec_id with
          | Some pubkey => Ok (derive_address pubkey)
          | None => Err InvalidSignature
          end
    end.

Definition verify_vote_signature (payload signature : bytes) (expected_validator : string)
    : bool :=
  match signature with
  | [] => false
  | _ =>
      match recover_signer payload signature with
      | Ok addr => bool_decide (addr = expected_validator)
      | Err _ => false
      end
  end.

Definition pv_verify_sig (p : Prevote) : bool :=
  verify_vote_signature (pv_signing_payload (pv_height p) (pv_round p) (pv_block_hash p))
    (pv_signature p) (pv_validator p).
Definition pc_verify_sig (p : Precommit) : bool :=
  verify_vote_signature (pc_signing_payload (pc_height p) (pc_round p) (pc_block_hash p))
    (pc_signature p) (pc_validator p).
Definition prop_verify_sig (p : Proposal) : bool :=
  verify_vote_signature (prop_signing_payload (pp_height p) (pp_round p) (pp_block_hash p))
    (pp_signature p) (pp_proposer p).
Definition rs_verify_sig (p : RoundStatus) : bool :=
  match rs_signature p with
  | [] => false
  | _ => verify_vote_signature (rs_signing_payload (rs_height p) (rs_round p) (rs_validator p))
           (rs_signature p) (rs_validator p)
  end.
Definition rs_sign (sk : SecretKey) (p : RoundStatus) : RoundStatus :=
  p <| rs_signature :=
    sign_payload (rs_signing_payload (rs_height p) (rs_round p) (rs_validator p)) sk |>.
End signatures.

(** ** Justifications *)

Record SignedPrecommit := mkSigned {
  sp_validator : string;
  sp_block_hash : string;
  sp_signature : bytes;
  sp_stake_weight : Z;
}.

(** [(total_stake as u128 * 2 / 3 + 1) as u64] *)
Definition supermajority_threshold (total_stake : Z) : Z :=
  as_u64 (total_stake * 2 / 3 + 1).

Record BlockJustification := mkJustification {
  bj_height : Z;
  bj_round : Z;
  bj_block_hash : string;
  bj_precommits : list SignedPrecommit;
}.
#[global] Instance BlockJustification_eta : Eta BlockJustification := λ j,
  mkJustification (bj_height j) (bj_round j) (bj_block_hash j) (bj_precommits j).

Definition BlockJustification_new (height round : Z) (block_hash : string)
    : BlockJustification := mkJustification height round block_hash [].
Definition bj_add_precommit (validator : string) (signature : bytes) (stake_weight : Z)
    (j : BlockJustification) : BlockJustification :=
  j <| bj_precommits :=
    bj_precommits j ++ [mkSigned validator (bj_block_hash j) signature stake_weight] |>.
Definition bj_total_stake (j : BlockJustification) : Z :=
  wrap U64_MAX (sum_of sp_stake_weight (bj_precommits j)).
Definition bj_total_weight (j : BlockJustification) : Z := bj_total_stake j.
Definition has_supermajority (j : BlockJustification) (total_stake : Z) : bool :=
  if total_stake =? 0 then false
  else supermajority_threshold total_stake <=? bj_total_weight j.
Definition signer_count (j : BlockJustification) : nat := length (bj_precommits j).

(** ** Payloads determine what was signed *)

(** A message kind with the separator its payload ends with. *)
Inductive signable : Type :=
  | SProposal (h r : Z) (block_hash : string)
  | SPrevote (h r : Z) (block_hash : option string)
  | SPrecommit (h r : Z) (block_hash : option string)
  | SRoundStatus (h r : Z) (validator : string).

Definition payload_of (m : signable) : bytes :=
  match m with
  | SProposal h r b => prop_signing_payload h r b
  | SPrevote h r b => pv_signing_payload h r b
  | SPrecommit h r b => pc_signing_payload h r b
  | SRoundStatus h r v => rs_signing_payload h r v
  end.
Definition payload_of_v2 (chain_id : Z) (m : signable) : bytes :=
  match m with
  | SProposal h r b => prop_signing_payload_v2 h r b chain_id
  | SPrevote h r b => pv_signing_payload_v2 h r b chain_id
  | SPrecommit h r b => pc_signing_payload_v2 h r b chain_id
  | SRoundStatus h r v => rs_signing_payload_v2 h r v chain_id
  end.

(** Heights are [u64], rounds [u32]; a block hash is not the text [NIL]. *)
Definition signable_ok (m : signable) : Prop :=
  match m with
  | SProposal h r _ | SRoundStatus h r _ => in_u64 h ∧ in_u32 r
  | SPrevote h r b | SPrecommit h r b => in_u64 h ∧ in_u32 r ∧ b ≠ Some "NIL"
  end.

Definition body_of (m : signable) : bytes :=
  match m with
  | SProposal _ _ b => as_bytes b
  | SPrevote _ _ b | SPrecommit _ _ b => vote_bytes b
  | SRoundStatus _ _ v => as_bytes v
  end.
Definition tag_of (m : signable) : Z :=
  match m with SProposal _ _ _ => 1 | SPrevote _ _ _ => 2 | SPrecommit _ _ _ => 3
  | SRoundStatus _ _ _ => 4 end.
Definition slot_of (m : signable) : Z * Z :=
  match m with SProposal h r _ | SPrevote h r _ | SPrecommit h r _ | SRoundStatus h r _ => (h, r) end.

Lemma payload_of_eq m :
  payload_of m = to_le_bytes 8 (slot_of m).1 ++ to_le_bytes 4 (slot_of m).2
                 ++ body_of m ++ [tag_of m].
Proof. by destruct m. Qed.
Lemma length_bft_v2_prefix c : length (bft_v2_prefix c) = 9%nat.
Proof.
  unfold bft_v2_prefix, to_be_bytes. cbn [length].
  by rewrite length_reverse, length_to_le_bytes.
Qed.
Lemma payload_of_v2_eq c m : payload_of_v2 c m = bft_v2_prefix c ++ payload_of m.
Proof. by destruct m. Qed.

Lemma vote_bytes_inj b b' :
  b ≠ Some "NIL" → b' ≠ Some "NIL" → vote_bytes b = vote_bytes b' → b = b'.
Proof.
  destruct b as [s|], b' as [t|]; simpl; intros Hb Hb' E; [by apply as_bytes_inj in E; subst| | |done].
  - apply (as_bytes_inj s "NIL") in E. congruence.
  - apply (as_bytes_inj "NIL" t) in E. congruence.
Qed.

Lemma payload_inj m m' :
  signable_ok m → signable_ok m' → payload_of m = payload_of m' → m = m'.
Proof.
  intros Hm Hm' E. rewrite !payload_of_eq in E.
  apply app_inj_1 in E as [E1 E]; [|by rewrite !length_to_le_bytes].
  apply app_inj_1 in E as [E2 E]; [|by rewrite !length_to_le_bytes].
  apply app_inj_2 in E as [E3 [= E4]]; [|done].
  assert (Hr : in_u64 (slot_of m).1 ∧ in_u32 (slot_of m).2) by (destruct m; simpl in *; tauto).
  assert (Hr' : in_u64 (slot_of m').1 ∧ in_u32 (slot_of m').2) by (destruct m'; simpl in *; tauto).
  apply to_le_bytes_inj in E1; [|clear -Hr; ulia|clear -Hr'; ulia].
  apply to_le_bytes_inj in E2; [|clear -Hr; ulia|clear -Hr'; ulia].
  destruct m, m'; simpl in *; try discriminate; subst; f_equal;
    (by apply as_bytes_inj) || (apply vote_bytes_inj; tauto).
Qed.

(** C34: within the machine ranges, a signing payload determines the message
    kind, height, round and hash (a nil vote and a vote for a hash other than
    the text [NIL] included); a v2 payload determines the chain id as well; and
    for heights below 2^56 no v1 payload is a v2 payload of a chain whose id
    has a non-zero second byte. *)
Theorem payload_identifies_message m m' c c' :
  signable_ok m → signable_ok m' → in_u64 c → in_u64 c' →
  (payload_of m = payload_of m' → m = m') ∧
  (payload_of_v2 c m = payload_of_v2 c' m' → c = c' ∧ m = m') ∧
  ((slot_of m).1 < 256 ^ 7 → (c / 256) mod 256 ≠ 0 → payload_of m ≠ payload_of_v2 c m').
Proof.
  intros Hm Hm' Hc Hc'. split_and!.
  - by apply payload_inj.
  - rewrite !payload_of_v2_eq. intros E.
    apply app_inj_1 in E as [E1 E2]; [|by rewrite !length_bft_v2_prefix].
    apply (f_equal tail) in E1. unfold bft_v2_prefix, to_be_bytes in E1. cbn [tail] in E1.
    apply (inj reverse), to_le_bytes_inj in E1; [|clear -Hc; ulia|clear -Hc'; ulia].
    split; [done|]. by apply payload_inj.
  - intros Hh Hne E. rewrite payload_of_v2_eq, payload_of_eq in E.
    apply (f_equal (λ l, l !! 7%nat)) in E.
    assert (Hh0 : 0 <= (slot_of m).1) by (clear -Hm; destruct m; simpl in *; ulia).
    rewrite lookup_app_l in E by (by rewrite length_to_le_bytes; lia).
    unfold bft_v2_prefix, to_be_bytes in E. simpl in E. injection E as E.
    rewrite !Z.div_div in E by lia. rewrite Z.div_small in E by (clear -Hh Hh0; lia).
    apply Hne. rewrite <-E. done.
Qed.

(** A vote for a block whose hash is the text [NIL] signs the same bytes as a
    nil vote. *)
Lemma nil_payload_collision h r :
  pv_signing_payload h r (Some "NIL") = pv_signing_payload h r None ∧
  pc_signing_payload h r (Some "NIL") = pc_signing_payload h r None.
Proof. done. Qed.

Lemma payload_identifies_message_witness :
  payload_of (SPrevote 5 0 (Some "abc")) ≠ payload_of (SPrevote 5 0 None) ∧
  payload_of (SPrevote 5 0 None) ≠ payload_of_v2 7119 (SPrevote 5 0 None).
Proof.
  assert (Hok : ∀ b, b ≠ Some "NIL" → signable_ok (SPrevote 5 0 b))
    by (intros b Hb; simpl; split_and!; [vm_compute; split; discriminate..|exact Hb]).
  assert (Hc : in_u64 7119) by (vm_compute; split; discriminate).
  destruct (payload_identifies_message (SPrevote 5 0 (Some "abc")) (SPrevote 5 0 None) 7119 7119
    (Hok (Some "abc") ltac:(discriminate)) (Hok None ltac:(discriminate)) Hc Hc) as (H1 & _ & _).
  destruct (payload_identifies_message (SPrevote 5 0 None) (SPrevote 5 0 None) 7119 7119
    (Hok None ltac:(discriminate)) (Hok None ltac:(discriminate)) Hc Hc) as (_ & _ & H3).
  split.
  - intros E. discriminate (H1 E).
  - apply H3; [reflexivity|vm_compute; discriminate].
Defined.

(** ** Signing and verifying *)

Section sign_verify.
Context `{CryptoLaws}.

Lemma recover_sign_payload payload sk :
  recover_signer payload (sign_payload payload sk) = Ok (derive_address (public_key sk)).
Proof.
  unfold recover_signer, sign_payload.
  pose proof (compact_length (sha256 payload) sk) as Hl.
  pose proof (recovery_id_range (sha256 payload) sk) as Hr.
  pose proof (recover_sign (sha256 payload) sk) as Hrec.
  destruct (sign_recoverable (sha256 payload) sk) as [compact rec_id]. simpl in Hl, Hr, Hrec.
  rewrite length_app, Hl. simpl length. simpl negb. cbv iota.
  rewrite lookup_app_r by lia. rewrite Hl. simpl.
  rewrite (proj2 (Z.leb_le 0 rec_id)), (proj2 (Z.ltb_lt rec_id 4)) by lia. simpl.
  rewrite take_app_length' by done. by rewrite Hrec.
Qed.

Lemma verify_own_signature payload sk :
  verify_vote_signature payload (sign_payload payload sk) (derive_address (public_key sk)) = true.
Proof.
  unfold verify_vote_signature. rewrite recover_sign_payload, bool_decide_eq_true_2 by done.
  destruct (sign_payload payload sk) eqn:E; [|done].
  unfold sign_payload in E. destruct (sign_recoverable _ _) as [compact ?]. by destruct compact.
Qed.

Lemma verify_foreign_signature payload sk v :
  derive_address (public_key sk) ≠ v →
  verify_vote_signature payload (sign_payload payload sk) v = false.
Proof.
  intros Hv. unfold verify_vote_signature. rewrite recover_sign_payload.
  rewrite bool_decide_eq_false_2 by done. by destruct (sign_payload payload sk).
Qed.
End sign_verify.
