(* ===== verification/Block.v ===== *)
(** * Blocks

    Models crates/sentrix-primitives/src/block.rs: the block, its hash, and the
    structural validation every received block goes through first. *)

From S2P Require Import Prelude Bytes Merkle Transaction TransactionProps BftMessages.

Definition STATE_ROOT_FORK_HEIGHT : Z := 100000.

Record Block := mkBlock {
  blk_index : Z;
  blk_previous_hash : string;
  blk_transactions : list Transaction;
  blk_timestamp : Z;
  blk_merkle_root : string;
  blk_validator : string;
  blk_hash : string;
  blk_state_root : option bytes;
  blk_round : Z;
  blk_justification : option BlockJustification;
}.
#[global] Instance Block_eta : Eta Block := λ b,
  mkBlock (blk_index b) (blk_previous_hash b) (blk_transactions b) (blk_timestamp b)
    (blk_merkle_root b) (blk_validator b) (blk_hash b) (blk_state_root b) (blk_round b)
    (blk_justification b).

Section block.
Context `{Json, Sha256, TxCrypto, Hex}.

Definition state_root_hex (b : Block) : string :=
  match blk_state_root b with Some r => hex_encode r | None => zeros_64 end.

(** The text that is hashed, in the two formats. *)
Definition hash_payload (b : Block) : string :=
  if STATE_ROOT_FORK_HEIGHT <=? blk_index b then
    pretty (blk_index b) +:+ blk_previous_hash b +:+ blk_merkle_root b
    +:+ pretty (blk_timestamp b) +:+ blk_validator b +:+ state_root_hex b
  else
    pretty (blk_index b) +:+ blk_previous_hash b +:+ blk_merkle_root b
    +:+ pretty (blk_timestamp b) +:+ blk_validator b.
Definition calculate_hash (b : Block) : string := sha256_hex (as_bytes (hash_payload b)).

Definition is_valid_hash (b : Block) : bool := bool_decide (blk_hash b = calculate_hash b).

Definition block_txids (b : Block) : list string := txid <$> blk_transactions b.

(** [Block::new], with the clock as an argument. *)
Definition Block_new (index : Z) (previous_hash : string) (transactions : list Transaction)
    (validator : string) (now : Z) : Block :=
  let b := mkBlock index previous_hash transactions now (merkle_root (txid <$> transactions))
    validator "" None 0 None in
  b <| blk_hash := calculate_hash b |>.

Definition GENESIS_TIMESTAMP : Z := 1712620800.
Definition Block_genesis : Block :=
  let genesis_tx := new_coinbase "GENESIS" 0 0 GENESIS_TIMESTAMP in
  let b := mkBlock 0 zeros_64 [genesis_tx] GENESIS_TIMESTAMP (merkle_root [txid genesis_tx])
    "GENESIS" "" None 0 None in
  b <| blk_hash := calculate_hash b |>.

Definition tx_count (b : Block) : nat := length (blk_transactions b).

Definition coinbase (b : Block) : option Transaction :=
  match blk_transactions b with
  | tx :: _ => if is_coinbase tx then Some tx else None
  | [] => None
  end.

(** The loop that inserts every id into [seen_txids], and the first one that was
    already there. *)
Fixpoint first_duplicate (seen : gset string) (ids : list string) : option string :=
  match ids with
  | [] => None
  | id :: ids =>
      if bool_decide (id ∈ seen) then Some id else first_duplicate ({[id]} ∪ seen) ids
  end.

Definition validate_structure (b : Block) (expected_index : Z) (expected_prev_hash : string)
    : result unit :=
  if negb (blk_index b =? expected_index) then
    Err (InvalidBlock ("expected index " +:+ pretty expected_index +:+ ", got "
      +:+ pretty (blk_index b)))
  else if negb (bool_decide (blk_previous_hash b = expected_prev_hash)) then
    Err (InvalidBlock "invalid previous hash")
  else if negb (is_valid_hash b) then Err (InvalidBlock "block hash is invalid")
  else
    match blk_transactions b with
    | [] => Err (InvalidBlock "block has no transactions")
    | tx :: txs =>
        if negb (is_coinbase tx) then Err (InvalidBlock "first transaction must be coinbase")
        else if existsb is_coinbase txs then
          Err (InvalidBlock "only the first transaction may be coinbase")
        else
          match first_duplicate ∅ (block_txids b) with
          | Some id => Err (InvalidBlock ("duplicate txid " +:+ id +:+ " in block"))
          | None =>
              if negb (bool_decide (merkle_root (block_txids b) = blk_merkle_root b)) then
                Err (InvalidBlock "merkle root mismatch")
              else Ok tt
          end
    end.

(** ** What structural validation guarantees *)

Lemma first_duplicate_None seen ids :
  first_duplicate seen ids = None ↔ NoDup ids ∧ ∀ id, id ∈ ids → id ∉ seen.
Proof.
  revert seen. induction ids as [|id ids IH]; intros seen; simpl; [split; [split; [constructor|set_solver]|done]|].
  case_bool_decide; [split; [done|set_solver]|]. rewrite IH, NoDup_cons. set_solver.
Qed.

Lemma validate_structure_ok b i p :
  validate_structure b i p = Ok tt ↔
    blk_index b = i ∧ blk_previous_hash b = p ∧ blk_hash b = calculate_hash b ∧
    is_Some (coinbase b) ∧ existsb is_coinbase (tail (blk_transactions b)) = false ∧
    NoDup (block_txids b) ∧ merkle_root (block_txids b) = blk_merkle_root b.
Proof.
  unfold validate_structure, is_valid_hash, coinbase.
  destruct (Z.eqb_spec (blk_index b) i); simpl; [|naive_solver].
  do 2 (case_bool_decide; simpl; [|naive_solver]).
  destruct (blk_transactions b) as [|tx txs] eqn:Et; [split; [done|intros (?&?&?&[? ?]&?); done]|].
  destruct (is_coinbase tx); simpl; [|split; [done|intros (?&?&?&[? ?]&?); done]].
  destruct (existsb is_coinbase txs); [naive_solver|].
  destruct (first_duplicate ∅ (block_txids b)) eqn:Ed.
  - split; [done|]. intros (_&_&_&_&_&Hn&_).
    rewrite (proj2 (first_duplicate_None ∅ (block_txids b))) in Ed; [done|set_solver].
  - apply first_duplicate_None in Ed as [? _]. case_bool_decide; naive_solver.
Qed.

(** ** What the hash commits to *)

Context `{!Sha256Laws, !HexLaws}.

Lemma merkle_root_64 l : l ≠ [] → Forall len64 l → len64 (merkle_root l).
Proof.
  destruct l as [|t [|u l]]; intros Hl H64; [done|apply sha256_hex_length|].
  change (len64 (top (t :: u :: l))).
  destruct (top_inner (t :: u :: l)) as (i & _ & -> & _); [simpl; lia|done|apply sha256_hex_length].
Qed.

(** Two texts [x ++ y] with the tails of one length. *)
Lemma append_inj_r a b c d :
  String.length b = String.length d → a +:+ b = c +:+ d → a = c ∧ b = d.
Proof.
  intros Hl E. apply (f_equal as_bytes) in E. rewrite !as_bytes_app in E.
  apply app_inj_2 in E as [E1 E2]; [|by rewrite !length_as_bytes].
  split; by apply (inj as_bytes).
Qed.
Lemma append_inj_l a b c d :
  String.length a = String.length c → a +:+ b = c +:+ d → a = c ∧ b = d.
Proof.
  intros Hl E. apply (f_equal as_bytes) in E. rewrite !as_bytes_app in E.
  apply app_inj_1 in E as [E1 E2]; [|by rewrite !length_as_bytes].
  split; by apply (inj as_bytes).
Qed.

(** The fields a hash fixes, once the height and the widths are known. *)
Lemma hash_payload_inj b c :
  blk_index b = blk_index c → blk_previous_hash b = blk_previous_hash c →
  len64 (blk_merkle_root b) → len64 (blk_merkle_root c) →
  String.length (blk_validator b) = String.length (blk_validator c) →
  String.length (state_root_hex b) = String.length (state_root_hex c) →
  hash_payload b = hash_payload c →
  blk_merkle_root b = blk_merkle_root c ∧ blk_timestamp b = blk_timestamp c ∧
  blk_validator b = blk_validator c ∧
  (STATE_ROOT_FORK_HEIGHT <= blk_index b → state_root_hex b = state_root_hex c).
Proof.
  intros Hi Hp Hm Hm' Hv Hs E. unfold hash_payload in E. rewrite <-Hi, <-Hp in E.
  destruct (Z.leb_spec STATE_ROOT_FORK_HEIGHT (blk_index b)).
  all: do 2 apply (inj (String.append _)) in E.
  all: apply append_inj_l in E as [-> E]; [|congruence].
  all: apply append_inj_r in E as [Et E]; [|by rewrite ?string_length_app; lia].
  all: apply (inj pretty) in Et.
  - apply append_inj_r in E as [Ev Es]; [|done]. done.
  - split_and!; [done..|lia].
Qed.

(** Two accepted blocks for one place in the chain. *)
Section commits.
Context (b c : Block) (i : Z) (p : string).
Context (Hb : validate_structure b i p = Ok tt) (Hc : validate_structure c i p = Ok tt).

(** The widths the code works with: ids and roots are digests, addresses have
    one length. *)
Definition block_widths (b : Block) : Prop :=
  Forall len64 (block_txids b) ∧ String.length (blk_validator b) = 42%nat ∧
  (∀ r, blk_state_root b = Some r → length r = 32%nat).

Lemma state_root_hex_64 d : block_widths d → len64 (state_root_hex d).
Proof.
  intros (_ & _ & Hr). unfold state_root_hex. destruct (blk_state_root d) as [r|]; [|done].
  unfold len64. by rewrite hex_length, (Hr r).
Qed.

(** A block hash identifies the block's place, time, validator, transaction
    ids and (from the fork height on) state root: two structurally valid blocks
    at one height and parent with one hash agree on all of them, if no two of
    the strings hashed for them collide and no id is an inner Merkle digest. *)
Theorem block_hash_commits :
  block_widths b → block_widths c → blk_hash b = blk_hash c →
  collision_free sha256_hex
    ([as_bytes (hash_payload b); as_bytes (hash_payload c)]
     ++ (as_bytes <$> block_txids b ++ block_txids c)
     ++ inner_inputs (block_txids b) ++ inner_inputs (block_txids c)) →
  (∀ t x, t ∈ block_txids b ++ block_txids c →
     x ∈ inner_inputs (block_txids b) ++ inner_inputs (block_txids c) → t ≠ sha256_hex x) →
  blk_timestamp b = blk_timestamp c ∧ blk_validator b = blk_validator c ∧
  (STATE_ROOT_FORK_HEIGHT <= i → state_root_hex b = state_root_hex c) ∧
  block_txids b = block_txids c.
Proof.
  intros Hwb Hwc E Hcf Hleaf.
  apply validate_structure_ok in Hb as (Ei & Ep & Eh & [cb Hcb] & _ & Hn & Hm).
  apply validate_structure_ok in Hc as (Ei' & Ep' & Eh' & [cb' Hcb'] & _ & Hn' & Hm').
  assert (Hne : block_txids b ≠ [] ∧ block_txids c ≠ []).
  { unfold coinbase in Hcb, Hcb'. unfold block_txids.
    by destruct (blk_transactions b), (blk_transactions c). }
  destruct Hne as [Hne Hne']. destruct (Hwb) as (H64 & Hv & _), (Hwc) as (H64' & Hv' & _).
  assert (Epl : hash_payload b = hash_payload c).
  { apply (inj as_bytes), Hcf; [set_solver..|]. unfold calculate_hash in *. congruence. }
  apply hash_payload_inj in Epl as (Em & Et & Ev & Es); try congruence.
  - rewrite <-Ei. split_and!; [done..|]. apply merkle_root_inj; [done..| | | |congruence].
    + by apply Forall_app.
    + eapply collision_free_sub; [|exact Hcf]. set_solver.
    + done.
  - rewrite <-Hm. by apply merkle_root_64.
  - rewrite <-Hm'. by apply merkle_root_64.
  - by rewrite (state_root_hex_64 b Hwb), (state_root_hex_64 c Hwc).
Qed.
End commits.

(** The hash does not commit to the transactions themselves: replacing them
    by others with the same ids leaves the hash and the verdict of structural
    validation unchanged. *)
Theorem block_ignores_bodies b txs i p :
  txid <$> txs = block_txids b → is_coinbase <$> txs = is_coinbase <$> blk_transactions b →
  validate_structure (b <| blk_transactions := txs |>) i p = validate_structure b i p ∧
  calculate_hash (b <| blk_transactions := txs |>) = calculate_hash b.
Proof.
  intros Hi Hcb. split; [|done]. unfold validate_structure, is_valid_hash, block_txids.
  simpl. change (calculate_hash (mkBlock _ _ txs _ _ _ _ _ _ _)) with (calculate_hash b).
  rewrite Hi. fold (block_txids b).
  destruct txs as [|t txs], (blk_transactions b) as [|u us]; try done.
  injection Hcb as Hc1 Hc2. rewrite Hc1.
  assert (existsb is_coinbase txs = existsb is_coinbase us) as ->; [|done].
  clear -Hc2. revert us Hc2. induction txs as [|t txs IH]; intros [|u us] E; try done.
  injection E as E1 E2. simpl. by rewrite E1, (IH us).
Qed.
End block.

(** ** Examples *)

Section examples.
#[local] Existing Instances toy_json toy_sha toy_sha_laws toy_hex toy_hex_laws toy_tx_crypto.

Definition demo_validator : string := "0x00000000000000000000000000000000000000aa".
Definition demo_block : Block :=
  @Block_new toy_sha toy_hex 7 zeros_64
    [@new_coinbase toy_json toy_sha demo_validator 100 7 1000;
     @Transaction_new toy_json toy_sha toy_tx_crypto "alice" "bob" 500 20000 7 "" 7119 "alice" "alice" 1000]
    demo_validator 1000.
(** The same block as finalised in a later round: the round is not hashed. *)
Definition demo_block_r3 : Block := demo_block <| blk_round := 3 |>.

Lemma block_hash_commits_witness :
  blk_hash demo_block = blk_hash demo_block_r3 ∧ block_txids demo_block = block_txids demo_block_r3.
Proof.
  split; [reflexivity|].
  apply (block_hash_commits demo_block demo_block_r3 7 zeros_64).
  - vm_compute. reflexivity.
  - vm_compute. reflexivity.
  - vm_compute. repeat split; [repeat constructor|discriminate].
  - vm_compute. repeat split; [repeat constructor|discriminate].
  - reflexivity.
  - apply collision_freeb_ok. vm_compute. reflexivity.
  - apply not_innerb_ok. vm_compute. reflexivity.
Defined.

(** Two payments under one transaction id. *)
Definition payment_to (to : string) : Transaction :=
  @Transaction_new toy_json toy_sha toy_tx_crypto "alice" to 500 20000 7 "" 7119 "alice" "alice" 1000
    <| txid := decimal_digits 64 1 |>.
Definition block_paying (to : string) : Block :=
  @Block_new toy_sha toy_hex 7 zeros_64
    [@new_coinbase toy_json toy_sha demo_validator 100 7 1000; payment_to to] demo_validator 1000.

Lemma block_ignores_bodies_witness :
  blk_hash (block_paying "bob") = blk_hash (block_paying "eve") ∧
  validate (payment_to "eve") 7 7119 = Ok tt ∧
  validate_structure (block_paying "bob" <| blk_transactions := blk_transactions (block_paying "eve") |>)
    7 zeros_64 = validate_structure (block_paying "bob") 7 zeros_64 ∧
  validate_structure (block_paying "bob") 7 zeros_64 = Ok tt.
Proof.
  split; [vm_compute; reflexivity|]. split; [vm_compute; reflexivity|].
  split; [|vm_compute; reflexivity].
  apply (block_ignores_bodies (block_paying "bob") (blk_transactions (block_paying "eve")) 7 zeros_64).
  - vm_compute. reflexivity.
  - vm_compute. reflexivity.
Defined.
End examples.
