(* ===== verification/Chain.v ===== *)
(** * The chain state, the mempool and block production

    Models the [Blockchain] struct of crates/sentrix-core/src/blockchain.rs with
    its accessors (blockchain_block_accessors.rs), the fork tests of
    crates/sentrix-fork-heights/src/lib.rs it uses, the mempool (mempool.rs) and
    the block producer (block_producer.rs, and the gas bound of
    crates/sentrix-evm/src/gas.rs).  Storage handles, the event emitter and the
    divergence alarm are not part of the state. *)

From S2P Require Import Prelude Bytes Account Staking Epoch Slashing Token.
From S2P Require Import Merkle Transaction TransactionProps Authority Emission.
From S2P Require Import BftMessages Block.

(** ** Fork heights *)

Record Forks := mkForks {
  fk_voyager : Z;
  fk_reward_v2 : Z;
  fk_tokenomics_v2 : Z;
  fk_jail_consensus : Z;
  fk_nft_tokenop : Z;
  fk_add_self_stake : Z;
  fk_strict_justification : Z;
  fk_speculative_apply : Z;
  fk_reward_apply_path : Z;
  fk_bft_gate_relax : Z;
}.

Definition is_voyager_height (fk : Forks) := fork_active (fk_voyager fk).
Definition is_reward_v2_height (fk : Forks) := fork_active (fk_reward_v2 fk).
Definition is_tokenomics_v2_height (fk : Forks) := fork_active (fk_tokenomics_v2 fk).
Definition is_jail_consensus_height (fk : Forks) := fork_active (fk_jail_consensus fk).
Definition is_nft_tokenop_height (fk : Forks) := fork_active (fk_nft_tokenop fk).
Definition is_add_self_stake_height (fk : Forks) := fork_active (fk_add_self_stake fk).
Definition is_speculative_apply_height (fk : Forks) := fork_active (fk_speculative_apply fk).
Definition is_reward_apply_path_height (fk : Forks) := fork_active (fk_reward_apply_path fk).
Definition is_bft_gate_relax_height (fk : Forks) := fork_active (fk_bft_gate_relax fk).

(** ** The state *)

(** Components of the state that other files provide: the NFT registry
    and the state trie. *)
Class ChainTypes := { NftRegistry : Type; SentrixTrie : Type }.

Inductive BlockSource := SelfProduced | Peer.
#[global] Instance BlockSource_eq_dec : EqDecision BlockSource.
Proof. solve_decision. Defined.

Record Blockchain `{ChainTypes} := mkBlockchain {
  bc_chain : list Block;
  bc_accounts : AccountDB;
  bc_authority : AuthorityManager;
  bc_contracts : ContractRegistry;
  bc_nft_registry : NftRegistry;
  bc_mempool : list Transaction;
  bc_mempool_txids : gset string;
  bc_mempool_sender_count : gmap string Z;
  bc_total_minted : Z;
  bc_chain_id : Z;
  bc_state_trie : option SentrixTrie;
  bc_stake_registry : StakeRegistry;
  bc_epoch_manager : EpochManager;
  bc_slashing : SlashingEngine;
  bc_source_for_current_add : BlockSource;
  bc_justification_verified : bool;
  bc_voyager_activated : bool;
}.
#[global] Instance Blockchain_eta `{ChainTypes} : Eta Blockchain := λ b,
  mkBlockchain _ (bc_chain b) (bc_accounts b) (bc_authority b) (bc_contracts b)
    (bc_nft_registry b) (bc_mempool b) (bc_mempool_txids b) (bc_mempool_sender_count b)
    (bc_total_minted b) (bc_chain_id b) (bc_state_trie b) (bc_stake_registry b)
    (bc_epoch_manager b) (bc_slashing b) (bc_source_for_current_add b)
    (bc_justification_verified b) (bc_voyager_activated b).

Definition CHAIN_WINDOW_SIZE : nat := 1000.
Definition MAX_TX_PER_BLOCK : nat := 5000.

Section accessors.
Context `{ChainTypes, Sha256, Hex} (fk : Forks).
Implicit Types bc : Blockchain.

Definition bc_height bc : Z := default 0 (blk_index <$> last (bc_chain bc)).
Definition chain_window_start bc : Z := default 0 (blk_index <$> head (bc_chain bc)).
Definition latest_block bc : result Block :=
  match last (bc_chain bc) with
  | Some b => Ok b
  | None => Err (NotFound "chain is empty")
  end.
Definition get_block bc (index : Z) : option Block :=
  let window_start := chain_window_start bc in
  if index <? window_start then None else bc_chain bc !! Z.to_nat (index - window_start).
Definition get_block_by_hash bc (hash : string) : option Block :=
  snd <$> list_find (λ b, blk_hash b = hash) (bc_chain bc).
Definition bc_block_reward bc : Z :=
  get_block_reward (fk_tokenomics_v2 fk) (bc_height bc) (bc_total_minted bc).

Definition voyager_mode_for bc (height : Z) : bool :=
  bc_voyager_activated bc || is_voyager_height fk height.
Definition min_active_for_bft (height total_validator_count : Z) : Z :=
  if negb (is_bft_gate_relax_height fk height) then MIN_BFT_VALIDATORS
  else saturating_add U64_MAX (saturating_mul U64_MAX total_validator_count 2) 2 / 3.

(** The loop over consecutive pairs of the window. *)
Fixpoint valid_window (prev : Block) (rest : list Block) : bool :=
  match rest with
  | [] => true
  | block :: rest =>
      bool_decide (blk_previous_hash block = blk_hash prev) && is_valid_hash block
      && bool_decide (merkle_root (block_txids block) = blk_merkle_root block)
      && valid_window block rest
  end.
Definition is_valid_chain_window bc : bool :=
  match bc_chain bc with [] => true | b :: rest => valid_window b rest end.
End accessors.

(** ** The mempool *)

Definition MAX_MEMPOOL_SIZE : nat := 100 * 100.
Definition MAX_MEMPOOL_PER_SENDER : Z := 100.
Definition MEMPOOL_MAX_AGE_SECS : Z := 3600.
Definition MAX_TX_SIZE : Z := 128 * 1024.

(** [VecDeque::partition_point]: a binary search that gives the number of
    leading items satisfying the predicate when the items that satisfy it come
    first, and an unspecified position otherwise. *)
Class PartitionPoint := {
  partition_point : (Transaction → bool) → list Transaction → nat;
  partition_point_le p l : (partition_point p l <= length l)%nat;
  partition_point_spec p l k :
    Forall (λ x, p x = true) l → Forall (λ x, p x = false) k →
    partition_point p (l ++ k) = length l;
}.

(** [v.insert(pos, x)] *)
Definition insert_at {A} (pos : nat) (x : A) (l : list A) : list A := take pos l ++ x :: drop pos l.
(** [iter().rposition(p).map(|i| i + 1)], or zero: the position after the last
    match. *)
Fixpoint after_last {A} (p : A → bool) (l : list A) : nat :=
  match l with
  | [] => 0
  | x :: l => match after_last p l with
              | O => if p x then 1 else 0
              | S n => S (S n)
              end
  end.

Section mempool.
Context `{ChainTypes, Json, Sha256, TxCrypto, PartitionPoint}.
Context (serialized_size : Transaction → option Z) (now : Z).
Implicit Types bc : Blockchain.

Definition mempool_pending_count bc (address : string) : Z :=
  default 0 (bc_mempool_sender_count bc !! address).
Definition mempool_pending_spend bc (address : string) : Z :=
  foldl (saturating_add U64_MAX) 0
    ((λ tx, saturating_add U64_MAX (tx_amount tx) (tx_fee tx))
     <$> filter (λ tx, tx_from tx = address) (bc_mempool bc)).
Definition mempool_size bc : nat := length (bc_mempool bc).

(** One step of the sidecar update of an admitted transaction. *)
Definition index_tx (bc : Blockchain) (tx : Transaction) : Blockchain :=
  bc <| bc_mempool_txids := {[txid tx]} ∪ bc_mempool_txids bc |>
     <| bc_mempool_sender_count :=
          <[tx_from tx := wrapping_add U32_MAX (default 0 (bc_mempool_sender_count bc !! tx_from tx)) 1]>
            (bc_mempool_sender_count bc) |>.
Definition rebuild_mempool_sidecars bc : Blockchain :=
  foldl index_tx (bc <| bc_mempool_txids := ∅ |> <| bc_mempool_sender_count := ∅ |>)
    (bc_mempool bc).
Definition clear_mempool bc : Blockchain :=
  bc <| bc_mempool := [] |> <| bc_mempool_txids := ∅ |> <| bc_mempool_sender_count := ∅ |>.

(** The position of a new transaction: by fee, but after everything pending from
    its sender. *)
Definition insert_pos (tx : Transaction) (pool : list Transaction) : nat :=
  Nat.max (partition_point (λ existing, tx_fee tx <=? tx_fee existing) pool)
          (after_last (λ existing, bool_decide (tx_from existing = tx_from tx)) pool).

Definition lift_result {S A} (r : result A) : st S A := λ s, (s, r).

Definition add_to_mempool (tx : Transaction) : st Blockchain unit :=
  bc ← gets (λ bc, bc) ;
  fail_if (is_coinbase tx) (InvalidTransaction "cannot manually add coinbase to mempool") ;;
  (match serialized_size tx with
   | Some size => fail_if (MAX_TX_SIZE <? size) (InvalidTransaction ("tx size " +:+ pretty size
        +:+ " bytes exceeds limit " +:+ pretty MAX_TX_SIZE))
   | None => mret tt
   end) ;;
  fail_if (MAX_MEMPOOL_SIZE <=? length (bc_mempool bc))%nat
    (InvalidTransaction "mempool full — try again later") ;;
  fail_if (MAX_MEMPOOL_PER_SENDER <=? mempool_pending_count bc (tx_from tx))
    (InvalidTransaction "too many pending transactions from this sender") ;;
  fail_if (negb (is_valid_sentrix_address (tx_to tx)))
    (InvalidTransaction ("invalid to_address: '" +:+ tx_to tx +:+ "'")) ;;
  fail_if (bool_decide (tx_to tx = TOKEN_OP_ADDRESS) && negb (is_token_op (tx_data tx))
           && negb (is_evm_tx tx))
    (InvalidTransaction
       "cannot send SRX to zero address — use TokenOp::Burn to explicitly burn tokens") ;;
  fail_if (wrapping_add U64_MAX now 300 <? tx_timestamp tx)
    (InvalidTransaction "transaction timestamp too far in the future (max +5 min)") ;;
  fail_if (saturating_add U64_MAX (tx_timestamp tx) MEMPOOL_MAX_AGE_SECS <? now)
    (InvalidTransaction ("transaction too old — max age " +:+ pretty MEMPOOL_MAX_AGE_SECS
       +:+ " seconds")) ;;
  fail_if (bool_decide (txid tx ∈ bc_mempool_txids bc))
    (InvalidTransaction ("duplicate txid in mempool: " +:+ txid tx)) ;;
  let expected_nonce := wrapping_add U64_MAX (get_nonce (bc_accounts bc) (tx_from tx))
                          (mempool_pending_count bc (tx_from tx)) in
  lift_result (validate tx expected_nonce (bc_chain_id bc)) ;;
  let available := saturating_sub (get_balance (bc_accounts bc) (tx_from tx))
                     (mempool_pending_spend bc (tx_from tx)) in
  needed ← ok_or (checked_add U64_MAX (tx_amount tx) (tx_fee tx))
    (InvalidTransaction "amount + fee overflow") ;
  fail_if (available <? needed) (InsufficientBalance available needed) ;;
  modify (λ bc, index_tx
    (bc <| bc_mempool := insert_at (insert_pos tx (bc_mempool bc)) tx (bc_mempool bc) |>) tx).

Definition prune_mempool bc : Blockchain :=
  rebuild_mempool_sidecars (bc <| bc_mempool :=
    filter (λ tx, now <= saturating_add U64_MAX (tx_timestamp tx) MEMPOOL_MAX_AGE_SECS)
      (bc_mempool bc) |>).

Definition evict_stale_nonce_for_senders (senders : list string) bc : Blockchain :=
  if bool_decide (senders = []) then bc
  else rebuild_mempool_sidecars (bc <| bc_mempool :=
    filter (λ tx, tx_from tx ∈ senders → get_nonce (bc_accounts bc) (tx_from tx) <= tx_nonce tx)
      (bc_mempool bc) |>).
End mempool.

(** ** Block production *)

Definition BLOCK_GAS_LIMIT : Z := 30000000.
Definition fits_in_block (current_gas_used tx_gas_limit : Z) : bool :=
  saturating_add U64_MAX current_gas_used tx_gas_limit <=? BLOCK_GAS_LIMIT.

(** [str::parse::<u64>]: an optional plus sign and decimal digits. *)
Fixpoint parse_digits (s : string) (acc : Z) : option Z :=
  match s with
  | EmptyString => Some acc
  | String a s =>
      let d := Z.of_N (Ascii.N_of_ascii a) - 48 in
      if (0 <=? d) && (d <=? 9) && (acc * 10 + d <=? U64_MAX) then parse_digits s (acc * 10 + d)
      else None
  end.
Definition parse_u64 (s : string) : option Z :=
  match s with
  | EmptyString => None
  | String a rest =>
      if (Ascii.N_of_ascii a =? 43)%N then
        match rest with EmptyString => None | String _ _ => parse_digits rest 0 end
      else parse_digits s 0
  end.
(** [split(':').nth(1)]: the text between the first colon and the next. *)
Fixpoint until_colon (s : string) : string :=
  match s with
  | EmptyString => EmptyString
  | String a s => if (Ascii.N_of_ascii a =? 58)%N then EmptyString else String a (until_colon s)
  end.
Fixpoint second_field (s : string) : option string :=
  match s with
  | EmptyString => None
  | String a s => if (Ascii.N_of_ascii a =? 58)%N then Some (until_colon s) else second_field s
  end.

Section producer.
Context `{ChainTypes, Json, Sha256, TxCrypto, Hex, HashOrder} (fk : Forks) (now : Z).
Implicit Types bc : Blockchain.

Definition tx_gas (tx : Transaction) : Z :=
  if is_evm_tx tx then
    Z.min (default BLOCK_GAS_LIMIT (second_field (tx_data tx) ≫= parse_u64)) BLOCK_GAS_LIMIT
  else 21000.

(** The loop that takes transactions while their gas fits. *)
Fixpoint take_by_gas (gas_used : Z) (txs : list Transaction) : list Transaction :=
  match txs with
  | [] => []
  | tx :: txs =>
      if fits_in_block gas_used (tx_gas tx)
      then tx :: take_by_gas (saturating_add U64_MAX gas_used (tx_gas tx)) txs
      else []
  end.

Definition build_jail_evidence_system_tx bc (next_height block_timestamp : Z) : option Transaction :=
  if negb (is_jail_consensus_height fk next_height) then None
  else if negb (is_epoch_boundary next_height) then None
  else
    let active := active_set (bc_stake_registry bc) in
    let evidence := compute_jail_evidence (bc_slashing bc) active next_height in
    if bool_decide (evidence = []) then None
    else
      let epoch := epoch_for_height next_height in
      match new_jail_evidence_bundle
              (StakingOp_JailEvidenceBundle epoch (saturating_mul U64_MAX epoch EPOCH_LENGTH)
                 next_height evidence active) next_height block_timestamp with
      | Ok tx => Some tx
      | Err _ => None
      end.

Definition build_block bc (validator_address : string) : result Block :=
  let next_height := wrapping_add U64_MAX (bc_height bc) 1 in
  let cb := new_coinbase validator_address (bc_block_reward fk bc) next_height now in
  let jail := match build_jail_evidence_system_tx bc next_height now with
              | Some tx => [tx] | None => [] end in
  let pool := take (Nat.min (length (bc_mempool bc)) (MAX_TX_PER_BLOCK - 1)) (bc_mempool bc) in
  match latest_block bc with
  | Err e => Err e
  | Ok b => Ok (Block_new next_height (blk_hash b) (cb :: jail ++ take_by_gas 0 pool)
                  validator_address now)
  end.

Definition create_block bc (validator_address : string) : result Block :=
  match is_authorized (bc_authority bc) validator_address (wrapping_add U64_MAX (bc_height bc) 1) with
  | Err e => Err e
  | Ok false => Err NotYourTurn
  | Ok true => build_block bc validator_address
  end.
Definition create_block_voyager := build_block.
End producer.
