(* ===== verification/Queries.v ===== *)
(** * Queries on the window

    Models crates/sentrix-core/src/chain_queries.rs: looking up a transaction,
    the paginated histories and the transaction count.  The JSON objects of the
    source are records; the statistics object, which is floating point, is left
    out. *)

From S2P Require Import Prelude Bytes Account Staking Epoch Slashing Token.
From S2P Require Import Merkle Transaction TransactionProps Authority Emission.
From S2P Require Import BftMessages Block Chain.

(** ** Pages *)

(** A loop that collects a page: it has returned, or has skipped some entries and
    collected others. *)
Inductive Page (A : Type) := Returned (page : list A) | Going (skipped : nat) (page : list A).
Arguments Returned {A}.
Arguments Going {A}.

Definition page_of {A} (p : Page A) : list A := match p with Returned l | Going _ l => l end.
(** One entry: skipped, the page is full, or collected. *)
Definition page_push {A} (limit offset : nat) (p : Page A) (x : A) : Page A :=
  match p with
  | Returned _ => p
  | Going skipped page =>
      if (skipped <? offset)%nat then Going (S skipped) page
      else if (limit <=? length page)%nat then Returned page
      else Going skipped (page ++ [x])
  end.
(** The variant of the token trades, which looks at the limit after collecting. *)
Definition page_push_late {A} (limit offset : nat) (p : Page A) (x : A) : Page A :=
  match p with
  | Returned _ => p
  | Going skipped page =>
      if (skipped <? offset)%nat then Going (S skipped) page
      else let page := page ++ [x] in
           if (limit <=? length page)%nat then Returned page else Going skipped page
  end.

Record HistoryEntry := mkHistory {
  he_txid : string; he_direction : string; he_from : string; he_to : string;
  he_amount : Z; he_fee : Z; he_block_index : Z; he_block_timestamp : Z;
}.
Record LatestEntry := mkLatest {
  le_txid : string; le_from : string; le_to : string; le_amount : Z; le_fee : Z;
  le_is_coinbase : bool; le_block_index : Z; le_block_timestamp : Z;
}.
Record TradeEntry := mkTrade {
  te_type : string; te_from : string; te_to : option string; te_amount : Z; te_txid : string;
  te_block_index : Z; te_block_timestamp : Z;
}.
Record TxInfo := mkTxInfo {
  ti_transaction : Transaction; ti_block_index : Z; ti_block_hash : string; ti_block_timestamp : Z;
}.

Section queries.
Context `{ChainTypes, Json}.
Implicit Types (bc : Blockchain) (tx : Transaction) (block : Block).

Definition tx_info block tx : TxInfo := mkTxInfo tx (blk_index block) (blk_hash block) (blk_timestamp block).
Definition find_in_block (id : string) block : option TxInfo :=
  tx_info block <$> List.find (λ tx, bool_decide (txid tx = id)) (blk_transactions block).
Fixpoint find_in_blocks (id : string) (blocks : list Block) : option TxInfo :=
  match blocks with
  | [] => None
  | b :: blocks => match find_in_block id b with Some i => Some i | None => find_in_blocks id blocks end
  end.
(** [stored] is the block that the index on disk names for the id. *)
Definition get_transaction (stored : string → option Block) bc (id : string) : option TxInfo :=
  match find_in_blocks id (rev (bc_chain bc)) with
  | Some i => Some i
  | None => stored id ≫= find_in_block id
  end.

Definition involves (address : string) tx : bool :=
  bool_decide (tx_from tx = address) || bool_decide (tx_to tx = address).
Definition history_entry (address : string) block tx : HistoryEntry :=
  let direction := if bool_decide (tx_from tx = address)
                   then if is_coinbase tx then "reward" else "out" else "in" in
  mkHistory (txid tx) direction (tx_from tx) (tx_to tx) (tx_amount tx) (tx_fee tx)
    (blk_index block) (blk_timestamp block).
Definition get_address_history bc (address : string) (limit offset : nat) : list HistoryEntry :=
  page_of (foldl (λ p block,
    foldl (λ p tx, if involves address tx then page_push limit offset p (history_entry address block tx) else p)
      p (rev (blk_transactions block))) (Going 0 []) (rev (bc_chain bc))).

(** The count, the first block of the window, and whether older blocks are missing. *)
Definition get_address_tx_count bc (address : string) : nat * Z * bool :=
  let count := length (filter (λ tx, involves address tx = true) (concat (blk_transactions <$> bc_chain bc))) in
  (count, chain_window_start bc, 0 <? chain_window_start bc).

Definition latest_entry block tx : LatestEntry :=
  mkLatest (txid tx) (tx_from tx) (tx_to tx) (tx_amount tx) (tx_fee tx) (is_coinbase tx)
    (blk_index block) (blk_timestamp block).
Definition get_latest_transactions bc (limit offset : nat) : list LatestEntry :=
  page_of (foldl (λ p block, foldl (λ p tx, page_push limit offset p (latest_entry block tx))
    p (rev (blk_transactions block))) (Going 0 []) (rev (bc_chain bc))).

Definition trade_entry (contract_addr : string) block tx : option TradeEntry :=
  let entry kind to amount :=
    Some (mkTrade kind (tx_from tx) to amount (txid tx) (blk_index block) (blk_timestamp block)) in
  match token_op_decode (tx_data tx) with
  | Some (TokenOp_Transfer contract to amount) =>
      if bool_decide (contract = contract_addr) then entry "transfer" (Some to) amount else None
  | Some (TokenOp_Burn contract amount) =>
      if bool_decide (contract = contract_addr) then entry "burn" None amount else None
  | Some (TokenOp_Mint contract to amount) =>
      if bool_decide (contract = contract_addr) then entry "mint" (Some to) amount else None
  | _ => None
  end.
Definition get_token_trades bc (contract_addr : string) (limit offset : nat) : list TradeEntry :=
  page_of (foldl (λ p block, foldl (λ p tx,
    match trade_entry contract_addr block tx with Some e => page_push_late limit offset p e | None => p end)
    p (blk_transactions block)) (Going 0 []) (rev (bc_chain bc))).

(** ** Pages are slices *)

Lemma page_returned {A} limit offset (l page : list A) :
  foldl (page_push limit offset) (Returned page) l = Returned page ∧
  foldl (page_push_late limit offset) (Returned page) l = Returned page.
Proof. by induction l. Qed.

Lemma page_collect {A} limit offset (l page : list A) :
  (length page <= limit)%nat →
  page_of (foldl (page_push limit offset) (Going offset page) l) = page ++ take (limit - length page) l.
Proof.
  revert page. induction l as [|x l IH]; intros page Hp; simpl; [by rewrite take_nil, app_nil_r|].
  rewrite Nat.ltb_irrefl. destruct (Nat.leb_spec limit (length page)) as [Hf|Hf].
  - rewrite (proj1 (page_returned _ _ _ _)). simpl. replace (limit - length page)%nat with 0%nat by lia.
    by rewrite app_nil_r.
  - rewrite IH by (rewrite length_app; simpl; lia). rewrite length_app, <- app_assoc. simpl.
    replace (limit - length page)%nat with (S (limit - (length page + 1))) by lia. done.
Qed.
Lemma page_slice {A} limit offset skipped (l : list A) :
  (skipped <= offset)%nat →
  page_of (foldl (page_push limit offset) (Going skipped []) l) = take limit (drop (offset - skipped) l).
Proof.
  revert skipped. induction l as [|x l IH]; intros skipped Hs; [by rewrite drop_nil, take_nil|].
  destruct (decide (skipped = offset)) as [->|Hne].
  - rewrite page_collect, Nat.sub_diag by (simpl; lia). simpl. by rewrite Nat.sub_0_r.
  - cbn [foldl page_push]. replace (skipped <? offset)%nat with true by (symmetry; apply Nat.ltb_lt; lia).
    rewrite IH by lia. by replace (offset - skipped)%nat with (S (offset - S skipped)) by lia.
Qed.

Lemma page_collect_late {A} limit offset (l page : list A) :
  (length page < Nat.max 1 limit)%nat →
  page_of (foldl (page_push_late limit offset) (Going offset page) l) =
    page ++ take (Nat.max 1 limit - length page) l.
Proof.
  revert page. induction l as [|x l IH]; intros page Hp; cbn [foldl page_push_late]; [by rewrite take_nil, app_nil_r|].
  rewrite Nat.ltb_irrefl, length_app. cbn [length].
  replace (Nat.max 1 limit - length page)%nat with (S (Nat.max 1 limit - (length page + 1))) by lia.
  destruct (Nat.leb_spec limit (length page + 1)) as [Hf|Hf].
  - rewrite (proj2 (page_returned _ _ _ _)). simpl. by replace (Nat.max 1 limit - (length page + 1))%nat with 0%nat by lia.
  - rewrite IH by (rewrite length_app; simpl; lia). rewrite length_app, <- app_assoc. done.
Qed.
Lemma page_slice_late {A} limit offset skipped (l : list A) :
  (skipped <= offset)%nat →
  page_of (foldl (page_push_late limit offset) (Going skipped []) l) =
    take (Nat.max 1 limit) (drop (offset - skipped) l).
Proof.
  revert skipped. induction l as [|x l IH]; intros skipped Hs; [by rewrite drop_nil, take_nil|].
  destruct (decide (skipped = offset)) as [->|Hne].
  - rewrite page_collect_late, Nat.sub_diag by (simpl; lia). simpl. by rewrite Nat.sub_0_r.
  - cbn [foldl page_push_late]. replace (skipped <? offset)%nat with true by (symmetry; apply Nat.ltb_lt; lia).
    rewrite IH by lia. by replace (offset - skipped)%nat with (S (offset - S skipped)) by lia.
Qed.

Lemma foldl_flat {A B P} (f : P → B → P) (step : P → A → P) (g : A → list B) (l : list A) p :
  (∀ p x, step p x = foldl f p (g x)) → foldl step p l = foldl f p (concat (g <$> l)).
Proof.
  intros Hs. revert p. induction l as [|x l IH]; intros p; [done|]. simpl. by rewrite foldl_app, <- Hs, IH.
Qed.
Lemma foldl_omap {A B P} (f : P → B → P) (step : P → A → P) (g : A → option B) (l : list A) p :
  (∀ p x, step p x = match g x with Some y => f p y | None => p end) →
  foldl step p l = foldl f p (omap g l).
Proof.
  intros Hs. revert p. induction l as [|x l IH]; intros p; [done|]. simpl. rewrite Hs. by destruct (g x); rewrite IH.
Qed.

(** Everything the three histories range over, newest block first; in the first
    two, newest transaction first. *)
Definition full_history bc (address : string) : list HistoryEntry :=
  concat ((λ b, omap (λ tx, if involves address tx then Some (history_entry address b tx) else None)
    (rev (blk_transactions b))) <$> rev (bc_chain bc)).
Definition full_latest bc : list LatestEntry :=
  concat ((λ b, latest_entry b <$> rev (blk_transactions b)) <$> rev (bc_chain bc)).
Definition full_trades bc (contract : string) : list TradeEntry :=
  concat ((λ b, omap (trade_entry contract b) (blk_transactions b)) <$> rev (bc_chain bc)).

(** A page of a history is the slice of the full history at its offset: pages
    neither overlap nor leave gaps.  The token trades are the exception: a page
    has at least one entry, also when the limit is zero. *)
Theorem pages_are_slices bc (address contract : string) (limit offset : nat) :
  get_address_history bc address limit offset = take limit (drop offset (full_history bc address)) ∧
  get_latest_transactions bc limit offset = take limit (drop offset (full_latest bc)) ∧
  get_token_trades bc contract limit offset = take (Nat.max 1 limit) (drop offset (full_trades bc contract)).
Proof.
  unfold get_address_history, get_latest_transactions, get_token_trades. split_and!.
  - rewrite (foldl_flat (page_push limit offset) _ (λ b, omap (λ tx, if involves address tx
      then Some (history_entry address b tx) else None) (rev (blk_transactions b)))).
    + rewrite page_slice by lia. by rewrite Nat.sub_0_r.
    + intros p b. apply foldl_omap. intros p' tx. by destruct (involves address tx).
  - rewrite (foldl_flat (page_push limit offset) _ (λ b, latest_entry b <$> rev (blk_transactions b))).
    + rewrite page_slice by lia. by rewrite Nat.sub_0_r.
    + intros p b. by rewrite foldl_fmap.
  - rewrite (foldl_flat (page_push_late limit offset) _ (λ b, omap (trade_entry contract b) (blk_transactions b))).
    + rewrite page_slice_late by lia. by rewrite Nat.sub_0_r.
    + intros p b. by apply foldl_omap.
Qed.

(** The count is the length of the full history. *)
Lemma tx_count_full bc address : (get_address_tx_count bc address).1.1 = length (full_history bc address).
Proof.
  simpl. unfold full_history. induction (bc_chain bc) as [|b bs IH]; [done|].
  rewrite fmap_cons. cbn [concat rev]. rewrite fmap_app, concat_app, length_app, filter_app, length_app, IH.
  cbn [fmap list_fmap concat]. rewrite app_nil_r, Nat.add_comm. f_equal.
  generalize (blk_transactions b). intros txs. induction txs as [|tx txs IHt]; [done|]. simpl.
  rewrite omap_app, length_app, <- IHt. destruct (decide (involves address tx = true)) as [E|E].
  - rewrite filter_cons_True by done. simpl. rewrite E. simpl. lia.
  - rewrite filter_cons_False by done. simpl. destruct (involves address tx); [done|]. simpl. lia.
Qed.

Lemma find_in_blocks_spec id blocks :
  match find_in_blocks id blocks with
  | Some i => txid (ti_transaction i) = id ∧
      ∃ b, b ∈ blocks ∧ ti_transaction i ∈ blk_transactions b ∧ i = tx_info b (ti_transaction i)
  | None => ∀ b tx, b ∈ blocks → tx ∈ blk_transactions b → txid tx ≠ id
  end.
Proof.
  induction blocks as [|b bs IH]; simpl; [intros ? ? Hb; by apply elem_of_nil in Hb|].
  unfold find_in_block. destruct (List.find _ (blk_transactions b)) as [tx|] eqn:Hf; simpl.
  - apply List.find_some in Hf as [Hin Hid]. apply bool_decide_eq_true in Hid. split; [done|].
    exists b. split_and!; [set_solver|by apply list_elem_of_In|done].
  - destruct (find_in_blocks id bs) as [i|].
    + destruct IH as (Hid & b' & Hb' & Hrest). split; [done|]. exists b'. split; [set_solver|done].
    + intros b' tx [->|Hb']%elem_of_cons Htx; [|by apply (IH b')].
      apply list_elem_of_In in Htx. pose proof (List.find_none _ _ Hf tx Htx) as Hn.
      by apply bool_decide_eq_false in Hn.
Qed.

(** A lookup answers with a transaction of that id and the block it is in; it
    asks the index on disk only for ids that are not in the window. *)
Theorem get_transaction_correct stored bc id :
  (∀ b, stored id = Some b → ∃ tx, tx ∈ blk_transactions b ∧ txid tx = id) →
  match get_transaction stored bc id with
  | Some i => txid (ti_transaction i) = id ∧
      ∃ b, (b ∈ bc_chain bc ∨ stored id = Some b) ∧ ti_transaction i ∈ blk_transactions b ∧
        i = tx_info b (ti_transaction i)
  | None => stored id = None ∧ ∀ b tx, b ∈ bc_chain bc → tx ∈ blk_transactions b → txid tx ≠ id
  end.
Proof.
  intros Hst. unfold get_transaction. pose proof (find_in_blocks_spec id (rev (bc_chain bc))) as Hs.
  destruct (find_in_blocks id (rev (bc_chain bc))) as [i|].
  - destruct Hs as (Hid & b & Hb & Htx & Hi). split; [done|]. exists b. split_and!; [left|done|done].
    by apply list_elem_of_In, in_rev, list_elem_of_In in Hb.
  - assert (Hw : ∀ b tx, b ∈ bc_chain bc → tx ∈ blk_transactions b → txid tx ≠ id).
    { intros b tx Hb. apply Hs. by apply list_elem_of_In, in_rev; rewrite rev_involutive; apply list_elem_of_In. }
    destruct (stored id) as [b|] eqn:Hb; simpl; [|done].
    destruct (Hst b eq_refl) as (tx & Htx & Hid).
    pose proof (find_in_blocks_spec id [b]) as Hf. simpl in Hf. destruct (find_in_block id b) as [i|].
    + destruct Hf as (Hi & b' & Hb' & Hrest). apply list_elem_of_singleton in Hb' as ->.
      split; [done|]. exists b. split; [by right|done].
    + by destruct (Hf b tx (list_elem_of_here _ _) Htx).
Qed.
End queries.
