(* ===== verification/StateExport.v ===== *)
(** * Snapshots of the state

    Models crates/sentrix-core/src/state_export.rs: exporting the state to a
    snapshot, importing one, and the consistency check. *)

From S2P Require Import Prelude Bytes Keys Account Staking Epoch Slashing Token.
From S2P Require Import Merkle Transaction TransactionProps Authority TrieState Emission.
From S2P Require Import BftMessages Block Chain.

Record SnapshotMetadata := mkMetadata {
  sm_chain_id : Z; sm_height : Z; sm_block_hash : string; sm_timestamp : Z; sm_exported_at : Z;
}.
Record AccountEntry := mkAccountEntry {
  en_address : string; en_balance : Z; en_nonce : Z; en_code_hash : string; en_storage_root : string;
}.
Record ContractCodeEntry := mkCodeEntry { cc_code_hash : string; cc_bytecode_hex : string }.
Record StorageEntry := mkStorageEntry { se_key : string; se_value_hex : string }.
Record ValidatorEntry := mkValidatorEntry {
  ve_address : string; ve_name : string; ve_public_key : string; ve_is_active : bool; ve_blocks_produced : Z;
}.
Record StateSnapshot := mkSnapshot {
  ss_version : Z;
  ss_metadata : SnapshotMetadata;
  ss_accounts : list AccountEntry;
  ss_contract_code : list ContractCodeEntry;
  ss_contract_storage : list StorageEntry;
  ss_validators : list ValidatorEntry;
  ss_admin_address : string;
  ss_total_minted : Z;
  ss_total_burned : Z;
}.
Definition SNAPSHOT_VERSION : Z := 1.

(** [sort_by(|a, b| a.key.cmp(&b.key))] *)
Definition sorted_by {A} (key : A → string) (l : list A) : list A :=
  (sort_by_key String.le ((λ x, (key x, x)) <$> l)).*2.

Section export.
Context `{ChainTypes, Hex, HexDecode, HashOrder}.
Implicit Types (bc : Blockchain) (db : AccountDB).

Definition exported (a : Account) : Prop := 0 < acct_balance a ∨ 0 < acct_nonce a ∨ is_contract a = true.
#[local] Instance exported_dec a : Decision (exported a).
Proof. unfold exported. apply _. Defined.
Definition account_entry (a : Account) : AccountEntry :=
  mkAccountEntry (acct_address a) (acct_balance a) (acct_nonce a) (hex_encode (acct_code_hash a))
    (hex_encode (acct_storage_root a)).
Definition validator_entry (v : AuthValidator) : ValidatorEntry :=
  mkValidatorEntry (av_address v) (av_name v) (av_public_key v) (av_is_active v) (av_blocks_produced v).

Definition export_state (now : Z) bc : result StateSnapshot :=
  match latest_block bc with
  | Err e => Err e
  | Ok latest =>
      let db := bc_accounts bc in
      Ok (mkSnapshot SNAPSHOT_VERSION
        (mkMetadata (bc_chain_id bc) (bc_height bc) (blk_hash latest) (blk_timestamp latest) now)
        (sorted_by en_address (account_entry <$> filter exported (hm_values (accounts db))))
        (sorted_by cc_code_hash ((λ e, mkCodeEntry e.1 (hex_encode e.2)) <$> hm_entries (contract_code db)))
        (sorted_by se_key ((λ e, mkStorageEntry e.1 (hex_encode e.2)) <$> hm_entries (contract_storage db)))
        (sorted_by ve_address (validator_entry <$> hm_values (auth_validators (bc_authority bc))))
        (admin_address (bc_authority bc)) (bc_total_minted bc) (total_burned db))
  end.

(** A 32-byte hash, or what was there. *)
Definition decode32 (s : string) (old : list Z) : list Z :=
  match hex_decode s with Some b => if (length b =? 32)%nat then b else old | None => old end.
Definition import_account db (e : AccountEntry) : AccountDB :=
  let account := account_or_new db (en_address e) in
  put_account (en_address e)
    (account <| acct_balance := en_balance e |> <| acct_nonce := en_nonce e |>
             <| acct_code_hash := decode32 (en_code_hash e) (acct_code_hash account) |>
             <| acct_storage_root := decode32 (en_storage_root e) (acct_storage_root account) |>) db.
Definition import_code db (e : ContractCodeEntry) : AccountDB :=
  match hex_decode (cc_bytecode_hex e) with
  | Some b => store_contract_code (cc_code_hash e) b db
  | None => db
  end.
Definition import_storage db (e : StorageEntry) : AccountDB :=
  match hex_decode (se_value_hex e), split_colon (se_key e) with
  | Some b, Some (address, slot) => store_contract_storage address slot b db
  | _, _ => db
  end.
Definition import_validator (now : Z) (vs : gmap string AuthValidator) (e : ValidatorEntry) : gmap string AuthValidator :=
  <[ve_address e := AuthValidator_new (ve_address e) (ve_name e) (ve_public_key e) now
      <| av_is_active := ve_is_active e |> <| av_blocks_produced := ve_blocks_produced e |>]> vs.

Definition import_state (now : Z) (snapshot : StateSnapshot) bc : Blockchain * result nat :=
  if negb (ss_version snapshot =? SNAPSHOT_VERSION) then
    (bc, Err (Internal ("unsupported snapshot version: " +:+ pretty (ss_version snapshot)
       +:+ " (expected " +:+ pretty SNAPSHOT_VERSION +:+ ")")))
  else
    let db := bc_accounts bc <| accounts := ∅ |> <| contract_code := ∅ |> <| contract_storage := ∅ |>
                <| total_burned := ss_total_burned snapshot |> in
    let db := foldl import_account db (ss_accounts snapshot) in
    let db := foldl import_code db (ss_contract_code snapshot) in
    let db := foldl import_storage db (ss_contract_storage snapshot) in
    (bc <| bc_accounts := db |> <| bc_total_minted := ss_total_minted snapshot |>
        <| bc_authority := bc_authority bc
             <| auth_validators := foldl (import_validator now) ∅ (ss_validators snapshot) |>
             <| admin_address := ss_admin_address snapshot |> |>,
     Ok (length (ss_accounts snapshot))).

(** The check; its summary line is left out. *)
Definition verify_snapshot (snapshot : StateSnapshot) : result unit :=
  if negb (ss_version snapshot =? SNAPSHOT_VERSION) then
    Err (Internal ("unsupported snapshot version: " +:+ pretty (ss_version snapshot)))
  else
    match List.find (λ a, negb (is_valid_sentrix_address (en_address a))) (ss_accounts snapshot) with
    | Some a => Err (Internal ("invalid account address: " +:+ en_address a))
    | None =>
        match List.find (λ v, negb (is_valid_sentrix_address (ve_address v))) (ss_validators snapshot) with
        | Some v => Err (Internal ("invalid validator address: " +:+ ve_address v))
        | None =>
            (fix go (seen : gset string) (l : list AccountEntry) : result unit :=
               match l with
               | [] => Ok tt
               | a :: l =>
                   if bool_decide (en_address a ∈ seen)
                   then Err (Internal ("duplicate account address: " +:+ en_address a))
                   else go ({[en_address a]} ∪ seen) l
               end) ∅ (ss_accounts snapshot)
        end
    end.

(** ** Helpers *)

Lemma sorted_by_perm {A} (key : A → string) (l : list A) : sorted_by key l ≡ₚ l.
Proof.
  unfold sorted_by. rewrite sort_by_key_perm, <- list_fmap_compose.
  induction l as [|x l IH]; [done|]. simpl. by rewrite IH.
Qed.
(** Inserting entries with distinct keys. *)
Lemma foldl_insert_lookup {V} (l : list (string * V)) (m : gmap string V) :
  NoDup l.*1 →
  (∀ k v, (k, v) ∈ l → foldl (λ m e, <[e.1 := e.2]> m) m l !! k = Some v) ∧
  (∀ k, k ∉ l.*1 → foldl (λ m e, <[e.1 := e.2]> m) m l !! k = m !! k).
Proof.
  revert m. induction l as [|[k0 v0] l IH]; intros m Hn; simpl.
  - split; [|done]. intros k v Hkv. by apply elem_of_nil in Hkv.
  - simpl in Hn. apply NoDup_cons in Hn as [Hk Hn]. destruct (IH (<[k0 := v0]> m) Hn) as [Hi Ho]. split.
    + intros k v [[= -> ->]|Hkv]%elem_of_cons; [|by apply Hi]. rewrite Ho by done. apply lookup_insert_eq.
    + intros k Hnk. rewrite Ho by set_solver. apply lookup_insert_ne. set_solver.
Qed.
Lemma foldl_insert_all {V} (l : list (string * V)) (m : gmap string V) :
  l ≡ₚ map_to_list m → foldl (λ m e, <[e.1 := e.2]> m) ∅ l = m.
Proof.
  intros Hp. assert (Hn : NoDup l.*1) by (rewrite Hp; apply NoDup_fst_map_to_list).
  destruct (foldl_insert_lookup l ∅ Hn) as [Hi Ho]. apply map_eq. intros k.
  destruct (m !! k) as [v|] eqn:E.
  - apply Hi. rewrite Hp. by apply elem_of_map_to_list.
  - rewrite Ho; [apply lookup_empty|]. rewrite Hp. intros ([k' v] & -> & Hkv)%list_elem_of_fmap.
    apply elem_of_map_to_list in Hkv. simpl in *. congruence.
Qed.

(** ** The round trip *)

Definition bytes_ok (b : list Z) : Prop := Forall (λ x, 0 <= x < 256) b.
(** What a node's state satisfies: tables keyed by the address of their entries,
    32-byte hashes, bytes, and storage keys with a separator. *)
Record exportable bc : Prop := {
  ex_accounts : ∀ k a, accounts (bc_accounts bc) !! k = Some a → acct_address a = k ∧
    (length (acct_code_hash a) = 32%nat ∧ bytes_ok (acct_code_hash a)) ∧
    (length (acct_storage_root a) = 32%nat ∧ bytes_ok (acct_storage_root a));
  ex_code : ∀ k b, contract_code (bc_accounts bc) !! k = Some b → bytes_ok b;
  ex_storage : ∀ k b, contract_storage (bc_accounts bc) !! k = Some b → bytes_ok b ∧ is_Some (split_colon k);
  ex_validators : ∀ k v, auth_validators (bc_authority bc) !! k = Some v → av_address v = k;
}.

Context `{!HexLaws, !HexDecodeLaws}.

(** Each import is a sequence of insertions. *)
Lemma import_accounts_eq (l : list Account) db :
  (∀ a, a ∈ l → (length (acct_code_hash a) = 32%nat ∧ bytes_ok (acct_code_hash a)) ∧
    (length (acct_storage_root a) = 32%nat ∧ bytes_ok (acct_storage_root a))) →
  (∀ k a, accounts db !! k = Some a → acct_address a = k) →
  foldl import_account db (account_entry <$> l) =
    db <| accounts := foldl (λ m e, <[e.1 := e.2]> m) (accounts db) ((λ a, (acct_address a, a)) <$> l) |>.
Proof.
  revert db. induction l as [|a l IH]; intros db Hl Hk; [by destruct db|]. cbn [fmap list_fmap foldl].
  destruct (Hl a (list_elem_of_here _ _)) as [[Lc Bc] [Lr Br]].
  assert (E : import_account db (account_entry a) = put_account (acct_address a) a db).
  { unfold import_account, decode32. cbn [en_code_hash en_storage_root account_entry en_address en_balance en_nonce].
    rewrite !hex_roundtrip, Lc, Lr by done. simpl. f_equal.
    assert (Ha : acct_address (account_or_new db (acct_address a)) = acct_address a).
    { unfold account_or_new. destruct (accounts db !! acct_address a) as [a'|] eqn:Ea; [|done]. by apply Hk. }
    unfold upd; simpl. destruct a. simpl in *. by rewrite Ha. }
  rewrite E, IH.
  - by destruct db.
  - intros a' Ha'. apply Hl. set_solver.
  - intros k a'. simpl. rewrite lookup_insert_Some. naive_solver.
Qed.
Lemma import_code_eq (l : list (string * list Z)) db :
  (∀ e, e ∈ l → bytes_ok e.2) →
  foldl import_code db ((λ e, mkCodeEntry e.1 (hex_encode e.2)) <$> l) =
    db <| contract_code := foldl (λ m e, <[e.1 := e.2]> m) (contract_code db) l |>.
Proof.
  revert db. induction l as [|e l IH]; intros db Hl; [by destruct db|]. cbn [fmap list_fmap foldl].
  unfold import_code at 2. cbn [cc_bytecode_hex cc_code_hash].
  rewrite hex_roundtrip by (apply Hl; set_solver). rewrite IH by (intros; apply Hl; set_solver). by destruct db.
Qed.
Lemma import_storage_eq (l : list (string * list Z)) db :
  (∀ e, e ∈ l → bytes_ok e.2 ∧ is_Some (split_colon e.1)) →
  ∃ touched, foldl import_storage db ((λ e, mkStorageEntry e.1 (hex_encode e.2)) <$> l) =
    db <| contract_storage := foldl (λ m e, <[e.1 := e.2]> m) (contract_storage db) l |>
       <| touched_in_block := touched |>.
Proof.
  revert db. induction l as [|e l IH]; intros db Hl; [exists (touched_in_block db); by destruct db|].
  cbn [fmap list_fmap foldl]. unfold import_storage at 2. cbn [se_value_hex se_key].
  destruct (Hl e (list_elem_of_here _ _)) as [Hb [[x y] Hs]].
  rewrite hex_roundtrip, Hs by done. unfold store_contract_storage, storage_key. rewrite <- (split_colon_join _ _ _ Hs).
  match goal with |- context [foldl import_storage ?d _] => destruct (IH d) as [t Et] end;
    [intros; apply Hl; set_solver|].
  exists t. rewrite Et. by destruct db.
Qed.

(** The entries of a table, as the snapshot lists them. *)
Lemma entries_of_values {A} (key : A → string) (P : A → Prop) `{!∀ x, Decision (P x)} (m : gmap string A) (l : list A) :
  (∀ k a, m !! k = Some a → key a = k) → l ≡ₚ filter P (hm_values m) →
  (λ a, (key a, a)) <$> l ≡ₚ map_to_list (filter (λ e, P e.2) m).
Proof.
  intros Hk ->. unfold hm_values. apply NoDup_Permutation.
  - apply NoDup_fmap_2_strong; [by intros a b _ _ [= _ E]|]. apply NoDup_filter, NoDup_fmap_2_strong.
    + intros [k a] [k' a']. rewrite !hm_entries_perm, !elem_of_map_to_list. simpl.
      intros Ha Ha' <-. by rewrite <- (Hk _ _ Ha), <- (Hk _ _ Ha').
    + rewrite hm_entries_perm. apply NoDup_map_to_list.
  - apply NoDup_map_to_list.
  - intros [k a]. rewrite elem_of_map_to_list, map_lookup_filter_Some, list_elem_of_fmap. simpl. split.
    + intros (a' & [= -> <-] & Ha). apply list_elem_of_filter in Ha as [HP Ha].
      apply list_elem_of_fmap in Ha as ([k' a'] & -> & Ha). rewrite hm_entries_perm in Ha.
      apply elem_of_map_to_list in Ha. simpl. by rewrite (Hk _ _ Ha).
    + intros [Ha HP]. exists a. split; [by rewrite (Hk _ _ Ha)|]. apply list_elem_of_filter. split; [done|].
      apply list_elem_of_fmap. exists (k, a). split; [done|]. rewrite hm_entries_perm. by apply elem_of_map_to_list.
Qed.

Lemma entries_of_all {A} (key : A → string) (m : gmap string A) (l : list A) :
  (∀ k a, m !! k = Some a → key a = k) → l ≡ₚ hm_values m → (λ a, (key a, a)) <$> l ≡ₚ map_to_list m.
Proof.
  intros Hk ->. unfold hm_values. rewrite <- list_fmap_compose, <- (hm_entries_perm m).
  assert (He : ∀ e, e ∈ hm_entries m → key e.2 = e.1).
  { intros [k a]. rewrite hm_entries_perm, elem_of_map_to_list. apply Hk. }
  induction (hm_entries m) as [|[k a] es IH]; [done|]. simpl. rewrite IH by (intros; apply He; set_solver).
  pose proof (He (k, a) (list_elem_of_here _ _)) as E. simpl in E. by rewrite E.
Qed.
Lemma sorted_fmap {A B} (key : B → string) (f : A → B) (l : list A) :
  ∃ l', sorted_by key (f <$> l) = f <$> l' ∧ l' ≡ₚ l.
Proof.
  destruct (Permutation_map_inv f l (l1 := sorted_by key (f <$> l))) as (l' & E & Hp).
  - apply sorted_by_perm.
  - by exists l'.
Qed.

(** A validator as the import creates it. *)
Definition restored (now : Z) (v : AuthValidator) : AuthValidator :=
  AuthValidator_new (av_address v) (av_name v) (av_public_key v) now
    <| av_is_active := av_is_active v |> <| av_blocks_produced := av_blocks_produced v |>.
Lemma import_validators_eq now (m : gmap string AuthValidator) (l : list AuthValidator) :
  (∀ k v, m !! k = Some v → av_address v = k) → l ≡ₚ hm_values m →
  foldl (import_validator now) ∅ (validator_entry <$> l) = restored now <$> m.
Proof.
  intros Hk Hl. rewrite foldl_fmap.
  rewrite <- (foldl_insert_all ((λ v, (av_address v, restored now v)) <$> l) (restored now <$> m)).
  - by rewrite foldl_fmap.
  - rewrite map_to_list_fmap, <- (entries_of_all av_address m l Hk Hl), <- list_fmap_compose. done.
Qed.

(** C37: importing an exported state restores the accounts (the empty ones apart), the
    contracts' code and storage, the counters and the authority set; the stake
    registry, the epochs, the slashing state, the tokens, the NFTs and the blocks
    of the importing node stay what they were. *)
Theorem export_import_roundtrip now now' bc bc' snap :
  exportable bc → export_state now bc = Ok snap →
  ∃ bc'' n, import_state now' snap bc' = (bc'', Ok n) ∧
    accounts (bc_accounts bc'') = filter (λ e, exported e.2) (accounts (bc_accounts bc)) ∧
    contract_code (bc_accounts bc'') = contract_code (bc_accounts bc) ∧
    contract_storage (bc_accounts bc'') = contract_storage (bc_accounts bc) ∧
    total_burned (bc_accounts bc'') = total_burned (bc_accounts bc) ∧ bc_total_minted bc'' = bc_total_minted bc ∧
    admin_address (bc_authority bc'') = admin_address (bc_authority bc) ∧
    (∀ k, validator_entry <$> auth_validators (bc_authority bc'') !! k =
          validator_entry <$> auth_validators (bc_authority bc) !! k) ∧
    (bc_stake_registry bc'', bc_epoch_manager bc'', bc_slashing bc'', bc_contracts bc'', bc_nft_registry bc'',
     bc_chain bc'') =
    (bc_stake_registry bc', bc_epoch_manager bc', bc_slashing bc', bc_contracts bc', bc_nft_registry bc',
     bc_chain bc').
Proof.
  intros Hex Hexp. unfold export_state in Hexp. destruct (latest_block bc) as [b|]; [|done]. injection Hexp as <-.
  unfold import_state. cbn [ss_version ss_accounts ss_contract_code ss_contract_storage ss_validators ss_total_burned
    ss_total_minted ss_admin_address negb]. rewrite Z.eqb_refl. cbn [negb].
  destruct (sorted_fmap en_address account_entry (filter exported (hm_values (accounts (bc_accounts bc)))))
    as (la & -> & Pa).
  destruct (sorted_fmap cc_code_hash (λ e, mkCodeEntry e.1 (hex_encode e.2)) (hm_entries (contract_code (bc_accounts bc))))
    as (lc & -> & Pc).
  destruct (sorted_fmap se_key (λ e, mkStorageEntry e.1 (hex_encode e.2)) (hm_entries (contract_storage (bc_accounts bc))))
    as (ls & -> & Ps).
  destruct (sorted_fmap ve_address validator_entry (hm_values (auth_validators (bc_authority bc)))) as (lv & -> & Pv).
  rewrite (import_validators_eq now' _ lv (ex_validators bc Hex) Pv).
  assert (Hka : ∀ k a, accounts (bc_accounts bc) !! k = Some a → acct_address a = k) by (intros k a Ha; by apply (ex_accounts bc Hex)).
  rewrite (import_accounts_eq la); [| |intros k a Ha; simpl in Ha; by rewrite lookup_empty in Ha].
  2: { intros a. rewrite Pa, list_elem_of_filter. unfold hm_values. rewrite hm_entries_perm.
       intros [_ ([k a'] & -> & Ha)%list_elem_of_fmap]. apply elem_of_map_to_list in Ha.
       by apply (ex_accounts bc Hex) in Ha as [_ ?]. }
  rewrite (import_code_eq lc).
  2: { intros [k x]. rewrite Pc, hm_entries_perm, elem_of_map_to_list. apply (ex_code bc Hex). }
  match goal with |- context [foldl import_storage ?d _] => destruct (import_storage_eq ls d) as [t' ->] end.
  { intros [k x]. rewrite Ps, hm_entries_perm, elem_of_map_to_list. apply (ex_storage bc Hex). }
  eexists _, _. split; [reflexivity|]. simpl. split_and!; try done.
  - apply foldl_insert_all. by apply (entries_of_values acct_address exported).
  - apply foldl_insert_all. by rewrite Pc, hm_entries_perm.
  - apply foldl_insert_all. by rewrite Ps, hm_entries_perm.
  - intros k. rewrite lookup_fmap. by destruct (auth_validators (bc_authority bc) !! k).
Qed.
End export.
