(* ===== verification/Storage.v ===== *)
(** * Chain storage

    Models crates/sentrix-storage/src/chain.rs with the helpers of mdbx.rs, and
    crates/sentrix-core/src/blockchain_storage_io.rs: blocks, their hashes, the
    state blob with its checkpoint and the transaction index.  Tables are maps
    and transactions on them atomic; failures of the database itself are left
    out.  A JSON value is the value it encodes, and bytes written without JSON
    are kept as bytes. *)

From S2P Require Import Prelude Bytes Keys Account Staking Epoch Slashing Token.
From S2P Require Import Merkle Transaction TransactionProps Authority Emission BftMessages Block Chain.

(** [height.to_be_bytes()], and back. *)
Definition height_key (height : Z) : bytes := to_be_bytes 8 height.
Definition key_to_height (key : bytes) : Z := of_be_bytes (take 8 key).

(** A value of the meta table. *)
Inductive MetaValue :=
  | MetaBlock (b : Block)
  | MetaU64 (n : Z)
  | MetaBool (b : bool)
  | MetaRaw (raw : bytes).

(** [serde_json::from_slice] on bytes that were not written as JSON, and the text
    of its errors. *)
Class JsonSlice := {
  slice_block : bytes → Block + string;
  slice_u64 : bytes → Z + string;
  wrong_json_type : string;
}.
(** No JSON text starts with a zero byte. *)
Class JsonSliceLaws `{JsonSlice} : Prop := {
  slice_u64_zero raw : head raw = Some 0 → ∃ e, slice_u64 raw = inr e;
}.

(** The tables, with the [state] table as its two entries. *)
Record ChainDb `{ChainTypes} := mkChainDb {
  cd_meta : gmap string MetaValue;
  cd_block_hashes : gmap string bytes;
  cd_state : option Blockchain;
  cd_blob_height : option Z;
  cd_tx_index : gmap string bytes;
}.
#[global] Instance ChainDb_eta `{ChainTypes} : Eta ChainDb := λ d,
  mkChainDb _ (cd_meta d) (cd_block_hashes d) (cd_state d) (cd_blob_height d) (cd_tx_index d).

Definition block_key (index : Z) : string := "block:" +:+ pretty index.

Section storage.
Context `{ChainTypes, JsonSlice}.
Implicit Types (d : ChainDb) (bc : Blockchain) (block : Block).

(** The serialised part of the chain: fields marked [serde(skip)] come back as
    their defaults. *)
Definition blob_of bc : Blockchain :=
  bc <| bc_chain := [] |> <| bc_mempool_txids := ∅ |> <| bc_mempool_sender_count := ∅ |>
     <| bc_state_trie := None |> <| bc_source_for_current_add := SelfProduced |>
     <| bc_justification_verified := false |>
     <| bc_accounts := clear_touched_in_block (bc_accounts bc) |>.

(** ** Reading *)

Definition load_block d (index : Z) : result (option Block) :=
  match cd_meta d !! block_key index with
  | None => Ok None
  | Some (MetaBlock b) => Ok (Some b)
  | Some (MetaRaw raw) => match slice_block raw with inl b => Ok (Some b) | inr e => Err (StorageError e) end
  | Some _ => Err (StorageError wrong_json_type)
  end.
Definition load_height d : result Z :=
  match cd_meta d !! "height" with
  | None => Ok 0
  | Some (MetaU64 n) => Ok n
  | Some (MetaRaw raw) => match slice_u64 raw with inl n => Ok n | inr e => Err (StorageError e) end
  | Some _ => Err (StorageError wrong_json_type)
  end.
Definition load_block_by_hash d (hash : string) : result (option Block) :=
  match cd_block_hashes d !! hash with
  | Some height_bytes => load_block d (key_to_height height_bytes)
  | None => Ok None
  end.
Definition load_state d : option Blockchain := cd_state d.
Definition load_blob_height d : option Z := cd_blob_height d.
(** The blocks of [from..=to] that are there, with as many steps as heights. *)
Fixpoint load_range (n : nat) d (from : Z) : result (list Block) :=
  match n with
  | O => Ok []
  | S n =>
      match load_block d from with
      | Err e => Err e
      | Ok b => match load_range n d (from + 1) with
                | Ok bs => Ok (option_list b ++ bs)
                | Err e => Err e
                end
      end
  end.
Definition load_blocks_range d (from to : Z) : result (list Block) := load_range (Z.to_nat (to - from + 1)) d from.
Definition find_tx_block d (tx_hash : string) : option Z := key_to_height <$> cd_tx_index d !! tx_hash.
Definition has_blockchain d : bool :=
  bool_decide (is_Some (cd_state d)) || bool_decide (is_Some (cd_meta d !! "blockchain")).

(** ** Writing *)

Definition put_block d block : ChainDb :=
  d <| cd_meta := <[block_key (blk_index block) := MetaBlock block]> (cd_meta d) |>
    <| cd_block_hashes := <[blk_hash block := height_key (blk_index block)]> (cd_block_hashes d) |>.
Definition save_height (height : Z) d : ChainDb := d <| cd_meta := <["height" := MetaU64 height]> (cd_meta d) |>.
Definition save_block block d : ChainDb := save_height (blk_index block) (put_block d block).
Definition save_blocks (blocks : list Block) d : ChainDb :=
  match last blocks with
  | None => d
  | Some tip => save_height (blk_index tip) (foldl put_block d blocks)
  end.
Definition save_blockchain bc (chain : list Block) d : ChainDb :=
  let blob_height := default 0 (blk_index <$> last chain) in
  let d := d <| cd_state := Some (blob_of bc) |> <| cd_blob_height := Some blob_height |> in
  let d := foldl put_block d chain in
  match last chain with Some tip => save_height (blk_index tip) d | None => d end.
Definition index_tx (tx_hash : string) (block_index : Z) d : ChainDb :=
  d <| cd_tx_index := <[tx_hash := height_key block_index]> (cd_tx_index d) |>.
Definition storage_clear d : ChainDb := mkChainDb _ ∅ ∅ None None ∅.

(** [ensure_hash_index]: index the blocks up to the stored height, once. *)
Fixpoint index_hashes (n : nat) (i : Z) (indexed_any : bool) d : ChainDb * result bool :=
  match n with
  | O => (d, Ok indexed_any)
  | S n =>
      match load_block d i with
      | Err e => (d, Err e)
      | Ok None => index_hashes n (i + 1) indexed_any d
      | Ok (Some block) =>
          let d := if bool_decide (is_Some (cd_block_hashes d !! blk_hash block)) then d
                   else d <| cd_block_hashes := <[blk_hash block := height_key (blk_index block)]> (cd_block_hashes d) |> in
          index_hashes n (i + 1) true d
      end
  end.
Definition ensure_hash_index d : ChainDb * result unit :=
  if bool_decide (is_Some (cd_meta d !! "hash_index_complete")) then (d, Ok tt)
  else
    match load_height d with
    | Err e => (d, Err e)
    | Ok height =>
        match index_hashes (Z.to_nat (height + 1)) 0 false d with
        | (d, Ok true) => (d <| cd_meta := <["hash_index_complete" := MetaBool true]> (cd_meta d) |>, Ok tt)
        | (d, Ok false) => (d, Ok tt)
        | (d, Err e) => (d, Err e)
        end
    end.

(** ** blockchain_storage_io.rs *)

Definition persist_block_durable block d : ChainDb :=
  let d := put_block d block in
  d <| cd_meta := <["height" := MetaRaw (to_be_bytes 8 (blk_index block))]> (cd_meta d) |>.
Definition record_tx_in_index (id : string) (block_index : Z) d : ChainDb :=
  d <| cd_tx_index := <[id := height_key block_index]> (cd_tx_index d) |>.
Definition lookup_tx_in_storage d (id : string) : option (Block * Z) :=
  match cd_tx_index d !! id with
  | Some raw =>
      if negb (length raw =? 8)%nat then None
      else match load_block d (key_to_height raw) with
           | Ok (Some block) => Some (block, key_to_height raw)
           | _ => None
           end
  | None => None
  end.

Definition index_missing (block_index : Z) (s : ChainDb * nat) (tx : Transaction) : ChainDb * nat :=
  if bool_decide (is_Some (cd_tx_index s.1 !! txid tx)) then s
  else (record_tx_in_index (txid tx) block_index s.1, S s.2).
(** A block that is missing or unreadable is skipped. *)
Definition index_block_txs (s : ChainDb * nat) (i : Z) : ChainDb * nat :=
  match load_block s.1 i with
  | Ok (Some block) => foldl (index_missing (blk_index block)) s (blk_transactions block)
  | _ => s
  end.
(** Whether the last transaction of the chain is indexed. *)
Definition warm_index bc d : bool :=
  match last (bc_chain bc) with
  | Some latest =>
      match last (blk_transactions latest) with
      | Some last_tx => bool_decide (is_Some (cd_tx_index d !! txid last_tx))
      | None => false
      end
  | None => false
  end.
Definition backfill_txid_index bc d : ChainDb * nat :=
  if warm_index bc d then (d, 0%nat)
  else foldl index_block_txs (d, 0%nat) (Z.of_nat <$> seq 0 (S (Z.to_nat (bc_height bc)))).
End storage.

(** ** What is read back *)

Section storage_props.
Context `{ChainTypes, JsonSlice}.
Implicit Types (d : ChainDb) (bc : Blockchain) (block : Block).

Lemma block_key_inj i j : block_key i = block_key j → i = j.
Proof. unfold block_key. intros E. by apply (inj (String.append _)), (inj pretty) in E. Qed.
Lemma block_key_height i : block_key i ≠ "height".
Proof. done. Qed.
Lemma key_height_roundtrip h : in_u64 h → key_to_height (height_key h) = h.
Proof.
  intros Hh. unfold key_to_height, height_key. rewrite take_ge by (rewrite length_to_be_bytes; lia).
  apply of_to_be_bytes. change (256 ^ Z.of_nat 8) with (U64_MAX + 1). ulia.
Qed.

Definition meta_entry (b : Block) : option (string * MetaValue) := Some (block_key (blk_index b), MetaBlock b).
Definition hash_entry (b : Block) : option (string * bytes) := Some (blk_hash b, height_key (blk_index b)).
Lemma meta_entry_Some b k v : meta_entry b = Some (k, v) → block_key (blk_index b) = k ∧ MetaBlock b = v.
Proof. unfold meta_entry. intros E. by apply (inj Some), pair_equal_spec in E. Qed.
Lemma put_blocks_meta d chain : cd_meta (foldl put_block d chain) = load_map meta_entry (cd_meta d) chain.
Proof. revert d. induction chain as [|b chain IH]; intros d; [done|]. simpl. by rewrite IH. Qed.
Lemma put_blocks_hashes d chain : cd_block_hashes (foldl put_block d chain) = load_map hash_entry (cd_block_hashes d) chain.
Proof. revert d. induction chain as [|b chain IH]; intros d; [done|]. simpl. by rewrite IH. Qed.
Lemma put_blocks_rest d chain :
  cd_state (foldl put_block d chain) = cd_state d ∧ cd_blob_height (foldl put_block d chain) = cd_blob_height d ∧
  cd_tx_index (foldl put_block d chain) = cd_tx_index d.
Proof. revert d. induction chain as [|b chain IH]; intros d; [done|]. simpl. by destruct (IH (put_block d b)) as (-> & -> & ->). Qed.

(** Blocks of one chain: their indices and hashes tell them apart. *)
Definition distinct_blocks (chain : list Block) : Prop :=
  ∀ b b', b ∈ chain → b' ∈ chain → blk_index b = blk_index b' ∨ blk_hash b = blk_hash b' → b = b'.
Definition u64_blocks (chain : list Block) : Prop := ∀ b, b ∈ chain → in_u64 (blk_index b).

Lemma load_put_blocks d chain b :
  distinct_blocks chain → u64_blocks chain → b ∈ chain →
  load_block (foldl put_block d chain) (blk_index b) = Ok (Some b) ∧
  load_block_by_hash (foldl put_block d chain) (blk_hash b) = Ok (Some b).
Proof.
  intros Hd Hu Hb.
  assert (Hl : load_block (foldl put_block d chain) (blk_index b) = Ok (Some b)).
  { unfold load_block. rewrite put_blocks_meta, (load_map_at meta_entry _ _ _ b (MetaBlock b)); [done..|].
    intros b' v Hb' [E <-]%meta_entry_Some. apply block_key_inj in E. f_equal. apply Hd; auto. }
  split; [done|]. unfold load_block_by_hash.
  rewrite put_blocks_hashes, (load_map_at hash_entry _ _ _ b (height_key (blk_index b))); [|done..|].
  - by rewrite key_height_roundtrip by auto.
  - intros b' v Hb' [= E <-]. by rewrite (Hd b' b) by auto.
Qed.
Lemma load_put_blocks_other d chain i :
  (∀ b, b ∈ chain → blk_index b ≠ i) → load_block (foldl put_block d chain) i = load_block d i.
Proof.
  intros Hi. unfold load_block. rewrite put_blocks_meta, load_map_other; [done|].
  intros b v Hb [E _]%meta_entry_Some. apply block_key_inj in E. by apply (Hi b).
Qed.
Lemma load_block_save_height h d i : load_block (save_height h d) i = load_block d i.
Proof. unfold load_block, save_height. simpl. by rewrite lookup_insert_ne by done. Qed.

(** Saving a chain and reading it back: the state blob, the height and the
    checkpoint are those of the chain, each of its blocks is found by index and by
    hash, and older blocks are still there. *)
Theorem save_load_roundtrip bc chain tip d :
  last chain = Some tip → distinct_blocks chain → u64_blocks chain →
  let d' := save_blockchain bc chain d in
  load_state d' = Some (blob_of bc) ∧ load_height d' = Ok (blk_index tip) ∧ load_blob_height d' = Some (blk_index tip) ∧
  (∀ b, b ∈ chain → load_block d' (blk_index b) = Ok (Some b) ∧ load_block_by_hash d' (blk_hash b) = Ok (Some b)) ∧
  (∀ i, (∀ b, b ∈ chain → blk_index b ≠ i) → load_block d' i = load_block d i).
Proof.
  intros Hl Hd Hu d'. unfold d', save_blockchain. rewrite Hl. cbn [default fmap option_fmap option_map].
  set (d0 := (d <| cd_state := _ |> <| cd_blob_height := _ |>)).
  destruct (put_blocks_rest d0 chain) as (Es & Eb & _). split_and!.
  - exact Es.
  - unfold load_height, save_height. simpl. by rewrite lookup_insert_eq.
  - exact Eb.
  - intros b Hb. destruct (load_put_blocks d0 chain b Hd Hu Hb) as [H1' H2'].
    split; [by rewrite load_block_save_height|]. unfold load_block_by_hash in *. simpl.
    destruct (cd_block_hashes (foldl put_block d0 chain) !! blk_hash b); [|done].
    by rewrite load_block_save_height.
  - intros i Hi. rewrite load_block_save_height, load_put_blocks_other by done. done.
Qed.

(** The durable write stores the height in another form than the one it is read
    in: after it, the height cannot be read. *)
Theorem durable_height_unreadable `{!JsonSliceLaws} block d :
  0 <= blk_index block < 2 ^ 56 → ∃ e, load_height (persist_block_durable block d) = Err (StorageError e).
Proof.
  intros Hi. unfold load_height, persist_block_durable. simpl. rewrite lookup_insert_eq.
  destruct (slice_u64_zero (to_be_bytes 8 (blk_index block))) as [e He].
  - rewrite !to_be_bytes_S. cbn [to_be_bytes to_le_bytes reverse rev_append app head]. f_equal.
    rewrite !Z.div_div by lia. rewrite Z.div_small by lia. done.
  - exists e. by rewrite He.
Qed.

(** ** The transaction index *)

Definition well_placed d : Prop := ∀ i b, load_block d i = Ok (Some b) → blk_index b = i ∧ in_u64 i.
Definition contains (b : Block) (id : string) : Prop := ∃ tx, tx ∈ blk_transactions b ∧ txid tx = id.
(** Every entry names a stored block that contains the transaction. *)
Definition index_sound d : Prop := ∀ id raw, cd_tx_index d !! id = Some raw →
  ∃ i b, raw = height_key i ∧ in_u64 i ∧ load_block d i = Ok (Some b) ∧ contains b id.
(** [d'] is [d] with a larger index. *)
Record extends d d' : Prop := {
  ex_meta : cd_meta d' = cd_meta d;
  ex_dom id : is_Some (cd_tx_index d !! id) → is_Some (cd_tx_index d' !! id);
  ex_sound : index_sound d → index_sound d';
}.
#[local] Instance extends_pre : PreOrder extends.
Proof.
  split; [intros d; split; done|]. intros d1 d2 d3 [E1 D1 S1] [E2 D2 S2]. split; [congruence|auto..].
Qed.
Lemma extends_load d d' i : extends d d' → load_block d' i = load_block d i.
Proof. intros [E _ _]. unfold load_block. by rewrite E. Qed.

Lemma record_extends d i b tx :
  load_block d i = Ok (Some b) → in_u64 i → tx ∈ blk_transactions b → extends d (record_tx_in_index (txid tx) i d).
Proof.
  intros Hl Hi Htx. split; [done| |].
  - intros id Hid. simpl. destruct (decide (txid tx = id)) as [<-|]; [rewrite lookup_insert_eq|rewrite lookup_insert_ne by done]; eauto.
  - intros Hs id raw. simpl. intros [[<- <-]|[_ Hid]]%lookup_insert_Some; [|by apply Hs].
    exists i, b. split_and!; [done..|]. by exists tx.
Qed.
Lemma index_missing_extends i b s tx :
  load_block s.1 i = Ok (Some b) → in_u64 i → tx ∈ blk_transactions b →
  extends s.1 (index_missing i s tx).1 ∧ is_Some (cd_tx_index (index_missing i s tx).1 !! txid tx).
Proof.
  intros Hl Hi Htx. unfold index_missing. case_bool_decide as Hx; [by split|]. split; [by eapply record_extends|].
  simpl. rewrite lookup_insert_eq. eauto.
Qed.
Lemma index_txs_extends i b txs s :
  load_block s.1 i = Ok (Some b) → in_u64 i → (∀ tx, tx ∈ txs → tx ∈ blk_transactions b) →
  extends s.1 (foldl (index_missing i) s txs).1 ∧
  ∀ tx, tx ∈ txs → is_Some (cd_tx_index (foldl (index_missing i) s txs).1 !! txid tx).
Proof.
  revert s. induction txs as [|tx txs IH]; intros s Hl Hi Hin; [split; [done|set_solver]|]. cbn [foldl].
  destruct (index_missing_extends i b s tx Hl Hi) as [He Hx]; [set_solver|].
  destruct (IH (index_missing i s tx)) as [He' Hx']; [by rewrite (extends_load _ _ _ He)|done|set_solver|].
  split; [by etrans|]. intros tx' [->|Htx']%elem_of_cons; [by apply (ex_dom _ _ He')|by apply Hx'].
Qed.
Lemma index_block_extends s i :
  well_placed s.1 → extends s.1 (index_block_txs s i).1 ∧
  ∀ b tx, load_block s.1 i = Ok (Some b) → tx ∈ blk_transactions b → is_Some (cd_tx_index (index_block_txs s i).1 !! txid tx).
Proof.
  intros Hw. unfold index_block_txs. destruct (load_block s.1 i) as [[b|]|] eqn:Hl; [|by split|by split].
  destruct (Hw i b Hl) as [-> Hi]. destruct (index_txs_extends i b (blk_transactions b) s Hl Hi ltac:(done)) as [He Hx].
  split; [done|]. intros b' tx [= <-]. apply Hx.
Qed.
Lemma backfill_extends (hs : list Z) s :
  well_placed s.1 → extends s.1 (foldl index_block_txs s hs).1 ∧
  ∀ i b tx, i ∈ hs → load_block s.1 i = Ok (Some b) → tx ∈ blk_transactions b →
    is_Some (cd_tx_index (foldl index_block_txs s hs).1 !! txid tx).
Proof.
  revert s. induction hs as [|j hs IH]; intros s Hw; [split; [done|set_solver]|]. cbn [foldl].
  destruct (index_block_extends s j Hw) as [He Hx].
  assert (Hw' : well_placed (index_block_txs s j).1) by (intros i b; rewrite (extends_load _ _ _ He); apply Hw).
  destruct (IH _ Hw') as [He' Hx']. split; [by etrans|].
  intros i b tx [->|Hi]%elem_of_cons Hl Htx; [by eapply (ex_dom _ _ He'), Hx|].
  eapply Hx'; [done| |done]. by rewrite (extends_load _ _ _ He).
Qed.
Lemma lookup_sound d id : index_sound d → is_Some (cd_tx_index d !! id) →
  ∃ b i, lookup_tx_in_storage d id = Some (b, i) ∧ contains b id.
Proof.
  intros Hs [raw Hr]. destruct (Hs id raw Hr) as (i & b & -> & Hi & Hl & Hc).
  exists b, i. split; [|done]. unfold lookup_tx_in_storage. rewrite Hr. unfold height_key at 1.
  rewrite length_to_be_bytes. simpl. rewrite key_height_roundtrip by done. by rewrite Hl.
Qed.

(** After a cold backfill every transaction of every stored block up to the tip is
    found, in a block that contains it. *)
Theorem backfill_finds_all bc d i b tx :
  well_placed d → index_sound d → warm_index bc d = false →
  0 <= i <= bc_height bc → load_block d i = Ok (Some b) → tx ∈ blk_transactions b →
  ∃ b' j, lookup_tx_in_storage (backfill_txid_index bc d).1 (txid tx) = Some (b', j) ∧ contains b' (txid tx).
Proof.
  intros Hw Hs Hc Hi Hl Htx. unfold backfill_txid_index. rewrite Hc.
  destruct (backfill_extends (Z.of_nat <$> seq 0 (S (Z.to_nat (bc_height bc)))) (d, 0%nat) Hw) as [He Hx].
  apply lookup_sound; [by apply (ex_sound _ _ He)|]. eapply Hx; [|done|done].
  apply list_elem_of_fmap. exists (Z.to_nat i). split; [lia|]. apply elem_of_seq. lia.
Qed.
End storage_props.
