(* ===== verification/Wire.v ===== *)
(** * Messages on the wire

    Models crates/sentrix-wire/src/lib.rs (requests, responses, the signed
    advertisement of a validator's addresses), the framing of
    crates/sentrix-network/src/behaviour.rs and the hex helpers of
    crates/sentrix-codec/src/lib.rs.  Shows that frames are read back, that an
    advertisement's payload determines it, and that it can be read as the payload
    of a vote. *)

From S2P Require Import Prelude Bytes Keys Transaction BftMessages Block TrieState.

(** ** Requests and responses *)

Inductive SentrixRequest :=
  | ReqHandshake (host : string) (port height chain_id : Z)
  | ReqNewBlock (block : Block)
  | ReqNewTransaction (transaction : Transaction)
  | ReqGetBlocks (from_height : Z)
  | ReqGetHeight
  | ReqPing
  | ReqBftProposal (proposal : Proposal)
  | ReqBftPrevote (prevote : Prevote)
  | ReqBftPrecommit (precommit : Precommit)
  | ReqBftRoundStatus (status : RoundStatus).
Definition variant_name (r : SentrixRequest) : string :=
  match r with
  | ReqHandshake _ _ _ _ => "Handshake" | ReqNewBlock _ => "NewBlock" | ReqNewTransaction _ => "NewTransaction"
  | ReqGetBlocks _ => "GetBlocks" | ReqGetHeight => "GetHeight" | ReqPing => "Ping"
  | ReqBftProposal _ => "BftProposal" | ReqBftPrevote _ => "BftPrevote"
  | ReqBftPrecommit _ => "BftPrecommit" | ReqBftRoundStatus _ => "BftRoundStatus"
  end.
Inductive SentrixResponse :=
  | ResHandshake (host : string) (port height chain_id : Z)
  | ResBlocks (blocks : list Block)
  | ResHeight (height : Z)
  | ResPong (height : Z)
  | ResAck.

(** ** Frames *)

Definition MAX_MESSAGE_BYTES : Z := 10 * 1024 * 1024.

(** [bincode::serialize] and [bincode::deserialize] at one type. *)
Class Bincode (A : Type) := {
  serialize : A → bytes + string;
  deserialize : bytes → A + string;
}.
Class BincodeLaws (A : Type) `{Bincode A} : Prop := {
  deserialize_serialize x b : serialize x = inl b → deserialize b = inl x;
}.

Section framing.
Context `{Bincode A}.

(** The bytes written, or the error. *)
Definition lp_write (val : A) : bytes + string :=
  match serialize val with
  | inr e => inr e
  | inl bytes =>
      if MAX_MESSAGE_BYTES <? Z.of_nat (length bytes) then inr "message too large"
      else inl (to_be_bytes 4 (Z.of_nat (length bytes)) ++ bytes)
  end.
(** [read_exact]: the next [n] bytes and the rest of the stream. *)
Definition read_exact (n : nat) (io : bytes) : option (bytes * bytes) :=
  if (length io <? n)%nat then None else Some (take n io, drop n io).
Definition lp_read (io : bytes) : (A * bytes) + string :=
  match read_exact 4 io with
  | None => inr "failed to fill whole buffer"
  | Some (len_buf, io) =>
      let len := of_be_bytes len_buf in
      if MAX_MESSAGE_BYTES <? len then inr "message too large"
      else
        match read_exact (Z.to_nat len) io with
        | None => inr "failed to fill whole buffer"
        | Some (buf, io) => match deserialize buf with inl v => inl (v, io) | inr e => inr e end
        end
  end.

Lemma read_exact_app n a b : length a = n → read_exact n (a ++ b) = Some (a, b).
Proof.
  intros <-. unfold read_exact. rewrite length_app. rewrite (proj2 (Nat.ltb_ge _ _)) by lia.
  by rewrite take_app_length, drop_app_length.
Qed.

(** A frame that was written is read back, whatever follows it on the stream. *)
Theorem frame_roundtrip `{!BincodeLaws A} val frame rest :
  lp_write val = inl frame → lp_read (frame ++ rest) = inl (val, rest).
Proof.
  unfold lp_write. destruct (serialize val) as [b|e] eqn:E; [|done].
  destruct (Z.ltb_spec MAX_MESSAGE_BYTES (Z.of_nat (length b))) as [|Hb]; [done|]. intros Ef. apply (inj inl) in Ef as <-.
  unfold lp_read. rewrite <-app_assoc, read_exact_app by apply length_to_be_bytes.
  rewrite of_to_be_bytes by (unfold MAX_MESSAGE_BYTES in Hb; split; lia).
  rewrite (proj2 (Z.ltb_ge _ _)) by done. rewrite Nat2Z.id, read_exact_app by done.
  by rewrite (deserialize_serialize val b).
Qed.
End framing.

(** ** sentrix-codec *)

Inductive CodecError := CodecEncode (e : string) | CodecDecode (e : string).
Definition codec_error_text (e : CodecError) : string :=
  match e with
  | CodecEncode e => "codec encode error: " +:+ e
  | CodecDecode e => "codec decode error: " +:+ e
  end.
Section codec.
Context `{Bincode A, Hex} (hex_decode : string → bytes + string).
Definition encode (val : A) : bytes + CodecError :=
  match serialize val with inl b => inl b | inr e => inr (CodecEncode e) end.
Definition decode (b : bytes) : A + CodecError :=
  match deserialize b with inl v => inl v | inr e => inr (CodecDecode e) end.
Definition codec_hex_encode (b : bytes) : string := hex_encode b.
Definition codec_hex_decode (s : string) : bytes + CodecError :=
  match hex_decode (default s (strip_prefix "0x" s)) with inl b => inl b | inr e => inr (CodecDecode e) end.
Definition hex_decode_fixed (n : nat) (s : string) : bytes + CodecError :=
  match codec_hex_decode s with
  | inr e => inr e
  | inl b =>
      if negb (length b =? n)%nat
      then inr (CodecDecode ("expected " +:+ pretty n +:+ " bytes, got " +:+ pretty (length b)))
      else inl b
  end.
End codec.

(** ** Advertisements *)

Record MultiaddrAdvertisement := mkAdvert {
  ad_validator : string;
  ad_multiaddrs : list string;
  ad_sequence : Z;
  ad_timestamp : Z;
  ad_chain_id : Z;
  ad_signature : bytes;
}.
#[global] Instance MultiaddrAdvertisement_eta : Eta MultiaddrAdvertisement := λ a,
  mkAdvert (ad_validator a) (ad_multiaddrs a) (ad_sequence a) (ad_timestamp a) (ad_chain_id a) (ad_signature a).
#[global] Instance MultiaddrAdvertisement_eq_dec : EqDecision MultiaddrAdvertisement.
Proof. solve_decision. Defined.
Definition MAX_MULTIADDRS : nat := 8.
Definition MAX_MULTIADDR_LEN : nat := 256.

Definition advert_payload (a : MultiaddrAdvertisement) : bytes :=
  [0x10] ++ to_be_bytes 8 (ad_chain_id a) ++ enc_string (ad_validator a) ++ enc_list enc_string (ad_multiaddrs a)
  ++ to_be_bytes 8 (ad_sequence a) ++ to_be_bytes 8 (ad_timestamp a).

Definition starts_with (prefix s : string) : bool := bool_decide (is_Some (strip_prefix prefix s)).
(** The first multiaddr that is malformed. *)
Fixpoint check_multiaddrs (l : list string) : unit + string :=
  match l with
  | [] => inl tt
  | ma :: l =>
      if bool_decide (ma = "") then inr "multiaddr empty string"
      else if (MAX_MULTIADDR_LEN <? String.length ma)%nat then inr "multiaddr exceeds MAX_MULTIADDR_LEN"
      else if negb (starts_with "/" ma) then inr "multiaddr must start with '/'"
      else check_multiaddrs l
  end.
Definition validate_shape (a : MultiaddrAdvertisement) : unit + string :=
  if bool_decide (ad_multiaddrs a = []) then inr "multiaddr list empty"
  else if (MAX_MULTIADDRS <? length (ad_multiaddrs a))%nat then inr "multiaddr list exceeds MAX_MULTIADDRS"
  else
    match check_multiaddrs (ad_multiaddrs a) with
    | inr e => inr e
    | inl _ =>
        if negb (starts_with "0x" (ad_validator a)) || negb (String.length (ad_validator a) =? 42)%nat
        then inr "validator must be 0x-prefixed 40-hex"
        else inl tt
    end.

Section advert_signature.
Context `{Crypto}.
Definition advert_sign (sk : SecretKey) (a : MultiaddrAdvertisement) : MultiaddrAdvertisement :=
  a <| ad_signature := sign_payload (advert_payload a) sk |>.
Definition advert_verify (a : MultiaddrAdvertisement) : bool :=
  match ad_signature a with
  | [] => false
  | _ =>
      match recover_signer (advert_payload a) (ad_signature a) with
      | Ok addr => bool_decide (addr = ad_validator a)
      | Err _ => false
      end
  end.
End advert_signature.

(** Within the machine ranges. *)
Definition advert_ok (a : MultiaddrAdvertisement) : Prop :=
  in_u64 (ad_chain_id a) ∧ short (ad_validator a) ∧ Forall short (ad_multiaddrs a) ∧
  Z.of_nat (length (ad_multiaddrs a)) <= U64_MAX ∧ in_u64 (ad_sequence a) ∧ in_u64 (ad_timestamp a).

(** The signed payload determines everything but the signature. *)
Lemma advert_payload_inj a b :
  advert_ok a → advert_ok b → advert_payload a = advert_payload b → a <| ad_signature := [] |> = b <| ad_signature := [] |>.
Proof.
  intros (Ha1 & Ha2 & Ha3 & Ha4 & Ha5 & Ha6) (Hb1 & Hb2 & Hb3 & Hb4 & Hb5 & Hb6) E.
  unfold advert_payload in E. apply (inj (cons 0x10)) in E.
  apply (prefix_free_be 8) in E as [E1 E]; [|by ulia..].
  apply prefix_free_string in E as [E2 E]; [|done..].
  apply (prefix_free_list short _ prefix_free_string) in E as [E3 E]; [|done..].
  apply (prefix_free_be 8) in E as [E4 E]; [|by ulia..].
  assert (E5 : ad_timestamp a = ad_timestamp b) by (apply (to_be_bytes_inj 8); [ulia..|done]).
  destruct a, b. simpl in *. by subst.
Qed.

(** ** An advertisement read as a vote *)

Definition is_byte (b : Z) : Prop := 0 <= b < 256.
(** The text of some bytes. *)
Fixpoint text_of (b : bytes) : string :=
  match b with [] => "" | x :: b => String (Ascii.ascii_of_N (Z.to_N x)) (text_of b) end.
Lemma as_bytes_text b : Forall is_byte b → as_bytes (text_of b) = b.
Proof.
  induction 1 as [|x b Hx _ IH]; [done|]. simpl. rewrite IH. f_equal. unfold is_byte in Hx.
  rewrite Ascii.N_ascii_embedding by lia. lia.
Qed.
Lemma to_of_le_bytes l : Forall is_byte l → to_le_bytes (length l) (of_le_bytes l) = l.
Proof.
  induction 1 as [|x l Hx _ IH]; [done|]. simpl. unfold is_byte in Hx.
  rewrite (Z.mul_comm 256), Z.mod_add, Z.div_add, Z.mod_small, Z.div_small by lia. by rewrite Z.add_0_l, IH.
Qed.
Lemma le_bytes_are_bytes n x : Forall is_byte (to_le_bytes n x).
Proof. revert x. induction n as [|n IH]; intros x; simpl; constructor; [by apply Z.mod_pos_bound|done]. Qed.
Lemma be_bytes_are_bytes n x : Forall is_byte (to_be_bytes n x).
Proof. apply Forall_reverse, le_bytes_are_bytes. Qed.
Lemma text_bytes_are_bytes s : Forall is_byte (as_bytes s).
Proof.
  induction s as [|c s IH]; simpl; constructor; [|done]. unfold is_byte.
  pose proof (Ascii.N_ascii_bounded c). lia.
Qed.

(** Where the fields of a vote come to lie: the height over the tag and the chain
    id, the round over its last byte, the hash over the rest. *)
Definition vote_height (chain_id : Z) : Z := of_le_bytes (0x10 :: take 7 (to_be_bytes 8 chain_id)).
Definition vote_round (chain_id : Z) : Z := chain_id mod 256.
Definition vote_tail (a : MultiaddrAdvertisement) : bytes :=
  [0; 0; 0; 0; 42] ++ as_bytes (ad_validator a) ++ enc_list enc_string (ad_multiaddrs a)
  ++ to_be_bytes 8 (ad_sequence a) ++ to_be_bytes 7 (ad_timestamp a / 256).
Definition as_prevote (a : MultiaddrAdvertisement) : Prevote :=
  mkPrevote (vote_height (ad_chain_id a)) (vote_round (ad_chain_id a)) (Some (text_of (vote_tail a)))
    (ad_validator a) (ad_signature a).

Lemma enc_list_are_bytes l : Forall is_byte (enc_list enc_string l).
Proof.
  apply Forall_app. split; [apply be_bytes_are_bytes|]. induction l as [|s l IH]; [constructor|].
  rewrite fmap_cons. cbn [concat]. apply Forall_app. split; [|done]. apply Forall_app. split; [apply be_bytes_are_bytes|apply text_bytes_are_bytes].
Qed.
Lemma vote_tail_bytes a : Forall is_byte (vote_tail a).
Proof.
  unfold vote_tail. rewrite !Forall_app. split_and!; auto using text_bytes_are_bytes, enc_list_are_bytes, be_bytes_are_bytes.
  repeat constructor; unfold is_byte; lia.
Qed.
Lemma be_last n x : to_be_bytes (S n) x = take n (to_be_bytes (S n) x) ++ [x mod 256].
Proof. rewrite to_be_bytes_S at 2. rewrite take_app_length' by (by rewrite length_to_be_bytes). apply to_be_bytes_S. Qed.
Lemma height_bytes c : to_le_bytes 8 (vote_height c) = 0x10 :: take 7 (to_be_bytes 8 c).
Proof.
  unfold vote_height. set (l := 0x10 :: _). replace 8%nat with (length l); [apply to_of_le_bytes|].
  - constructor; [by unfold is_byte|]. apply Forall_take, be_bytes_are_bytes.
  - reflexivity.
Qed.
Lemma round_bytes c : to_le_bytes 4 (vote_round c) = [c mod 256; 0; 0; 0].
Proof.
  unfold vote_round. pose proof (Z.mod_pos_bound c 256 ltac:(lia)). cbn [to_le_bytes].
  rewrite Z.mod_small, !(Z.div_small (c mod 256)) by lia. done.
Qed.

(** The payload of an advertisement whose timestamp ends in the tag of a prevote
    is the payload of a prevote. *)
Lemma advert_payload_is_vote a :
  String.length (ad_validator a) = 42%nat → ad_timestamp a mod 256 = 2 →
  pv_signing_payload (pv_height (as_prevote a)) (pv_round (as_prevote a)) (pv_block_hash (as_prevote a)) = advert_payload a.
Proof.
  intros Hv Ht. unfold pv_signing_payload, as_prevote, advert_payload. cbn [pv_height pv_round pv_block_hash vote_bytes].
  rewrite as_bytes_text by apply vote_tail_bytes. rewrite height_bytes, round_bytes.
  rewrite (be_last 7 (ad_chain_id a)) at 2. unfold enc_string. rewrite Hv.
  rewrite (to_be_bytes_S 7 (ad_timestamp a)), Ht. unfold vote_tail.
  change (to_be_bytes 8 (Z.of_nat 42)) with [0; 0; 0; 0; 0; 0; 0; 42]. by rewrite <-!app_assoc.
Qed.

(** ASCII, so that it is a string of the source. *)
Definition ascii (b : bytes) : Prop := Forall (λ x, x < 128) b.
Definition ascii_hash (p : Prevote) : Prop := ∃ h, pv_block_hash p = Some h ∧ ascii (as_bytes h).

(** C32: a valid advertisement can be replayed as a vote: two of them from one validator
    whose timestamps end in the tag of a prevote are two signed prevotes for
    different blocks in the same height and round, which is what evidence of
    double signing consists of.  (The hash of a vote is a string: the bytes that
    come to lie on it are ASCII, as for sequence numbers and timestamps whose
    bytes are below 128.) *)
Theorem adverts_are_votes `{Crypto} a b :
  validate_shape a = inl tt → validate_shape b = inl tt → advert_ok a → advert_ok b →
  ad_validator a = ad_validator b → ad_chain_id a = ad_chain_id b → ad_sequence a ≠ ad_sequence b →
  ad_timestamp a mod 256 = 2 → ad_timestamp b mod 256 = 2 →
  ascii (vote_tail a) → ascii (vote_tail b) →
  advert_verify a = true → advert_verify b = true →
  ascii_hash (as_prevote a) ∧ ascii_hash (as_prevote b) ∧ pv_verify_sig (as_prevote a) = true ∧ pv_verify_sig (as_prevote b) = true ∧
  pv_validator (as_prevote a) = pv_validator (as_prevote b) ∧
  pv_height (as_prevote a) = pv_height (as_prevote b) ∧ pv_round (as_prevote a) = pv_round (as_prevote b) ∧
  pv_block_hash (as_prevote a) ≠ pv_block_hash (as_prevote b).
Proof.
  intros Sa Sb Ha Hb Ev Ec Es Ta Tb Aa Ab Va Vb.
  assert (Hlen : ∀ x, validate_shape x = inl tt → String.length (ad_validator x) = 42%nat).
  { intros x. unfold validate_shape. repeat case_match; try done. intros _.
    match goal with E : _ || _ = false |- _ => apply orb_false_iff in E as [_ E%negb_false_iff%Nat.eqb_eq] end. done. }
  assert (Hver : ∀ x, String.length (ad_validator x) = 42%nat → ad_timestamp x mod 256 = 2 → advert_verify x = true →
    pv_verify_sig (as_prevote x) = true).
  { intros x Hv Ht Hx. unfold pv_verify_sig. rewrite advert_payload_is_vote by done. exact Hx. }
  assert (Hasc : ∀ x, ascii (vote_tail x) → ascii_hash (as_prevote x)).
  { intros x Hx. eexists. split; [done|]. by rewrite as_bytes_text by apply vote_tail_bytes. }
  split_and!; [by apply Hasc|by apply Hasc|by apply Hver; auto|by apply Hver; auto|done|simpl; by rewrite Ec|simpl; by rewrite Ec|].
  intros E. simpl in E. injection E as E. apply Es.
  assert (Ep : advert_payload a = advert_payload b).
  { rewrite <-!advert_payload_is_vote by auto. unfold as_prevote. simpl pv_height. simpl pv_round. simpl pv_block_hash.
    by rewrite Ec, E. }
  apply advert_payload_inj in Ep; [|done..]. by injection Ep.
Qed.
