(* ===== verification/RateLimit.v ===== *)
(** * Rate limits

    Models the connection limiter of
    crates/sentrix-network/src/libp2p_node/ratelimit.rs and the request limiter
    of crates/sentrix-rpc/src/routes/ratelimit.rs.  Times are nanoseconds, and a
    call reads the clock once.  Shows how many connections an address can open in
    less than a window. *)

From S2P Require Import Prelude Chain.

Definition SECOND : Z := 1000000000.
Definition MAX_CONN_PER_IP : Z := 20.
Definition RATE_LIMIT_WINDOW_SECS : Z := 60.
Definition BAN_DURATION_SECS : Z := 300.

(** ** Connections *)

Record IpRateLimiter := mkLimiter {
  lim_counts : gmap string (Z * Z);
  lim_bans : gmap string Z;
}.
#[global] Instance IpRateLimiter_eta : Eta IpRateLimiter := λ l, mkLimiter (lim_counts l) (lim_bans l).
Definition IpRateLimiter_new : IpRateLimiter := mkLimiter ∅ ∅.

Definition track (ip : string) (now : Z) (l : IpRateLimiter) : IpRateLimiter * bool :=
  let '(count, start) := default (0, now) (lim_counts l !! ip) in
  if RATE_LIMIT_WINDOW_SECS * SECOND <? now - start then
    (l <| lim_counts := <[ip := (1, now)]> (lim_counts l) |>, true)
  else
    let l := l <| lim_counts := <[ip := (count + 1, start)]> (lim_counts l) |> in
    if MAX_CONN_PER_IP <? count + 1 then (l <| lim_bans := <[ip := now]> (lim_bans l) |>, false) else (l, true).
Definition check_and_track (ip : string) (now : Z) (l : IpRateLimiter) : IpRateLimiter * bool :=
  match lim_bans l !! ip with
  | Some ban_time =>
      if now - ban_time <? BAN_DURATION_SECS * SECOND then (l, false)
      else track ip now (l <| lim_bans := delete ip (lim_bans l) |>)
  | None => track ip now l
  end.
Definition prune_stale (now : Z) (l : IpRateLimiter) : IpRateLimiter :=
  mkLimiter (filter (λ e, now - e.2.2 < RATE_LIMIT_WINDOW_SECS * SECOND) (lim_counts l))
    (filter (λ e, now - e.2 < BAN_DURATION_SECS * SECOND) (lim_bans l)).

(** ** Requests *)

(** An override: a positive number, cut to [u32]. *)
Definition rate_limit_from_str (value : option string) (default_max : Z) : Z :=
  match value ≫= parse_u64 with
  | Some n => if 0 <? n then Z.min n U32_MAX else default_max
  | None => default_max
  end.
Definition RPC_MAX_TRACKED : nat := 10000.
Definition check_rate_limit (ip : string) (max_requests window_secs now : Z) (m : gmap string (Z * Z))
    : gmap string (Z * Z) * bool :=
  let m := if (RPC_MAX_TRACKED <? size m)%nat then filter (λ e, (now - e.2.2) / SECOND < window_secs) m else m in
  let '(count, start) := default (0, now) (m !! ip) in
  if window_secs <=? (now - start) / SECOND then (<[ip := (1, now)]> m, true)
  else
    let count := (count + 1) mod (U32_MAX + 1) in
    (<[ip := (count, start)]> m, count <=? max_requests).

(** ** Runs of the connection limiter *)

Inductive LimiterEvent := LeConnect (ip : string) (now : Z) | LePrune (now : Z).
Definition le_time (e : LimiterEvent) : Z := match e with LeConnect _ t | LePrune t => t end.
Definition limiter_step (l : IpRateLimiter) (e : LimiterEvent) : IpRateLimiter * bool :=
  match e with
  | LeConnect ip now => check_and_track ip now l
  | LePrune now => (prune_stale now l, false)
  end.
Definition limiter_run (l : IpRateLimiter) (es : list LimiterEvent) : IpRateLimiter := foldl (λ l e, (limiter_step l e).1) l es.
Definition is_from (ip : string) (e : LimiterEvent) : bool :=
  match e with LeConnect ip' _ => bool_decide (ip' = ip) | LePrune _ => false end.
(** How many connections from [ip] are let through. *)
Fixpoint accepted (ip : string) (l : IpRateLimiter) (es : list LimiterEvent) : Z :=
  match es with
  | [] => 0
  | e :: es =>
      (if (limiter_step l e).2 && is_from ip e then 1 else 0) + accepted ip (limiter_step l e).1 es
  end.

(** At most this many more, for events from [a] on that end within a window. *)
Definition headroom (ip : string) (a : Z) (l : IpRateLimiter) : Z :=
  match lim_counts l !! ip with
  | None => MAX_CONN_PER_IP
  | Some (c, s) => Z.max 0 (MAX_CONN_PER_IP - c) + (if s <? a then MAX_CONN_PER_IP else 0)
  end.
Definition counted (l : IpRateLimiter) : Prop := ∀ ip c s, lim_counts l !! ip = Some (c, s) → 1 <= c.

Lemma headroom_nonneg ip a l : 0 <= headroom ip a l.
Proof. unfold headroom, MAX_CONN_PER_IP. repeat case_match; lia. Qed.

Lemma track_other ip ip' now l : ip ≠ ip' → lim_counts (track ip' now l).1 !! ip = lim_counts l !! ip.
Proof. intros Hne. unfold track. repeat case_match; simpl; by rewrite lookup_insert_ne. Qed.
Lemma track_headroom ip a b now l :
  a <= now <= b → b - a < RATE_LIMIT_WINDOW_SECS * SECOND →
  (if (track ip now l).2 then 1 else 0) + headroom ip a (track ip now l).1 <= headroom ip a l.
Proof.
  intros Hn Hw. unfold track, headroom. destruct (lim_counts l !! ip) as [[c s]|] eqn:E; simpl.
  - destruct (Z.ltb_spec (RATE_LIMIT_WINDOW_SECS * SECOND) (now - s)); simpl.
    + rewrite lookup_insert_eq. unfold MAX_CONN_PER_IP. repeat case_match; lia.
    + unfold MAX_CONN_PER_IP. destruct (Z.ltb_spec 20 (c + 1)); simpl; rewrite lookup_insert_eq; repeat case_match; lia.
  - rewrite Z.sub_diag, (proj2 (Z.ltb_ge _ _)) by (unfold RATE_LIMIT_WINDOW_SECS, SECOND; lia).
    change (MAX_CONN_PER_IP <? 0 + 1) with false. cbn [fst snd lim_counts]. simpl. rewrite lookup_insert_eq.
    unfold MAX_CONN_PER_IP. case_match; lia.
Qed.
Lemma step_headroom ip a b e l :
  a <= le_time e <= b → b - a < RATE_LIMIT_WINDOW_SECS * SECOND →
  (if (limiter_step l e).2 && is_from ip e then 1 else 0) + headroom ip a (limiter_step l e).1 <= headroom ip a l.
Proof.
  intros Ht Hw. destruct e as [ip' now|now]; simpl in *.
  - assert (Htr : ∀ l', lim_counts l' = lim_counts l →
      (if (track ip' now l').2 && bool_decide (ip' = ip) then 1 else 0) + headroom ip a (track ip' now l').1 <= headroom ip a l).
    { intros l' El. case_bool_decide as Ei.
      - subst ip'. rewrite andb_true_r. etransitivity; [by apply (track_headroom ip a b)|].
        unfold headroom. by rewrite El.
      - rewrite andb_false_r. unfold headroom. by rewrite track_other, El by done. }
    unfold check_and_track. destruct (lim_bans l !! ip') as [t|]; [|by apply Htr].
    destruct (_ <? _); [simpl; lia|by apply Htr].
  - unfold headroom, prune_stale. simpl. rewrite map_lookup_filter.
    destruct (lim_counts l !! ip) as [[c s]|] eqn:E; simpl; [|lia].
    case_guard; simpl in *; [done|]. unfold MAX_CONN_PER_IP.
    destruct (Z.ltb_spec s a); lia.
Qed.
Lemma accepted_headroom ip a b es l :
  b - a < RATE_LIMIT_WINDOW_SECS * SECOND → Forall (λ e, a <= le_time e <= b) es → accepted ip l es <= headroom ip a l.
Proof.
  intros Hw Hes. revert l. induction Hes as [|e es He _ IH]; intros l; simpl; [apply headroom_nonneg|].
  pose proof (step_headroom ip a b e l He Hw). specialize (IH (limiter_step l e).1). lia.
Qed.

Lemma track_counted ip now l : counted l → counted (track ip now l).1.
Proof.
  intros Hl ip' c s. unfold track. destruct (lim_counts l !! ip) as [[c0 s0]|] eqn:E; simpl; repeat case_match; simpl;
    intros [[-> [= <- <-]]|[_ Hi]]%lookup_insert_Some; try (by eapply Hl); try lia; specialize (Hl _ _ _ E); lia.
Qed.
Lemma run_counted es : counted (limiter_run IpRateLimiter_new es).
Proof.
  assert (Hs : ∀ l e, counted l → counted (limiter_step l e).1).
  { intros l [ip now|now] Hl; simpl.
    - unfold check_and_track. repeat case_match; [done|by apply track_counted..].
    - intros ip c s. unfold prune_stale. simpl. rewrite map_lookup_filter_Some. intros [E _]. by apply (Hl ip c s). }
  unfold limiter_run. assert (H0 : counted IpRateLimiter_new) by done. revert H0.
  generalize IpRateLimiter_new. induction es as [|e es IH]; intros l Hl; [done|]. simpl. auto.
Qed.

(** Whatever happened before, fewer than twice the limit of connections from one
    address are let through in any stretch shorter than a window. *)
Theorem connections_bounded ip before during a b :
  b - a < RATE_LIMIT_WINDOW_SECS * SECOND → Forall (λ e, a <= le_time e <= b) during →
  accepted ip (limiter_run IpRateLimiter_new before) during <= 2 * MAX_CONN_PER_IP - 1.
Proof.
  intros Hw Hd. etransitivity; [by apply (accepted_headroom ip a b)|]. pose proof (run_counted before) as Hc.
  unfold headroom. destruct (lim_counts _ !! ip) as [[c s]|] eqn:E; [apply Hc in E|]; unfold MAX_CONN_PER_IP in *;
    repeat case_match; lia.
Qed.

(** The bound is met: windows do not slide.  19 connections at the end of a window
    and 20 right after it are all let through. *)
Lemma window_not_sliding :
  let before := [LeConnect "ip" 0] in
  let during := repeat (LeConnect "ip" (60 * SECOND)) 19 ++ repeat (LeConnect "ip" (60 * SECOND + 1)) 20 in
  accepted "ip" (limiter_run IpRateLimiter_new before) during = 39.
Proof. by vm_compute. Qed.

(** An address over the limit is refused for the time of the ban. *)
Lemma ban_holds ip es l t :
  lim_bans l !! ip = Some t → Forall (λ e, le_time e - t < BAN_DURATION_SECS * SECOND) es → accepted ip l es = 0.
Proof.
  intros Hb Hes. revert l Hb. induction Hes as [|e es He _ IH]; intros l Hb; [done|]. simpl.
  assert (Hs : lim_bans (limiter_step l e).1 !! ip = Some t ∧ (limiter_step l e).2 && is_from ip e = false).
  { destruct e as [ip' now|now]; simpl in *.
    - unfold check_and_track. destruct (decide (ip' = ip)) as [->|Hne].
      + rewrite Hb, (proj2 (Z.ltb_lt _ _)) by done. done.
      + rewrite (bool_decide_false _ Hne), andb_false_r. split; [|done].
        unfold track. destruct (lim_bans l !! ip'); repeat case_match; simpl; rewrite ?lookup_insert_ne, ?lookup_delete_ne by done; done.
    - split; [|done]. rewrite map_lookup_filter_Some. done. }
  destruct Hs as [Hs ->]. by rewrite IH.
Qed.
