(* ===== verification/Lifecycle.v ===== *)
(** * Fork activations and the divergence alarm

    Models crates/sentrix-core/src/blockchain_activations.rs, the one-shot
    migrations of a running chain, and crates/sentrix-core/src/divergence.rs, the
    alarm on rejected state roots. *)

From S2P Require Import Prelude Bytes Account Staking StakingProps Epoch Slashing Token.
From S2P Require Import Merkle Transaction TransactionProps Authority Emission.
From S2P Require Import BftMessages Block Chain.

(** ** Activations *)

Section activations.
Context `{ChainTypes, HashOrder}.
Implicit Types bc : Blockchain.

(** The flag [evm_activated], and the accounts. *)
Definition activate_evm (evm_activated : bool) bc : bool * Blockchain :=
  if evm_activated then (evm_activated, bc)
  else (true, bc <| bc_accounts := (migrate_to_evm (bc_accounts bc)).1 |>).

(** A validator that cannot be registered is skipped with a warning. *)
Definition migrate_validator (height : Z) (r : StakeRegistry) (address : string) : StakeRegistry :=
  (register_validator address MIN_SELF_STAKE 1000 height r).1.
Definition activate_voyager bc : Blockchain * result unit :=
  if bc_voyager_activated bc then (bc, Ok tt)
  else
    let addresses := av_address <$> active_validators (bc_authority bc) in
    let r := update_active_set (foldl (migrate_validator (bc_height bc)) (bc_stake_registry bc) addresses) in
    (bc <| bc_stake_registry := r |>
        <| bc_epoch_manager := initialize r (bc_height bc) (bc_epoch_manager bc) |>
        <| bc_voyager_activated := true |>, Ok tt).

Lemma migrate_one height r address :
  migrate_validator height r address =
    if bool_decide (is_Some (validators r !! address)) then r
    else put_validator address (new_validator address MIN_SELF_STAKE 1000 height) r.
Proof.
  unfold migrate_validator, register_validator. unfold_st_goal. case_bool_decide; [done|].
  rewrite Z.ltb_irrefl. done.
Qed.
Lemma migrate_all height addresses r k :
  validators (foldl (migrate_validator height) r addresses) !! k =
    match validators r !! k with
    | Some v => Some v
    | None => if bool_decide (k ∈ addresses) then Some (new_validator k MIN_SELF_STAKE 1000 height) else None
    end.
Proof.
  revert r. induction addresses as [|a l IH]; intros r; cbn [foldl].
  - destruct (validators r !! k); [done|]. rewrite bool_decide_eq_false_2; [done|]. by intros ?%elem_of_nil.
  - rewrite IH, migrate_one. destruct (decide (is_Some (validators r !! a))) as [Ha|Ha].
    + rewrite (bool_decide_eq_true_2 (is_Some _)) by done. destruct (validators r !! k) eqn:E; [done|]. destruct (decide (k = a)) as [->|].
      * rewrite E in Ha. by destruct Ha.
      * do 2 case_bool_decide; set_solver.
    + rewrite (bool_decide_eq_false_2 (is_Some _)) by done. unfold put_validator. simpl.
      destruct (decide (k = a)) as [->|].
      * rewrite lookup_insert_eq. apply eq_None_not_Some in Ha. rewrite Ha.
        by rewrite bool_decide_eq_true_2 by set_solver.
      * rewrite lookup_insert_ne by done. destruct (validators r !! k); [done|].
        do 2 case_bool_decide; set_solver.
Qed.

(** The migration to staked consensus keeps every registered validator, registers
    each active authority that is not one with the minimum stake, and opens the
    epoch of the current height with the active set of the result; a second call
    does nothing. *)
Theorem activate_voyager_spec bc :
  bc_voyager_activated bc = false →
  let bc' := (activate_voyager bc).1 in
  (activate_voyager bc).2 = Ok tt ∧
  (∀ k, validators (bc_stake_registry bc') !! k =
    match validators (bc_stake_registry bc) !! k with
    | Some v => Some v
    | None => if bool_decide (k ∈ av_address <$> active_validators (bc_authority bc))
              then Some (new_validator k MIN_SELF_STAKE 1000 (bc_height bc)) else None
    end) ∧
  active_set (bc_stake_registry bc') = compute_active_set (bc_stake_registry bc') ∧
  validator_set (current_epoch (bc_epoch_manager bc')) = active_set (bc_stake_registry bc') ∧
  activate_voyager bc' = (bc', Ok tt).
Proof.
  intros Hf. unfold activate_voyager at 1 2 3. rewrite Hf. cbn [fst snd]. split; [done|].
  split; [|split; [|split]].
  - intros k. rewrite <- migrate_all. done.
  - done.
  - done.
  - unfold activate_voyager. simpl. done.
Qed.
End activations.

(** ** The divergence alarm *)

(** An instant is a number of nanoseconds. *)
Definition as_secs (d : Z) : Z := Z.max 0 d / 1000000000.
Record DivergenceTracker := mkDivergence {
  recent_rejections : list Z;
  total_rejections : Z;
  last_alarm_at : option Z;
}.
#[global] Instance DivergenceTracker_eta : Eta DivergenceTracker := λ t,
  mkDivergence (recent_rejections t) (total_rejections t) (last_alarm_at t).
Definition DivergenceTracker_default : DivergenceTracker := mkDivergence [] 0 None.
Definition WINDOW_SECS : Z := 300.
Definition ALARM_THRESHOLD : nat := 100.
Definition ALARM_COOLDOWN_SECS : Z := 60.

(** Old entries leave from the front. *)
Fixpoint evict (now : Z) (l : list Z) : list Z :=
  match l with
  | front :: rest => if WINDOW_SECS <? as_secs (now - front) then evict now rest else l
  | [] => []
  end.
(** Whether the alarm is raised. *)
Definition record_rejection (now : Z) (t : DivergenceTracker) : DivergenceTracker * bool :=
  let recent := evict now (recent_rejections t) ++ [now] in
  let t := t <| recent_rejections := recent |>
             <| total_rejections := saturating_add U64_MAX (total_rejections t) 1 |> in
  if (ALARM_THRESHOLD <=? length recent)%nat then
    if match last_alarm_at t with
       | Some at_ => ALARM_COOLDOWN_SECS <=? as_secs (now - at_)
       | None => true
       end
    then (t <| last_alarm_at := Some now |>, true) else (t, false)
  else (t, false).
Definition divergence_stats (t : DivergenceTracker) : nat * Z := (length (recent_rejections t), total_rejections t).

(** A sequence of rejections: the tracker and when the alarm was raised. *)
Fixpoint reject_all (times : list Z) (t : DivergenceTracker) : DivergenceTracker * list Z :=
  match times with
  | [] => (t, [])
  | now :: times =>
      let '(t, raised) := record_rejection now t in
      let '(t, alarms) := reject_all times t in
      (t, if raised : bool then now :: alarms else alarms)
  end.

(** The rejections of the window that ends at [now]. *)
Definition in_window (now : Z) (times : list Z) : list Z :=
  filter (λ x, as_secs (now - x) <= WINDOW_SECS) times.

Lemma as_secs_mono a b : a <= b → as_secs a <= as_secs b.
Proof. intros Hab. unfold as_secs. apply Z.div_le_mono; lia. Qed.
Lemma evict_window now l : Sorted Z.le l → evict now l = in_window now l.
Proof.
  intros Hs. apply Sorted_StronglySorted in Hs; [|intros ???; lia].
  induction Hs as [|x l Hs IH Hx]; [done|]. simpl. destruct (Z.ltb_spec WINDOW_SECS (as_secs (now - x))).
  - unfold in_window. rewrite filter_cons_False by lia. exact IH.
  - unfold in_window. rewrite filter_cons_True by lia. f_equal.
    symmetry. clear -Hx H. revert H. induction Hx as [|y l Hy Hx IH]; intros H; [done|].
    rewrite filter_cons_True; [by rewrite IH|]. pose proof (as_secs_mono (now - y) (now - x)). lia.
Qed.
Lemma in_window_app now a b : in_window now (a ++ b) = in_window now a ++ in_window now b.
Proof. apply filter_app. Qed.
(** A later window sees nothing that an earlier one dropped. *)
Lemma in_window_later now now' l : now <= now' → in_window now' (in_window now l) = in_window now' l.
Proof.
  intros Hn. unfold in_window. rewrite list_filter_filter. apply list_filter_iff. intros x.
  pose proof (as_secs_mono (now - x) (now' - x)). lia.
Qed.
Lemma in_window_sorted now l : StronglySorted Z.le l → Sorted Z.le (in_window now l).
Proof.
  intros Hs. apply StronglySorted_Sorted. induction Hs as [|x l Hs IH Hx]; [constructor|].
  unfold in_window. rewrite filter_cons. case_decide; [|done]. constructor; [done|].
  rewrite Forall_forall in Hx |- *. intros y Hy. apply Hx. by apply list_elem_of_filter in Hy as [_ ?].
Qed.
Lemma in_window_now now : in_window now [now] = [now].
Proof. unfold in_window. rewrite filter_cons_True; [done|]. rewrite Z.sub_diag. by vm_compute. Qed.

Lemma reject_all_snoc times now t :
  reject_all (times ++ [now]) t =
    let '(t1, alarms) := reject_all times t in
    let '(t2, raised) := record_rejection now t1 in
    (t2, if raised then alarms ++ [now] else alarms).
Proof.
  revert t. induction times as [|x times IH]; intros t; cbn [app reject_all].
  - by destruct (record_rejection now t) as [t2 []].
  - destruct (record_rejection x t) as [t1 r]. rewrite IH. destruct (reject_all times t1) as [t2 al].
    destruct (record_rejection now t2) as [t3 []]; by destruct r.
Qed.

(** What the tracker knows after [times]. *)
Record tracks (times alarms : list Z) (t : DivergenceTracker) : Prop := {
  tr_sorted : Sorted Z.le (recent_rejections t);
  tr_recent : ∀ now, Forall (λ x, x <= now) times →
    in_window now (recent_rejections t) = in_window now times;
  tr_total : total_rejections t = Z.min (Z.of_nat (length times)) U64_MAX;
  tr_alarm : last_alarm_at t = last alarms;
}.
(** When the alarm is due. *)
Definition alarm_due (times alarms : list Z) (now : Z) : bool :=
  (ALARM_THRESHOLD <=? length (in_window now (times ++ [now])))%nat &&
  match last alarms with Some a => ALARM_COOLDOWN_SECS <=? as_secs (now - a) | None => true end.

Lemma sorted_snoc (l : list Z) x : StronglySorted Z.le (l ++ [x]) → StronglySorted Z.le l ∧ Forall (λ y, y <= x) l.
Proof.
  induction l as [|y l IH]; simpl; intros Hs; [split; constructor|].
  apply StronglySorted_inv in Hs as [Hs Hy]. destruct (IH Hs) as [H1 H2]. apply Forall_app in Hy as [Hy Hx].
  rewrite Forall_singleton in Hx. split; [by apply SSorted_cons|apply Forall_cons; by split].
Qed.

Lemma record_tracks times alarms t now :
  StronglySorted Z.le (times ++ [now]) → tracks times alarms t →
  let '(t', raised) := record_rejection now t in
  raised = alarm_due times alarms now ∧
  tracks (times ++ [now]) (if raised : bool then alarms ++ [now] else alarms) t' ∧
  recent_rejections t' = in_window now (times ++ [now]).
Proof.
  intros Hsort [Hs Hr Ht Ha]. destruct (sorted_snoc _ _ Hsort) as [_ Hn].
  assert (E : evict now (recent_rejections t) ++ [now] = in_window now (times ++ [now])).
  { by rewrite evict_window, in_window_app, in_window_now, Hr. }
  assert (Htr : ∀ t' al, recent_rejections t' = in_window now (times ++ [now]) →
    total_rejections t' = saturating_add U64_MAX (total_rejections t) 1 → last_alarm_at t' = last al →
    tracks (times ++ [now]) al t').
  { intros t' al E1 E2 E3. split; [rewrite E1; by apply in_window_sorted| | |done].
    - intros now' Hn'. rewrite E1. apply in_window_later. apply Forall_app in Hn' as [_ Hn'].
      by rewrite Forall_singleton in Hn'.
    - rewrite E2, Ht, length_app. unfold saturating_add, U64_MAX. simpl. lia. }
  unfold record_rejection, alarm_due. rewrite E. cbv zeta.
  match goal with |- context [match last_alarm_at ?x with _ => _ end] =>
    change (last_alarm_at x) with (last_alarm_at t) end. rewrite Ha.
  destruct (ALARM_THRESHOLD <=? _)%nat; cbn [andb].
  - destruct (match last alarms with Some _ => _ | None => _ end) eqn:Em.
    + split; [done|]. split; [|done]. apply Htr; [done|done|]. by rewrite last_snoc.
    + split; [done|]. split; [|done]. by apply Htr.
  - split; [done|]. split; [|done]. by apply Htr.
Qed.

(** After any rejections in time order the tracker knows exactly those of the
    last five minutes and the number of all, and the next one raises the alarm
    exactly when there are then a hundred in the window and the last alarm is a
    minute old: alarms are never missed and never closer than the cooldown. *)
Theorem divergence_alarm_exact times now :
  StronglySorted Z.le (times ++ [now]) →
  let '(t, alarms) := reject_all times DivergenceTracker_default in
  let '(t', raised) := record_rejection now t in
  raised = alarm_due times alarms now ∧
  divergence_stats t' = (length (in_window now (times ++ [now])),
    Z.min (Z.of_nat (S (length times))) U64_MAX).
Proof.
  intros Hs.
  assert (Ht : ∀ l, StronglySorted Z.le l → let '(t, alarms) := reject_all l DivergenceTracker_default in tracks l alarms t).
  { intros l. induction l as [|x l IH] using rev_ind; intros Hl.
    - by split.
    - rewrite reject_all_snoc. destruct (sorted_snoc _ _ Hl) as [Hl' _]. specialize (IH Hl').
      destruct (reject_all l DivergenceTracker_default) as [t alarms].
      pose proof (record_tracks l alarms t x Hl IH) as Hr. destruct (record_rejection x t) as [t' r]. apply Hr. }
  destruct (sorted_snoc _ _ Hs) as [Hs' _]. specialize (Ht times Hs').
  destruct (reject_all times DivergenceTracker_default) as [t alarms].
  pose proof (record_tracks times alarms t now Hs Ht) as Hr. destruct (record_rejection now t) as [t' r].
  destruct Hr as (Hd & Htr & E). split; [done|]. unfold divergence_stats.
  rewrite E, (tr_total _ _ _ Htr), length_app. simpl. by rewrite Nat.add_comm.
Qed.

(** Two rejections, seven minutes apart. *)
Lemma divergence_alarm_exact_witness :
  divergence_stats (record_rejection 420000000000 (reject_all [0] DivergenceTracker_default).1).1 = (1%nat, 2).
Proof.
  assert (Hs : StronglySorted Z.le ([0] ++ [420000000000])) by (repeat constructor; lia).
  exact (proj2 (divergence_alarm_exact [0] 420000000000 Hs)).
Defined.
