(* ===== verification/Evm.v ===== *)
(** * The EVM adapter

    Models crates/sentrix-evm: the view of the accounts that the interpreter
    reads (database.rs), the call of the interpreter (executor.rs), writing its
    result back (writeback.rs) and the fee rule (gas.rs).  The interpreter
    itself, revm, is the class [Revm]. *)

From S2P Require Import Prelude Bytes Keys Account Authority TrieState Chain.

(** ** Gas *)

Definition INITIAL_BASE_FEE : Z := 10000.
Definition GAS_TARGET : Z := 15000000.
Definition TX_GAS_LIMIT_CAP : Z := 16777216.
Definition BASE_FEE_CHANGE_DENOMINATOR : Z := 8.
Definition MIN_BASE_FEE : Z := 1.

Definition next_base_fee (parent_base_fee parent_gas_used : Z) : Z :=
  if parent_gas_used =? GAS_TARGET then parent_base_fee
  else if GAS_TARGET <? parent_gas_used then
    let excess := saturating_sub parent_gas_used GAS_TARGET in
    let delta := saturating_mul U64_MAX parent_base_fee excess / GAS_TARGET / BASE_FEE_CHANGE_DENOMINATOR in
    let delta := Z.max delta 1 in
    saturating_add U64_MAX parent_base_fee delta
  else
    let deficit := saturating_sub GAS_TARGET parent_gas_used in
    let delta := saturating_mul U64_MAX parent_base_fee deficit / GAS_TARGET / BASE_FEE_CHANGE_DENOMINATOR in
    Z.max (saturating_sub parent_base_fee delta) MIN_BASE_FEE.

(** The burned part and the producer's part. *)
Definition calculate_tx_fee (gas_used base_fee priority_fee : Z) : Z * Z :=
  (saturating_mul U64_MAX gas_used base_fee, saturating_mul U64_MAX gas_used priority_fee).

(** ** Data of the interpreter *)

Definition U256_MAX : Z := 2 ^ 256 - 1.
Abbreviation Address := bytes (only parsing).
Definition ADDRESS_ZERO : Address := replicate 20 0.
Definition KECCAK_EMPTY : bytes := EMPTY_CODE_HASH.
(** One sentri in wei. *)
Definition WEI_PER_SENTRI : Z := 10000000000.

Record AccountInfo := mkInfo {
  ai_balance : Z; ai_nonce : Z; ai_code_hash : bytes; ai_code : option bytes;
}.

(** What the interpreter returns for an account: its new contents, the storage
    slots with their value before and after, and two flags. *)
Record EvmAccount := mkEvmAccount {
  ea_info : AccountInfo;
  ea_storage : gmap Z (Z * Z);
  ea_touched : bool;
  ea_selfdestructed : bool;
}.
Abbreviation EvmState := (gmap Address EvmAccount) (only parsing).
(** [EvmStorageSlot::is_changed] *)
Definition is_changed (slot : Z * Z) : bool := negb (slot.1 =? slot.2).

Inductive TxKind := Call (target : Address) | Create.
Record TxEnv := mkTxEnv {
  te_caller : Address; te_kind : TxKind; te_data : bytes; te_value : Z;
  te_gas_limit : Z; te_gas_price : Z; te_nonce : Z; te_chain_id : option Z;
}.
Record Log := mkLog { log_address : Address; log_topics : list bytes; log_data : bytes }.
Inductive Output := Output_Create (runtime : bytes) (address : option Address) | Output_Call (data : bytes).
Inductive ExecutionResult :=
  | ExecSuccess (gas_used : Z) (logs : list Log) (output : Output)
  | ExecRevert (gas_used : Z) (logs : list Log) (output : bytes)
  | ExecHalt (gas_used : Z) (reason : string).

(** The context of a call: the chain and the checks that are switched off. *)
Record EvmContext := mkContext {
  ec_chain_id : Z; ec_disable_balance_check : bool; ec_disable_nonce_check : bool;
  ec_disable_base_fee : bool; ec_basefee : Z; ec_gas_limit : Z;
}.

Record SentrixEvmDb := mkEvmDb {
  ed_accounts : gmap Address AccountInfo;
  ed_code : gmap bytes bytes;
  ed_storage : gmap (Address * Z) Z;
  ed_block_hashes : gmap Z bytes;
}.
#[global] Instance SentrixEvmDb_eta : Eta SentrixEvmDb := λ r,
  mkEvmDb (ed_accounts r) (ed_code r) (ed_storage r) (ed_block_hashes r).

(** The interpreter, the check on a complete [TxEnv], the value of a decoded
    EIP-2718 envelope, [U256::from_str_radix(_, 16)] and Keccak-256. *)
Class Revm := {
  transact : EvmContext → SentrixEvmDb → TxEnv → ExecutionResult * EvmState + string;
  tx_env_complete : TxEnv → bool;
  envelope_value : bytes → option Z;
  u256_from_hex : string → option Z;
  keccak256 : bytes → bytes;
}.

(** ** database.rs *)

Section evm.
Context `{Revm, Hex, HexDecode, HashOrder}.
Implicit Types (db : AccountDB) (ed : SentrixEvmDb).

Definition parse_sentrix_address (addr : string) : option Address :=
  let hex_str := strip_0x addr in
  if negb (String.length hex_str =? 40)%nat then None
  else match hex_decode hex_str with
       | Some b => if (length b =? 20)%nat then Some b else None
       | None => None
       end.
Definition address_to_sentrix (addr : Address) : string := "0x" +:+ hex_encode addr.

Definition SentrixEvmDb_new : SentrixEvmDb := mkEvmDb ∅ ∅ ∅ ∅.
Definition insert_account (address : Address) (info : AccountInfo) ed : SentrixEvmDb :=
  ed <| ed_accounts := <[address := info]> (ed_accounts ed) |>.
Definition insert_code (hash code : bytes) ed : SentrixEvmDb :=
  ed <| ed_code := <[hash := code]> (ed_code ed) |>.
Definition insert_storage (address : Address) (slot value : Z) ed : SentrixEvmDb :=
  ed <| ed_storage := <[(address, slot) := value]> (ed_storage ed) |>.
Definition insert_block_hash (number : Z) (hash : bytes) ed : SentrixEvmDb :=
  ed <| ed_block_hashes := <[number := hash]> (ed_block_hashes ed) |>.

Definition account_info (a : Account) : AccountInfo :=
  mkInfo (saturating_mul U256_MAX (acct_balance a) WEI_PER_SENTRI) (acct_nonce a)
    (if bool_decide (acct_code_hash a = EMPTY_CODE_HASH) then KECCAK_EMPTY else acct_code_hash a) None.
Definition load_entry ed (e : string * Account) : SentrixEvmDb :=
  match parse_sentrix_address e.1 with
  | Some addr => insert_account addr (account_info e.2) ed
  | None => ed
  end.
Definition load_code db ed (e : string * Account) : SentrixEvmDb :=
  if bool_decide (acct_code_hash e.2 = EMPTY_CODE_HASH) then ed
  else match get_contract_code db (hex_encode (acct_code_hash e.2)) with
       | Some bytecode => insert_code (acct_code_hash e.2) bytecode ed
       | None => ed
       end.
(** The slot that an entry of the storage map stands for. *)
Definition storage_slot (e : string * bytes) : option (Address * Z * Z) :=
  match split_colon e.1 with
  | Some (addr_part, slot_part) =>
      match parse_sentrix_address addr_part with
      | Some addr =>
          if negb (String.length slot_part =? 64)%nat then None
          else match hex_decode slot_part with
               | Some slot_bytes =>
                   if negb (length slot_bytes =? 32)%nat || negb (length e.2 =? 32)%nat then None
                   else Some (addr, of_be_bytes slot_bytes, of_be_bytes e.2)
               | None => None
               end
      | None => None
      end
  | None => None
  end.
Definition load_slot ed (e : string * bytes) : SentrixEvmDb :=
  match storage_slot e with
  | Some (addr, slot, value) => insert_storage addr slot value ed
  | None => ed
  end.
Definition from_account_db db : SentrixEvmDb :=
  let ed := foldl load_entry SentrixEvmDb_new (hm_entries (accounts db)) in
  let ed := foldl (load_code db) ed (hm_entries (accounts db)) in
  foldl load_slot ed (hm_entries (contract_storage db)).

Definition load_account (address_str : string) db ed : SentrixEvmDb :=
  match parse_sentrix_address address_str with
  | Some addr =>
      let code_hash := match accounts db !! address_str with
        | Some a => if bool_decide (acct_code_hash a = EMPTY_CODE_HASH) then KECCAK_EMPTY else acct_code_hash a
        | None => KECCAK_EMPTY
        end in
      insert_account addr
        (mkInfo (saturating_mul U256_MAX (get_balance db address_str) WEI_PER_SENTRI)
           (get_nonce db address_str) code_hash None) ed
  | None => ed
  end.
Definition load_block_hashes (blocks : list (Z * string)) ed : SentrixEvmDb :=
  foldl (λ ed b, match hex_decode b.2 with
                 | Some h => if (length h =? 32)%nat then insert_block_hash b.1 h ed else ed
                 | None => ed
                 end) ed blocks.

(** The [Database] trait. *)
Definition basic ed (address : Address) : option AccountInfo := ed_accounts ed !! address.
Definition code_by_hash ed (code_hash : bytes) : bytes + string :=
  match ed_code ed !! code_hash with
  | Some code => inl code
  | None => inr ("code hash 0x" +:+ hex_encode code_hash +:+ " not found")
  end.
Definition storage ed (address : Address) (index : Z) : Z := default 0 (ed_storage ed !! (address, index)).
Definition block_hash ed (number : Z) : bytes := default (replicate 32 0) (ed_block_hashes ed !! number).

(** ** executor.rs *)

Record TxReceipt := mkReceipt {
  rc_success : bool; rc_gas_used : Z; rc_contract_address : option Address;
  rc_logs : list Log; rc_output : bytes;
}.

Definition evm_context (read_only disable_base_fee_post_fork : bool) (block_base_fee chain_id : Z) : EvmContext :=
  mkContext chain_id read_only read_only (read_only || disable_base_fee_post_fork) block_base_fee BLOCK_GAS_LIMIT.

(** The receipt of a finished execution; a halt is an error. *)
Definition receipt_of (r : ExecutionResult) : TxReceipt + string :=
  match r with
  | ExecSuccess gas logs (Output_Create runtime addr) => inl (mkReceipt true gas addr logs runtime)
  | ExecSuccess gas logs (Output_Call data) => inl (mkReceipt true gas None logs data)
  | ExecRevert gas logs output => inl (mkReceipt false gas None logs output)
  | ExecHalt gas reason =>
      inr ("EVM halt (" +:+ reason +:+ ") — gas_used=" +:+ pretty gas +:+ "; not a contract revert")
  end.
Definition wrong_chain (tx : TxEnv) (chain_id : Z) : option Z :=
  match te_chain_id tx with
  | Some c => if negb (c =? chain_id) then Some c else None
  | None => None
  end.
Definition execute_tx_inner ed (tx : TxEnv) (block_base_fee : Z) (read_only : bool) (chain_id : Z)
    (disable_base_fee_post_fork : bool) : TxReceipt * EvmState + string :=
  match wrong_chain tx chain_id with
  | Some tx_chain_id =>
      inr ("chain_id mismatch: tx signed for chain " +:+ pretty tx_chain_id
           +:+ ", executor configured for chain " +:+ pretty chain_id)
  | None =>
      match transact (evm_context read_only disable_base_fee_post_fork block_base_fee chain_id) ed tx with
      | inr e => inr ("EVM execution error: " +:+ e)
      | inl (r, state) => match receipt_of r with inl receipt => inl (receipt, state) | inr e => inr e end
      end
  end.
Definition execute_tx_with_state ed tx block_base_fee chain_id :=
  execute_tx_inner ed tx block_base_fee false chain_id false.
Definition execute_tx_with_state_gated ed tx block_base_fee chain_id gas_fix_active :=
  execute_tx_inner ed tx block_base_fee false chain_id gas_fix_active.
Definition execute_call_with_state ed tx block_base_fee chain_id :=
  execute_tx_inner ed tx block_base_fee true chain_id false.
Definition receipt_only (r : TxReceipt * EvmState + string) : TxReceipt + string :=
  match r with inl (receipt, _) => inl receipt | inr e => inr e end.
Definition execute_tx ed tx block_base_fee chain_id :=
  receipt_only (execute_tx_with_state ed tx block_base_fee chain_id).
Definition execute_call ed tx block_base_fee chain_id :=
  receipt_only (execute_call_with_state ed tx block_base_fee chain_id).

(** ** writeback.rs *)

(** [(wei / 1e10).try_into().unwrap_or(u64::MAX)] *)
Definition wei_to_sentri (wei : Z) : Z := Z.min (wei / WEI_PER_SENTRI) U64_MAX.
(** [format!("{slot:064x}")]: the 32 bytes of the slot, most significant first. *)
Definition slot_hex (slot : Z) : string := hex_encode (to_be_bytes 32 slot).

Definition commit_code (addr_str : string) (info : AccountInfo) db : AccountDB :=
  match ai_code info with
  | Some code_bytes =>
      if bool_decide (code_bytes = []) then db
      else set_contract addr_str (ai_code_hash info)
             (store_contract_code (hex_encode (ai_code_hash info)) code_bytes db)
  | None => db
  end.
Definition changed_slots (acc : EvmAccount) : list (Z * Z) :=
  sort_by_key Z.le ((λ e, (e.1, e.2.2)) <$>
    filter (λ e, is_changed e.2 = true) (map_to_list (ea_storage acc))).
Definition commit_slots (addr_str : string) (slots : list (Z * Z)) db : AccountDB :=
  foldl (λ db e, store_contract_storage addr_str (slot_hex e.1) (to_be_bytes 32 e.2) db) db slots.
Definition commit_account db (e : Address * EvmAccount) : AccountDB :=
  let addr_str := address_to_sentrix e.1 in
  let info := ea_info e.2 in
  if ea_selfdestructed e.2 then set_contract addr_str EMPTY_CODE_HASH (set_balance addr_str 0 db)
  else
    let db := set_balance addr_str (wei_to_sentri (ai_balance info)) db in
    let db := set_nonce addr_str (ai_nonce info) db in
    let db := commit_code addr_str info db in
    commit_slots addr_str (changed_slots e.2) db.
Definition touched_accounts (state : EvmState) : list (Address * EvmAccount) :=
  sort_by_key bytes_le (filter (λ e, ea_touched e.2 = true) (map_to_list state)).
Definition commit_state_to_account_db (state : EvmState) db : AccountDB :=
  foldl commit_account db (touched_accounts state).
End evm.

(** ** The fee rule *)

Lemma fee_share_le p x :
  0 <= p <= U64_MAX → 0 <= x <= GAS_TARGET →
  0 <= saturating_mul U64_MAX p x / GAS_TARGET / BASE_FEE_CHANGE_DENOMINATOR <= p / 8.
Proof.
  unfold saturating_mul, GAS_TARGET, BASE_FEE_CHANGE_DENOMINATOR. intros Hp Hx.
  assert (Hm : 0 <= Z.min U64_MAX (p * x) <= p * 15000000) by nia.
  split; [repeat apply Z.div_pos; lia|]. apply Z.div_le_mono; [lia|]. apply Z.div_le_upper_bound; lia.
Qed.

(** One block moves the base fee by at most an eighth, or one sentri when that is
    more, towards the target, and never below the minimum. *)
Theorem next_base_fee_step p g :
  MIN_BASE_FEE <= p <= U64_MAX → 0 <= g <= BLOCK_GAS_LIMIT →
  let f := next_base_fee p g in
  MIN_BASE_FEE <= f <= U64_MAX ∧
  (g = GAS_TARGET → f = p) ∧
  (GAS_TARGET < g → f = U64_MAX ∨ p < f <= p + Z.max 1 (p / 8)) ∧
  (g < GAS_TARGET → p - p / 8 <= f <= p).
Proof.
  intros Hp Hg. unfold next_base_fee.
  pose proof (fee_share_le p (saturating_sub g GAS_TARGET)) as H1.
  pose proof (fee_share_le p (saturating_sub GAS_TARGET g)) as H2.
  unfold saturating_sub, saturating_add, MIN_BASE_FEE, GAS_TARGET, BLOCK_GAS_LIMIT in *.
  specialize (H1 ltac:(lia)). specialize (H2 ltac:(lia)).
  set (d1 := saturating_mul _ _ _ / _ / _) in *. set (d2 := saturating_mul _ _ (Z.max 0 (15000000 - g)) / _ / _) in *.
  assert (Hd : p / 8 <= p / 1) by (apply Z.div_le_compat_l; lia). rewrite Z.div_1_r in Hd.
  destruct (Z.eqb_spec g 15000000); [lia|]. destruct (Z.ltb_spec 15000000 g); [|lia].
  specialize (H1 ltac:(lia)). lia.
Qed.
