(* ===== verification/EvmProps.v ===== *)
(** * What an EVM transaction leaves behind

    The view of the accounts that the interpreter reads, what writing its result
    back does to the view of the next transaction, and what it does to the
    supply.  Both need every account to be stored under the lower-case spelling
    of its address; the last section shows what happens otherwise. *)

From S2P Require Import Prelude Bytes Keys Account Authority TrieState Chain Evm.

Definition byte_list (l : bytes) : Prop := Forall (λ x, 0 <= x < 256) l.
Definition valid_address (a : Address) : Prop := length a = 20%nat ∧ byte_list a.
Definition in_u256 (x : Z) : Prop := 0 <= x < 256 ^ Z.of_nat 32.

Lemma to_le_bytes_bytes n x : byte_list (to_le_bytes n x).
Proof. revert x. induction n as [|n IH]; intros x; constructor; [by apply Z.mod_pos_bound|apply IH]. Qed.
Lemma to_be_bytes_bytes n x : byte_list (to_be_bytes n x).
Proof. apply Forall_reverse, to_le_bytes_bytes. Qed.

Section evm.
Context `{Revm, Hex, HexDecode, HashOrder, !HexLaws, !HexDecodeLaws}.
Implicit Types (db : AccountDB) (a : Address).

(** ** Spellings *)

Lemma parse_address_to_sentrix a : valid_address a → parse_sentrix_address (address_to_sentrix a) = Some a.
Proof.
  intros [Hl Hb]. unfold parse_sentrix_address, address_to_sentrix.
  change (strip_0x ("0x" +:+ hex_encode a)) with (hex_encode a).
  rewrite hex_length, Hl, (hex_roundtrip a Hb). simpl. by rewrite Hl.
Qed.
Lemma address_to_sentrix_inj a b :
  valid_address a → valid_address b → address_to_sentrix a = address_to_sentrix b → a = b.
Proof.
  intros Ha Hb E. pose proof (parse_address_to_sentrix a Ha) as Ea. rewrite E in Ea.
  rewrite (parse_address_to_sentrix b Hb) in Ea. congruence.
Qed.
Lemma hex_no_colon b : byte_list b → no_colon (hex_encode b).
Proof.
  intros Hb Hin. pose proof (hex_roundtrip b Hb) as E.
  rewrite hex_decode_none in E; [done|]. destruct (forallb _ _) eqn:Ef; [|done].
  rewrite forallb_forall in Ef. apply list_elem_of_In in Hin. by specialize (Ef _ Hin).
Qed.
Lemma address_no_colon a : valid_address a → no_colon (address_to_sentrix a).
Proof.
  intros [_ Hb]. unfold no_colon, address_to_sentrix. simpl.
  rewrite !not_elem_of_cons. split_and!; [done..|by apply hex_no_colon].
Qed.
Lemma slot_hex_inj s t : in_u256 s → in_u256 t → slot_hex s = slot_hex t → s = t.
Proof.
  intros Hs Ht E. apply (to_be_bytes_inj 32); [done..|]. apply hex_inj; [apply to_be_bytes_bytes..|done].
Qed.
Lemma storage_key_inj a b s t :
  valid_address a → valid_address b → in_u256 s → in_u256 t →
  storage_key (address_to_sentrix a) (slot_hex s) = storage_key (address_to_sentrix b) (slot_hex t) → a = b ∧ s = t.
Proof.
  intros Ha Hb Hs Ht E. apply join_inj in E as [Ea Es]; [|by apply address_no_colon..].
  split; [by apply address_to_sentrix_inj|by apply slot_hex_inj].
Qed.
Lemma storage_slot_canonical a s v :
  valid_address a → in_u256 s →
  storage_slot (storage_key (address_to_sentrix a) (slot_hex s), v) =
  if (length v =? 32)%nat then Some (a, s, of_be_bytes v) else None.
Proof.
  intros Ha Hs. unfold storage_slot, storage_key. cbn [fst snd].
  rewrite split_colon_app by by apply address_no_colon.
  rewrite (parse_address_to_sentrix a Ha). unfold slot_hex.
  rewrite hex_length, length_to_be_bytes. simpl.
  rewrite hex_roundtrip by apply to_be_bytes_bytes. rewrite length_to_be_bytes. simpl.
  destruct (length v =? 32)%nat; simpl; [|done]. by rewrite of_to_be_bytes.
Qed.

(** Every account and every slot is stored under the spelling of writeback.rs. *)
Record canonical db : Prop := {
  can_account k acc a :
    accounts db !! k = Some acc → parse_sentrix_address k = Some a → k = address_to_sentrix a;
  can_slot k v a s x :
    contract_storage db !! k = Some v → storage_slot (k, v) = Some (a, s, x) →
    k = storage_key (address_to_sentrix a) (slot_hex s);
}.

(** ** The view *)

Definition entry_of (e : string * Account) : option (Address * AccountInfo) :=
  (λ a, (a, account_info e.2)) <$> parse_sentrix_address e.1.
Definition slot_of (e : string * bytes) : option (Address * Z * Z) := storage_slot e.

Lemma load_entries_accounts ed l : ed_accounts (foldl load_entry ed l) = load_map entry_of (ed_accounts ed) l.
Proof.
  revert ed. induction l as [|e l IH]; intros ed; [done|]. simpl. rewrite IH. unfold load_map. simpl.
  f_equal. unfold load_entry, entry_of. by destruct (parse_sentrix_address e.1).
Qed.
Lemma load_codes_accounts db ed l : ed_accounts (foldl (load_code db) ed l) = ed_accounts ed.
Proof.
  revert ed. induction l as [|e l IH]; intros ed; [done|]. simpl. rewrite IH. unfold load_code.
  case_bool_decide; [done|]. by destruct (get_contract_code _ _).
Qed.
Lemma load_slots_accounts ed l : ed_accounts (foldl load_slot ed l) = ed_accounts ed.
Proof.
  revert ed. induction l as [|e l IH]; intros ed; [done|]. simpl. rewrite IH. unfold load_slot.
  by destruct (storage_slot e) as [[[??]?]|].
Qed.
Lemma load_entries_storage ed l : ed_storage (foldl load_entry ed l) = ed_storage ed.
Proof.
  revert ed. induction l as [|e l IH]; intros ed; [done|]. simpl. rewrite IH. unfold load_entry.
  by destruct (parse_sentrix_address e.1).
Qed.
Lemma load_codes_storage db ed l : ed_storage (foldl (load_code db) ed l) = ed_storage ed.
Proof.
  revert ed. induction l as [|e l IH]; intros ed; [done|]. simpl. rewrite IH. unfold load_code.
  case_bool_decide; [done|]. by destruct (get_contract_code _ _).
Qed.
Lemma load_slots_storage ed l : ed_storage (foldl load_slot ed l) = load_map slot_of (ed_storage ed) l.
Proof.
  revert ed. induction l as [|e l IH]; intros ed; [done|]. simpl. rewrite IH. unfold load_map. simpl.
  f_equal. unfold load_slot, slot_of. by destruct (storage_slot e) as [[[??]?]|].
Qed.

Lemma view_accounts db : ed_accounts (from_account_db db) = load_map entry_of ∅ (hm_entries (accounts db)).
Proof. unfold from_account_db. by rewrite load_slots_accounts, load_codes_accounts, load_entries_accounts. Qed.
Lemma view_storage db : ed_storage (from_account_db db) = load_map slot_of ∅ (hm_entries (contract_storage db)).
Proof. unfold from_account_db. by rewrite load_slots_storage, load_codes_storage, load_entries_storage. Qed.

Lemma elem_of_entries {K V} `{Countable K} (m : gmap K V) k v : (k, v) ∈ hm_entries m ↔ m !! k = Some v.
Proof. by rewrite hm_entries_perm, elem_of_map_to_list. Qed.

(** The interpreter sees exactly the stored accounts. *)
Lemma basic_view db a :
  canonical db → valid_address a →
  basic (from_account_db db) a = account_info <$> accounts db !! address_to_sentrix a.
Proof.
  intros Hc Ha. unfold basic. rewrite view_accounts.
  assert (Hk : ∀ e info, e ∈ hm_entries (accounts db) → entry_of e = Some (a, info) →
    accounts db !! address_to_sentrix a = Some e.2 ∧ info = account_info e.2).
  { intros [k acc] info He%elem_of_entries Ef. unfold entry_of in Ef. simpl in *.
    destruct (parse_sentrix_address k) as [a'|] eqn:Ep; [|done]. injection Ef as -> <-.
    rewrite <- (can_account db Hc k acc a He Ep). done. }
  destruct (accounts db !! address_to_sentrix a) as [acc|] eqn:E; simpl.
  - apply (load_map_at entry_of ∅ _ a (address_to_sentrix a, acc)).
    + by apply elem_of_entries.
    + unfold entry_of. simpl. by rewrite parse_address_to_sentrix.
    + intros e' v' He' Ef'. destruct (Hk e' v' He' Ef') as [E' ->]. by simplify_eq.
  - rewrite load_map_other; [apply lookup_empty|]. intros e v He Ef. by destruct (Hk e v He Ef).
Qed.

(** The value of a slot. *)
Definition slot_value (v : option bytes) : Z :=
  match v with Some v => if (length v =? 32)%nat then of_be_bytes v else 0 | None => 0 end.
Lemma storage_view db a s :
  canonical db → valid_address a → in_u256 s →
  storage (from_account_db db) a s =
  slot_value (contract_storage db !! storage_key (address_to_sentrix a) (slot_hex s)).
Proof.
  intros Hc Ha Hs. unfold storage. rewrite view_storage. set (k := storage_key _ _).
  assert (Hk : ∀ e x, e ∈ hm_entries (contract_storage db) → slot_of e = Some ((a, s), x) →
    contract_storage db !! k = Some e.2 ∧ length e.2 = 32%nat ∧ x = of_be_bytes e.2).
  { intros [k' v] x He%elem_of_entries Ef. simpl in *.
    pose proof (can_slot db Hc k' v a s x He Ef) as ->. fold k in He. split; [done|].
    unfold slot_of in Ef. rewrite (storage_slot_canonical a s v Ha Hs) in Ef.
    destruct (Nat.eqb_spec (length v) 32); [by simplify_eq|done]. }
  destruct (contract_storage db !! k) as [v|] eqn:E; simpl.
  - pose proof (storage_slot_canonical a s v Ha Hs) as Ev. destruct (Nat.eqb_spec (length v) 32) as [El|El].
    + rewrite (load_map_at slot_of ∅ _ (a, s) (k, v) (of_be_bytes v)); [done|by apply elem_of_entries|done|].
      intros e' v' He' Ef'. destruct (Hk e' v' He' Ef') as (E' & _ & ->). by simplify_eq.
    + rewrite load_map_other; [by rewrite lookup_empty|]. intros e x He Ef.
      destruct (Hk e x He Ef) as (E' & El' & _). by simplify_eq.
  - rewrite load_map_other; [by rewrite lookup_empty|]. intros e x He Ef. by destruct (Hk e x He Ef).
Qed.

(** ** Writing back *)

(** The stored account after a touched one is written. *)
Definition next_account (acc : EvmAccount) (old : Account) : Account :=
  if ea_selfdestructed acc then old <| acct_balance := 0 |> <| acct_code_hash := EMPTY_CODE_HASH |>
  else
    let info := ea_info acc in
    let new := old <| acct_balance := wei_to_sentri (ai_balance info) |> <| acct_nonce := ai_nonce info |> in
    match ai_code info with
    | Some (_ :: _) => new <| acct_code_hash := ai_code_hash info |>
    | _ => new
    end.
(** The slots it writes: none when it is destroyed. *)
Definition written_slots (acc : EvmAccount) : list (Z * Z) :=
  if ea_selfdestructed acc then [] else changed_slots acc.

Lemma commit_slots_accounts k slots db : accounts (commit_slots k slots db) = accounts db.
Proof. unfold commit_slots. revert db. induction slots as [|e slots IH]; intros db; [done|]. simpl. by rewrite IH. Qed.
Lemma commit_code_storage k info db : contract_storage (commit_code k info db) = contract_storage db.
Proof. unfold commit_code. destruct (ai_code info); [|done]. by case_bool_decide. Qed.

Lemma commit_account_accounts db a acc :
  let k := address_to_sentrix a in
  accounts (commit_account db (a, acc)) = <[k := next_account acc (account_or_new db k)]> (accounts db).
Proof.
  intros k. unfold commit_account, next_account. cbn [fst snd]. fold k.
  destruct (ea_selfdestructed acc).
  - unfold set_contract, set_balance, get_or_create, put_account, account_or_new. simpl.
    by rewrite !insert_insert_eq, !lookup_insert_eq.
  - rewrite commit_slots_accounts. unfold commit_code. destruct (ai_code (ea_info acc)) as [[|x code]|];
      [rewrite bool_decide_true by done|rewrite bool_decide_false by done|];
      unfold set_contract, store_contract_code, set_nonce, set_balance, get_or_create, put_account, account_or_new;
      simpl; rewrite ?insert_insert_eq, ?lookup_insert_eq; simpl; by rewrite ?insert_insert_eq, ?lookup_insert_eq.
Qed.

Definition put_slots (k : string) (m : gmap string bytes) (slots : list (Z * Z)) : gmap string bytes :=
  foldl (λ m e, <[storage_key k (slot_hex e.1) := to_be_bytes 32 e.2]> m) m slots.
Lemma commit_slots_storage k slots db :
  contract_storage (commit_slots k slots db) = put_slots k (contract_storage db) slots.
Proof.
  unfold commit_slots, put_slots. revert db. induction slots as [|e slots IH]; intros db; [done|].
  simpl. by rewrite IH.
Qed.
Lemma commit_account_storage db a acc :
  contract_storage (commit_account db (a, acc)) =
  put_slots (address_to_sentrix a) (contract_storage db) (written_slots acc).
Proof.
  unfold commit_account, written_slots. cbn [fst snd]. destruct (ea_selfdestructed acc); [done|].
  by rewrite commit_slots_storage, commit_code_storage.
Qed.

Lemma elem_of_changed_slots acc s x :
  (s, x) ∈ changed_slots acc ↔ ∃ y, ea_storage acc !! s = Some (y, x) ∧ y ≠ x.
Proof.
  unfold changed_slots. rewrite sort_by_key_perm, list_elem_of_fmap. split.
  - intros ([s' [y x']] & [= -> ->] & Hin). apply list_elem_of_filter in Hin as [Hch Hin%elem_of_map_to_list].
    exists y. split; [done|]. unfold is_changed in Hch. simpl in Hch. by destruct (Z.eqb_spec y x').
  - intros (y & Hl & Hne). exists (s, (y, x)). split; [done|]. apply list_elem_of_filter.
    split; [|by apply elem_of_map_to_list]. unfold is_changed. simpl. by destruct (Z.eqb_spec y x).
Qed.

(** What the interpreter may return: addresses and words of the right width. *)
Definition valid_account (a : Address) (acc : EvmAccount) : Prop :=
  valid_address a ∧ ∀ s y x, ea_storage acc !! s = Some (y, x) → in_u256 s ∧ in_u256 x.
Definition valid_state (state : EvmState) : Prop := ∀ a acc, state !! a = Some acc → valid_account a acc.

Lemma put_slots_at a m slots s x :
  valid_address a → Forall (λ e, in_u256 e.1) slots → (s, x) ∈ slots →
  (∀ x', (s, x') ∈ slots → x' = x) →
  put_slots (address_to_sentrix a) m slots !! storage_key (address_to_sentrix a) (slot_hex s) = Some (to_be_bytes 32 x).
Proof.
  intros Ha Hv Hin Hu. unfold put_slots. revert Hv Hin Hu. induction slots as [|[s' x'] slots IH] using rev_ind; [set_solver|].
  intros [Hv [Hs' _]%Forall_cons]%Forall_app Hin Hu. rewrite foldl_app. simpl in *.
  destruct (decide (s' = s)) as [->|Hne].
  - rewrite lookup_insert_eq. do 2 f_equal. apply Hu. set_solver.
  - assert (Hin' : (s, x) ∈ slots) by set_solver. assert (Hs : in_u256 s) by (rewrite Forall_forall in Hv; by apply (Hv (s, x))).
    rewrite lookup_insert_ne; [apply IH; set_solver|]. intros E. by apply storage_key_inj in E as [_ ?].
Qed.
Lemma put_slots_other k m slots i :
  (∀ s x, (s, x) ∈ slots → i ≠ storage_key k (slot_hex s)) → put_slots k m slots !! i = m !! i.
Proof.
  unfold put_slots. revert m. induction slots as [|[s x] slots IH]; intros m Hi; [done|]. simpl.
  rewrite IH by set_solver. apply lookup_insert_ne. intros E. by apply (Hi s x); [set_solver|].
Qed.

(** ** The whole state *)

Lemma elem_of_touched state a acc :
  (a, acc) ∈ touched_accounts state ↔ state !! a = Some acc ∧ ea_touched acc = true.
Proof.
  unfold touched_accounts. rewrite sort_by_key_perm, list_elem_of_filter, elem_of_map_to_list. simpl. tauto.
Qed.
Lemma touched_nodup state : NoDup (touched_accounts state).*1.
Proof.
  unfold touched_accounts. rewrite sort_by_key_perm.
  assert (Hs : ∀ l : list (Address * EvmAccount), NoDup l.*1 → NoDup (filter (λ e, ea_touched e.2 = true) l).*1).
  { induction l as [|e l IH]; [done|]. simpl. intros [Hn Hd]%NoDup_cons. rewrite filter_cons.
    case_decide; [|by apply IH]. simpl. apply NoDup_cons. split; [|by apply IH].
    intros (e' & E & [_ Hin]%list_elem_of_filter)%list_elem_of_fmap. apply Hn. rewrite E. by apply list_elem_of_fmap_2. }
  apply Hs, NoDup_fst_map_to_list.
Qed.

(** Each account is written under its own spelling, others are left alone. *)
Lemma commit_all_other db l k :
  (∀ a acc, (a, acc) ∈ l → k ≠ address_to_sentrix a) →
  accounts (foldl commit_account db l) !! k = accounts db !! k.
Proof.
  revert db. induction l as [|[a acc] l IH]; intros db Hk; [done|]. cbn [foldl].
  rewrite IH by set_solver. rewrite commit_account_accounts. apply lookup_insert_ne. intros E.
  apply (Hk a acc); [set_solver|done].
Qed.
Lemma commit_all_at db l a acc :
  Forall (λ e, valid_account e.1 e.2) l → NoDup l.*1 → (a, acc) ∈ l →
  accounts (foldl commit_account db l) !! address_to_sentrix a =
  Some (next_account acc (account_or_new db (address_to_sentrix a))).
Proof.
  revert db. induction l as [|[b acc'] l IH]; intros db Hv Hn Hin; [set_solver|].
  apply Forall_cons in Hv as [[Hb _] Hv]. apply NoDup_cons in Hn as [Hn Hd]. cbn [foldl fst snd] in *.
  apply elem_of_cons in Hin as [[= -> ->]|Hin].
  - rewrite commit_all_other.
    + rewrite commit_account_accounts. apply lookup_insert_eq.
    + intros c acc'' Hc E. rewrite Forall_forall in Hv. destruct (Hv _ Hc) as [Hcv _].
      apply address_to_sentrix_inj in E; [|done..]. subst c. by apply Hn, (list_elem_of_fmap_2 fst _ (b, acc'')).
  - rewrite IH by done. rewrite Forall_forall in Hv. destruct (Hv _ Hin) as [Hav _]. do 2 f_equal.
    unfold account_or_new. rewrite commit_account_accounts, lookup_insert_ne; [done|]. intros E.
    apply address_to_sentrix_inj in E; [|done..]. subst b. by apply Hn, (list_elem_of_fmap_2 fst _ (a, acc)).
Qed.
Lemma commit_all_slot_other db l i :
  (∀ a acc s x, (a, acc) ∈ l → (s, x) ∈ written_slots acc → i ≠ storage_key (address_to_sentrix a) (slot_hex s)) →
  contract_storage (foldl commit_account db l) !! i = contract_storage db !! i.
Proof.
  revert db. induction l as [|[a acc] l IH]; intros db Hi; [done|]. cbn [foldl].
  rewrite IH by set_solver. rewrite commit_account_storage. apply put_slots_other. intros s x Hs.
  apply (Hi a acc s x); [set_solver|done].
Qed.
Lemma written_valid a acc : valid_account a acc → Forall (λ e, in_u256 e.1 ∧ in_u256 e.2) (written_slots acc).
Proof.
  intros [_ Hv]. unfold written_slots. destruct (ea_selfdestructed acc); [constructor|].
  apply Forall_forall. intros [s x] (y & Hl & _)%elem_of_changed_slots. simpl. by apply (Hv s y).
Qed.
Lemma commit_all_slot_at db l a acc s x :
  Forall (λ e, valid_account e.1 e.2) l → NoDup l.*1 → (a, acc) ∈ l → (s, x) ∈ written_slots acc →
  contract_storage (foldl commit_account db l) !! storage_key (address_to_sentrix a) (slot_hex s) =
  Some (to_be_bytes 32 x).
Proof.
  revert db. induction l as [|[b acc'] l IH]; intros db Hv Hn Hin Hs; [set_solver|].
  apply Forall_cons in Hv as [Hb Hv]. apply NoDup_cons in Hn as [Hn Hd]. cbn [foldl fst snd] in *.
  apply elem_of_cons in Hin as [[= -> ->]|Hin]; [|by apply IH].
  pose proof (written_valid b acc' Hb) as Hw. rewrite commit_all_slot_other.
  - rewrite commit_account_storage. apply put_slots_at; [apply Hb| |done|].
    + eapply Forall_impl; [exact Hw|]. by intros ? [].
    + intros x'. unfold written_slots in Hs |- *. destruct (ea_selfdestructed acc'); [set_solver|].
      apply elem_of_changed_slots in Hs as (y & Hl & _). intros (y' & Hl' & _)%elem_of_changed_slots. congruence.
  - intros c acc'' s' x' Hc Hs' E. rewrite Forall_forall in Hv. rewrite Forall_forall in Hw. pose proof (Hv _ Hc) as Hcv.
    pose proof (written_valid c acc'' Hcv) as Hw'. rewrite Forall_forall in Hw'.
    apply storage_key_inj in E as [-> _]; [|apply Hb|apply Hcv|apply (Hw _ Hs)|apply (Hw' _ Hs')].
    by apply Hn, (list_elem_of_fmap_2 fst _ (c, acc'')).
Qed.

(** ** The view after writing back *)

(** What the next transaction should see of an account. *)
Definition next_info (acc : EvmAccount) (before : option AccountInfo) : AccountInfo :=
  let old := default (mkInfo 0 0 KECCAK_EMPTY None) before in
  if ea_selfdestructed acc then mkInfo 0 (ai_nonce old) KECCAK_EMPTY None
  else
    let info := ea_info acc in
    mkInfo (wei_to_sentri (ai_balance info) * WEI_PER_SENTRI) (ai_nonce info)
      (match ai_code info with Some (_ :: _) => ai_code_hash info | _ => ai_code_hash old end) None.
Definition view_account (state : EvmState) (ed : SentrixEvmDb) a : option AccountInfo :=
  match state !! a with
  | Some acc => if ea_touched acc then Some (next_info acc (basic ed a)) else basic ed a
  | None => basic ed a
  end.
Definition view_slot (state : EvmState) (ed : SentrixEvmDb) a (s : Z) : Z :=
  match state !! a with
  | Some acc =>
      if ea_touched acc && negb (ea_selfdestructed acc) then
        match ea_storage acc !! s with Some slot => if is_changed slot then slot.2 else storage ed a s | None => storage ed a s end
      else storage ed a s
  | None => storage ed a s
  end.

Lemma account_info_next acc old :
  account_info (next_account acc old) = next_info acc (Some (account_info old)).
Proof.
  assert (Hw : ∀ w, saturating_mul U256_MAX (wei_to_sentri w) WEI_PER_SENTRI = wei_to_sentri w * WEI_PER_SENTRI).
  { intros w. unfold saturating_mul. rewrite Z.min_r; [done|]. unfold wei_to_sentri, WEI_PER_SENTRI.
    pose proof (Z.le_min_r (w / 10000000000) U64_MAX). transitivity (U64_MAX * 10000000000); [nia|by vm_compute]. }
  assert (Hh : ∀ h, (if bool_decide (h = EMPTY_CODE_HASH) then KECCAK_EMPTY else h) = h)
    by (intros h; unfold KECCAK_EMPTY; by case_bool_decide).
  unfold next_account, next_info, account_info. destruct (ea_selfdestructed acc); simpl; [done|].
  destruct (ai_code (ea_info acc)) as [[|]|]; simpl; by rewrite Hw, !Hh.
Qed.

Lemma touched_valid state : valid_state state → Forall (λ e, valid_account e.1 e.2) (touched_accounts state).
Proof. intros Hv. apply Forall_forall. intros [a acc] [Hl _]%elem_of_touched. by apply Hv. Qed.

Definition slots_canonical (m : gmap string bytes) : Prop := ∀ k v a s x,
  m !! k = Some v → storage_slot (k, v) = Some (a, s, x) → k = storage_key (address_to_sentrix a) (slot_hex s).
Lemma put_slots_canonical a m slots :
  valid_address a → Forall (λ e, in_u256 e.1 ∧ in_u256 e.2) slots → slots_canonical m →
  slots_canonical (put_slots (address_to_sentrix a) m slots).
Proof.
  intros Ha Hs. unfold put_slots. revert m. induction Hs as [|[t y] slots [Ht _] _ IH]; intros m Hm; [done|].
  cbn [foldl fst snd] in *. apply IH. intros k v b s x.
  intros [[<- <-]|[_ Hk]]%lookup_insert_Some; [|by apply Hm]. rewrite (storage_slot_canonical a t _ Ha Ht).
  destruct (_ =? 32)%nat; [|done]. by intros [= -> -> _].
Qed.
Lemma commit_account_canonical db a acc :
  valid_account a acc → canonical db → canonical (commit_account db (a, acc)).
Proof.
  intros Hv [Hca Hcs]. split.
  - intros k acc' b. rewrite commit_account_accounts. intros [[<- _]|[_ Hk]]%lookup_insert_Some; [|by eapply Hca].
    rewrite (parse_address_to_sentrix a) by apply Hv. congruence.
  - rewrite commit_account_storage. apply put_slots_canonical; [apply Hv|by eapply written_valid|done].
Qed.
Lemma commit_canonical state db :
  canonical db → valid_state state → canonical (commit_state_to_account_db state db).
Proof.
  intros Hc Hv. unfold commit_state_to_account_db. pose proof (touched_valid state Hv) as Ht. revert db Hc.
  induction Ht as [|[a acc] l Ha _ IH]; intros db Hc; [done|]. apply IH. by apply commit_account_canonical.
Qed.

Lemma writeback_basic state db a :
  canonical db → valid_state state → valid_address a →
  basic (from_account_db (commit_state_to_account_db state db)) a = view_account state (from_account_db db) a.
Proof.
  intros Hc Hv Ha. pose proof (commit_canonical state db Hc Hv) as Hc'.
  pose proof (touched_valid state Hv) as Ht. pose proof (touched_nodup state) as Hn.
  unfold view_account. rewrite !basic_view by done. unfold commit_state_to_account_db.
  assert (Hother : (∀ acc, (a, acc) ∉ touched_accounts state) →
    accounts (foldl commit_account db (touched_accounts state)) !! address_to_sentrix a = accounts db !! address_to_sentrix a).
  { intros Hno. apply commit_all_other. intros b acc Hin E. rewrite Forall_forall in Ht. destruct (Ht _ Hin) as [Hb _].
    apply address_to_sentrix_inj in E; [|done..]. subst b. by apply (Hno acc). }
  destruct (state !! a) as [acc|] eqn:El; [destruct (ea_touched acc) eqn:Et|].
  - assert (Hin : (a, acc) ∈ touched_accounts state) by by apply elem_of_touched.
    rewrite (commit_all_at db _ a acc Ht Hn Hin). simpl. f_equal. rewrite account_info_next.
    unfold account_or_new. by destruct (accounts db !! address_to_sentrix a).
  - rewrite Hother; [done|]. intros acc' [??]%elem_of_touched. congruence.
  - rewrite Hother; [done|]. intros acc' [??]%elem_of_touched. congruence.
Qed.
Lemma writeback_slot state db a s :
  canonical db → valid_state state → valid_address a → in_u256 s →
  storage (from_account_db (commit_state_to_account_db state db)) a s = view_slot state (from_account_db db) a s.
Proof.
  intros Hc Hv Ha Hs. pose proof (commit_canonical state db Hc Hv) as Hc'.
  pose proof (touched_valid state Hv) as Ht. pose proof (touched_nodup state) as Hn.
  unfold view_slot. rewrite !storage_view by done. unfold commit_state_to_account_db.
  set (key := storage_key (address_to_sentrix a) (slot_hex s)). set (l := touched_accounts state) in *.
  assert (Hother : (∀ acc x, (a, acc) ∈ l → (s, x) ∉ written_slots acc) →
    slot_value (contract_storage (foldl commit_account db l) !! key) = slot_value (contract_storage db !! key)).
  { intros Hno. f_equal. apply commit_all_slot_other. intros b acc t x Hin Hx E. rewrite Forall_forall in Ht.
    pose proof (Ht _ Hin) as Hb. pose proof (written_valid b acc Hb) as Hw. rewrite Forall_forall in Hw.
    apply storage_key_inj in E as [-> ->]; [by apply (Hno acc x)|done|apply Hb|done|apply (Hw _ Hx)]. }
  assert (Hsame : (∀ acc x, state !! a = Some acc → ea_touched acc = true → (s, x) ∉ written_slots acc) →
    slot_value (contract_storage (foldl commit_account db l) !! key) = slot_value (contract_storage db !! key)).
  { intros Hno. apply Hother. intros acc x [??]%elem_of_touched. by apply Hno. }
  destruct (state !! a) as [acc|] eqn:El; [|apply Hsame; by intros ? ? [=]].
  destruct (ea_touched acc) eqn:Et; [|apply Hsame; intros ? ? [= <-]; congruence].
  assert (Hin : (a, acc) ∈ l) by by apply elem_of_touched.
  destruct (ea_selfdestructed acc) eqn:Esd; cbn [andb negb].
  { apply Hsame. intros ? ? [= <-] _. unfold written_slots. rewrite Esd. apply not_elem_of_nil. }
  assert (Hw : ∀ x, (s, x) ∈ written_slots acc ↔ (s, x) ∈ changed_slots acc) by (intros x; unfold written_slots; by rewrite Esd).
  destruct (ea_storage acc !! s) as [[y x]|] eqn:Es.
  - unfold is_changed. cbn [fst snd]. destruct (Z.eqb_spec y x) as [->|Hne]; cbn [negb].
    + apply Hsame. intros ? x' [= <-] _. rewrite Hw, elem_of_changed_slots. intros (y' & Hl & Hne'). congruence.
    + unfold key. rewrite (commit_all_slot_at db l a acc s x); [|done..|].
      * cbn [slot_value]. rewrite length_to_be_bytes. simpl. apply of_to_be_bytes. by apply (proj2 (Hv a acc El) s y x).
      * rewrite Hw, elem_of_changed_slots. by exists y.
  - apply Hsame. intros ? x' [= <-] _. rewrite Hw, elem_of_changed_slots. intros (y' & Hl & _). congruence.
Qed.

(** *** Code *)

(** The code of an account as the interpreter loads it: by the hash its account names;
    [None] when the hash is unknown. *)
Definition code_at (ed : SentrixEvmDb) a : option bytes :=
  match basic ed a with
  | Some info => if bool_decide (ai_code_hash info = KECCAK_EMPTY) then Some [] else ed_code ed !! ai_code_hash info
  | None => Some []
  end.
Definition written_code (acc : EvmAccount) : option bytes :=
  if ea_selfdestructed acc then None
  else match ai_code (ea_info acc) with Some (x :: code) => Some (x :: code) | _ => None end.
Definition hash_of (acc : EvmAccount) : bytes := ai_code_hash (ea_info acc).
(** What the next transaction should find: nothing in a destroyed account, the code
    that was deployed, or the code of before. *)
Definition view_code (state : EvmState) (ed : SentrixEvmDb) a : option bytes :=
  match state !! a with
  | Some acc =>
      if negb (ea_touched acc) then code_at ed a
      else if ea_selfdestructed acc then Some []
      else match written_code acc with Some code => Some code | None => code_at ed a end
  | None => code_at ed a
  end.
(** A code hash identifies the code: among the deployed codes and with respect to the
    stored ones, and the code of every stored contract is stored. *)
Record codes_ok (state : EvmState) db : Prop := {
  co_stored k acc : accounts db !! k = Some acc → acct_code_hash acc ≠ EMPTY_CODE_HASH →
    byte_list (acct_code_hash acc) ∧ is_Some (contract_code db !! hex_encode (acct_code_hash acc));
  co_hash a acc code : state !! a = Some acc → written_code acc = Some code →
    byte_list (hash_of acc) ∧ hash_of acc ≠ EMPTY_CODE_HASH;
  co_same a acc code b acc' code' : state !! a = Some acc → state !! b = Some acc' →
    written_code acc = Some code → written_code acc' = Some code' → hash_of acc = hash_of acc' → code = code';
  co_kept a acc code code' : state !! a = Some acc → written_code acc = Some code →
    contract_code db !! hex_encode (hash_of acc) = Some code' → code' = code;
}.

Definition code_of db (e : string * Account) : option (bytes * bytes) :=
  if bool_decide (acct_code_hash e.2 = EMPTY_CODE_HASH) then None
  else (λ code, (acct_code_hash e.2, code)) <$> contract_code db !! hex_encode (acct_code_hash e.2).
Lemma load_entries_code ed l : ed_code (foldl load_entry ed l) = ed_code ed.
Proof.
  revert ed. induction l as [|e l IH]; intros ed; [done|]. simpl. rewrite IH. unfold load_entry.
  by destruct (parse_sentrix_address e.1).
Qed.
Lemma load_codes_code db ed l : ed_code (foldl (load_code db) ed l) = load_map (code_of db) (ed_code ed) l.
Proof.
  revert ed. induction l as [|e l IH]; intros ed; [done|]. simpl. rewrite IH. unfold load_map. simpl.
  f_equal. unfold load_code, code_of, get_contract_code. case_bool_decide; [done|]. by destruct (contract_code db !! _).
Qed.
Lemma load_slots_code ed l : ed_code (foldl load_slot ed l) = ed_code ed.
Proof.
  revert ed. induction l as [|e l IH]; intros ed; [done|]. simpl. rewrite IH. unfold load_slot.
  by destruct (storage_slot e) as [[[??]?]|].
Qed.

(** The code a stored account names. *)
Definition stored_code db (hash : bytes) : option bytes :=
  if bool_decide (hash = EMPTY_CODE_HASH) then Some [] else contract_code db !! hex_encode hash.
Lemma if_same (h : bytes) : (if bool_decide (h = EMPTY_CODE_HASH) then EMPTY_CODE_HASH else h) = h.
Proof. by case_bool_decide. Qed.
Lemma code_view db a :
  canonical db → valid_address a →
  code_at (from_account_db db) a = stored_code db (acct_code_hash (account_or_new db (address_to_sentrix a))).
Proof.
  intros Hc Ha. unfold code_at, account_or_new, stored_code. rewrite (basic_view db a Hc Ha).
  destruct (accounts db !! address_to_sentrix a) as [acc|] eqn:E; simpl; [|done].
  unfold KECCAK_EMPTY. rewrite (if_same (acct_code_hash acc)). case_bool_decide as Hh; [done|]. unfold from_account_db.
  rewrite load_slots_code, load_codes_code, load_entries_code. simpl.
  destruct (contract_code db !! hex_encode (acct_code_hash acc)) as [code|] eqn:Ec.
  - apply (load_map_at (code_of db) ∅ _ (acct_code_hash acc) (address_to_sentrix a, acc)); [by apply elem_of_entries|..].
    + unfold code_of. simpl. by rewrite bool_decide_eq_false_2, Ec.
    + intros e v _ Ef. unfold code_of in Ef. case_bool_decide; [done|].
      destruct (contract_code db !! hex_encode (acct_code_hash e.2)) as [c|] eqn:Ee; simpl in Ef; [|done].
      injection Ef as Eh <-. rewrite Eh in Ee. congruence.
  - rewrite load_map_other; [apply lookup_empty|]. intros e v _ Ef. unfold code_of in Ef. case_bool_decide; [done|].
    destruct (contract_code db !! hex_encode (acct_code_hash e.2)) as [c|] eqn:Ee; simpl in Ef; [|done].
    injection Ef as Eh <-. rewrite Eh in Ee. congruence.
Qed.

Lemma commit_slots_code k slots db : contract_code (commit_slots k slots db) = contract_code db.
Proof. unfold commit_slots. revert db. induction slots as [|e slots IH]; intros db; [done|]. simpl. by rewrite IH. Qed.
Lemma commit_account_code db a acc :
  contract_code (commit_account db (a, acc)) =
  match written_code acc with Some code => <[hex_encode (hash_of acc) := code]> (contract_code db) | None => contract_code db end.
Proof.
  unfold commit_account, written_code. cbn [fst snd]. destruct (ea_selfdestructed acc); [done|].
  rewrite commit_slots_code. unfold commit_code. destruct (ai_code (ea_info acc)) as [[|x code]|]; [|done|done].
  by rewrite bool_decide_eq_true_2.
Qed.
Lemma commit_all_code_other db l key :
  (∀ a acc code, (a, acc) ∈ l → written_code acc = Some code → key ≠ hex_encode (hash_of acc)) →
  contract_code (foldl commit_account db l) !! key = contract_code db !! key.
Proof.
  revert db. induction l as [|[a acc] l IH]; intros db Hk; [done|]. cbn [foldl].
  rewrite IH by set_solver. rewrite commit_account_code. destruct (written_code acc) as [code|] eqn:Ew; [|done].
  apply lookup_insert_ne. intros E. apply (Hk a acc code); [set_solver|done|done].
Qed.
Lemma commit_all_code_at db l key code :
  (∃ a acc, (a, acc) ∈ l ∧ written_code acc = Some code ∧ hex_encode (hash_of acc) = key) →
  (∀ a acc code', (a, acc) ∈ l → written_code acc = Some code' → hex_encode (hash_of acc) = key → code' = code) →
  contract_code (foldl commit_account db l) !! key = Some code.
Proof.
  revert db. induction l as [|[b acc'] l IH] using rev_ind; intros db (a & acc & Hin & Hw & Hk) Hu; [set_solver|].
  rewrite foldl_app. cbn [foldl]. rewrite commit_account_code.
  destruct (decide (is_Some (written_code acc') ∧ hex_encode (hash_of acc') = key)) as [[[c Ec] Ek]|Hno].
  - rewrite Ec, Ek, lookup_insert_eq. f_equal. apply (Hu b acc'); [set_solver|done..].
  - assert (Hl : contract_code (foldl commit_account db l) !! key = Some code).
    { apply IH; [exists a, acc; split_and!; [|done..]|set_solver].
      apply elem_of_app in Hin as [|Hin%list_elem_of_singleton]; [done|]. injection Hin as -> ->. destruct Hno. eauto. }
    destruct (written_code acc') as [c|] eqn:Ec; [|done]. rewrite lookup_insert_ne; [done|]. intros E. apply Hno. eauto.
Qed.

Lemma writeback_code state db a :
  canonical db → valid_state state → codes_ok state db → valid_address a →
  code_at (from_account_db (commit_state_to_account_db state db)) a = view_code state (from_account_db db) a.
Proof.
  intros Hc Hv [Hst Hha Hsa Hke] Ha. pose proof (commit_canonical state db Hc Hv) as Hc'.
  pose proof (touched_valid state Hv) as Ht. pose proof (touched_nodup state) as Hn.
  unfold view_code. rewrite !code_view by done. unfold commit_state_to_account_db. set (l := touched_accounts state) in *.
  (** a code in use before is found afterwards *)
  assert (Hkeep : ∀ k, stored_code (foldl commit_account db l) (acct_code_hash (account_or_new db k))
                       = stored_code db (acct_code_hash (account_or_new db k))).
  { intros k. unfold stored_code, account_or_new. destruct (accounts db !! k) as [acc|] eqn:E; simpl; [|done].
    case_bool_decide as Hh; [done|]. destruct (Hst k acc E Hh) as [Hb [code Ec]]. rewrite Ec.
    destruct (decide (Exists (λ e, is_Some (written_code e.2) ∧ hash_of e.2 = acct_code_hash acc) l))
      as [(e & He & [c Hw] & Eh)%Exists_exists|Hno].
    - destruct e as [b acc']. simpl in *. pose proof (proj1 (elem_of_touched state b acc') He) as [Hb' _].
      assert (code = c) as -> by (apply (Hke b acc' c code); [done|done|by rewrite Eh]).
      apply commit_all_code_at; [exists b, acc'; by rewrite Eh|]. intros b2 acc2 c2 Hin2 Hw2 E2.
      pose proof (proj1 (elem_of_touched state b2 acc2) Hin2) as [Hl2 _]. apply (Hsa b2 acc2 c2 b acc' c); try done.
      rewrite Eh. apply hex_inj; [by apply (Hha b2 acc2 c2)|done|done].
    - rewrite commit_all_code_other; [done|]. intros b acc' c He Hw E'. apply Hno, Exists_exists. exists (b, acc'). split_and!; [done|eauto|].
      pose proof (proj1 (elem_of_touched state b acc') He) as [Hl _]. apply hex_inj; [by apply (Hha b acc' c)|done|done]. }
  assert (Hother : (∀ acc, (a, acc) ∉ l) →
    account_or_new (foldl commit_account db l) (address_to_sentrix a) = account_or_new db (address_to_sentrix a)).
  { intros Hno. unfold account_or_new. rewrite commit_all_other; [done|]. intros b acc Hin E. rewrite Forall_forall in Ht.
    destruct (Ht _ Hin) as [Hb _]. apply address_to_sentrix_inj in E; [|done..]. subst b. by apply (Hno acc). }
  destruct (state !! a) as [acc|] eqn:El; last first.
  { rewrite Hother; [apply Hkeep|]. intros acc [??]%elem_of_touched. congruence. }
  destruct (ea_touched acc) eqn:Et; cbn [negb]; last first.
  { rewrite Hother; [apply Hkeep|]. intros acc' [??]%elem_of_touched. congruence. }
  assert (Hin : (a, acc) ∈ l) by by apply elem_of_touched.
  unfold account_or_new at 1. rewrite (commit_all_at db _ a acc Ht Hn Hin). cbn [default from_option].
  unfold next_account, written_code. destruct (ea_selfdestructed acc) eqn:Esd; [done|].
  destruct (ai_code (ea_info acc)) as [[|x code]|] eqn:Eco; simpl; [apply Hkeep| |apply Hkeep].
  assert (Hw : written_code acc = Some (x :: code)) by (unfold written_code; by rewrite Esd, Eco).
  destruct (Hha a acc _ El Hw) as [Hb Hne]. unfold stored_code. rewrite bool_decide_eq_false_2 by done.
  apply commit_all_code_at; [by exists a, acc|]. intros b acc' c' He Hw' E'.
  pose proof (proj1 (elem_of_touched state b acc') He) as [Hl' _]. symmetry. apply (Hsa a acc _ b acc' c'); try done.
  apply hex_inj; [done|by apply (Hha b acc' c')|done].
Qed.

(** C25: the next transaction sees exactly what this one left: balances rounded down
    to whole sentri, nonces, the deployed code and the changed slots of the touched
    accounts, and everything else as before; accounts stay under their lower-case
    spelling.  Assumed: accounts start under that spelling, addresses and slots of the
    result are in range, the code of every stored contract is stored, and a code hash
    identifies its code. *)
Theorem writeback_seen_by_next state db :
  canonical db → valid_state state → codes_ok state db →
  let ed := from_account_db db in
  let db' := commit_state_to_account_db state db in
  canonical db' ∧
  ∀ a, valid_address a →
    basic (from_account_db db') a = view_account state ed a ∧
    code_at (from_account_db db') a = view_code state ed a ∧
    ∀ s, in_u256 s → storage (from_account_db db') a s = view_slot state ed a s.
Proof.
  intros Hc Hv Hco ed db'. split; [by apply commit_canonical|]. intros a Ha.
  split_and!; [by apply writeback_basic|by apply writeback_code|intros s Hs; by apply writeback_slot].
Qed.

(** ** The supply *)

Definition new_balance (acc : EvmAccount) : Z :=
  if ea_selfdestructed acc then 0 else wei_to_sentri (ai_balance (ea_info acc)).
Lemma next_account_balance acc old : acct_balance (next_account acc old) = new_balance acc.
Proof.
  unfold next_account, new_balance. destruct (ea_selfdestructed acc); [done|].
  by destruct (ai_code (ea_info acc)) as [[|]|].
Qed.

Lemma supply_commit_account db a acc :
  supply (commit_account db (a, acc)) = supply db + new_balance acc - get_balance db (address_to_sentrix a).
Proof.
  rewrite <- (next_account_balance acc (account_or_new db (address_to_sentrix a))), <- supply_put.
  unfold supply. by rewrite commit_account_accounts.
Qed.
Lemma supply_commit_all db l :
  Forall (λ e, valid_account e.1 e.2) l → NoDup l.*1 →
  supply (foldl commit_account db l) =
  supply db + sum_of (λ e, new_balance e.2) l - sum_of (λ e, get_balance db (address_to_sentrix e.1)) l.
Proof.
  revert db. induction l as [|[a acc] l IH]; intros db Hv Hn; [rewrite !sum_of_nil; simpl; lia|].
  apply Forall_cons in Hv as [[Ha _] Hv]. apply NoDup_cons in Hn as [Hn Hd]. cbn [foldl fst snd] in *.
  rewrite (IH _ Hv Hd), supply_commit_account, !sum_of_cons. cbn [fst snd].
  rewrite (sum_of_ext (λ e, get_balance (commit_account db (a, acc)) (address_to_sentrix e.1))
    (λ e, get_balance db (address_to_sentrix e.1)) l); [lia|].
  intros [b acc'] Hb. rewrite Forall_forall in Hv. destruct (Hv _ Hb) as [Hbv _]. simpl in *.
  unfold get_balance. rewrite commit_account_accounts, lookup_insert_ne; [done|]. intros E.
  apply address_to_sentrix_inj in E; [|done..]. subst b. by apply Hn, (list_elem_of_fmap_2 fst _ (a, acc')).
Qed.

(** What the interpreter read of the touched accounts, and what it left; a
    destroyed account counts as empty. *)
Definition wei_before (ed : SentrixEvmDb) (state : EvmState) : Z :=
  sum_of (λ e, default 0 (ai_balance <$> basic ed e.1)) (touched_accounts state).
Definition wei_left (acc : EvmAccount) : Z := if ea_selfdestructed acc then 0 else ai_balance (ea_info acc).
Definition wei_after (state : EvmState) : Z := sum_of (λ e, wei_left e.2) (touched_accounts state).
(** Every balance it left fits the [u64] of an account. *)
Definition storable (state : EvmState) : Prop := ∀ a acc, state !! a = Some acc →
  0 <= ai_balance (ea_info acc) < (U64_MAX + 1) * WEI_PER_SENTRI.

Lemma wei_before_balances db state :
  canonical db → accounts_wf db → valid_state state →
  wei_before (from_account_db db) state =
  WEI_PER_SENTRI * sum_of (λ e, get_balance db (address_to_sentrix e.1)) (touched_accounts state).
Proof.
  intros Hc Hw Hv. unfold wei_before. rewrite <- sum_of_scale. apply sum_of_ext. intros [a acc] [Hl _]%elem_of_touched.
  destruct (Hv _ _ Hl) as [Ha _]. simpl. rewrite (basic_view db a Hc Ha). unfold get_balance.
  destruct (accounts db !! address_to_sentrix a) as [x|] eqn:Ex; simpl; [|lia].
  destruct (Hw _ _ Ex) as [Hb _]. unfold saturating_mul.
  rewrite Z.min_r; [lia|]. unfold in_range in Hb. unfold WEI_PER_SENTRI.
  transitivity (U64_MAX * 10000000000); [nia|by vm_compute].
Qed.
Lemma rounding acc :
  0 <= ai_balance (ea_info acc) < (U64_MAX + 1) * WEI_PER_SENTRI →
  wei_left acc - (WEI_PER_SENTRI - 1) <= WEI_PER_SENTRI * new_balance acc <= wei_left acc.
Proof.
  unfold wei_left, new_balance, wei_to_sentri, WEI_PER_SENTRI. intros Hb. destruct (ea_selfdestructed acc); [lia|].
  pose proof (Z.div_mod (ai_balance (ea_info acc)) 10000000000). pose proof (Z.mod_pos_bound (ai_balance (ea_info acc)) 10000000000).
  assert (ai_balance (ea_info acc) / 10000000000 <= U64_MAX); [|lia].
  apply Z.lt_succ_r, Z.div_lt_upper_bound; lia.
Qed.
Lemma rounding_sum (l : list (Address * EvmAccount)) :
  (∀ a acc, (a, acc) ∈ l → 0 <= ai_balance (ea_info acc) < (U64_MAX + 1) * WEI_PER_SENTRI) →
  sum_of (λ e, wei_left e.2) l - Z.of_nat (length l) * (WEI_PER_SENTRI - 1) <=
  WEI_PER_SENTRI * sum_of (λ e, new_balance e.2) l <= sum_of (λ e, wei_left e.2) l.
Proof.
  induction l as [|[a acc] l IH]; intros Hl; [rewrite !sum_of_nil; simpl; lia|].
  rewrite !sum_of_cons. cbn [length fst snd]. rewrite Nat2Z.inj_succ.
  pose proof (rounding acc (Hl a acc ltac:(set_solver))).
  destruct IH as [IH1 IH2]; [intros; apply (Hl a0 acc0); set_solver|]. lia.
Qed.

(** Writing back moves the supply by exactly what the interpreter did, rounded
    down by less than a sentri for each touched account; an execution that
    creates no wei creates no SRX. *)
Theorem writeback_value state db :
  canonical db → accounts_wf db → valid_state state → storable state →
  let db' := commit_state_to_account_db state db in
  let done := wei_after state - wei_before (from_account_db db) state in
  done - Z.of_nat (length (touched_accounts state)) * (WEI_PER_SENTRI - 1) <=
    WEI_PER_SENTRI * (supply db' - supply db) <= done ∧
  (done <= 0 → supply db' <= supply db).
Proof.
  intros Hc Hw Hv Hs. cbv zeta. rewrite (wei_before_balances db state Hc Hw Hv).
  unfold commit_state_to_account_db. rewrite supply_commit_all by (by apply touched_valid || apply touched_nodup).
  unfold wei_after. pose proof (rounding_sum (touched_accounts state)) as Hr.
  destruct Hr as [Hr1 Hr2]; [intros a acc [Hl _]%elem_of_touched; by apply (Hs a)|].
  unfold WEI_PER_SENTRI in *. lia.
Qed.

(** ** Other spellings *)

(** C33: an account stored under another spelling of its address: touching it, even
    without moving anything, writes its whole balance a second time. *)
Theorem alias_mints db a k acc ea :
  valid_address a → parse_sentrix_address k = Some a → k ≠ address_to_sentrix a →
  accounts db !! k = Some acc → in_u64 (acct_balance acc) →
  (∀ k' acc', accounts db !! k' = Some acc' → parse_sentrix_address k' = Some a → k' = k) →
  ea_touched ea = true → ea_selfdestructed ea = false → ea_storage ea = ∅ →
  ea_info ea = account_info acc →
  basic (from_account_db db) a = Some (ea_info ea) ∧
  supply (commit_state_to_account_db {[a := ea]} db) = supply db + acct_balance acc.
Proof.
  intros Ha Hp Hk Hl Hb Hu Ht Hsd Hst Hi. split.
  - unfold basic. rewrite view_accounts. apply (load_map_at entry_of ∅ _ a (k, acc)).
    + by apply elem_of_entries.
    + unfold entry_of. simpl. by rewrite Hp, Hi.
    + intros [k' acc'] v' He%elem_of_entries Ef. unfold entry_of in Ef. simpl in *.
      destruct (parse_sentrix_address k') as [a'|] eqn:Ep; [|done]. injection Ef as -> <-.
      pose proof (Hu k' acc' He Ep) as ->. rewrite Hi. congruence.
  - unfold commit_state_to_account_db, touched_accounts. rewrite map_to_list_singleton, filter_cons.
    rewrite decide_True by done. simpl. unfold sort_by_key. simpl. rewrite supply_commit_account.
    assert (Eb : get_balance db (address_to_sentrix a) = 0).
    { unfold get_balance. destruct (accounts db !! address_to_sentrix a) as [x|] eqn:Ex; [|done].
      exfalso. apply Hk. symmetry. apply (Hu _ _ Ex). by apply parse_address_to_sentrix. }
    rewrite Eb. unfold new_balance. rewrite Hsd, Hi. simpl. unfold wei_to_sentri, saturating_mul.
    rewrite (Z.min_r U256_MAX).
    + rewrite Z.div_mul by done. rewrite Z.min_l by (unfold in_range in Hb; lia). lia.
    + unfold in_range in Hb. unfold WEI_PER_SENTRI. transitivity (U64_MAX * 10000000000); [nia|by vm_compute].
Qed.
End evm.
