(* ===== verification/EvmLogs.v ===== *)
(** * EVM logs and receipts

    Models crates/sentrix-evm/src/logs.rs and receipts.rs: the stored form of a
    log and of a receipt, the keys of their tables, and the bloom filter of a
    block, which never misses a log. *)

From S2P Require Import Prelude Bytes Keys Account TokenRegistry Authority TrieState Chain Evm EvmProps.

Record StoredLog := mkStoredLog {
  sl_address : Address; sl_topics : list bytes; sl_data : bytes;
  sl_block_number : Z; sl_block_hash : bytes; sl_tx_hash : bytes; sl_tx_index : Z; sl_log_index : Z;
}.
Definition stored_log (log : Log) (block_number : Z) (block_hash tx_hash : bytes) (tx_index log_index : Z) : StoredLog :=
  mkStoredLog (log_address log) (log_topics log) (log_data log) block_number block_hash tx_hash tx_index log_index.

Record StoredReceipt := mkStoredReceipt {
  sr_success : bool; sr_gas_used : Z; sr_contract_address : option Address; sr_output : bytes;
}.
Definition MAX_OUTPUT_BYTES : nat := 4096.
Definition from_tx_receipt (r : TxReceipt) : StoredReceipt :=
  mkStoredReceipt (rc_success r) (rc_gas_used r) (rc_contract_address r)
    (if (MAX_OUTPUT_BYTES <? length (rc_output r))%nat then take MAX_OUTPUT_BYTES (rc_output r) else rc_output r).

Definition log_key (height tx_index log_index : Z) : bytes :=
  to_be_bytes 8 height ++ to_be_bytes 4 tx_index ++ to_be_bytes 4 log_index.
Definition log_key_prefix (height : Z) : bytes := to_be_bytes 8 height.

(** The bloom filter of the yellow paper: 2048 bits, the last byte first. *)
Definition empty_bloom : bytes := replicate 256 0.
Definition set_bloom_bit (bloom : bytes) (bit_pos : Z) : bytes :=
  let byte_idx := Z.to_nat (255 - bit_pos / 8) in
  <[byte_idx := Z.lor (bloom !!! byte_idx) (Z.shiftl 1 (bit_pos mod 8))]> bloom.
Definition bloom_bit (bloom : bytes) (bit_pos : Z) : bool :=
  negb (Z.land (bloom !!! Z.to_nat (255 - bit_pos / 8)) (Z.shiftl 1 (bit_pos mod 8)) =? 0).
Definition bloom_union (a b : bytes) : bytes := zip_with Z.lor a b.

Section logs.
Context `{Revm, Hex, HexDecode}.

Definition receipt_key (txid_hex : string) : option bytes :=
  let trimmed := trim_0x txid_hex in
  if negb (String.length trimmed =? 64)%nat then None else hex_decode trimmed.

(** The three positions an item sets. *)
Definition bloom_positions (item : bytes) : list Z :=
  let hash := keccak256 item in
  (λ i, Z.land (Z.lor (Z.shiftl (hash !!! (i * 2)%nat) 8) (hash !!! (i * 2 + 1)%nat)) 0x7FF) <$> [0; 1; 2]%nat.
Definition add_to_bloom (bloom item : bytes) : bytes := foldl set_bloom_bit bloom (bloom_positions item).
Definition add_log_to_bloom (bloom : bytes) (address : Address) (topics : list bytes) : bytes :=
  foldl add_to_bloom (add_to_bloom bloom address) topics.
Definition compute_logs_bloom (logs : list StoredLog) : bytes :=
  foldl (λ bloom log, add_log_to_bloom bloom (sl_address log) (sl_topics log)) empty_bloom logs.
Definition bloom_contains (bloom needle : bytes) : bool := forallb (bloom_bit bloom) (bloom_positions needle).

(** ** Keys *)

Definition key_range (k : Z * Z * Z) : Prop :=
  0 <= k.1.1 <= U64_MAX ∧ 0 <= k.1.2 <= U32_MAX ∧ 0 <= k.2 <= U32_MAX.
Definition key_le (k k' : Z * Z * Z) : Prop :=
  k.1.1 < k'.1.1 ∨ k.1.1 = k'.1.1 ∧ (k.1.2 < k'.1.2 ∨ k.1.2 = k'.1.2 ∧ k.2 <= k'.2).

Lemma be_order_next n x y r s :
  0 <= x < 256 ^ Z.of_nat n → 0 <= y < 256 ^ Z.of_nat n →
  bytes_le (to_be_bytes n x ++ r) (to_be_bytes n y ++ s) ↔ x < y ∨ x = y ∧ bytes_le r s.
Proof.
  intros Hx Hy. rewrite bytes_le_fields by by rewrite !length_to_be_bytes.
  rewrite be_order by done. split.
  - intros [[Hle Hne]|[E ?]]; [left|right].
    + assert (x ≠ y) by (by intros ->). lia.
    + split; [|done]. by apply (to_be_bytes_inj n).
  - intros [Hlt|[-> ?]]; [left|by right]. split; [lia|]. intros E. apply to_be_bytes_inj in E; [lia|done..].
Qed.

(** Scanning the table in key order gives the logs in the canonical order: by
    height, then by transaction, then by position; the keys of one height are
    those with its prefix. *)
Theorem log_keys_canonical h t l h' t' l' :
  key_range (h, t, l) → key_range (h', t', l') →
  (bytes_le (log_key h t l) (log_key h' t' l') ↔ key_le (h, t, l) (h', t', l')) ∧
  (log_key h t l = log_key h' t' l' ↔ (h, t, l) = (h', t', l')) ∧
  (log_key_prefix h' `prefix_of` log_key h t l ↔ h = h').
Proof.
  intros Hk Hk'. pose proof Hk as (Hh & Ht & Hl). pose proof Hk' as (Hh' & Ht' & Hl'). cbn [fst snd] in *.
  assert (E8 : 256 ^ Z.of_nat 8 = U64_MAX + 1) by done. assert (E4 : 256 ^ Z.of_nat 4 = U32_MAX + 1) by done.
  assert (Hle : ∀ h t l h' t' l', key_range (h, t, l) → key_range (h', t', l') →
    bytes_le (log_key h t l) (log_key h' t' l') ↔ key_le (h, t, l) (h', t', l')).
  { clear -E8 E4. intros h t l h' t' l' (Hh & Ht & Hl) (Hh' & Ht' & Hl'). cbn [fst snd] in *. unfold log_key, key_le. cbn [fst snd].
    rewrite (be_order_next 8), (be_order_next 4) by lia. rewrite (be_order 4) by lia. done. }
  split; [by apply Hle|]. split.
  - split; [|by intros [= -> -> ->]]. intros E.
    assert (Hab : key_le (h, t, l) (h', t', l')) by (apply Hle; [done..|by rewrite E]).
    assert (Hba : key_le (h', t', l') (h, t, l)) by (apply Hle; [done..|by rewrite E]).
    unfold key_le in *. cbn [fst snd] in *. f_equal; [f_equal|]; lia.
  - unfold log_key_prefix, log_key. split; [|intros ->; by eexists].
    intros [r E]. apply app_inj_1 in E as [E _]; [|by rewrite !length_to_be_bytes].
    apply (to_be_bytes_inj 8) in E; lia.
Qed.

(** ** The bloom filter *)

Definition position (p : Z) : Prop := 0 <= p < 2048.
Definition bloom_of_bits (bloom : bytes) : Prop := length bloom = 256%nat.
(** Every bit of [a] is a bit of [b]. *)
Definition bloom_le (a b : bytes) : Prop := ∀ p, position p → bloom_bit a p = true → bloom_bit b p = true.

Lemma bloom_bit_testbit bloom p : 0 <= p → bloom_bit bloom p = Z.testbit (bloom !!! Z.to_nat (255 - p / 8)) (p mod 8).
Proof.
  intros Hp. unfold bloom_bit. set (x := bloom !!! _). pose proof (Z.mod_pos_bound p 8) as Hm.
  assert (E : Z.land x (Z.shiftl 1 (p mod 8)) = if Z.testbit x (p mod 8) then Z.shiftl 1 (p mod 8) else 0).
  { apply Z.bits_inj'. intros n Hn. rewrite Z.land_spec, Z.shiftl_spec by lia.
    destruct (decide (n = p mod 8)) as [->|Hne].
    - rewrite Z.sub_diag. simpl. rewrite andb_true_r. destruct (Z.testbit x (p mod 8)); [|by rewrite Z.bits_0].
      rewrite Z.shiftl_spec by lia. by rewrite Z.sub_diag.
    - assert (E0 : Z.testbit 1 (n - p mod 8) = false).
      { destruct (Z.ltb_spec n (p mod 8)); [by rewrite Z.testbit_neg_r by lia|].
        rewrite Z.bits_above_log2; [done|lia|simpl; lia]. }
      rewrite E0, andb_false_r. destruct (Z.testbit x (p mod 8)); [|by rewrite Z.bits_0].
      rewrite Z.shiftl_spec by lia. done. }
  rewrite E. destruct (Z.testbit x (p mod 8)); [|done]. rewrite Z.shiftl_1_l.
  destruct (Z.eqb_spec (2 ^ (p mod 8)) 0); [|done]. pose proof (Z.pow_pos_nonneg 2 (p mod 8)). lia.
Qed.

Lemma byte_index p : position p → (Z.to_nat (255 - p / 8) < 256)%nat.
Proof. unfold position. intros Hp. pose proof (Z.div_pos p 8). lia. Qed.
Lemma length_set_bloom_bit bloom p : length (set_bloom_bit bloom p) = length bloom.
Proof. apply length_insert. Qed.
Lemma set_bloom_bit_spec bloom p q :
  length bloom = 256%nat → position p → position q →
  bloom_bit (set_bloom_bit bloom p) q = bool_decide (p = q) || bloom_bit bloom q.
Proof.
  intros Hl Hp Hq. pose proof (byte_index p Hp) as Hip. unfold position in *.
  rewrite !bloom_bit_testbit by lia. unfold set_bloom_bit.
  set (i := Z.to_nat (255 - p / 8)) in *. set (j := Z.to_nat (255 - q / 8)).
  pose proof (Z.div_mod p 8). pose proof (Z.div_mod q 8).
  pose proof (Z.mod_pos_bound p 8). pose proof (Z.mod_pos_bound q 8).
  destruct (decide (i = j)) as [E|Hne].
  - rewrite <- E, list_lookup_total_insert_eq by lia. rewrite Z.lor_spec, Z.shiftl_spec by lia.
    assert (p / 8 = q / 8) by (subst i j; pose proof (Z.div_lt_upper_bound p 8 256); pose proof (Z.div_lt_upper_bound q 8 256); lia).
    rewrite orb_comm. f_equal. case_bool_decide as Epq.
    + subst q. by rewrite Z.sub_diag.
    + destruct (Z.ltb_spec (q mod 8) (p mod 8)); [by rewrite Z.testbit_neg_r by lia|].
      rewrite Z.bits_above_log2; [done|lia|simpl; lia].
  - rewrite list_lookup_total_insert_ne by done. rewrite bool_decide_false; [done|]. intros ->. done.
Qed.
Lemma positions_range item : Forall position (bloom_positions item).
Proof.
  apply Forall_fmap, Forall_forall. intros i _. simpl. unfold position.
  change 2047 with (Z.ones 11). rewrite Z.land_ones by lia. by apply Z.mod_pos_bound.
Qed.

Lemma set_bits_spec bloom ps q :
  length bloom = 256%nat → Forall position ps → position q →
  bloom_bit (foldl set_bloom_bit bloom ps) q = bool_decide (q ∈ ps) || bloom_bit bloom q.
Proof.
  intros Hl Hps Hq. revert bloom Hl. induction Hps as [|p ps Hp _ IH]; intros bloom Hl; [done|]. cbn [foldl].
  rewrite IH by by rewrite length_set_bloom_bit. rewrite (set_bloom_bit_spec bloom p q Hl Hp Hq).
  rewrite orb_assoc, <- bool_decide_or. f_equal. apply bool_decide_ext. rewrite elem_of_cons. naive_solver.
Qed.
Lemma length_set_bits bloom ps : length (foldl set_bloom_bit bloom ps) = length bloom.
Proof. revert bloom. induction ps as [|p ps IH]; intros bloom; [done|]. cbn [foldl]. by rewrite IH, length_set_bloom_bit. Qed.

(** A filter holds exactly the bits of the items added. *)
Lemma add_items_spec bloom items q :
  length bloom = 256%nat → position q →
  bloom_bit (foldl add_to_bloom bloom items) q =
  bool_decide (q ∈ concat (bloom_positions <$> items)) || bloom_bit bloom q.
Proof.
  intros Hl Hq. revert bloom Hl. induction items as [|x items IH]; intros bloom Hl; [done|]. cbn [foldl].
  rewrite IH by (unfold add_to_bloom; by rewrite length_set_bits).
  unfold add_to_bloom. rewrite (set_bits_spec bloom _ q Hl (positions_range x) Hq). cbn [fmap list_fmap concat].
  rewrite orb_assoc. f_equal. rewrite <- bool_decide_or. apply bool_decide_ext. rewrite elem_of_app. tauto.
Qed.
Definition log_items (log : StoredLog) : list bytes := sl_address log :: sl_topics log.
Lemma compute_as_items logs : compute_logs_bloom logs = foldl add_to_bloom empty_bloom (concat (log_items <$> logs)).
Proof.
  unfold compute_logs_bloom, add_log_to_bloom. generalize empty_bloom. induction logs as [|l logs IH]; intros b; [done|].
  cbn [foldl fmap list_fmap concat]. rewrite IH, foldl_app. done.
Qed.
Lemma bloom_union_bit a b q :
  length a = 256%nat → length b = 256%nat → position q → bloom_bit (bloom_union a b) q = bloom_bit a q || bloom_bit b q.
Proof.
  intros Ha Hb Hq. pose proof (byte_index q Hq) as Hi. unfold position in Hq.
  rewrite !bloom_bit_testbit by lia. set (i := Z.to_nat _) in *. unfold bloom_union.
  destruct (lookup_lt_is_Some_2 a i) as [x Hx]; [lia|]. destruct (lookup_lt_is_Some_2 b i) as [y Hy]; [lia|].
  rewrite (list_lookup_total_correct _ _ _ Hx), (list_lookup_total_correct _ _ _ Hy).
  erewrite list_lookup_total_correct; [|by rewrite lookup_zip_with, Hx; simpl; rewrite Hy]. apply Z.lor_spec.
Qed.

(** The filter of a block never misses a log: a log's address and topics are
    found in it, and still are after it is merged with another filter. *)
Theorem bloom_complete logs others log needle :
  log ∈ logs → needle ∈ log_items log →
  bloom_contains (compute_logs_bloom logs) needle = true ∧
  bloom_contains (bloom_union (compute_logs_bloom others) (compute_logs_bloom logs)) needle = true.
Proof.
  intros Hl Hn.
  assert (Hlen : ∀ ls, length (compute_logs_bloom ls) = 256%nat).
  { intros ls. rewrite compute_as_items. generalize (concat (log_items <$> ls)). intros items.
    assert (E : ∀ b, length (foldl add_to_bloom b items) = length b); [|by rewrite E].
    induction items as [|x items IH]; intros b; [done|]. cbn [foldl]. rewrite IH. unfold add_to_bloom. apply length_set_bits. }
  assert (Hb : ∀ q, q ∈ bloom_positions needle → position q ∧ bloom_bit (compute_logs_bloom logs) q = true).
  { intros q Hq. pose proof (positions_range needle) as Hr. rewrite Forall_forall in Hr. specialize (Hr q Hq).
    split; [done|]. rewrite compute_as_items, add_items_spec by done. rewrite bool_decide_true; [done|].
    apply elem_of_concat. exists (bloom_positions needle). split; [|done]. apply list_elem_of_fmap_2.
    apply elem_of_concat. exists (log_items log). split; [|done]. by apply list_elem_of_fmap_2. }
  unfold bloom_contains. rewrite !forallb_forall. split; intros q Hq%list_elem_of_In; destruct (Hb q Hq) as [Hp E]; [done|].
  rewrite bloom_union_bit by done. by rewrite E, orb_true_r.
Qed.
End logs.
