(* ===== verification/MempoolProps.v ===== *)
(** * The mempool: invariant and ordering

    The derived indexes mirror the queue and the caps hold along every sequence
    of admissions, evictions and prunings; admission keeps each sender's pending
    transactions in nonce order; age pruning can break that order. *)

From S2P Require Import Prelude Bytes Account Staking Epoch Slashing Token.
From S2P Require Import Merkle Transaction TransactionProps Authority Emission.
From S2P Require Import BftMessages Block Chain.

(** ** Lists *)

Lemma after_last_le {A} (p : A → bool) l : (after_last p l <= length l)%nat.
Proof. induction l as [|x l IH]; simpl; [done|]. destruct (after_last p l), (p x); simpl; lia. Qed.

Lemma after_last_drop {A} (p : A → bool) l n :
  (after_last p l <= n)%nat → Forall (λ x, p x = false) (drop n l).
Proof.
  revert n. induction l as [|x l IH]; intros n Hn; [rewrite drop_nil; constructor|].
  simpl in Hn. destruct n as [|n].
  - simpl. destruct (after_last p l) eqn:E; [|lia]. destruct (p x) eqn:Ex; [lia|].
    constructor; [done|]. apply (IH 0%nat). lia.
  - simpl. apply IH. destruct (after_last p l); [lia|lia].
Qed.

Lemma insert_at_perm {A} pos (x : A) l : insert_at pos x l ≡ₚ x :: l.
Proof.
  unfold insert_at. rewrite <-Permutation_middle. constructor. by rewrite take_drop.
Qed.

Section filters.
Context {A : Type} (P Q : A → Prop) `{∀ x, Decision (P x), ∀ x, Decision (Q x)}.
Lemma filter_none (l : list A) : Forall (λ y, ¬ P y) l → filter P l = [].
Proof. induction 1; [done|]. by rewrite filter_cons, decide_False. Qed.
Lemma length_filter_twice (l : list A) : (length (filter P (filter Q l)) <= length (filter P l))%nat.
Proof.
  induction l as [|x l IH]; [done|]. rewrite !filter_cons.
  destruct (decide (Q x)); rewrite ?filter_cons; destruct (decide (P x)); simpl; lia.
Qed.
Lemma NoDup_fmap_filter {B} (f : A → B) (l : list A) : NoDup (f <$> l) → NoDup (f <$> filter P l).
Proof.
  induction l as [|x l IH]; [done|]. rewrite fmap_cons, NoDup_cons, filter_cons.
  intros [Hx Hl]. destruct (decide (P x)); [|auto]. rewrite fmap_cons, NoDup_cons. split; [|auto].
  intros (y & E & [_ Hy]%list_elem_of_filter)%list_elem_of_fmap. apply Hx, list_elem_of_fmap. eauto.
Qed.
End filters.

Lemma filter_insert_at {A} (P : A → Prop) `{∀ x, Decision (P x)} pos (x : A) l :
  (¬ P x → filter P (insert_at pos x l) = filter P l) ∧
  (P x → Forall (λ y, ¬ P y) (drop pos l) → filter P (insert_at pos x l) = filter P l ++ [x]).
Proof.
  unfold insert_at. rewrite filter_app, filter_cons. split.
  - intros Hx. rewrite decide_False by done. by rewrite <-filter_app, take_drop.
  - intros Hx Hd. rewrite decide_True by done.
    assert (E : filter P (drop pos l) = []).
    { by apply filter_none. }
    rewrite E. rewrite <-(take_drop pos l) at 2. by rewrite filter_app, E, app_nil_r.
Qed.

(** ** The invariant *)

Section mempool.
Context `{ChainTypes, Json, Sha256, TxCrypto, PartitionPoint}.
Context (serialized_size : Transaction → option Z).
Implicit Types bc : Blockchain.

Definition pending bc (a : string) : list Transaction := filter (λ tx, tx_from tx = a) (bc_mempool bc).

Record mempool_inv bc : Prop := {
  mi_ids : bc_mempool_txids bc = list_to_set (txid <$> bc_mempool bc);
  mi_count a : mempool_pending_count bc a = Z.of_nat (length (pending bc a));
  mi_distinct : NoDup (txid <$> bc_mempool bc);
  mi_size : (length (bc_mempool bc) <= MAX_MEMPOOL_SIZE)%nat;
  mi_sender a : Z.of_nat (length (pending bc a)) <= MAX_MEMPOOL_PER_SENDER;
}.

Lemma index_tx_count bc tx a :
  mempool_pending_count (index_tx bc tx) a =
    if decide (tx_from tx = a) then wrapping_add U32_MAX (mempool_pending_count bc a) 1
    else mempool_pending_count bc a.
Proof.
  unfold mempool_pending_count, index_tx; simpl. rewrite lookup_insert.
  case_decide; [by subst|done].
Qed.

(** The sidecars after indexing a list on top of others. *)
Lemma foldl_index_tx l bc :
  let bc' := foldl index_tx bc l in
  bc_mempool bc' = bc_mempool bc ∧
  bc_mempool_txids bc' = list_to_set (txid <$> l) ∪ bc_mempool_txids bc ∧
  ∀ a, mempool_pending_count bc' a
       = foldl (λ n _, wrapping_add U32_MAX n 1) (mempool_pending_count bc a)
           (filter (λ tx, tx_from tx = a) l).
Proof.
  revert bc. induction l as [|tx l IH]; intros bc; simpl; [split_and!; [done|set_solver|done]|].
  destruct (IH (index_tx bc tx)) as (E1 & E2 & E3). split_and!.
  - by rewrite E1.
  - rewrite E2. simpl. set_solver.
  - intros a. rewrite E3, index_tx_count. rewrite filter_cons. by case_decide.
Qed.

Lemma foldl_count {A} (l : list A) n :
  0 <= n → n + Z.of_nat (length l) <= U32_MAX →
  foldl (λ n _, wrapping_add U32_MAX n 1) n l = n + Z.of_nat (length l).
Proof.
  revert n. induction l as [|x l IH]; intros n Hn Hl; simpl in *; [lia|].
  unfold wrapping_add at 2. rewrite wrap_small by ulia. rewrite IH by lia. lia.
Qed.

Lemma rebuild_inv bc :
  NoDup (txid <$> bc_mempool bc) → (length (bc_mempool bc) <= MAX_MEMPOOL_SIZE)%nat →
  (∀ a, Z.of_nat (length (pending bc a)) <= MAX_MEMPOOL_PER_SENDER) →
  mempool_inv (rebuild_mempool_sidecars bc).
Proof.
  intros Hd Hs Hp. unfold rebuild_mempool_sidecars.
  destruct (foldl_index_tx (bc_mempool bc)
    (bc <| bc_mempool_txids := ∅ |> <| bc_mempool_sender_count := ∅ |>)) as (E1 & E2 & E3).
  unfold pending in *. split; rewrite ?E1; try done.
  - rewrite E2. simpl. set_solver.
  - intros a. rewrite E3. unfold pending. rewrite E1. simpl. unfold mempool_pending_count. simpl.
    rewrite lookup_empty. simpl. rewrite foldl_count; [lia|lia|].
    pose proof (length_filter (λ tx, tx_from tx = a) (bc_mempool bc)).
    unfold MAX_MEMPOOL_SIZE, U32_MAX in *. lia.
  - intros a. unfold pending. rewrite E1. apply Hp.
Qed.

(** Dropping transactions and rebuilding. *)
Lemma retain_inv (P : Transaction → Prop) `{∀ x, Decision (P x)} bc :
  mempool_inv bc →
  mempool_inv (rebuild_mempool_sidecars (bc <| bc_mempool := filter P (bc_mempool bc) |>)).
Proof.
  intros [_ _ Hd Hs Hp]. apply rebuild_inv; simpl.
  - by apply NoDup_fmap_filter.
  - pose proof (length_filter P (bc_mempool bc)). lia.
  - intros a. unfold pending in *. simpl. specialize (Hp a).
    pose proof (length_filter_twice (λ tx, tx_from tx = a) P (bc_mempool bc)). lia.
Qed.

(** ** Admission *)

(** What is known about an admitted transaction. *)
Lemma add_to_mempool_ok now tx bc bc' :
  add_to_mempool serialized_size now tx bc = (bc', Ok tt) →
  is_coinbase tx = false ∧ (length (bc_mempool bc) < MAX_MEMPOOL_SIZE)%nat ∧
  mempool_pending_count bc (tx_from tx) < MAX_MEMPOOL_PER_SENDER ∧
  txid tx ∉ bc_mempool_txids bc ∧
  validate tx (wrapping_add U64_MAX (get_nonce (bc_accounts bc) (tx_from tx))
                 (mempool_pending_count bc (tx_from tx))) (bc_chain_id bc) = Ok tt ∧
  bc' = index_tx (bc <| bc_mempool := insert_at (insert_pos tx (bc_mempool bc)) tx (bc_mempool bc) |>) tx.
Proof.
  unfold add_to_mempool. intros Hr. inv_ok Hr.
  assert (x1 = bc) as ->.
  { destruct (serialized_size tx); [by apply fail_if_ok in Hs as [_ ->]|by injection Hs as ->]. }
  injection Hs0 as -> Hv. destruct x9. bool_hyps.
  match goal with H : (_ <=? _)%nat = false |- _ => apply Nat.leb_gt in H end.
  done.
Qed.

(** Rejected transactions leave the state as it was. *)
Lemma add_to_mempool_err now tx bc bc' e :
  add_to_mempool serialized_size now tx bc = (bc', Err e) → bc' = bc.
Proof.
  unfold add_to_mempool, lift_result. unfold_st_goal.
  repeat (case_match; simplify_eq; try (by intros [= <- _])); done.
Qed.

Lemma pending_insert tx bc a :
  filter (λ t, tx_from t = a) (insert_at (insert_pos tx (bc_mempool bc)) tx (bc_mempool bc))
  = if decide (tx_from tx = a) then pending bc a ++ [tx] else pending bc a.
Proof.
  destruct (filter_insert_at (λ t, tx_from t = a) (insert_pos tx (bc_mempool bc)) tx (bc_mempool bc))
    as [Hno Hyes].
  case_decide as Ha; [|by apply Hno]. apply Hyes; [done|].
  eapply Forall_impl; [apply (after_last_drop
    (λ existing, bool_decide (tx_from existing = tx_from tx)))|].
  - unfold insert_pos. lia.
  - intros t Ht%bool_decide_eq_false_1. by rewrite <-Ha.
Qed.

Lemma add_to_mempool_inv now tx bc :
  mempool_inv bc → mempool_inv (state_of (add_to_mempool serialized_size now tx bc)).
Proof.
  intros Hinv. destruct (add_to_mempool serialized_size now tx bc) as [bc' [[]|e]] eqn:E; simpl.
  2:{ by apply add_to_mempool_err in E as ->. }
  apply add_to_mempool_ok in E as (_ & Hlen & Hcnt & Hid & _ & ->).
  destruct Hinv as [Hi Hc Hd Hs Hp]. set (pool := insert_at _ _ _).
  assert (Hperm : pool ≡ₚ tx :: bc_mempool bc) by apply insert_at_perm.
  assert (Hpend : ∀ a, filter (λ t, tx_from t = a) pool
    = if decide (tx_from tx = a) then pending bc a ++ [tx] else pending bc a) by apply pending_insert.
  assert (Hpend' : ∀ a, pending (index_tx (bc <| bc_mempool := pool |>) tx) a
    = if decide (tx_from tx = a) then pending bc a ++ [tx] else pending bc a) by done.
  split.
  - simpl. rewrite Hi, Hperm. done.
  - intros a. rewrite index_tx_count, Hpend'.
    change (mempool_pending_count (bc <| bc_mempool := pool |>) a) with (mempool_pending_count bc a).
    rewrite Hc. case_decide; [|done]. rewrite length_app. simpl.
    unfold wrapping_add. rewrite wrap_small; [lia|]. specialize (Hp a).
    unfold MAX_MEMPOOL_PER_SENDER in Hp. ulia.
  - simpl. rewrite Hperm. simpl. apply NoDup_cons. split; [|done]. rewrite Hi in Hid. set_solver.
  - simpl. rewrite Hperm. simpl. lia.
  - intros a. rewrite Hpend'. case_decide; [|apply Hp]. subst.
    rewrite length_app. simpl. rewrite Hc in Hcnt. lia.
Qed.

(** ** Sequences *)

(** Everything that touches the mempool: admissions, the two sweeps, clearing,
    the removal of mined transactions and the rollback of a rejected block.
    Blocks also change the account state in between. *)
Inductive mempool_op :=
  | MpAdd (now : Z) (tx : Transaction)
  | MpPrune (now : Z)
  | MpEvict (senders : list string)
  | MpMined (mined : gset string)
  | MpClear
  | MpRebuild
  | MpAccounts (db : AccountDB).

Definition run_mempool (op : mempool_op) bc : Blockchain :=
  match op with
  | MpAdd now tx => state_of (add_to_mempool serialized_size now tx bc)
  | MpPrune now => prune_mempool now bc
  | MpEvict senders => evict_stale_nonce_for_senders senders bc
  | MpMined mined => rebuild_mempool_sidecars
      (bc <| bc_mempool := filter (λ tx, txid tx ∉ mined) (bc_mempool bc) |>)
  | MpClear => clear_mempool bc
  | MpRebuild => rebuild_mempool_sidecars bc
  | MpAccounts db => bc <| bc_accounts := db |>
  end.

Lemma run_mempool_inv op bc : mempool_inv bc → mempool_inv (run_mempool op bc).
Proof.
  intros Hinv. destruct op; simpl.
  - by apply add_to_mempool_inv.
  - by apply retain_inv.
  - unfold evict_stale_nonce_for_senders. case_bool_decide; [done|by apply retain_inv].
  - by apply retain_inv.
  - split; simpl; try done; [apply NoDup_nil_2|lia].
  - destruct Hinv. by apply rebuild_inv.
  - by destruct Hinv.
Qed.

(** Along any sequence of admissions (accepted or not), sweeps, removals and
    rollbacks, the id set and the per-sender counts that admission relies on
    mirror the queue exactly, the ids are distinct, and the caps of ten thousand
    entries and one hundred per sender hold. *)
Theorem mempool_inv_run ops bc :
  mempool_inv bc → mempool_inv (foldl (λ bc op, run_mempool op bc) bc ops).
Proof.
  revert bc. induction ops as [|op ops IH]; intros bc Hinv; [done|].
  simpl. by apply IH, run_mempool_inv.
Qed.

(** ** Nonce order *)

(** The sender's pending transactions continue the account's nonce, in order. *)
Definition contiguous bc (a : string) : Prop :=
  tx_nonce <$> pending bc a = seqZ (get_nonce (bc_accounts bc) a) (Z.of_nat (length (pending bc a))).

Lemma validate_nonce tx n cid :
  is_coinbase tx = false → is_system_tx tx = false → validate tx n cid = Ok tt → tx_nonce tx = n.
Proof. intros Hc Hs Hv. apply validate_checks in Hv; [|done..]. naive_solver. Qed.


(** ** Age pruning *)

Definition fresh (now : Z) (tx : Transaction) : Prop :=
  now <= saturating_add U64_MAX (tx_timestamp tx) MEMPOOL_MAX_AGE_SECS.

#[local] Instance fresh_dec now tx : Decision (fresh now tx).
Proof. unfold fresh. apply _. Defined.

Lemma rebuild_keeps bc :
  bc_mempool (rebuild_mempool_sidecars bc) = bc_mempool bc ∧
  bc_accounts (rebuild_mempool_sidecars bc) = bc_accounts bc.
Proof.
  unfold rebuild_mempool_sidecars. split.
  - by destruct (foldl_index_tx (bc_mempool bc)
      (bc <| bc_mempool_txids := ∅ |> <| bc_mempool_sender_count := ∅ |>)) as (-> & _).
  - generalize (bc_mempool bc) at 1. intros l.
    assert (Hl : ∀ b, bc_accounts (foldl index_tx b l) = bc_accounts b); [|by rewrite Hl].
    induction l as [|t l IH]; intros b; [done|]. simpl. by rewrite IH.
Qed.

Lemma prune_pending now bc a :
  pending (prune_mempool now bc) a = filter (fresh now) (pending bc a) ∧
  bc_accounts (prune_mempool now bc) = bc_accounts bc.
Proof.
  unfold prune_mempool. match goal with |- context [rebuild_mempool_sidecars ?b] =>
    destruct (rebuild_keeps b) as [E1 E2] end.
  unfold pending. rewrite E1, E2. simpl. split; [|done].
  rewrite !list_filter_filter. apply list_filter_iff. intros t. unfold fresh. naive_solver.
Qed.

(** Age pruning can strand a sender: when the first of several pending
    transactions expires, the next one stays queued with a nonce one too high to
    execute, and a replacement for the missing nonce is refused, because
    admission derives the expected nonce from the number of pending
    transactions. *)
Theorem prune_strands_sender now bc a tx0 tx1 rest :
  mempool_inv bc → contiguous bc a → pending bc a = tx0 :: tx1 :: rest →
  ¬ fresh now tx0 → Forall (fresh now) (tx1 :: rest) →
  0 <= get_nonce (bc_accounts bc) a → get_nonce (bc_accounts bc) a + MAX_MEMPOOL_PER_SENDER <= U64_MAX →
  let bc' := prune_mempool now bc in
  pending bc' a = tx1 :: rest ∧ tx_nonce tx1 = get_nonce (bc_accounts bc') a + 1 ∧
  ∀ now' tx bc'', tx_from tx = a → tx_nonce tx = get_nonce (bc_accounts bc') a →
    is_system_tx tx = false → add_to_mempool serialized_size now' tx bc' ≠ (bc'', Ok tt).
Proof.
  intros Hinv Hc Hp Hold Hnew Hn0 Hn bc'.
  destruct (prune_pending now bc a) as [Ep Ea]. fold bc' in Ep, Ea.
  assert (Hp' : pending bc' a = tx1 :: rest).
  { rewrite Ep, Hp, filter_cons, decide_False by done. clear -Hnew.
    induction Hnew as [|t l Ht _ IH]; [done|]. by rewrite filter_cons, decide_True, IH. }
  split; [done|]. rewrite Ea. split.
  - unfold contiguous in Hc. rewrite Hp in Hc. simpl in Hc.
    rewrite !seqZ_cons in Hc by lia. injection Hc as _ Hc _. lia.
  - intros now' tx bc'' Hf Hnonce Hsys Hadd.
    assert (Hinv' : mempool_inv bc') by (by apply retain_inv).
    apply add_to_mempool_ok in Hadd as (Hcb & _ & Hcnt & _ & Hv & _).
    apply validate_nonce in Hv; [|done..]. rewrite Hf, (mi_count bc' Hinv'), Ea in Hv.
    rewrite Hf, (mi_count bc' Hinv') in Hcnt.
    unfold wrapping_add in Hv. rewrite wrap_small in Hv by ulia. rewrite Hp' in Hv. simpl in Hv. lia.
Qed.

(** ** System transactions *)

(** A transaction that claims to be a system transaction enters the mempool
    with no signature, fee or valid nonce: only the room, freshness and id checks
    apply. *)
Theorem system_tx_admitted now tx bc :
  is_system_tx tx = true → (∀ size, serialized_size tx = Some size → size <= MAX_TX_SIZE) →
  tx_to tx = PROTOCOL_TREASURY → tx_amount tx = 0 → tx_fee tx = 0 →
  (length (bc_mempool bc) < MAX_MEMPOOL_SIZE)%nat →
  mempool_pending_count bc PROTOCOL_TREASURY < MAX_MEMPOOL_PER_SENDER →
  tx_timestamp tx = now → 0 <= now → now + 300 <= U64_MAX →
  txid tx ∉ bc_mempool_txids bc →
  ∃ bc', add_to_mempool serialized_size now tx bc = (bc', Ok tt) ∧ tx ∈ bc_mempool bc'.
Proof.
  intros Hsys Hsz Hto Ham Hfee Hlen Hcnt Hts Hn0 Hn Hid.
  assert (Hfrom : tx_from tx = PROTOCOL_TREASURY).
  { unfold is_system_tx in Hsys. bool_hyps. done. }
  assert (Hcb : is_coinbase tx = false).
  { unfold is_coinbase. apply bool_decide_eq_false_2. by rewrite Hfrom. }
  eexists. split; [unfold add_to_mempool, lift_result; unfold_st_goal|].
  - rewrite Hcb. destruct (serialized_size tx) as [size|];
      [rewrite (proj2 (Z.ltb_ge _ _)) by (by apply Hsz)|];
      rewrite (proj2 (Nat.leb_gt _ _)), Hfrom, Hto, (proj2 (Z.leb_gt _ _)) by done;
      change (is_valid_sentrix_address PROTOCOL_TREASURY) with true;
      change (bool_decide (PROTOCOL_TREASURY = TOKEN_OP_ADDRESS)) with false; simpl;
      unfold wrapping_add; rewrite wrap_small, Hts by ulia;
      rewrite (proj2 (Z.ltb_ge _ _)) by lia;
      unfold saturating_add at 1; unfold MEMPOOL_MAX_AGE_SECS; rewrite (proj2 (Z.ltb_ge _ _)) by lia;
      rewrite bool_decide_eq_false_2 by done; unfold validate; rewrite Hcb, Hsys, Ham, Hfee;
      unfold saturating_sub; simpl; rewrite (proj2 (Z.ltb_ge _ _)) by lia; reflexivity.
  - simpl. rewrite insert_at_perm. set_solver.
Qed.
End mempool.

(** ** Examples *)

Definition unit_types : ChainTypes := {| NftRegistry := unit; SentrixTrie := unit |}.

(** The number of leading matches. *)
Fixpoint leading (p : Transaction → bool) (l : list Transaction) : nat :=
  match l with [] => 0 | x :: l => if p x then S (leading p l) else 0 end.
Definition leading_point : PartitionPoint.
Proof.
  refine {| partition_point := leading |}.
  - intros p l. induction l as [|x l IH]; simpl; [done|]. destruct (p x); lia.
  - intros p l k Hl Hk. induction Hl as [|x l Hx _ IH]; simpl.
    + destruct k as [|y k]; simpl; [done|]. by apply Forall_cons in Hk as [-> _].
    + by rewrite Hx, IH.
Defined.

(** A JSON reader that knows one document, a downtime bundle. *)
Definition bundle_json : Json := {|
  json_string s := s;
  token_op_encode _ := None; token_op_decode _ := None;
  staking_op_encode _ := None;
  staking_op_decode d := if bool_decide (d = "jail_evidence_bundle")
    then Some (StakingOp_JailEvidenceBundle 0 0 0 [] []) else None;
|}.

Section examples.
#[local] Existing Instances unit_types leading_point bundle_json toy_sha toy_tx_crypto.

Definition alice : string := "0x00000000000000000000000000000000000a11ce".
Definition rich_db : AccountDB :=
  AccountDB_new <| accounts := {[alice := Account_new alice <| acct_balance := 1000000 |>]} |>.
Definition empty_chain : Blockchain :=
  mkBlockchain unit_types [] rich_db (AuthorityManager_new "") ContractRegistry_new tt [] ∅ ∅ 0 7119
    None StakeRegistry_new EpochManager_new SlashingEngine_new SelfProduced false false.

(** Two payments, the first signed long before the second. *)
Definition payment (n ts f : Z) : Transaction :=
  @Transaction_new bundle_json toy_sha toy_tx_crypto alice
    "0x0000000000000000000000000000000000000b0b" 5 f n "" 7119 alice alice ts.
Definition two_pending : Blockchain :=
  foldl (λ bc op, run_mempool (λ _, None) op bc) empty_chain
    [MpAdd 1000 (payment 0 1000 10000); MpAdd 3000 (payment 1 3000 20000)].

Lemma mempool_inv_empty : mempool_inv empty_chain.
Proof. split; try done; [apply NoDup_nil_2|simpl; lia]. Qed.

Lemma mempool_inv_run_witness :
  mempool_inv empty_chain ∧ length (bc_mempool two_pending) = 2%nat ∧ mempool_inv two_pending.
Proof.
  split; [exact mempool_inv_empty|]. split; [vm_compute; reflexivity|].
  exact (mempool_inv_run (λ _, None) _ empty_chain mempool_inv_empty).
Defined.


Lemma prune_strands_sender_witness :
  let bc := prune_mempool 5000 two_pending in
  pending bc alice = [payment 1 3000 20000] ∧ tx_nonce (payment 1 3000 20000) = 1 ∧
  ∀ bc', add_to_mempool (λ _, None) 5000 (payment 0 5000 10000) bc ≠ (bc', Ok tt).
Proof.
  destruct (prune_strands_sender (λ _, None) 5000 two_pending alice
    (payment 0 1000 10000) (payment 1 3000 20000) []) as (H1 & H2 & H3).
  - exact (run_mempool_inv (λ _, None) (MpAdd 3000 (payment 1 3000 20000)) _
      (run_mempool_inv (λ _, None) (MpAdd 1000 (payment 0 1000 10000)) _ mempool_inv_empty)).
  - vm_compute. reflexivity.
  - vm_compute. reflexivity.
  - vm_compute. intros Hf. apply Hf. reflexivity.
  - repeat constructor. vm_compute. discriminate.
  - vm_compute. discriminate.
  - vm_compute. discriminate.
  - split; [exact H1|]. split; [vm_compute; reflexivity|].
    intros bc'. apply (H3 5000 (payment 0 5000 10000) bc'); vm_compute; reflexivity.
Defined.

Definition fake_system_tx : Transaction :=
  mkTx "poison" PROTOCOL_TREASURY PROTOCOL_TREASURY 0 0 77 "jail_evidence_bundle" 1000 0 "" "".

Lemma system_tx_admitted_witness :
  ∃ bc', add_to_mempool (λ _, None) 1000 fake_system_tx empty_chain = (bc', Ok tt) ∧
         fake_system_tx ∈ bc_mempool bc'.
Proof.
  apply (system_tx_admitted (λ _, None) 1000 fake_system_tx empty_chain).
  - vm_compute. reflexivity.
  - done.
  - reflexivity.
  - reflexivity.
  - reflexivity.
  - vm_compute. lia.
  - vm_compute. reflexivity.
  - reflexivity.
  - lia.
  - ulia.
  - simpl. set_solver.
Defined.
End examples.
