(* ===== verification/SignGuard.v ===== *)
(** * The last-sign guard (crates/sentrix-bft/src/last_sign_guard.rs)

    The process-wide record of the last signed (height, round, step), its file
    on disk, and the guarded [sign] methods of crates/sentrix-bft/src/messages.rs.
    Disk writes can fail: each operation takes the outcome of the write it
    performs.  The theorems cover restarts. *)

From S2P Require Import Prelude Bytes BftMessages.

(** ** State *)

Inductive VoteStep : Type := StepPrevote | StepPrecommit | StepProposal | StepOther.
Definition step_ord (s : VoteStep) : Z :=
  match s with StepPrevote => 1 | StepPrecommit => 2 | StepProposal => 0 | StepOther => 99 end.

Record LastSignState := mkLast {
  ls_height : Z;
  ls_round : Z;
  ls_step : Z;
  ls_bytes_hex : string;
}.
#[global] Instance LastSignState_eta : Eta LastSignState := λ s,
  mkLast (ls_height s) (ls_round s) (ls_step s) (ls_bytes_hex s).
Definition LastSignState_default : LastSignState := mkLast 0 0 0 "".

(** The [OnceLock] guard in memory and the state file. *)
Record GuardWorld := mkGuardWorld {
  g_mem : option LastSignState;
  g_disk : option LastSignState;
}.
#[global] Instance GuardWorld_eta : Eta GuardWorld := λ w, mkGuardWorld (g_mem w) (g_disk w).

Abbreviation sign_tuple := (Z * Z * Z)%type.
Definition last_tuple (s : LastSignState) : sign_tuple := (ls_height s, ls_round s, ls_step s).

(** The derived lexicographic order on [(u64, u32, u32)]. *)
Definition tuple_leb (a b : sign_tuple) : bool :=
  let '(h, r, s) := a in let '(h', r', s') := b in
  (h <? h') || ((h =? h') && ((r <? r') || ((r =? r') && (s <=? s')))).

Inductive guard_result : Type :=
  | GuardOk
  | DoubleSignAttempt (attempted last_signed : sign_tuple).

(** ** Operations *)

(** [init]: [io_ok] is the outcome of creating the file, when that is needed. *)
Definition guard_init (io_ok : bool) (w : GuardWorld) : GuardWorld * bool :=
  match g_mem w with
  | Some _ => (w, true)
  | None =>
      match g_disk w with
      | Some st => (w <| g_mem := Some st |>, true)
      | None =>
          if io_ok
          then (mkGuardWorld (Some LastSignState_default) (Some LastSignState_default), true)
          else (w, false)
      end
  end.

Definition guard_current_state (w : GuardWorld) : option LastSignState := g_mem w.

Section guard.
(** SHA-256 and hex, as one function. *)
Context (hash_payload : bytes → string).

(** [io_ok] is the outcome of [write_atomic], which replaces the file or
    leaves it as it was. *)
Definition check_and_record_with_bytes (io_ok : bool) (height round : Z) (step : VoteStep)
    (payload : bytes) (w : GuardWorld) : GuardWorld * guard_result :=
  match g_mem w with
  | None => (w, GuardOk)
  | Some st =>
      match step with
      | StepOther => (w, GuardOk)
      | _ =>
          let cur := last_tuple st in
          let new := (height, round, step_ord step) in
          if bool_decide (new = cur) && negb (bool_decide (payload = [])) then
            if negb (bool_decide (ls_bytes_hex st = ""))
               && bool_decide (ls_bytes_hex st = hash_payload payload)
            then (w, GuardOk)
            else (w, DoubleSignAttempt new cur)
          else if tuple_leb new cur then (w, DoubleSignAttempt new cur)
          else
            let st := mkLast height round (step_ord step)
                        (if bool_decide (payload = []) then "" else hash_payload payload) in
            let w := w <| g_mem := Some st |> in
            if io_ok then (w <| g_disk := Some st |>, GuardOk)
            else (w, DoubleSignAttempt new cur)
      end
  end.

Definition check_and_record (io_ok : bool) (height round : Z) (step : VoteStep)
    : GuardWorld → GuardWorld * guard_result :=
  check_and_record_with_bytes io_ok height round step [].

(** *** The guarded [sign] methods *)

Context `{Crypto}.

Definition pv_sign (io_ok : bool) (sk : SecretKey) (p : Prevote) (w : GuardWorld)
    : GuardWorld * Prevote :=
  let payload := pv_signing_payload (pv_height p) (pv_round p) (pv_block_hash p) in
  match check_and_record_with_bytes io_ok (pv_height p) (pv_round p) StepPrevote payload w with
  | (w, GuardOk) => (w, p <| pv_signature := sign_payload payload sk |>)
  | (w, DoubleSignAttempt _ _) => (w, p)
  end.
Definition pc_sign (io_ok : bool) (sk : SecretKey) (p : Precommit) (w : GuardWorld)
    : GuardWorld * Precommit :=
  let payload := pc_signing_payload (pc_height p) (pc_round p) (pc_block_hash p) in
  match check_and_record_with_bytes io_ok (pc_height p) (pc_round p) StepPrecommit payload w with
  | (w, GuardOk) => (w, p <| pc_signature := sign_payload payload sk |>)
  | (w, DoubleSignAttempt _ _) => (w, p)
  end.
Definition prop_sign (io_ok : bool) (sk : SecretKey) (p : Proposal) (w : GuardWorld)
    : GuardWorld * Proposal :=
  let payload := prop_signing_payload (pp_height p) (pp_round p) (pp_block_hash p) in
  match check_and_record_with_bytes io_ok (pp_height p) (pp_round p) StepProposal payload w with
  | (w, GuardOk) => (w, p <| pp_signature := sign_payload payload sk |>)
  | (w, DoubleSignAttempt _ _) => (w, p)
  end.
End guard.

(** ** Runs with restarts *)

(** What happens to the validator process: a signing request, or a crash
    followed by a start that initialises the guard from the file. *)
Inductive guard_event : Type :=
  | ESign (io_ok : bool) (height round : Z) (step : VoteStep) (payload : bytes)
  | ERestart (io_ok : bool).

(** Only the consensus steps are guarded and counted. *)
Definition signed_entry : Type := sign_tuple * bytes.

Definition run_event (hash : bytes → string) (e : guard_event)
    (x : GuardWorld * list signed_entry) : GuardWorld * list signed_entry :=
  let '(w, log) := x in
  match e with
  | ESign io h r s p =>
      match check_and_record_with_bytes hash io h r s p w with
      | (w, GuardOk) => (w, log ++ [((h, r, step_ord s), p)])
      | (w, DoubleSignAttempt _ _) => (w, log)
      end
  | ERestart io => ((guard_init io (w <| g_mem := None |>)).1, log)
  end.
Definition run_events (hash : bytes → string) (es : list guard_event)
    (x : GuardWorld * list signed_entry) : GuardWorld * list signed_entry :=
  foldl (λ x e, run_event hash e x) x es.

(** A request the source can make: a guarded step and a non-empty payload. *)
Definition event_ok (e : guard_event) : Prop :=
  match e with
  | ESign io _ _ s p => io = true ∧ s ≠ StepOther ∧ p ≠ []
  | ERestart _ => True
  end.

(** The payloads a run asks to sign. *)
Definition requested (es : list guard_event) : list bytes :=
  omap (λ e, match e with ESign _ _ _ _ p => Some p | ERestart _ => None end) es.

(** ** No double signing across restarts *)

Lemma tuple_leb_spec a b :
  tuple_leb a b = true ↔
  a.1.1 < b.1.1 ∨ (a.1.1 = b.1.1 ∧ (a.1.2 < b.1.2 ∨ (a.1.2 = b.1.2 ∧ a.2 <= b.2))).
Proof.
  destruct a as [[h r] s], b as [[h' r'] s']. unfold tuple_leb. simpl.
  rewrite !orb_true_iff, !andb_true_iff, !orb_true_iff, !andb_true_iff.
  rewrite !Z.ltb_lt, !Z.eqb_eq, Z.leb_le. tauto.
Qed.
Lemma tuple_leb_refl a : tuple_leb a a = true.
Proof. apply tuple_leb_spec. lia. Qed.
Lemma tuple_leb_trans a b c :
  tuple_leb a b = true → tuple_leb b c = true → tuple_leb a c = true.
Proof. rewrite !tuple_leb_spec. lia. Qed.
Lemma tuple_leb_antisym a b : tuple_leb a b = true → tuple_leb b a = true → a = b.
Proof.
  rewrite !tuple_leb_spec. destruct a as [[h r] s], b as [[h' r'] s']. simpl. intros.
  repeat f_equal; lia.
Qed.
Lemma tuple_leb_total a b : tuple_leb a b = false → tuple_leb b a = true.
Proof.
  intros Hf. apply not_true_iff_false in Hf. rewrite tuple_leb_spec in Hf.
  apply tuple_leb_spec. lia.
Qed.

Section no_double_sign.
Context (hash : bytes → string).

(** The three outcomes of a guarded request. *)
Lemma guard_advance io h r s p w st :
  g_mem w = Some st → s ≠ StepOther → p ≠ [] →
  tuple_leb (h, r, step_ord s) (last_tuple st) = false →
  check_and_record_with_bytes hash io h r s p w =
  let st' := mkLast h r (step_ord s) (hash p) in
  if io then (mkGuardWorld (Some st') (Some st'), GuardOk)
  else (mkGuardWorld (Some st') (g_disk w), DoubleSignAttempt (h, r, step_ord s) (last_tuple st)).
Proof.
  intros Hm Hs Hp Hlt. unfold check_and_record_with_bytes. rewrite Hm.
  rewrite (bool_decide_eq_false_2 ((h, r, step_ord s) = last_tuple st)).
  2:{ intros E. rewrite E, tuple_leb_refl in Hlt. done. }
  rewrite (bool_decide_eq_false_2 (p = [])), Hlt by done. by destruct s.
Qed.
Lemma guard_replay h r s p w st io :
  g_mem w = Some st → s ≠ StepOther → p ≠ [] → (h, r, step_ord s) = last_tuple st →
  ls_bytes_hex st = hash p → hash p ≠ "" →
  check_and_record_with_bytes hash io h r s p w = (w, GuardOk).
Proof.
  intros Hm Hs Hp Ht Hh Hne. unfold check_and_record_with_bytes. rewrite Hm.
  rewrite (bool_decide_eq_true_2 ((h, r, step_ord s) = last_tuple st)) by done.
  rewrite (bool_decide_eq_false_2 (p = [])) by done. rewrite Hh.
  rewrite (bool_decide_eq_false_2 (hash p = "")), (bool_decide_eq_true_2 (hash p = hash p)) by done.
  by destruct s.
Qed.
Lemma guard_ok_cases io h r s p w w' st :
  g_mem w = Some st → s ≠ StepOther → p ≠ [] →
  check_and_record_with_bytes hash io h r s p w = (w', GuardOk) →
  (w' = w ∧ (h, r, step_ord s) = last_tuple st ∧ ls_bytes_hex st = hash p) ∨
  (tuple_leb (h, r, step_ord s) (last_tuple st) = false ∧ io = true ∧
   w' = mkGuardWorld (Some (mkLast h r (step_ord s) (hash p)))
          (Some (mkLast h r (step_ord s) (hash p)))).
Proof.
  intros Hm Hs Hp E. destruct (tuple_leb (h, r, step_ord s) (last_tuple st)) eqn:Hle.
  - left. unfold check_and_record_with_bytes in E. rewrite Hm, Hle in E.
    rewrite (bool_decide_eq_false_2 (p = [])) in E by done.
    destruct s; try done; repeat (case_match; simplify_eq); bool_hyps; eauto.
  - right. rewrite (guard_advance io h r s p w st) in E by done.
    cbn zeta in E. destruct io; [|done]. injection E as <-. done.
Qed.
Lemma guard_refuse_state io h r s p w w' st a b :
  io = true → g_mem w = Some st →
  check_and_record_with_bytes hash io h r s p w = (w', DoubleSignAttempt a b) → w' = w.
Proof.
  intros -> Hm E. unfold check_and_record_with_bytes in E. rewrite Hm in E.
  destruct s; try done; repeat (case_match; simplify_eq); done.
Qed.

(** Memory and disk agree; everything signed lies at or below the recorded
    tuple, and what lies at it hashes to the recorded digest. *)
Definition guard_inv (w : GuardWorld) (log : list signed_entry) : Prop :=
  ∃ st, g_mem w = Some st ∧ g_disk w = Some st ∧
  (∀ t p, (t, p) ∈ log → tuple_leb t (last_tuple st) = true ∧
     (t = last_tuple st → ls_bytes_hex st = hash p)) ∧
  (∀ t p p', (t, p) ∈ log → (t, p') ∈ log → hash p = hash p').

Lemma guard_inv_extend w log st h r s p :
  guard_inv w log → g_mem w = Some st → tuple_leb (h, r, s) (last_tuple st) = false →
  let st' := mkLast h r s (hash p) in
  guard_inv (mkGuardWorld (Some st') (Some st')) (log ++ [((h, r, s), p)]).
Proof.
  intros (st0 & Hm & _ & Hlog & Hsame) Hst Hlt st'. assert (st0 = st) as -> by congruence.
  assert (Hnew : ∀ q, ((h, r, s), q) ∉ log).
  { intros q [Hle _]%Hlog. congruence. }
  exists st'. split_and!; try done.
  - intros t q Hin. apply elem_of_app in Hin as [Hin|Hin].
    + destruct (Hlog t q Hin) as [Hle _]. split.
      * eapply tuple_leb_trans; [exact Hle|]. by apply tuple_leb_total.
      * intros ->. by destruct (Hnew q).
    + apply list_elem_of_singleton in Hin as [= -> ->]. split; [apply tuple_leb_refl|done].
  - intros t q q' H1 H2. apply elem_of_app in H1 as [H1|H1], H2 as [H2|H2].
    + by eapply Hsame.
    + apply list_elem_of_singleton in H2 as [= -> ->]. by destruct (Hnew q).
    + apply list_elem_of_singleton in H1 as [= -> ->]. by destruct (Hnew q').
    + apply list_elem_of_singleton in H1 as [= -> ->], H2 as [= ->]. done.
Qed.

(** Re-signing the recorded message. *)
Lemma guard_inv_replay w log st p :
  guard_inv w log → g_mem w = Some st → ls_bytes_hex st = hash p →
  guard_inv w (log ++ [(last_tuple st, p)]).
Proof.
  intros (st0 & Hm & Hd & Hlog & Hsame) Hst Hp. assert (st0 = st) as -> by congruence.
  exists st. split_and!; try done.
  - intros t q Hin. apply elem_of_app in Hin as [Hin|Hin]; [by apply Hlog|].
    apply list_elem_of_singleton in Hin as [= -> ->]. split; [apply tuple_leb_refl|done].
  - intros t q q' H1 H2. apply elem_of_app in H1 as [H1|H1], H2 as [H2|H2].
    + by eapply Hsame.
    + apply list_elem_of_singleton in H2 as [= -> ->]. destruct (Hlog _ _ H1) as [_ E].
      rewrite <-E, Hp; done.
    + apply list_elem_of_singleton in H1 as [= -> ->]. destruct (Hlog _ _ H2) as [_ E].
      rewrite <-E, Hp; done.
    + apply list_elem_of_singleton in H1 as [= -> ->], H2 as [= ->]. done.
Qed.

Lemma guard_inv_event e w log :
  event_ok e → guard_inv w log →
  let '(w', log') := run_event hash e (w, log) in guard_inv w' log'.
Proof.
  intros He Hinv. pose proof Hinv as (st & Hm & Hd & _).
  destruct e as [io h r s p|io]; simpl.
  - destruct He as (-> & Hs & Hp).
    destruct (check_and_record_with_bytes hash true h r s p w) as [w' [|a b]] eqn:E.
    + destruct (guard_ok_cases _ _ _ _ _ _ _ _ Hm Hs Hp E) as [(-> & -> & Hh)|(Hlt & _ & ->)].
      * by apply guard_inv_replay.
      * by eapply guard_inv_extend.
    + apply (guard_refuse_state _ _ _ _ _ _ _ st) in E; [by subst|done|done].
  - unfold guard_init. simpl. rewrite Hd. simpl.
    destruct Hinv as (st0 & Hm0 & Hd0 & Hrest). exists st0.
    split_and!; [simpl; congruence|simpl; congruence|apply Hrest..].
Qed.

Lemma guard_inv_run es w log :
  Forall event_ok es → guard_inv w log →
  let '(w', log') := run_events hash es (w, log) in guard_inv w' log'.
Proof.
  intros Hes. revert w log. induction Hes as [|e es He Hes IH]; intros w log Hinv; [done|].
  unfold run_events in *. cbn [foldl].
  pose proof (guard_inv_event e w log He Hinv) as H1.
  destruct (run_event hash e (w, log)) as [w1 log1]. by apply IH.
Qed.

(** Only what was requested is signed. *)
Lemma signed_requested es w log t p :
  (t, p) ∈ (run_events hash es (w, log)).2 → (t, p) ∈ log ∨ p ∈ requested es.
Proof.
  revert w log. induction es as [|e es IH]; intros w log Hin; [by left|].
  unfold run_events in *. cbn [foldl] in Hin.
  assert (Hstep : ∀ q, (t, q) ∈ (run_event hash e (w, log)).2 → (t, q) ∈ log ∨ q ∈ requested [e]).
  { intros q. destruct e as [io h r s p'|io]; simpl; [|by left].
    destruct (check_and_record_with_bytes _ _ _ _ _ _ _) as [w' []]; simpl; [|by left].
    rewrite elem_of_app, list_elem_of_singleton. intros [?|[= _ ->]]; [by left|right; set_solver]. }
  destruct (run_event hash e (w, log)) as [w1 log1] eqn:E. apply IH in Hin as [Hin|Hin].
  - destruct (Hstep p Hin) as [?|Hp]; [by left|right]. destruct e; simpl in *; set_solver.
  - right. destruct e; simpl; set_solver.
Qed.
End no_double_sign.

(** The guard just after its first start. *)
Definition fresh_guard : GuardWorld :=
  mkGuardWorld (Some LastSignState_default) (Some LastSignState_default).

Lemma fresh_guard_init : (guard_init true (mkGuardWorld None None)).1 = fresh_guard.
Proof. done. Qed.

(** C7: with the guard enabled and disk writes that succeed, no run of the guard,
    whatever the requests and however often the process crashes and restarts, lets two
    different payloads be signed for the same (height, round, step), unless the digest
    it stores collides on two payloads of that run. *)
Theorem no_double_sign_across_restarts (hash : bytes → string) es t p p' :
  collision_free hash (requested es) → Forall event_ok es →
  let log := (run_events hash es (fresh_guard, [])).2 in
  (t, p) ∈ log → (t, p') ∈ log → p = p'.
Proof.
  intros Hcf Hes log H1 H2.
  assert (Hreq : ∀ q, (t, q) ∈ log → q ∈ requested es).
  { intros q Hq. apply signed_requested in Hq as [Hq|]; [by apply elem_of_nil in Hq|done]. }
  apply Hcf; [by apply Hreq..|].
  pose proof (guard_inv_run hash es fresh_guard [] Hes) as Hrun.
  unfold log in *. destruct (run_events hash es (fresh_guard, [])) as [w l]. simpl in *.
  destruct Hrun as (st & _ & _ & _ & Hsame); [|by eapply Hsame].
  exists LastSignState_default. split_and!; try done; set_solver.
Qed.

(** When a disk write fails, the guard refuses to sign but has already
    advanced its memory.  Retrying the same message is then taken for a
    rebroadcast and signed without touching the disk, so after a crash a
    different message for the same (height, round, step) is signed as well. *)
Theorem failed_write_allows_double_sign (hash : bytes → string) h r step p p' :
  0 < h → step ≠ StepOther → p ≠ [] → p' ≠ [] → hash p ≠ "" →
  run_events hash [ESign false h r step p; ESign true h r step p; ERestart true;
                   ESign true h r step p'] (fresh_guard, [])
  = (mkGuardWorld (Some (mkLast h r (step_ord step) (hash p')))
       (Some (mkLast h r (step_ord step) (hash p'))),
     [((h, r, step_ord step), p); ((h, r, step_ord step), p')]).
Proof.
  intros Hh Hs Hp Hp' Hne.
  assert (Hlt : tuple_leb (h, r, step_ord step) (0, 0, 0) = false).
  { apply not_true_iff_false. rewrite tuple_leb_spec. simpl. lia. }
  unfold run_events. cbn [foldl]. unfold run_event.
  rewrite (guard_advance hash false h r step p fresh_guard LastSignState_default) by done.
  cbn zeta iota. erewrite guard_replay by done. cbn [guard_init fst g_mem g_disk upd].
  erewrite guard_advance by done. done.
Qed.

(** ** Signing and verification *)

(** An unsigned proposal, prevote or precommit by the owner of the
    validator address carries a signature that verifies after [sign] exactly
    when the guard allowed it; signed with another key it never verifies. *)
Theorem sign_verifies_iff_allowed `{CryptoLaws} (hash : bytes → string) io sk w :
  let allowed h r s payload :=
    (check_and_record_with_bytes hash io h r s payload w).2 = GuardOk in
  (∀ p, pv_signature p = [] →
     pv_verify_sig (pv_sign hash io sk p w).2 = true ↔
     derive_address (public_key sk) = pv_validator p ∧
     allowed (pv_height p) (pv_round p) StepPrevote
       (pv_signing_payload (pv_height p) (pv_round p) (pv_block_hash p))) ∧
  (∀ p, pc_signature p = [] →
     pc_verify_sig (pc_sign hash io sk p w).2 = true ↔
     derive_address (public_key sk) = pc_validator p ∧
     allowed (pc_height p) (pc_round p) StepPrecommit
       (pc_signing_payload (pc_height p) (pc_round p) (pc_block_hash p))) ∧
  (∀ p, pp_signature p = [] →
     prop_verify_sig (prop_sign hash io sk p w).2 = true ↔
     derive_address (public_key sk) = pp_proposer p ∧
     allowed (pp_height p) (pp_round p) StepProposal
       (prop_signing_payload (pp_height p) (pp_round p) (pp_block_hash p))).
Proof.
  assert (Hv : ∀ payload v, verify_vote_signature payload (sign_payload payload sk) v = true ↔
    derive_address (public_key sk) = v).
  { intros payload v. split; [|intros <-; apply verify_own_signature].
    intros E. destruct (decide (derive_address (public_key sk) = v)); [done|].
    by rewrite verify_foreign_signature in E. }
  intros allowed. unfold allowed. split_and!; intros p Hsig;
    unfold pv_verify_sig, pc_verify_sig, prop_verify_sig, pv_sign, pc_sign, prop_sign;
    destruct (check_and_record_with_bytes _ _ _ _ _ _ _) as [w' [|a b]]; simpl;
    rewrite ?Hsig, ?Hv; simpl; split; naive_solver.
Qed.

(** ** The theorems at concrete inputs *)

(** An injective stand-in for SHA-256. *)
Definition toy_hash (x : bytes) : string := pretty (Npos (encode x)).
Lemma toy_hash_inj x y : toy_hash x = toy_hash y → x = y.
Proof. unfold toy_hash. intros E. apply (inj pretty) in E. injection E as E.
  by apply (inj encode) in E. Qed.

Lemma no_double_sign_across_restarts_witness :
  let log := (run_events toy_hash
    [ESign true 5 0 StepPrevote [1]; ERestart true; ESign true 5 0 StepPrevote [1];
     ESign true 5 0 StepPrevote [2]] (fresh_guard, [])).2 in
  length log = 2%nat ∧ ∀ p, ((5, 0, 1), p) ∈ log → p = [1].
Proof.
  intros log. split; [vm_compute; reflexivity|]. intros p Hp.
  apply (no_double_sign_across_restarts toy_hash
    [ESign true 5 0 StepPrevote [1]; ERestart true; ESign true 5 0 StepPrevote [1];
     ESign true 5 0 StepPrevote [2]] (5, 0, 1) p [1]).
  - intros x y _ _. apply toy_hash_inj.
  - repeat constructor; discriminate.
  - exact Hp.
  - apply (bool_decide_unpack _). vm_compute. exact I.
Defined.

Lemma failed_write_allows_double_sign_witness :
  (run_events toy_hash [ESign false 5 0 StepPrevote [1]; ESign true 5 0 StepPrevote [1];
     ERestart true; ESign true 5 0 StepPrevote [2]] (fresh_guard, [])).2
  = [((5, 0, 1), [1]); ((5, 0, 1), [2])].
Proof.
  rewrite (failed_write_allows_double_sign toy_hash 5 0 StepPrevote [1] [2]);
    [reflexivity|lia|discriminate..|vm_compute; discriminate].
Defined.

(** A stand-in scheme: a key is a number, a signature carries it, an address
    is its decimal text. *)
#[local] Instance toy_crypto : Crypto := {|
  SecretKey := Z; PublicKey := Z; sha256 := λ x, x; public_key := λ k, k;
  sign_recoverable := λ _ k, (k :: replicate 63 0, 0);
  recover_ecdsa := λ _ sig _, head sig; derive_address := λ k, pretty k |}.
#[local] Instance toy_crypto_laws : CryptoLaws.
Proof. split; intros; simpl; [reflexivity|lia|reflexivity]. Qed.

Lemma sign_verifies_iff_allowed_witness :
  pv_verify_sig (pv_sign toy_hash true (7 : @SecretKey toy_crypto)
    (mkPrevote 5 0 None "7" []) fresh_guard).2 = true ∧
  pv_verify_sig (pv_sign toy_hash true (8 : @SecretKey toy_crypto)
    (mkPrevote 5 0 None "7" []) fresh_guard).2 ≠ true.
Proof.
  split.
  - apply (proj1 (sign_verifies_iff_allowed toy_hash true (7 : @SecretKey toy_crypto)
      fresh_guard)); [reflexivity|]. split; [reflexivity|vm_compute; reflexivity].
  - intros E. apply (proj1 (sign_verifies_iff_allowed toy_hash true (8 : @SecretKey toy_crypto)
      fresh_guard)) in E; [|reflexivity]. destruct E as [E _]. vm_compute in E. discriminate E.
Defined.
