(* ===== verification/BftEngine.v ===== *)
(** * The BFT engine

    Models crates/sentrix-bft/src/engine.rs with engine/state.rs,
    engine/timeouts.rs and engine/vote_collector.rs: the round state, the vote
    tallies and every handler.  Each handler returns the engine and the action
    for its driver.  [now] is the clock reading of the call, in milliseconds.
    Metrics and log lines are left out. *)

From S2P Require Import Prelude Staking BftMessages.

(** ** Timeouts *)

Definition PROPOSE_TIMEOUT_MS : Z := 20000.
Definition PREVOTE_TIMEOUT_MS : Z := 12000.
Definition PRECOMMIT_TIMEOUT_MS : Z := 12000.
Definition TIMEOUT_INCREMENT_MS : Z := 1000.
Definition VOTE_TIMEOUT_INCREMENT_MS : Z := 2000.
Definition MAX_TIMEOUT_MS : Z := 30000.
Definition MAX_ROUND : Z := 100.

Definition propose_timeout (round : Z) : Z :=
  Z.min (saturating_add U64_MAX PROPOSE_TIMEOUT_MS
           (saturating_mul U64_MAX round TIMEOUT_INCREMENT_MS)) MAX_TIMEOUT_MS.
Definition prevote_timeout (round : Z) : Z :=
  Z.min (saturating_add U64_MAX PREVOTE_TIMEOUT_MS
           (saturating_mul U64_MAX round VOTE_TIMEOUT_INCREMENT_MS)) MAX_TIMEOUT_MS.
Definition precommit_timeout (round : Z) : Z :=
  Z.min (saturating_add U64_MAX PRECOMMIT_TIMEOUT_MS
           (saturating_mul U64_MAX round VOTE_TIMEOUT_INCREMENT_MS)) MAX_TIMEOUT_MS.

(** ** Round state *)

Inductive BftPhase : Type := Propose | PhasePrevote | PhasePrecommit | Finalize.
#[global] Instance BftPhase_eq_dec : EqDecision BftPhase.
Proof. solve_decision. Defined.

Record BftRoundState := mkRoundState {
  height : Z;
  round : Z;
  phase : BftPhase;
  proposed_hash : option string;
  prevotes : gmap string (option string * Z);
  precommits : gmap string (option string * bytes * Z);
  our_prevote_cast : bool;
  our_precommit_cast : bool;
  locked_hash : option string;
  locked_round : option Z;
  locked_block : option bytes;
  staging_block : option (string * bytes);
  total_active_stake : Z;
}.
#[global] Instance BftRoundState_eta : Eta BftRoundState := λ s,
  mkRoundState (height s) (round s) (phase s) (proposed_hash s) (prevotes s) (precommits s)
    (our_prevote_cast s) (our_precommit_cast s) (locked_hash s) (locked_round s)
    (locked_block s) (staging_block s) (total_active_stake s).

Definition BftRoundState_new (h r stake : Z) : BftRoundState :=
  mkRoundState h r Propose None ∅ ∅ false false None None None None stake.

Definition state_advance_round (s : BftRoundState) : BftRoundState :=
  s <| round := saturating_add U32_MAX (round s) 1 |>
    <| phase := Propose |>
    <| proposed_hash := None |>
    <| prevotes := ∅ |>
    <| precommits := ∅ |>
    <| our_prevote_cast := false |>
    <| our_precommit_cast := false |>
    <| staging_block := None |>.

Definition state_advance_height (new_height stake : Z) (s : BftRoundState) : BftRoundState :=
  BftRoundState_new new_height 0 stake.

(** ** Vote collector *)

Record VoteCollector := mkCollector {
  prevote_tally : gmap (option string) Z;
  precommit_tally : gmap (option string) Z;
}.
#[global] Instance VoteCollector_eta : Eta VoteCollector := λ c,
  mkCollector (prevote_tally c) (precommit_tally c).
Definition VoteCollector_new : VoteCollector := mkCollector ∅ ∅.

(** [*tally.entry(hash).or_insert(0) += stake] *)
Definition tally_add (block_hash : option string) (stake : Z)
    (t : gmap (option string) Z) : gmap (option string) Z :=
  <[block_hash := wrapping_add U64_MAX (default 0 (t !! block_hash)) stake]> t.

Definition add_prevote (block_hash : option string) (stake : Z) (c : VoteCollector)
    : VoteCollector :=
  c <| prevote_tally := tally_add block_hash stake (prevote_tally c) |>.
Definition add_precommit (block_hash : option string) (stake : Z) (c : VoteCollector)
    : VoteCollector :=
  c <| precommit_tally := tally_add block_hash stake (precommit_tally c) |>.

(** The loop over a tally: the first entry that reaches the threshold. *)
Definition tally_supermajority `{HashOrder} (total_stake : Z) (t : gmap (option string) Z)
    : option (option string) :=
  let threshold := supermajority_threshold total_stake in
  fst ∘ snd <$> list_find (λ p, threshold <= p.2) (hm_entries t).

Definition prevote_supermajority `{HashOrder} (total_stake : Z) (c : VoteCollector)
    : option (option string) := tally_supermajority total_stake (prevote_tally c).
Definition precommit_supermajority `{HashOrder} (total_stake : Z) (c : VoteCollector)
    : option (option string) := tally_supermajority total_stake (precommit_tally c).
Definition total_prevote_weight `{HashOrder} (c : VoteCollector) : Z :=
  wrap U64_MAX (sum_of id (hm_values (prevote_tally c))).
Definition total_precommit_weight `{HashOrder} (c : VoteCollector) : Z :=
  wrap U64_MAX (sum_of id (hm_values (precommit_tally c))).
Definition collector_reset (c : VoteCollector) : VoteCollector := mkCollector ∅ ∅.

(** ** The engine *)

Inductive BftAction : Type :=
  | ProposeBlock
  | BroadcastPrevote (p : Prevote)
  | BroadcastPrecommit (p : Precommit)
  | FinalizeBlock (h r : Z) (block_hash : string) (justification : BlockJustification)
  | SkipRound
  | TimeoutAdvanceRound
  | Wait
  | SyncNeeded (peer_height : Z).

Record BftEngine := mkBft {
  state : BftRoundState;
  collector : VoteCollector;
  our_address : string;
  phase_start : Z;
  pending_prevote : option Prevote;
  pending_precommit : option Precommit;
  peer_rounds : gmap string (Z * Z);
}.
#[global] Instance BftEngine_eta : Eta BftEngine := λ e,
  mkBft (state e) (collector e) (our_address e) (phase_start e) (pending_prevote e)
    (pending_precommit e) (peer_rounds e).

Definition BftEngine_new (now h : Z) (addr : string) (stake : Z) : BftEngine :=
  mkBft (BftRoundState_new h 0 stake) VoteCollector_new addr now None None ∅.

(** [f] applied to the round state. *)
Definition on_state (f : BftRoundState → BftRoundState) (e : BftEngine) : BftEngine :=
  e <| state := f (state e) |>.
(** Enter a phase: the phase and its start time. *)
Definition enter_phase (now : Z) (ph : BftPhase) (e : BftEngine) : BftEngine :=
  e <| state := state e <| phase := ph |> |> <| phase_start := now |>.

Definition stash_proposal_bytes (block_hash : string) (data : bytes) (e : BftEngine)
    : BftEngine := on_state (λ s, s <| staging_block := Some (block_hash, data) |>) e.
Definition locked_proposal_bytes (e : BftEngine) : option (string * bytes) :=
  match locked_hash (state e), locked_block (state e) with
  | Some h, Some b => Some (h, b)
  | _, _ => None
  end.
Definition mark_prevote_cast (e : BftEngine) : BftEngine :=
  on_state (λ s, s <| our_prevote_cast := true |>) e.
Definition mark_precommit_cast (e : BftEngine) : BftEngine :=
  on_state (λ s, s <| our_precommit_cast := true |>) e.
Definition build_round_status (e : BftEngine) : RoundStatus :=
  mkRoundStatus (height (state e)) (round (state e)) (our_address e) [].
Definition is_proposer (r : StakeRegistry) (e : BftEngine) : bool :=
  bool_decide (weighted_proposer r (height (state e)) (round (state e)) = Some (our_address e)).
Definition expected_proposer (r : StakeRegistry) (e : BftEngine) : option string :=
  weighted_proposer r (height (state e)) (round (state e)).

(** [elapsed >= timeout] *)
Definition is_timed_out (now : Z) (e : BftEngine) : bool :=
  let timeout := match phase (state e) with
    | Propose => propose_timeout (round (state e))
    | PhasePrevote => prevote_timeout (round (state e))
    | PhasePrecommit => precommit_timeout (round (state e))
    | Finalize => 0
    end in
  timeout <=? now - phase_start e.

Definition new_height (now h stake : Z) (e : BftEngine) : BftEngine :=
  e <| state := state_advance_height h stake (state e) |>
    <| collector := collector_reset (collector e) |>
    <| phase_start := now |>
    <| pending_prevote := None |> <| pending_precommit := None |>
    <| peer_rounds := ∅ |>.

Definition advance_round (now : Z) (e : BftEngine) : BftEngine :=
  e <| state := state_advance_round (state e) |>
    <| collector := collector_reset (collector e) |>
    <| phase_start := now |>
    <| pending_prevote := None |> <| pending_precommit := None |>.

(** The [while self.state.round < target_round] loop; each turn adds one to the
    round, so [target_round - round] turns are enough. *)
Fixpoint catch_up_loop (fuel : nat) (target_round : Z) (e : BftEngine) : BftEngine :=
  match fuel with
  | O => e
  | S fuel =>
      if round (state e) <? target_round then
        catch_up_loop fuel target_round
          (e <| state := state_advance_round (state e) |>
             <| collector := collector_reset (collector e) |>
             <| pending_prevote := None |> <| pending_precommit := None |>)
      else e
  end.

(** Both branches after the loop only log; the result is [None] on every path. *)
Definition catch_up_round (now target_round : Z) (r : StakeRegistry) (e : BftEngine)
    : BftEngine * option Prevote :=
  if target_round <=? round (state e) then (e, None)
  else
    let e := catch_up_loop (Z.to_nat (target_round - round (state e))) target_round e in
    (e <| phase_start := now |>, None).

Definition retry_pending_prevote_for (block_hash : string) (e : BftEngine)
    : option BftAction :=
  match pending_prevote e with
  | Some p =>
      if (pv_height p =? height (state e)) && (pv_round p =? round (state e))
         && bool_decide (pv_block_hash p = Some block_hash)
      then Some (BroadcastPrevote p) else None
  | None => None
  end.

Definition emit_prevote (p : Prevote) (e : BftEngine) : BftEngine * BftAction :=
  match pending_prevote e with
  | Some q =>
      if (pv_height q =? pv_height p) && (pv_round q =? pv_round p)
         && bool_decide (pv_validator q = pv_validator p)
      then if bool_decide (q = p) then (e, BroadcastPrevote q) else (e, Wait)
      else (e <| pending_prevote := Some p |>, BroadcastPrevote p)
  | None => (e <| pending_prevote := Some p |>, BroadcastPrevote p)
  end.

Definition emit_precommit (p : Precommit) (e : BftEngine) : BftEngine * BftAction :=
  match pending_precommit e with
  | Some q =>
      if (pc_height q =? pc_height p) && (pc_round q =? pc_round p)
         && bool_decide (pc_validator q = pc_validator p)
      then if bool_decide (q = p) then (e, BroadcastPrecommit q) else (e, Wait)
      else (e <| pending_precommit := Some p |>, BroadcastPrecommit p)
  | None => (e <| pending_precommit := Some p |>, BroadcastPrecommit p)
  end.

(** Our unsigned vote for [block_hash] in the current round. *)
Definition our_prevote (block_hash : option string) (e : BftEngine) : Prevote :=
  mkPrevote (height (state e)) (round (state e)) block_hash (our_address e) [].
Definition our_precommit (block_hash : option string) (e : BftEngine) : Precommit :=
  mkPrecommit (height (state e)) (round (state e)) block_hash (our_address e) [].

Definition STALE_LOCK_ROUND_GAP : Z := 16.

(** The condition under which [accept_proposal] drops a lock. *)
Definition stale_lock (block_hash : string) (s : BftRoundState) : bool :=
  match locked_hash s, locked_round s with
  | Some lh, Some lr =>
      negb (bool_decide (lh = block_hash)) && bool_decide (locked_block s = None)
      && (STALE_LOCK_ROUND_GAP <=? saturating_sub (round s) lr)
  | _, _ => false
  end.

Definition accept_proposal (now : Z) (block_hash : string) (e : BftEngine)
    : BftEngine * BftAction :=
  let e := if stale_lock block_hash (state e)
           then on_state (λ s, s <| locked_hash := None |> <| locked_round := None |>
                                 <| staging_block := None |>) e
           else e in
  let e := on_state (λ s, s <| proposed_hash := Some block_hash |>) e in
  let e := enter_phase now PhasePrevote e in
  if negb (our_prevote_cast (state e)) then
    let vote_hash := match locked_hash (state e) with
      | Some locked => if bool_decide (locked = block_hash) then Some block_hash else None
      | None => Some block_hash
      end in
    emit_prevote (our_prevote vote_hash e) e
  else (e, Wait).

Definition on_proposal (now : Z) (block_hash proposer : string) (r : StakeRegistry)
    (e : BftEngine) : BftEngine * BftAction :=
  match retry_pending_prevote_for block_hash e with
  | Some action => (e, action)
  | None =>
      if negb (bool_decide (phase (state e) = Propose)) then (e, Wait)
      else if negb (bool_decide (expected_proposer r e = Some proposer)) then (e, Wait)
      else
        match get_validator r proposer with
        | Some v => if v_is_jailed v || v_is_tombstoned v then (e, Wait)
                    else accept_proposal now block_hash e
        | None => accept_proposal now block_hash e
        end
  end.

Definition on_own_proposal (now : Z) (block_hash : string) (e : BftEngine)
    : BftEngine * BftAction :=
  match retry_pending_prevote_for block_hash e with
  | Some action => (e, action)
  | None =>
      if negb (bool_decide (phase (state e) = Propose)) then (e, Wait)
      else accept_proposal now block_hash e
  end.

(** Lock on [h]: drop bytes cached for another hash, take the staged bytes and
    promote them if they are [h]'s. *)
Definition lock_on (h : string) (s : BftRoundState) : BftRoundState :=
  let s := if bool_decide (locked_hash s = Some h) then s else s <| locked_block := None |> in
  let s := s <| locked_hash := Some h |> <| locked_round := Some (round s) |> in
  let staged := staging_block s in
  let s := s <| staging_block := None |> in
  match staged with
  | Some (staged_hash, staged_bytes) =>
      if bool_decide (staged_hash = h) then s <| locked_block := Some staged_bytes |> else s
  | None => s
  end.

(** The gate a vote passes before it is counted: a vote of our own must be the
    pending one, which it then consumes. *)
Definition clear_own_prevote (p : Prevote) (e : BftEngine) : option BftEngine :=
  if bool_decide (pv_validator p = our_address e) then
    match pending_prevote e with
    | Some q => if bool_decide (q = p) then Some (e <| pending_prevote := None |>) else None
    | None => Some e
    end
  else Some e.
Definition clear_own_precommit (p : Precommit) (e : BftEngine) : option BftEngine :=
  if bool_decide (pc_validator p = our_address e) then
    match pending_precommit e with
    | Some q => if bool_decide (q = p) then Some (e <| pending_precommit := None |>) else None
    | None => Some e
    end
  else Some e.

Section with_hash_order.
Context `{HashOrder}.

Definition on_prevote_weighted (now : Z) (p : Prevote) (stake : Z) (e : BftEngine)
    : BftEngine * BftAction :=
  if negb (pv_height p =? height (state e)) then (e, Wait)
  else if negb (pv_round p =? round (state e)) then (e, Wait)
  else
    match clear_own_prevote p e with
    | None => (e, Wait)
    | Some e =>
        if bool_decide (is_Some (prevotes (state e) !! pv_validator p)) then (e, Wait)
        else
          let e := on_state (λ s, s <| prevotes :=
            <[pv_validator p := (pv_block_hash p, stake)]> (prevotes s) |>) e in
          let e := e <| collector := add_prevote (pv_block_hash p) stake (collector e) |> in
          match prevote_supermajority (total_active_stake (state e)) (collector e) with
          | Some hash =>
              if bool_decide (phase (state e) = PhasePrevote) then
                let e := enter_phase now PhasePrecommit e in
                let e := match hash with
                  | Some h => on_state (lock_on h) e
                  | None => e
                  end in
                if negb (our_precommit_cast (state e))
                then emit_precommit (our_precommit hash e) e
                else (e, Wait)
              else (e, Wait)
          | None => (e, Wait)
          end
    end.

Definition on_prevote (now : Z) (p : Prevote) : BftEngine → BftEngine * BftAction :=
  on_prevote_weighted now p 1.

(** The loop that copies the matching precommits into the justification. *)
Definition collect_justification (block_hash : string)
    (entries : list (string * (option string * bytes * Z))) (j : BlockJustification)
    : BlockJustification :=
  foldl (λ j '(val, (vote_hash, sig, w)),
    if bool_decide (vote_hash = Some block_hash) then bj_add_precommit val sig w j else j)
    j entries.

Definition on_precommit_weighted (p : Precommit) (stake : Z) (e : BftEngine)
    : BftEngine * BftAction :=
  if negb (pc_height p =? height (state e)) then (e, Wait)
  else if negb (pc_round p =? round (state e)) then (e, Wait)
  else
    match clear_own_precommit p e with
    | None => (e, Wait)
    | Some e =>
        if bool_decide (is_Some (precommits (state e) !! pc_validator p)) then (e, Wait)
        else
          let e := on_state (λ s, s <| precommits :=
            <[pc_validator p := (pc_block_hash p, pc_signature p, stake)]> (precommits s) |>) e in
          let e := e <| collector := add_precommit (pc_block_hash p) stake (collector e) |> in
          match precommit_supermajority (total_active_stake (state e)) (collector e) with
          | Some (Some block_hash) =>
              let j := BlockJustification_new (height (state e)) (round (state e)) block_hash in
              let j := collect_justification block_hash (hm_entries (precommits (state e))) j in
              let e := on_state (λ s, s <| phase := Finalize |>) e in
              (e, FinalizeBlock (height (state e)) (round (state e)) block_hash j)
          | Some None => (e, SkipRound)
          | None => (e, Wait)
          end
    end.

Definition on_timeout (now : Z) (e : BftEngine) : BftEngine * BftAction :=
  match pending_prevote e with
  | Some p => (e, BroadcastPrevote p)
  | None =>
      match pending_precommit e with
      | Some p => (e, BroadcastPrecommit p)
      | None =>
          match phase (state e) with
          | Propose =>
              let e := enter_phase now PhasePrevote e in
              if negb (our_prevote_cast (state e)) then emit_prevote (our_prevote None e) e
              else (e, Wait)
          | PhasePrevote =>
              let e := enter_phase now PhasePrecommit e in
              if negb (our_precommit_cast (state e)) then emit_precommit (our_precommit None e) e
              else (e, Wait)
          | PhasePrecommit =>
              if MAX_ROUND <=? round (state e) then (e, SkipRound) else (e, TimeoutAdvanceRound)
          | Finalize => (e, Wait)
          end
      end
  end.

(** ** Round synchronisation *)

(** The accumulation loop over peers sorted by descending round. *)
Fixpoint first_reaching (threshold accumulated : Z) (peers : list (Z * Z)) : option Z :=
  match peers with
  | [] => None
  | (r, stake) :: peers =>
      let accumulated := saturating_add U64_MAX accumulated stake in
      if threshold <=? accumulated then Some r else first_reaching threshold accumulated peers
  end.

Definition by_round_desc (a b : Z * Z) : Prop := b.1 <= a.1.
#[global] Instance by_round_desc_dec : RelDecision by_round_desc.
Proof. intros a b. unfold by_round_desc. apply _. Defined.

Definition peers_ahead (e : BftEngine) : list (Z * Z) :=
  merge_sort by_round_desc
    (filter (λ p, round (state e) < p.1) (hm_values (peer_rounds e))).

Definition f_plus_one_round (e : BftEngine) : option Z :=
  if total_active_stake (state e) =? 0 then None
  else first_reaching (total_active_stake (state e) / 3 + 1) 0 (peers_ahead e).

Definition peer_supermajority_higher_round (e : BftEngine) : option Z :=
  if total_active_stake (state e) =? 0 then None
  else first_reaching (supermajority_threshold (total_active_stake (state e))) 0 (peers_ahead e).

(** Record the peer's round, which never goes back, and its current stake. *)
Definition note_peer (st : RoundStatus) (stake : Z) (e : BftEngine) : BftEngine :=
  let entry := default (0, stake) (peer_rounds e !! rs_validator st) in
  let entry := (if entry.1 <=? rs_round st then rs_round st else entry.1, stake) in
  e <| peer_rounds := <[rs_validator st := entry]> (peer_rounds e) |>.

Definition on_round_status_weighted (now : Z) (st : RoundStatus) (stake : Z)
    (r : StakeRegistry) (e : BftEngine) : BftEngine * BftAction :=
  if height (state e) <? rs_height st then (e, SyncNeeded (rs_height st))
  else if rs_height st <? height (state e) then (e, Wait)
  else
    let e := note_peer st stake e in
    match f_plus_one_round e with
    | Some target =>
        if round (state e) <? target then
          match catch_up_round now target r e with
          | (e, Some prevote) => (e, BroadcastPrevote prevote)
          | (e, None) => (e, Wait)
          end
        else (e, Wait)
    | None => (e, Wait)
    end.
End with_hash_order.

Definition on_round_status (now : Z) (st : RoundStatus) (r : StakeRegistry) (e : BftEngine)
    : BftEngine * BftAction :=
  if height (state e) <? rs_height st then (e, SyncNeeded (rs_height st))
  else if (rs_height st =? height (state e))
          && (wrapping_add U32_MAX (round (state e)) 1 <? rs_round st) then
    match catch_up_round now (rs_round st - 1) r e with
    | (e, Some prevote) => (e, BroadcastPrevote prevote)
    | (e, None) => (e, Wait)
    end
  else (e, Wait).

(** ** The engine as a transition system *)

(** One call of the driver into the engine. *)
Inductive BftEvent : Type :=
  | EvNewHeight (h stake : Z)
  | EvAdvanceRound
  | EvCatchUp (target : Z) (r : StakeRegistry)
  | EvProposal (block_hash proposer : string) (r : StakeRegistry)
  | EvOwnProposal (block_hash : string)
  | EvPrevote (p : Prevote) (stake : Z)
  | EvPrecommit (p : Precommit) (stake : Z)
  | EvTimeout
  | EvRoundStatus (st : RoundStatus) (stake : Z) (r : StakeRegistry)
  | EvRoundStatusLegacy (st : RoundStatus) (r : StakeRegistry)
  | EvStash (block_hash : string) (data : bytes)
  | EvMarkPrevote
  | EvMarkPrecommit.

Definition bft_step `{HashOrder} (now : Z) (ev : BftEvent) (e : BftEngine)
    : BftEngine * BftAction :=
  match ev with
  | EvNewHeight h stake => (new_height now h stake e, Wait)
  | EvAdvanceRound => (advance_round now e, Wait)
  | EvCatchUp target r =>
      match catch_up_round now target r e with
      | (e, Some p) => (e, BroadcastPrevote p)
      | (e, None) => (e, Wait)
      end
  | EvProposal b p r => on_proposal now b p r e
  | EvOwnProposal b => on_own_proposal now b e
  | EvPrevote p stake => on_prevote_weighted now p stake e
  | EvPrecommit p stake => on_precommit_weighted p stake e
  | EvTimeout => on_timeout now e
  | EvRoundStatus st stake r => on_round_status_weighted now st stake r e
  | EvRoundStatusLegacy st r => on_round_status now st r e
  | EvStash b data => (stash_proposal_bytes b data e, Wait)
  | EvMarkPrevote => (mark_prevote_cast e, Wait)
  | EvMarkPrecommit => (mark_precommit_cast e, Wait)
  end.

(** The driver's side of the contract: heights only go up, the round counter is
    not at its limit when a round is abandoned, and the rounds it passes on are
    [u32]. *)
Definition event_allowed (ev : BftEvent) (e : BftEngine) : Prop :=
  match ev with
  | EvNewHeight h _ => height (state e) < h
  | EvAdvanceRound => round (state e) < U32_MAX
  | EvCatchUp target _ => target <= U32_MAX
  | EvRoundStatus st _ _ | EvRoundStatusLegacy st _ => in_u32 (rs_round st)
  | _ => True
  end.
