(* ===== verification/BftProps.v ===== *)
(** * The BFT engine: invariants

    What holds of the engine in every reachable state: the tallies are the
    sums of the recorded votes, locks are coherent, pending votes belong to
    the current round and phase.  Runs are sequences of driver calls. *)

From S2P Require Import Prelude Staking BftMessages BftEngine.

(** ** Recorded votes *)

Definition prevotes_for (b : option string) (m : gmap string (option string * Z)) : Z :=
  map_sum (λ _ v, if decide (v.1 = b) then v.2 else 0) m.
Definition precommits_for (b : option string) (m : gmap string (option string * bytes * Z)) : Z :=
  map_sum (λ _ v, if decide (v.1.1 = b) then v.2 else 0) m.

Lemma wrap_add_l x y : wrap U64_MAX (wrap U64_MAX x + y) = wrap U64_MAX (x + y).
Proof. unfold wrap. apply Zplus_mod_idemp_l. Qed.

Lemma tally_add_lookup b stake t b' :
  default 0 (tally_add b stake t !! b')
  = if decide (b = b') then wrap U64_MAX (default 0 (t !! b') + stake)
    else default 0 (t !! b').
Proof. unfold tally_add. rewrite lookup_insert. by case_decide; subst. Qed.

(** ** The invariant *)

Definition slot (e : BftEngine) : Z * Z := (height (state e), round (state e)).

Record lock_wf (s : BftRoundState) : Prop := {
  lw_round : is_Some (locked_hash s) ↔ is_Some (locked_round s);
  lw_block : is_Some (locked_block s) → is_Some (locked_hash s);
  lw_le : ∀ r, locked_round s = Some r → 0 <= r <= round s;
}.

Record engine_inv (e : BftEngine) : Prop := {
  ei_round : in_u32 (round (state e));
  ei_peers : ∀ a p, peer_rounds e !! a = Some p → in_u32 p.1;
  ei_prevotes : ∀ b, default 0 (prevote_tally (collector e) !! b)
                     = wrap U64_MAX (prevotes_for b (prevotes (state e)));
  ei_precommits : ∀ b, default 0 (precommit_tally (collector e) !! b)
                       = wrap U64_MAX (precommits_for b (precommits (state e)));
  ei_lock : lock_wf (state e);
  ei_pend_pv : ∀ p, pending_prevote e = Some p →
    ((pv_height p, pv_round p) = slot e ∧ pv_validator p = our_address e) ∧
    phase (state e) ≠ Propose;
  ei_pend_pc : ∀ p, pending_precommit e = Some p →
    ((pc_height p, pc_round p) = slot e ∧ pc_validator p = our_address e) ∧
    phase (state e) ≠ Propose ∧ phase (state e) ≠ PhasePrevote;
}.

Lemma engine_inv_new now h addr stake : engine_inv (BftEngine_new now h addr stake).
Proof.
  split; simpl; try done.
  split; simpl; [by split; intros [? ?]|by intros [? ?]|done].
Qed.

(** Moving to a later round of the same height. *)
Lemma engine_inv_advance e r now :
  engine_inv e → round (state e) <= r → in_u32 r →
  engine_inv (e <| state := state_advance_round (state e) <| round := r |> |>
                <| collector := collector_reset (collector e) |>
                <| phase_start := now |>
                <| pending_prevote := None |> <| pending_precommit := None |>).
Proof.
  intros He Hle Hr. split; simpl; try done; [apply He|].
  destruct (ei_lock e He) as [H1 H2 H3]. split; simpl; [done|done|].
  intros r' Hr'. pose proof (H3 r' Hr'). lia.
Qed.

(** The catch-up loop reaches its target with exactly the fuel it is given. *)
Lemma catch_up_loop_eq n e :
  round (state e) + Z.of_nat n <= U32_MAX → n ≠ 0%nat →
  catch_up_loop n (round (state e) + Z.of_nat n) e
  = e <| state := state_advance_round (state e)
                    <| round := round (state e) + Z.of_nat n |> |>
      <| collector := collector_reset (collector e) |>
      <| pending_prevote := None |> <| pending_precommit := None |>.
Proof.
  revert e. induction n as [|n IH]; intros e Hn Hnz; [done|]. cbn [catch_up_loop].
  rewrite (proj2 (Z.ltb_lt _ _)) by lia.
  set (e1 := e <| state := _ |> <| collector := _ |> <| pending_prevote := _ |>
               <| pending_precommit := _ |>).
  assert (Hr : round (state e1) = round (state e) + 1) by (unfold e1; simpl; ulia).
  destruct n as [|n].
  - cbn [catch_up_loop]. unfold e1. unfold state_advance_round. simpl.
    replace (saturating_add U32_MAX (round (state e)) 1) with (round (state e) + 1) by ulia. done.
  - replace (round (state e) + Z.of_nat (S (S n)))
      with (round (state e1) + Z.of_nat (S n)) by (rewrite Hr; lia).
    rewrite IH by (rewrite ?Hr; lia). done.
Qed.

Lemma catch_up_round_eq now target r e :
  0 <= round (state e) → target <= U32_MAX → round (state e) < target →
  catch_up_round now target r e
  = (e <| state := state_advance_round (state e) <| round := target |> |>
       <| collector := collector_reset (collector e) |>
       <| phase_start := now |>
       <| pending_prevote := None |> <| pending_precommit := None |>, None).
Proof.
  intros H0 Ht Hlt. unfold catch_up_round. rewrite (proj2 (Z.leb_gt _ _)) by lia.
  set (n := Z.to_nat (target - round (state e))).
  pose proof (catch_up_loop_eq n e ltac:(lia) ltac:(lia)) as E.
  replace (round (state e) + Z.of_nat n) with target in E by lia.
  rewrite E. done.
Qed.

Lemma first_reaching_elem t acc peers r :
  first_reaching t acc peers = Some r → ∃ s, (r, s) ∈ peers.
Proof.
  revert acc. induction peers as [|[r' s] peers IH]; intros acc E; [done|]. simpl in E.
  destruct (_ <=? _); simplify_eq; [exists s; set_solver|].
  destruct (IH _ E) as [s' Hs']. exists s'. set_solver.
Qed.

Lemma elem_of_peers_ahead `{HashOrder} e p :
  p ∈ peers_ahead e ↔ round (state e) < p.1 ∧ ∃ a, peer_rounds e !! a = Some p.
Proof.
  unfold peers_ahead. rewrite merge_sort_Permutation, list_elem_of_filter, elem_of_hm_values. done.
Qed.

Lemma note_peer_inv st stake e :
  engine_inv e → in_u32 (rs_round st) → engine_inv (note_peer st stake e).
Proof.
  intros [H1 H2 H3 H4 H5 H6 H7] Hst. split; try done. simpl.
  intros a p. rewrite lookup_insert_Some. intros [[_ <-]|[_ Hp]]; [|by eapply H2]. simpl.
  destruct (_ <=? _); [done|]. destruct (peer_rounds e !! _) as [q|] eqn:Eq; simpl; [|ulia].
  by eapply H2.
Qed.

Lemma f_plus_one_u32 `{HashOrder} e t :
  engine_inv e → f_plus_one_round e = Some t → t <= U32_MAX.
Proof.
  intros He Ef. unfold f_plus_one_round in Ef. destruct (_ =? 0); [done|].
  apply first_reaching_elem in Ef as [w Hw]. apply elem_of_peers_ahead in Hw as [_ [a Ha]].
  pose proof (ei_peers e He a _ Ha) as Hin. simpl in Hin. clear -Hin. ulia.
Qed.

(** ** How one call changes the engine *)

Definition slot_lt (a b : Z * Z) : Prop := a.1 < b.1 ∨ a.1 = b.1 ∧ a.2 < b.2.

(** A call that leaves the round: everything of the old round is gone. *)
Record new_slot (e e' : BftEngine) : Prop := {
  ns_lt : slot_lt (slot e) (slot e');
  ns_phase : phase (state e') = Propose;
  ns_prevotes : prevotes (state e') = ∅;
  ns_precommits : precommits (state e') = ∅;
  ns_pend_pv : pending_prevote e' = None;
  ns_pend_pc : pending_precommit e' = None;
}.

Lemma round_moves `{HashOrder} now ev e :
  engine_inv e → event_allowed ev e →
  match ev with
  | EvNewHeight _ _ | EvAdvanceRound | EvCatchUp _ _ | EvRoundStatus _ _ _
  | EvRoundStatusLegacy _ _ =>
      let '(e', act) := bft_step now ev e in
      engine_inv e' ∧
      (∀ p, act ≠ BroadcastPrevote p) ∧ (∀ p, act ≠ BroadcastPrecommit p) ∧
      (∀ h r b j, act ≠ FinalizeBlock h r b j) ∧
      (new_slot e e' ∨
       (state e' = state e ∧ collector e' = collector e ∧
        pending_prevote e' = pending_prevote e ∧ pending_precommit e' = pending_precommit e))
  | _ => True
  end.
Proof.
  intros He Hok.
  pose proof (ei_round e He) as Hr.
  (* the common step: catching up from [e0], which has [e]'s round state *)
  assert (Hcatch : ∀ e0 target r, engine_inv e0 → state e0 = state e →
      collector e0 = collector e → pending_prevote e0 = pending_prevote e →
      pending_precommit e0 = pending_precommit e → target <= U32_MAX →
      ∃ e', catch_up_round now target r e0 = (e', None) ∧ engine_inv e' ∧
      (new_slot e e' ∨ (state e' = state e ∧ collector e' = collector e ∧
        pending_prevote e' = pending_prevote e ∧ pending_precommit e' = pending_precommit e))).
  { intros e0 target r He0 Es Ec Ep Eq Ht. unfold in_range in Hr.
    destruct (Z_lt_le_dec (round (state e0)) target) as [Hlt|Hge].
    - rewrite catch_up_round_eq by (rewrite ?Es in *; lia). eexists. split; [done|].
      split; [apply engine_inv_advance; [done|lia|rewrite Es in Hlt; ulia]|].
      left. split; simpl; try done. right. simpl. rewrite Es in *. split; [done|lia].
    - unfold catch_up_round. rewrite (proj2 (Z.leb_le _ _)) by lia. eauto 10. }
  destruct ev as [h stake| |target r| | | | | |st stake r|st r| | |]; try done; simpl in Hok |- *.
  - split_and!; try done; [|left; split; simpl; try done; by left].
    split; simpl; try done.
    split; simpl; [by split; intros [? ?]|by intros [? ?]|done].
  - split_and!; try done.
    + pose proof (engine_inv_advance e (round (state e) + 1) now He ltac:(lia) ltac:(ulia)) as Hadv.
      unfold advance_round. unfold state_advance_round in *. simpl in *.
      replace (saturating_add U32_MAX (round (state e)) 1) with (round (state e) + 1) by ulia. done.
    + left. split; simpl; try done. right. simpl. split; [done|ulia].
  - destruct (Hcatch e target r) as (e' & -> & He' & Hc); try done. 
  - unfold on_round_status_weighted.
    destruct (_ <? _); [split_and!; try done; by right|].
    destruct (_ <? _); [split_and!; try done; by right|].
    pose proof (note_peer_inv st stake e He Hok) as He0.
    destruct (f_plus_one_round (note_peer st stake e)) as [target|] eqn:Ef;
      [|split_and!; try done; by right].
    apply (f_plus_one_u32 _ _ He0) in Ef.
    destruct (_ <? _); [|split_and!; try done; by right].
    destruct (Hcatch (note_peer st stake e) target r) as (e' & -> & He' & Hc); done.
  - unfold on_round_status.
    destruct (_ <? _); [split_and!; try done; by right|].
    destruct (_ && _); [|split_and!; try done; by right].
    destruct (Hcatch e (rs_round st - 1) r) as (e' & -> & He' & Hc); try done.
    clear -Hok. ulia.
Qed.

Definition phase_ord (p : BftPhase) : Z :=
  match p with Propose => 0 | PhasePrevote => 1 | PhasePrecommit => 2 | Finalize => 3 end.

Definition quiet (act : BftAction) : Prop :=
  (∀ p, act ≠ BroadcastPrevote p) ∧ (∀ p, act ≠ BroadcastPrecommit p).

(** What a call inside the round may do with our votes: nothing, repeat the
    pending vote, or cast the one vote of the phase it leaves. *)
Inductive voted (e e' : BftEngine) : BftAction → Prop :=
  | V_quiet act :
      quiet act → phase_ord (phase (state e)) <= phase_ord (phase (state e')) →
      pending_prevote e' = pending_prevote e ∨ pending_prevote e' = None →
      pending_precommit e' = pending_precommit e ∨ pending_precommit e' = None →
      voted e e' act
  | V_again_prevote p : pending_prevote e = Some p → e' = e → voted e e' (BroadcastPrevote p)
  | V_again_precommit p :
      pending_precommit e = Some p → e' = e → voted e e' (BroadcastPrecommit p)
  | V_prevote b :
      phase (state e) = Propose → phase (state e') = PhasePrevote →
      pending_prevote e' = Some (our_prevote b e) →
      pending_precommit e' = pending_precommit e →
      voted e e' (BroadcastPrevote (our_prevote b e))
  | V_precommit b :
      phase (state e) = PhasePrevote → phase (state e') = PhasePrecommit →
      pending_precommit e' = Some (our_precommit b e) →
      pending_prevote e' = pending_prevote e ∨ pending_prevote e' = None →
      voted e e' (BroadcastPrecommit (our_precommit b e)).

Definition same_round (e e' : BftEngine) : Prop :=
  slot e' = slot e ∧ our_address e' = our_address e ∧
  total_active_stake (state e') = total_active_stake (state e).

Lemma no_pending_prevote e : engine_inv e → phase (state e) = Propose → pending_prevote e = None.
Proof.
  intros He Hp. destruct (pending_prevote e) as [p|] eqn:E; [|done].
  by destruct (ei_pend_pv e He p E).
Qed.
Lemma no_pending_precommit e :
  engine_inv e → phase_ord (phase (state e)) <= 1 → pending_precommit e = None.
Proof.
  intros He Hp. destruct (pending_precommit e) as [p|] eqn:E; [|done].
  destruct (ei_pend_pc e He p E) as (_ & H1 & H2). by destruct (phase (state e)).
Qed.

(** Changing the round state without touching votes, round or lock. *)
Lemma engine_inv_state e s pv pc now :
  engine_inv e → round s = round (state e) → height s = height (state e) →
  prevotes s = prevotes (state e) → precommits s = precommits (state e) →
  phase_ord (phase (state e)) <= phase_ord (phase s) → lock_wf s →
  (∀ p, pv = Some p → pending_prevote e = Some p ∨
     ((pv_height p, pv_round p) = slot e ∧ pv_validator p = our_address e) ∧ phase s ≠ Propose) →
  (∀ p, pc = Some p → pending_precommit e = Some p ∨
     ((pc_height p, pc_round p) = slot e ∧ pc_validator p = our_address e) ∧
     phase s ≠ Propose ∧ phase s ≠ PhasePrevote) →
  engine_inv (e <| state := s |> <| phase_start := now |> <| pending_prevote := pv |>
                <| pending_precommit := pc |>).
Proof.
  intros He Er Eh Epv Epc Hph Hl Hpv Hpc. destruct He as [H1 H2 H3 H4 H5 H6 H7].
  split; unfold slot in *; simpl; rewrite ?Er, ?Eh, ?Epv, ?Epc; try done.
  - intros p Hp. destruct (Hpv p Hp) as [Hold|]; [|done]. destruct (H6 p Hold) as [? Hne].
    split; [done|]. intros Ep. rewrite Ep in Hph. by destruct (phase (state e)).
  - intros p Hp. destruct (Hpc p Hp) as [Hold|]; [|done]. destruct (H7 p Hold) as (? & Hne & Hne').
    split; [done|]. split; intros Ep; rewrite Ep in Hph; by destruct (phase (state e)).
Qed.

Lemma stale_lock_wf b s :
  lock_wf s → stale_lock b s = true →
  lock_wf (s <| locked_hash := None |> <| locked_round := None |> <| staging_block := None |>).
Proof.
  intros [H1 H2 H3] Hs. unfold stale_lock in Hs.
  destruct (locked_hash s); [|done]. destruct (locked_round s); [|done]. bool_hyps.
  split; simpl; [by split; intros [? ?]| |done].
  match goal with H : locked_block s = None |- _ => rewrite H end. by intros [? ?].
Qed.

(** The lock in force when [accept_proposal] chooses its vote. *)
Definition lock_at (b : string) (s : BftRoundState) : option string :=
  if stale_lock b s then None else locked_hash s.
Definition vote_for (b : string) (s : BftRoundState) : option string :=
  match lock_at b s with
  | Some l => if bool_decide (l = b) then Some b else None
  | None => Some b
  end.

Lemma accept_proposal_eq now b e :
  engine_inv e → phase (state e) = Propose →
  ∃ s, round s = round (state e) ∧ height s = height (state e) ∧
    prevotes s = prevotes (state e) ∧ precommits s = precommits (state e) ∧
    total_active_stake s = total_active_stake (state e) ∧
    phase s = PhasePrevote ∧ lock_wf s ∧ locked_hash s = lock_at b (state e) ∧
    accept_proposal now b e =
      if our_prevote_cast (state e)
      then (e <| state := s |> <| phase_start := now |>, Wait)
      else (e <| state := s |> <| phase_start := now |>
              <| pending_prevote := Some (our_prevote (vote_for b (state e)) e) |>,
            BroadcastPrevote (our_prevote (vote_for b (state e)) e)).
Proof.
  intros He Hp. pose proof (no_pending_prevote e He Hp) as Hnone.
  unfold accept_proposal, vote_for, lock_at.
  pose proof (stale_lock_wf b (state e) (ei_lock e He)) as Hst.
  destruct (stale_lock b (state e)) eqn:Es; eexists;
    (split_and!; [..|simpl; destruct (our_prevote_cast (state e)); simpl; [reflexivity|];
       unfold emit_prevote; simpl; rewrite Hnone; reflexivity]); try done; simpl.
  - destruct (Hst eq_refl) as [H1 H2 H3]. by split.
  - destruct (ei_lock e He) as [H1 H2 H3]. by split.
Qed.

Lemma accept_proposal_step now b e :
  engine_inv e → phase (state e) = Propose →
  let '(e', act) := accept_proposal now b e in
  engine_inv e' ∧ same_round e e' ∧ voted e e' act.
Proof.
  intros He Hp.
  destruct (accept_proposal_eq now b e He Hp)
    as (s & Er & Eh & Ev & Ec & Et & Ep & Hl & _ & ->).
  assert (Hord : phase_ord (phase (state e)) <= phase_ord (phase s)) by (by rewrite Hp, Ep).
  destruct (our_prevote_cast (state e)).
  - split_and!.
    + pose proof (engine_inv_state e s (pending_prevote e) (pending_precommit e) now He
        Er Eh Ev Ec Hord Hl ltac:(auto) ltac:(auto)) as Hinv. by destruct e.
    + unfold same_round, slot; simpl. by rewrite Er, Eh, Et.
    + apply V_quiet; simpl; auto; split; done.
  - split_and!.
    + pose proof (engine_inv_state e s (Some (our_prevote (vote_for b (state e)) e))
        (pending_precommit e) now He Er Eh Ev Ec Hord Hl) as Hinv.
      destruct e; apply Hinv; [|auto]. intros p [= <-]. right. simpl. by rewrite Ep.
    + unfold same_round, slot; simpl. by rewrite Er, Eh, Et.
    + by apply V_prevote.
Qed.

(** *** Counting a prevote *)

Lemma lock_on_eq h s :
  ∃ lb, lock_on h s = s <| locked_hash := Some h |> <| locked_round := Some (round s) |>
                        <| staging_block := None |> <| locked_block := lb |>.
Proof.
  unfold lock_on. case_bool_decide; simpl;
    destruct (staging_block s) as [[sh sb]|]; try case_bool_decide; eexists; reflexivity.
Qed.

Lemma lock_on_wf h s lb :
  0 <= round s →
  lock_wf (s <| locked_hash := Some h |> <| locked_round := Some (round s) |>
             <| staging_block := None |> <| locked_block := lb |>).
Proof. intros Hr. split; simpl; [by split; eauto|by eauto|]. intros r [= <-]. lia. Qed.

(** The engine with one more prevote on record. *)
Definition count_prevote (p : Prevote) (stake : Z) (e : BftEngine) : BftEngine :=
  e <| state := state e <| prevotes :=
         <[pv_validator p := (pv_block_hash p, stake)]> (prevotes (state e)) |> |>
    <| collector := add_prevote (pv_block_hash p) stake (collector e) |>.
Definition count_precommit (p : Precommit) (stake : Z) (e : BftEngine) : BftEngine :=
  e <| state := state e <| precommits :=
         <[pc_validator p := (pc_block_hash p, pc_signature p, stake)]> (precommits (state e)) |> |>
    <| collector := add_precommit (pc_block_hash p) stake (collector e) |>.

Lemma count_prevote_inv p stake e :
  engine_inv e → prevotes (state e) !! pv_validator p = None →
  engine_inv (count_prevote p stake e).
Proof.
  intros [H1 H2 H3 H4 [L1 L2 L3] H6 H7] Hn. split; try done; simpl.
  intros b. rewrite tally_add_lookup, H3. unfold prevotes_for.
  rewrite map_sum_insert_None by done. simpl. case_decide as Hb; [subst|].
  - rewrite wrap_add_l. f_equal. lia.
  - f_equal. 
Qed.
Lemma count_precommit_inv p stake e :
  engine_inv e → precommits (state e) !! pc_validator p = None →
  engine_inv (count_precommit p stake e).
Proof.
  intros [H1 H2 H3 H4 [L1 L2 L3] H6 H7] Hn. split; try done; simpl.
  intros b. rewrite tally_add_lookup, H4. unfold precommits_for.
  rewrite map_sum_insert_None by done. simpl. case_decide as Hb; [subst|].
  - rewrite wrap_add_l. f_equal. lia.
  - f_equal.
Qed.

(** Dropping pending votes keeps the invariant. *)
Lemma engine_inv_unpend e pv pc :
  engine_inv e → (pv = pending_prevote e ∨ pv = None) → (pc = pending_precommit e ∨ pc = None) →
  engine_inv (e <| pending_prevote := pv |> <| pending_precommit := pc |>).
Proof.
  intros [H1 H2 H3 H4 H5 H6 H7] Hpv Hpc. split; try done; simpl.
  - intros p ->. destruct Hpv as [Hpv|]; [|done]. by apply H6.
  - intros p ->. destruct Hpc as [Hpc|]; [|done]. by apply H7.
Qed.

(** Both own-vote gates only ever drop a pending vote. *)
Lemma clear_own_prevote_eq p e e1 :
  clear_own_prevote p e = Some e1 →
  ∃ pv, (pv = pending_prevote e ∨ pv = None) ∧ e1 = e <| pending_prevote := pv |>.
Proof.
  unfold clear_own_prevote. intros E. repeat (case_match; simplify_eq);
    ((exists None; split; [auto|done]) || (exists (pending_prevote e1); split; [auto|by destruct e1])).
Qed.
Lemma clear_own_precommit_eq p e e1 :
  clear_own_precommit p e = Some e1 →
  ∃ pc, (pc = pending_precommit e ∨ pc = None) ∧ e1 = e <| pending_precommit := pc |>.
Proof.
  unfold clear_own_precommit. intros E. repeat (case_match; simplify_eq);
    ((exists None; split; [auto|done]) || (exists (pending_precommit e1); split; [auto|by destruct e1])).
Qed.

(** Every outcome of [on_prevote_weighted]. *)
Inductive prevote_outcome `{HashOrder} (now : Z) (p : Prevote) (stake : Z) (e : BftEngine)
    : BftEngine → BftAction → Prop :=
  | PO_ignored pv :
      pv = pending_prevote e ∨ pv = None →
      prevote_outcome now p stake e (e <| pending_prevote := pv |>) Wait
  | PO_counted pv :
      pv = pending_prevote e ∨ pv = None → slot e = (pv_height p, pv_round p) →
      prevotes (state e) !! pv_validator p = None →
      prevote_outcome now p stake e
        (count_prevote p stake e <| pending_prevote := pv |>) Wait
  | PO_quorum pv hash s act pc :
      pv = pending_prevote e ∨ pv = None → slot e = (pv_height p, pv_round p) →
      prevotes (state e) !! pv_validator p = None → phase (state e) = PhasePrevote →
      let e2 := count_prevote p stake e in
      prevote_supermajority (total_active_stake (state e)) (collector e2) = Some hash →
      s = match hash with
          | Some h => lock_on h (state e2 <| phase := PhasePrecommit |>)
          | None => state e2 <| phase := PhasePrecommit |>
          end →
      (our_precommit_cast (state e) = true ∧ act = Wait ∧ pc = pending_precommit e ∨
       our_precommit_cast (state e) = false ∧ pc = Some (our_precommit hash e) ∧
       act = BroadcastPrecommit (our_precommit hash e)) →
      prevote_outcome now p stake e
        (e2 <| state := s |> <| phase_start := now |> <| pending_prevote := pv |>
            <| pending_precommit := pc |>) act.

Lemma on_prevote_outcome `{HashOrder} now p stake e :
  engine_inv e →
  prevote_outcome now p stake e (on_prevote_weighted now p stake e).1
    (on_prevote_weighted now p stake e).2.
Proof.
  intros He. unfold on_prevote_weighted.
  assert (Hsame : prevote_outcome now p stake e e Wait).
  { pose proof (PO_ignored now p stake e (pending_prevote e) (or_introl eq_refl)) as Hi.
    by destruct e. }
  destruct (Z.eqb_spec (pv_height p) (height (state e))) as [Eh|]; [|done]. simpl negb. cbv iota.
  destruct (Z.eqb_spec (pv_round p) (round (state e))) as [Er|]; [|done]. simpl negb. cbv iota.
  assert (Hslot : slot e = (pv_height p, pv_round p)) by (unfold slot; congruence).
  destruct (clear_own_prevote p e) as [e1|] eqn:Ec; [|done].
  apply clear_own_prevote_eq in Ec as (pv & Hpv & ->). simpl.
  case_bool_decide as Hdup; [by apply PO_ignored|].
  assert (Hn : prevotes (state e) !! pv_validator p = None).
  { by destruct (prevotes (state e) !! pv_validator p); [destruct Hdup|]. }
  destruct (prevote_supermajority _ _) as [hash|] eqn:Eq; [|by apply PO_counted].
  case_bool_decide as Hph; [|by apply PO_counted].
  pose proof (no_pending_precommit e He ltac:(by rewrite Hph)) as Hnone.
  assert (Eact : ∃ s, s = match hash with
      | Some h => lock_on h (state (count_prevote p stake e) <| phase := PhasePrecommit |>)
      | None => state (count_prevote p stake e) <| phase := PhasePrecommit |> end ∧
      height s = height (state e) ∧ round s = round (state e) ∧
      our_precommit_cast s = our_precommit_cast (state e)).
  { eexists. split; [reflexivity|]. destruct hash as [h|]; [|done].
    destruct (lock_on_eq h (state (count_prevote p stake e) <| phase := PhasePrecommit |>))
      as [lb ->]. done. }
  destruct Eact as (s & Es & Hh & Hr & Hcast).
  set (e3 := match hash with Some h => _ | None => _ end).
  assert (E3 : e3 = count_prevote p stake e <| state := s |> <| phase_start := now |>
                      <| pending_prevote := pv |>)
    by (unfold e3; rewrite Es; by destruct hash).
  rewrite E3. simpl. rewrite Hcast.
  destruct (our_precommit_cast (state e)) eqn:Ecast; simpl.
  - pose proof (PO_quorum now p stake e pv hash s Wait (pending_precommit e) Hpv Hslot Hn Hph
      Eq Es ltac:(left; done)) as Hq. by destruct e.
  - unfold emit_precommit. simpl. rewrite Hnone. simpl.
    unfold our_precommit. simpl. rewrite Hh, Hr.
    apply (PO_quorum now p stake e pv hash s); try done. right. done.
Qed.

Lemma on_prevote_step `{HashOrder} now p stake e :
  engine_inv e →
  let '(e', act) := on_prevote_weighted now p stake e in
  engine_inv e' ∧ same_round e e' ∧ voted e e' act.
Proof.
  intros He. pose proof (on_prevote_outcome now p stake e He) as Ho.
  destruct (on_prevote_weighted now p stake e) as [e' act]. simpl in Ho.
  destruct Ho as [pv Hpv|pv Hpv Hs Hn|pv hash s act pc Hpv Hs Hn Hph e2 Hq Es Hact].
  - split_and!; [|done|apply V_quiet; simpl; [by split|lia|auto|auto]].
    pose proof (engine_inv_unpend e pv (pending_precommit e) He Hpv (or_introl eq_refl)). by destruct e.
  - split_and!; [|done|apply V_quiet; simpl; [by split|lia|auto|auto]].
    pose proof (engine_inv_unpend (count_prevote p stake e) pv (pending_precommit e)
      (count_prevote_inv p stake e He Hn) Hpv (or_introl eq_refl)). by destruct e.
  - pose proof (count_prevote_inv p stake e He Hn) as He2. fold e2 in He2.
    assert (Hs' : round s = round (state e) ∧ height s = height (state e) ∧
      prevotes s = prevotes (state e2) ∧ precommits s = precommits (state e2) ∧
      total_active_stake s = total_active_stake (state e) ∧ phase s = PhasePrecommit ∧ lock_wf s).
    { subst s. destruct hash as [h|].
      - destruct (lock_on_eq h (state e2 <| phase := PhasePrecommit |>)) as [lb ->].
        split_and!; try done. apply (lock_on_wf h (state e2 <| phase := PhasePrecommit |>)).
        apply (ei_round e2 He2).
      - split_and!; try done. destruct (ei_lock e2 He2) as [H1 H2 H3]. by split. }
    destruct Hs' as (Er & Eh & Ev & Ec & Et & Ep & Hl).
    assert (Hord : phase_ord (phase (state e2)) <= phase_ord (phase s)).
    { rewrite Ep. unfold e2. simpl. by rewrite Hph. }
    split_and!.
    + apply (engine_inv_state e2 s pv pc now He2 Er Eh Ev Ec Hord Hl).
      * intros q ->. destruct Hpv as [Hpv|]; [by left|done].
      * intros q ->. destruct Hact as [(_ & _ & Hpc)|(_ & [= ->] & _)]; [by left|].
        right. unfold our_precommit, slot; simpl. by rewrite Ep.
    + unfold same_round, slot; simpl. by rewrite Er, Eh, Et.
    + destruct Hact as [(_ & -> & ->)|(_ & -> & ->)].
      * apply V_quiet; simpl; [by split|by rewrite Hph, Ep|auto|auto].
      * apply V_precommit; simpl; auto.
Qed.

(** *** Counting a precommit *)

Inductive precommit_outcome `{HashOrder} (p : Precommit) (stake : Z) (e : BftEngine)
    : BftEngine → BftAction → Prop :=
  | CO_ignored pc :
      pc = pending_precommit e ∨ pc = None →
      precommit_outcome p stake e (e <| pending_precommit := pc |>) Wait
  | CO_counted pc act :
      pc = pending_precommit e ∨ pc = None → slot e = (pc_height p, pc_round p) →
      precommits (state e) !! pc_validator p = None → act = Wait ∨ act = SkipRound →
      precommit_outcome p stake e (count_precommit p stake e <| pending_precommit := pc |>) act
  | CO_quorum pc b :
      pc = pending_precommit e ∨ pc = None → slot e = (pc_height p, pc_round p) →
      precommits (state e) !! pc_validator p = None →
      let e2 := count_precommit p stake e in
      precommit_supermajority (total_active_stake (state e)) (collector e2) = Some (Some b) →
      precommit_outcome p stake e
        (e2 <| state := state e2 <| phase := Finalize |> |> <| pending_precommit := pc |>)
        (FinalizeBlock (height (state e)) (round (state e)) b
           (collect_justification b (hm_entries (precommits (state e2)))
              (BlockJustification_new (height (state e)) (round (state e)) b))).

Lemma on_precommit_outcome `{HashOrder} p stake e :
  precommit_outcome p stake e (on_precommit_weighted p stake e).1
    (on_precommit_weighted p stake e).2.
Proof.
  unfold on_precommit_weighted.
  assert (Hsame : precommit_outcome p stake e e Wait).
  { pose proof (CO_ignored p stake e (pending_precommit e) (or_introl eq_refl)) as Hi.
    by destruct e. }
  destruct (Z.eqb_spec (pc_height p) (height (state e))) as [Eh|]; [|done]. simpl negb. cbv iota.
  destruct (Z.eqb_spec (pc_round p) (round (state e))) as [Er|]; [|done]. simpl negb. cbv iota.
  assert (Hslot : slot e = (pc_height p, pc_round p)) by (unfold slot; congruence).
  destruct (clear_own_precommit p e) as [e1|] eqn:Ec; [|done].
  apply clear_own_precommit_eq in Ec as (pc & Hpc & ->). simpl.
  case_bool_decide as Hdup; [by apply CO_ignored|].
  assert (Hn : precommits (state e) !! pc_validator p = None).
  { by destruct (precommits (state e) !! pc_validator p); [destruct Hdup|]. }
  destruct (precommit_supermajority _ _) as [[b|]|] eqn:Eq.
  - by apply CO_quorum.
  - apply (CO_counted p stake e pc); auto.
  - apply (CO_counted p stake e pc); auto.
Qed.

Lemma on_precommit_step `{HashOrder} p stake e :
  engine_inv e →
  let '(e', act) := on_precommit_weighted p stake e in
  engine_inv e' ∧ same_round e e' ∧ voted e e' act.
Proof.
  intros He. pose proof (on_precommit_outcome p stake e) as Ho.
  destruct (on_precommit_weighted p stake e) as [e' act]. simpl in Ho.
  destruct Ho as [pc Hpc|pc act Hpc Hs Hn Hact|pc b Hpc Hs Hn e2 Hq].
  - split_and!; [|done|apply V_quiet; simpl; [by split|lia|auto|auto]].
    pose proof (engine_inv_unpend e (pending_prevote e) pc He (or_introl eq_refl) Hpc). by destruct e.
  - split_and!; [|done|apply V_quiet; simpl; [by destruct Hact; subst; split|lia|auto|auto]].
    pose proof (engine_inv_unpend (count_precommit p stake e) (pending_prevote e) pc
      (count_precommit_inv p stake e He Hn) (or_introl eq_refl) Hpc). by destruct e.
  - pose proof (count_precommit_inv p stake e He Hn) as He2. fold e2 in He2. split_and!; [|done|].
    + assert (Hinv : ∀ s, s = state e2 <| phase := Finalize |> → engine_inv
          (e2 <| state := s |> <| pending_precommit := pc |>)); [|by apply Hinv].
      intros s ->. destruct e. apply (engine_inv_state e2); try done; simpl.
      * by destruct (phase _).
      * destruct (ei_lock e2 He2) as [H1 H2 H3]. by split.
      * auto.
      * intros q ->. destruct Hpc as [Hpc|]; [by left|done].
    + apply V_quiet; simpl; [by split|by destruct (phase _)|auto|auto].
Qed.

(** *** Timeouts and proposals *)

Definition set_phase (ph : BftPhase) (s : BftRoundState) : BftRoundState := s <| phase := ph |>.

Lemma on_timeout_step now e :
  engine_inv e →
  let '(e', act) := on_timeout now e in engine_inv e' ∧ same_round e e' ∧ voted e e' act.
Proof.
  intros He. unfold on_timeout.
  destruct (pending_prevote e) as [p|] eqn:Epv; [split_and!; [done|done|by constructor]|].
  destruct (pending_precommit e) as [p|] eqn:Epc; [split_and!; [done|done|by constructor]|].
  assert (Hl : ∀ ph, lock_wf (set_phase ph (state e))).
  { intros ph. destruct (ei_lock e He) as [H1 H2 H3]. by split. }
  destruct (phase (state e)) eqn:Hph; cbn zeta.
  - change (our_prevote None (enter_phase now PhasePrevote e)) with (our_prevote None e).
    change (our_prevote_cast (state (enter_phase now PhasePrevote e)))
      with (our_prevote_cast (state e)).
    destruct (our_prevote_cast (state e)); simpl; unfold emit_prevote; simpl; rewrite ?Epv.
    + split_and!; [|done|apply V_quiet; simpl; [by split|by rewrite Hph|auto|auto]].
      pose proof (engine_inv_state e (set_phase PhasePrevote (state e)) (pending_prevote e)
        (pending_precommit e) now He eq_refl eq_refl eq_refl eq_refl ltac:(by rewrite Hph)
        (Hl _) ltac:(auto) ltac:(auto)). by destruct e.
    + split_and!; [|done|by apply (V_prevote _ _ None)].
      pose proof (engine_inv_state e (set_phase PhasePrevote (state e))
        (Some (our_prevote None e)) (pending_precommit e) now He eq_refl eq_refl eq_refl eq_refl
        ltac:(by rewrite Hph) (Hl _)) as Hinv.
      destruct e; apply Hinv; [|auto]. intros q [= <-]. by right.
  - change (our_precommit None (enter_phase now PhasePrecommit e)) with (our_precommit None e).
    change (our_precommit_cast (state (enter_phase now PhasePrecommit e)))
      with (our_precommit_cast (state e)).
    destruct (our_precommit_cast (state e)); simpl; unfold emit_precommit; simpl; rewrite ?Epc.
    + split_and!; [|done|apply V_quiet; simpl; [by split|by rewrite Hph|auto|auto]].
      pose proof (engine_inv_state e (set_phase PhasePrecommit (state e)) (pending_prevote e)
        (pending_precommit e) now He eq_refl eq_refl eq_refl eq_refl ltac:(by rewrite Hph)
        (Hl _) ltac:(auto) ltac:(auto)). by destruct e.
    + split_and!; [|done|apply (V_precommit _ _ None); simpl; auto].
      pose proof (engine_inv_state e (set_phase PhasePrecommit (state e))
        (pending_prevote e) (Some (our_precommit None e)) now He eq_refl eq_refl eq_refl eq_refl
        ltac:(by rewrite Hph) (Hl _)) as Hinv.
      destruct e; apply Hinv; [auto|]. intros q [= <-]. by right.
  - destruct (_ <=? _); (split_and!; [done|done|apply V_quiet; simpl; [by split|lia|auto|auto]]).
  - split_and!; [done|done|apply V_quiet; simpl; [by split|lia|auto|auto]].
Qed.

Lemma retry_pending_voted b e act :
  retry_pending_prevote_for b e = Some act → voted e e act.
Proof.
  unfold retry_pending_prevote_for. intros E. repeat (case_match; simplify_eq). by constructor.
Qed.

Lemma waiting e : engine_inv e → engine_inv e ∧ same_round e e ∧ voted e e Wait.
Proof. intros He. split_and!; [done|done|apply V_quiet; [by split|lia|auto|auto]]. Qed.

Lemma on_own_proposal_step now b e :
  engine_inv e →
  let '(e', act) := on_own_proposal now b e in engine_inv e' ∧ same_round e e' ∧ voted e e' act.
Proof.
  intros He. unfold on_own_proposal.
  destruct (retry_pending_prevote_for b e) as [act|] eqn:Er.
  { split_and!; [done|done|by eapply retry_pending_voted]. }
  case_bool_decide as Hp; [by apply accept_proposal_step|by apply waiting].
Qed.

Lemma on_proposal_step now b a r e :
  engine_inv e →
  let '(e', act) := on_proposal now b a r e in engine_inv e' ∧ same_round e e' ∧ voted e e' act.
Proof.
  intros He. unfold on_proposal.
  destruct (retry_pending_prevote_for b e) as [act|] eqn:Er.
  { split_and!; [done|done|by eapply retry_pending_voted]. }
  case_bool_decide as Hp; [|by apply waiting]. simpl negb. cbv iota.
  destruct (negb _); [by apply waiting|].
  destruct (get_validator r a) as [v|]; [|by apply accept_proposal_step].
  destruct (_ || _); [by apply waiting|by apply accept_proposal_step].
Qed.

(** *** One step *)

(** The verdict on a step, from the one on a round move or a handler. *)
Definition step_verdict (e e' : BftEngine) (act : BftAction) : Prop :=
  engine_inv e' ∧
  (new_slot e e' ∧ quiet act ∧ (∀ h r b j, act ≠ FinalizeBlock h r b j) ∨
   slot e' = slot e ∧ voted e e' act).

Lemma handler_verdict e (x : BftEngine * BftAction) :
  (let '(e', act) := x in engine_inv e' ∧ same_round e e' ∧ voted e e' act) →
  let '(e', act) := x in step_verdict e e' act.
Proof. destruct x as [e' act]. intros (H1 & (H2 & _) & H3). split; auto. Qed.

Lemma move_verdict e (x : BftEngine * BftAction) :
  (let '(e', act) := x in
   engine_inv e' ∧ (∀ p, act ≠ BroadcastPrevote p) ∧ (∀ p, act ≠ BroadcastPrecommit p) ∧
   (∀ h r b j, act ≠ FinalizeBlock h r b j) ∧
   (new_slot e e' ∨ (state e' = state e ∧ collector e' = collector e ∧
      pending_prevote e' = pending_prevote e ∧ pending_precommit e' = pending_precommit e))) →
  let '(e', act) := x in step_verdict e e' act.
Proof.
  destruct x as [e' act].
  intros (H1 & H2 & H3 & H4 & [H5|(Es & _ & Ep & Eq)]); (split; [done|]); [by left|right].
  split; [unfold slot; by rewrite Es|]. apply V_quiet; [by split|by rewrite Es|auto|auto].
Qed.

(** Marking a vote cast, or stashing bytes. *)
Lemma mark_verdict e s :
  engine_inv e → lock_wf s → round s = round (state e) → height s = height (state e) →
  prevotes s = prevotes (state e) → precommits s = precommits (state e) →
  phase s = phase (state e) → step_verdict e (e <| state := s |>) Wait.
Proof.
  intros He Hl Er Eh Ev Ec Ep. split.
  - pose proof (engine_inv_state e s (pending_prevote e) (pending_precommit e) (phase_start e) He
      Er Eh Ev Ec ltac:(by rewrite Ep) Hl ltac:(auto) ltac:(auto)). by destruct e.
  - right. split; [unfold slot; simpl; by rewrite Er, Eh|].
    apply V_quiet; simpl; [by split|by rewrite Ep|auto|auto].
Qed.

Lemma bft_step_cases `{HashOrder} now ev e :
  engine_inv e → event_allowed ev e →
  let '(e', act) := bft_step now ev e in step_verdict e e' act.
Proof.
  intros He Hok. pose proof (ei_lock e He) as [L1 L2 L3].
  pose proof (round_moves now ev e He Hok) as Hmove.
  destruct ev; try (by apply move_verdict); cbn [bft_step].
  - by apply handler_verdict, on_proposal_step.
  - by apply handler_verdict, on_own_proposal_step.
  - by apply handler_verdict, on_prevote_step.
  - by apply handler_verdict, on_precommit_step.
  - by apply handler_verdict, on_timeout_step.
  - by apply mark_verdict.
  - by apply mark_verdict.
  - by apply mark_verdict.
Qed.
