(* ===== verification/BftTheorems.v ===== *)
(** * The BFT engine: theorems

    Properties of every run of the engine: no equivocation, justified
    finalisation, accountable agreement within a round, the locking
    discipline, the round-skip rule, and the timeouts. *)

From S2P Require Import Prelude Staking BftMessages BftEngine BftProps.

(** ** Runs *)

(** The engine states and the actions emitted so far, along driver calls that
    satisfy [ok], from the engine [e0]. *)
Inductive bft_run `{HashOrder} (ok : BftEvent → Prop) (e0 : BftEngine)
    : BftEngine → list BftAction → Prop :=
  | run_start : bft_run ok e0 e0 []
  | run_next e acts now ev :
      bft_run ok e0 e acts → event_allowed ev e → ok ev →
      bft_run ok e0 (bft_step now ev e).1 (acts ++ [(bft_step now ev e).2]).

Definition any_event (ev : BftEvent) : Prop := True.

Section runs.
Context `{HashOrder}.

Lemma run_engine_inv ok e0 e acts : engine_inv e0 → bft_run ok e0 e acts → engine_inv e.
Proof.
  intros H0. induction 1 as [|e acts now ev Hrun IH Hal Hok]; [done|].
  pose proof (bft_step_cases now ev e IH Hal) as Hs.
  destruct (bft_step now ev e) as [e' act]. apply Hs.
Qed.

(** ** One vote per round

    The argument is the same for prevotes and precommits: [cast] reads the
    vote off an action, [pend] is the engine's pending vote, and [late] holds
    of the phases after the vote was due. *)

Section one_vote.
Context {V : Type} (vslot : V → Z * Z) (cast : BftAction → option V)
  (pend : BftEngine → option V) (late : BftPhase → Prop).

Definition vote_step (e e' : BftEngine) (act : BftAction) : Prop :=
  (slot_lt (slot e) (slot e') ∧ pend e' = None ∧ cast act = None) ∨
  (slot e' = slot e ∧ (late (phase (state e)) → late (phase (state e'))) ∧
   (pend e' = pend e ∨ pend e' = None) ∧ (cast act = None ∨ cast act = pend e)) ∨
  (slot e' = slot e ∧ ¬ late (phase (state e)) ∧ late (phase (state e')) ∧
   ∃ v, vslot v = slot e ∧ cast act = Some v ∧ pend e' = Some v).

Record log_ok (e : BftEngine) (acts : list BftAction) : Prop := {
  lo_past : ∀ v, v ∈ omap cast acts → vslot v = slot e ∨ slot_lt (vslot v) (slot e);
  lo_late : ∀ v, v ∈ omap cast acts → vslot v = slot e → late (phase (state e));
  lo_one : ∀ v w, v ∈ omap cast acts → w ∈ omap cast acts → vslot v = vslot w → v = w;
  lo_pend : ∀ v, pend e = Some v → v ∈ omap cast acts;
}.

Lemma slot_lt_trans a b c : slot_lt a b → slot_lt b c → slot_lt a c.
Proof. unfold slot_lt. lia. Qed.
Lemma slot_lt_irrefl a : ¬ slot_lt a a.
Proof. unfold slot_lt. lia. Qed.

Lemma log_ok_step e e' acts act :
  log_ok e acts → vote_step e e' act → log_ok e' (acts ++ [act]).
Proof.
  intros [H1 H2 H3 H4] Hs.
  assert (Hin : ∀ v, v ∈ omap cast (acts ++ [act]) ↔ v ∈ omap cast acts ∨ cast act = Some v).
  { intros v. rewrite omap_app. rewrite elem_of_app. simpl.
    destruct (cast act) as [w|]; set_solver. }
  destruct Hs as [(Hlt & Hp & Hc)|[(Es & Hl & Hp & Hc)|(Es & Hnl & Hl & v0 & Hv0 & Hc & Hp)]].
  - rewrite Hc in Hin. split.
    + intros v [Hv|]%Hin; [|done]. right. destruct (H1 v Hv) as [->|]; [done|by eapply slot_lt_trans].
    + intros v [Hv|]%Hin Ev; [exfalso|done].
      destruct (H1 v Hv) as [E|E]; rewrite Ev in E; [rewrite E in Hlt; by apply slot_lt_irrefl in Hlt|].
      by apply (slot_lt_irrefl (slot e)), (slot_lt_trans _ (slot e')).
    + intros v w [Hv|]%Hin [Hw|]%Hin; [|done..]. by apply H3.
    + intros v Ev. rewrite Hp in Ev. done.
  - assert (Hin' : ∀ v, v ∈ omap cast (acts ++ [act]) ↔ v ∈ omap cast acts).
    { intros v. rewrite Hin. split; [|by left]. intros [?|Hv]; [done|].
      destruct Hc as [Hc|Hc]; [congruence|]. apply H4. congruence. }
    split; setoid_rewrite Hin'; rewrite ?Es; eauto.
    intros v Ev. destruct Hp as [Hp|Hp]; [apply H4; congruence|congruence].
  - assert (Hold : ∀ v, v ∈ omap cast acts → vslot v ≠ vslot v0).
    { intros v Hv E. apply Hnl, (H2 v Hv). congruence. }
    split; [intros v|intros v|intros v w|intros v]; rewrite ?Hin, ?Es, ?Hc, ?Hp.
    + intros [Hv|[= <-]]; [by apply H1|by left].
    + done.
    + intros [Hv|[= <-]] [Hw|[= <-]] E; [by apply H3|by destruct (Hold v Hv)|
        by destruct (Hold w Hw)|done].
    + intros [= <-]. by right.
Qed.
End one_vote.

Definition cast_prevote (act : BftAction) : option Prevote :=
  match act with BroadcastPrevote p => Some p | _ => None end.
Definition cast_precommit (act : BftAction) : option Precommit :=
  match act with BroadcastPrecommit p => Some p | _ => None end.
Definition pv_slot (p : Prevote) : Z * Z := (pv_height p, pv_round p).
Definition pc_slot (p : Precommit) : Z * Z := (pc_height p, pc_round p).
Definition after (n : Z) (ph : BftPhase) : Prop := n <= phase_ord ph.

Lemma quiet_casts act : quiet act → cast_prevote act = None ∧ cast_precommit act = None.
Proof. intros [H1 H2]. destruct act; naive_solver. Qed.

Lemma step_votes now ev e :
  engine_inv e → event_allowed ev e →
  let '(e', act) := bft_step now ev e in
  vote_step pv_slot cast_prevote pending_prevote (after 1) e e' act ∧
  vote_step pc_slot cast_precommit pending_precommit (after 2) e e' act.
Proof.
  intros He Hal. pose proof (bft_step_cases now ev e He Hal) as Hs.
  destruct (bft_step now ev e) as [e' act].
  destruct Hs as [_ [([Hlt Hph _ _ Hpv Hpc] & Hq & _)|[Es Hv]]].
  { apply quiet_casts in Hq as [Hq1 Hq2]. split; left; done. }
  unfold vote_step, after. destruct Hv as [act Hq Hle Hpv Hpc|p Hp ->|p Hp ->
    |b H1 H2 Hp Hpc|b H1 H2 Hp Hpv].
  - apply quiet_casts in Hq as [Hq1 Hq2]. split; right; left; (split_and!; [done|lia|done|auto]).
  - split; right; left; split_and!; auto.
  - split; right; left; split_and!; auto.
  - split; right; [right|left]; rewrite H1, H2; simpl.
    + split_and!; [done|lia|lia|]. exists (our_prevote b e). split_and!; done.
    + split_and!; [done|lia|auto|auto].
  - split; right; [left|right]; rewrite H1, H2; simpl.
    + split_and!; [done|lia|auto|auto].
    + split_and!; [done|lia|lia|]. exists (our_precommit b e). split_and!; done.
Qed.

Lemma elem_of_casts {V} (cast : BftAction → option V) (acts : list BftAction) v :
  v ∈ omap cast acts ↔ ∃ act, act ∈ acts ∧ cast act = Some v.
Proof. apply list_elem_of_omap. Qed.

(** C2: however the driver interleaves proposals, votes, timeouts, round
    changes and retries, the engine never asks it to broadcast two different
    prevotes, or two different precommits, for the same height and round. *)
Theorem no_equivocation ok e0 e acts :
  engine_inv e0 → pending_prevote e0 = None → pending_precommit e0 = None →
  bft_run ok e0 e acts →
  (∀ p q, BroadcastPrevote p ∈ acts → BroadcastPrevote q ∈ acts →
     pv_height p = pv_height q → pv_round p = pv_round q → p = q) ∧
  (∀ p q, BroadcastPrecommit p ∈ acts → BroadcastPrecommit q ∈ acts →
     pc_height p = pc_height q → pc_round p = pc_round q → p = q).
Proof.
  intros H0 Hpv Hpc Hrun.
  assert (Hlog : log_ok pv_slot cast_prevote pending_prevote (after 1) e acts ∧
                 log_ok pc_slot cast_precommit pending_precommit (after 2) e acts).
  { induction Hrun as [|e acts now ev Hrun IH Hal Hok].
    - split; split; simpl; try set_solver; intros; congruence.
    - pose proof (step_votes now ev e (run_engine_inv ok e0 e acts H0 Hrun) Hal) as Hs.
      destruct (bft_step now ev e) as [e' act]. destruct IH, Hs.
      split; by eapply log_ok_step. }
  destruct Hlog as [[_ _ H1 _] [_ _ H2 _]].
  split; intros p q Hp Hq Eh Er; [apply H1|apply H2]; try (apply elem_of_casts; eauto);
    unfold pv_slot, pc_slot; congruence.
Qed.
End runs.

(** ** Finalisation *)

Section finalisation.
Context `{HashOrder}.

Lemma finalize_only_precommit now ev e e' h r b j :
  engine_inv e → event_allowed ev e →
  bft_step now ev e = (e', FinalizeBlock h r b j) → ∃ p stake, ev = EvPrecommit p stake.
Proof.
  intros He Hal E.
  pose proof (round_moves now ev e He Hal) as Hmove.
  destruct ev as [| | | | |p stake|p stake| | | | | |]; try (cbn [bft_step] in Hmove; cbn [bft_step] in E; rewrite E in Hmove;
    destruct Hmove as (_ & _ & _ & Hf & _); by destruct (Hf h r b j)); cbn [bft_step] in E; try discriminate E; eauto;
    exfalso.
  - unfold on_proposal, retry_pending_prevote_for, accept_proposal, emit_prevote in E.
    repeat (case_match; simplify_eq).
  - unfold on_own_proposal, retry_pending_prevote_for, accept_proposal, emit_prevote in E.
    repeat (case_match; simplify_eq).
  - pose proof (on_prevote_outcome now p stake e He) as Ho. rewrite E in Ho. inversion Ho.
    naive_solver.
  - unfold on_timeout, emit_prevote, emit_precommit in E. repeat (case_match; simplify_eq).
Qed.

Lemma tally_supermajority_Some total t b :
  tally_supermajority total t = Some b →
  ∃ w, t !! b = Some w ∧ supermajority_threshold total <= w.
Proof.
  unfold tally_supermajority. rewrite fmap_Some. intros ([i [b' w]] & Hf & ->).
  apply list_find_Some in Hf as (Hl & Hw & _). simpl in *. exists w. split; [|done].
  apply elem_of_hm_entries. by eapply list_elem_of_lookup_2.
Qed.

(** The entries a justification takes from the recorded precommits. *)
Definition votes_for (b : string) (l : list (string * (option string * bytes * Z)))
    : list (string * (option string * bytes * Z)) := filter (λ x, x.2.1.1 = Some b) l.

Lemma collect_justification_cons b v vh sig w l j :
  collect_justification b ((v, (vh, sig, w)) :: l) j =
  collect_justification b l (if bool_decide (vh = Some b) then bj_add_precommit v sig w j else j).
Proof. done. Qed.

Lemma collect_justification_eq b l j :
  bj_block_hash j = b →
  collect_justification b l j =
  j <| bj_precommits := bj_precommits j ++
    ((λ x : string * (option string * bytes * Z), mkSigned x.1 b x.2.1.2 x.2.2) <$> votes_for b l) |>.
Proof.
  revert j. induction l as [|[v [[vh sig] w]] l IH]; intros j Hj.
  - simpl. rewrite app_nil_r. by destruct j.
  - rewrite collect_justification_cons. unfold votes_for. rewrite filter_cons. simpl.
    destruct (decide (vh = Some b)) as [->|Hne].
    + rewrite bool_decide_eq_true_2 by done. rewrite IH by done.
      unfold bj_add_precommit. simpl. rewrite <-app_assoc. by rewrite Hj.
    + rewrite bool_decide_eq_false_2 by done. by apply IH.
Qed.

Lemma votes_for_sum b (m : gmap string (option string * bytes * Z)) :
  sum_of (λ x, x.2.2) (votes_for b (hm_entries m)) = precommits_for (Some b) m.
Proof.
  unfold votes_for, precommits_for. rewrite sum_of_filter, map_sum_list, hm_entries_perm. done.
Qed.

Lemma votes_for_NoDup b (m : gmap string (option string * bytes * Z)) :
  NoDup (votes_for b (hm_entries m)).*1.
Proof.
  eapply sublist_NoDup; [apply (NoDup_hm_keys m)|]. unfold hm_keys.
  apply fmap_sublist, sublist_filter.
Qed.

(** What finalising with justification [j] means in the state [e'] reached. *)
Record justified (e' : BftEngine) (h r : Z) (b : string) (j : BlockJustification) : Prop := {
  ju_slot : slot e' = (h, r);
  ju_head : bj_height j = h ∧ bj_round j = r ∧ bj_block_hash j = b;
  ju_distinct : NoDup (sp_validator <$> bj_precommits j);
  ju_votes : ∀ v, v ∈ sp_validator <$> bj_precommits j ↔
    ∃ sig w, precommits (state e') !! v = Some (Some b, sig, w);
  ju_weights : ∀ p, p ∈ bj_precommits j →
    precommits (state e') !! sp_validator p = Some (Some b, sp_signature p, sp_stake_weight p);
  ju_quorum : supermajority_threshold (total_active_stake (state e')) <= bj_total_stake j;
  ju_phase : phase (state e') = Finalize;
}.

Lemma finalize_justified now ev e e' h r b j :
  engine_inv e → event_allowed ev e →
  bft_step now ev e = (e', FinalizeBlock h r b j) → justified e' h r b j.
Proof.
  intros He Hal E.
  destruct (finalize_only_precommit now ev e e' h r b j He Hal E) as (p & stake & ->).
  cbn [bft_step] in E. pose proof (on_precommit_outcome p stake e) as Ho. rewrite E in Ho.
  simpl in Ho. inversion Ho as [|? ? ? ? ? [->|?] |pc b' Hpc Hs Hn e2 Hq E1 E2]; try done; subst.
  clear Ho E. rewrite collect_justification_eq by done. simpl.
  set (m := <[_ := _]> _).
  pose proof (count_precommit_inv p stake e He Hn) as He2. fold e2 in He2.
  apply tally_supermajority_Some in Hq as (w & Hw & Hthr).
  pose proof (ei_precommits e2 He2 (Some b)) as Et. rewrite Hw in Et. simpl in Et.
  assert (Hel : ∀ v sig w0, (v, (Some b, sig, w0)) ∈ votes_for b (hm_entries m) ↔
    m !! v = Some (Some b, sig, w0)).
  { intros v sig w0. unfold votes_for. rewrite list_elem_of_filter, elem_of_hm_entries. naive_solver. }
  split; simpl; try done.
  - rewrite <-list_fmap_compose. apply (votes_for_NoDup b m).
  - intros v. rewrite list_elem_of_fmap. split.
    + intros (sp & -> & ([v' [[vh sig] w0]] & -> & Hx)%list_elem_of_fmap). simpl.
      unfold votes_for in Hx. rewrite list_elem_of_filter in Hx. destruct Hx as [Hb Hx].
      simpl in Hb. subst vh. exists sig, w0. by apply elem_of_hm_entries.
    + intros (sig & w0 & Hv). eexists. split; [|apply list_elem_of_fmap; exists (v, (Some b, sig, w0));
        split; [reflexivity|by apply Hel]]. done.
  - intros sp ([v' [[vh sig] w0]] & -> & Hx)%list_elem_of_fmap. simpl.
    unfold votes_for in Hx. rewrite list_elem_of_filter in Hx. destruct Hx as [Hb Hx].
    simpl in Hb. subst vh. by apply elem_of_hm_entries.
  - unfold bj_total_stake. simpl. rewrite sum_of_fmap. simpl.
    rewrite (votes_for_sum b m). fold m in Et. by rewrite <-Et.
Qed.

(** C5: whenever the engine finalises a block, the justification it hands out
    is for its current height and round, lists each signer once, lists exactly
    the validators whose recorded precommit is for that block, each with the
    weight and signature it was recorded with, and reaches the supermajority
    threshold of the active stake. *)
Theorem finalized_blocks_justified ok e0 e acts now ev e' h r b j :
  engine_inv e0 → bft_run ok e0 e acts → event_allowed ev e →
  bft_step now ev e = (e', FinalizeBlock h r b j) →
  justified e' h r b j ∧
  (total_active_stake (state e') ≠ 0 → has_supermajority j (total_active_stake (state e')) = true).
Proof.
  intros H0 Hrun Hal E.
  pose proof (finalize_justified now ev e e' h r b j (run_engine_inv ok e0 e acts H0 Hrun) Hal E) as Hj.
  split; [done|]. intros Hz. unfold has_supermajority, bj_total_weight.
  rewrite (proj2 (Z.eqb_neq _ _)) by done. apply Z.leb_le, Hj.
Qed.
End finalisation.
