(* ===== verification/BftSafety.v ===== *)
(** * BFT safety: agreement within a round, locking, and its limit

    Two nodes that finalise different blocks in one round expose more than a
    third of the stake as equivocators; votes respect locks; and the stale-lock
    relaxation is outside that protection. *)

From S2P Require Import Prelude Staking BftMessages BftEngine BftProps BftTheorems.

(** ** Weighted quorums *)

Section quorums.
Context (weight : string → Z).

Lemma sum_over_universe (V S : list string) :
  NoDup V → NoDup S → S ⊆ V →
  sum_of weight S = sum_of (λ a, if decide (a ∈ S) then weight a else 0) V.
Proof.
  intros HV HS Hsub. rewrite <-sum_of_filter.
  assert (S ≡ₚ filter (λ a, a ∈ S) V) as Hp; [|by rewrite <-Hp].
  apply NoDup_Permutation; [done|by apply NoDup_filter|].
  intros a. rewrite list_elem_of_filter. set_solver.
Qed.

Definition common (S T : list string) : list string := filter (λ a, a ∈ T) S.

Lemma quorum_overlap (V S T : list string) :
  NoDup V → NoDup S → NoDup T → S ⊆ V → T ⊆ V → (∀ a, a ∈ V → 0 <= weight a) →
  sum_of weight S + sum_of weight T <= sum_of weight V + sum_of weight (common S T).
Proof.
  intros HV HS HT HSV HTV Hw.
  assert (Hc : NoDup (common S T)) by (by apply NoDup_filter).
  assert (HcV : common S T ⊆ V).
  { intros a [_ Ha]%list_elem_of_filter. by apply HSV. }
  rewrite (sum_over_universe V S), (sum_over_universe V T),
    (sum_over_universe V (common S T)) by done.
  rewrite <-!sum_of_plus. apply sum_of_le. intros a Ha. specialize (Hw a Ha).
  destruct (decide (a ∈ common S T)) as [Hin|Hin];
    unfold common in Hin; rewrite list_elem_of_filter in Hin; repeat case_decide; lia || tauto.
Qed.

(** Two supermajorities share more than a third of the stake. *)
Lemma supermajorities_overlap (V S T : list string) total :
  NoDup V → NoDup S → NoDup T → S ⊆ V → T ⊆ V → (∀ a, a ∈ V → 0 <= weight a) →
  sum_of weight V = total → in_u64 total →
  supermajority_threshold total <= sum_of weight S →
  supermajority_threshold total <= sum_of weight T →
  total < 3 * sum_of weight (common S T).
Proof.
  intros HV HS HT HSV HTV Hw Htot Hu HqS HqT.
  pose proof (quorum_overlap V S T HV HS HT HSV HTV Hw) as Ho.
  unfold supermajority_threshold in *. unfold in_range in Hu.
  rewrite wrap_small in HqS, HqT by
    (clear -Hu; autounfold with uint in *; Z.to_euclidean_division_equations; lia).
  clear -Ho HqS HqT Htot Hu. Z.to_euclidean_division_equations; lia.
Qed.
End quorums.

(** ** What a step does to the recorded precommits *)

Definition keeps_precommits (e e' : BftEngine) : Prop :=
  total_active_stake (state e') = total_active_stake (state e) ∧
  (precommits (state e') = ∅ ∨ precommits (state e') = precommits (state e)).

Lemma accept_keeps now b e :
  engine_inv e → phase (state e) = Propose → keeps_precommits e (accept_proposal now b e).1.
Proof.
  intros He Hp. destruct (accept_proposal_eq now b e He Hp)
    as (s & _ & _ & _ & Ec & Et & _ & _ & _ & ->).
  destruct (our_prevote_cast _); split; simpl; auto.
Qed.

Lemma catch_up_keeps now t r e :
  in_u32 (round (state e)) → t <= U32_MAX → keeps_precommits e (catch_up_round now t r e).1.
Proof.
  intros [H1 H2] Hu. destruct (Z_lt_le_dec (round (state e)) t).
  - rewrite catch_up_round_eq by lia. split; simpl; auto.
  - unfold catch_up_round. rewrite (proj2 (Z.leb_le _ _)) by lia. split; simpl; auto.
Qed.

Lemma catch_up_none now t r e : (catch_up_round now t r e).2 = None.
Proof. unfold catch_up_round. by destruct (_ <=? _). Qed.

Lemma step_precommits `{HashOrder} now ev e :
  engine_inv e → event_allowed ev e →
  let e' := (bft_step now ev e).1 in
  match ev with
  | EvNewHeight _ total => total_active_stake (state e') = total ∧ precommits (state e') = ∅
  | EvPrecommit p stake =>
      total_active_stake (state e') = total_active_stake (state e) ∧
      (precommits (state e') = precommits (state e) ∨
       precommits (state e') = <[pc_validator p := (pc_block_hash p, pc_signature p, stake)]>
                                 (precommits (state e)))
  | _ => keeps_precommits e e'
  end.
Proof.
  intros He Hal e'. subst e'.
  assert (Hsame : keeps_precommits e e) by (split; auto).
  pose proof (ei_round e He) as Hr.
  destruct ev as [h t| |t r|b a r|b|p stake|p stake| |st stake r|st r|b d| |];
    cbn [bft_step]; try (by split; simpl; auto).
  - pose proof (catch_up_keeps now t r e Hr Hal) as Hk. pose proof (catch_up_none now t r e) as Hn.
    destruct (catch_up_round now t r e) as [e' o]. simpl in *. by subst o.
  - unfold on_proposal. destruct (retry_pending_prevote_for b e); [done|].
    case_bool_decide; [|done]. simpl negb. cbv iota. destruct (negb _); [done|].
    destruct (get_validator r a); [|by apply accept_keeps].
    destruct (_ || _); [done|by apply accept_keeps].
  - unfold on_own_proposal. destruct (retry_pending_prevote_for b e); [done|].
    case_bool_decide; [by apply accept_keeps|done].
  - pose proof (on_prevote_outcome now p stake e He) as Ho.
    destruct Ho as [| |pv hash s act pc _ _ _ _ e2 _ Es _]; try (split; simpl; auto).
    + subst s. destruct hash as [h|]; [|done].
      destruct (lock_on_eq h (state e2 <| phase := PhasePrecommit |>)) as [lb ->]. done.
    + right. subst s. destruct hash as [h|]; [|done].
      destruct (lock_on_eq h (state e2 <| phase := PhasePrecommit |>)) as [lb ->]. done.
  - pose proof (on_precommit_outcome p stake e) as Ho. destruct Ho; simpl; auto.
  - unfold on_timeout, emit_prevote, emit_precommit. repeat (case_match; simplify_eq; try done);
      split; simpl; auto.
  - unfold on_round_status_weighted. destruct (_ <? _); [done|]. destruct (_ <? _); [done|].
    assert (H0 : keeps_precommits e (note_peer st stake e)) by (split; simpl; auto).
    destruct (f_plus_one_round (note_peer st stake e)) as [t|] eqn:Ef; [|done].
    apply (f_plus_one_u32 _ _ (note_peer_inv st stake e He Hal)) in Ef.
    destruct (_ <? _); [|done].
    pose proof (catch_up_keeps now t r (note_peer st stake e) Hr Ef) as Hk.
    pose proof (catch_up_none now t r (note_peer st stake e)) as Hn.
    destruct (catch_up_round now t r (note_peer st stake e)) as [e' o]. simpl in Hn. by subst o.
  - unfold on_round_status. destruct (_ <? _); [done|]. destruct (_ && _); [|done].
    pose proof (catch_up_keeps now (rs_round st - 1) r e Hr ltac:(simpl in Hal; ulia)) as Hk.
    pose proof (catch_up_none now (rs_round st - 1) r e) as Hn.
    destruct (catch_up_round now (rs_round st - 1) r e) as [e' o]. simpl in *. by subst o.
Qed.

(** ** Agreement within a round *)

(** The validator set of the height: who may vote and with which stake. *)
Record electorate := mkElectorate {
  el_members : list string;
  el_stake : string → Z;
}.
Definition el_total (el : electorate) : Z := sum_of (el_stake el) (el_members el).
Definition electorate_wf (el : electorate) : Prop :=
  NoDup (el_members el) ∧ (∀ a, a ∈ el_members el → 0 <= el_stake el a) ∧ el_total el <= U64_MAX.

(** Precommits reach the engine with the stake of their member (the network
    boundary checks membership and signature), and the height's total is the
    electorate's. *)
Definition electoral (el : electorate) (ev : BftEvent) : Prop :=
  match ev with
  | EvPrecommit p stake => pc_validator p ∈ el_members el ∧ stake = el_stake el (pc_validator p)
  | EvNewHeight _ total => total = el_total el
  | _ => True
  end.

Section agreement.
Context `{HashOrder} (el : electorate).

Definition votes_electoral (e : BftEngine) : Prop :=
  total_active_stake (state e) = el_total el ∧
  ∀ v b sig w, precommits (state e) !! v = Some (b, sig, w) →
    v ∈ el_members el ∧ w = el_stake el v.

Lemma electoral_step now ev e :
  engine_inv e → event_allowed ev e → electoral el ev → votes_electoral e →
  votes_electoral (bft_step now ev e).1.
Proof.
  intros He Hal Hel [Ht Hv]. pose proof (step_precommits now ev e He Hal) as Hs.
  set (e' := (bft_step now ev e).1) in *. clearbody e'.
  assert (Hkeep : keeps_precommits e e' → votes_electoral e').
  { intros [Et [E|E]]; split; try congruence; rewrite E; [|done].
    intros ? ? ? ?. by rewrite lookup_empty. }
  destruct ev as [h t| |t r|b a r|b|p stake|p stake| |st stake r|st r|b d| |];
    try (by apply Hkeep); simpl in Hel.
  - destruct Hs as [Et E]. split; [congruence|]. rewrite E. intros ? ? ? ?. by rewrite lookup_empty.
  - destruct Hs as [Et [E|E]]; split; try congruence; rewrite E; [done|].
    intros v b sig w. rewrite lookup_insert_Some. intros [[<- [= _ _ <-]]|[_ ?]]; [done|by eapply Hv].
Qed.

Lemma electoral_run e0 e acts :
  engine_inv e0 → votes_electoral e0 → bft_run (electoral el) e0 e acts → votes_electoral e.
Proof.
  intros H0 Hv0. induction 1 as [|e acts now ev Hrun IH Hal Hok]; [done|].
  apply electoral_step; try done. by eapply run_engine_inv.
Qed.

(** A justification of a node's own run, in terms of the electorate. *)
Lemma justified_quorum e0 e acts now ev e' h r b j :
  electorate_wf el → engine_inv e0 → votes_electoral e0 → bft_run (electoral el) e0 e acts →
  event_allowed ev e → electoral el ev →
  bft_step now ev e = (e', FinalizeBlock h r b j) →
  let signers := sp_validator <$> bj_precommits j in
  NoDup signers ∧ signers ⊆ el_members el ∧
  supermajority_threshold (el_total el) <= sum_of (el_stake el) signers ∧ justified e' h r b j.
Proof.
  intros (HN & Hnn & Hu) H0 Hv0 Hrun Hal Hok E signers.
  pose proof (run_engine_inv _ _ _ _ H0 Hrun) as He.
  pose proof (finalize_justified now ev e e' h r b j He Hal E) as Hj.
  pose proof (electoral_step now ev e He Hal Hok (electoral_run _ _ _ H0 Hv0 Hrun)) as [Ht Hv].
  rewrite E in Ht, Hv. simpl in Ht, Hv.
  assert (Hsub : signers ⊆ el_members el).
  { intros v Hin. apply (ju_votes _ _ _ _ _ Hj) in Hin as (sig & w & Hl). by eapply Hv. }
  assert (Hsum : sum_of sp_stake_weight (bj_precommits j) = sum_of (el_stake el) signers).
  { unfold signers. rewrite sum_of_fmap. apply sum_of_ext. intros p Hp.
    apply (ju_weights _ _ _ _ _ Hj) in Hp. by eapply Hv. }
  assert (Hle : 0 <= sum_of (el_stake el) signers <= el_total el).
  { split; [apply sum_of_nonneg; intros a Ha; apply Hnn; by apply Hsub|].
    unfold el_total. rewrite (sum_over_universe (el_stake el) (el_members el) signers)
      by (try done; apply Hj). apply sum_of_le. intros a Ha. specialize (Hnn a Ha). by case_decide. }
  split_and!; [apply Hj|done| |done].
  pose proof (ju_quorum _ _ _ _ _ Hj) as Hq. rewrite Ht in Hq. unfold bj_total_stake in Hq.
  rewrite Hsum, wrap_small in Hq by ulia. done.
Qed.
End agreement.

(** C1: if two nodes, each along its own run over the same electorate and
    with its own hash-map order, finalise different blocks at the same height
    and round, then validators holding more than a third of the total stake
    are on record, at the two nodes, with precommits for both blocks.  So
    with at most a third of faulty stake, no round finalises two blocks. *)
Theorem conflicting_finalization_exposes_third (O1 O2 : HashOrder) el
    e01 e1 acts1 now1 ev1 e1' b1 j1 e02 e2 acts2 now2 ev2 e2' b2 j2 h r :
  electorate_wf el →
  engine_inv e01 → votes_electoral el e01 → @bft_run O1 (electoral el) e01 e1 acts1 →
  event_allowed ev1 e1 → electoral el ev1 →
  @bft_step O1 now1 ev1 e1 = (e1', FinalizeBlock h r b1 j1) →
  engine_inv e02 → votes_electoral el e02 → @bft_run O2 (electoral el) e02 e2 acts2 →
  event_allowed ev2 e2 → electoral el ev2 →
  @bft_step O2 now2 ev2 e2 = (e2', FinalizeBlock h r b2 j2) →
  b1 ≠ b2 →
  let guilty := common (sp_validator <$> bj_precommits j1) (sp_validator <$> bj_precommits j2) in
  el_total el < 3 * sum_of (el_stake el) guilty ∧
  ∀ v, v ∈ guilty → v ∈ el_members el ∧
    (∃ sig w, precommits (state e1') !! v = Some (Some b1, sig, w)) ∧
    (∃ sig w, precommits (state e2') !! v = Some (Some b2, sig, w)).
Proof.
  intros Hel H1 Hv1 Hr1 Ha1 Ho1 E1 H2 Hv2 Hr2 Ha2 Ho2 E2 Hne guilty.
  destruct (@justified_quorum O1 el _ _ _ _ _ _ _ _ _ _ Hel H1 Hv1 Hr1 Ha1 Ho1 E1)
    as (N1 & S1 & Q1 & J1).
  destruct (@justified_quorum O2 el _ _ _ _ _ _ _ _ _ _ Hel H2 Hv2 Hr2 Ha2 Ho2 E2)
    as (N2 & S2 & Q2 & J2).
  destruct Hel as (HN & Hnn & Hu). split.
  - eapply (supermajorities_overlap (el_stake el) (el_members el)); try done.
    split; [by apply sum_of_nonneg|done].
  - intros v [Hin2 Hin1]%list_elem_of_filter. split_and!; [by apply S1| |].
    + by apply (ju_votes _ _ _ _ _ J1).
    + by apply (ju_votes _ _ _ _ _ J2).
Qed.

(** ** Locking *)

Section locking.
Context `{HashOrder}.

(** This round's recorded prevotes for [b] reach the threshold. *)
Definition prevote_quorum (b : option string) (e : BftEngine) : Prop :=
  supermajority_threshold (total_active_stake (state e))
  <= wrap U64_MAX (prevotes_for b (prevotes (state e))).

(** How the lock may change in one call. *)
Definition lock_change (ev : BftEvent) (e e' : BftEngine) : Prop :=
  locked_hash (state e') = locked_hash (state e) ∨
  (∃ h stake, ev = EvNewHeight h stake ∧ locked_hash (state e') = None) ∨
  (∃ b, stale_lock b (state e) = true ∧ locked_hash (state e') = None) ∨
  (∃ b, locked_hash (state e') = Some b ∧ locked_round (state e') = Some (round (state e')) ∧
     prevote_quorum (Some b) e').

Lemma accept_lock ev now b e :
  engine_inv e → phase (state e) = Propose → lock_change ev e (accept_proposal now b e).1.
Proof.
  intros He Hp. destruct (accept_proposal_eq now b e He Hp)
    as (s & _ & _ & _ & _ & _ & _ & _ & El & ->).
  unfold lock_change, lock_at in *.
  destruct (stale_lock b (state e)) eqn:Es; destruct (our_prevote_cast _); simpl; eauto 10.
Qed.

Lemma catch_up_lock now t r e :
  in_u32 (round (state e)) → t <= U32_MAX →
  locked_hash (state (catch_up_round now t r e).1) = locked_hash (state e).
Proof.
  intros [H1 H2] Hu. destruct (Z_lt_le_dec (round (state e)) t).
  - by rewrite catch_up_round_eq by lia.
  - unfold catch_up_round. by rewrite (proj2 (Z.leb_le _ _)) by lia.
Qed.

Lemma quorum_outcome now p stake e e' act :
  engine_inv e → on_prevote_weighted now p stake e = (e', act) →
  (locked_hash (state e') = locked_hash (state e) ∨
   ∃ b, locked_hash (state e') = Some b ∧ locked_round (state e') = Some (round (state e')) ∧
     prevote_quorum (Some b) e') ∧
  (∀ q b, act = BroadcastPrecommit q → pc_block_hash q = Some b →
     locked_hash (state e') = Some b ∧ locked_round (state e') = Some (round (state e')) ∧
     prevote_quorum (Some b) e').
Proof.
  intros He E. pose proof (on_prevote_outcome now p stake e He) as Ho. rewrite E in Ho. simpl in Ho.
  destruct Ho as [pv _|pv _ _ _|pv hash s act pc _ _ Hn _ e2 Hq Es Hact];
    [split; [by left|done]|split; [by left|done]|].
  pose proof (count_prevote_inv p stake e He Hn) as He2. fold e2 in He2.
  apply tally_supermajority_Some in Hq as (w & Hw & Hthr).
  pose proof (ei_prevotes e2 He2 hash) as Et. rewrite Hw in Et. simpl in Et.
  assert (Hlock : ∀ b, hash = Some b → locked_hash s = Some b ∧ locked_round s = Some (round s) ∧
    supermajority_threshold (total_active_stake s) <= wrap U64_MAX (prevotes_for (Some b) (prevotes s))).
  { intros b ->. subst s. destruct (lock_on_eq b (state e2 <| phase := PhasePrecommit |>)) as [lb ->].
    split_and!; try done. simpl in *. by rewrite <-Et. }
  split.
  - destruct hash as [b|]; [right; exists b; by apply Hlock|left]. subst s. done.
  - intros q b -> Eb. apply Hlock.
    destruct Hact as [(_ & [=] & _)|(_ & _ & [= ->])]. done.
Qed.

Lemma lock_step now ev e :
  engine_inv e → event_allowed ev e → lock_change ev e (bft_step now ev e).1.
Proof.
  intros He Hal. pose proof (ei_round e He) as Hr.
  assert (Hsame : lock_change ev e e) by by left.
  destruct ev as [h t| |t r|b a r|b|p stake|p stake| |st stake r|st r|b d| |];
    cbn [bft_step]; try (by left).
  - right; left. eauto.
  - pose proof (catch_up_lock now t r e Hr Hal) as Hk. pose proof (catch_up_none now t r e) as Hn.
    destruct (catch_up_round now t r e) as [e' o]. simpl in *. subst o. by left.
  - unfold on_proposal. destruct (retry_pending_prevote_for b e); [done|].
    case_bool_decide; [|done]. simpl negb. cbv iota. destruct (negb _); [done|].
    destruct (get_validator r a); [|by apply accept_lock].
    destruct (_ || _); [done|by apply accept_lock].
  - unfold on_own_proposal. destruct (retry_pending_prevote_for b e); [done|].
    case_bool_decide; [by apply accept_lock|done].
  - destruct (on_prevote_weighted now p stake e) as [e' act] eqn:E.
    destruct (quorum_outcome now p stake e e' act He E) as [[?|?] _]; [by left|by do 3 right].
  - pose proof (on_precommit_outcome p stake e) as Ho. destruct Ho; by left.
  - unfold on_timeout, emit_prevote, emit_precommit. repeat (case_match; simplify_eq; try done); by left.
  - unfold on_round_status_weighted. destruct (_ <? _); [done|]. destruct (_ <? _); [done|].
    destruct (f_plus_one_round (note_peer st stake e)) as [t|] eqn:Ef; [|by left].
    apply (f_plus_one_u32 _ _ (note_peer_inv st stake e He Hal)) in Ef.
    destruct (_ <? _); [|by left].
    pose proof (catch_up_lock now t r (note_peer st stake e) Hr Ef) as Hk.
    pose proof (catch_up_none now t r (note_peer st stake e)) as Hn.
    destruct (catch_up_round now t r (note_peer st stake e)) as [e' o]. simpl in Hn. subst o. by left.
  - unfold on_round_status. destruct (_ <? _); [done|]. destruct (_ && _); [|done].
    pose proof (catch_up_lock now (rs_round st - 1) r e Hr ltac:(simpl in Hal; ulia)) as Hk.
    pose proof (catch_up_none now (rs_round st - 1) r e) as Hn.
    destruct (catch_up_round now (rs_round st - 1) r e) as [e' o]. simpl in *. subst o. by left.
Qed.

(** The vote [accept_proposal] chooses. *)
Lemma vote_for_lock b b' s :
  vote_for b s = Some b' →
  b' = b ∧ (locked_hash s = None ∨ locked_hash s = Some b ∨ stale_lock b s = true).
Proof.
  unfold vote_for, lock_at. destruct (stale_lock b s); [naive_solver|].
  destruct (locked_hash s); [|naive_solver]. case_bool_decide; naive_solver.
Qed.

Lemma fresh_prevote_accept now ev e e' p :
  engine_inv e → event_allowed ev e → pending_prevote e = None →
  bft_step now ev e = (e', BroadcastPrevote p) →
  pv_block_hash p = None ∨ ∃ b, pv_block_hash p = vote_for b (state e).
Proof.
  intros He Hal Hn E. pose proof (round_moves now ev e He Hal) as Hmove.
  assert (Hacc : ∀ b, phase (state e) = Propose → accept_proposal now b e = (e', BroadcastPrevote p) →
    pv_block_hash p = vote_for b (state e)).
  { intros b Hp Ea. destruct (accept_proposal_eq now b e He Hp)
      as (s & _ & _ & _ & _ & _ & _ & _ & _ & Eq). rewrite Ea in Eq.
    destruct (our_prevote_cast _); simplify_eq. done. }
  destruct ev as [h t| |t r|b a r|b|q stake|q stake| |st stake r|st r|b d| |];
    try (cbn [bft_step] in Hmove; cbn [bft_step] in E; rewrite E in Hmove;
      destruct Hmove as (_ & Hf & _); by destruct (Hf p)); cbn [bft_step] in E; try discriminate E.
  - right. exists b. unfold on_proposal in E. unfold retry_pending_prevote_for in E. rewrite Hn in E.
    case_bool_decide as Hp; [|done]. simpl negb in E. cbv iota in E.
    destruct (negb _); [done|]. destruct (get_validator r a); [|by apply Hacc].
    destruct (_ || _); [done|by apply Hacc].
  - right. exists b. unfold on_own_proposal, retry_pending_prevote_for in E. rewrite Hn in E.
    case_bool_decide as Hp; [by apply Hacc|done].
  - pose proof (on_prevote_outcome now q stake e He) as Ho. rewrite E in Ho. simpl in Ho.
    inversion Ho. naive_solver.
  - pose proof (on_precommit_outcome q stake e) as Ho. rewrite E in Ho. simpl in Ho.
    inversion Ho. naive_solver.
  - left. unfold on_timeout in E. rewrite Hn in E. unfold emit_precommit, emit_prevote in E.
    repeat (case_match; simplify_eq; try done); simpl in *; congruence.
Qed.

Lemma fresh_precommit_quorum now ev e e' p :
  engine_inv e → event_allowed ev e → pending_precommit e = None →
  bft_step now ev e = (e', BroadcastPrecommit p) →
  pc_block_hash p = None ∨ ∃ q stake, ev = EvPrevote q stake.
Proof.
  intros He Hal Hn E. pose proof (round_moves now ev e He Hal) as Hmove.
  destruct ev as [h t| |t r|b a r|b|q stake|q stake| |st stake r|st r|b d| |];
    try (cbn [bft_step] in Hmove; cbn [bft_step] in E; rewrite E in Hmove;
      destruct Hmove as (_ & _ & Hf & _); by destruct (Hf p)); cbn [bft_step] in E; try discriminate E;
    [| |by eauto| |].
  - unfold on_proposal, retry_pending_prevote_for, accept_proposal, emit_prevote in E.
    repeat (case_match; simplify_eq).
  - unfold on_own_proposal, retry_pending_prevote_for, accept_proposal, emit_prevote in E.
    repeat (case_match; simplify_eq).
  - pose proof (on_precommit_outcome q stake e) as Ho. rewrite E in Ho. simpl in Ho.
    inversion Ho. naive_solver.
  - left. unfold on_timeout in E. rewrite Hn in E. unfold emit_precommit, emit_prevote in E.
    repeat (case_match; simplify_eq; try done); simpl in *; congruence.
Qed.

(** C6: in every reachable state: a fresh prevote for a block is cast only
    when the engine is unlocked, locked on that block, or holds a stale lock
    without the block's bytes; a fresh precommit for a block is cast only with
    a supermajority of this round's prevotes for it, and leaves the engine
    locked on it at this round; and a lock is left only for a new height, by
    such a supermajority for another block, or as stale. *)
Theorem locking_discipline ok e0 e acts now ev e' act :
  engine_inv e0 → bft_run ok e0 e acts → event_allowed ev e → bft_step now ev e = (e', act) →
  (∀ p b, act = BroadcastPrevote p → pending_prevote e = None → pv_block_hash p = Some b →
     locked_hash (state e) = None ∨ locked_hash (state e) = Some b ∨
     stale_lock b (state e) = true) ∧
  (∀ p b, act = BroadcastPrecommit p → pending_precommit e = None → pc_block_hash p = Some b →
     locked_hash (state e') = Some b ∧ locked_round (state e') = Some (round (state e')) ∧
     prevote_quorum (Some b) e') ∧
  lock_change ev e e'.
Proof.
  intros H0 Hrun Hal E. pose proof (run_engine_inv _ _ _ _ H0 Hrun) as He. split_and!.
  - intros p b -> Hn Hb.
    destruct (fresh_prevote_accept now ev e e' p He Hal Hn E) as [?|[b' Hv]]; [congruence|].
    rewrite Hb in Hv. symmetry in Hv. apply vote_for_lock in Hv as [-> Hv]. done.
  - intros p b -> Hn Hb.
    destruct (fresh_precommit_quorum now ev e e' p He Hal Hn E) as [?|(q & stake & ->)]; [congruence|].
    cbn [bft_step] in E. by eapply (quorum_outcome now q stake e e').
  - pose proof (lock_step now ev e He Hal) as Hl. by rewrite E in Hl.
Qed.
End locking.
