(* ===== verification/BftTiming.v ===== *)
(** * BFT timing: round skipping

    The f+1 round-skip rule: the round it picks, whatever the hash-map order. *)

From S2P Require Import Prelude Staking BftMessages BftEngine BftProps BftTheorems BftSafety.

(** ** The round-skip rule *)

(** Stake at round [R] or later, in a list of (round, stake) pairs. *)
Definition support (R : Z) (l : list (Z * Z)) : Z :=
  sum_of (λ p, if decide (R <= p.1) then p.2 else 0) l.

Lemma support_nonneg R l : Forall (λ p, 0 <= p.2) l → 0 <= support R l.
Proof.
  intros Hl. apply sum_of_nonneg. rewrite Forall_forall in Hl. intros p Hp.
  case_decide; [by apply Hl|done].
Qed.

Lemma support_above R l : Forall (λ p, p.1 < R) l → support R l = 0.
Proof.
  induction 1 as [|p l Hp Hl IH]; [done|]. unfold support in *. rewrite sum_of_cons, IH.
  rewrite decide_False by lia. done.
Qed.

Lemma first_reaching_spec thr acc l :
  StronglySorted by_round_desc l → Forall (λ p, 0 <= p.2) l →
  0 <= acc < thr → acc + sum_of snd l <= U64_MAX →
  match first_reaching thr acc l with
  | Some r => thr <= acc + support r l ∧ (∃ s, (r, s) ∈ l) ∧
              ∀ R, r < R → acc + support R l < thr
  | None => ∀ R, acc + support R l < thr
  end.
Proof.
  intros Hs. revert acc. induction Hs as [|[r0 s0] l Hs IH Hd]; intros acc Hl Hacc Hmax.
  { intros R. unfold support. rewrite sum_of_nil. simpl. lia. }
  apply Forall_cons in Hl as [Hs0 Hl]. simpl in Hs0. rewrite sum_of_cons in Hmax. simpl in Hmax.
  assert (Hsum : 0 <= sum_of snd l).
  { apply sum_of_nonneg. rewrite Forall_forall in Hl. done. }
  assert (Hcons : ∀ R, support R ((r0, s0) :: l) = (if decide (R <= r0) then s0 else 0) + support R l)
    by done.
  cbn [first_reaching]. replace (saturating_add U64_MAX acc s0) with (acc + s0) by ulia.
  destruct (Z.leb_spec thr (acc + s0)) as [Hge|Hlt].
  - split_and!.
    + rewrite Hcons, decide_True by lia. pose proof (support_nonneg r0 l Hl). lia.
    + exists s0. set_solver.
    + intros R HR. rewrite Hcons, decide_False, support_above; [lia| |lia].
      eapply Forall_impl; [exact Hd|]. unfold by_round_desc. simpl. lia.
  - specialize (IH (acc + s0) Hl ltac:(lia) ltac:(lia)).
    destruct (first_reaching thr (acc + s0) l) as [r|].
    + destruct IH as (H1 & [s Hin] & H3).
      assert (r <= r0) by (rewrite Forall_forall in Hd; apply (Hd _ Hin)).
      split_and!.
      * rewrite Hcons, decide_True by lia. lia.
      * exists s. set_solver.
      * intros R HR. specialize (H3 R HR). rewrite Hcons. case_decide; lia.
    + intros R. specialize (IH R). rewrite Hcons. case_decide; lia.
Qed.

#[global] Instance by_round_desc_total : Total by_round_desc.
Proof. intros a b. unfold by_round_desc. lia. Qed.
#[global] Instance by_round_desc_trans : Transitive by_round_desc.
Proof. intros a b c. unfold by_round_desc. lia. Qed.

Section round_skip.
Context `{HashOrder}.

(** Stake of the peers last heard at round [R] or later. *)
Definition peers_at (R : Z) (e : BftEngine) : Z :=
  map_sum (λ _ p, if decide (R <= p.1) then p.2 else 0) (peer_rounds e).

Lemma support_peers R e :
  round (state e) < R → support R (peers_ahead e) = peers_at R e.
Proof.
  intros HR. unfold support, peers_ahead, peers_at. rewrite merge_sort_Permutation, sum_of_filter.
  unfold hm_values. rewrite hm_entries_perm, sum_of_fmap, map_sum_list. apply sum_of_ext.
  intros [a p] _. simpl. repeat case_decide; lia.
Qed.

Lemma peers_ahead_ok e :
  (∀ a p, peer_rounds e !! a = Some p → 0 <= p.2) →
  map_sum (λ _ p, p.2) (peer_rounds e) <= U64_MAX →
  StronglySorted by_round_desc (peers_ahead e) ∧ Forall (λ p, 0 <= p.2) (peers_ahead e) ∧
  sum_of snd (peers_ahead e) <= U64_MAX.
Proof.
  intros Hnn Hsum. split_and!.
  - apply StronglySorted_merge_sort; apply _.
  - apply Forall_forall. intros p [_ [a Ha]]%elem_of_peers_ahead. by eapply Hnn.
  - etrans; [|exact Hsum]. unfold peers_ahead.
    rewrite merge_sort_Permutation, sum_of_filter. unfold hm_values.
    rewrite hm_entries_perm, sum_of_fmap, map_sum_list. apply sum_of_le.
    intros [a p] Hp%elem_of_map_to_list. simpl. specialize (Hnn a p Hp). by case_decide.
Qed.

(** With peer stakes that fit in [u64], [f_plus_one_round] returns the
    largest round ahead of ours at which peers holding more than a third of
    the active stake are present, and [None] when there is no such round,
    whatever the hash-map order; handling a status at our height moves the
    engine to exactly that round. *)
Theorem round_skip_rule now st stake r e :
  engine_inv e → in_u32 (rs_round st) → rs_height st = height (state e) →
  let e1 := note_peer st stake e in
  0 < total_active_stake (state e) →
  (∀ a p, peer_rounds e1 !! a = Some p → 0 <= p.2) →
  map_sum (λ _ p, p.2) (peer_rounds e1) <= U64_MAX →
  let e' := (on_round_status_weighted now st stake r e).1 in
  (round (state e') = round (state e) ∧
     ∀ R, round (state e) < R → 3 * peers_at R e1 <= total_active_stake (state e)) ∨
  (round (state e) < round (state e') ∧
     total_active_stake (state e) < 3 * peers_at (round (state e')) e1 ∧
     ∀ R, round (state e') < R → 3 * peers_at R e1 <= total_active_stake (state e)).
Proof.
  intros He Hst Hh e1 Htot Hnn Hsum e'.
  destruct (peers_ahead_ok e1 Hnn Hsum) as (Hs & Hf & Hu).
  set (t := total_active_stake (state e)) in *.
  pose proof (first_reaching_spec (t / 3 + 1) 0 (peers_ahead e1) Hs Hf
    ltac:(split; [lia|]; pose proof (Z.div_pos t 3); lia) ltac:(lia)) as Hfr.
  assert (Hthr : ∀ x, t / 3 + 1 <= x ↔ t < 3 * x).
  { intros x. clear. Z.to_euclidean_division_equations. lia. }
  assert (Ef : f_plus_one_round e1 = first_reaching (t / 3 + 1) 0 (peers_ahead e1)).
  { unfold f_plus_one_round. simpl. fold t. by rewrite (proj2 (Z.eqb_neq t 0)) by lia. }
  assert (Hsup : ∀ R, round (state e) < R → support R (peers_ahead e1) = peers_at R e1)
    by (intros R HR; by apply support_peers).
  unfold e', on_round_status_weighted. rewrite Hh, Z.ltb_irrefl. fold e1. rewrite Ef.
  destruct (first_reaching _ _ _) as [R0|] eqn:E0.
  - destruct Hfr as (H1 & [s Hin] & H3).
    apply elem_of_peers_ahead in Hin as [Hlt [a Ha]]. simpl in Hlt.
    pose proof (ei_peers e1 (note_peer_inv st stake e He Hst) a _ Ha) as [_ Hmax]. simpl in Hmax.
    pose proof (ei_round e He) as [Hr0 _].
    change (round (state e1)) with (round (state e)).
    rewrite (proj2 (Z.ltb_lt _ _)) by done.
    rewrite (catch_up_round_eq now R0 r e1) by done. right. simpl.
    split_and!; [done| |].
    + apply Hthr. rewrite <-Hsup by done. lia.
    + intros R HR. specialize (H3 R HR). rewrite Hsup in H3 by lia. specialize (Hthr (peers_at R e1)). lia.
  - left. split; [done|]. intros R HR. specialize (Hfr R). rewrite Hsup in Hfr by done.
    specialize (Hthr (peers_at R e1)). lia.
Qed.
End round_skip.
