(* ===== verification/BftDriver.v ===== *)
(** * The validator loop: timeouts

    Models what the validator loop of bin/sentrix/src/main.rs does when a phase
    times out: it signs and sends the vote the engine asks for, counts it, goes
    on with the action this gives, and on a round change proposes a block if it
    is its turn ([build_or_reuse_proposal]).  The theorem is that a round always
    comes to an end, within a time bound. *)

From S2P Require Import Prelude Staking BftMessages SignGuard BftEngine BftProps.
From S2P Require Import BftTheorems.

Section driver.
Context `{HashOrder} {crypto : Crypto} (hash_payload : bytes → string).
(** The block type, its header hash, and [bincode::deserialize] for it. *)
Context {Block : Type} (block_hash : Block → string) (decode_block : bytes → option Block).
Context (sk : SecretKey) (r : StakeRegistry).

(** What the loop reaches the network with. *)
Inductive Outgoing : Type :=
  | OutPrevote (p : Prevote)
  | OutPrecommit (p : Precommit)
  | OutProposal (p : Proposal).

(** The state the loop carries: the engine, the signing guard, the block it
    last proposed, and what it has sent. *)
Record Driver := mkDriver {
  d_engine : BftEngine;
  d_guard : GuardWorld;
  d_proposed : option Block;
  d_out : list Outgoing;
}.
#[global] Instance Driver_eta : Eta Driver := λ d,
  mkDriver (d_engine d) (d_guard d) (d_proposed d) (d_out d).

(** The outside world at one turn of the loop: the clock, whether the guard's
    write succeeds, whether the network accepts a prevote or a precommit, and
    the block that [create_block_voyager] and its trial application give. *)
Record Poll := mkPoll {
  env_now : Z;
  env_io : bool;
  env_prevote_sent : bool;
  env_precommit_sent : bool;
  env_created : option (Block * bytes);
}.

Definition our_stake (e : BftEngine) : Z :=
  default 0 (v_total_stake <$> get_validator r (our_address e)).

(** A signed proposal for the current round: the locked block again if its
    bytes are cached and decode, else the new block. *)
Definition make_proposal (env : Poll) (h : string) (data : bytes) (e : BftEngine)
    (w : GuardWorld) : GuardWorld * Proposal :=
  let own := mkPrevote (height (state e)) (round (state e)) (Some h) (our_address e) [] in
  prop_sign hash_payload (env_io env) sk
    (mkProposal (height (state e)) (round (state e)) h data (our_address e) [] (Some own)) w.
Definition build_new (env : Poll) (e : BftEngine) (w : GuardWorld)
    : GuardWorld * option (Block * Proposal) :=
  match env_created env with
  | Some (block, data) =>
      let '(w, p) := make_proposal env (block_hash block) data e w in (w, Some (block, p))
  | None => (w, None)
  end.
Definition build_or_reuse_proposal (env : Poll) (e : BftEngine) (w : GuardWorld)
    : GuardWorld * option (Block * Proposal) :=
  match locked_proposal_bytes e with
  | Some (cached_hash, cached_bytes) =>
      match decode_block cached_bytes with
      | Some block =>
          let '(w, p) := make_proposal env cached_hash cached_bytes e w in (w, Some (block, p))
      | None => build_new env e w
      end
  | None => build_new env e w
  end.

(** Enter the next round, and propose if we lead it; the vote that our own
    proposal asks for is left pending. *)
Definition next_round (env : Poll) (d : Driver) : Driver :=
  let e := advance_round (env_now env) (d_engine d) in
  let d := d <| d_engine := e |> in
  if is_proposer r e then
    match build_or_reuse_proposal env e (d_guard d) with
    | (w, Some (block, p)) =>
        let e := stash_proposal_bytes (block_hash block) (pp_block_data p) e in
        let '(e, _) := on_own_proposal (env_now env) (block_hash block) e in
        mkDriver e w (Some block) (d_out d ++ [OutProposal p])
    | (w, None) => d <| d_guard := w |>
    end
  else d.

(** The loop over actions.  A vote that cannot be sent stays pending; a block
    that is finalised here falls under the loop's last arm. *)
Fixpoint action_loop (fuel : nat) (env : Poll) (d : Driver) (act : BftAction)
    : Driver * BftAction :=
  match fuel with
  | O => (d, act)
  | S fuel =>
      match act with
      | BroadcastPrevote p =>
          let '(w, signed_pv) := pv_sign hash_payload (env_io env) sk p (d_guard d) in
          let d := d <| d_guard := w |> in
          if env_prevote_sent env then
            let e := mark_prevote_cast (d_engine d) in
            let '(e, act) := on_prevote_weighted (env_now env) p (our_stake e) e in
            action_loop fuel env
              (d <| d_engine := e |> <| d_out := d_out d ++ [OutPrevote signed_pv] |>) act
          else (d, act)
      | BroadcastPrecommit p =>
          let '(w, signed_pc) := pc_sign hash_payload (env_io env) sk p (d_guard d) in
          let d := d <| d_guard := w |> in
          if env_precommit_sent env then
            let e := mark_precommit_cast (d_engine d) in
            let '(e, act) := on_precommit_weighted p (our_stake e) e in
            action_loop fuel env
              (d <| d_engine := e |> <| d_out := d_out d ++ [OutPrecommit signed_pc] |>) act
          else (d, act)
      | TimeoutAdvanceRound | SkipRound => (next_round env d, act)
      | _ => (d, act)
      end
  end.

(** One turn of the loop.  At most a prevote and a precommit are cast before
    the last action, so three steps are enough ([poll_fuel]). *)
Definition poll (env : Poll) (d : Driver) : Driver * BftAction :=
  if is_timed_out (env_now env) (d_engine d) then
    let '(e, act) := on_timeout (env_now env) (d_engine d) in
    action_loop 3 env (d <| d_engine := e |>) act
  else (d, Wait).

Definition ends_round (act : BftAction) : bool :=
  match act with
  | TimeoutAdvanceRound | SkipRound | FinalizeBlock _ _ _ _ => true
  | _ => false
  end.

(** Turn after turn until the round ends. *)
Fixpoint run_polls (envs : list Poll) (d : Driver) : option (Driver * BftAction) :=
  match envs with
  | [] => None
  | env :: envs =>
      let '(d', act) := poll env d in
      if ends_round act then Some (d', act) else run_polls envs d'
  end.

(** ** Progress *)

(** Phases to go and votes to repeat. *)
Definition remaining (e : BftEngine) : Z :=
  3 - phase_ord (phase (state e))
  + (if pending_prevote e then 1 else 0) + (if pending_precommit e then 1 else 0).

(** The engine is still in its round. *)
Record in_round (now : Z) (e e' : BftEngine) : Prop := {
  ir_inv : engine_inv e';
  ir_open : phase (state e') ≠ Finalize;
  ir_slot : slot e' = slot e;
  ir_start : phase_start e' = phase_start e ∨ phase_start e' = now;
}.

(** The round is over: the next one is open, or a block is final. *)
Record finalised (e e' : BftEngine) (act : BftAction) : Prop := {
  fi_inv : engine_inv e';
  fi_act : ∃ b j, act = FinalizeBlock (height (state e)) (round (state e)) b j;
  fi_slot : slot e' = slot e;
  fi_phase : phase (state e') = Finalize;
}.
Record next_opened (e e' : BftEngine) (act : BftAction) : Prop := {
  no_inv : engine_inv e';
  no_act : act = TimeoutAdvanceRound ∨ act = SkipRound;
  no_slot : slot e' = (height (state e), saturating_add U32_MAX (round (state e)) 1);
}.
Definition round_over (e e' : BftEngine) (act : BftAction) : Prop :=
  next_opened e e' act ∨ finalised e e' act.

Lemma in_round_refl now e : engine_inv e → phase (state e) ≠ Finalize → in_round now e e.
Proof. intros. split; auto. Qed.

Lemma in_round_trans now e1 e2 e3 : in_round now e1 e2 → in_round now e2 e3 → in_round now e1 e3.
Proof. intros [_ _ Hs Ht] [Hi Ho Hs' Ht']. split; [done|done|congruence|naive_solver congruence]. Qed.

Lemma round_over_from now e1 e2 e3 act :
  in_round now e1 e2 → round_over e2 e3 act → round_over e1 e3 act.
Proof.
  intros [_ _ Hs _] Hr. unfold slot in Hs. injection Hs as Eh Er.
  destruct Hr as [[Hi Ha Hn]|[Hi Ha Hn Hp]]; [left|right]; split; try done;
    unfold slot in *; by rewrite Eh, Er in *.
Qed.

Lemma remaining_range e : engine_inv e → phase (state e) ≠ Finalize → 1 <= remaining e <= 3.
Proof.
  intros He Hf. unfold remaining.
  destruct (pending_prevote e) as [p|] eqn:Epv, (pending_precommit e) as [q|] eqn:Epc;
    try (destruct (ei_pend_pv e He p Epv)); try (destruct (ei_pend_pc e He q Epc) as (_ & ? & ?));
    destruct (phase (state e)); simpl; try done; lia.
Qed.

Lemma mark_prevote_round now e :
  engine_inv e → phase (state e) ≠ Finalize → in_round now e (mark_prevote_cast e).
Proof.
  intros He Hf. pose proof (bft_step_cases now EvMarkPrevote e He I) as [Hi _]. split; auto.
Qed.
Lemma mark_precommit_round now e :
  engine_inv e → phase (state e) ≠ Finalize → in_round now e (mark_precommit_cast e).
Proof.
  intros He Hf. pose proof (bft_step_cases now EvMarkPrecommit e He I) as [Hi _]. split; auto.
Qed.

(** Counting our pending precommit consumes it. *)
Lemma own_precommit_counted now p stake e :
  engine_inv e → pending_precommit e = Some p → phase (state e) ≠ Finalize →
  let '(e', act) := on_precommit_weighted p stake e in
  (pending_precommit e' = None ∧ pending_prevote e' = pending_prevote e) ∧
  (finalised e e' act ∨
  (act = Wait ∨ act = SkipRound) ∧ in_round now e e' ∧ remaining e' < remaining e).
Proof.
  intros He Hp Hf. pose proof (on_precommit_step p stake e He) as Hs.
  pose proof (on_precommit_outcome p stake e) as Ho.
  assert (Hpc : pending_precommit (on_precommit_weighted p stake e).1 = None).
  { destruct (ei_pend_pc e He p Hp) as [[Hslot Hval] _]. unfold slot in Hslot.
    injection Hslot as Eh Er. unfold on_precommit_weighted, clear_own_precommit.
    rewrite Eh, Er, !Z.eqb_refl, Hp. cbn [negb].
    rewrite (bool_decide_eq_true_2 _ Hval), (bool_decide_eq_true_2 (p = p)) by done.
    repeat (case_match; simplify_eq; try done). }
  destruct (on_precommit_weighted p stake e) as [e' act]. destruct Hs as (Hi & (Hsl & _) & _).
  simpl in Ho, Hpc.
  assert (Hrem : phase (state e') = phase (state e) → pending_prevote e' = pending_prevote e →
    remaining e' < remaining e) by (unfold remaining; intros -> ->; rewrite Hp, Hpc; lia).
  split; [split; [done|by destruct Ho]|].
  destruct Ho as [pc _|pc act _ _ _ Hact|pc b _ _ _ e2 _].
  - right. split; [by left|]. split; [split; auto|by apply Hrem].
  - right. split; [done|]. split; [split; auto|by apply Hrem].
  - left. split; eauto.
Qed.

(** Counting our pending prevote consumes it; it may ask for a precommit. *)
Lemma own_prevote_counted now p stake e :
  engine_inv e → pending_prevote e = Some p → phase (state e) ≠ Finalize →
  let '(e', act) := on_prevote_weighted now p stake e in
  pending_prevote e' = None ∧ in_round now e e' ∧ remaining e' < remaining e ∧
  (act = Wait ∨ ∃ q, act = BroadcastPrecommit q ∧ pending_precommit e' = Some q).
Proof.
  intros He Hp Hf. pose proof (on_prevote_step now p stake e He) as Hs.
  pose proof (on_prevote_outcome now p stake e He) as Ho.
  assert (Hpv : pending_prevote (on_prevote_weighted now p stake e).1 = None).
  { destruct (ei_pend_pv e He p Hp) as [[Hslot Hval] _]. unfold slot in Hslot.
    injection Hslot as Eh Er. unfold on_prevote_weighted, clear_own_prevote, emit_precommit.
    rewrite Eh, Er, !Z.eqb_refl, Hp. cbn [negb].
    rewrite (bool_decide_eq_true_2 _ Hval), (bool_decide_eq_true_2 (p = p)) by done.
    repeat (case_match; simplify_eq; try done). }
  destruct (on_prevote_weighted now p stake e) as [e' act]. destruct Hs as (Hi & (Hsl & _) & _).
  simpl in Ho, Hpv. split; [done|]. unfold remaining. rewrite Hp, Hpv.
  destruct Ho as [pv _|pv _ _ _|pv hash s act pc _ _ _ Hph e2 _ Es Hact].
  - split; [split; auto|]. simpl. split; [lia|by left].
  - split; [split; auto|]. simpl. split; [lia|by left].
  - assert (Ep : phase s = PhasePrecommit).
    { subst s. destruct hash as [h|]; [|done].
      destruct (lock_on_eq h (state e2 <| phase := PhasePrecommit |>)) as [lb ->]. done. }
    rewrite (no_pending_precommit e He) by (by rewrite Hph).
    split; [split; simpl; [done|by rewrite Ep|done|by right]|]. simpl. rewrite Ep, Hph. simpl.
    destruct Hact as [(_ & -> & ->)|(_ & -> & ->)].
    + rewrite (no_pending_precommit e He) by (by rewrite Hph). split; [lia|by left].
    + split; [lia|]. right. eauto.
Qed.

(** A round change opens the next round, whether we propose in it or not. *)
Lemma next_round_over env d act :
  engine_inv (d_engine d) → act = TimeoutAdvanceRound ∨ act = SkipRound →
  round_over (d_engine d) (d_engine (next_round env d)) act.
Proof.
  intros He Hact. set (e := d_engine d) in *.
  pose proof (ei_round e He) as Hr.
  assert (Ha : engine_inv (advance_round (env_now env) e)).
  { apply (engine_inv_advance e (saturating_add U32_MAX (round (state e)) 1)); [done| |]; ulia. }
  unfold next_round. fold e. destruct (is_proposer r (advance_round (env_now env) e));
    [|by left].
  destruct (build_or_reuse_proposal env _ _) as [w [[block p]|]]; [|by left].
  pose proof (bft_step_cases 0 (EvStash (block_hash block) (pp_block_data p)) _ Ha I) as [Hs _].
  pose proof (on_own_proposal_step (env_now env) (block_hash block) _ Hs) as Ho.
  destruct (on_own_proposal _ _ _) as [e' act']. destruct Ho as (Hi & (Hsl & _) & _).
  left. split; [done|done|]. simpl. by rewrite Hsl.
Qed.

Definition sends_ok (env : Poll) : Prop :=
  env_prevote_sent env = true ∧ env_precommit_sent env = true.

(** What one handled timeout achieves. *)
Definition advanced (env : Poll) (d d' : Driver) (act : BftAction) : Prop :=
  round_over (d_engine d) (d_engine d') act ∨
  ends_round act = false ∧ in_round (env_now env) (d_engine d) (d_engine d') ∧
  remaining (d_engine d') <= remaining (d_engine d) ∧
  (sends_ok env → remaining (d_engine d') < remaining (d_engine d)).

Lemma advanced_from env d d1 d' act :
  in_round (env_now env) (d_engine d) (d_engine d1) →
  remaining (d_engine d1) <= remaining (d_engine d) → advanced env d1 d' act → advanced env d d' act.
Proof.
  intros Hr Hle [Ho|(Ha & Hr' & Hle' & Hlt)]; [left; by eapply round_over_from|right].
  split_and!; [done|by eapply in_round_trans|lia|intros Hs; specialize (Hlt Hs); lia].
Qed.

Lemma advanced_stuck env d d' act :
  engine_inv (d_engine d) → phase (state (d_engine d)) ≠ Finalize →
  d_engine d' = d_engine d → ends_round act = false → ¬ sends_ok env → advanced env d d' act.
Proof.
  intros He Hf E Ha Hs. right. rewrite E. split_and!; [done|by apply in_round_refl|lia|done].
Qed.

Lemma loop_precommit n env d q :
  engine_inv (d_engine d) → pending_precommit (d_engine d) = Some q →
  phase (state (d_engine d)) ≠ Finalize →
  let '(d', act) := action_loop (S (S n)) env d (BroadcastPrecommit q) in advanced env d d' act.
Proof.
  intros He Hq Hf. cbn [action_loop].
  destruct (pc_sign hash_payload (env_io env) sk q (d_guard d)) as [w signed].
  destruct (env_precommit_sent env) eqn:Es;
    [|apply advanced_stuck; try done; intros [_ ?]; congruence].
  pose proof (mark_precommit_round (env_now env) (d_engine d) He Hf) as Hm.
  pose proof (own_precommit_counted (env_now env) q (our_stake (mark_precommit_cast (d_engine d)))
    (mark_precommit_cast (d_engine d)) (ir_inv _ _ _ Hm) Hq Hf) as Hc.
  simpl. destruct (on_precommit_weighted _ _ _) as [e1 act].
  destruct Hc as [_ [Ho|([-> | ->] & Hr & Hlt)]].
  - destruct (fi_act _ _ _ Ho) as (b & j & ->). left. eapply round_over_from; [exact Hm|by right].
  - right. split_and!; [done|by eapply in_round_trans| |]; simpl; unfold remaining in *; simpl in *; lia.
  - left. eapply round_over_from; [by eapply in_round_trans|].
    apply (next_round_over env (mkDriver e1 w (d_proposed d) _)); [apply Hr|by right].
Qed.

Lemma loop_prevote n env d p :
  engine_inv (d_engine d) → pending_prevote (d_engine d) = Some p →
  phase (state (d_engine d)) ≠ Finalize →
  let '(d', act) := action_loop (S (S (S n))) env d (BroadcastPrevote p) in advanced env d d' act.
Proof.
  intros He Hp Hf. remember (S (S n)) as m eqn:Em. cbn [action_loop].
  destruct (pv_sign hash_payload (env_io env) sk p (d_guard d)) as [w signed].
  destruct (env_prevote_sent env) eqn:Es;
    [|apply advanced_stuck; try done; intros [? _]; congruence].
  pose proof (mark_prevote_round (env_now env) (d_engine d) He Hf) as Hm.
  pose proof (own_prevote_counted (env_now env) p (our_stake (mark_prevote_cast (d_engine d)))
    (mark_prevote_cast (d_engine d)) (ir_inv _ _ _ Hm) Hp Hf) as Hc.
  simpl. destruct (on_prevote_weighted _ _ _ _) as [e1 act].
  destruct Hc as (_ & Hr & Hlt & Hact).
  assert (Hle : remaining e1 < remaining (d_engine d)) by exact Hlt.
  match goal with |- context [action_loop m env ?x act] => set (d1 := x) end. subst m.
  destruct Hact as [-> |(q & -> & Hq)].
  - right. split_and!; [done|by eapply in_round_trans|simpl; lia|simpl; lia].
  - pose proof (loop_precommit n env d1 q (ir_inv _ _ _ Hr) Hq (ir_open _ _ _ Hr)) as Hl.
    destruct (action_loop (S (S n)) env d1 (BroadcastPrecommit q)) as [d' act'].
    apply (advanced_from env d d1); [by eapply in_round_trans| |exact Hl].
    change (remaining e1 <= remaining (d_engine d)). lia.
Qed.

Lemma loop_stop n env d act : ends_round act = false → quiet act → action_loop n env d act = (d, act).
Proof. intros Ha [H1 H2]. destruct n; [done|]. destruct act; naive_solver. Qed.

(** The action that a timeout leaves, and the engine with it. *)
Lemma timeout_cases now e :
  engine_inv e → phase (state e) ≠ Finalize →
  let '(e', act) := on_timeout now e in
  in_round now e e' ∧
  ((∃ p, act = BroadcastPrevote p ∧ pending_prevote e' = Some p) ∧ remaining e' <= remaining e ∨
   (∃ q, act = BroadcastPrecommit q ∧ pending_precommit e' = Some q ∧
      pending_prevote e' = None) ∧ remaining e' <= remaining e ∨
   act = Wait ∧ remaining e' < remaining e ∨
   (act = TimeoutAdvanceRound ∨ act = SkipRound)).
Proof.
  intros He Hf. pose proof (on_timeout_step now e He) as Hs. unfold on_timeout in *.
  destruct (pending_prevote e) as [p|] eqn:Epv.
  { split; [by apply in_round_refl|]. left. split; [eauto|lia]. }
  destruct (pending_precommit e) as [q|] eqn:Epc.
  { split; [by apply in_round_refl|]. right; left. split; [eauto|lia]. }
  unfold remaining. destruct (phase (state e)) eqn:Hph; cbn zeta in *; try done.
  - unfold emit_prevote in *. change (pending_prevote (enter_phase now PhasePrevote e))
      with (pending_prevote e) in *. rewrite Epv in *. rewrite Epc.
    destruct (our_prevote_cast _); cbn [negb] in *; cbv iota beta in *;
      destruct Hs as (Hi & (Hsl & _) & _); (split; [split; auto; done|]); simpl; rewrite ?Epv, ?Epc.
    + right; right; left. split; [done|lia].
    + left. split; [eauto|lia].
  - unfold emit_precommit in *. change (pending_precommit (enter_phase now PhasePrecommit e))
      with (pending_precommit e) in *. rewrite Epc in *. rewrite Epv.
    destruct (our_precommit_cast _); cbn [negb] in *; cbv iota beta in *;
      destruct Hs as (Hi & (Hsl & _) & _); (split; [split; auto; done|]); simpl; rewrite ?Epv, ?Epc.
    + right; right; left. split; [done|lia].
    + right; left. split; [eauto|lia].
  - destruct (_ <=? _); (split; [apply in_round_refl; [done|by rewrite Hph]|]); auto 6.
Qed.

(** A turn on which the phase has timed out advances the round. *)
Lemma poll_advances env d :
  engine_inv (d_engine d) → phase (state (d_engine d)) ≠ Finalize →
  is_timed_out (env_now env) (d_engine d) = true →
  let '(d', act) := poll env d in advanced env d d' act.
Proof.
  intros He Hf Ht. unfold poll. rewrite Ht.
  pose proof (timeout_cases (env_now env) (d_engine d) He Hf) as Hc.
  destruct (on_timeout (env_now env) (d_engine d)) as [e1 act]. destruct Hc as [Hr Hc].
  set (d1 := d <| d_engine := e1 |>).
  destruct Hc as [[(p & -> & Hp) Hle]|[[(q & -> & Hq & _) Hle]|[[-> Hlt]|Hact]]].
  - pose proof (loop_prevote 0 env d1 p (ir_inv _ _ _ Hr) Hp (ir_open _ _ _ Hr)) as Hl.
    destruct (action_loop 3 env d1 (BroadcastPrevote p)) as [d' act'].
    by apply (advanced_from env d d1).
  - pose proof (loop_precommit 1 env d1 q (ir_inv _ _ _ Hr) Hq (ir_open _ _ _ Hr)) as Hl.
    destruct (action_loop 3 env d1 (BroadcastPrecommit q)) as [d' act'].
    by apply (advanced_from env d d1).
  - rewrite loop_stop by (by split || done). right. split_and!; [done|done|simpl; lia|simpl; lia].
  - assert (action_loop 3 env d1 act = (next_round env d1, act)) as ->
      by (by destruct Hact; subst act).
    left. eapply round_over_from; [exact Hr|]. by apply (next_round_over env d1); [apply Hr|].
Qed.

Lemma open_timed_out now e :
  engine_inv e → phase_start e + MAX_TIMEOUT_MS <= now → is_timed_out now e = true.
Proof.
  intros He Hn. pose proof (ei_round e He) as Hr. apply Z.leb_le.
  unfold propose_timeout, prevote_timeout, precommit_timeout, MAX_TIMEOUT_MS in *.
  destruct (phase (state e)); lia.
Qed.

(** Turns of the loop that start after [t], at most [gap] apart, all of whose
    votes are accepted by the network. *)
Fixpoint polled (gap t : Z) (envs : list Poll) : Prop :=
  match envs with
  | [] => True
  | env :: envs =>
      t <= env_now env <= t + gap ∧ sends_ok env ∧ polled gap (env_now env) envs
  end.
Definition last_time (t : Z) (envs : list Poll) : Z := foldl (λ _ env, env_now env) t envs.

(** [tf]: when the engine last moved. *)
Lemma polls_end gap envs t tf d :
  engine_inv (d_engine d) → phase (state (d_engine d)) ≠ Finalize →
  phase_start (d_engine d) <= tf <= t → t < tf + MAX_TIMEOUT_MS → 0 <= gap →
  polled gap t envs → tf + remaining (d_engine d) * (MAX_TIMEOUT_MS + gap) <= last_time t envs →
  ∃ d' act, run_polls envs d = Some (d', act) ∧ round_over (d_engine d) (d_engine d') act.
Proof.
  revert t tf d. induction envs as [|env envs IH]; intros t tf d He Hf Hs Ht Hg Hp Hl.
  { pose proof (remaining_range _ He Hf). simpl in Hl. unfold MAX_TIMEOUT_MS in *. nia. }
  destruct Hp as (Hnow & Hok & Hp). cbn [run_polls]. simpl in Hl.
  destruct (is_timed_out (env_now env) (d_engine d)) eqn:Eto.
  - pose proof (poll_advances env d He Hf Eto) as Ha. destruct (poll env d) as [d' act].
    destruct Ha as [Ho|(Ea & Hr & _ & Hlt)].
    + assert (ends_round act = true) as ->; [|eauto].
      destruct Ho as [[_ [-> | ->] _]|[_ (b & j & ->) _ _]]; done.
    + rewrite Ea. specialize (Hlt Hok).
      destruct (IH (env_now env) (env_now env) d') as (d2 & act2 & E & Ho); try done.
      * apply Hr.
      * apply Hr.
      * destruct (ir_start _ _ _ Hr); lia.
      * unfold MAX_TIMEOUT_MS. lia.
      * unfold MAX_TIMEOUT_MS in *. nia.
      * exists d2, act2. split; [done|]. by eapply round_over_from.
  - assert (Hlate : env_now env < phase_start (d_engine d) + MAX_TIMEOUT_MS).
    { apply Z.nle_gt. intros Hge. by rewrite (open_timed_out _ _ He Hge) in Eto. }
    unfold poll. rewrite Eto. simpl. apply (IH (env_now env) tf); try done; lia.
Qed.

(** ** Three steps are enough *)

Lemma loop_quiet_fuel n env d act :
  quiet act → action_loop (S n) env d act = action_loop 1 env d act.
Proof. intros [H1 H2]. destruct act; naive_solver. Qed.

Lemma loop_precommit_fuel n env d q :
  action_loop (S (S n)) env d (BroadcastPrecommit q) = action_loop 2 env d (BroadcastPrecommit q).
Proof.
  remember (S n) as m eqn:Em. remember 1%nat as k eqn:Ek. cbn [action_loop].
  destruct (pc_sign _ _ _ _ _) as [w signed]. destruct (env_precommit_sent env); [|done].
  pose proof (on_precommit_outcome q (our_stake (mark_precommit_cast (d_engine d)))
    (mark_precommit_cast (d_engine d))) as Ho.
  simpl. destruct (on_precommit_weighted _ _ _) as [e1 act]. simpl in Ho. subst m k.
  apply loop_quiet_fuel. destruct Ho as [|? ? _ _ _ [-> | ->]|]; by split.
Qed.

(** More than three steps of the loop change nothing. *)
Lemma poll_fuel n env d :
  engine_inv (d_engine d) → phase (state (d_engine d)) ≠ Finalize →
  let '(e, act) := on_timeout (env_now env) (d_engine d) in
  action_loop (3 + n) env (d <| d_engine := e |>) act = action_loop 3 env (d <| d_engine := e |>) act.
Proof.
  intros He Hf. pose proof (timeout_cases (env_now env) (d_engine d) He Hf) as Hc.
  destruct (on_timeout (env_now env) (d_engine d)) as [e1 act]. destruct Hc as [Hr Hc].
  destruct Hc as [[(p & -> & Hp) _]|[[(q & -> & _) _]|[[-> _]|Hact]]].
  - set (d1 := d <| d_engine := e1 |>). change (3 + n)%nat with (S (S (S n))).
    remember (S (S n)) as m eqn:Em. remember 2%nat as k eqn:Ek. cbn [action_loop].
    destruct (pv_sign _ _ _ _ _) as [w signed]. destruct (env_prevote_sent env); [|done].
    pose proof (mark_prevote_round (env_now env) e1 (ir_inv _ _ _ Hr) (ir_open _ _ _ Hr)) as Hm.
    pose proof (own_prevote_counted (env_now env) p (our_stake (mark_prevote_cast e1))
      (mark_prevote_cast e1) (ir_inv _ _ _ Hm) Hp (ir_open _ _ _ Hm)) as Hc.
    simpl. destruct (on_prevote_weighted _ _ _ _) as [e2 act]. subst m k.
    destruct Hc as (_ & _ & _ & [-> |(q & -> & _)]);
      [done|apply loop_precommit_fuel].
  - change (3 + n)%nat with (S (S (S n))). etrans; [apply (loop_precommit_fuel (S n))|].
    symmetry. apply (loop_precommit_fuel 1).
  - done.
  - by destruct Hact; subst act.
Qed.

(** C18: a round always ends.  From any reachable state of a round that is not
    finalised, if the loop turns at most [gap] apart and its votes are accepted
    by the network, then within three times 30 seconds plus [gap], with no
    message from anyone else, the loop opens the next round or the engine
    finalises a block. *)
Theorem round_always_ends ok e0 acts d gap t envs :
  engine_inv e0 → bft_run ok e0 (d_engine d) acts → phase (state (d_engine d)) ≠ Finalize →
  phase_start (d_engine d) <= t → 0 <= gap → polled gap t envs →
  t + 3 * (MAX_TIMEOUT_MS + gap) <= last_time t envs →
  ∃ d' act, run_polls envs d = Some (d', act) ∧ round_over (d_engine d) (d_engine d') act.
Proof.
  intros Hinit Hrun Hf Hs Hg Hp Hl. pose proof (run_engine_inv _ _ _ _ Hinit Hrun) as He.
  apply (polls_end gap envs t t); try done; [unfold MAX_TIMEOUT_MS; lia|].
  pose proof (remaining_range _ He Hf). unfold MAX_TIMEOUT_MS in *. nia.
Qed.

(** ** A block that becomes final on a timeout *)

(** Nothing left to do: final, and no vote to repeat. *)
Definition idle (d d' : Driver) (act : BftAction) : Prop :=
  (∃ h rd b j, act = FinalizeBlock h rd b j) →
  d_proposed d' = d_proposed d ∧ phase (state (d_engine d')) = Finalize ∧
  pending_prevote (d_engine d') = None ∧ pending_precommit (d_engine d') = None.

Lemma loop_precommit_idle n env d q :
  engine_inv (d_engine d) → pending_precommit (d_engine d) = Some q →
  pending_prevote (d_engine d) = None → phase (state (d_engine d)) ≠ Finalize →
  let '(d', act) := action_loop (S (S n)) env d (BroadcastPrecommit q) in idle d d' act.
Proof.
  intros He Hq Hp Hf. cbn [action_loop].
  destruct (pc_sign hash_payload (env_io env) sk q (d_guard d)) as [w signed].
  destruct (env_precommit_sent env); [|by intros (? & ? & ? & ? & ?)].
  pose proof (mark_precommit_round (env_now env) (d_engine d) He Hf) as Hm.
  pose proof (own_precommit_counted (env_now env) q (our_stake (mark_precommit_cast (d_engine d)))
    (mark_precommit_cast (d_engine d)) (ir_inv _ _ _ Hm) Hq Hf) as Hc.
  simpl. destruct (on_precommit_weighted _ _ _) as [e1 act]. destruct Hc as [[Hpc Hpv] Hc].
  destruct Hc as [[_ (b & j & ->) _ Hph]|([-> | ->] & _)]; intros (? & ? & ? & ? & ?); try done.
  split_and!; try done. simpl. by rewrite Hpv.
Qed.

Lemma loop_prevote_idle n env d p :
  engine_inv (d_engine d) → pending_prevote (d_engine d) = Some p →
  phase (state (d_engine d)) ≠ Finalize →
  let '(d', act) := action_loop (S (S (S n))) env d (BroadcastPrevote p) in idle d d' act.
Proof.
  intros He Hp Hf. remember (S (S n)) as m eqn:Em. cbn [action_loop].
  destruct (pv_sign hash_payload (env_io env) sk p (d_guard d)) as [w signed].
  destruct (env_prevote_sent env); [|by intros (? & ? & ? & ? & ?)].
  pose proof (mark_prevote_round (env_now env) (d_engine d) He Hf) as Hm.
  pose proof (own_prevote_counted (env_now env) p (our_stake (mark_prevote_cast (d_engine d)))
    (mark_prevote_cast (d_engine d)) (ir_inv _ _ _ Hm) Hp Hf) as Hc.
  simpl. destruct (on_prevote_weighted _ _ _ _) as [e1 act].
  match goal with |- context [action_loop m env ?x act] => set (d1 := x) end. subst m.
  destruct Hc as (Hpv & Hr & _ & [-> |(q & -> & Hq)]); [by intros (? & ? & ? & ? & ?)|].
  exact (loop_precommit_idle n env d1 q (ir_inv _ _ _ Hr) Hq Hpv (ir_open _ _ _ Hr)).
Qed.

Lemma poll_idle env d :
  engine_inv (d_engine d) → phase (state (d_engine d)) ≠ Finalize →
  let '(d', act) := poll env d in idle d d' act.
Proof.
  intros He Hf. unfold poll. destruct (is_timed_out _ _); [|by intros (? & ? & ? & ? & ?)].
  pose proof (timeout_cases (env_now env) (d_engine d) He Hf) as Hc.
  destruct (on_timeout (env_now env) (d_engine d)) as [e1 act]. destruct Hc as [[Hi Ho _ _] Hc].
  set (d1 := d <| d_engine := e1 |>).
  destruct Hc as [[(p & -> & Hp) _]|[[(q & -> & Hq & Hp) _]|[[-> _]|Hact]]].
  - exact (loop_prevote_idle 0 env d1 p Hi Hp Ho).
  - exact (loop_precommit_idle 1 env d1 q Hi Hq Hp Ho).
  - by intros (? & ? & ? & ? & ?).
  - destruct Hact; subst act; by intros (? & ? & ? & ? & ?).
Qed.

(** A block that becomes final while the loop handles a timeout is
    dropped: the loop's last arm does not apply it, the engine is left in its
    final phase, and no later turn does anything, however much time passes. *)
Theorem timeout_finalisation_dropped env d d' h rd b j :
  engine_inv (d_engine d) → phase (state (d_engine d)) ≠ Finalize →
  poll env d = (d', FinalizeBlock h rd b j) →
  d_proposed d' = d_proposed d ∧ phase (state (d_engine d')) = Finalize ∧
  ∀ env', poll env' d' = (d', Wait).
Proof.
  intros He Hf Ep. pose proof (poll_idle env d He Hf) as Hi. rewrite Ep in Hi.
  destruct Hi as (Hpr & Hph & Hpv & Hpc); [eauto|]. split_and!; [done|done|].
  intros env'. unfold poll, on_timeout. rewrite Hpv, Hpc, Hph.
  destruct (is_timed_out _ _); by destruct d'.
Qed.
End driver.
