(* ===== verification/BftScenarios.v ===== *)
(** * BFT scenarios

    Concrete runs of the engine, evaluated: the hypotheses of the run theorems
    hold along them, and one of them shows two honest nodes finalising
    different blocks at one height through the stale-lock relaxation. *)

From S2P Require Import Prelude Staking StakingProps StakingTheorems.
From S2P Require Import BftMessages SignGuard BftEngine BftProps BftTheorems BftSafety.
From S2P Require Import BftTiming BftDriver.

#[local] Existing Instance canonical_order.

(** ** Playing a list of events *)

Definition play (evs : list BftEvent) (x : BftEngine * list BftAction)
    : BftEngine * list BftAction :=
  foldl (λ x ev, let '(e', a) := bft_step 0 ev x.1 in (e', x.2 ++ [a])) x evs.

Fixpoint allowed_along (ok : BftEvent → Prop) (evs : list BftEvent) (e : BftEngine) : Prop :=
  match evs with
  | [] => True
  | ev :: evs => event_allowed ev e ∧ ok ev ∧ allowed_along ok evs (bft_step 0 ev e).1
  end.

Lemma play_run ok evs e0 e acts :
  bft_run ok e0 e acts → allowed_along ok evs e →
  bft_run ok e0 (play evs (e, acts)).1 (play evs (e, acts)).2.
Proof.
  revert e acts. induction evs as [|ev evs IH]; intros e acts Hrun Ha; [done|].
  destruct Ha as (Hal & Hok & Ha). unfold play. cbn [foldl fst snd].
  pose proof (run_next ok e0 e acts 0 ev Hrun Hal Hok) as Hnext.
  destruct (bft_step 0 ev e) as [e' a]. by apply IH.
Qed.

(** ** Four validators of equal stake *)

Definition four_ops : list stake_op :=
  [OpRegister "A" MIN_SELF_STAKE 1000 1; OpRegister "B" MIN_SELF_STAKE 1000 1;
   OpRegister "C" MIN_SELF_STAKE 1000 1; OpRegister "D" MIN_SELF_STAKE 1000 1;
   OpUpdateActiveSet].
Definition four : StakeRegistry := (for_each run_stake_op four_ops StakeRegistry_new).1.
Definition unit_stake : Z := MIN_SELF_STAKE.

Lemma four_set : active_set four = ["A"; "B"; "C"; "D"].
Proof. vm_compute. reflexivity. Qed.

Definition node (a : string) : BftEngine := BftEngine_new 0 103 a (4 * unit_stake).

(** The driver's loop body for one's own vote: mark it cast, then count it. *)
Definition own_prevote (a : string) (r : Z) (b : string) : list BftEvent :=
  [EvMarkPrevote; EvPrevote (mkPrevote 103 r (Some b) a []) unit_stake].
Definition own_precommit (a : string) (r : Z) (b : string) : list BftEvent :=
  [EvMarkPrecommit; EvPrecommit (mkPrecommit 103 r (Some b) a []) unit_stake].
Definition prevote_from (a : string) (r : Z) (b : string) : BftEvent :=
  EvPrevote (mkPrevote 103 r (Some b) a [1]) unit_stake.
Definition precommit_from (a : string) (r : Z) (b : string) : BftEvent :=
  EvPrecommit (mkPrecommit 103 r (Some b) a [1]) unit_stake.

(** Node A: sees the proposal, the prevotes and the precommits of B and C. *)
Definition events_A : list BftEvent :=
  [EvStash "b1" [1]; EvProposal "b1" "D" four] ++ own_prevote "A" 0 "b1"
  ++ [prevote_from "B" 0 "b1"; prevote_from "C" 0 "b1"] ++ own_precommit "A" 0 "b1"
  ++ [precommit_from "B" 0 "b1"; precommit_from "C" 0 "b1"].

(** Nodes B and C: the proposer D follows its proposal with a second one, whose
    bytes overwrite the staged ones; the precommits of the other nodes are
    lost; sixteen rounds later D proposes another block. *)
Definition events_other (a other : string) : list BftEvent :=
  [EvStash "b1" [1]; EvProposal "b1" "D" four] ++ own_prevote a 0 "b1"
  ++ [EvStash "b2" [2]; EvProposal "b2" "D" four;
      prevote_from "A" 0 "b1"; prevote_from other 0 "b1"] ++ own_precommit a 0 "b1"
  ++ [EvTimeout] ++ replicate 16 EvAdvanceRound
  ++ [EvStash "b3" [3]; EvProposal "b3" "D" four] ++ own_prevote a 16 "b3"
  ++ [prevote_from other 16 "b3"; prevote_from "D" 16 "b3"] ++ own_precommit a 16 "b3"
  ++ [precommit_from other 16 "b3"; precommit_from "D" 16 "b3"].

Definition run_A : BftEngine * list BftAction := play events_A (node "A", []).
Definition run_B : BftEngine * list BftAction := play (events_other "B" "C") (node "B", []).
Definition run_C : BftEngine * list BftAction := play (events_other "C" "B") (node "C", []).

Definition finalized (acts : list BftAction) : list (Z * Z * string) :=
  omap (λ a, match a with FinalizeBlock h r b _ => Some (h, r, b) | _ => None end) acts.
Definition prevotes_cast (acts : list BftAction) : list (Z * string) :=
  omap (λ a, match a with
             | BroadcastPrevote p => (λ b, (pv_round p, b)) <$> pv_block_hash p
             | _ => None end) acts.
Definition precommits_cast (acts : list BftAction) : list (Z * string) :=
  omap (λ a, match a with
             | BroadcastPrecommit p => (λ b, (pc_round p, b)) <$> pc_block_hash p
             | _ => None end) acts.

(** With four equal validators, a faulty proposer D and lost messages, the
    honest nodes A, B and C fork: A finalises [b1] at round 0, while B and C,
    locked on [b1] without its bytes, drop the lock at round 16 and finalise
    [b3] at the same height.  Every vote of B and C that another honest node
    counts is one that B and C cast. *)
Theorem stale_lock_fork :
  finalized run_A.2 = [(103, 0, "b1")] ∧
  finalized run_B.2 = [(103, 16, "b3")] ∧ finalized run_C.2 = [(103, 16, "b3")] ∧
  prevotes_cast run_A.2 = [(0, "b1")] ∧
  prevotes_cast run_B.2 = [(0, "b1"); (16, "b3")] ∧
  prevotes_cast run_C.2 = [(0, "b1"); (16, "b3")] ∧
  precommits_cast run_B.2 = [(0, "b1"); (16, "b3")] ∧
  precommits_cast run_C.2 = [(0, "b1"); (16, "b3")] ∧
  allowed_along any_event (events_other "B" "C") (node "B").
Proof. vm_compute. repeat split; reflexivity. Qed.

(** ** The run theorems at concrete runs *)

Lemma run_B_reaches : bft_run any_event (node "B") run_B.1 run_B.2.
Proof.
  apply play_run; [constructor|]. vm_compute. repeat split; exact I || reflexivity.
Qed.

Lemma no_equivocation_witness :
  BroadcastPrevote (mkPrevote 103 16 (Some "b3") "B" []) ∈ run_B.2 ∧
  ∀ p, BroadcastPrevote p ∈ run_B.2 → pv_height p = 103 → pv_round p = 16 →
    p = mkPrevote 103 16 (Some "b3") "B" [].
Proof.
  assert (Hin : BroadcastPrevote (mkPrevote 103 16 (Some "b3") "B" []) ∈ run_B.2)
    by (apply list_elem_of_lookup; exists 28%nat; vm_compute; reflexivity).
  split; [exact Hin|]. intros p Hp Eh Er.
  destruct (no_equivocation any_event (node "B") run_B.1 run_B.2
    (engine_inv_new 0 103 "B" (4 * unit_stake)) eq_refl eq_refl run_B_reaches) as [Hone _].
  exact (Hone p _ Hp Hin Eh Er).
Defined.

Definition before_final_A : BftEngine * list BftAction :=
  play (removelast events_A) (node "A", []).
Lemma before_final_A_reaches : bft_run any_event (node "A") before_final_A.1 before_final_A.2.
Proof.
  apply play_run; [constructor|]. vm_compute. repeat split; exact I || reflexivity.
Qed.

Lemma finalized_blocks_justified_witness :
  ∃ e' j, bft_step 0 (precommit_from "C" 0 "b1") before_final_A.1
          = (e', FinalizeBlock 103 0 "b1" j) ∧ NoDup (sp_validator <$> bj_precommits j).
Proof.
  destruct (bft_step 0 (precommit_from "C" 0 "b1") before_final_A.1) as [e' act] eqn:E.
  assert (Ha : ∃ j, act = FinalizeBlock 103 0 "b1" j)
    by (vm_compute in E; injection E as _ <-; eexists; reflexivity).
  destruct Ha as [j ->]. exists e', j. split; [reflexivity|].
  exact (ju_distinct _ _ _ _ _ (proj1 (finalized_blocks_justified any_event (node "A")
    before_final_A.1 before_final_A.2 0 (precommit_from "C" 0 "b1") e' 103 0 "b1" j (engine_inv_new 0 103 "A" _)
    before_final_A_reaches I E))).
Defined.

(** An electorate, and two nodes that see three double-signers. *)
Definition four_electorate : electorate := mkElectorate ["A"; "B"; "C"; "D"] (λ _, unit_stake).
Definition fed (b : string) : BftEngine * list BftAction :=
  play [precommit_from "B" 0 b; precommit_from "C" 0 b] (node "A", []).

Lemma four_electorate_wf : electorate_wf four_electorate.
Proof.
  split_and!; [apply (bool_decide_unpack _); vm_compute; exact I| |vm_compute; discriminate].
  intros a _. vm_compute. discriminate.
Qed.
Lemma node_electoral : votes_electoral four_electorate (node "A").
Proof.
  split; [vm_compute; reflexivity|]. intros v b sig w E. simpl in E.
  rewrite lookup_empty in E. discriminate.
Qed.
Lemma precommit_electoral v r b :
  v ∈ el_members four_electorate → electoral four_electorate (precommit_from v r b).
Proof. intros Hv. split; [exact Hv|reflexivity]. Qed.
Lemma fed_reaches b : bft_run (electoral four_electorate) (node "A") (fed b).1 (fed b).2.
Proof.
  apply play_run; [constructor|].
  repeat split; try (apply precommit_electoral); simpl; set_solver.
Qed.

Lemma conflicting_finalization_exposes_third_witness :
  ∃ guilty, 4 * unit_stake < 3 * sum_of (el_stake four_electorate) guilty.
Proof.
  destruct (bft_step 0 (precommit_from "D" 0 "b1") (fed "b1").1) as [e1' a1] eqn:E1.
  destruct (bft_step 0 (precommit_from "D" 0 "b2") (fed "b2").1) as [e2' a2] eqn:E2.
  assert (Ha1 : ∃ j, a1 = FinalizeBlock 103 0 "b1" j)
    by (vm_compute in E1; injection E1 as _ <-; eexists; reflexivity).
  assert (Ha2 : ∃ j, a2 = FinalizeBlock 103 0 "b2" j)
    by (vm_compute in E2; injection E2 as _ <-; eexists; reflexivity).
  destruct Ha1 as [j1 ->], Ha2 as [j2 ->].
  assert (HD : "D" ∈ el_members four_electorate)
    by (apply (bool_decide_unpack _); vm_compute; exact I).
  pose proof (precommit_electoral "D" 0 "b1" HD) as O1.
  pose proof (precommit_electoral "D" 0 "b2" HD) as O2.
  pose proof (engine_inv_new 0 103 "A" (4 * unit_stake)) as H0. fold (node "A") in H0.
  destruct (conflicting_finalization_exposes_third canonical_order canonical_order
    four_electorate (node "A") (fed "b1").1 (fed "b1").2 0 (precommit_from "D" 0 "b1") e1' "b1" j1
    (node "A") (fed "b2").1 (fed "b2").2 0 (precommit_from "D" 0 "b2") e2' "b2" j2 103 0
    four_electorate_wf H0 node_electoral (fed_reaches "b1") I O1 E1
    H0 node_electoral (fed_reaches "b2") I O2 E2 ltac:(discriminate)) as [Hlt _].
  eexists. exact Hlt.
Defined.

Lemma locking_discipline_witness :
  let e := before_final_A.1 in
  lock_change (precommit_from "C" 0 "b1") e (bft_step 0 (precommit_from "C" 0 "b1") e).1.
Proof.
  destruct (bft_step 0 (precommit_from "C" 0 "b1") before_final_A.1) as [e' act] eqn:E.
  cbn zeta. rewrite E.
  apply (locking_discipline any_event (node "A") before_final_A.1 before_final_A.2 0 (precommit_from "C" 0 "b1") e' act
    (engine_inv_new 0 103 "A" _) before_final_A_reaches I E).
Defined.

Definition status (a : string) (r : Z) : RoundStatus := mkRoundStatus 103 r a [1].
(** Node A after B reported round 4. *)
Definition heard_B : BftEngine := note_peer (status "B" 4) unit_stake (node "A").

Lemma round_skip_rule_witness :
  round (state (on_round_status_weighted 0 (status "C" 3) unit_stake four heard_B).1) = 3.
Proof.
  assert (He : engine_inv heard_B).
  { apply note_peer_inv; [apply engine_inv_new|vm_compute; split; discriminate]. }
  destruct (round_skip_rule 0 (status "C" 3) unit_stake four heard_B He) as [[Hr Hn]|(Hr & _ & _)].
  - vm_compute; split; discriminate.
  - reflexivity.
  - vm_compute; reflexivity.
  - intros a p. unfold heard_B, note_peer. simpl.
    rewrite !lookup_insert_Some, lookup_empty.
    intros [[_ <-]|[_ [[_ <-]|[_ [=]]]]]; vm_compute; discriminate.
  - vm_compute; discriminate.
  - exfalso. specialize (Hn 3 eq_refl). vm_compute in Hn. apply Hn. reflexivity.
  - vm_compute. reflexivity.
Defined.

(** ** The validator loop *)

(** A block is its hash here; the loop of node A polls every 30 seconds. *)
Definition driver_of (e : BftEngine) : Driver (Block := string) :=
  mkDriver e fresh_guard None [].
Definition poll_at (t : Z) : Poll (Block := string) := mkPoll t true true true None.
Definition polls : list Poll := poll_at <$> [30000; 60000; 90000; 120000; 150000; 180000].

Lemma round_always_ends_witness :
  ∃ d' act, run_polls (crypto := toy_crypto) toy_hash id (λ _, None) 7 four polls
              (driver_of (node "A")) = Some (d', act) ∧ round_over (node "A") (d_engine d') act.
Proof.
  refine (round_always_ends (crypto := toy_crypto) toy_hash id (λ _, None) 7 four any_event
    (node "A") [] (driver_of (node "A")) 30000 0 polls
    (engine_inv_new 0 103 "A" _) (run_start any_event (node "A")) _ _ _ _ _).
  - discriminate.
  - vm_compute. discriminate.
  - lia.
  - repeat split; vm_compute; discriminate.
  - vm_compute. discriminate.
Defined.

(** Node A could not send its precommit; B's and C's have arrived since. *)
Definition unsent_A : BftEngine :=
  (play ([EvStash "b1" [1]; EvProposal "b1" "D" four] ++ own_prevote "A" 0 "b1"
    ++ [prevote_from "B" 0 "b1"; prevote_from "C" 0 "b1";
        precommit_from "B" 0 "b1"; precommit_from "C" 0 "b1"]) (node "A", [])).1.
Lemma unsent_A_inv : engine_inv unsent_A.
Proof.
  unfold unsent_A. eapply run_engine_inv; [exact (engine_inv_new 0 103 "A" (4 * unit_stake))|].
  apply play_run with (ok := any_event); [constructor|].
  vm_compute. repeat split; exact I || reflexivity.
Qed.

Lemma timeout_finalisation_dropped_witness :
  ∃ d' j, poll (crypto := toy_crypto) toy_hash id (λ _, None) 7 four (poll_at 30000)
            (driver_of unsent_A) = (d', FinalizeBlock 103 0 "b1" j) ∧
    poll (crypto := toy_crypto) toy_hash id (λ _, None) 7 four (poll_at 99000) d' = (d', Wait).
Proof.
  destruct (poll (crypto := toy_crypto) toy_hash id (λ _, None) 7 four (poll_at 30000)
    (driver_of unsent_A)) as [d' act] eqn:E.
  assert (Ha : ∃ j, act = FinalizeBlock 103 0 "b1" j)
    by (vm_compute in E; injection E as _ <-; eexists; reflexivity).
  destruct Ha as [j ->]. exists d', j. split; [reflexivity|].
  apply (timeout_finalisation_dropped (crypto := toy_crypto) toy_hash id (λ _, None) 7 four
    (poll_at 30000) (driver_of unsent_A) d' 103 0 "b1" j unsent_A_inv); [|exact E].
  vm_compute. discriminate.
Defined.
