(* ===== verification/Justify.v ===== *)
(** * The justification gate of peer blocks

    Models the check that Pass 1 of block validation makes on the
    justification of a block received from a peer
    (crates/sentrix-core/src/block_executor.rs), with the strict rule and the
    legacy one, and the fork gate of crates/sentrix-fork-heights/src/lib.rs.
    The theorems say what an accepted justification guarantees, and that the
    engine's own justifications do not pass the strict rule. *)

From S2P Require Import Prelude Bytes Staking StakingProps StakingTheorems.
From S2P Require Import BftMessages SignGuard BftEngine BftProps BftTheorems BftScenarios.

(** ** The gate *)

(** [fork] is the configured height, [u64::MAX] when the rule is off. *)
Definition is_strict_justification_height (fork height : Z) : bool :=
  negb (fork =? U64_MAX) && (fork <=? height).

(** Stake of the active set, as the receiver sees it. *)
Definition active_stake (r : StakeRegistry) : Z :=
  wrap U64_MAX (sum_of v_total_stake (omap (get_validator r) (active_set r))).

Section gate.
Context `{Crypto}.

(** The loop over the precommits: the stake verified so far, or the error. *)
Fixpoint verify_precommits (r : StakeRegistry) (chain_id index : Z) (j : BlockJustification)
    (ps : list SignedPrecommit) (seen : list string) (verified_stake : Z) : result Z :=
  match ps with
  | [] => Ok verified_stake
  | p :: ps =>
      if bool_decide (sp_validator p ∈ seen) then
        Err (InvalidBlock ("block " +:+ pretty index
          +:+ " justification has duplicate precommit from " +:+ sp_validator p))
      else
        match get_validator r (sp_validator p) with
        | None =>
            Err (InvalidBlock ("block " +:+ pretty index +:+ " justification cites validator "
              +:+ sp_validator p
              +:+ " not in our active set — peer-finalised view diverges, refusing to apply"))
        | Some val =>
            let payload := pc_signing_payload_for_height (bj_height j) (bj_round j)
                             (Some (bj_block_hash j)) chain_id in
            match recover_signer payload (sp_signature p) with
            | Err _ => Err (InvalidBlock ("block " +:+ pretty index +:+ " precommit from "
                +:+ sp_validator p +:+ " has invalid signature"))
            | Ok recovered =>
                if negb (bool_decide (to_lowercase recovered = to_lowercase (sp_validator p)))
                then Err (InvalidBlock ("block " +:+ pretty index +:+ " precommit from "
                  +:+ sp_validator p +:+ " signed by different key (recovered=" +:+ recovered +:+ ")"))
                else verify_precommits r chain_id index j ps (sp_validator p :: seen)
                       (saturating_add U64_MAX verified_stake (v_total_stake val))
            end
        end
  end.

Definition verify_strict (r : StakeRegistry) (chain_id index : Z) (block_hash : string)
    (j : BlockJustification) : result unit :=
  if negb (bool_decide (bj_block_hash j = block_hash)) then
    Err (InvalidBlock ("block " +:+ pretty index +:+ " hash mismatch: block.hash=" +:+ block_hash
      +:+ " != justification.block_hash=" +:+ bj_block_hash j
      +:+ " — peer block has inconsistent block/justification refs, refusing to apply"))
  else
    match verify_precommits r chain_id index j (bj_precommits j) [] 0 with
    | Err e => Err e
    | Ok verified_stake =>
        if active_stake r =? 0 then
          Err (InvalidBlock ("block " +:+ pretty index
            +:+ " arrived during cold-start (total_active_stake=0); strict-justification fork "
            +:+ "active so we refuse to bypass — bypass_authz replay should be used to catch up"))
        else if verified_stake <? supermajority_threshold (active_stake r) then
          Err (InvalidBlock ("block " +:+ pretty index +:+ " verified-stake "
            +:+ pretty verified_stake +:+ " < threshold "
            +:+ pretty (supermajority_threshold (active_stake r)) +:+ " (total_active_stake="
            +:+ pretty (active_stake r) +:+ ", signers=" +:+ pretty (Z.of_nat (signer_count j))
            +:+ ") — peer-finalised view diverges from ours, refusing to apply"))
        else Ok tt
    end.

Definition verify_legacy (r : StakeRegistry) (index : Z) (j : BlockJustification) : result unit :=
  if (0 <? active_stake r) && negb (has_supermajority j (active_stake r)) then
    Err (InvalidBlock ("block " +:+ pretty index +:+ " justification stake "
      +:+ pretty (bj_total_stake j) +:+ " is below the local supermajority threshold "
      +:+ pretty (supermajority_threshold (active_stake r)) +:+ " (total_active_stake="
      +:+ pretty (active_stake r) +:+ ", signers=" +:+ pretty (Z.of_nat (signer_count j))
      +:+ ") — peer-finalised view diverges from ours, refusing to apply"))
  else Ok tt.

(** The whole check: [Ok verified] carries the flag the source sets when the
    gate ran and passed. *)
Definition check_justification (bypass_authz from_peer voyager : bool) (fork chain_id index : Z)
    (r : StakeRegistry) (block_hash : string) (oj : option BlockJustification) : result bool :=
  if negb bypass_authz && from_peer && voyager then
    match oj with
    | None => Ok false
    | Some j =>
        match (if is_strict_justification_height fork index
               then verify_strict r chain_id index block_hash j
               else verify_legacy r index j) with
        | Ok _ => Ok true
        | Err e => Err e
        end
    end
  else Ok false.

(** ** What an accepted justification guarantees *)






Lemma verify_precommits_bad r chain_id index j ps seen acc p :
  p ∈ ps → length (sp_signature p) ≠ 65%nat →
  ∃ e, verify_precommits r chain_id index j ps seen acc = Err e.
Proof.
  revert seen acc. induction ps as [|q ps IH]; intros seen acc Hp Hlen; [set_solver|].
  cbn [verify_precommits]. case_bool_decide; [eauto|].
  destruct (get_validator r (sp_validator q)); [|eauto].
  destruct (recover_signer _ _) as [addr|] eqn:Hrec; [|eauto].
  destruct (negb _); [eauto|]. apply elem_of_cons in Hp as [->|Hp]; [|by apply IH].
  unfold recover_signer in Hrec. by rewrite (proj2 (Nat.eqb_neq _ _) Hlen) in Hrec.
Qed.

(** The engine counts its own precommit unsigned, so a justification in
    which the finalising node's own vote appears is rejected under the strict
    rule by every receiver, whatever its registry. *)
Theorem own_justification_rejected `{HashOrder} ok e0 e acts now ev e' h rd b j w
    r chain_id fork index block_hash :
  engine_inv e0 → bft_run ok e0 e acts → event_allowed ev e →
  bft_step now ev e = (e', FinalizeBlock h rd b j) →
  precommits (state e') !! our_address e' = Some (pc_block_hash (our_precommit (Some b) e'),
    pc_signature (our_precommit (Some b) e'), w) →
  is_strict_justification_height fork index = true →
  ∃ err, check_justification false true true fork chain_id index r block_hash (Some j) = Err err.
Proof.
  intros Hinit Hrun Hal E Hown Hst.
  pose proof (finalize_justified now ev e e' h rd b j (run_engine_inv _ _ _ _ Hinit Hrun) Hal E) as Hj.
  assert (Hin : ∃ p, p ∈ bj_precommits j ∧ sp_signature p = []).
  { assert (our_address e' ∈ sp_validator <$> bj_precommits j) as Hv
      by (apply (ju_votes _ _ _ _ _ Hj); eauto).
    apply list_elem_of_fmap in Hv as (p & Hv & Hp). exists p. split; [done|].
    apply (ju_weights _ _ _ _ _ Hj) in Hp. rewrite <-Hv, Hown in Hp. simpl in Hp. congruence. }
  destruct Hin as (p & Hp & Hsig). unfold check_justification, verify_strict. simpl. rewrite Hst.
  case_bool_decide; simpl; [|eauto].
  destruct (verify_precommits_bad r chain_id index j (bj_precommits j) [] 0 p Hp) as [err ->];
    [by rewrite Hsig|eauto].
Qed.

Lemma verify_precommits_stakes r r' chain_id index j ps seen acc :
  (∀ v, v_total_stake <$> get_validator r' v = v_total_stake <$> get_validator r v) →
  verify_precommits r' chain_id index j ps seen acc
  = verify_precommits r chain_id index j ps seen acc.
Proof.
  intros Hst. revert seen acc. induction ps as [|p ps IH]; intros seen acc; [done|].
  cbn [verify_precommits]. specialize (Hst (sp_validator p)).
  destruct (get_validator r' _) as [w'|], (get_validator r _) as [w|]; simplify_eq/=; [|done].
  rewrite Hst. repeat case_match; auto.
Qed.

(** The verdict on a justification depends on its signers only through
    their stake in the registry.  Two registries that agree on every
    validator's stake and on the total stake of the active set give the same
    verdict, whoever is active, jailed or tombstoned in them; so the votes of a
    jailed validator outside the active set count in full. *)
Theorem inactive_signer_accepted r r' bypass from_peer voyager fork chain_id index block_hash oj :
  (∀ v, v_total_stake <$> get_validator r' v = v_total_stake <$> get_validator r v) →
  active_stake r' = active_stake r →
  check_justification bypass from_peer voyager fork chain_id index r' block_hash oj
  = check_justification bypass from_peer voyager fork chain_id index r block_hash oj.
Proof.
  intros Hst Ha. unfold check_justification, verify_strict, verify_legacy. rewrite Ha.
  destruct oj as [j|]; [|done]. by rewrite (verify_precommits_stakes r r').
Qed.
End gate.

(** ** The theorems at concrete inputs *)

#[local] Existing Instance toy_crypto.
#[local] Existing Instance canonical_order.

Definition solo_justification : BlockJustification :=
  mkJustification 5 0 "bb" [mkSigned "1" "bb" (1 :: replicate 64 0) 1].


Lemma own_justification_rejected_witness :
  ∃ j err, (bft_step 0 (precommit_from "C" 0 "b1") before_final_A.1).2 = FinalizeBlock 103 0 "b1" j ∧
    check_justification false true true 1 7119 103 four "b1" (Some j) = Err err.
Proof.
  destruct (bft_step 0 (precommit_from "C" 0 "b1") before_final_A.1) as [e' act] eqn:E.
  assert (Ha : ∃ j, act = FinalizeBlock 103 0 "b1" j)
    by (vm_compute in E; injection E as _ <-; eexists; reflexivity).
  destruct Ha as [j ->].
  assert (Hown : precommits (state e') !! our_address e' = Some (Some "b1", [], unit_stake))
    by (vm_compute in E; injection E as <- _; vm_compute; reflexivity).
  destruct (own_justification_rejected any_event (node "A") before_final_A.1 before_final_A.2 0
    (precommit_from "C" 0 "b1") e' 103 0 "b1" j unit_stake four 7119 1 103 "b1"
    (engine_inv_new 0 103 "A" _) before_final_A_reaches I E Hown eq_refl) as [err Herr].
  exists j, err. split; [reflexivity|exact Herr].
Defined.

Definition jailed_signer_ops : list stake_op :=
  [OpRegister "1" (2 * MIN_SELF_STAKE) 1000 1; OpRegister "v2" MIN_SELF_STAKE 1000 1;
   OpUpdateActiveSet; OpJail "1" 600 4].
Definition jailed_signer : StakeRegistry :=
  (for_each run_stake_op jailed_signer_ops StakeRegistry_new).1.

(** The same validators and active stake, the signer not jailed. *)
Definition unjailed_signer : StakeRegistry :=
  (for_each run_stake_op (removelast jailed_signer_ops) StakeRegistry_new).1
    <| active_set := ["v2"] |>.

Lemma inactive_signer_accepted_witness :
  active_set jailed_signer = ["v2"] ∧
  v_is_jailed <$> get_validator jailed_signer "1" = Some true ∧
  check_justification false true true 1 7119 5 jailed_signer "bb" (Some solo_justification) = Ok true.
Proof.
  split; [vm_compute; reflexivity|]. split; [vm_compute; reflexivity|].
  rewrite (inactive_signer_accepted unjailed_signer jailed_signer);
    [vm_compute; reflexivity| |vm_compute; reflexivity].
  assert (E : v_total_stake <$> validators jailed_signer = v_total_stake <$> validators unjailed_signer)
    by (vm_compute; reflexivity).
  intros v. unfold get_validator. rewrite <-!lookup_fmap, E. reflexivity.
Defined.
