(* ===== verification/Executor.v ===== *)
(** * The block executor

    Models crates/sentrix-core/src/block_executor.rs: Pass 1 (validation),
    Pass 2 (application of every transaction kind, fees, mempool, window, reward
    and epoch bookkeeping, state root) and the snapshot that is restored when
    Pass 2 fails; [run_epoch_bookkeeping] of blockchain.rs.  The NFT registry,
    the EVM interpreter and the state trie enter through the class [ChainOps]. *)

From S2P Require Import Prelude Bytes Account Staking Epoch Slashing Token.
From S2P Require Import Merkle Transaction TransactionProps Authority Emission.
From S2P Require Import BftMessages Block Chain Justify.

(** The operations the executor calls on parts outside this model. *)
Class ChainOps `{ChainTypes} := {
  (** [apply_nft_token_op registry op sender txid] *)
  apply_nft_token_op : TokenOp → string → string → st NftRegistry unit;
  (** [execute_evm_tx_in_block]: it changes accounts only. *)
  execute_evm_tx : Transaction → Z → string → Z → Blockchain → AccountDB * result unit;
  (** [update_trie_for_block]: the account state (whose touch set it drains),
      the trie and the new root. *)
  update_trie : Blockchain → AccountDB * option SentrixTrie * result (option bytes);
  trie_root_hash : SentrixTrie → bytes;
  trie_set_root : bytes → SentrixTrie → SentrixTrie;
}.

(** What a node is configured with: fork heights, the replay bypass, the cutoff
    below which a state-root mismatch is tolerated, and the clock. *)
Record NodeConfig := mkConfig {
  cfg_forks : Forks;
  cfg_bypass_authz : bool;
  cfg_legacy_cutoff : Z;
  cfg_now : Z;
}.

Section executor.
Context `{ChainTypes, !ChainOps, Json, Sha256, TxCrypto, Hex, HashOrder, Crypto}.
Context (cfg : NodeConfig).
Implicit Types bc : Blockchain.

(** ** Running an operation of one component *)

Definition on_accounts {A} (m : st AccountDB A) : st Blockchain A := λ bc,
  let '(db, r) := m (bc_accounts bc) in (bc <| bc_accounts := db |>, r).
Definition on_contracts {A} (m : st ContractRegistry A) : st Blockchain A := λ bc,
  let '(c, r) := m (bc_contracts bc) in (bc <| bc_contracts := c |>, r).
Definition on_nft {A} (m : st NftRegistry A) : st Blockchain A := λ bc,
  let '(n, r) := m (bc_nft_registry bc) in (bc <| bc_nft_registry := n |>, r).
Definition on_stake {A} (m : st StakeRegistry A) : st Blockchain A := λ bc,
  let '(r, x) := m (bc_stake_registry bc) in (bc <| bc_stake_registry := r |>, x).
Definition on_world {A} (m : st world A) : st Blockchain A := λ bc,
  let '(w, x) := m (bc_slashing bc, bc_stake_registry bc) in
  (bc <| bc_slashing := w.1 |> <| bc_stake_registry := w.2 |>, x).

(** ** Pass 1 *)

(** The working copies of the dry run. *)
Record Working := mkWorking {
  w_balances : gmap string Z;
  w_nonces : gmap string Z;
  w_seen : gset (string * Z);
  w_nft : option NftRegistry;
}.
#[global] Instance Working_eta : Eta Working := λ w,
  mkWorking (w_balances w) (w_nonces w) (w_seen w) (w_nft w).

Definition not_found_contract (c : string) : SentrixError :=
  InvalidTransaction ("token contract " +:+ c +:+ " not found").

(** The dry run of an NFT operation on the working registry. *)
Definition dry_run_nft bc (tx : Transaction) (op : TokenOp) : st Working unit := λ w,
  let working := default (bc_nft_registry bc) (w_nft w) in
  let '(n, r) := apply_nft_token_op op (tx_from tx) (txid tx) working in
  (w <| w_nft := Some n |>, r).

(** The checks on a token operation. *)
Definition check_token_op bc (tx : Transaction) (op : TokenOp) : st Working unit :=
  let exists_ (c : string) : st Working unit := fail_if (negb (contract_exists (bc_contracts bc) c)) (not_found_contract c) in
  let covers (c : string) (x : Z) : st Working unit :=
    let token_bal := get_token_balance (bc_contracts bc) c (tx_from tx) in
    fail_if (token_bal <? x) (InsufficientBalance token_bal x) in
  match op with
  | TokenOp_Transfer contract to x =>
      exists_ contract ;;
      fail_if (negb (is_spendable_sentrix_address to))
        (InvalidTransaction ("invalid token transfer target address: '" +:+ to
           +:+ "' (zero address rejected — use Burn op to destroy tokens)")) ;;
      covers contract x
  | TokenOp_Burn contract x => exists_ contract ;; covers contract x
  | TokenOp_Mint contract to _ =>
      exists_ contract ;;
      fail_if (negb (is_spendable_sentrix_address to))
        (InvalidTransaction ("invalid token mint target address: '" +:+ to
           +:+ "' (zero address rejected)"))
  | TokenOp_Approve contract spender _ =>
      exists_ contract ;;
      fail_if (negb (is_valid_sentrix_address spender))
        (InvalidTransaction ("invalid token approve spender address: '" +:+ spender +:+ "'"))
  | TokenOp_Deploy name symbol _ _ _ =>
      fail_if (is_empty name || (64 <? Z.of_nat (String.length name)))
        (InvalidTransaction "token name must be 1–64 characters") ;;
      fail_if (is_empty symbol || (10 <? Z.of_nat (String.length symbol))
               || negb (all_chars is_alphanumeric symbol))
        (InvalidTransaction "token symbol must be 1–10 ASCII alphanumeric characters")
  | op =>
      fail_if (negb (is_nft_tokenop_height (cfg_forks cfg) (wrapping_add U64_MAX (bc_height bc) 1)))
        (InvalidTransaction
           "NFT TokenOp dispatch is gated by NFT_TOKENOP_HEIGHT fork (currently disabled)") ;;
      dry_run_nft bc tx op
  end.

Definition validate_tx bc (tx : Transaction) : st Working unit :=
  if is_system_tx tx then mret tt
  else
    seen ← gets w_seen ;
    fail_if (bool_decide ((tx_from tx, tx_nonce tx) ∈ seen))
      (InvalidBlock ("duplicate (sender, nonce) pair for " +:+ tx_from tx +:+ " nonce "
         +:+ pretty (tx_nonce tx) +:+ " in block")) ;;
    modify (λ w, w <| w_seen := {[(tx_from tx, tx_nonce tx)]} ∪ w_seen w |>) ;;
    balance ← gets (λ w, default (get_balance (bc_accounts bc) (tx_from tx))
                           (w_balances w !! tx_from tx)) ;
    nonce ← gets (λ w, default (get_nonce (bc_accounts bc) (tx_from tx))
                         (w_nonces w !! tx_from tx)) ;
    lift_result (validate tx nonce (bc_chain_id bc)) ;;
    needed ← ok_or (checked_add U64_MAX (tx_amount tx) (tx_fee tx))
      (InvalidTransaction "amount + fee overflow") ;
    fail_if (balance <? needed) (InsufficientBalance balance needed) ;;
    (match token_op_decode (tx_data tx) with
     | Some op => check_token_op bc tx op
     | None => mret tt
     end) ;;
    modify (λ w, w <| w_balances := <[tx_from tx := balance - needed]> (w_balances w) |>
                   <| w_nonces := <[tx_from tx := wrapping_add U64_MAX nonce 1]> (w_nonces w) |>).

(** Everything before the transaction loop, ending with the coinbase checks. *)
Definition validate_header (block : Block) : st Blockchain unit :=
  modify (λ bc, bc <| bc_justification_verified := false |>) ;;
  bc ← gets (λ bc, bc) ;
  let expected_index := wrapping_add U64_MAX (bc_height bc) 1 in
  prev ← lift_result (latest_block bc) ;
  lift_result (validate_structure block expected_index (blk_hash prev)) ;;
  let voyager := voyager_mode_for (cfg_forks cfg) bc expected_index in
  (if negb (cfg_bypass_authz cfg) && negb voyager then
     authorized ← lift_result (is_authorized (bc_authority bc) (blk_validator block) expected_index) ;
     fail_if (negb authorized) (UnauthorizedValidator ("validator " +:+ blk_validator block
       +:+ " not authorized for block " +:+ pretty expected_index))
   else mret tt) ;;
  fail_if (blk_timestamp block <? blk_timestamp prev)
    (InvalidBlock "block timestamp is before previous block") ;;
  fail_if (wrapping_add U64_MAX (cfg_now cfg) 15 <? blk_timestamp block)
    (InvalidBlock "block timestamp too far in the future") ;;
  verified ← lift_result (check_justification (cfg_bypass_authz cfg)
      (bool_decide (bc_source_for_current_add bc = Peer)) voyager
      (fk_strict_justification (cfg_forks cfg)) (bc_chain_id bc) expected_index
      (bc_stake_registry bc) (blk_hash block) (blk_justification block)) ;
  (if (verified : bool) then modify (λ bc, bc <| bc_justification_verified := true |>) else mret tt) ;;
  let reward := bc_block_reward (cfg_forks cfg) bc in
  cb ← ok_or (coinbase block) (InvalidBlock "missing coinbase") ;
  fail_if (negb (tx_amount cb =? reward))
    (InvalidBlock ("coinbase amount " +:+ pretty (tx_amount cb) +:+ " must equal block reward "
       +:+ pretty reward)) ;;
  fail_if (negb (bool_decide (tx_to cb = blk_validator block)))
    (InvalidBlock ("coinbase recipient " +:+ tx_to cb +:+ " must equal block validator "
       +:+ blk_validator block)).

Definition pass1 (block : Block) : st Blockchain unit :=
  validate_header block ;;
  bc ← gets (λ bc, bc) ;
  lift_result ((for_each (validate_tx bc) (tail (blk_transactions block))
                  (mkWorking ∅ ∅ ∅ None)).2).

(** ** Pass 2: one transaction *)

(** [deploy]: as many steps of the address search as there are contracts always
    suffice when the candidate addresses differ. *)
Definition deploy (deployer name symbol : string) (decimals total max : Z) (seed : string)
    : st ContractRegistry string := λ r,
  match deploy_with (contract_count r) deployer name symbol decimals total max seed r with
  | Some out => out
  | None => (r, Err (Internal "address search did not end"))
  end.

Definition apply_token_op (block : Block) (tx : Transaction) (op : TokenOp) : st Blockchain unit :=
  match op with
  | TokenOp_Deploy name symbol decimals supply max_supply =>
      on_contracts (deploy (tx_from tx) name symbol decimals supply max_supply (txid tx)) ;; mret tt
  | TokenOp_Transfer contract to x => on_contracts (execute_transfer contract (tx_from tx) to x)
  | TokenOp_Burn contract x => on_contracts (execute_burn contract (tx_from tx) x)
  | TokenOp_Mint contract to x => on_contracts (execute_mint contract (tx_from tx) to x)
  | TokenOp_Approve contract spender x =>
      on_contracts (execute_approve contract (tx_from tx) spender x)
  | op =>
      fail_if (negb (is_nft_tokenop_height (cfg_forks cfg) (blk_index block)))
        (InvalidTransaction
           "NFT TokenOp dispatch is gated by NFT_TOKENOP_HEIGHT fork (currently disabled)") ;;
      on_nft (apply_nft_token_op op (tx_from tx) (txid tx))
  end.

Definition zero_pending (a : string) (r : StakeRegistry) : StakeRegistry :=
  match validators r !! a with
  | Some v => put_validator a (v <| v_pending_rewards := 0 |>) r
  | None => r
  end.

Definition claim_rewards (claimer : string) : st Blockchain unit :=
  bc ← gets (λ bc, bc) ;
  let delegator_amount := peek_delegator_rewards (bc_stake_registry bc) claimer in
  let validator_amount :=
    default 0 (v_pending_rewards <$> validators (bc_stake_registry bc) !! claimer) in
  let total_claim := saturating_add U64_MAX delegator_amount validator_amount in
  if 0 <? total_claim then
    on_accounts (transfer PROTOCOL_TREASURY claimer total_claim 0) ;;
    modify (λ bc, bc <| bc_stake_registry :=
      zero_pending claimer (take_delegator_rewards claimer (bc_stake_registry bc)).1 |>)
  else mret tt.

(** The loop that jails each cited validator; one that cannot be jailed is
    skipped. *)
Definition jail_cited (ev : JailEvidence) bc : Blockchain :=
  match jail (je_validator ev) DOWNTIME_JAIL_BLOCKS (bc_height bc) (bc_stake_registry bc) with
  | (r, Ok _) => bc <| bc_stake_registry := r |>
      <| bc_slashing := bc_slashing bc
           <| liveness := reset (je_validator ev) (liveness (bc_slashing bc)) |> |>
  | (r, Err _) => bc <| bc_stake_registry := r |>
  end.

Definition apply_jail_bundle (epoch : Z) (evidence : list JailEvidence) (claimed : list string)
    : st Blockchain unit :=
  bc ← gets (λ bc, bc) ;
  fail_if (negb (is_jail_consensus_height (cfg_forks cfg) (bc_height bc)))
    (InvalidTransaction
       "JailEvidenceBundle dispatch is gated by JAIL_CONSENSUS_HEIGHT fork (currently disabled)") ;;
  fail_if (negb (epoch =? epoch_for_height (bc_height bc)))
    (InvalidTransaction ("JailEvidenceBundle epoch " +:+ pretty epoch +:+ " != current epoch "
       +:+ pretty (epoch_for_height (bc_height bc)))) ;;
  fail_if (bool_decide (claimed = []))
    (InvalidTransaction "JailEvidenceBundle V2: claimed active_set must be non-empty") ;;
  for_each (λ v, fail_if (bool_decide (validators (bc_stake_registry bc) !! v = None))
    (InvalidTransaction ("JailEvidenceBundle V2: claimed active_set contains unregistered validator "
       +:+ v))) claimed ;;
  let local := compute_jail_evidence (bc_slashing bc) claimed (bc_height bc) in
  fail_if (negb (bool_decide (local = evidence)))
    (InvalidTransaction ("JailEvidenceBundle verification failed: local recompute differs from claim (local="
       +:+ pretty (Z.of_nat (length local)) +:+ " claimed=" +:+ pretty (Z.of_nat (length evidence)) +:+ ")")) ;;
  modify (λ bc, foldl (λ bc ev, jail_cited ev bc) bc evidence).

Definition require_amount (tx : Transaction) (x : Z) (what : string) : st Blockchain unit :=
  fail_if (negb (tx_amount tx =? x)) (InvalidTransaction what).

Definition apply_staking_op (block : Block) (tx : Transaction) (op : StakingOp)
    : st Blockchain unit :=
  fail_if (negb (bool_decide (tx_to tx = PROTOCOL_TREASURY)))
    (InvalidTransaction ("staking op tx must target PROTOCOL_TREASURY; got to_address=" +:+ tx_to tx)) ;;
  match op with
  | StakingOp_ClaimRewards => claim_rewards (tx_from tx)
  | StakingOp_RegisterValidator self_stake commission_rate public_key =>
      require_amount tx self_stake ("RegisterValidator: tx.amount (" +:+ pretty (tx_amount tx)
        +:+ ") must equal self_stake (" +:+ pretty self_stake +:+ ")") ;;
      on_stake (register_validator (tx_from tx) self_stake commission_rate (blk_index block)) ;;
      modify (λ bc, bc <| bc_authority := add_validator_unchecked (cfg_now cfg) (tx_from tx)
        ("Community:" +:+ String.substring 0 10 (tx_from tx)) public_key (bc_authority bc) |>)
  | StakingOp_Delegate validator x =>
      require_amount tx x ("Delegate: tx.amount (" +:+ pretty (tx_amount tx)
        +:+ ") must equal delegation amount (" +:+ pretty x +:+ ")") ;;
      on_stake (delegate (tx_from tx) validator x (blk_index block))
  | StakingOp_Undelegate validator x =>
      require_amount tx 0 "Undelegate: tx.amount must be 0 (amount is in data field)" ;;
      on_stake (undelegate (tx_from tx) validator x (blk_index block))
  | StakingOp_Redelegate from_validator to_validator x =>
      require_amount tx 0 "Redelegate: tx.amount must be 0" ;;
      on_stake (redelegate (tx_from tx) from_validator to_validator x (blk_index block))
  | StakingOp_Unjail =>
      require_amount tx 0 "Unjail: tx.amount must be 0" ;;
      on_stake (unjail (tx_from tx) (blk_index block))
  | StakingOp_SubmitEvidence height hash_a hash_b sig_a sig_b offender =>
      require_amount tx 0 "SubmitEvidence: tx.amount must be 0" ;;
      fail_if (is_empty offender)
        (InvalidTransaction "SubmitEvidence: offender field must be populated") ;;
      on_world (process_double_sign (mkEvidence offender height hash_a hash_b sig_a sig_b)) ;; mret tt
  | StakingOp_JailEvidenceBundle epoch _ _ evidence claimed => apply_jail_bundle epoch evidence claimed
  | StakingOp_AddSelfStake x =>
      fail_if (negb (is_add_self_stake_height (cfg_forks cfg) (blk_index block)))
        (InvalidTransaction
           "AddSelfStake dispatch is gated by ADD_SELF_STAKE_HEIGHT fork (currently disabled)") ;;
      require_amount tx x ("AddSelfStake: tx.amount (" +:+ pretty (tx_amount tx)
        +:+ ") must equal stake amount (" +:+ pretty x +:+ ")") ;;
      on_stake (add_self_stake (tx_from tx) x) ;;
      modify (λ bc, bc <| bc_stake_registry := update_active_set (bc_stake_registry bc) |>)
  end.

(** The account movement of a transaction, with the block's fee total. *)
Definition apply_native (tx : Transaction) (total_fee : Z) : st Blockchain Z :=
  if is_system_tx tx then mret total_fee
  else
    (if is_evm_tx tx then on_accounts (charge_fee_only (tx_from tx) (tx_fee tx))
     else on_accounts (transfer (tx_from tx) (tx_to tx) (tx_amount tx) (tx_fee tx))) ;;
    ok_or (checked_add U64_MAX total_fee (tx_fee tx)) (Internal "block total_fee overflow").

(** [execute_evm_tx_in_block], with the position of the first transaction of the
    block that carries the same txid. *)
Definition run_evm (block : Block) (tx : Transaction) : st Blockchain unit := λ bc,
  let tx_index := default 0%nat
    (fst <$> list_find (λ t, txid t = txid tx) (blk_transactions block)) in
  let '(db, r) := execute_evm_tx tx (blk_index block) (blk_hash block)
                    (wrap U32_MAX (Z.of_nat tx_index)) bc in
  (bc <| bc_accounts := db |>, r).

(** One iteration of the loop over the transactions. *)
Definition apply_tx (block : Block) (tx : Transaction) (total_fee : Z) : st Blockchain Z :=
  total_fee ← apply_native tx total_fee ;
  (match token_op_decode (tx_data tx) with
   | Some op => apply_token_op block tx op
   | None => mret tt
   end) ;;
  (if is_reward_v2_height (cfg_forks cfg) (blk_index block) then
     match staking_op_decode (tx_data tx) with
     | Some op => apply_staking_op block tx op
     | None => mret tt
     end
   else mret tt) ;;
  bc ← gets (λ bc, bc) ;
  (if is_evm_tx tx && voyager_mode_for (cfg_forks cfg) bc (bc_height bc)
   then run_evm block tx else mret tt) ;;
  mret total_fee.

Fixpoint apply_txs (block : Block) (txs : list Transaction) (total_fee : Z) : st Blockchain Z :=
  match txs with
  | [] => mret total_fee
  | tx :: txs => total_fee ← apply_tx block tx total_fee ; apply_txs block txs total_fee
  end.

(** ** Pass 2: the block *)

Definition reset_reward_accumulators r : StakeRegistry :=
  r <| validators := (λ v, v <| v_pending_rewards := 0 |>) <$> validators r |>
    <| delegator_rewards := ∅ |>.

(** The coinbase, with the reset on the first block of the new reward rule. *)
Definition apply_coinbase (block : Block) (amount : Z) : st Blockchain unit :=
  let v2 := is_reward_v2_height (cfg_forks cfg) in
  (if v2 (blk_index block) && negb (v2 (saturating_sub (blk_index block) 1)) then
     modify (λ bc, bc <| bc_stake_registry := reset_reward_accumulators (bc_stake_registry bc) |>)
   else mret tt) ;;
  let recipient := if v2 (blk_index block) then PROTOCOL_TREASURY else blk_validator block in
  on_accounts (credit recipient amount) ;;
  modify (λ bc, bc <| bc_total_minted := saturating_add U64_MAX (bc_total_minted bc) amount |>).

(** The validator's half of the fees. *)
Definition pay_fee_share (block : Block) (total_fee : Z) : st Blockchain unit :=
  let validator_fee_share := total_fee - div_ceil total_fee 2 in
  if 0 <? validator_fee_share then on_accounts (credit (blk_validator block) validator_fee_share)
  else mret tt.

(** The mempool after a block: mined transactions leave, then stale nonces of the
    block's senders, then expired transactions. *)
Definition settle_mempool (block : Block) bc : Blockchain :=
  let mined := txid <$> blk_transactions block in
  let bc := rebuild_mempool_sidecars
    (bc <| bc_mempool := filter (λ tx, txid tx ∉ mined) (bc_mempool bc) |>) in
  prune_mempool (cfg_now cfg)
    (evict_stale_nonce_for_senders (tx_from <$> blk_transactions block) bc).

(** [push], then the eviction of the blocks beyond the window. *)
Definition append_block (block : Block) bc : Blockchain :=
  let chain := bc_chain bc ++ [block] in
  bc <| bc_chain := drop (length chain - CHAIN_WINDOW_SIZE) chain |>.

Definition apply_reward_bookkeeping bc : Blockchain :=
  match last (bc_chain bc) with
  | None => bc
  | Some latest =>
      match blk_justification latest with
      | None => bc
      | Some j =>
          let active := active_set (bc_stake_registry bc) in
          let reward := bc_block_reward (cfg_forks cfg) bc in
          bc <| bc_slashing := record_block_signatures active
                  (sp_validator <$> bj_precommits j) (blk_index latest) (bc_slashing bc) |>
             <| bc_stake_registry := (distribute_reward (blk_validator latest)
                  ((λ p, (sp_validator p, sp_stake_weight p)) <$> bj_precommits j) reward 0
                  (bc_stake_registry bc)).1 |>
             <| bc_epoch_manager := record_block reward (bc_epoch_manager bc) |>
      end
  end.

(** The payment of one matured unbonding; a failure is only logged. *)
Definition release_unbonding (height : Z) (db : AccountDB) (p : string * Z) : AccountDB :=
  (if is_reward_v2_height (cfg_forks cfg) height
   then transfer PROTOCOL_TREASURY p.1 p.2 0 db
   else credit p.1 p.2 db).1.

Definition rotate_epoch (active : list string) (staked : Z) (m : EpochManager) : EpochManager :=
  let h := history m ++ [current_epoch m] in
  let next_num := wrapping_add U64_MAX (epoch_number (current_epoch m)) 1 in
  m <| history := if max_history m <? Z.of_nat (length h) then drop 1 h else h |>
    <| current_epoch := open_epoch next_num active staked |>.

Definition run_epoch_bookkeeping (height : Z) bc : Blockchain :=
  if negb (is_epoch_boundary height) then bc
  else
    let '(r, released) := process_unbonding height (bc_stake_registry bc) in
    let db := foldl (release_unbonding height) (bc_accounts bc) released in
    let r := update_active_set r in
    let active := active_set r in
    let m := rotate_epoch active (staked_by r active) (bc_epoch_manager bc) in
    let '((s, r), slashed) := check_liveness active height (bc_slashing bc, r) in
    bc <| bc_accounts := foldl (λ db p, burn p.2 db) db slashed |>
       <| bc_stake_registry := r |> <| bc_epoch_manager := m |> <| bc_slashing := s |>.

Definition bookkeeping bc : Blockchain :=
  if is_reward_apply_path_height (cfg_forks cfg) (bc_height bc)
  then let bc := apply_reward_bookkeeping bc in run_epoch_bookkeeping (bc_height bc) bc
  else bc.

(** The root is written on, or compared with, the last block. *)
Definition set_last (f : Block → Block) bc : Blockchain :=
  bc <| bc_chain := alter f (pred (length (bc_chain bc))) (bc_chain bc) |>.

Definition stamp_state_root (computed : bytes) : st Blockchain unit :=
  bc ← gets (λ bc, bc) ;
  match last (bc_chain bc) with
  | None => mret tt
  | Some blk =>
      if blk_index blk <? STATE_ROOT_FORK_HEIGHT then
        modify (set_last (λ b, b <| blk_state_root := Some computed |>))
      else match blk_state_root blk with
      | None =>
          fail_if (bool_decide (bc_source_for_current_add bc = Peer))
            (ChainValidationFailed ("peer block " +:+ pretty (blk_index blk)
               +:+ " has state_root=None past fork height (#1e)")) ;;
          fail_if (is_speculative_apply_height (cfg_forks cfg) (blk_index blk))
            (ChainValidationFailed ("self-produced block " +:+ pretty (blk_index blk)
               +:+ " has state_root=None past SPECULATIVE_APPLY_HEIGHT (SIP-5)")) ;;
          modify (set_last (λ b, let b := b <| blk_state_root := Some computed |> in
                                 b <| blk_hash := calculate_hash b |>))
      | Some received =>
          if bool_decide (received = computed)
             || ((0 <? cfg_legacy_cutoff cfg) && (blk_index blk <? cfg_legacy_cutoff cfg))
             || (bool_decide (bc_source_for_current_add bc = Peer) && bc_justification_verified bc)
          then mret tt
          else throw (ChainValidationFailed ("state_root mismatch at block "
                 +:+ pretty (blk_index blk) +:+ ": received " +:+ hex_encode received
                 +:+ ", computed " +:+ hex_encode computed))
      end
  end.

(** [update_trie_for_block] with the caller's error message. *)
Definition run_trie : st Blockchain (option bytes) := λ bc,
  let '(db, trie, r) := update_trie bc in
  (bc <| bc_accounts := db |> <| bc_state_trie := trie |>,
   match r with
   | Ok root => Ok root
   | Err e => Err (Internal ("trie update failed at block " +:+ pretty (bc_height bc)
                    +:+ ": " +:+ error_text e))
   end).

(** Up to the validator's statistics: the transactions and their fees. *)
Definition execute_block (block : Block) : st Blockchain unit :=
  modify (λ bc, bc <| bc_accounts := clear_touched_in_block (bc_accounts bc) |>) ;;
  cb ← ok_or (coinbase block) (InvalidBlock "missing coinbase") ;
  apply_coinbase block (tx_amount cb) ;;
  total_fee ← apply_txs block (tail (blk_transactions block)) 0 ;
  pay_fee_share block total_fee ;;
  modify (λ bc, bc <| bc_authority :=
    record_block_produced (blk_validator block) (blk_timestamp block) (bc_authority bc) |>).

(** From there on: mempool, window, bookkeeping and state root. *)
Definition finish_block (block : Block) : st Blockchain unit :=
  modify (λ bc, bookkeeping (append_block block (settle_mempool block bc))) ;;
  root ← run_trie ;
  match root with
  | Some computed => stamp_state_root computed
  | None => mret tt
  end.

Definition apply_block_pass2 (block : Block) : st Blockchain unit :=
  execute_block block ;; finish_block block.

(** ** Committing a block *)

(** The restoration of the snapshot [snap] after a failed Pass 2. *)
Definition rollback (snap : Blockchain) bc : Blockchain :=
  let bc := rebuild_mempool_sidecars
    (bc <| bc_accounts := bc_accounts snap |> <| bc_contracts := bc_contracts snap |>
        <| bc_nft_registry := bc_nft_registry snap |> <| bc_authority := bc_authority snap |>
        <| bc_mempool := bc_mempool snap |>) in
  bc <| bc_total_minted := bc_total_minted snap |>
     <| bc_chain := take (length (bc_chain snap)) (bc_chain bc) |>
     <| bc_stake_registry := bc_stake_registry snap |>
     <| bc_epoch_manager := bc_epoch_manager snap |>
     <| bc_slashing := bc_slashing snap |>
     <| bc_state_trie := match bc_state_trie bc, bc_state_trie snap with
                         | Some t, Some t0 => Some (trie_set_root (trie_root_hash t0) t)
                         | t, _ => t
                         end |>.

Definition commit (block : Block) : st Blockchain unit := λ snap,
  match apply_block_pass2 block snap with
  | (bc, Ok x) => (bc, Ok x)
  | (bc, Err e) => (rollback snap bc, Err e)
  end.

Definition add_block_impl (block : Block) : st Blockchain unit := pass1 block ;; commit block.

Definition add_block_with_source (block : Block) (source : BlockSource) : st Blockchain unit := λ bc,
  let '(bc, r) := add_block_impl block (bc <| bc_source_for_current_add := source |>) in
  (bc <| bc_source_for_current_add := SelfProduced |>, r).
Definition add_block (block : Block) := add_block_with_source block SelfProduced.
Definition add_block_from_peer (block : Block) := add_block_with_source block Peer.

Definition speculative_apply_for_state_root bc (block : Block) : result bytes :=
  let '(probe, r) := add_block block bc in
  match r with
  | Err e => Err e
  | Ok _ =>
      match latest_block probe with
      | Err e => Err e
      | Ok b => match blk_state_root b with
                | Some root => Ok root
                | None => Err (Internal "speculative apply produced no state_root")
                end
      end
  end.
End executor.
