(* ===== verification/ChainTrie.v ===== *)
(** * The state trie of the chain

    Models crates/sentrix-core/src/blockchain_trie_ops.rs: what each block
    writes to the trie, and the start of a node on a stored trie.  Here the
    types and operations the executor takes as parameters are the trie and the
    NFT registry of this development. *)

From S2P Require Import Prelude Bytes Account Token Trie TrieTree TrieRefine TrieTheorems TrieGc.
From S2P Require Import Transaction Authority TrieState Nft Emission Staking Epoch Slashing.
From S2P Require Import BftMessages Block Chain Executor.

#[global] Instance chain_types : ChainTypes := {|
  Chain.NftRegistry := Nft.NftRegistry;
  Chain.SentrixTrie := Trie.SentrixTrie;
|}.

(** What the environment sets: fork heights of the trie's contents, the two
    treasury overrides, and the opt-out of the integrity check. *)
Record TrieConfig := mkTrieConfig {
  tc_state_root_v2 : Z;
  tc_state_root_v2_balance : option Z;
  tc_treasury_rebase : Z;
  tc_treasury_rebase_balance : option Z;
  tc_extended_touch_list : Z;
  tc_state_in_trie : Z;
  tc_native_state_in_trie : Z;
  tc_canonical_delete : Z;
  tc_skip_integrity : bool;
}.

Section chain_trie.
Context `{Sha256, Blake3, Hex, HexDecode, HashOrder}.
Context (tc : TrieConfig).
Implicit Types bc : Blockchain.

Definition is_extended_touch_list_height := fork_active (tc_extended_touch_list tc).
Definition is_state_in_trie_height := fork_active (tc_state_in_trie tc).
Definition is_native_state_in_trie_height := fork_active (tc_native_state_in_trie tc).
Definition is_canonical_delete_height := fork_active (tc_canonical_delete tc).

(** ** The treasury overrides *)

Definition rebase_at (height : Z) (balance : option Z) (index : option Z) (db : AccountDB) : AccountDB :=
  if bool_decide (index = Some height) then
    match balance with Some canonical => set_balance PROTOCOL_TREASURY canonical db | None => db end
  else db.
Definition rebase_treasury (index : option Z) (db : AccountDB) : AccountDB :=
  rebase_at (tc_treasury_rebase tc) (tc_treasury_rebase_balance tc) index
    (rebase_at (tc_state_root_v2 tc) (tc_state_root_v2_balance tc) index db).

(** ** What a block touches *)

Definition tx_touched (tx : Transaction) : list string :=
  (if is_valid_sentrix_address (tx_from tx) then [tx_from tx] else []) ++
  (if is_valid_sentrix_address (tx_to tx) && negb (bool_decide (tx_to tx = TOKEN_OP_ADDRESS))
   then [tx_to tx] else []).
Definition block_touched (block : Block) : list string :=
  concat (tx_touched <$> blk_transactions block) ++
  (if is_valid_sentrix_address (blk_validator block) then [blk_validator block] else []) ++
  (if tc_state_root_v2 tc <=? blk_index block then [PROTOCOL_TREASURY] else []).
(** The accounts after the touch set was drained, and the addresses in order. *)
Definition touched_addrs (block : Block) (db : AccountDB) : AccountDB * list string :=
  let legacy := block_touched block in
  let '(db, extra) := if is_extended_touch_list_height (blk_index block) then drain_touched_in_block db
                      else (db, ∅) in
  (db, sort_strings (elements (list_to_set legacy ∪ extra : gset string))).

(** ** What a block writes *)

Definition account_op (db : AccountDB) (a : string) : TrieOp :=
  let key := address_to_key a in
  if get_balance db a =? 0 then ODelete key
  else OInsert key (account_value_bytes (get_balance db a) (get_nonce db a)).
Definition rewards_op (e : string * ValidatorStake) : TrieOp :=
  let key := validator_pending_rewards_key e.1 in
  if v_pending_rewards e.2 =? 0 then ODelete key
  else OInsert key (pending_rewards_value_bytes (v_pending_rewards e.2)).
Definition liveness_op (s : SlashingEngine) (e : string * ValidatorStake) : TrieOp :=
  let '(signed, missed) := get_stats (liveness s) e.1 in
  OInsert (validator_liveness_key e.1)
    (liveness_value_bytes signed missed (v_jail_until e.2) (v_is_jailed e.2)).
Definition epoch_op (e : EpochInfo) : TrieOp :=
  OInsert epoch_state_key
    (epoch_state_value_bytes (epoch_number e) (start_height e) (end_height e) (total_staked e)
       (ep_total_rewards e) (total_blocks_produced e) (validator_set e)).
(** SIP-6: the consensus state outside the accounts. *)
Definition consensus_ops bc : list TrieOp :=
  let vals := sort_by_key String.le (hm_entries (validators (bc_stake_registry bc))) in
  (rewards_op <$> vals) ++ (liveness_op (bc_slashing bc) <$> vals) ++
  [OInsert total_minted_key (total_minted_value_bytes (bc_total_minted bc));
   epoch_op (current_epoch (bc_epoch_manager bc))].
Definition native_ops bc : list TrieOp :=
  [OInsert native_src20_registry_key (registry_hash (bc_contracts bc));
   OInsert native_nft_registry_key (nft_registry_hash (bc_nft_registry bc))].

(** Phase 2, up to the commit. *)
Definition block_ops bc (index : Z) (db : AccountDB) (addrs : list string) : list TrieOp :=
  (account_op db <$> addrs) ++
  (if is_state_in_trie_height index then consensus_ops bc else []) ++
  (if is_native_state_in_trie_height index then native_ops bc else []).

Definition update_trie_for_block bc
    : AccountDB * option Trie.SentrixTrie * result (option bytes) :=
  let index := blk_index <$> last (bc_chain bc) in
  let db := rebase_treasury index (bc_accounts bc) in
  match bc_state_trie bc with
  | None =>
      let next_height := saturating_add U64_MAX (bc_height bc) 1 in
      (db, None,
       if STATE_ROOT_FORK_HEIGHT <=? next_height
       then Err (Internal ("trie unavailable but next block height " +:+ pretty next_height
                   +:+ " requires state_root (>= STATE_ROOT_FORK_HEIGHT)."))
       else Ok None)
  | Some trie =>
      match last (bc_chain bc) with
      | None => (db, Some trie, Ok None)
      | Some block =>
          let '(db, addrs) := touched_addrs block db in
          let trie := set_canonical_delete (is_canonical_delete_height (blk_index block)) trie in
          let '(trie, r) := run_ops (block_ops bc (blk_index block) db addrs ++ [OCommit (blk_index block)]) trie in
          (db, Some trie, match r with Ok root => Ok (Some root) | Err e => Err e end)
      end
  end.

Definition trie_root_at bc (version : Z) : option bytes := bc_state_trie bc ≫= λ t, root_at_version t version.

(** ** Starting on a stored trie *)

(** The accounts written by the backfill, in address order. *)
Definition backfill_ops (db : AccountDB) : list TrieOp :=
  (λ e : string * (Z * Z), OInsert (address_to_key e.1) (account_value_bytes e.2.1 e.2.2)) <$>
  sort_by_key String.le ((λ a, (acct_address a, (acct_balance a, acct_nonce a))) <$>
    filter (λ a, 0 < acct_balance a) (hm_values (accounts db))).

Definition corrupt_root (root : bytes) (height : Z) : SentrixError :=
  Internal ("trie: committed root " +:+ hex_encode root +:+ " for height " +:+ pretty height
    +:+ " is recorded but its node is missing").
Definition backfill_mismatch (height : Z) (got stored : bytes) : SentrixError :=
  Internal ("trie backfill at height " +:+ pretty height +:+ " produced root " +:+ hex_encode got
    +:+ " but the block header at that height records state_root " +:+ hex_encode stored).

(** Whether the accounts must be written again, and the trie to write them to. *)
Definition needs_backfill (height : Z) (trie : Trie.SentrixTrie) : result (Trie.SentrixTrie * bool) :=
  if 0 <? height then
    match root_at_version trie height with
    | None => Ok (trie, true)
    | Some root =>
        if negb (bool_decide (root = empty_hash 0)) && negb (node_exists trie root) then
          if STATE_ROOT_FORK_HEIGHT <=? height then Err (corrupt_root root height)
          else Ok (reset_to_empty trie, true)
        else Ok (trie, false)
    end
  else Ok (trie, false).

(** The backfill and the comparison with the block header. *)
Definition backfill bc (height : Z) (trie : Trie.SentrixTrie) : Trie.SentrixTrie * result unit :=
  match backfill_ops (bc_accounts bc) with
  | [] => (trie, Ok tt)
  | ops =>
      match run_ops (ops ++ [OCommit height]) trie with
      | (trie, Err e) => (trie, Err e)
      | (trie, Ok root) =>
          (trie, match last (bc_chain bc) with
                 | Some b =>
                     match blk_state_root b with
                     | Some stored =>
                         if (blk_index b =? height) && negb (bool_decide (root = stored))
                         then Err (backfill_mismatch height root stored) else Ok tt
                     | None => Ok tt
                     end
                 | None => Ok tt
                 end)
      end
  end.

(** [init_trie]: the chain, and the storage as it is left; [None] when the
    integrity walk does not end within [fuel]. *)
Definition init_trie (fuel : nat) (storage : TrieStorage) bc : option (Blockchain * TrieStorage * result unit) :=
  let height := bc_height bc in
  match needs_backfill height (trie_open storage height) with
  | Err e => Some (bc, ensure_committed_roots_index storage, Err e)
  | Ok (trie, needed) =>
      let '(trie, r) := if needed : bool then backfill bc height trie else (trie, Ok tt) in
      match r with
      | Err e => Some (bc, tr_storage trie, Err e)
      | Ok _ =>
          let accept := Some (bc <| bc_state_trie := Some trie |>, tr_storage trie, Ok tt) in
          if tc_skip_integrity tc then accept
          else
            match verify_integrity fuel trie with
            | None => None
            | Some (Ok _) => accept
            | Some (Err e) =>
                if STATE_ROOT_FORK_HEIGHT <=? height
                then Some (bc, tr_storage trie, Err (Internal ("trie integrity check failed at height "
                       +:+ pretty height +:+ ": " +:+ error_text e)))
                else accept
            end
      end
  end.

(** ** The background prune *)

Definition TRIE_PRUNE_EVERY : Z := 5000.
Definition TRIE_KEEP_VERSIONS : Z := 1000.
(** Whether a prune runs afterwards, and the clone it runs [prune] on; the flag
    [running] is the process-wide guard and [spawned] whether the thread started. *)
Definition maybe_prune_trie (enabled running spawned : bool) bc : bool * option Trie.SentrixTrie :=
  if negb enabled then (running, None)
  else if (bc_height bc =? 0) || negb (bc_height bc mod TRIE_PRUNE_EVERY =? 0) then (running, None)
  else if running then (running, None)
  else
    match bc_state_trie bc with
    | None => (false, None)
    | Some trie => if spawned then (true, Some (trie_clone trie)) else (false, None)
    end.

(** ** The executor's parameters *)

Context (evm : Transaction → Z → string → Z → Blockchain → AccountDB * result unit).
Definition chain_ops : ChainOps := {|
  apply_nft_token_op op sender seed := λ r,
    match apply_nft_op op sender seed r with (r, Ok _) => (r, Ok tt) | (r, Err e) => (r, Err e) end;
  execute_evm_tx := evm;
  update_trie := update_trie_for_block;
  trie_root_hash := tr_root;
  trie_set_root := set_root;
|}.
End chain_trie.
