(* ===== verification/ChainTrieProps.v ===== *)
(** * The state trie of the chain: what a state root says

    The root a block records is the root of the map its writes build; nodes
    whose accounts differ at a touched address get different roots; a node that
    restarts on a committed height reads the same state.  And one defect: the
    key of an account ignores the case of its address, the account table does
    not.  Instances close the file. *)

From S2P Require Import Prelude Bytes Account Token Trie TrieTree TrieRefine TrieTheorems TrieGc Transaction Authority.
From S2P Require Import TrieState Nft Emission Staking Epoch Slashing BftMessages Block Chain Executor ChainTrie.
From S2P Require Import TrieGenerational TrieExamples.

Definition op_key (o : TrieOp) : option bytes :=
  match o with OInsert k _ | ODelete k => Some k | OCommit _ => None end.
(** What an operation leaves at its key. *)
Definition op_value (o : TrieOp) : option bytes := match o with OInsert _ v => Some v | _ => None end.

Lemma map_run_other ops m k : (∀ o, o ∈ ops → op_key o ≠ Some k) → map_run ops m !! k = m !! k.
Proof.
  revert m. induction ops as [|o ops IH]; intros m Ho; [done|]. simpl. rewrite IH by set_solver.
  specialize (Ho o ltac:(set_solver)). destruct o as [k' v|k'|n]; simpl in *; [|by rewrite lookup_delete_ne by congruence|done].
  by rewrite lookup_insert_ne by congruence.
Qed.
(** When no key is written twice, each key holds what its operation wrote. *)
Lemma map_run_at ops m o k :
  NoDup (op_key <$> ops) → o ∈ ops → op_key o = Some k → map_run ops m !! k = op_value o.
Proof.
  revert m. induction ops as [|o' ops IH]; intros m Hn Ho Hk; [by apply elem_of_nil in Ho|].
  simpl in Hn. apply NoDup_cons in Hn as [Hnot Hn]. simpl. apply elem_of_cons in Ho as [<-|Ho]; [|by apply IH].
  rewrite map_run_other.
  - destruct o as [k' v|k'|n]; simpl in *; simplify_eq; [by rewrite lookup_insert_eq|by rewrite lookup_delete_eq].
  - intros o' Ho' E. apply Hnot. apply list_elem_of_fmap. exists o'. split; [congruence|done].
Qed.

(** What the trie records of an account. *)
Definition committed_account (db : AccountDB) (a : string) : option (Z * Z) :=
  if get_balance db a =? 0 then None else Some (get_balance db a, get_nonce db a).
Definition account_in_range (db : AccountDB) (a : string) : Prop :=
  u64 (get_balance db a) ∧ u64 (get_nonce db a).

Lemma account_value_inj x y x' y' :
  u64 x → u64 y → u64 x' → u64 y' → account_value_bytes x y = account_value_bytes x' y' → x = x' ∧ y = y'.
Proof.
  unfold account_value_bytes. intros Hx Hy Hx' Hy' E.
  pose proof (f_equal (word_at 0) E) as E0. rewrite !be8_word in E0 by done.
  pose proof (f_equal (word_at 1) E) as E1. rewrite !word_at_skip in E1.
  rewrite (be8_nil y), (be8_nil y'), !be8_word in E1 by done. done.
Qed.

Section props.
Context `{Sha256, Blake3, Hex, HexDecode, HashOrder}.
Context (tc : TrieConfig).
Implicit Types (bc : Blockchain) (T : Trie.SentrixTrie) (t : tree).
#[local] Opaque empty_table.

Section universe.
Context (U : list Pre) (Hcf : pre_collision_free U) (Hemp : empty_pres ⊆ U).

(** The trie [T] stands at the tree [t]. *)
Definition stands T t : Prop := models U T t ∧ coherent U T ∧ wf 0 t.

Lemma stands_mode T t b : stands T t → stands (set_canonical_delete b T) t.
Proof.
  intros ([(? & ? & ? & Hh) ?] & Hc & ?). split_and!; try done.
Qed.

(** The operations a block performs, and where they lead. *)
Definition ops_of bc (block : Block) : list TrieOp :=
  let '(db, addrs) := touched_addrs tc block (rebase_treasury tc (Some (blk_index block)) (bc_accounts bc)) in
  block_ops tc bc (blk_index block) db addrs.
Definition mode_of (block : Block) : bool := is_canonical_delete_height tc (blk_index block).


(** A block [block] about to be committed on a trie that reads as the map [m]:
    its keys are well-formed and [U] covers what will be hashed. *)
Record block_ready bc (block : Block) T t (m : gmap bytes bytes) : Prop := {
  br_last : last (bc_chain bc) = Some block;
  br_trie : bc_state_trie bc = Some T;
  br_stands : stands T t;
  br_map : represents t m;
  br_ops : Forall op_ok (ops_of bc block);
  br_hashed : hashed (mode_of block) (ops_of bc block ++ [OCommit (blk_index block)]) t ⊆ U;
}.

Lemma update_runs bc block T t m :
  block_ready bc block T t m →
  let t' := tree_run (mode_of block) (ops_of bc block) t in
  ∃ db T', update_trie_for_block tc bc = (db, Some T', Ok (Some (tree_hash 0 t'))) ∧ stands T' t' ∧
    represents t' (map_run (ops_of bc block) m) ∧ ∃ T1, T' = (commit_trie (blk_index block) T1).1.
Proof.
  intros [Hlast HT Hst Hrep Hops HU] t'.
  destruct (tree_run_spec (mode_of block) _ t m Hops (proj2 (proj2 Hst)) Hrep) as [_ Hrep'].
  unfold update_trie_for_block. rewrite HT, Hlast. simpl.
  unfold ops_of in *. destruct (touched_addrs tc block _) as [db addrs].
  pose proof (stands_mode T t (mode_of block) Hst) as (Hm & Hco & Hwf).
  set (ops := block_ops tc bc (blk_index block) db addrs) in *.
  assert (Hops' : Forall op_ok (ops ++ [OCommit (blk_index block)])) by (apply Forall_app; by rewrite Forall_singleton).
  destruct (run_models U Hcf Hemp _ _ t (mode_of block) Hops' Hm Hco eq_refl HU) as (T' & E & Hm' & Hf).
  fold (mode_of block). rewrite E.
  assert (Et : tree_run (mode_of block) (ops ++ [OCommit (blk_index block)]) t = t')
    by (unfold tree_run, t'; by rewrite foldl_app).
  rewrite Et in *. exists db, T'. split; [done|]. split; [split_and!; [done| |]|split; [done|]].
  - destruct Hf as [Hf|Hf]; [by apply (follows_coherent _ _ _ Hf)|by destruct ops].
  - apply Hm'.
  - destruct Hm' as [_ Hr]. rewrite <- Hr in E. by eapply run_ops_commit.
Qed.

(** Everything a committed block's trie reads is in its storage. *)
Lemma committed_on_disk version T1 t :
  let T := (commit_trie version T1).1 in
  stands T t → tree_on U (tr_storage T) (tree_hash 0 t) t ∧
    ts_roots (tr_storage T) !! version = Some (tree_hash 0 t).
Proof.
  intros T ([(Hwf & _ & HU & Hh) Hroot] & _). split.
  - by split_and!.
  - simpl. rewrite lookup_insert_eq. by rewrite <- Hroot.
Qed.

Lemma root_node_exists st t : tree_on U st (tree_hash 0 t) t → t ≠ TEmpty → is_Some (ts_nodes st !! tree_hash 0 t).
Proof.
  intros (_ & _ & _ & Hh) Hne. destruct t as [|k v|l r]; [done|..].
  - destruct (has_get st _ (Hh _ (list_elem_of_here _ _))) as [Hn _]. by eexists.
  - pose proof (has_get st _ (Hh _ (list_elem_of_here _ _))) as Hn. eexists; exact Hn.
Qed.

(** The start on a storage that holds the tree of its last height. *)
Lemma init_on_disk bc st height t :
  bc_height bc = height → ts_roots st !! height = Some (tree_hash 0 t) → tree_on U st (tree_hash 0 t) t →
  init_trie tc 257 st bc = Some (bc <| bc_state_trie := Some (trie_open st height) |>, ensure_committed_roots_index st, Ok tt).
Proof.
  intros Hh Hroot Hon. unfold init_trie. rewrite Hh.
  assert (Hnb : needs_backfill height (trie_open st height) = Ok (trie_open st height, false)).
  { unfold needs_backfill, root_at_version, node_exists.
    change (ts_roots (tr_storage (trie_open st height))) with (ts_roots st). rewrite Hroot.
    change (ts_nodes (tr_storage (trie_open st height))) with (ts_nodes st).
    destruct (0 <? height); [|done]. case_bool_decide as He; [done|].
    rewrite bool_decide_eq_true_2; [done|]. apply root_node_exists; [done|]. by intros ->. }
  rewrite Hnb. cbn [tr_storage]. destruct (tc_skip_integrity tc); [done|].
  assert (Hv : verify_integrity 257 (trie_open st height) = Some (Ok tt)).
  { destruct Hon as (Hwf & HU & _ & Hhold).
    assert (Hhold' : holds (disk (ensure_committed_roots_index st)) 0 t)
      by (intros p Hp; specialize (Hhold p Hp); by destruct p).
    destruct (walk_verify_tree U Hcf Hemp _ 0 t Hwf ltac:(lia) HU Hhold') as [Ew _].
    unfold verify_integrity. cbn [trie_open tr_storage tr_root]. rewrite Hroot. cbn [default].
    change 257%nat with (257 - 0)%nat. case_bool_decide; [done|exact Ew]. }
  by rewrite Hv.
Qed.

(** The accounts after the trie's update. *)
Lemma update_accounts bc block T :
  last (bc_chain bc) = Some block → bc_state_trie bc = Some T →
  (update_trie_for_block tc bc).1.1 =
    (touched_addrs tc block (rebase_treasury tc (Some (blk_index block)) (bc_accounts bc))).1.
Proof.
  intros Hlast HT. unfold update_trie_for_block. rewrite HT, Hlast. simpl.
  destruct (touched_addrs tc block _) as [db addrs]. by destruct (run_ops _ _).
Qed.

(** What a block leaves at an address it touches. *)
Definition touches bc (block : Block) (a : string) : Prop :=
  a ∈ (touched_addrs tc block (rebase_treasury tc (Some (blk_index block)) (bc_accounts bc))).2.

Lemma block_writes_account bc block T a :
  last (bc_chain bc) = Some block → bc_state_trie bc = Some T → NoDup (op_key <$> ops_of bc block) →
  touches bc block a →
  ∀ m, map_run (ops_of bc block) m !! address_to_key a = op_value (account_op (update_trie_for_block tc bc).1.1 a).
Proof.
  intros Hlast HT Hnd Ha m. unfold update_trie_for_block. rewrite HT, Hlast. simpl.
  unfold touches, ops_of in *. destruct (touched_addrs tc block _) as [db addrs]. simpl in Ha.
  destruct (run_ops _ _) as [T' r]. simpl. rewrite (map_run_at _ m (account_op db a) (address_to_key a)); [done|done| |].
  - apply elem_of_app. left. by apply list_elem_of_fmap_2.
  - unfold account_op. by destruct (_ =? 0).
Qed.
End universe.

(** The state root of a block is the root of a trie that reads as the previous
    map with the block's writes, and is committed under the block's height. *)
Theorem block_root_commits U bc block T t m :
  pre_collision_free U → empty_pres ⊆ U → block_ready U bc block T t m →
  ∃ db T' root, update_trie_for_block tc bc = (db, Some T', Ok (Some root)) ∧ tr_root T' = root ∧
    root_at_version T' (blk_index block) = Some root ∧
    ∀ k, get T' k = Ok (map_run (ops_of bc block) m !! k).
Proof.
  intros Hcf Hemp Hbr. destruct (update_runs U Hcf Hemp _ _ _ _ _ Hbr) as (db & T' & E & Hst & Hrep & T1 & ET).
  exists db, T', (tree_hash 0 (tree_run (mode_of block) (ops_of bc block) t)). split_and!; [done|apply Hst|..].
  - subst T'. by apply (committed_on_disk U).
  - intros k. rewrite <- Hrep. apply (get_models U); [done..|apply Hst].
Qed.

(** C4: two nodes that end a block with the same state root agree on the balance of
    every account both of them touched in it, and on its nonce unless the balance is
    zero, which removes the account from the trie.  The hash functions are assumed
    collision free on what the two tries hash, and no two writes of the block to have
    the same key. *)
Theorem equal_block_roots_agree U bc1 bc2 block T1 T2 t1 t2 m1 m2 a :
  pre_collision_free U → empty_pres ⊆ U →
  block_ready U bc1 block T1 t1 m1 → block_ready U bc2 block T2 t2 m2 →
  NoDup (op_key <$> ops_of bc1 block) → NoDup (op_key <$> ops_of bc2 block) →
  touches bc1 block a → touches bc2 block a →
  let db1 := (update_trie_for_block tc bc1).1.1 in
  let db2 := (update_trie_for_block tc bc2).1.1 in
  account_in_range db1 a → account_in_range db2 a →
  (update_trie_for_block tc bc1).2 = (update_trie_for_block tc bc2).2 →
  get_balance db1 a = get_balance db2 a ∧
  (get_balance db1 a ≠ 0 → get_nonce db1 a = get_nonce db2 a).
Proof.
  intros Hcf Hemp B1 B2 N1 N2 A1 A2 db1 db2 I1 I2 Heq.
  destruct (update_runs U Hcf Hemp _ _ _ _ _ B1) as (d1 & T1' & E1 & S1 & R1 & _).
  destruct (update_runs U Hcf Hemp _ _ _ _ _ B2) as (d2 & T2' & E2 & S2 & R2 & _).
  rewrite E1, E2 in Heq. injection Heq as Heq.
  destruct S1 as ([(_ & _ & V1 & _) _] & _ & W1), S2 as ([(_ & _ & V2 & _) _] & _ & W2).
  apply (tree_hash_inj U Hcf Hemp) in Heq; try done; [|lia].
  pose proof (R1 (address_to_key a)) as G1. pose proof (R2 (address_to_key a)) as G2.
  rewrite (block_writes_account bc1 block T1) in G1 by apply B1 || done.
  rewrite (block_writes_account bc2 block T2) in G2 by apply B2 || done.
  rewrite Heq, G2 in G1. fold db1 db2 in G1. clear -G1 I1 I2. destruct I1, I2.
  unfold account_op in *.
  destruct (Z.eqb_spec (get_balance db1 a) 0), (Z.eqb_spec (get_balance db2 a) 0); cbn [op_value] in G1; try done.
  - split; [congruence|done].
  - apply (inj Some), account_value_inj in G1 as [-> ->]; done.
Qed.

(** C24: a node that restarts on the height of its last block opens the trie it
    committed, without rewriting the accounts: the integrity check passes, and
    every key reads as it did when the block was committed. *)
Theorem restart_resumes U bc block T t m :
  pre_collision_free U → empty_pres ⊆ U → block_ready U bc block T t m →
  ∃ db T' T2, update_trie_for_block tc bc = (db, Some T', Ok (Some (tr_root T'))) ∧
    init_trie tc 257 (tr_storage T') bc = Some (bc <| bc_state_trie := Some T2 |>, tr_storage T2, Ok tt) ∧
    tr_root T2 = tr_root T' ∧ ∀ k, get T2 k = Ok (map_run (ops_of bc block) m !! k).
Proof.
  intros Hcf Hemp Hbr. destruct (update_runs U Hcf Hemp _ _ _ _ _ Hbr) as (db & T' & E & Hst & Hrep & T1 & ET).
  set (t' := tree_run _ _ t) in *.
  assert (Hd : tree_on U (tr_storage T') (tree_hash 0 t') t' ∧
    ts_roots (tr_storage T') !! blk_index block = Some (tree_hash 0 t')).
  { subst T'. by apply committed_on_disk. }
  destruct Hd as [Hon Hroot]. destruct Hst as ([_ Hr] & _).
  pose proof (open_models U _ _ _ t' Hroot Hon) as Hm.
  exists db, T', (trie_open (tr_storage T') (blk_index block)). rewrite Hr. split; [done|].
  split; [|split; [by destruct Hm as [_ ->]|intros k; rewrite <- Hrep; by apply (get_models U)]].
  apply (init_on_disk U Hcf Hemp _ _ _ t'); try done. unfold bc_height. by rewrite (br_last _ _ _ _ _ _ Hbr).
Qed.

(** The trie's key of an account forgets the case of its address. *)
Lemma address_key_case a b :
  is_valid_sentrix_address a = true → is_valid_sentrix_address b = true →
  to_lowercase a = to_lowercase b → address_to_key a = address_to_key b.
Proof.
  intros Ha Hb E. apply valid_address_shape in Ha as (ra & -> & _ & Ha), Hb as (rb & -> & _ & Hb).
  simpl in E. injection E as E. unfold address_to_key, addr_raw, addr_text. simpl.
  by rewrite !trim_hex, E.
Qed.

(** One entry for two accounts: a block that touches an alias [b] of [a], an
    address that differs from it in case only, makes the trie answer for [a]
    with the alias's account, though the account table keeps the two apart. *)
Theorem alias_overwrites_account U bc block T t m a b :
  pre_collision_free U → empty_pres ⊆ U → block_ready U bc block T t m →
  NoDup (op_key <$> ops_of bc block) → touches bc block b →
  is_valid_sentrix_address a = true → is_valid_sentrix_address b = true → to_lowercase a = to_lowercase b →
  ∃ db T' root, update_trie_for_block tc bc = (db, Some T', Ok (Some root)) ∧
    get T' (address_to_key a) = Ok ((λ '(x, y), account_value_bytes x y) <$> committed_account db b).
Proof.
  intros Hcf Hemp Hbr Hnd Hb Va Vb Hab.
  destruct (update_runs U Hcf Hemp _ _ _ _ _ Hbr) as (db & T' & E & (Hm & _) & Hrep & _).
  eexists db, T', _. split; [exact E|]. rewrite (address_key_case a b) by done.
  rewrite (get_models U Hcf Hemp _ _ _ Hm), Hrep.
  rewrite (block_writes_account bc block T) by apply Hbr || done. rewrite E.
  unfold account_op, committed_account. simpl. by destruct (_ =? 0).
Qed.
End props.

(** * The chain's trie at concrete inputs

    The collector's and the chain's theorems on small tries, with the idealised
    hash of the trie's examples. *)

Section chain_trie_examples.
#[local] Existing Instances ideal_sha ideal_blake toy_hex toy_hex_decode canonical_order.
#[local] Opaque empty_table.

(** ** The collector *)

Definition key_a_run : list TrieOp := [OInsert key_a [7]; OCommit 1; OInsert key_b [8]].
Lemma key_a_run_ok : Forall op_ok key_a_run.
Proof. unfold key_a_run. rewrite !Forall_cons. split_and!; [apply key_a_ok|done|apply key_b_ok|constructor]. Qed.
Lemma key_a_run_free n : pre_collision_free (universe true (key_a_run ++ [OCommit n])).
Proof. apply ideal_one, Forall_app. split; [apply key_a_run_ok|by rewrite Forall_singleton]. Qed.

Lemma prune_offline_keeps_window_witness :
  ∃ T T' counts, run_ops (key_a_run ++ [OCommit 2]) (empty_trie true) = (T, Ok (tr_root T)) ∧
    prune_offline 1 T = Some (T', counts) ∧ get T' key_a = Ok (Some [7]) ∧ get T' key_b = Ok (Some [8]).
Proof.
  destruct (prune_offline_keeps_window true key_a_run 2 1) as (T & T' & counts & E & Ep & Hg & _);
    [lia|lia|apply key_a_run_ok|apply key_a_run_free|].
  exists T, T', counts. split_and!; [done|done|..]; rewrite Hg; by vm_compute.
Defined.

Lemma committed_state_passes_integrity_witness :
  ∃ T, run_ops (key_a_run ++ [OCommit 2]) (empty_trie true) = (T, Ok (tr_root T)) ∧
    verify_integrity 257 T = Some (Ok tt) ∧ verify_integrity_strict 257 T = Some (Ok tt).
Proof. exact (committed_state_passes_integrity true key_a_run 2 key_a_run_ok (key_a_run_free 2)). Defined.

(** A store with one leaf, recorded under versions 1 and 5, opened at 5. *)
Definition leaf_store : TrieStorage :=
  mkTrieStorage {[ [1] := LeafNode key_a [1] ]} {[ [1] := [7] ]} {[ 1 := [1]; 5 := [1] ]} ∅ ∅ true.
Definition leaf_trie : SentrixTrie := mkTrie ∅ ∅ leaf_store [1] 5 false.
(** A block committed between the passes. *)
Definition late_batch : Batch := mkBatch {[ [2] := LeafNode key_b [2] ]} {[ [2] := [8] ]} 6 [2].

(** These two say nothing of the hash: a constant one is enough. *)
Definition flat_sha : Sha256 := {| sha256_hex _ := ""; sha256_bytes _ := [9] |}.

Lemma integrity_check_sound_witness : ∃ o, get (H := flat_sha) leaf_trie key_b = Ok o.
Proof.
  apply (integrity_check_sound (H := flat_sha) 257 leaf_trie key_b); [reflexivity|vm_compute; reflexivity].
Defined.

(** The prune drops version 1 and tombs nothing that is live; the node and the
    value committed meanwhile stay. *)
Lemma prune_spares_untombed_witness :
  ∃ T' counts, prune (H := flat_sha) 2 [] [late_batch] [] leaf_trie = Some (T', counts) ∧
    is_Some (ts_nodes (tr_storage T') !! [2]) ∧ is_Some (ts_values (tr_storage T') !! [2]) ∧
    is_Some (ts_nodes (tr_storage T') !! [1]).
Proof.
  destruct (prune (H := flat_sha) 2 [] [late_batch] [] leaf_trie) as [[T' counts]|] eqn:E;
    [|vm_compute in E; discriminate E].
  assert (Hc : counts.1 ≠ O) by (vm_compute in E; injection E as _ <-; discriminate).
  destruct (prune_spares_untombed (H := flat_sha) 2 [] [late_batch] [] leaf_trie T' counts [2] E Hc) as [Hn Hv].
  destruct (prune_spares_untombed (H := flat_sha) 2 [] [late_batch] [] leaf_trie T' counts [1] E Hc) as [Hn1 _].
  exists T', counts. split; [done|]. split; [|split].
  - apply Hn; [reflexivity|]. right. exists late_batch. split; [apply list_elem_of_here|by eexists].
  - apply Hv; [reflexivity|]. right. exists late_batch. split; [apply list_elem_of_here|by eexists].
  - apply Hn1; [reflexivity|]. left. by eexists.
Defined.

(** ** The chain *)

Definition pal : string := "0x00000000000000000000000000000000000000ab".
Definition PAL : string := "0x00000000000000000000000000000000000000AB".
Definition funded (x y : Z) : AccountDB :=
  AccountDB_new <| accounts := {[ pal := Account_new pal <| acct_balance := x |>;
                                  PAL := Account_new PAL <| acct_balance := y |> ]} |>.
Definition trie_block (v : string) : Block := mkBlock 1 "" [] 0 "" v "" None 0 None.
(** The chain before its trie is attached. *)
Definition bare_chain (x y : Z) : Blockchain :=
  mkBlockchain chain_types [trie_block PAL] (funded x y) (AuthorityManager_new "") ContractRegistry_new
    NftRegistry_new [] ∅ ∅ 0 7119 None StakeRegistry_new EpochManager_new
    SlashingEngine_new SelfProduced false false.
Definition trie_chain (x y : Z) : Blockchain := bare_chain x y <| bc_state_trie := Some (empty_trie false) |>.
Definition trie_config : TrieConfig :=
  mkTrieConfig U64_MAX None U64_MAX None U64_MAX U64_MAX U64_MAX U64_MAX false.
(** What the block writes: the alias's account. *)
Definition pal_run : list TrieOp := [OInsert (address_to_key PAL) (account_value_bytes 5 0)].

Lemma pal_run_ok : Forall op_ok (pal_run ++ [OCommit 1]).
Proof.
  constructor; [|by repeat constructor]. vm_compute. split; [done|].
  repeat (constructor; [split; done|]). constructor.
Qed.
Lemma pal_ops x : x = 9 ∨ x = 6 → ops_of trie_config (trie_chain x 5) (trie_block PAL) = pal_run.
Proof.
  intros Hx. transitivity (ops_of trie_config (bare_chain x 5) (trie_block PAL)); [reflexivity|].
  destruct Hx as [-> | ->]; vm_compute; reflexivity.
Qed.
Lemma pal_touches x : x = 9 ∨ x = 6 → touches trie_config (trie_chain x 5) (trie_block PAL) PAL.
Proof.
  intros Hx. change (touches trie_config (bare_chain x 5) (trie_block PAL) PAL).
  destruct Hx as [-> | ->]; vm_compute; constructor.
Qed.
Lemma pal_nodup x : x = 9 ∨ x = 6 → NoDup (op_key <$> ops_of trie_config (trie_chain x 5) (trie_block PAL)).
Proof. intros Hx. rewrite pal_ops by done. apply NoDup_singleton. Qed.

Definition pal_universe : list Pre := universe false (pal_run ++ [OCommit 1]).
Lemma pal_free : pre_collision_free pal_universe ∧ empty_pres ⊆ pal_universe.
Proof. split; [apply ideal_one, pal_run_ok|apply universe_parts]. Qed.

Lemma pal_ready x : x = 9 ∨ x = 6 →
  block_ready trie_config pal_universe (trie_chain x 5) (trie_block PAL) (empty_trie false) TEmpty ∅.
Proof.
  intros Hx. destruct (empty_models pal_universe false) as [Hm Hc].
  pose proof pal_run_ok as Hok. apply Forall_app in Hok as [Hok _].
  split; [done|done|done|apply represents_empty| |]; rewrite pal_ops by done; [done|apply universe_parts].
Qed.

Lemma block_root_commits_witness :
  ∃ db T' root, update_trie_for_block trie_config (trie_chain 9 5) = (db, Some T', Ok (Some root)) ∧
    root_at_version T' 1 = Some root ∧ get T' (address_to_key PAL) = Ok (Some (account_value_bytes 5 0)).
Proof.
  destruct (block_root_commits trie_config pal_universe _ _ _ _ _ (proj1 pal_free) (proj2 pal_free)
    (pal_ready 9 (or_introl eq_refl))) as (db & T' & root & E & _ & Hv & Hg).
  exists db, T', root. split_and!; [done|done|]. rewrite Hg, pal_ops by auto. by vm_compute.
Defined.

Lemma restart_resumes_witness :
  ∃ T' T2, init_trie trie_config 257 (tr_storage T') (trie_chain 9 5) =
      Some (trie_chain 9 5 <| bc_state_trie := Some T2 |>, tr_storage T2, Ok tt) ∧
    get T2 (address_to_key PAL) = Ok (Some (account_value_bytes 5 0)).
Proof.
  destruct (restart_resumes trie_config pal_universe _ _ _ _ _ (proj1 pal_free) (proj2 pal_free)
    (pal_ready 9 (or_introl eq_refl))) as (db & T' & T2 & _ & E & _ & Hg).
  exists T', T2. split; [exact E|]. rewrite Hg, pal_ops by auto. by vm_compute.
Defined.

Lemma pal_last x : last (bc_chain (trie_chain x 5)) = Some (trie_block PAL).
Proof. reflexivity. Qed.
Lemma pal_trie x : bc_state_trie (trie_chain x 5) = Some (empty_trie false).
Proof. reflexivity. Qed.
Lemma pal_updated x : (update_trie_for_block trie_config (trie_chain x 5)).1.1 =
  (touched_addrs trie_config (trie_block PAL)
     (rebase_treasury trie_config (Some 1) (bc_accounts (bare_chain x 5)))).1.
Proof. etransitivity; [exact (update_accounts trie_config _ _ _ (pal_last x) (pal_trie x))|reflexivity]. Qed.
Lemma pal_accounts db x : x = 9 ∨ x = 6 →
  db = (update_trie_for_block trie_config (trie_chain x 5)).1.1 →
  committed_account db PAL = Some (5, 0) ∧ account_in_range db PAL.
Proof.
  intros Hx Hdb. rewrite pal_updated in Hdb. subst db.
  destruct Hx as [-> | ->]; vm_compute; split_and!; done.
Qed.

(** [pal] holds 9, and the trie answers 5 for it. *)
Lemma alias_overwrites_account_witness :
  ∃ db T' root, update_trie_for_block trie_config (trie_chain 9 5) = (db, Some T', Ok (Some root)) ∧
    get T' (address_to_key pal) = Ok (Some (account_value_bytes 5 0)) ∧ get_balance (funded 9 5) pal = 9.
Proof.
  destruct (alias_overwrites_account trie_config pal_universe _ _ _ _ _ pal PAL (proj1 pal_free)
    (proj2 pal_free) (pal_ready 9 (or_introl eq_refl))) as (db & T' & root & E & Hg);
    [apply pal_nodup; auto|apply pal_touches; auto|vm_compute; reflexivity..|].
  exists db, T', root. split; [exact E|].
  destruct (pal_accounts db 9 (or_introl eq_refl)) as [Hc _]; [by rewrite E|].
  rewrite Hc in Hg. split; [exact Hg|]. vm_compute. reflexivity.
Defined.

Lemma equal_block_roots_agree_witness :
  let db1 := (update_trie_for_block trie_config (trie_chain 9 5)).1.1 in
  let db2 := (update_trie_for_block trie_config (trie_chain 6 5)).1.1 in
  get_balance db1 PAL = get_balance db2 PAL ∧ (get_balance db1 PAL ≠ 0 → get_nonce db1 PAL = get_nonce db2 PAL).
Proof.
  pose proof (or_introl eq_refl : 9 = 9 ∨ 9 = 6) as H9. pose proof (or_intror eq_refl : 6 = 9 ∨ 6 = 6) as H6.
  apply (equal_block_roots_agree trie_config pal_universe _ _ (trie_block PAL) (empty_trie false)
    (empty_trie false) TEmpty TEmpty ∅ ∅ PAL (proj1 pal_free) (proj2 pal_free) (pal_ready 9 H9) (pal_ready 6 H6)
    (pal_nodup 9 H9) (pal_nodup 6 H6) (pal_touches 9 H9) (pal_touches 6 H6)
    (proj2 (pal_accounts _ 9 H9 eq_refl)) (proj2 (pal_accounts _ 6 H6 eq_refl))).
  destruct (update_runs trie_config pal_universe (proj1 pal_free) (proj2 pal_free) _ _ _ _ _ (pal_ready 9 H9))
    as (d1 & T1 & E1 & _).
  destruct (update_runs trie_config pal_universe (proj1 pal_free) (proj2 pal_free) _ _ _ _ _ (pal_ready 6 H6))
    as (d2 & T2 & E2 & _).
  rewrite E1, E2. cbn [snd]. by rewrite !pal_ops by done.
Defined.
End chain_trie_examples.
