(* ===== verification/LoadChain.v ===== *)
(** * Loading the chain from disk

    Models [load_blockchain] of crates/sentrix-core/src/storage.rs: the state
    blob, the window of blocks, the trie, the transaction index, the repair of the
    accounts from the trie, and the replay of blocks that the blob has not seen.
    Shows that the replay does not take place: the save before it moves the
    checkpoint to the tip. *)

From S2P Require Import Prelude Bytes Keys Account Token Trie TrieTree TrieRefine TrieTheorems TrieGc.
From S2P Require Import Transaction Authority TrieState Nft Emission Staking Epoch Slashing.
From S2P Require Import BftMessages Block Chain Storage Executor ChainTrie.

(** The tables of the chain and of the trie. *)
Record NodeDb := mkNodeDb { nd_chain : ChainDb; nd_trie : TrieStorage }.
#[global] Instance NodeDb_eta : Eta NodeDb := λ d, mkNodeDb (nd_chain d) (nd_trie d).

(** [reset_trie] leaves the tombstones of the collector. *)
Definition reset_trie (db : NodeDb) : NodeDb :=
  db <| nd_trie := mkTrieStorage ∅ ∅ ∅ ∅ (ts_tombstones (nd_trie db)) false |>.
Definition node_clear (db : NodeDb) : NodeDb := mkNodeDb (storage_clear (nd_chain db)) empty_storage.

Section load.
Context `{Sha256, Blake3, Hex, HexDecode, HashOrder, Json, TxCrypto, Crypto, JsonSlice}.
Context (cfg : NodeConfig) (tc : TrieConfig).
Context (evm : Transaction → Z → string → Z → Blockchain → AccountDB * result unit) (fuel : nat).
#[local] Instance load_ops : ChainOps := chain_ops tc evm.
Implicit Types (d : ChainDb) (bc : Blockchain).

(** ** The window *)

(** Blocks from [i] on, up to the first that is missing. *)
Fixpoint load_run (n : nat) d (i : Z) (blocks : list Block) : result (list Block * bool) :=
  match n with
  | O => Ok (blocks, true)
  | S n =>
      match load_block d i with
      | Err e => Err e
      | Ok (Some block) => load_run n d (i + 1) (blocks ++ [block])
      | Ok None => Ok (blocks, false)
      end
  end.
(** [while h > 0 && load_block(h)?.is_none() { h -= 1 }] *)
Fixpoint find_stored d (h : nat) : result Z :=
  match h with
  | O => Ok 0
  | S h' =>
      match load_block d (Z.of_nat h) with
      | Err e => Err e
      | Ok (Some _) => Ok (Z.of_nat h)
      | Ok None => find_stored d h'
      end
  end.
Definition window_from (height : Z) : Z := saturating_sub height (Z.of_nat CHAIN_WINDOW_SIZE - 1).
Definition load_window d (height : Z) : ChainDb * result (list Block) :=
  let window_start := window_from height in
  match load_run (Z.to_nat (height - window_start + 1)) d window_start [] with
  | Err e => (d, Err e)
  | Ok (blocks, true) => (d, Ok blocks)
  | Ok (blocks, false) =>
      match last blocks with
      | Some tip => (save_height (blk_index tip) d, Ok blocks)
      | None =>
          match find_stored d (Z.to_nat (saturating_sub window_start 1)) with
          | Err e => (d, Err e)
          | Ok h =>
              match load_blocks_range d (window_from h) h with
              | Err e => (d, Err e)
              | Ok blocks => (save_height h d, Ok blocks)
              end
          end
      end
  end.

(** ** Repairing the accounts from the trie *)

Definition reconcile_addresses bc : list string :=
  let reg := bc_stake_registry bc in
  merge_sort String.le (elements ({[PROTOCOL_TREASURY]} ∪ list_to_set (active_set reg) ∪ dom (validators reg)
    ∪ dom (filter (λ e, 0 < acct_balance e.2 ∨ 0 < acct_nonce e.2) (accounts (bc_accounts bc))) : gset string)).
(** What the trie says of an address; nothing when the lookup fails. *)
Definition trie_view (trie : Trie.SentrixTrie) (addr : string) : option (Z * Z) :=
  match get trie (address_to_key addr) with
  | Ok (Some leaf) => account_value_decode leaf
  | _ => None
  end.
Definition repair (trie : Trie.SentrixTrie) (s : AccountDB * nat) (addr : string) : AccountDB * nat :=
  match trie_view trie addr with
  | Some (trie_balance, trie_nonce) =>
      let db := s.1 in
      if negb (trie_balance =? get_balance db addr) || negb (trie_nonce =? get_nonce db addr) then
        (put_account addr (account_or_new db addr <| acct_balance := trie_balance |> <| acct_nonce := trie_nonce |>) db,
         S s.2)
      else s
  | None => s
  end.
Definition reconcile_accounts_from_trie bc : result (Blockchain * nat) :=
  match bc_state_trie bc with
  | None => Err (Internal "B3 reconcile: state_trie is None — init_trie must run before reconcile")
  | Some trie =>
      let '(db, repaired) := foldl (repair trie) (bc_accounts bc, 0%nat) (reconcile_addresses bc) in
      Ok (bc <| bc_accounts := clear_touched_in_block db |>, repaired)
  end.

(** The premine and the scheduled reward of every height up to the tip. *)
Definition scheduled_minted (tip : Z) : Z :=
  foldl (λ total h, saturating_add U64_MAX total (subsidy (fk_tokenomics_v2 (cfg_forks cfg)) h))
    TOTAL_PREMINE (Z.of_nat <$> seq 1 (Z.to_nat tip)).
Definition recompute_total_minted_from_blocks bc : Z := scheduled_minted (bc_height bc).

(** ** Replay *)

Definition replay_gap (blob_height height h : Z) : SentrixError :=
  Internal ("load_blockchain replay: block " +:+ pretty h +:+ " missing on disk (blob_height=" +:+ pretty blob_height
    +:+ " disk_height=" +:+ pretty height +:+ "); cannot reconstruct accounts state. "
    +:+ "Recovery: rsync chain.db from a healthy peer.").
Fixpoint replay (n : nat) d (blob_height height h : Z) bc : Blockchain * result unit :=
  match n with
  | O => (bc, Ok tt)
  | S n =>
      match load_block d h with
      | Err e => (bc, Err e)
      | Ok None => (bc, Err (replay_gap blob_height height h))
      | Ok (Some block) =>
          match add_block_from_peer cfg block bc with
          | (bc, Err e) => (bc, Err (Internal ("load_blockchain replay failed at h=" +:+ pretty h +:+ ": " +:+ error_text e)))
          | (bc, Ok _) => replay n d blob_height height (h + 1) bc
          end
      end
  end.
(** The trie tables once the chain's trie is open. *)
Definition trie_tables bc (storage : TrieStorage) : TrieStorage :=
  match bc_state_trie bc with Some t => tr_storage t | None => storage end.
Definition catch_up (height : Z) bc (db : NodeDb) : NodeDb * result (option Blockchain) :=
  match load_blob_height (nd_chain db) with
  | Some blob_height =>
      if blob_height <? height then
        let bc := bc <| bc_chain := filter (λ b, blk_index b <= blob_height) (bc_chain bc) |> in
        match replay (Z.to_nat (height - blob_height)) (nd_chain db) blob_height height (blob_height + 1) bc with
        | (bc, Err e) => (db <| nd_trie := trie_tables bc (nd_trie db) |>, Err e)
        | (bc, Ok _) =>
            (mkNodeDb (save_blockchain bc (bc_chain bc) (nd_chain db)) (trie_tables bc (nd_trie db)), Ok (Some bc))
        end
      else (db, Ok (Some bc))
  | None => (db, Ok (Some bc))
  end.

(** Opening the trie; below the fork of the state root a failure is let through. *)
Definition open_trie (storage : TrieStorage) bc : option (Blockchain * TrieStorage * result unit) :=
  match init_trie tc fuel storage bc with
  | Some (bc, storage, Err e) =>
      if STATE_ROOT_FORK_HEIGHT <=? bc_height bc
      then Some (bc, storage, Err (Internal ("trie init failed at height " +:+ pretty (bc_height bc) +:+ ": " +:+ error_text e
             +:+ ". Past STATE_ROOT_FORK_HEIGHT the trie must be functional — state_root is part of the block hash "
             +:+ "and silent trie failure causes chain forks. Resync from peers or wipe data dir to recover.")))
      else Some (bc, storage, Ok tt)
  | r => r
  end.
(** From the repair on. *)
Definition settle (height : Z) bc (db : NodeDb) : NodeDb * result (option Blockchain) :=
  match reconcile_accounts_from_trie bc with
  | Err e => (db, Err e)
  | Ok (bc, repaired) =>
      let stale := negb (recompute_total_minted_from_blocks bc =? bc_total_minted bc) in
      let db := if (0 <? repaired)%nat || stale
                then db <| nd_chain := save_blockchain bc (bc_chain bc) (nd_chain db) |> else db in
      catch_up height bc db
  end.
(** [None] when the integrity walk of the trie does not end within [fuel]. *)
Definition load_blockchain (db : NodeDb) : option (NodeDb * result (option Blockchain)) :=
  match load_state (nd_chain db) with
  | None => Some (db, Ok None)
  | Some bc =>
      match load_height (nd_chain db) with
      | Err e => Some (db, Err e)
      | Ok height =>
          match load_window (nd_chain db) height with
          | (d, Err e) => Some (db <| nd_chain := d |>, Err e)
          | (d, Ok blocks) =>
              let bc := bc <| bc_chain := blocks |> in
              match open_trie (nd_trie db) bc with
              | None => None
              | Some (bc, storage, Err e) => Some (mkNodeDb d storage, Err e)
              | Some (bc, storage, Ok _) =>
                  let d := (backfill_txid_index bc d).1 in
                  Some (settle height (rebuild_mempool_sidecars bc) (mkNodeDb d storage))
              end
          end
      end
  end.

(** ** What loading keeps *)

Lemma init_trie_frame storage bc bc1 st :
  init_trie tc fuel storage bc = Some (bc1, st, Ok tt) → ∃ t, bc1 = bc <| bc_state_trie := Some t |>.
Proof. unfold init_trie. intros E. repeat case_match; simplify_eq; eauto. Qed.
Lemma rebuild_frame bc :
  ∃ ids counts, rebuild_mempool_sidecars bc = bc <| bc_mempool_txids := ids |> <| bc_mempool_sender_count := counts |>.
Proof.
  unfold rebuild_mempool_sidecars.
  set (b0 := bc <| bc_mempool_txids := ∅ |> <| bc_mempool_sender_count := ∅ |>).
  assert (Hb : ∃ ids counts, b0 = bc <| bc_mempool_txids := ids |> <| bc_mempool_sender_count := counts |>) by eauto.
  clearbody b0. revert b0 Hb. induction (bc_mempool bc) as [|tx txs IH]; intros b0 Hb; [done|].
  simpl. apply IH. destruct Hb as (ids & counts & ->). do 2 eexists. reflexivity.
Qed.

Lemma scheduled_minted_S n :
  scheduled_minted (Z.of_nat (S n)) =
  saturating_add U64_MAX (scheduled_minted (Z.of_nat n)) (subsidy (fk_tokenomics_v2 (cfg_forks cfg)) (Z.of_nat (S n))).
Proof. unfold scheduled_minted. rewrite !Nat2Z.id, seq_S, fmap_app, foldl_app. reflexivity. Qed.
Lemma scheduled_minted_le n : scheduled_minted (Z.of_nat n) <= U64_MAX.
Proof. destruct n; [by vm_compute|]. rewrite scheduled_minted_S. unfold saturating_add. lia. Qed.
Lemma scheduled_minted_mono n k : scheduled_minted (Z.of_nat n) <= scheduled_minted (Z.of_nat (n + k)).
Proof.
  induction k as [|k IH]; [by rewrite Nat.add_0_r|]. rewrite Nat.add_succ_r, scheduled_minted_S.
  pose proof (scheduled_minted_le n). unfold saturating_add.
  pose proof (subsidy_nonneg (fk_tokenomics_v2 (cfg_forks cfg)) (Z.of_nat (S (n + k)))). lia.
Qed.
(** While rewards are paid, the schedule moves between any two heights. *)
Lemma scheduled_minted_lt b h :
  0 <= b < h → scheduled_minted b < U64_MAX → 0 < subsidy (fk_tokenomics_v2 (cfg_forks cfg)) h →
  scheduled_minted b < scheduled_minted h.
Proof.
  intros Hb Hm Hs. pose proof (scheduled_minted_mono (Z.to_nat b) (Z.to_nat (h - 1 - b))) as Hmono.
  replace h with (Z.of_nat (S (Z.to_nat b + Z.to_nat (h - 1 - b)))) in Hs |- * by lia.
  rewrite scheduled_minted_S. rewrite (Z2Nat.id b) in Hmono by lia. unfold saturating_add. lia.
Qed.

(** With the total of another height, the repair step saves the chain and moves
    the checkpoint to its tip: nothing is left to replay. *)
Lemma settle_stale bc db trie tip :
  bc_state_trie bc = Some trie → last (bc_chain bc) = Some tip →
  bc_total_minted bc ≠ scheduled_minted (blk_index tip) →
  ∃ db' accts, settle (blk_index tip) bc db = (db', Ok (Some (bc <| bc_accounts := accts |>))) ∧
    load_blob_height (nd_chain db') = Some (blk_index tip).
Proof.
  intros Ht Hl Hm. unfold settle, reconcile_accounts_from_trie. rewrite Ht.
  destruct (foldl _ _ _) as [accts repaired]. unfold recompute_total_minted_from_blocks, bc_height. simpl. rewrite Hl. simpl.
  rewrite (proj2 (Z.eqb_neq _ _)) by congruence. rewrite orb_true_r. unfold catch_up. simpl.
  unfold save_blockchain. rewrite Hl. simpl. unfold load_blob_height. simpl.
  match goal with |- context [foldl put_block ?d0 ?c] => destruct (put_blocks_rest d0 c) as (_ & Eb & _) end.
  rewrite Eb. simpl. rewrite Z.ltb_irrefl. do 2 eexists. split; [reflexivity|]. simpl. by rewrite Eb.
Qed.

(** C30: when the stored blocks are ahead of the state blob, loading a chain whose total
    was right at the checkpoint does not replay them: the chain comes back at the
    tip with the total, the stake registry, the tokens and the epoch of the
    checkpoint, and the checkpoint on disk is moved to the tip, so that no later
    load replays them either. *)
Theorem replay_skipped db bc0 blob_height height d blocks tip bc1 st :
  load_state (nd_chain db) = Some bc0 →
  load_blob_height (nd_chain db) = Some blob_height → load_height (nd_chain db) = Ok height → 0 <= blob_height < height →
  load_window (nd_chain db) height = (d, Ok blocks) → last blocks = Some tip → blk_index tip = height →
  init_trie tc fuel (nd_trie db) (bc0 <| bc_chain := blocks |>) = Some (bc1, st, Ok tt) →
  bc_total_minted bc0 = scheduled_minted blob_height → scheduled_minted blob_height < U64_MAX →
  0 < subsidy (fk_tokenomics_v2 (cfg_forks cfg)) height →
  ∃ db' bc, load_blockchain db = Some (db', Ok (Some bc)) ∧
    bc_chain bc = blocks ∧ bc_height bc = height ∧ load_blob_height (nd_chain db') = Some height ∧
    bc_total_minted bc = bc_total_minted bc0 ∧ bc_stake_registry bc = bc_stake_registry bc0 ∧
    bc_contracts bc = bc_contracts bc0 ∧ bc_nft_registry bc = bc_nft_registry bc0 ∧
    bc_epoch_manager bc = bc_epoch_manager bc0 ∧ bc_slashing bc = bc_slashing bc0.
Proof.
  intros Hs Hb Hh Hlt Hw Hl Htip Hi Hm Hmax Hr. unfold load_blockchain. rewrite Hs, Hh, Hw. unfold open_trie. rewrite Hi.
  destruct (init_trie_frame _ _ _ _ Hi) as [t ->].
  destruct (rebuild_frame (bc0 <| bc_chain := blocks |> <| bc_state_trie := Some t |>)) as (ids & counts & ->).
  pose proof (scheduled_minted_lt _ _ Hlt Hmax Hr). subst height.
  match goal with |- context [settle _ ?b ?n] => destruct (settle_stale b n t tip) as (db' & accts & -> & Hb') end;
    [done|done|simpl; lia|].
  do 2 eexists. split; [reflexivity|]. simpl. split_and!; try done. unfold bc_height. simpl. by rewrite Hl.
Qed.
End load.
