(* ===== verification/Network.v ===== *)
(** * The network task

    Models crates/sentrix-network/src/libp2p_node.rs and its helpers: the task
    that owns the libp2p swarm, with the peers it verified, the requests it waits
    on, the connection limiter and the cache of advertisements, and the tasks it
    starts to apply blocks and transactions.  libp2p is the source of the inputs
    and the sink of the effects; a peer id is a string, a gossip message is given
    after bincode, and request ids are numbered in order. *)

From S2P Require Import Prelude Bytes Keys Account Staking Epoch Slashing Token Transaction Authority.
From S2P Require Import TrieState Nft Emission BftMessages Block Chain Storage Executor Wire RateLimit.

Inductive NodeEvent :=
  | EvNewBlock (block : Block)
  | EvNewTransaction (tx : Transaction)
  | EvPeerConnected (peer : string)
  | EvPeerDisconnected (peer : string)
  | EvSyncNeeded (peer_addr : string) (peer_height : Z)
  | EvSyncForkDetected (height : Z) (local_head_hash : string)
  | EvBftProposal (p : Proposal)
  | EvBftPrevote (v : Prevote)
  | EvBftPrecommit (v : Precommit)
  | EvBftRoundStatus (s : RoundStatus).

(** Tasks started with [tokio::spawn]. *)
Inductive NetTask :=
  | TaskBlock (block : Block)
  | TaskTx (tx : Transaction)
  | TaskSync (blocks : list Block).

(** What the task does to its surroundings: requests and responses, connections,
    gossip pins, events sent and awaited, events dropped when the queue is full,
    and new tasks. *)
Inductive NetEffect :=
  | FxRequest (id : Z) (peer : string) (req : SentrixRequest)
  | FxResponse (peer : string) (resp : SentrixResponse)
  | FxDisconnect (peer : string)
  | FxPin (peer : string)
  | FxUnpin (peer : string)
  | FxEvent (e : NodeEvent)
  | FxTryEvent (e : NodeEvent)
  | FxSpawn (t : NetTask).

Record Swarm := mkSwarm {
  sw_verified_peers : gset string;
  sw_pending_handshakes : gmap Z string;
  sw_pending_syncs : gmap Z string;
  sw_pending_variants : gmap Z string;
  sw_ip_limiter : IpRateLimiter;
  sw_multiaddr_cache : gmap string MultiaddrAdvertisement;
  sw_next_id : Z;
}.
#[global] Instance Swarm_eta : Eta Swarm := λ s,
  mkSwarm (sw_verified_peers s) (sw_pending_handshakes s) (sw_pending_syncs s) (sw_pending_variants s)
    (sw_ip_limiter s) (sw_multiaddr_cache s) (sw_next_id s).
Definition Swarm_new : Swarm := mkSwarm ∅ ∅ ∅ ∅ IpRateLimiter_new ∅ 0.

Definition MAX_LIBP2P_PEERS : nat := 50.
Definition MAX_CACHED_ADVERTS : nat := 4096.
Definition MAX_ACCEPTED_BATCH : nat := 50.

(** Gossip by topic; [GmUndecodable] where bincode fails. *)
Inductive GossipMessage :=
  | GmBlock (block : Block)
  | GmTransaction (tx : Transaction)
  | GmProposal (p : Proposal)
  | GmPrevote (v : Prevote)
  | GmPrecommit (v : Precommit)
  | GmRoundStatus (s : RoundStatus)
  | GmAdvert (a : MultiaddrAdvertisement)
  | GmUndecodable.

(** What reaches the task: swarm events, the command to sync, the timer. *)
Inductive NetInput :=
  | InConnected (peer : string) (ip : option string) (now : Z)
  | InClosed (peer : string) (num_established : Z)
  | InRequest (peer : string) (req : SentrixRequest) (channel_open : bool)
  | InResponse (peer : string) (id : Z) (resp : SentrixResponse)
  | InOutboundFailure (id : Z)
  | InGossip (msg : GossipMessage)
  | InTriggerSync
  | InSyncTick (now : Z).

Section network.
Context `{ChainTypes, !ChainOps, Json, Sha256, TxCrypto, Hex, HashOrder, Crypto, JsonSlice, PartitionPoint}.
Context (cfg : NodeConfig) (our_chain_id : Z) (serialized_size : Transaction → option Z).
Implicit Types (bc : Blockchain) (s : Swarm).

(** ** Receiving blocks and transactions *)

(** The bookkeeping that the executor does itself from the fork on. *)
Definition received_bookkeeping (block : Block) bc : Blockchain :=
  match blk_justification block with
  | None => bc
  | Some j =>
      if is_reward_apply_path_height (cfg_forks cfg) (blk_index block) then bc
      else
        let active := active_set (bc_stake_registry bc) in
        let reward := bc_block_reward (cfg_forks cfg) bc in
        let bc := bc
          <| bc_slashing := record_block_signatures active (sp_validator <$> bj_precommits j) (blk_index block)
               (bc_slashing bc) |>
          <| bc_stake_registry := (distribute_reward (blk_validator block)
               ((λ p, (sp_validator p, sp_stake_weight p)) <$> bj_precommits j) reward 0 (bc_stake_registry bc)).1 |>
          <| bc_epoch_manager := record_block reward (bc_epoch_manager bc) |> in
        run_epoch_bookkeeping cfg (blk_index block) bc
  end.

(** [msg.contains("invalid previous hash")] *)
Fixpoint str_contains (needle s : string) : bool :=
  String.prefix needle s || match s with "" => false | String _ s => str_contains needle s end.
Definition is_fork_error (e : SentrixError) : bool :=
  match e with InvalidBlock msg => str_contains "invalid previous hash" msg | _ => false end.
Definition head_hash bc : string := match latest_block bc with Ok b => blk_hash b | Err _ => "" end.

Inductive Received := Stale | Applied | Refused.
Definition receive_block (block : Block) bc : Blockchain * list NodeEvent * Received :=
  if blk_index block <=? bc_height bc then (bc, [], Stale)
  else
    match add_block_from_peer cfg block bc with
    | (bc, Ok _) =>
        let bc := received_bookkeeping block bc in
        let updated := match latest_block bc with Ok b => b | Err _ => block end in
        (bc, [EvNewBlock updated], Applied)
    | (bc, Err e) =>
        (bc, if is_fork_error e then [EvSyncForkDetected (blk_index block) (head_hash bc)] else [], Refused)
    end.
(** A batch: stale blocks are skipped, the first failure ends it. *)
Fixpoint sync_blocks (blocks : list Block) bc : Blockchain * list NodeEvent :=
  match blocks with
  | [] => (bc, [])
  | block :: blocks =>
      match receive_block block bc with
      | (bc, evs, Refused) => (bc, evs)
      | (bc, evs, _) => let '(bc, evs') := sync_blocks blocks bc in (bc, evs ++ evs')
      end
  end.
Definition run_task (t : NetTask) bc : Blockchain * list NodeEvent :=
  match t with
  | TaskBlock block => (receive_block block bc).1
  | TaskTx tx =>
      match add_to_mempool serialized_size (cfg_now cfg) tx bc with
      | (bc, Ok _) => (bc, [EvNewTransaction tx])
      | (bc, Err _) => (bc, [])
      end
  | TaskSync blocks => sync_blocks blocks bc
  end.

(** ** Checks at the boundary *)

Definition is_active_bft_signer bc (addr : string) : bool :=
  is_active (bc_stake_registry bc) addr || is_active_validator (bc_authority bc) addr.
Definition block_boundary_reject_reason (block : Block) : option string :=
  match list_find (λ t, is_coinbase t = false) (blk_transactions block) with
  | Some (_, tx) =>
      if negb (tx_chain_id tx =? our_chain_id) then Some "chain_id mismatch"
      else if (STATE_ROOT_FORK_HEIGHT <=? blk_index block) && bool_decide (blk_state_root block = None)
      then Some "missing state_root past STATE_ROOT_FORK_HEIGHT (sender's trie is broken)" else None
  | None =>
      if (STATE_ROOT_FORK_HEIGHT <=? blk_index block) && bool_decide (blk_state_root block = None)
      then Some "missing state_root past STATE_ROOT_FORK_HEIGHT (sender's trie is broken)" else None
  end.
Definition admit_block (block : Block) : list NetEffect :=
  match block_boundary_reject_reason block with
  | Some _ => []
  | None => [FxSpawn (TaskBlock block)]
  end.

(** The unsigned prevote a proposal may carry. *)
Definition embedded_prevote (p : Proposal) : list NetEffect :=
  match pp_proposer_prevote p with
  | Some pv =>
      if negb (bool_decide (pv_validator pv = pp_proposer p)) then []
      else if negb ((pv_height pv =? pp_height p) && (pv_round pv =? pp_round p)
                    && bool_decide (pv_block_hash pv = Some (pp_block_hash p))) then []
      else [FxTryEvent (EvBftPrevote pv)]
  | None => []
  end.
Definition forward_proposal bc (p : Proposal) : list NetEffect :=
  if negb (prop_verify_sig p) then []
  else if negb (is_active_bft_signer bc (pp_proposer p)) then []
  else embedded_prevote p ++ [FxTryEvent (EvBftProposal p)].
Definition forward_prevote bc (v : Prevote) : list NetEffect :=
  if negb (pv_verify_sig v) then []
  else if negb (is_active_bft_signer bc (pv_validator v)) then [] else [FxTryEvent (EvBftPrevote v)].
Definition forward_precommit bc (v : Precommit) : list NetEffect :=
  if negb (pc_verify_sig v) then []
  else if negb (is_active_bft_signer bc (pc_validator v)) then [] else [FxTryEvent (EvBftPrecommit v)].
Definition forward_round_status bc (st : RoundStatus) : list NetEffect :=
  if negb (rs_verify_sig st) then []
  else if negb (is_active_bft_signer bc (rs_validator st)) then [] else [FxTryEvent (EvBftRoundStatus st)].

(** ** Advertisements *)

(** The first entry with the smallest sequence number, in hash-map order. *)
Definition lowest (best : option (string * MultiaddrAdvertisement)) (e : string * MultiaddrAdvertisement) :=
  match best with
  | Some b => if ad_sequence e.2 <? ad_sequence b.2 then Some e else Some b
  | None => Some e
  end.
Definition victim (m : gmap string MultiaddrAdvertisement) : option string :=
  fst <$> foldl lowest None (hm_entries m).
Definition evict_advert (validator : string) (m : gmap string MultiaddrAdvertisement) :=
  if (MAX_CACHED_ADVERTS <=? size m)%nat && bool_decide (m !! validator = None) then
    match victim m with Some v => delete v m | None => m end
  else m.
Definition on_advert (a : MultiaddrAdvertisement) s : Swarm :=
  match validate_shape a with
  | inr _ => s
  | inl _ =>
      if negb (ad_chain_id a =? our_chain_id) then s
      else if match sw_multiaddr_cache s !! ad_validator a with
              | Some cached => ad_sequence a <=? ad_sequence cached | None => false end then s
      else if negb (advert_verify a) then s
      else s <| sw_multiaddr_cache := <[ad_validator a := a]> (evict_advert (ad_validator a) (sw_multiaddr_cache s)) |>
  end.
Definition cached_advert s (validator : string) : option MultiaddrAdvertisement := sw_multiaddr_cache s !! validator.
Definition list_cached_adverts s : list MultiaddrAdvertisement := hm_values (sw_multiaddr_cache s).
Definition peer_count s : nat := size (sw_verified_peers s).

(** ** Requests *)

(** Send a request and remember its kind; the caller remembers the peer. *)
Definition send_request (peer : string) (req : SentrixRequest) s : Swarm * Z * NetEffect :=
  let id := sw_next_id s in
  (s <| sw_next_id := id + 1 |> <| sw_pending_variants := <[id := variant_name req]> (sw_pending_variants s) |>,
   id, FxRequest id peer req).
Definition send_handshake (peer : string) (height : Z) s : Swarm * list NetEffect :=
  let '(s, id, fx) := send_request peer (ReqHandshake "0.0.0.0" 0 height our_chain_id) s in
  (s <| sw_pending_handshakes := <[id := peer]> (sw_pending_handshakes s) |>, [fx]).
Definition send_get_blocks (peer : string) (from_height : Z) s : Swarm * list NetEffect :=
  let '(s, id, fx) := send_request peer (ReqGetBlocks from_height) s in
  (s <| sw_pending_syncs := <[id := peer]> (sw_pending_syncs s) |>, [fx]).
(** [verified_peers.iter().next()] *)
Definition first_peer s : option string := head (hm_keys (gset_to_gmap () (sw_verified_peers s))).
Definition request_sync bc s : Swarm * list NetEffect :=
  match first_peer s with
  | Some peer => send_get_blocks peer (wrapping_add U64_MAX (bc_height bc) 1) s
  | None => (s, [])
  end.

Definition on_connected (peer : string) (ip : option string) (now : Z) bc s : Swarm * list NetEffect :=
  if (MAX_LIBP2P_PEERS <=? size (sw_verified_peers s))%nat then (s, [FxDisconnect peer])
  else
    let '(s, allowed) :=
      match ip with
      | Some ip => let '(l, ok) := check_and_track ip now (sw_ip_limiter s) in (s <| sw_ip_limiter := l |>, ok)
      | None => (s, true)
      end in
    if negb allowed then (s, [FxDisconnect peer]) else send_handshake peer (bc_height bc) s.
Definition on_closed (peer : string) (num_established : Z) s : Swarm * list NetEffect :=
  if num_established =? 0 then
    (s <| sw_verified_peers := sw_verified_peers s ∖ {[peer]} |>, [FxUnpin peer; FxEvent (EvPeerDisconnected peer)])
  else (s, []).

(** A peer has shown our chain id: its first handshake is announced. *)
Definition verify_peer (peer : string) (height : Z) bc s : Swarm * list NetEffect * bool :=
  if bool_decide (peer ∈ sw_verified_peers s) then (s, [], false)
  else
    (s <| sw_verified_peers := {[peer]} ∪ sw_verified_peers s |>,
     FxEvent (EvPeerConnected peer)
       :: (if bc_height bc <? height then [FxEvent (EvSyncNeeded peer height)] else []), true).
Definition respond (peer : string) (channel_open : bool) (resp : SentrixResponse) : list NetEffect :=
  if channel_open then [FxResponse peer resp] else [].
Definition on_handshake (peer : string) (height chain_id : Z) (channel_open : bool) bc s : Swarm * list NetEffect :=
  let refuse := (s, respond peer channel_open ResAck ++ [FxDisconnect peer]) in
  if negb (chain_id =? our_chain_id) then refuse
  else if (MAX_LIBP2P_PEERS <=? size (sw_verified_peers s))%nat && bool_decide (peer ∉ sw_verified_peers s) then refuse
  else if channel_open then
    let '(s, fx, _) := verify_peer peer height bc s in
    (s, FxResponse peer (ResHandshake "0.0.0.0" 0 (bc_height bc) our_chain_id) :: fx)
  else (s, []).

(** A block of the window, or of the disk. *)
Definition get_block_any (db : option ChainDb) bc (index : Z) : option Block :=
  match get_block bc index with
  | Some b => Some b
  | None =>
      match db with
      | Some d => match load_block d index with Ok o => o | Err _ => None end
      | None => None
      end
  end.
Definition serve_blocks (db : option ChainDb) bc (from_height : Z) : list Block :=
  let to := Z.min (bc_height bc) (saturating_add U64_MAX from_height 49) in
  omap (λ i, get_block_any db bc (from_height + Z.of_nat i)) (seq 0 (Z.to_nat (to - from_height + 1))).

Definition on_inbound_request (db : option ChainDb) (peer : string) (req : SentrixRequest) (channel_open : bool)
    bc s : Swarm * list NetEffect :=
  let answer resp fx := (s, respond peer channel_open resp ++ fx) in
  match req with
  | ReqHandshake _ _ height chain_id => on_handshake peer height chain_id channel_open bc s
  | ReqNewBlock block => answer ResAck (admit_block block)
  | ReqNewTransaction tx =>
      answer ResAck (if negb (tx_chain_id tx =? our_chain_id) then [] else [FxSpawn (TaskTx tx)])
  | ReqGetBlocks from_height => answer (ResBlocks (serve_blocks db bc from_height)) []
  | ReqGetHeight => answer (ResHeight (bc_height bc)) []
  | ReqPing => answer (ResPong (bc_height bc)) []
  | ReqBftProposal p => answer ResAck (forward_proposal bc p)
  | ReqBftPrevote v => answer ResAck (forward_prevote bc v)
  | ReqBftPrecommit v => answer ResAck (forward_precommit bc v)
  | ReqBftRoundStatus st => answer ResAck (forward_round_status bc st)
  end.

(** ** Responses *)

(** The peer and height to ask next, if any. *)
Definition on_blocks (sync_peer : string) (blocks : list Block) : list NetEffect * option (string * Z) :=
  match last blocks with
  | None => ([], None)
  | Some tip =>
      if (MAX_ACCEPTED_BATCH <? length blocks)%nat then ([], None)
      else
        ([FxSpawn (TaskSync blocks)],
         if (50 <=? length blocks)%nat then Some (sync_peer, wrapping_add U64_MAX (blk_index tip) 1) else None)
  end.
Definition on_inbound_response (peer : string) (id : Z) (resp : SentrixResponse) bc s
    : Swarm * list NetEffect * option (string * Z) :=
  match resp with
  | ResBlocks blocks =>
      match sw_pending_syncs s !! id with
      | Some sync_peer =>
          let '(fx, next) := on_blocks sync_peer blocks in
          (s <| sw_pending_syncs := delete id (sw_pending_syncs s) |>, fx, next)
      | None => (s, [], None)
      end
  | ResHandshake _ _ height chain_id =>
      match sw_pending_handshakes s !! id with
      | Some expected_peer =>
          let s := s <| sw_pending_handshakes := delete id (sw_pending_handshakes s) |> in
          if negb (bool_decide (expected_peer = peer)) then (s, [], None)
          else if negb (chain_id =? our_chain_id) then (s, [], None)
          else
            let '(s, fx, newly) := verify_peer peer height bc s in
            (s, fx, if newly && (bc_height bc <? height) then Some (peer, wrapping_add U64_MAX (bc_height bc) 1) else None)
      | None => (s, [], None)
      end
  | _ => (s, [], None)
  end.

(** A peer that has just been verified is pinned in the gossip mesh. *)
Definition pin_if_new (peer : string) (s0 s : Swarm) : list NetEffect :=
  if bool_decide (peer ∉ sw_verified_peers s0) && bool_decide (peer ∈ sw_verified_peers s) then [FxPin peer] else [].

Definition on_gossip (msg : GossipMessage) bc s : Swarm * list NetEffect :=
  match msg with
  | GmBlock block => (s, admit_block block)
  | GmTransaction tx => (s, [FxSpawn (TaskTx tx)])
  | GmProposal p => (s, forward_proposal bc p)
  | GmPrevote v => (s, forward_prevote bc v)
  | GmPrecommit v => (s, forward_precommit bc v)
  | GmRoundStatus st => (s, forward_round_status bc st)
  | GmAdvert a => (on_advert a s, [])
  | GmUndecodable => (s, [])
  end.

(** ** One turn of the loop *)

Definition swarm_step (db : option ChainDb) (input : NetInput) bc s : Swarm * list NetEffect :=
  match input with
  | InConnected peer ip now => on_connected peer ip now bc s
  | InClosed peer n => on_closed peer n s
  | InRequest peer req channel_open =>
      let '(s', fx) := on_inbound_request db peer req channel_open bc s in (s', fx ++ pin_if_new peer s s')
  | InResponse peer id resp =>
      let s := s <| sw_pending_variants := delete id (sw_pending_variants s) |> in
      let '(s', fx, next) := on_inbound_response peer id resp bc s in
      let fx := fx ++ pin_if_new peer s s' in
      match next with
      | Some (next_peer, from_height) => let '(s', fx') := send_get_blocks next_peer from_height s' in (s', fx ++ fx')
      | None => (s', fx)
      end
  | InOutboundFailure id =>
      (s <| sw_pending_handshakes := delete id (sw_pending_handshakes s) |>
         <| sw_pending_syncs := delete id (sw_pending_syncs s) |>
         <| sw_pending_variants := delete id (sw_pending_variants s) |>, [])
  | InGossip msg => on_gossip msg bc s
  | InTriggerSync => request_sync bc s
  | InSyncTick now => request_sync bc (s <| sw_ip_limiter := prune_stale now (sw_ip_limiter s) |>)
  end.
End network.
