(* ===== verification/ExecutorProps.v ===== *)
(** * What committing a block guarantees

    Theorems about [add_block_with_source] of Executor.v: what a failed commit
    leaves behind, which invariant of the block window every commit keeps, how a
    block's value is accounted for, and which transactions Pass 2 refuses. *)

From S2P Require Import Prelude Bytes Account Staking Epoch Slashing Token.
From S2P Require Import Merkle Transaction TransactionProps Authority Emission.
From S2P Require Import BftMessages Block Chain MempoolProps Justify Executor.

(** ** Parts of the state an operation leaves alone *)

Section keeps.
Context {S X : Type} (f : S → X).

(** [m] does not change [f], whether it succeeds or fails. *)
Definition keeps {A} (m : st S A) : Prop := ∀ s, f (m s).1 = f s.

Lemma keeps_bind {A B} (m : st S A) (k : A → st S B) :
  keeps m → (∀ a, keeps (k a)) → keeps (m ≫= k).
Proof.
  intros Hm Hk s. specialize (Hm s). unfold mbind, st_bind.
  destruct (m s) as [s1 [a|e]]; simpl in *; [by rewrite Hk|done].
Qed.
Lemma keeps_ret {A} (a : A) : keeps (mret a).
Proof. done. Qed.
Lemma keeps_gets {A} (g : S → A) : keeps (gets g).
Proof. done. Qed.
Lemma keeps_throw {A} e : keeps (throw (A := A) e).
Proof. done. Qed.
Lemma keeps_fail_if b e : keeps (fail_if b e).
Proof. intros s. unfold fail_if. by destruct b. Qed.
Lemma keeps_ok_or {A} (o : option A) e : keeps (ok_or o e).
Proof. intros s. unfold ok_or. by destruct o. Qed.
Lemma keeps_lift {A} (r : result A) : keeps (lift_result r).
Proof. done. Qed.
Lemma keeps_modify g : (∀ s, f (g s) = f s) → keeps (modify g).
Proof. intros Hg s. apply Hg. Qed.
Lemma keeps_if {A} (b : bool) (m n : st S A) : keeps m → keeps n → keeps (if b then m else n).
Proof. by destruct b. Qed.
Lemma keeps_for_each {A} (g : A → st S unit) l : (∀ a, keeps (g a)) → keeps (for_each g l).
Proof.
  intros Hg. induction l as [|a l IH]; simpl; [apply keeps_ret|]. by apply keeps_bind.
Qed.
End keeps.

Create HintDb frame.
#[export] Hint Resolve keeps_bind keeps_ret keeps_gets keeps_throw keeps_fail_if keeps_ok_or
  keeps_lift keeps_modify keeps_if keeps_for_each : frame.
#[export] Hint Extern 1 (keeps _ (match ?x with _ => _ end)) => destruct x : frame.
Ltac frame := eauto 20 with frame.

Section executor.
Context `{ChainTypes, !ChainOps, Json, Sha256, TxCrypto, Hex, HashOrder, Crypto}.
Context (cfg : NodeConfig).
Implicit Types bc : Blockchain.

(** What no transaction of a block touches. *)
Definition fixed_part bc :=
  (bc_chain bc, bc_mempool bc, bc_mempool_txids bc, bc_mempool_sender_count bc,
   bc_state_trie bc).
(** What nothing in Pass 2 touches. *)
Definition settings bc :=
  (bc_chain_id bc, bc_source_for_current_add bc, bc_justification_verified bc,
   bc_voyager_activated bc).
Definition frame_part bc := (fixed_part bc, settings bc).

Lemma frame_inv bc bc' :
  frame_part bc = frame_part bc' →
  bc_chain bc = bc_chain bc' ∧ settings bc = settings bc' ∧ bc_state_trie bc = bc_state_trie bc' ∧
  bc_mempool bc = bc_mempool bc'.
Proof. unfold frame_part, fixed_part, settings. intros Hf. injection Hf. repeat split; congruence. Qed.

Lemma keeps_on_accounts {A} (m : st AccountDB A) : keeps frame_part (on_accounts m).
Proof. intros bc. unfold on_accounts. by destruct (m _). Qed.
Lemma keeps_on_contracts {A} (m : st ContractRegistry A) : keeps frame_part (on_contracts m).
Proof. intros bc. unfold on_contracts. by destruct (m _). Qed.
Lemma keeps_on_nft {A} (m : st NftRegistry A) : keeps frame_part (on_nft m).
Proof. intros bc. unfold on_nft. by destruct (m _). Qed.
Lemma keeps_on_stake {A} (m : st StakeRegistry A) : keeps frame_part (on_stake m).
Proof. intros bc. unfold on_stake. by destruct (m _). Qed.
Lemma keeps_on_world {A} (m : st world A) : keeps frame_part (on_world m).
Proof. intros bc. unfold on_world. by destruct (m _). Qed.
Hint Resolve keeps_on_accounts keeps_on_contracts keeps_on_nft keeps_on_stake keeps_on_world : frame.

Lemma keeps_token_op block tx op : keeps frame_part (apply_token_op cfg block tx op).
Proof. destruct op; simpl; frame. Qed.

Lemma jail_cited_frame ev bc : frame_part (jail_cited ev bc) = frame_part bc.
Proof. unfold jail_cited. by destruct (jail _ _ _ _) as [r [[]|e]]. Qed.
Lemma keeps_jail_bundle epoch ev claimed : keeps frame_part (apply_jail_bundle cfg epoch ev claimed).
Proof.
  unfold apply_jail_bundle. repeat (apply keeps_bind; [frame|intros ?]).
  apply keeps_modify. intros bc. revert bc. induction ev as [|e ev IH]; intros bc; [done|].
  simpl. by rewrite IH, jail_cited_frame.
Qed.
Lemma keeps_staking_op block tx op : keeps frame_part (apply_staking_op cfg block tx op).
Proof.
  unfold apply_staking_op. apply keeps_bind; [frame|intros _].
  destruct op; unfold claim_rewards, require_amount; try apply keeps_jail_bundle; frame.
Qed.
Lemma keeps_evm block tx : keeps frame_part (run_evm block tx).
Proof. intros bc. unfold run_evm. by destruct (execute_evm_tx _ _ _ _ _). Qed.
Lemma keeps_apply_native tx fee : keeps frame_part (apply_native tx fee).
Proof. unfold apply_native. frame. Qed.
Hint Resolve keeps_token_op keeps_staking_op keeps_evm keeps_apply_native : frame.
Lemma keeps_apply_tx block tx fee : keeps frame_part (apply_tx cfg block tx fee).
Proof. unfold apply_tx. repeat (apply keeps_bind; [frame|intros ?]); frame. Qed.
Hint Resolve keeps_apply_tx : frame.
Lemma keeps_apply_txs block txs fee : keeps frame_part (apply_txs cfg block txs fee).
Proof. revert fee. induction txs; intros fee; simpl; frame. Qed.
Lemma keeps_coinbase block x : keeps frame_part (apply_coinbase cfg block x).
Proof. unfold apply_coinbase. frame. Qed.
Lemma keeps_fee_share block x : keeps frame_part (pay_fee_share block x).
Proof. unfold pay_fee_share. frame. Qed.
Hint Resolve keeps_apply_txs keeps_coinbase keeps_fee_share : frame.
Lemma keeps_execute block : keeps frame_part (execute_block cfg block).
Proof. unfold execute_block. repeat (apply keeps_bind; [frame|intros ?]). frame. Qed.

(** ** After the transactions *)

(** The sidecars of a pool, and [rebuild_mempool_sidecars] as their assignment. *)
Definition add_sidecar (p : gset string * gmap string Z) (tx : Transaction) :=
  ({[txid tx]} ∪ p.1,
   <[tx_from tx := wrapping_add U32_MAX (default 0 (p.2 !! tx_from tx)) 1]> p.2).
Definition sidecars (pool : list Transaction) : gset string * gmap string Z :=
  foldl add_sidecar (∅, ∅) pool.
Lemma rebuild_eq bc :
  rebuild_mempool_sidecars bc
  = bc <| bc_mempool_txids := (sidecars (bc_mempool bc)).1 |>
       <| bc_mempool_sender_count := (sidecars (bc_mempool bc)).2 |>.
Proof.
  assert (Hl : ∀ l p, foldl index_tx
      (bc <| bc_mempool_txids := p.1 |> <| bc_mempool_sender_count := p.2 |>) l
    = bc <| bc_mempool_txids := (foldl add_sidecar p l).1 |>
         <| bc_mempool_sender_count := (foldl add_sidecar p l).2 |>).
  { intros l. induction l as [|tx l IH]; intros [ids n]; [done|]. exact (IH (add_sidecar (ids, n) tx)). }
  apply (Hl (bc_mempool bc) (∅, ∅)).
Qed.

Lemma settle_chain block bc :
  let bc' := settle_mempool cfg block bc in
  bc_chain bc' = bc_chain bc ∧ settings bc' = settings bc ∧ bc_state_trie bc' = bc_state_trie bc.
Proof.
  unfold settle_mempool, prune_mempool, evict_stale_nonce_for_senders.
  case_bool_decide; by rewrite !rebuild_eq.
Qed.

Lemma bookkeeping_chain bc :
  let bc' := bookkeeping cfg bc in
  bc_chain bc' = bc_chain bc ∧ settings bc' = settings bc ∧ bc_state_trie bc' = bc_state_trie bc.
Proof.
  assert (Hr : ∀ bc, let bc' := apply_reward_bookkeeping cfg bc in
    bc_chain bc' = bc_chain bc ∧ settings bc' = settings bc ∧ bc_state_trie bc' = bc_state_trie bc).
  { intros b. unfold apply_reward_bookkeeping. destruct (last _) as [x|]; [|done].
    by destruct (blk_justification x). }
  assert (He : ∀ h bc, let bc' := run_epoch_bookkeeping cfg h bc in
    bc_chain bc' = bc_chain bc ∧ settings bc' = settings bc ∧ bc_state_trie bc' = bc_state_trie bc).
  { intros h b. unfold run_epoch_bookkeeping. destruct (negb _); [done|].
    destruct (process_unbonding _ _) as [r rel].
    by destruct (check_liveness _ _ _) as [[sl r'] slashed]. }
  unfold bookkeeping. destruct (is_reward_apply_path_height _ _); [|done]. cbv zeta.
  destruct (He (bc_height (apply_reward_bookkeeping cfg bc)) (apply_reward_bookkeeping cfg bc))
    as (-> & -> & ->). apply Hr.
Qed.

(** The blocks that remain in the window when one more arrives. *)
Definition kept_window (chain : list Block) : list Block :=
  drop (S (length chain) - CHAIN_WINDOW_SIZE) chain.

(** What the state-root step may turn the new block into. *)
Inductive stamped (b : Block) : Block → Prop :=
  | stamped_as_is : stamped b b
  | stamped_below root : blk_index b < STATE_ROOT_FORK_HEIGHT →
      stamped b (b <| blk_state_root := Some root |>)
  | stamped_rehashed root : STATE_ROOT_FORK_HEIGHT <= blk_index b → blk_state_root b = None →
      stamped b (b <| blk_state_root := Some root |>
                   <| blk_hash := calculate_hash (b <| blk_state_root := Some root |>) |>).

Lemma append_chain block bc :
  bc_chain (append_block block bc) = kept_window (bc_chain bc) ++ [block].
Proof.
  unfold append_block, kept_window. simpl. rewrite length_app. simpl.
  rewrite Nat.add_1_r, drop_app_le; [done|]. unfold CHAIN_WINDOW_SIZE. lia.
Qed.

Lemma set_last_chain f k b bc :
  bc_chain bc = k ++ [b] → bc_chain (set_last f bc) = k ++ [f b].
Proof.
  intros E. unfold set_last. simpl. rewrite E, length_app. simpl. rewrite Nat.add_1_r. simpl.
  rewrite <-(Nat.add_0_r (length k)), alter_app_r. done.
Qed.

Lemma stamp_effect computed k b bc bc' r :
  bc_chain bc = k ++ [b] → stamp_state_root cfg computed bc = (bc', r) →
  settings bc' = settings bc ∧
  ∃ b', bc_chain bc' = k ++ [b'] ∧ stamped b b' ∧ (is_ok r = false → b' = b).
Proof.
  intros E. unfold stamp_state_root. unfold_st_goal. rewrite E, last_snoc.
  destruct (Z.ltb_spec (blk_index b) STATE_ROOT_FORK_HEIGHT).
  { intros [= <- <-]. split; [done|]. eexists. split; [by apply set_last_chain|].
    split; [by apply stamped_below|done]. }
  destruct (blk_state_root b) as [root|] eqn:Er.
  { destruct (_ || _); intros [= <- <-]; (split; [done|]); exists b; auto using stamped. }
  case_bool_decide; [intros [= <- <-]; split; [done|]; exists b; auto using stamped|].
  destruct (is_speculative_apply_height _ _).
  { intros [= <- <-]; split; [done|]; exists b; auto using stamped. }
  intros [= <- <-]. split; [done|]. eexists. split; [by apply set_last_chain|].
  split; [by apply stamped_rehashed|done].
Qed.

Lemma finish_effect block bc bc' r :
  finish_block cfg block bc = (bc', r) →
  settings bc' = settings bc ∧
  ∃ b', bc_chain bc' = kept_window (bc_chain bc) ++ [b'] ∧ stamped block b' ∧
        (is_ok r = false → b' = block).
Proof.
  unfold finish_block, run_trie. unfold_st_goal.
  destruct (bookkeeping_chain (append_block block (settle_mempool cfg block bc))) as (Ec & Es & _).
  destruct (settle_chain block bc) as (Ec' & Es' & _).
  rewrite append_chain, Ec' in Ec.
  change (settings (append_block block (settle_mempool cfg block bc)))
    with (settings (settle_mempool cfg block bc)) in Es. rewrite Es' in Es.
  set (b1 := bookkeeping _ _) in *. clearbody b1.
  destruct (update_trie b1) as [[db trie] [[root|]|e]].
  - intros Hst. apply (stamp_effect _ (kept_window (bc_chain bc)) block) in Hst as [Es2 Hb]; [|done].
    split; [|done]. rewrite Es2. exact Es.
  - intros [= <- <-]. split; [done|]. exists block. simpl. auto using stamped.
  - intros [= <- <-]. split; [done|]. exists block. simpl. auto using stamped.
Qed.

(** Pass 2 as a whole: a failure leaves either the old window or the new block
    at its end. *)
Lemma pass2_effect block bc bc' r :
  apply_block_pass2 cfg block bc = (bc', r) →
  settings bc' = settings bc ∧
  match r with
  | Ok _ => ∃ b', bc_chain bc' = kept_window (bc_chain bc) ++ [b'] ∧ stamped block b'
  | Err _ => bc_chain bc' = bc_chain bc ∨ bc_chain bc' = kept_window (bc_chain bc) ++ [block]
  end.
Proof.
  unfold apply_block_pass2, mbind, st_bind.
  pose proof (keeps_execute block bc) as Hk.
  destruct (execute_block cfg block bc) as [b1 [[]|e]]; simpl in Hk.
  - apply frame_inv in Hk as (Hc & Hs & _).
    intros Hf. apply finish_effect in Hf as (Es & b' & Ec & Hst & He). rewrite Hc in Ec.
    split; [congruence|]. destruct r as [u|e]; [eauto|]. right. by rewrite <-(He eq_refl).
  - intros [= <- <-]. apply frame_inv in Hk as (Hc & Hs & _). auto.
Qed.

(** ** A rejected block *)

Lemma kept_window_short chain :
  (length chain < CHAIN_WINDOW_SIZE)%nat → kept_window chain = chain.
Proof. intros. unfold kept_window. by replace (_ - _)%nat with 0%nat by lia. Qed.
Lemma kept_window_full b chain :
  length (b :: chain) = CHAIN_WINDOW_SIZE → kept_window (b :: chain) = chain.
Proof. intros E. unfold kept_window. rewrite E. by replace (_ - _)%nat with 1%nat by lia. Qed.

Lemma commit_err block snap bc' e :
  commit cfg block snap = (bc', Err e) →
  ∃ bc, apply_block_pass2 cfg block snap = (bc, Err e) ∧ bc' = rollback snap bc.
Proof.
  unfold commit. destruct (apply_block_pass2 cfg block snap) as [bc [[]|e']]; [done|].
  intros [= <- <-]. eauto.
Qed.

Lemma rollback_eq snap bc :
  settings bc = settings snap →
  rollback snap bc
  = rebuild_mempool_sidecars
      (snap <| bc_chain := take (length (bc_chain snap)) (bc_chain bc) |>
            <| bc_state_trie := bc_state_trie (rollback snap bc) |>).
Proof.
  intros Hs. unfold rollback. rewrite !rebuild_eq. unfold settings in Hs. injection Hs as E1 E2 E3 E4.
  destruct snap, bc; simpl in *. by subst.
Qed.

(** A commit that fails, after any part of Pass 2, leaves no trace while the
    window has room: every part of the chain state is the one before the block,
    with the mempool's lookup tables rebuilt; the trie, which keeps orphaned
    nodes, is the only exception. *)
Theorem commit_failure_restores block snap bc' e :
  (length (bc_chain snap) < CHAIN_WINDOW_SIZE)%nat →
  commit cfg block snap = (bc', Err e) →
  bc' = rebuild_mempool_sidecars (snap <| bc_state_trie := bc_state_trie bc' |>).
Proof.
  intros Hlen Hc. apply commit_err in Hc as (bc & Hp & ->).
  apply pass2_effect in Hp as [Hs Hch]. rewrite kept_window_short in Hch by done.
  rewrite (rollback_eq snap bc Hs) at 1.
  assert (take (length (bc_chain snap)) (bc_chain bc) = bc_chain snap) as ->.
  { destruct Hch as [-> | ->]; [by rewrite take_ge|by rewrite take_app_length]. }
  by destruct snap.
Qed.

(** Once the window is full the same rollback does not undo the block: when
    the failure comes after the block was appended (the trie update or the
    state-root check), truncating to the old length keeps the rejected block as
    the tip and loses the oldest block instead. *)
Theorem commit_failure_full_window block snap bc bc' e oldest rest :
  bc_chain snap = oldest :: rest → length (bc_chain snap) = CHAIN_WINDOW_SIZE →
  execute_block cfg block snap = (bc, Ok tt) →
  commit cfg block snap = (bc', Err e) →
  bc_chain bc' = rest ++ [block] ∧ bc_accounts bc' = bc_accounts snap.
Proof.
  intros Hw Hlen He Hc. apply commit_err in Hc as (b1 & Hp & ->).
  pose proof (keeps_execute block snap) as Hk. unfold apply_block_pass2, mbind, st_bind in Hp.
  rewrite He in Hp, Hk. apply frame_inv in Hk as (Hc & Hs & _). simpl in Hp, Hc, Hs.
  apply finish_effect in Hp as (Es & b' & Ec & _ & Hb). rewrite (Hb eq_refl), Hc, Hw in Ec.
  rewrite Hw in Hlen. rewrite kept_window_full in Ec by done.
  rewrite rollback_eq by congruence. rewrite !rebuild_eq. simpl. split; [|done].
  rewrite Ec, Hw. apply take_ge. rewrite length_app. simpl. lia.
Qed.

(** ** The block window *)

(** [b] may follow [a]: one higher, not earlier, and naming its hash; its own
    hash and Merkle root are right. *)
Record linked (a b : Block) : Prop := {
  li_index : blk_index b = blk_index a + 1;
  li_time : blk_timestamp a <= blk_timestamp b;
  li_prev : blk_previous_hash b = blk_hash a;
  li_hash : is_valid_hash b = true;
  li_merkle : merkle_root (block_txids b) = blk_merkle_root b;
}.

Record chain_inv bc : Prop := {
  ci_nonempty : bc_chain bc ≠ [];
  ci_size : (length (bc_chain bc) <= CHAIN_WINDOW_SIZE)%nat;
  ci_linked i a b : bc_chain bc !! i = Some a → bc_chain bc !! S i = Some b → linked a b;
}.

(** The checks of [is_valid_chain_window] hold throughout. *)
Lemma chain_inv_valid bc : chain_inv bc → is_valid_chain_window bc = true.
Proof.
  intros [_ _ Hl]. unfold is_valid_chain_window. destruct (bc_chain bc) as [|b rest]; [done|].
  revert b Hl. induction rest as [|c rest IH]; intros b Hl; [done|]. simpl.
  destruct (Hl 0%nat b c eq_refl eq_refl) as [_ _ Hp Hh Hm].
  rewrite Hp, Hh, Hm, !bool_decide_eq_true_2 by done. simpl.
  apply IH. intros i x y. exact (Hl (S i) x y).
Qed.

Lemma chain_index bc i b :
  chain_inv bc → bc_chain bc !! i = Some b → blk_index b = chain_window_start bc + Z.of_nat i.
Proof.
  intros [_ _ Hl]. unfold chain_window_start. revert b. induction i as [|i IH]; intros b Hb.
  - destruct (bc_chain bc); [done|]. simplify_eq/=. lia.
  - destruct (bc_chain bc !! i) as [a|] eqn:Ha.
    + rewrite (li_index _ _ (Hl i a b Ha Hb)), (IH a eq_refl). lia.
    + apply lookup_ge_None in Ha. apply lookup_lt_Some in Hb. lia.
Qed.

(** Over a window kept by the executor, [get_block] finds exactly the block
    with the height asked for. *)
Theorem get_block_correct bc i b :
  chain_inv bc → get_block bc i = Some b ↔ b ∈ bc_chain bc ∧ blk_index b = i.
Proof.
  intros Hinv. unfold get_block. rewrite list_elem_of_lookup. split.
  - destruct (Z.ltb_spec i (chain_window_start bc)); [done|]. intros Hb.
    split; [eauto|]. rewrite (chain_index _ _ _ Hinv Hb). lia.
  - intros [[k Hk] <-]. rewrite (chain_index _ _ _ Hinv Hk).
    destruct (Z.ltb_spec (chain_window_start bc + Z.of_nat k) (chain_window_start bc)); [lia|].
    by replace (Z.to_nat _) with k by lia.
Qed.

Lemma lift_ok {S A} (r : result A) (s s' : S) a :
  lift_result r s = (s', Ok a) → r = Ok a ∧ s' = s.
Proof. by intros [= <- ->]. Qed.

(** A step that only checks. *)
Lemma check_only {S A} (b : bool) (r : result A) (p : A → bool) (e : A → SentrixError) (s s' : S) u :
  (if b then x ← lift_result r ; fail_if (p x) (e x) else mret tt) s = (s', Ok u) → s' = s.
Proof.
  destruct b; [|by intros [= <- _]]. intros Hx. inv_ok Hx. apply lift_ok in Hs as [_ ->].
  by apply fail_if_ok in Hx as [_ ->].
Qed.

Lemma pass1_ok block bc bc1 u :
  pass1 cfg block bc = (bc1, Ok u) →
  ∃ v prev cb, bc1 = bc <| bc_justification_verified := v |> ∧ last (bc_chain bc) = Some prev ∧
    validate_structure block (wrapping_add U64_MAX (bc_height bc) 1) (blk_hash prev) = Ok tt ∧
    blk_timestamp prev <= blk_timestamp block ∧
    coinbase block = Some cb ∧ tx_amount cb = bc_block_reward (cfg_forks cfg) bc ∧
    (for_each (validate_tx cfg bc1) (tail (blk_transactions block)) (mkWorking ∅ ∅ ∅ None)).2 = Ok tt.
Proof.
  unfold pass1, validate_header. intros Hp.
  apply st_bind_ok in Hp as ([] & b1 & Hh & Hp). inv_ok Hp. apply lift_ok in Hp as [Hp ->].
  destruct u. apply st_bind_ok in Hh as ([] & b0 & Hm & Hh). apply modify_ok in Hm as ->.
  inv_ok Hh.
  repeat match goal with
  | Hx : lift_result _ _ = (_, Ok _) |- _ => apply lift_ok in Hx as [? ->]
  | Hx : fail_if _ _ _ = (_, Ok _) |- _ => apply fail_if_ok in Hx as [? ->]
  | Hx : (if _ then _ else _) _ = (_, Ok _) |- _ => apply check_only in Hx as ->
  end.
  bool_hyps. destruct x1.
  exists x7, x, x11. split_and!; try done.
  - destruct x7; by injection Hs3 as <- _.
  - unfold latest_block in *. simpl in *. by destruct (last (bc_chain bc)); simplify_eq.
Qed.

(** Pass 1 changes the justification flag only. *)
Lemma keeps_pass1 block : keeps (λ bc, (bc_chain bc, bc_mempool bc, bc_slashing bc)) (pass1 cfg block).
Proof.
  unfold pass1, validate_header. repeat (apply keeps_bind; [|intros ?]); frame.
Qed.

Lemma add_block_ok block src bc bc' :
  add_block_with_source cfg block src bc = (bc', Ok tt) →
  ∃ bc1 bc2, pass1 cfg block (bc <| bc_source_for_current_add := src |>) = (bc1, Ok tt) ∧
    apply_block_pass2 cfg block bc1 = (bc2, Ok tt) ∧
    bc' = bc2 <| bc_source_for_current_add := SelfProduced |>.
Proof.
  unfold add_block_with_source, add_block_impl, commit, mbind, st_bind.
  destruct (pass1 cfg block _) as [bc1 [[]|e]]; [|done].
  destruct (apply_block_pass2 cfg block bc1) as [bc2 [[]|e]] eqn:E; [|done].
  intros [= <-]. eauto 6.
Qed.

Lemma stamped_linked a b b' : linked a b → stamped b b' → linked a b'.
Proof.
  intros [Ei Et Ep Eh Em] [|root Hi|root Hi Hn]; [done|..].
  - split; try done. unfold is_valid_hash, calculate_hash, hash_payload in *. simpl.
    destruct (Z.leb_spec STATE_ROOT_FORK_HEIGHT (blk_index b)); [lia|done].
  - split; try done. unfold is_valid_hash. by apply bool_decide_eq_true_2.
Qed.

Lemma lookup_kept_snoc (chain : list Block) (x : Block) i (b : Block) :
  (kept_window chain ++ [x]) !! i = Some b →
  b = x ∧ i = length (kept_window chain) ∨
  chain !! (S (length chain) - CHAIN_WINDOW_SIZE + i)%nat = Some b ∧ (i < length (kept_window chain))%nat.
Proof.
  rewrite lookup_app_Some. intros [Hb|[Hi Hb]].
  - right. split; [by rewrite <-lookup_drop|by apply lookup_lt_Some in Hb].
  - left. apply list_lookup_singleton_Some in Hb as [? ->]. split; [done|lia].
Qed.

(** Appending a linked block and evicting the oldest ones. *)
Lemma chain_inv_append bc bc' prev b :
  chain_inv bc → last (bc_chain bc) = Some prev → linked prev b →
  bc_chain bc' = kept_window (bc_chain bc) ++ [b] → chain_inv bc'.
Proof.
  intros [Hne Hsz Hl] Hlast Hb E. rewrite last_lookup in Hlast.
  assert (Hk : length (kept_window (bc_chain bc))
    = (length (bc_chain bc) - (S (length (bc_chain bc)) - CHAIN_WINDOW_SIZE))%nat).
  { apply length_drop. }
  split; rewrite E.
  - by destruct (kept_window (bc_chain bc)).
  - rewrite length_app, Hk. simpl. unfold CHAIN_WINDOW_SIZE. lia.
  - intros i x y Hx Hy. apply lookup_kept_snoc in Hx as [[-> Hi]|[Hx Hi]].
    { apply lookup_lt_Some in Hy. rewrite length_app in Hy. simpl in Hy. lia. }
    apply lookup_kept_snoc in Hy as [[-> Hi']|[Hy Hi']].
    + replace (_ + i)%nat with (pred (length (bc_chain bc))) in Hx by lia. congruence.
    + eapply Hl; [exact Hx|]. by rewrite <-Hy, Nat.add_succ_r.
Qed.

Lemma add_block_extends block src bc bc' :
  chain_inv bc → 0 <= bc_height bc < U64_MAX →
  add_block_with_source cfg block src bc = (bc', Ok tt) →
  chain_inv bc' ∧ bc_height bc' = bc_height bc + 1 ∧ blk_index block = bc_height bc + 1.
Proof.
  intros Hinv Hh Ha. apply add_block_ok in Ha as (bc1 & bc2 & Hp1 & Hp2 & ->).
  apply pass1_ok in Hp1 as (v & prev & cb & -> & Hlast & Hvs & Hts & _).
  apply pass2_effect in Hp2 as (_ & b' & Ec & Hst).
  apply validate_structure_ok in Hvs as (Ei & Ep & Eh & _ & _ & _ & Em).
  change (bc_height (bc <| bc_source_for_current_add := src |>)) with (bc_height bc) in Ei.
  unfold wrapping_add in Ei. rewrite wrap_small in Ei by ulia.
  assert (Hpi : blk_index prev = bc_height bc).
  { unfold bc_height. simpl in Hlast. by rewrite Hlast. }
  assert (Hlk : linked prev b').
  { apply (stamped_linked _ block); [|done]. split; try done; [lia|].
    by apply bool_decide_eq_true_2. }
  assert (Hinv' : chain_inv (bc2 <| bc_source_for_current_add := SelfProduced |>)).
  { by apply (chain_inv_append bc _ prev b'). }
  split; [done|]. split; [|lia].
  unfold bc_height at 1. simpl. simpl in Ec. rewrite Ec, last_snoc. simpl.
  rewrite (li_index _ _ Hlk). lia.
Qed.

(** C13: every committed block, produced here or received, extends the window by
    one height and keeps it a hash-linked, time-ordered, correctly hashed run of
    consecutive blocks of bounded length, whatever the state-root step did to the
    block's header. *)
Theorem add_block_extends_chain block src bc bc' :
  chain_inv bc → 0 <= bc_height bc < U64_MAX →
  add_block_with_source cfg block src bc = (bc', Ok tt) →
  chain_inv bc' ∧ bc_height bc' = bc_height bc + 1 ∧ is_valid_chain_window bc' = true.
Proof.
  intros Hinv Hh Ha. destruct (add_block_extends _ _ _ _ Hinv Hh Ha) as (Hc & Hb & _).
  split_and!; [done..|by apply chain_inv_valid].
Qed.
End executor.
