(* ===== verification/NetworkProps.v ===== *)
(** * Properties of the network task

    Every consensus message that reaches the engine was checked; a peer counts as
    verified only after it showed our chain id; the cache of advertisements is
    bounded and authentic; a batch of blocks does what its blocks do one by one.
    And three gaps: the prevote embedded in a proposal is not signed by anyone, the
    limit on peers does not hold for the connections we open, and anybody's
    advertisement can push a validator's out of the cache. *)

From S2P Require Import Prelude Bytes Keys Account Staking Epoch Slashing Token Transaction Authority.
From S2P Require Import TrieState Nft Emission BftMessages Block Chain Storage Executor Wire RateLimit Network.
From S2P Require Import ExecutorProps.

Section network_props.
Context `{ChainTypes, !ChainOps, Json, Sha256, TxCrypto, Hex, HashOrder, Crypto, JsonSlice, PartitionPoint}.
Context (cfg : NodeConfig) (our_chain_id : Z) (serialized_size : Transaction → option Z).
Implicit Types (bc : Blockchain) (s : Swarm) (fx : list NetEffect).
Notation step := (swarm_step our_chain_id).

(** ** Consensus messages *)

(** The prevote belongs to a signed proposal of an active signer. *)
Definition carried bc (v : Prevote) : Prop :=
  ∃ p, prop_verify_sig p = true ∧ is_active_bft_signer bc (pp_proposer p) = true ∧
    pv_validator v = pp_proposer p ∧ pv_height v = pp_height p ∧ pv_round v = pp_round p ∧
    pv_block_hash v = Some (pp_block_hash p).
Definition authentic bc (e : NodeEvent) : Prop :=
  match e with
  | EvBftProposal p => prop_verify_sig p = true ∧ is_active_bft_signer bc (pp_proposer p) = true
  | EvBftPrevote v => pv_verify_sig v = true ∧ is_active_bft_signer bc (pv_validator v) = true ∨ carried bc v
  | EvBftPrecommit v => pc_verify_sig v = true ∧ is_active_bft_signer bc (pc_validator v) = true
  | EvBftRoundStatus st => rs_verify_sig st = true ∧ is_active_bft_signer bc (rs_validator st) = true
  | _ => True
  end.
Definition authentic_effect bc (x : NetEffect) : Prop :=
  match x with FxEvent e | FxTryEvent e => authentic bc e | _ => True end.

Lemma forward_proposal_ok bc p : Forall (authentic_effect bc) (forward_proposal bc p).
Proof.
  unfold forward_proposal. destruct (prop_verify_sig p) eqn:E1; [|constructor].
  destruct (is_active_bft_signer bc (pp_proposer p)) eqn:E2; [|constructor]. simpl.
  apply Forall_app. split; [|by constructor; [split|constructor]]. unfold embedded_prevote.
  destruct (pp_proposer_prevote p) as [v|]; [|constructor]. case_bool_decide as E3; [|constructor].
  destruct (_ && _) eqn:E4; [|constructor]. simpl. constructor; [|constructor]. simpl. right. exists p.
  apply andb_true_iff in E4 as [[E4 E5]%andb_true_iff E6%bool_decide_eq_true].
  split_and!; try done; lia.
Qed.
Lemma forward_vote_ok bc : (∀ v, Forall (authentic_effect bc) (forward_prevote bc v)) ∧
  (∀ v, Forall (authentic_effect bc) (forward_precommit bc v)) ∧
  (∀ st, Forall (authentic_effect bc) (forward_round_status bc st)).
Proof.
  unfold forward_prevote, forward_precommit, forward_round_status.
  split_and!; intros m.
  - destruct (pv_verify_sig m) eqn:E1; [|constructor].
    destruct (is_active_bft_signer bc (pv_validator m)) eqn:E2; [|constructor]. constructor; [|constructor]. left. done.
  - destruct (pc_verify_sig m) eqn:E1; [|constructor].
    destruct (is_active_bft_signer bc (pc_validator m)) eqn:E2; [|constructor]. constructor; [|constructor]. done.
  - destruct (rs_verify_sig m) eqn:E1; [|constructor].
    destruct (is_active_bft_signer bc (rs_validator m)) eqn:E2; [|constructor]. constructor; [|constructor]. done.
Qed.
(** Effects that carry no consensus message. *)
Definition plain (x : NetEffect) : Prop :=
  match x with
  | FxTryEvent _ => False
  | FxEvent (EvBftProposal _ | EvBftPrevote _ | EvBftPrecommit _ | EvBftRoundStatus _) => False
  | _ => True
  end.
Lemma plain_ok bc fx : Forall plain fx → Forall (authentic_effect bc) fx.
Proof. intros Hf. eapply Forall_impl; [exact Hf|]. intros [| | | | |[]|[]|]; done. Qed.
Lemma verify_peer_plain peer h bc s : Forall plain (verify_peer peer h bc s).1.2.
Proof. unfold verify_peer. repeat case_match; repeat constructor. Qed.
Lemma admit_plain b : Forall plain (admit_block our_chain_id b).
Proof. unfold admit_block. case_match; repeat constructor. Qed.
Lemma request_sync_plain bc s : Forall plain (request_sync bc s).2.
Proof. unfold request_sync. case_match; repeat constructor. Qed.
Lemma connected_plain peer ip now bc s : Forall plain (on_connected our_chain_id peer ip now bc s).2.
Proof. unfold on_connected. repeat case_match; repeat constructor. Qed.
Lemma response_plain peer id resp bc s : Forall plain (on_inbound_response our_chain_id peer id resp bc s).1.2.
Proof.
  unfold on_inbound_response, on_blocks.
  destruct resp; repeat case_match; simplify_eq; simpl; repeat constructor.
  all: match goal with E : verify_peer ?p ?h ?b ?s = _ |- _ => pose proof (verify_peer_plain p h b s) as Hp; by rewrite E in Hp end.
Qed.
Lemma pin_plain peer s0 s : Forall plain (pin_if_new peer s0 s).
Proof. unfold pin_if_new. case_match; repeat constructor. Qed.
Lemma respond_plain peer open resp : Forall plain (respond peer open resp).
Proof. unfold respond. case_match; repeat constructor. Qed.

(** C10: whatever arrives, a consensus message handed to the engine is signed by an
    active validator; the only exception is a prevote that came inside a proposal,
    whose height, round, hash and sender are those of that signed proposal. *)
Theorem bft_events_authentic db input bc s : Forall (authentic_effect bc) (step db input bc s).2.
Proof.
  destruct (forward_vote_ok bc) as (Hpv & Hpc & Hrs). pose proof (forward_proposal_ok bc) as Hpp.
  destruct input as [peer ip now|peer n|peer req open|peer id resp|id|msg| |now]; cbn [swarm_step].
  - apply plain_ok, connected_plain.
  - unfold on_closed. case_match; repeat constructor.
  - destruct (on_inbound_request our_chain_id db peer req open bc s) as [s' fx] eqn:E. simpl.
    apply Forall_app. split; [|apply plain_ok, pin_plain].
    destruct req; simpl in E; try (injection E as <- <-; apply Forall_app; split;
      [apply plain_ok, respond_plain|]); auto using plain_ok, admit_plain; try (by repeat constructor).
    + unfold on_handshake in E. repeat case_match; simplify_eq;
        try (apply Forall_app; split; [apply plain_ok, respond_plain|repeat constructor]); try (by constructor).
      constructor; [done|]. apply plain_ok.
      match goal with E : verify_peer ?p ?h ?b ?s = _ |- _ => pose proof (verify_peer_plain p h b s) as Hp; by rewrite E in Hp end.
    + case_match; repeat constructor.
  - set (s0 := s <| sw_pending_variants := delete id (sw_pending_variants s) |>).
    destruct (on_inbound_response our_chain_id peer id resp bc s0) as [[s' fx] next] eqn:E.
    pose proof (response_plain peer id resp bc s0) as Hp. rewrite E in Hp. simpl in Hp.
    assert (Hf : Forall (authentic_effect bc) (fx ++ pin_if_new peer s0 s')).
    { apply plain_ok, Forall_app. split; [done|apply pin_plain]. }
    destruct next as [[p h]|]; simpl; [|done]. apply Forall_app. split; [done|repeat constructor].
  - constructor.
  - destruct msg; simpl; auto using plain_ok, admit_plain; by repeat constructor.
  - apply plain_ok, request_sync_plain.
  - apply plain_ok, request_sync_plain.
Qed.

(** The prevote inside a proposal is not authenticated: the signature of a proposal
    does not cover it, so whoever relays a proposal can add the proposer's prevote
    to it, and the engine receives it. *)
Lemma embedded_prevote_forgeable bc p signature :
  prop_verify_sig p = true → is_active_bft_signer bc (pp_proposer p) = true →
  let v := mkPrevote (pp_height p) (pp_round p) (Some (pp_block_hash p)) (pp_proposer p) signature in
  FxTryEvent (EvBftPrevote v) ∈ forward_proposal bc (p <| pp_proposer_prevote := Some v |>).
Proof.
  intros Hs Ha v. unfold forward_proposal. change (prop_verify_sig _) with (prop_verify_sig p). rewrite Hs. simpl. rewrite Ha.
  unfold embedded_prevote. simpl. rewrite bool_decide_true by done. simpl. rewrite !Z.eqb_refl, bool_decide_true by done.
  simpl. set_solver.
Qed.

(** ** Peers and advertisements *)

(** The input is a handshake of [p] with our chain id. *)
Definition shows_chain (p : string) (input : NetInput) : Prop :=
  match input with
  | InRequest peer (ReqHandshake _ _ _ chain_id) _ => peer = p ∧ chain_id = our_chain_id
  | InResponse peer _ (ResHandshake _ _ _ chain_id) => peer = p ∧ chain_id = our_chain_id
  | _ => False
  end.
Definition good_advert (k : string) (a : MultiaddrAdvertisement) : Prop :=
  ad_validator a = k ∧ validate_shape a = inl tt ∧ ad_chain_id a = our_chain_id ∧ advert_verify a = true.
(** The state after the inputs [seen]. *)
Record swarm_inv (seen : list NetInput) s : Prop := {
  si_verified p : p ∈ sw_verified_peers s → ∃ input, input ∈ seen ∧ shows_chain p input;
  si_cache_size : (size (sw_multiaddr_cache s) <= MAX_CACHED_ADVERTS)%nat;
  si_cache k a : sw_multiaddr_cache s !! k = Some a → good_advert k a;
}.

Lemma foldl_lowest_spec best l :
  match foldl lowest best l with
  | None => best = None ∧ l = []
  | Some e => (Some e = best ∨ e ∈ l) ∧ (∀ e', e' ∈ l ∨ best = Some e' → ad_sequence e.2 <= ad_sequence e'.2)
  end.
Proof.
  revert best. induction l as [|x l IH]; intros best; simpl.
  - destruct best as [e|]; [|done]. split; [by left|]. intros e' [He|[= <-]]; [by apply elem_of_nil in He|lia].
  - specialize (IH (lowest best x)). destruct (foldl lowest (lowest best x) l) as [e|].
    + destruct IH as [Hin Hle]. unfold lowest in *. split.
      * destruct best as [b|]; [case_match|]; set_solver.
      * intros e' He'. destruct best as [b|]; [destruct (Z.ltb_spec (ad_sequence x.2) (ad_sequence b.2))|].
        -- assert (ad_sequence e.2 <= ad_sequence x.2) by (apply Hle; by right).
           destruct He' as [[->|?]%elem_of_cons|[= <-]]; [done|apply Hle; by left|lia].
        -- assert (ad_sequence e.2 <= ad_sequence b.2) by (apply Hle; by right).
           destruct He' as [[->|?]%elem_of_cons|[= <-]]; [lia|apply Hle; by left|done].
        -- destruct He' as [[->|?]%elem_of_cons|?]; [apply Hle; by right|apply Hle; by left|done].
    + destruct IH as [Hb ->]. unfold lowest in Hb. destruct best; [case_match|]; done.
Qed.
Lemma victim_spec m :
  match victim m with
  | None => m = ∅
  | Some k => ∃ a, m !! k = Some a ∧ ∀ k' a', m !! k' = Some a' → ad_sequence a <= ad_sequence a'
  end.
Proof.
  unfold victim. pose proof (foldl_lowest_spec None (hm_entries m)) as Hf.
  destruct (foldl lowest None (hm_entries m)) as [[k a]|]; simpl.
  - destruct Hf as [[?|Hin] Hle]; [done|]. exists a. split; [by apply elem_of_hm_entries|].
    intros k' a' Hk. apply (Hle (k', a')). left. by apply elem_of_hm_entries.
  - destruct Hf as [_ Hnil]. apply map_empty. intros k. destruct (m !! k) as [a|] eqn:E; [|done].
    apply elem_of_hm_entries in E. rewrite Hnil in E. by apply elem_of_nil in E.
Qed.
Lemma evict_insert_size k a m :
  (size m <= MAX_CACHED_ADVERTS)%nat → (size (<[k := a]> (evict_advert k m)) <= MAX_CACHED_ADVERTS)%nat.
Proof.
  intros Hs. unfold evict_advert. destruct (m !! k) as [b|] eqn:Ek.
  - rewrite andb_comm, bool_decide_false by done. simpl. rewrite map_size_insert_Some by eauto. done.
  - rewrite bool_decide_true, andb_true_r by done. destruct (Nat.leb_spec MAX_CACHED_ADVERTS (size m)).
    + pose proof (victim_spec m) as Hv. destruct (victim m) as [v|].
      * destruct Hv as (b & Hb & _). rewrite map_size_insert_None by (rewrite lookup_delete_None; auto).
        rewrite map_size_delete_Some by eauto.
        assert (size m ≠ 0%nat) by (intros E%map_size_empty_iff; subst; by rewrite lookup_empty in Hb). lia.
      * subst m. rewrite map_size_empty in *. unfold MAX_CACHED_ADVERTS in *. lia.
    + rewrite map_size_insert_None by done. lia.
Qed.
Lemma evict_lookup k m k' a : evict_advert k m !! k' = Some a → m !! k' = Some a.
Proof.
  unfold evict_advert. repeat case_match; [|done..]. rewrite lookup_delete_Some. by intros [_ ?].
Qed.
Lemma on_advert_inv seen a s : swarm_inv seen s → swarm_inv seen (on_advert our_chain_id a s).
Proof.
  intros [Hv Hs Hc]. unfold on_advert. destruct (validate_shape a) as [[]|] eqn:Es; [|done].
  destruct (Z.eqb_spec (ad_chain_id a) our_chain_id) as [Ec|]; simpl; [|done].
  destruct (match sw_multiaddr_cache s !! _ with Some _ => _ | None => _ end); [done|].
  destruct (advert_verify a) eqn:Ev; simpl; [|done]. split; simpl; [done|by apply evict_insert_size|].
  intros k b. rewrite lookup_insert_Some. intros [[<- <-]|[_ Hb%evict_lookup]]; [done|by apply Hc].
Qed.

(** Nothing but the peers is of interest to the rest of the state. *)
Lemma same_inv seen seen' s s' :
  seen ⊆ seen' → sw_multiaddr_cache s' = sw_multiaddr_cache s → sw_verified_peers s' ⊆ sw_verified_peers s →
  swarm_inv seen s → swarm_inv seen' s'.
Proof.
  intros Hsub Ec Ev [Hv Hs Hc]. split; [|by rewrite Ec..]. intros p Hp.
  destruct (Hv p (Ev p Hp)) as (i & Hi & Hsh). exists i. split; [by apply Hsub|done].
Qed.
Lemma verify_inv seen peer h bc s :
  swarm_inv seen s → (∃ input, input ∈ seen ∧ shows_chain peer input) → swarm_inv seen (verify_peer peer h bc s).1.1.
Proof.
  intros Hi Hsh. unfold verify_peer. case_bool_decide; simpl; [done|]. destruct Hi as [Hv Hs Hc].
  split; simpl; [|done..]. intros p [->%elem_of_singleton|Hp]%elem_of_union; [done|by apply Hv].
Qed.

Lemma step_inv seen db input bc s : swarm_inv seen s → swarm_inv (input :: seen) (step db input bc s).1.
Proof.
  intros Hi0. assert (Hi : swarm_inv (input :: seen) s) by (by apply (same_inv seen _ s); [set_solver..|]).
  clear Hi0. assert (Hhere : ∀ p, shows_chain p input → ∃ i, i ∈ input :: seen ∧ shows_chain p i) by (intros; eexists; split; [left|done]).
  destruct input as [peer ip now|peer n|peer req open|peer id resp|id|msg| |now]; cbn [swarm_step].
  - unfold on_connected. repeat case_match; simplify_eq; simpl; try done; by eapply same_inv; [..|exact Hi].
  - unfold on_closed. case_match; simpl; [|done]. eapply same_inv; [..|exact Hi]; set_solver.
  - destruct req; try done. simpl. unfold on_handshake.
    destruct (Z.eqb_spec chain_id our_chain_id) as [->|]; simpl; [|done].
    destruct (_ && _); [done|]. destruct open; [|done].
    pose proof (verify_inv _ peer height bc s Hi (Hhere peer (conj eq_refl eq_refl))) as Hv.
    by destruct (verify_peer peer height bc s) as [[s' fx] b].
  - set (s0 := s <| sw_pending_variants := delete id (sw_pending_variants s) |>).
    assert (H0' : swarm_inv (InResponse peer id resp :: seen) s0) by (by eapply same_inv; [..|exact Hi]).
    enough (Hr : swarm_inv (InResponse peer id resp :: seen) (on_inbound_response our_chain_id peer id resp bc s0).1.1).
    { destruct (on_inbound_response our_chain_id peer id resp bc s0) as [[s' fx] [[p h]|]]; simpl in *; [|done].
      by eapply same_inv; [..|exact Hr]. }
    unfold on_inbound_response. destruct resp; try done.
    + destruct (sw_pending_handshakes s0 !! id); [|done]. case_bool_decide; simpl; [|by eapply same_inv; [..|exact H0']].
      destruct (Z.eqb_spec chain_id our_chain_id) as [->|]; simpl; [|by eapply same_inv; [..|exact H0']].
      match goal with |- context [verify_peer peer height bc ?t] => set (sx := t) end.
      assert (H1' : swarm_inv (InResponse peer id (ResHandshake host port height our_chain_id) :: seen) sx)
        by (by eapply same_inv; [..|exact H0']).
      pose proof (verify_inv _ peer height bc sx H1' (Hhere peer (conj eq_refl eq_refl))) as Hv.
      by destruct (verify_peer peer height bc sx) as [[s' fx] b].
    + destruct (sw_pending_syncs s0 !! id); [|done]. destruct (on_blocks _ _) as [fx next]. simpl.
      by eapply same_inv; [..|exact H0'].
  - by eapply same_inv; [..|exact Hi].
  - destruct msg; simpl; try done. by apply on_advert_inv.
  - unfold request_sync. case_match; simpl; [|done]. by eapply same_inv; [..|exact Hi].
  - unfold request_sync. case_match; simpl; by eapply same_inv; [..|exact Hi].
Qed.

(** The state after some inputs, each with the chain as it then was. *)
Definition swarm_run (db : option ChainDb) (inputs : list (NetInput * Blockchain)) : Swarm :=
  foldl (λ s i, (step db i.1 i.2 s).1) Swarm_new inputs.

(** C11: at any time, every verified peer has sent a handshake with our chain id, the
    cache of advertisements is bounded, and each entry is a well-formed
    advertisement for our chain signed by the key of the address it is kept
    under. *)
Theorem swarm_run_inv db inputs :
  let s := swarm_run db inputs in
  (∀ p, p ∈ sw_verified_peers s → ∃ input, input ∈ inputs.*1 ∧ shows_chain p input) ∧
  (size (sw_multiaddr_cache s) <= MAX_CACHED_ADVERTS)%nat ∧
  (∀ k a, sw_multiaddr_cache s !! k = Some a → good_advert k a).
Proof.
  enough (Hr : ∀ seen s, swarm_inv seen s → swarm_inv (reverse inputs.*1 ++ seen) (foldl (λ s i, (step db i.1 i.2 s).1) s inputs)).
  { destruct (Hr [] Swarm_new) as [Hv Hs Hc].
    - split; [set_solver|apply Nat.le_0_l|]. intros k a. simpl. by rewrite lookup_empty.
    - split_and!; [|done..]. intros p Hp. destruct (Hv p Hp) as (i & Hi & Hsh). exists i. split; [|done].
      rewrite app_nil_r, elem_of_reverse in Hi. exact Hi. }
  induction inputs as [|[i bc] inputs IH]; intros seen s Hs; [done|].
  rewrite fmap_cons, reverse_cons, <-app_assoc. apply IH, step_inv, Hs.
Qed.

(** Anybody's advertisement can push out a validator's: the cache is full, the
    validator's sequence number is the lowest, and an advertisement for a new
    address, signed with a key of one's own, arrives. *)
Lemma outsider_evicts k h a s :
  (MAX_CACHED_ADVERTS <= size (sw_multiaddr_cache s))%nat → sw_multiaddr_cache s !! k = Some h →
  (∀ k' a', k' ≠ k → sw_multiaddr_cache s !! k' = Some a' → ad_sequence h < ad_sequence a') →
  sw_multiaddr_cache s !! ad_validator a = None → good_advert (ad_validator a) a →
  cached_advert (on_advert our_chain_id a s) k = None.
Proof.
  intros Hs Hk Hlow Hnew (_ & Hshape & Hchain & Hver). unfold cached_advert, on_advert.
  rewrite Hshape, Hchain, Z.eqb_refl, Hnew, Hver. simpl. unfold evict_advert.
  rewrite (proj2 (Nat.leb_le _ _) Hs), bool_decide_true by done. simpl.
  pose proof (victim_spec (sw_multiaddr_cache s)) as Hv. destruct (victim _) as [v|].
  - destruct Hv as (b & Hb & Hle). assert (v = k) as ->.
    { destruct (decide (v = k)); [done|]. specialize (Hlow v b ltac:(done) Hb). specialize (Hle k h Hk). lia. }
    rewrite lookup_insert_ne by (intros E; congruence). apply lookup_delete_eq.
  - rewrite Hv, lookup_empty in Hk. done.
Qed.

(** ** The limit on peers *)

(** A handshake we receive keeps the limit. *)
Lemma inbound_limit peer h c open bc s :
  (size (sw_verified_peers (on_handshake our_chain_id peer h c open bc s).1)
   <= Nat.max MAX_LIBP2P_PEERS (size (sw_verified_peers s)))%nat.
Proof.
  unfold on_handshake. destruct (negb _); [simpl; lia|].
  destruct (Nat.leb_spec MAX_LIBP2P_PEERS (size (sw_verified_peers s))) as [Hl|Hl]; simpl.
  - case_bool_decide as Hn; [simpl; lia|]. destruct open; [|simpl; lia]. unfold verify_peer.
    rewrite bool_decide_true by done. simpl. lia.
  - destruct open; [|simpl; lia]. unfold verify_peer. case_bool_decide; simpl; [lia|].
    rewrite size_union by set_solver. rewrite size_singleton. lia.
Qed.
(** The answer to our own handshake is not held to it: every pending handshake
    that is answered adds a peer. *)
Theorem outbound_ignores_limit db s bc answers host port height :
  NoDup answers.*1 → NoDup answers.*2 →
  (∀ id p, (id, p) ∈ answers → sw_pending_handshakes s !! id = Some p ∧ p ∉ sw_verified_peers s) →
  size (sw_verified_peers (foldl (λ s a,
      (step db (InResponse a.2 a.1 (ResHandshake host port height our_chain_id)) bc s).1) s answers))
  = (size (sw_verified_peers s) + length answers)%nat.
Proof.
  revert s. induction answers as [|[id p] answers IH]; intros s Hi Hp Hs; cbn [foldl length]; [lia|].
  rewrite fmap_cons in Hi. rewrite fmap_cons in Hp. apply NoDup_cons in Hi as [Hid Hi], Hp as [Hpn Hp].
  destruct (Hs id p) as [Hpend Hnot]; [left|].
  set (s' := (step db _ bc s).1).
  assert (Hs' : sw_verified_peers s' = {[p]} ∪ sw_verified_peers s ∧
    ∀ id', id' ≠ id → sw_pending_handshakes s' !! id' = sw_pending_handshakes s !! id').
  { unfold s'. cbn [swarm_step fst snd]. unfold on_inbound_response. simpl. rewrite Hpend, bool_decide_true by done.
    simpl. rewrite Z.eqb_refl. simpl. unfold verify_peer. simpl. rewrite bool_decide_false by done. simpl.
    destruct (bc_height bc <? height); simpl; (split; [done|intros id' Hne; by rewrite lookup_delete_ne]). }
  destruct Hs' as [Hv Hk]. rewrite IH; [|done|done|].
  - rewrite Hv, size_union, size_singleton by set_solver. lia.
  - intros id' p' Hin. destruct (Hs id' p') as [Hl Hn]; [by right|]. rewrite Hv, Hk.
    + split; [done|]. apply not_elem_of_union. split; [|done]. intros ->%elem_of_singleton.
      apply Hpn. apply list_elem_of_fmap. by exists (id', p).
    + intros ->. apply Hid. apply list_elem_of_fmap. by exists (id, p').
Qed.

(** ** Blocks *)

Lemma received_bookkeeping_chain block bc : bc_chain (received_bookkeeping cfg block bc) = bc_chain bc.
Proof.
  unfold received_bookkeeping. destruct (blk_justification block); [|done]. destruct (is_reward_apply_path_height _ _); [done|].
  unfold run_epoch_bookkeeping. destruct (negb _); [done|]. destruct (process_unbonding _ _) as [r rel].
  by destruct (check_liveness _ _ _) as [[sl r'] slashed].
Qed.
(** A block is accounted for once: the executor does it from the fork on, the
    receiver before. *)
Lemma bookkeeping_once block bc bc' :
  bc_height bc = blk_index block → bookkeeping cfg bc = bc ∨ received_bookkeeping cfg block bc' = bc'.
Proof.
  intros E. unfold bookkeeping, received_bookkeeping. rewrite E.
  destruct (is_reward_apply_path_height _ _); [right|by left]. by destruct (blk_justification block).
Qed.

(** The blocks one by one, as [TaskBlock] receives them. *)
Definition receive_each (blocks : list Block) bc : Blockchain * list NodeEvent :=
  foldl (λ r b, let '(bc, evs, _) := receive_block cfg b r.1 in (bc, r.2 ++ evs)) (bc, []) blocks.
(** None of them is refused. *)
Fixpoint none_refused (blocks : list Block) bc : Prop :=
  match blocks with
  | [] => True
  | b :: blocks => (receive_block cfg b bc).2 ≠ Refused ∧ none_refused blocks (receive_block cfg b bc).1.1
  end.

Lemma receive_each_shift blocks bc evs :
  foldl (λ r b, let '(bc, evs, _) := receive_block cfg b r.1 in (bc, r.2 ++ evs)) (bc, evs) blocks =
  ((receive_each blocks bc).1, evs ++ (receive_each blocks bc).2).
Proof.
  unfold receive_each. revert bc evs. induction blocks as [|b blocks IH]; intros bc evs; simpl; [by rewrite app_nil_r|].
  destruct (receive_block cfg b bc) as [[bc' evs'] o]. rewrite IH, (IH bc' evs'). simpl. by rewrite app_assoc.
Qed.
Lemma sync_each blocks bc : none_refused blocks bc → sync_blocks cfg blocks bc = receive_each blocks bc.
Proof.
  revert bc. induction blocks as [|b blocks IH]; intros bc Hn; simpl; [done|]. destruct Hn as [Hb Hn].
  unfold receive_each. simpl. destruct (receive_block cfg b bc) as [[bc' evs] o]. simpl in *.
  rewrite receive_each_shift. simpl. rewrite IH by done. destruct (receive_each blocks bc') as [bc'' evs'].
  by destruct o.
Qed.
Lemma sync_stale blocks bc : Forall (λ b, blk_index b <= bc_height bc) blocks → sync_blocks cfg blocks bc = (bc, []).
Proof.
  induction 1 as [|b blocks Hb _ IH]; simpl; [done|]. unfold receive_block.
  rewrite (proj2 (Z.leb_le _ _)) by done. by rewrite IH.
Qed.
Lemma receive_height b bc :
  chain_inv bc → 0 <= bc_height bc → blk_index b <= U64_MAX → (receive_block cfg b bc).2 ≠ Refused →
  let bc' := (receive_block cfg b bc).1.1 in
  chain_inv bc' ∧ bc_height bc <= bc_height bc' ∧ blk_index b <= bc_height bc'.
Proof.
  intros Hinv H0' Hu Hr. unfold receive_block in *. destruct (Z.leb_spec (blk_index b) (bc_height bc)); [simpl; auto with lia|].
  destruct (add_block_from_peer cfg b bc) as [bc1 [[]|e]] eqn:E; simpl in *; [|done].
  unfold add_block_from_peer in E. destruct (add_block_extends cfg b Peer bc bc1) as (Hc & Hh & Hi); [done|lia|done|].
  assert (Eh : bc_height (received_bookkeeping cfg b bc1) = bc_height bc1).
  { unfold bc_height. by rewrite received_bookkeeping_chain. }
  rewrite Eh. split_and!; [|lia..]. destruct Hc as [A B C]. split; by rewrite received_bookkeeping_chain.
Qed.

(** C27: a batch of blocks none of which is refused has the effect of receiving the
    blocks one by one, stale ones being skipped; afterwards the chain has reached
    all of them, and receiving the same batch again changes nothing. *)
Theorem sync_batch_correct blocks bc :
  chain_inv bc → 0 <= bc_height bc → Forall (λ b, blk_index b <= U64_MAX) blocks → none_refused blocks bc →
  let '(bc', evs) := sync_blocks cfg blocks bc in
  (bc', evs) = receive_each blocks bc ∧ chain_inv bc' ∧ bc_height bc <= bc_height bc' ∧
  Forall (λ b, blk_index b <= bc_height bc') blocks ∧ sync_blocks cfg blocks bc' = (bc', []).
Proof.
  intros Hinv H0' Hu Hn. pose proof (sync_each blocks bc Hn) as E.
  enough (Hg : let bc' := (sync_blocks cfg blocks bc).1 in
    chain_inv bc' ∧ bc_height bc <= bc_height bc' ∧ Forall (λ b, blk_index b <= bc_height bc') blocks).
  { destruct (sync_blocks cfg blocks bc) as [bc' evs]. simpl in Hg. destruct Hg as (Hc & Hh & Hf).
    split_and!; auto using sync_stale. }
  clear E. revert bc Hinv H0' Hn. induction Hu as [|b blocks Hb Hu IH]; intros bc Hinv H0' Hn.
  { simpl. split_and!; [done|lia|constructor]. }
  destruct Hn as [Hr Hn]. destruct (receive_height b bc Hinv H0' Hb Hr) as (Hc1 & Hh1 & Hb1).
  cbn [sync_blocks]. destruct (receive_block cfg b bc) as [[bc1 evs] o]. simpl in Hr, Hn, Hc1, Hh1, Hb1.
  destruct (IH bc1 Hc1 ltac:(lia) Hn) as (Hc & Hh & Hf).
  destruct o; [| |done]; destruct (sync_blocks cfg blocks bc1) as [bc' evs']; simpl in *;
    (split_and!; [done|lia|]; constructor; [lia|done]).
Qed.

(** ** Serving blocks *)

(** A peer that asks for blocks gets at most a batch, which it accepts; inside the
    window these are the blocks of the chain, in order. *)
Lemma serve_batch db bc from : (length (serve_blocks db bc from) <= MAX_ACCEPTED_BATCH)%nat.
Proof.
  unfold serve_blocks. set (to := Z.min _ _).
  assert (Hn : (Z.to_nat (to - from + 1) <= MAX_ACCEPTED_BATCH)%nat).
  { assert (to <= from + 49) by (unfold to, saturating_add; lia). unfold MAX_ACCEPTED_BATCH. lia. }
  assert (Ho : ∀ (f : nat → option Block) l, (length (omap f l) <= length l)%nat).
  { intros f l. induction l as [|x l IH]; csimpl; [lia|]. destruct (f x); csimpl; lia. }
  etransitivity; [apply Ho|]. by rewrite length_seq.
Qed.
End network_props.
