(* ===== verification/ExecutorValue.v ===== *)
(** * The value a block moves

    What a block does to the accounts, from its transactions to the bookkeeping
    of an epoch and the treasury overrides, and why Pass 1 is enough for
    ordinary payments: a block that Pass 1 accepts executes. *)

From S2P Require Import Prelude Bytes Account Staking Epoch Slashing Token.
From S2P Require Import Merkle Transaction TransactionProps Authority Emission.
From S2P Require Import BftMessages Block Chain MempoolProps Justify Executor ExecutorProps.
From S2P Require Import Trie TrieTree TrieRefine TrieTheorems TrieGc TrieState ChainTrie.

Section value.
Context `{ChainTypes, !ChainOps, Json, Sha256, TxCrypto, Hex, HashOrder, Crypto}.
Context (cfg : NodeConfig).
Implicit Types bc : Blockchain.

(** ** Which steps touch the accounts *)

Lemma on_accounts_ok {A} (m : st AccountDB A) bc bc' a :
  on_accounts m bc = (bc', Ok a) →
  m (bc_accounts bc) = (bc_accounts bc', Ok a) ∧ bc' = bc <| bc_accounts := bc_accounts bc' |>.
Proof. unfold on_accounts. destruct (m _) as [db r]. by intros [= <- ->]. Qed.

Lemma accounts_on_contracts {A} (m : st ContractRegistry A) : keeps bc_accounts (on_contracts m).
Proof. intros bc. unfold on_contracts. by destruct (m _). Qed.
Lemma accounts_on_nft {A} (m : st NftRegistry A) : keeps bc_accounts (on_nft m).
Proof. intros bc. unfold on_nft. by destruct (m _). Qed.
Lemma accounts_on_stake {A} (m : st StakeRegistry A) : keeps bc_accounts (on_stake m).
Proof. intros bc. unfold on_stake. by destruct (m _). Qed.
Lemma accounts_on_world {A} (m : st world A) : keeps bc_accounts (on_world m).
Proof. intros bc. unfold on_world. by destruct (m _). Qed.
Hint Resolve accounts_on_contracts accounts_on_nft accounts_on_stake accounts_on_world : frame.

Lemma keeps_ok {S X A} (f : S → X) (m : st S A) s s' r : keeps f m → m s = (s', r) → f s' = f s.
Proof. intros Hk E. specialize (Hk s). by rewrite E in Hk. Qed.

Lemma accounts_token_op block tx op : keeps bc_accounts (apply_token_op cfg block tx op).
Proof. destruct op; simpl; frame. Qed.

Lemma jail_cited_accounts ev bc : bc_accounts (jail_cited ev bc) = bc_accounts bc.
Proof. unfold jail_cited. by destruct (jail _ _ _ _) as [r [[]|e]]. Qed.
Lemma accounts_jail_bundle epoch ev claimed :
  keeps bc_accounts (apply_jail_bundle cfg epoch ev claimed).
Proof.
  unfold apply_jail_bundle. repeat (apply keeps_bind; [frame|intros ?]).
  apply keeps_modify. intros bc. revert bc. induction ev as [|e ev IH]; intros bc; [done|].
  simpl. by rewrite IH, jail_cited_accounts.
Qed.

(** A staking operation leaves the accounts alone, or pays a reward claim out of
    the treasury. *)
Lemma staking_op_accounts block tx op bc bc' :
  apply_staking_op cfg block tx op bc = (bc', Ok tt) →
  bc_accounts bc' = bc_accounts bc ∨
  ∃ x, 0 < x ∧ transfer PROTOCOL_TREASURY (tx_from tx) x 0 (bc_accounts bc) = (bc_accounts bc', Ok tt).
Proof.
  unfold apply_staking_op. intros Hs. apply st_bind_ok in Hs as ([] & b0 & Hf & Hs).
  apply fail_if_ok in Hf as [_ ->].
  destruct op; try (left; revert Hs; apply keeps_ok; unfold require_amount;
    first [apply accounts_jail_bundle | frame; fail]).
  unfold claim_rewards in Hs. apply st_bind_ok in Hs as (b1 & b2 & Hg & Hs).
  apply gets_ok in Hg as [-> ->]. destruct (0 <? _) eqn:Hx; [right|left].
  - bool_hyps. inv_ok Hs. apply on_accounts_ok in Hs0 as [Ht _]. destruct x. eauto.
  - by injection Hs as <-.
Qed.

(** ** The supply *)

(** A transaction the native path pays for: amounts are [u64]s and the EVM does
    not run. *)
Definition native_tx (tx : Transaction) : Prop :=
  is_evm_tx tx = false ∧ in_u64 (tx_amount tx) ∧ in_u64 (tx_fee tx).
Definition fee_of (tx : Transaction) : Z := if is_system_tx tx then 0 else tx_fee tx.
Definition burn_of (tx : Transaction) : Z := if is_system_tx tx then 0 else div_ceil (tx_fee tx) 2.

Lemma burn_of_nonneg tx : native_tx tx → 0 <= burn_of tx.
Proof.
  intros (_ & _ & Hf). unfold burn_of. destruct (is_system_tx tx); [lia|].
  apply div_ceil_nonneg; ulia.
Qed.

Lemma apply_native_value tx fee bc bc' fee' :
  native_tx tx → in_u64 (total_burned (bc_accounts bc)) →
  apply_native tx fee bc = (bc', Ok fee') →
  fee' = fee + fee_of tx ∧
  supply (bc_accounts bc') = supply (bc_accounts bc) - fee_of tx ∧
  total_burned (bc_accounts bc') = saturating_add U64_MAX (total_burned (bc_accounts bc)) (burn_of tx).
Proof.
  intros (Hevm & Ha & Hf) Hb. unfold apply_native, fee_of, burn_of. rewrite Hevm.
  destruct (is_system_tx tx).
  - intros [= <- <-]. split_and!; [lia..|]. ulia.
  - intros Hm. inv_ok Hm. apply ok_or_ok in Hm as [Hfee ->]. bool_hyps.
    destruct x. apply on_accounts_ok in Hs as [Ht _].
    apply transfer_effect in Ht as (_ & _ & Hsu & Hbu); [done|ulia..].
Qed.

Lemma apply_tx_value block tx fee bc bc' fee' :
  native_tx tx → in_u64 (total_burned (bc_accounts bc)) →
  apply_tx cfg block tx fee bc = (bc', Ok fee') →
  fee' = fee + fee_of tx ∧
  supply (bc_accounts bc') = supply (bc_accounts bc) - fee_of tx ∧
  total_burned (bc_accounts bc') = saturating_add U64_MAX (total_burned (bc_accounts bc)) (burn_of tx).
Proof.
  intros Hn Hb Ht. unfold apply_tx in Ht. destruct (Hn) as (Hevm & _). rewrite Hevm in Ht.
  apply st_bind_ok in Ht as (f1 & b1 & T1 & Ht). apply st_bind_ok in Ht as ([] & b2 & T2 & Ht).
  apply st_bind_ok in Ht as ([] & b3 & T3 & Ht). assert (bc' = b3 ∧ fee' = f1) as [-> ->].
  { unfold_st Ht. simpl in Ht. by injection Ht as <- <-. }
  apply apply_native_value in T1 as (-> & Hs1 & Hb1); [|done..].
  assert (E2 : bc_accounts b2 = bc_accounts b1).
  { revert T2. apply keeps_ok. destruct (token_op_decode _); [apply accounts_token_op|frame]. }
  destruct (is_reward_v2_height _ _); [|injection T3 as <-; by rewrite E2].
  destruct (staking_op_decode _); [|injection T3 as <-; by rewrite E2].
  apply staking_op_accounts in T3 as [E3|(x & Hx & E3)]; [by rewrite E3, E2|].
  apply transfer_effect in E3 as (_ & _ & Hs3 & Hb3); [|lia..]. rewrite Hs3, Hb3, E2, Hs1, Hb1.
  split_and!; [done|lia|]. unfold saturating_add. change (div_ceil 0 2) with 0. lia.
Qed.

Lemma apply_txs_value block txs fee bc bc' fee' :
  Forall native_tx txs → in_u64 (total_burned (bc_accounts bc)) →
  apply_txs cfg block txs fee bc = (bc', Ok fee') →
  fee' = fee + sum_of fee_of txs ∧
  supply (bc_accounts bc') = supply (bc_accounts bc) - sum_of fee_of txs ∧
  total_burned (bc_accounts bc')
    = saturating_add U64_MAX (total_burned (bc_accounts bc)) (sum_of burn_of txs).
Proof.
  intros Hn. revert fee bc. induction Hn as [|tx txs Htx Hn IH]; intros fee bc Hb Ht; simpl in Ht.
  - injection Ht as <- <-. rewrite !sum_of_nil. split_and!; [lia..|]. ulia.
  - apply st_bind_ok in Ht as (f1 & b1 & T1 & Ht). rewrite !sum_of_cons.
    apply apply_tx_value in T1 as (-> & Hs1 & Hb1); [|done..].
    pose proof (burn_of_nonneg tx Htx).
    assert (0 <= sum_of burn_of txs).
    { apply sum_of_nonneg. intros t Ht'. rewrite Forall_forall in Hn. by apply burn_of_nonneg, Hn. }
    apply IH in Ht as (-> & -> & ->); [|rewrite Hb1; ulia]. rewrite Hs1, Hb1.
    split_and!; [lia..|]. unfold saturating_add. lia.
Qed.

Definition coinbase_recipient (block : Block) : string :=
  if is_reward_v2_height (cfg_forks cfg) (blk_index block) then PROTOCOL_TREASURY
  else blk_validator block.

Lemma apply_coinbase_ok block x bc bc' :
  apply_coinbase cfg block x bc = (bc', Ok tt) →
  credit (coinbase_recipient block) x (bc_accounts bc) = (bc_accounts bc', Ok tt).
Proof.
  unfold apply_coinbase, coinbase_recipient. intros T3.
  apply st_bind_ok in T3 as ([] & b6 & T6 & T3).
  assert (Ea : bc_accounts b6 = bc_accounts bc).
  { destruct (_ && _) in T6; by injection T6 as <-. }
  inv_ok T3. destruct x0. apply on_accounts_ok in Hs as [T7 _]. by rewrite <-Ea.
Qed.

(** The transactions of a block change the money by its reward less the rounded-up
    half of its total fee; transfers, token operations, staking and reward claims
    conserve it. *)
Lemma execute_value block bc bc' cb :
  Forall native_tx (tail (blk_transactions block)) → in_u64 (total_burned (bc_accounts bc)) →
  coinbase block = Some cb → execute_block cfg block bc = (bc', Ok tt) →
  let fees := sum_of fee_of (tail (blk_transactions block)) in
  supply (bc_accounts bc') = supply (bc_accounts bc) + tx_amount cb - div_ceil fees 2 ∧
  total_burned (bc_accounts bc') = saturating_add U64_MAX (total_burned (bc_accounts bc))
    (sum_of burn_of (tail (blk_transactions block))) ∧
  div_ceil fees 2 <= sum_of burn_of (tail (blk_transactions block)).
Proof.
  intros Hn Hb Hcb Hx fees. unfold execute_block in Hx. rewrite Hcb in Hx.
  apply st_bind_ok in Hx as ([] & b1 & T1 & Hx). apply modify_ok in T1 as ->.
  apply st_bind_ok in Hx as (c & b2 & T2 & Hx). injection T2 as <- <-.
  apply st_bind_ok in Hx as ([] & b3 & T3 & Hx). apply st_bind_ok in Hx as (f & b4 & T4 & Hx).
  apply st_bind_ok in Hx as ([] & b5 & T5 & Hx). apply modify_ok in Hx as ->.
  apply apply_coinbase_ok in T3 as (_ & _ & Es3 & Eb3)%credit_effect.
  change (supply (bc_accounts b3) = supply (bc_accounts bc) + tx_amount cb) in Es3.
  change (total_burned (bc_accounts b3) = total_burned (bc_accounts bc)) in Eb3.
  apply apply_txs_value in T4 as (-> & Es4 & Eb4); [|done|by rewrite Eb3].
  assert (Hf : ∀ t, t ∈ tail (blk_transactions block) → 0 <= fee_of t ∧ burn_of t = div_ceil (fee_of t) 2).
  { intros t Ht. rewrite Forall_forall in Hn. destruct (Hn t Ht) as (_ & _ & Hf).
    unfold fee_of, burn_of. destruct (is_system_tx t); [done|]. split; [ulia|done]. }
  assert (Hle : div_ceil fees 2 <= sum_of burn_of (tail (blk_transactions block))).
  { unfold fees. clear -Hf. induction (tail (blk_transactions block)) as [|t l IH]; [done|].
    rewrite !sum_of_cons. destruct (Hf t ltac:(set_solver)) as [? ->].
    specialize (IH ltac:(set_solver)). rewrite !div_ceil_2 in *. Z.div_mod_to_equations; lia. }
  fold fees in Es4, T5. rewrite Z.add_0_l in T5. unfold pay_fee_share in T5.
  assert (0 <= fees) by (apply sum_of_nonneg; intros t Ht; by apply Hf).
  rewrite !div_ceil_2 in *. simpl.
  destruct (0 <? _) eqn:E; bool_hyps.
  - apply on_accounts_ok in T5 as [T5 _]. apply credit_effect in T5 as (_ & _ & -> & ->).
    rewrite Eb4, Eb3. split_and!; [lia|done|done].
  - injection T5 as <-. rewrite Eb4, Eb3. split_and!; [|done|done].
    rewrite Es4, Es3. Z.div_mod_to_equations; lia.
Qed.

(** ** The bookkeeping *)

(** What ends an epoch at this block: the unbondings released, and the slashes. *)
Definition epoch_flow (block : Block) (mid : Blockchain) : list (string * Z) * list (string * Z) :=
  let bc := apply_reward_bookkeeping cfg (append_block block (settle_mempool cfg block mid)) in
  if is_reward_apply_path_height (cfg_forks cfg) (blk_index block) && is_epoch_boundary (blk_index block) then
    let '(r, released) := process_unbonding (blk_index block) (bc_stake_registry bc) in
    let r := update_active_set r in
    (released, (check_liveness (active_set r) (blk_index block) (bc_slashing bc, r)).2)
  else ([], []).
(** The accounts once the unbondings are paid. *)
Definition after_release (height : Z) (db : AccountDB) (released : list (string * Z)) : AccountDB :=
  foldl (release_unbonding cfg height) db released.

(** What paying one unbonding adds to the money: nothing when the treasury pays,
    unless the transfer fails after the treasury was debited; the amount when it is
    minted, unless the balance would overflow. *)
Definition release_value (height : Z) (db : AccountDB) (p : string * Z) : Z :=
  if is_reward_v2_height (cfg_forks cfg) height then
    if (p.2 <=? U64_MAX) && (p.2 <=? get_balance db PROTOCOL_TREASURY)
       && negb (is_ok (transfer PROTOCOL_TREASURY p.1 p.2 0 db).2)
    then - p.2 else 0
  else if get_balance db p.1 + p.2 <=? U64_MAX then p.2 else 0.
Fixpoint releases_value (height : Z) (db : AccountDB) (released : list (string * Z)) : Z :=
  match released with
  | [] => 0
  | p :: released => release_value height db p + releases_value height (release_unbonding cfg height db p) released
  end.

Lemma settle_accounts block bc : bc_accounts (settle_mempool cfg block bc) = bc_accounts bc.
Proof.
  unfold settle_mempool, prune_mempool, evict_stale_nonce_for_senders.
  case_bool_decide; by rewrite !rebuild_eq.
Qed.
Lemma reward_bookkeeping_accounts bc : bc_accounts (apply_reward_bookkeeping cfg bc) = bc_accounts bc.
Proof. unfold apply_reward_bookkeeping. destruct (last _) as [x|]; [|done]. by destruct (blk_justification x). Qed.
Lemma reward_bookkeeping_height bc : bc_height (apply_reward_bookkeeping cfg bc) = bc_height bc.
Proof.
  unfold bc_height. f_equal. f_equal. f_equal. unfold apply_reward_bookkeeping.
  destruct (last _) as [x|]; [|done]. by destruct (blk_justification x).
Qed.
Lemma append_height block bc : bc_height (append_block block bc) = blk_index block.
Proof. unfold bc_height. by rewrite append_chain, last_snoc. Qed.

Lemma bookkeeping_accounts block mid :
  let flow := epoch_flow block mid in
  bc_accounts (bookkeeping cfg (append_block block (settle_mempool cfg block mid)))
  = foldl (λ db p, burn p.2 db) (after_release (blk_index block) (bc_accounts mid) flow.1) flow.2.
Proof.
  cbv zeta. unfold bookkeeping, epoch_flow, after_release, run_epoch_bookkeeping. rewrite reward_bookkeeping_height, append_height.
  set (b := apply_reward_bookkeeping cfg _).
  assert (Ea : bc_accounts b = bc_accounts mid).
  { unfold b. rewrite reward_bookkeeping_accounts. apply settle_accounts. }
  destruct (is_reward_apply_path_height _ _); cbn [andb]; [|apply settle_accounts].
  destruct (is_epoch_boundary _); cbn [negb]; [|done].
  destruct (process_unbonding _ _) as [r released]. destruct (check_liveness _ _ _) as [[s r'] slashed]. simpl.
  by rewrite Ea.
Qed.

Lemma supply_get_or_create a db : supply (get_or_create a db) = supply db.
Proof. unfold get_or_create. rewrite supply_put, balance_or_new. lia. Qed.
Lemma release_effect height db p :
  supply (release_unbonding cfg height db p) = supply db + release_value height db p ∧
  (in_u64 (total_burned db) → total_burned (release_unbonding cfg height db p) = total_burned db).
Proof.
  unfold release_unbonding, release_value. destruct (is_reward_v2_height _ _); last first.
  { rewrite credit_eq. destruct (_ <=? _); simpl; [|split; [|done]].
    - split; [|done]. rewrite supply_put, supply_touch, get_balance_touch. simpl. lia.
    - rewrite supply_get_or_create, supply_touch. lia. }
  rewrite transfer_eq, Z.add_0_r. destruct (Z.ltb_spec U64_MAX p.2).
  { rewrite (proj2 (Z.leb_gt _ _)) by lia. simpl. split; [lia|done]. }
  rewrite (proj2 (Z.leb_le p.2 U64_MAX)) by lia.
  destruct (Z.ltb_spec (get_balance db PROTOCOL_TREASURY) p.2).
  { rewrite (proj2 (Z.leb_gt _ _)) by lia. simpl. split; [lia|done]. }
  rewrite (proj2 (Z.leb_le p.2 _)) by lia. cbv zeta. cbn [andb].
  destruct (U64_MAX <? _).
  { cbn [fst snd is_ok negb]. split; [|done]. rewrite supply_put, !supply_touch, !get_balance_touch. unfold debited. simpl. lia. }
  rewrite credit_eq. destruct (_ <=? _).
  - cbn [fst snd is_ok negb]. rewrite supply_burn, supply_put, supply_touch, get_balance_touch.
    rewrite supply_put, !supply_touch, !get_balance_touch. unfold debited. simpl. split; [lia|].
    change (div_ceil 0 2) with 0. ulia.
  - cbn [fst snd is_ok negb]. split; [|done]. rewrite supply_get_or_create, supply_touch.
    rewrite supply_put, !supply_touch, !get_balance_touch. unfold debited. simpl. lia.
Qed.
Lemma releases_effect height db released :
  supply (after_release height db released) = supply db + releases_value height db released ∧
  (in_u64 (total_burned db) → total_burned (after_release height db released) = total_burned db).
Proof.
  revert db. induction released as [|p l IH]; intros db; [simpl; split; [lia|done]|]. unfold after_release in *. simpl.
  destruct (release_effect height db p) as [Es Eb]. destruct (IH (release_unbonding cfg height db p)) as [-> Hb].
  rewrite Es. split; [lia|]. intros Hin. rewrite Hb; [by apply Eb|by rewrite Eb].
Qed.

(** The treasury pays in full or not at all. *)
Lemma releases_conserve height db released :
  is_reward_v2_height (cfg_forks cfg) height = true → Forall (λ p, 0 <= p.2) released →
  accounts_wf db → supply db <= U64_MAX →
  get_nonce db PROTOCOL_TREASURY + Z.of_nat (length released) <= U64_MAX →
  releases_value height db released = 0.
Proof.
  intros Hv Hp. revert db. induction Hp as [|p l Hp Hl IH]; intros db Hwf Hs Hn; [done|]. simpl in Hn |- *.
  unfold release_value, release_unbonding. rewrite Hv.
  destruct (transfer PROTOCOL_TREASURY p.1 p.2 0 db) as [db' r] eqn:Et. cbn [fst snd].
  pose proof (transfer_outcome db PROTOCOL_TREASURY p.1 p.2 0 Hwf ltac:(lia) Hs) as Ho. rewrite Et in Ho. cbn [snd] in Ho.
  destruct r as [[]|e]; cbn [is_ok negb] in *; rewrite ?andb_false_r.
  - pose proof (wf_transfer PROTOCOL_TREASURY p.1 p.2 0 db) as Hw. rewrite Et in Hw.
    destruct (proj1 Ho eq_refl) as [Hb _]. pose proof (get_balance_range db PROTOCOL_TREASURY Hwf).
    apply transfer_effect in Et as (_ & En & Es & _); [|lia..].
    apply IH; [apply Hw; [ulia|ulia|done]|lia|]. rewrite En, decide_True by done. lia.
  - pose proof (transfer_failure_atomic db db' PROTOCOL_TREASURY p.1 p.2 0 e Hwf Hs Hp ltac:(lia) ltac:(lia) Et) as ->.
    rewrite IH by (done || lia). destruct (Z.leb_spec p.2 (get_balance db PROTOCOL_TREASURY)); [|by rewrite andb_false_r].
    destruct Ho as [_ Ho]. discriminate Ho. lia.
Qed.

Lemma slashed_burned db slashed :
  supply (foldl (λ db p, burn p.2 db) db slashed) = supply db ∧
  (∀ a, get_balance (foldl (λ db p, burn p.2 db) db slashed) a = get_balance db a) ∧
  total_burned (foldl (λ db (p : string * Z), burn p.2 db) db slashed) = foldl (saturating_add U64_MAX) (total_burned db) slashed.*2.
Proof.
  revert db. induction slashed as [|p l IH]; intros db; [done|]. simpl.
  destruct (IH (burn p.2 db)) as (-> & Hb & ->). split_and!; [done| |done]. intros a. by rewrite Hb.
Qed.

(** ** Pass 1 is enough for payments *)

(** A payment: it carries no operation and is not a system transaction. *)
Definition plain_tx (tx : Transaction) : Prop :=
  is_system_tx tx = false ∧ is_evm_tx tx = false ∧ token_op_decode (tx_data tx) = None ∧
  staking_op_decode (tx_data tx) = None ∧ in_u64 (tx_amount tx) ∧ in_u64 (tx_fee tx).

Definition w_balance (db : AccountDB) (w : Working) (a : string) : Z :=
  default (get_balance db a) (w_balances w !! a).
Definition w_nonce (db : AccountDB) (w : Working) (a : string) : Z :=
  default (get_nonce db a) (w_nonces w !! a).

(** The dry run never overstates what an account can spend, and knows its nonce;
    [left] transactions are still to come. *)
Record simulates (db0 : AccountDB) (w : Working) (db : AccountDB) (fees : Z) (left : nat) : Prop := {
  sim_wf : accounts_wf db;
  sim_supply : supply db + fees <= U64_MAX;
  sim_fees : 0 <= fees;
  sim_balance a : w_balance db0 w a <= get_balance db a;
  sim_nonce a : w_nonce db0 w a = get_nonce db a;
  sim_left a : get_nonce db a + Z.of_nat left <= U64_MAX;
}.

Lemma validate_plain bc tx w w' :
  plain_tx tx → validate_tx cfg bc tx w = (w', Ok tt) →
  let db := bc_accounts bc in
  tx_amount tx + tx_fee tx <= w_balance db w (tx_from tx) ∧
  w_balances w' = <[tx_from tx := w_balance db w (tx_from tx) - (tx_amount tx + tx_fee tx)]> (w_balances w) ∧
  w_nonces w' = <[tx_from tx := wrapping_add U64_MAX (w_nonce db w (tx_from tx)) 1]> (w_nonces w).
Proof.
  intros (Hs & He & Ht & _) Hv. unfold validate_tx in Hv. rewrite Hs, Ht in Hv. inv_ok Hv.
  repeat match goal with Hx : lift_result _ _ = (_, Ok _) |- _ => apply lift_ok in Hx as [? ->] end.
  bool_hyps.
  injection Hs1 as <- _. simpl. unfold w_balance, w_nonce in *. simpl in *. split_and!; try done; lia.
Qed.

Lemma simulates_step bc tx w w' db fees left :
  plain_tx tx → simulates (bc_accounts bc) w db fees (S left) →
  validate_tx cfg bc tx w = (w', Ok tt) →
  ∃ db', transfer (tx_from tx) (tx_to tx) (tx_amount tx) (tx_fee tx) db = (db', Ok tt) ∧
         fees + tx_fee tx <= U64_MAX ∧
         simulates (bc_accounts bc) w' db' (fees + tx_fee tx) left.
Proof.
  intros Hp [Hwf Hsu Hfe Hba Hno Hle] Hv. apply validate_plain in Hv as (Hc & Ewb & Ewn); [|done].
  destruct Hp as (_ & _ & _ & _ & Ha & Hf).
  destruct (transfer (tx_from tx) (tx_to tx) (tx_amount tx) (tx_fee tx) db) as [db' r] eqn:Et.
  pose proof (Hba (tx_from tx)). pose proof (Hle (tx_from tx)).
  assert (Hr : is_ok r = true).
  { pose proof (transfer_outcome db (tx_from tx) (tx_to tx) (tx_amount tx) (tx_fee tx)) as Ho.
    rewrite Et in Ho. apply Ho; first [done|split; lia|lia|ulia]. }
  destruct r as [[]|]; [|done]. exists db'. split; [done|].
  assert (Hwf' : accounts_wf db').
  { pose proof (wf_transfer (tx_from tx) (tx_to tx) (tx_amount tx) (tx_fee tx) db Ha Hf Hwf) as Hw.
    by rewrite Et in Hw. }
  apply transfer_effect in Et as (Eb & En & Es & _); [|ulia..].
  pose proof (supply_nonneg db' Hwf'). split; [lia|]. split; [done|lia|ulia|..].
  - intros a. unfold w_balance. rewrite Ewb, lookup_insert, Eb. specialize (Hba a).
    unfold w_balance in *. repeat case_decide; simplify_eq/=; ulia.
  - intros a. unfold w_nonce. rewrite Ewn, lookup_insert, En. pose proof (Hno a) as Hna.
    pose proof (Hle a). pose proof (get_nonce_range db a Hwf).
    repeat case_decide; simplify_eq/=.
    + rewrite Hna. unfold wrapping_add. rewrite wrap_small by ulia. done.
    + unfold w_nonce in Hna. rewrite Hna. lia.
  - intros a. rewrite En. specialize (Hle a). case_decide; lia.
Qed.

Lemma apply_plain block tx fees bc db' :
  plain_tx tx → fees + tx_fee tx <= U64_MAX →
  transfer (tx_from tx) (tx_to tx) (tx_amount tx) (tx_fee tx) (bc_accounts bc) = (db', Ok tt) →
  apply_tx cfg block tx fees bc = (bc <| bc_accounts := db' |>, Ok (fees + tx_fee tx)).
Proof.
  intros (Hs & He & Ht & Hk & _) Hf Et. unfold apply_tx, apply_native, on_accounts.
  unfold_st_goal. rewrite Hs, He, Et. simpl. unfold checked_add.
  rewrite (proj2 (Z.leb_le _ _)) by done. simpl. rewrite Ht, Hk.
  by destruct (is_reward_v2_height _ _).
Qed.

Lemma plain_txs_run base block txs w w' fees bc :
  Forall plain_tx txs → for_each (validate_tx cfg base) txs w = (w', Ok tt) →
  simulates (bc_accounts base) w (bc_accounts bc) fees (length txs) →
  ∃ bc' fees', apply_txs cfg block txs fees bc = (bc', Ok fees') ∧
    simulates (bc_accounts base) w' (bc_accounts bc') fees' 0.
Proof.
  intros Hp. revert w fees bc.
  induction Hp as [|tx txs Htx Hp IH]; intros w fees bc Hv Hsim; simpl in Hv.
  - injection Hv as <-. by exists bc, fees.
  - apply st_bind_ok in Hv as ([] & w1 & Hv1 & Hv).
    destruct (simulates_step base tx w w1 _ fees (length txs) Htx Hsim Hv1) as (db' & Et & Hf & Hs').
    set (bc1 := bc <| bc_accounts := db' |>).
    destruct (IH w1 (fees + tx_fee tx) bc1 Hv Hs') as (bc' & fees' & Ha & Hs).
    exists bc', fees'. split; [|done]. simpl. unfold mbind, st_bind.
    by rewrite (apply_plain block tx fees bc db').
Qed.

(** The coinbase starts the simulation off. *)
Lemma simulates_start db r x n :
  accounts_wf db → in_u64 x → supply db + x <= U64_MAX →
  (∀ a, get_nonce db a + Z.of_nat n <= U64_MAX) →
  ∃ db', credit r x (clear_touched_in_block db) = (db', Ok tt) ∧
    simulates db (mkWorking ∅ ∅ ∅ None) db' 0 n.
Proof.
  intros Hwf Hx Hs Hn. set (d0 := clear_touched_in_block db).
  destruct (credit r x d0) as [db' res] eqn:Ec. exists db'.
  assert (res = Ok tt) as ->.
  { rewrite credit_eq in Ec. pose proof (balance_le_supply db r Hwf) as Hb.
    change (get_balance d0 r) with (get_balance db r) in Ec.
    rewrite (proj2 (Z.leb_le _ _)) in Ec by lia. by injection Ec. }
  split; [done|].
  pose proof (wf_credit r x d0 Hx Hwf) as Hw. rewrite Ec in Hw.
  apply credit_effect in Ec as (Eb & En & Es & _).
  split; [done|change (supply d0) with (supply db) in Es; lia|done|..]; intros a;
    unfold w_balance, w_nonce; simpl; rewrite ?lookup_empty, ?Eb, ?En; simpl.
  - change (get_balance d0 a) with (get_balance db a). case_decide; ulia.
  - done.
  - apply Hn.
Qed.

Lemma pay_fee_share_runs block base w bc fees :
  simulates base w (bc_accounts bc) fees 0 →
  ∃ bc', pay_fee_share block fees bc = (bc', Ok tt).
Proof.
  intros [Hwf Hs Hf _ _ _]. unfold pay_fee_share, on_accounts. destruct (0 <? _); [|by eexists].
  rewrite credit_eq. pose proof (balance_le_supply _ (blk_validator block) Hwf).
  rewrite (proj2 (Z.leb_le _ _)); [by eexists|].
  pose proof (div_ceil_nonneg fees 2). lia.
Qed.

Lemma apply_coinbase_runs block x bc db' :
  credit (coinbase_recipient block) x (bc_accounts bc) = (db', Ok tt) →
  ∃ bc', apply_coinbase cfg block x bc = (bc', Ok tt) ∧ bc_accounts bc' = db'.
Proof.
  unfold apply_coinbase, coinbase_recipient, on_accounts. intros Hc. unfold_st_goal.
  destruct (_ && _); simpl; rewrite Hc; by eexists.
Qed.

(** C14: Pass 1 is enough for payments: when it accepts a block whose transactions
    are plain transfers, executing them cannot fail, neither for lack of funds
    nor by overflow, as long as the money in circulation after the reward fits
    [u64] and no nonce is about to run out. *)
Theorem plain_block_executes block bc bc1 :
  Forall plain_tx (tail (blk_transactions block)) → accounts_wf (bc_accounts bc) →
  bc_total_minted bc <= max_supply_for (fk_tokenomics_v2 (cfg_forks cfg)) (bc_height bc) →
  supply (bc_accounts bc) + bc_block_reward (cfg_forks cfg) bc <= U64_MAX →
  (∀ a, get_nonce (bc_accounts bc) a + Z.of_nat (length (blk_transactions block)) <= U64_MAX) →
  pass1 cfg block bc = (bc1, Ok tt) →
  ∃ bc2, execute_block cfg block bc1 = (bc2, Ok tt).
Proof.
  intros Hp Hwf Hm Hs Hn Hp1.
  apply pass1_ok in Hp1 as (v & prev & cb & -> & _ & _ & _ & Hcb & Ham & Hv).
  destruct (for_each _ _ _) as [w' r] eqn:Hfe. simpl in Hv. subst r.
  destruct (get_block_reward_range (fk_tokenomics_v2 (cfg_forks cfg)) (bc_height bc) _ Hm) as [Hr _].
  change (get_block_reward _ _ _) with (bc_block_reward (cfg_forks cfg) bc) in Hr.
  pose proof (supply_nonneg _ Hwf).
  destruct (simulates_start (bc_accounts bc) (coinbase_recipient block) (tx_amount cb)
    (length (tail (blk_transactions block)))) as (db & Ec & Hsim); [done|ulia|lia|..].
  { intros a. specialize (Hn a). destruct (blk_transactions block); simpl in *; lia. }
  set (b0 := (bc <| bc_justification_verified := v |>)
               <| bc_accounts := clear_touched_in_block (bc_accounts bc) |>).
  destruct (apply_coinbase_runs block (tx_amount cb) b0 db Ec) as (b2 & E2 & <-).
  destruct (plain_txs_run _ block _ _ w' 0 b2 Hp Hfe Hsim) as (b3 & f & E3 & Hsim3).
  destruct (pay_fee_share_runs block _ _ b3 f Hsim3) as (b4 & E4).
  eexists. unfold execute_block. rewrite Hcb. unfold_st_goal.
  change (apply_coinbase cfg block (tx_amount cb) _) with (apply_coinbase cfg block (tx_amount cb) b0).
  rewrite E2, E3, E4. done.
Qed.
End value.

(** ** A whole block *)

Section whole_block.
Context `{Json, Sha256, Blake3, TxCrypto, Hex, HexDecode, HashOrder, Crypto}.
Context (cfg : NodeConfig) (tc : TrieConfig).
Context (evm : Transaction → Z → string → Z → Blockchain → AccountDB * result unit).
#[local] Instance whole_ops : ChainOps := chain_ops tc evm.
Implicit Types bc : Blockchain.

(** The balance that the configuration sets the treasury to at a height. *)
Definition treasury_override (height : Z) : option Z :=
  match (if height =? tc_treasury_rebase tc then tc_treasury_rebase_balance tc else None) with
  | Some x => Some x
  | None => if height =? tc_state_root_v2 tc then tc_state_root_v2_balance tc else None
  end.
Definition override_value (height : Z) (db : AccountDB) : Z :=
  match treasury_override height with Some x => x - get_balance db PROTOCOL_TREASURY | None => 0 end.

Lemma set_balance_effect a x db :
  supply (set_balance a x db) = supply db + x - get_balance db a ∧ get_balance (set_balance a x db) a = x ∧
  total_burned (set_balance a x db) = total_burned db.
Proof.
  unfold set_balance, get_or_create. rewrite put_put, supply_put, supply_touch, get_balance_touch, get_balance_put, decide_True by done.
  simpl. split_and!; [lia|done|done].
Qed.
Lemma rebase_effect height db :
  supply (rebase_treasury tc (Some height) db) = supply db + override_value height db ∧
  total_burned (rebase_treasury tc (Some height) db) = total_burned db.
Proof.
  assert (Hr : ∀ h b d, rebase_at h b (Some height) d =
    match (if height =? h then b else None) with Some x => set_balance PROTOCOL_TREASURY x d | None => d end).
  { intros h b d. unfold rebase_at. case_bool_decide as E; [injection E as ->; by rewrite Z.eqb_refl|].
    destruct (Z.eqb_spec height h) as [->|]; [done|done]. }
  unfold rebase_treasury, override_value, treasury_override. rewrite !Hr.
  destruct (if height =? tc_treasury_rebase tc then _ else _) as [x|];
    destruct (if height =? tc_state_root_v2 tc then _ else _) as [y|].
  - destruct (set_balance_effect PROTOCOL_TREASURY x (set_balance PROTOCOL_TREASURY y db)) as (-> & _ & ->).
    destruct (set_balance_effect PROTOCOL_TREASURY y db) as (-> & -> & ->). split; [lia|done].
  - destruct (set_balance_effect PROTOCOL_TREASURY x db) as (-> & _ & ->). split; [lia|done].
  - destruct (set_balance_effect PROTOCOL_TREASURY y db) as (-> & _ & ->). split; [lia|done].
  - split; [lia|done].
Qed.
(** The state root only reads the accounts, apart from the override. *)
Lemma update_trie_accounts bc :
  let db := rebase_treasury tc (blk_index <$> last (bc_chain bc)) (bc_accounts bc) in
  let db' := (update_trie_for_block tc bc).1.1 in
  supply db' = supply db ∧ total_burned db' = total_burned db.
Proof.
  cbv zeta. unfold update_trie_for_block. destruct (bc_state_trie bc) as [trie|]; [|done].
  destruct (last (bc_chain bc)) as [block|]; [|done]. simpl. unfold touched_addrs.
  destruct (is_extended_touch_list_height _ _); simpl; destruct (run_ops _ _) as [t [root|e]]; done.
Qed.
Lemma stamp_accounts computed : keeps bc_accounts (stamp_state_root cfg computed).
Proof.
  intros bc. unfold stamp_state_root. unfold_st_goal. destruct (last _) as [b|]; [|done].
  destruct (_ <? _); [done|]. destruct (blk_state_root b); [by destruct (_ || _)|].
  case_bool_decide; [done|]. by destruct (is_speculative_apply_height _ _).
Qed.

Lemma finish_value block mid bc' r :
  in_u64 (total_burned (bc_accounts mid)) → finish_block cfg block mid = (bc', r) →
  let '(released, slashed) := epoch_flow cfg block mid in
  supply (bc_accounts bc') = supply (bc_accounts mid)
    + releases_value cfg (blk_index block) (bc_accounts mid) released
    + override_value (blk_index block) (after_release cfg (blk_index block) (bc_accounts mid) released) ∧
  total_burned (bc_accounts bc') = foldl (saturating_add U64_MAX) (total_burned (bc_accounts mid)) slashed.*2.
Proof.
  intros Hb. unfold finish_block, run_trie. unfold_st_goal.
  pose proof (bookkeeping_accounts cfg block mid) as Ea. cbv zeta in Ea.
  destruct (bookkeeping_chain cfg (append_block block (settle_mempool cfg block mid))) as (Ec & _).
  destruct (settle_chain cfg block mid) as (Ec' & _). rewrite append_chain, Ec' in Ec.
  set (b1 := bookkeeping _ _) in *. clearbody b1. destruct (epoch_flow cfg block mid) as [released slashed]. cbn [fst snd] in Ea.
  destruct (releases_effect cfg (blk_index block) (bc_accounts mid) released) as [Es Et]. specialize (Et Hb).
  set (db := after_release _ _ _ _) in *. destruct (slashed_burned db slashed) as (Fs & Fb & Ft). rewrite <-Ea in *.
  destruct (update_trie_accounts b1) as [Us Ut]. rewrite Ec, last_snoc in Us, Ut. cbn [fmap option_fmap option_map] in Us, Ut.
  destruct (rebase_effect (blk_index block) (bc_accounts b1)) as [Rs Rt]. rewrite Rs in Us. rewrite Rt in Ut.
  assert (Eo : override_value (blk_index block) (bc_accounts b1) = override_value (blk_index block) db).
  { unfold override_value. by rewrite Fb. }
  rewrite Eo, Fs, Es in Us. rewrite Ft, Et in Ut.
  change (update_trie b1) with (update_trie_for_block tc b1).
  destruct (update_trie_for_block tc b1) as [[db' trie] [[root|]|e]]; cbn [fst snd] in *.
  - intros Hst. pose proof (stamp_accounts root (b1 <| bc_accounts := db' |> <| bc_state_trie := trie |>)) as Hk.
    unfold keeps in Hk. rewrite Hst in Hk. cbn [fst] in Hk. rewrite Hk. split; [rewrite <-Us|rewrite <-Ut]; done.
  - intros [= <- <-]. split; [rewrite <-Us|rewrite <-Ut]; done.
  - intros [= <- <-]. split; [rewrite <-Us|rewrite <-Ut]; done.
Qed.

(** C15: executing a block of native transactions, to the end of Pass 2, changes the
    money in circulation by: its reward, less the rounded-up half of its total fee
    (transfers, token operations, staking and reward claims conserve it); what paying
    the matured unbondings of an epoch boundary adds, which is nothing under the new
    reward rule, where the treasury pays them (for accounts and amounts in range, and
    a treasury nonce that does not run out); and the configured treasury override of
    its height.  The
    burn counter moves by the halves of the fees rounded up one by one, which is
    more than the money burned when several fees are odd, and then by the stake
    slashed for downtime; it saturates. *)
Theorem block_value block bc bc' cb :
  Forall native_tx (tail (blk_transactions block)) → in_u64 (total_burned (bc_accounts bc)) →
  coinbase block = Some cb → apply_block_pass2 cfg block bc = (bc', Ok tt) →
  let txs := tail (blk_transactions block) in
  let height := blk_index block in
  ∃ mid, execute_block cfg block bc = (mid, Ok tt) ∧
  let '(released, slashed) := epoch_flow cfg block mid in
  supply (bc_accounts bc') = supply (bc_accounts bc) + tx_amount cb - div_ceil (sum_of fee_of txs) 2
    + releases_value cfg height (bc_accounts mid) released
    + override_value height (after_release cfg height (bc_accounts mid) released) ∧
  total_burned (bc_accounts bc') = foldl (saturating_add U64_MAX)
    (saturating_add U64_MAX (total_burned (bc_accounts bc)) (sum_of burn_of txs)) slashed.*2 ∧
  div_ceil (sum_of fee_of txs) 2 <= sum_of burn_of txs ∧
  (is_reward_v2_height (cfg_forks cfg) height = true → Forall (λ p, 0 <= p.2) released →
   accounts_wf (bc_accounts mid) → supply (bc_accounts mid) <= U64_MAX →
   get_nonce (bc_accounts mid) PROTOCOL_TREASURY + Z.of_nat (length released) <= U64_MAX →
   releases_value cfg height (bc_accounts mid) released = 0).
Proof.
  intros Hn Hb Hcb Hp txs height. unfold apply_block_pass2 in Hp.
  apply st_bind_ok in Hp as ([] & mid & Hx & Hf). exists mid. split; [done|].
  destruct (execute_value cfg block bc mid cb Hn Hb Hcb Hx) as (Es & Et & Hle).
  assert (Hb' : in_u64 (total_burned (bc_accounts mid))).
  { rewrite Et. assert (0 <= sum_of burn_of (tail (blk_transactions block))); [|ulia].
    apply sum_of_nonneg. intros t Ht. rewrite Forall_forall in Hn. by apply burn_of_nonneg, Hn. }
  pose proof (finish_value block mid bc' _ Hb' Hf) as Hv. destruct (epoch_flow cfg block mid) as [released slashed].
  destruct Hv as [Vs Vt]. split_and!; [by rewrite Vs, Es|by rewrite Vt, Et|done|apply releases_conserve].
Qed.
End whole_block.
