(* ===== verification/ExecutorHazards.v ===== *)
(** * Transactions that hurt the chain

    Two consequences of how Pass 2 treats staking operations: an operation that
    is only checked there makes the whole block fail and stays in the mempool,
    and double-sign evidence is acted on without looking at its signatures. *)

From S2P Require Import Prelude Bytes Account Staking StakingProps StakingTheorems StakingSets Epoch.
From S2P Require Import Slashing SlashingProps Token.
From S2P Require Import Merkle Transaction TransactionProps Authority Emission.
From S2P Require Import BftMessages Block Chain MempoolProps Justify Executor ExecutorProps ExecutorValue.

Section hazards.
Context `{ChainTypes, !ChainOps, Json, Sha256, TxCrypto, Hex, HashOrder, Crypto}.
Context (cfg : NodeConfig).
Implicit Types bc : Blockchain.

(** ** A transaction no state of the chain lets through *)

(** Every attempt to apply [tx] in [block] fails while the window is [chain]. *)
Definition always_fails (block : Block) (tx : Transaction) (chain : list Block) : Prop :=
  ∀ bc fee, bc_chain bc = chain → is_ok (apply_tx cfg block tx fee bc).2 = false.

Lemma apply_txs_fails block tx txs fee bc :
  always_fails block tx (bc_chain bc) → tx ∈ txs → is_ok (apply_txs cfg block txs fee bc).2 = false.
Proof.
  revert fee bc. induction txs as [|t txs IH]; intros fee bc Hf Hin; [by apply elem_of_nil in Hin|].
  simpl. unfold mbind, st_bind. pose proof (keeps_apply_tx cfg block t fee bc) as Hk.
  destruct (apply_tx cfg block t fee bc) as [b1 [f1|e]] eqn:Et; [|done].
  apply frame_inv in Hk as (Hc & _). simpl in Hc.
  apply elem_of_cons in Hin as [->|Hin].
  - specialize (Hf bc fee eq_refl). by rewrite Et in Hf.
  - apply IH; [by rewrite Hc|done].
Qed.

Lemma execute_fails block tx bc :
  always_fails block tx (bc_chain bc) → tx ∈ tail (blk_transactions block) →
  is_ok (execute_block cfg block bc).2 = false.
Proof.
  intros Hf Hin. destruct (execute_block cfg block bc) as [b [[]|e]] eqn:Hx; [|done]. exfalso.
  unfold execute_block in Hx.
  apply st_bind_ok in Hx as ([] & b1 & T1 & Hx). apply modify_ok in T1 as ->.
  apply st_bind_ok in Hx as (c & b2 & T2 & Hx). apply ok_or_ok in T2 as [_ ->].
  apply st_bind_ok in Hx as ([] & b3 & T3 & Hx). apply st_bind_ok in Hx as (f & b4 & T4 & _).
  match type of T3 with _ ?b = _ => pose proof (keeps_coinbase cfg block (tx_amount c) b) as Hk end.
  rewrite T3 in Hk. apply frame_inv in Hk as (Hc & _). simpl in Hc.
  pose proof (apply_txs_fails block tx (tail (blk_transactions block)) 0 b3) as Hn.
  rewrite T4 in Hn. rewrite Hc in Hn. by specialize (Hn Hf Hin).
Qed.

(** A block that cannot be executed is refused, and nothing is removed from the
    mempool. *)
Lemma doomed_execution block src bc :
  (∀ b, bc_chain b = bc_chain bc → bc_slashing b = bc_slashing bc → is_ok (execute_block cfg block b).2 = false) →
  ∃ bc' e, add_block_with_source cfg block src bc = (bc', Err e) ∧
    bc_mempool bc' = bc_mempool bc ∧ bc_chain bc' = bc_chain bc.
Proof.
  intros Hf. unfold add_block_with_source, add_block_impl, mbind, st_bind.
  set (b0 := bc <| bc_source_for_current_add := src |>).
  pose proof (keeps_pass1 cfg block b0) as Hk.
  destruct (pass1 cfg block b0) as [b1 [[]|e]]; injection Hk as Hc Hm Hs; last first.
  { eexists _, e. split; [reflexivity|]. done. }
  change (bc_chain b1 = bc_chain bc) in Hc. change (bc_mempool b1 = bc_mempool bc) in Hm.
  change (bc_slashing b1 = bc_slashing bc) in Hs.
  unfold commit, apply_block_pass2, mbind, st_bind.
  pose proof (Hf b1 Hc Hs) as Hx. pose proof (keeps_execute cfg block b1) as Hk.
  destruct (execute_block cfg block b1) as [b2 [[]|e]]; [done|].
  apply frame_inv in Hk as (Hc2 & Hs2 & _ & Hm2). simpl in Hc2, Hs2, Hm2.
  eexists _, e. split; [reflexivity|]. rewrite rollback_eq by done. rewrite rebuild_eq. simpl.
  rewrite Hm, Hc2, Hc. split; [done|]. by apply take_ge.
Qed.
Lemma doomed_block block src tx bc :
  always_fails block tx (bc_chain bc) → tx ∈ tail (blk_transactions block) →
  ∃ bc' e, add_block_with_source cfg block src bc = (bc', Err e) ∧
    bc_mempool bc' = bc_mempool bc ∧ bc_chain bc' = bc_chain bc.
Proof.
  intros Hf Hin. apply doomed_execution. intros b Hc _. apply (execute_fails block tx); [by rewrite Hc|done].
Qed.

(** ** Downtime bundles before their fork *)

Lemma bundle_always_fails block tx chain n s e ev act :
  staking_op_decode (tx_data tx) = Some (StakingOp_JailEvidenceBundle n s e ev act) →
  is_reward_v2_height (cfg_forks cfg) (blk_index block) = true →
  is_jail_consensus_height (cfg_forks cfg) (default 0 (blk_index <$> last chain)) = false →
  always_fails block tx chain.
Proof.
  intros Hop Hv Hj bc fee Hc. unfold apply_tx, mbind, st_bind.
  pose proof (keeps_apply_native tx fee bc) as Hk1.
  destruct (apply_native tx fee bc) as [b1 [f1|]]; [|done]. apply frame_inv in Hk1 as (E1 & _).
  assert (Hk2 : keeps frame_part (match token_op_decode (tx_data tx) with
    | Some op => apply_token_op cfg block tx op | None => mret tt end)).
  { destruct (token_op_decode _); [apply keeps_token_op|apply keeps_ret]. }
  specialize (Hk2 b1). destruct (match token_op_decode (tx_data tx) with
    | Some op => apply_token_op cfg block tx op | None => mret tt end b1) as [b2 [[]|]]; [|done].
  apply frame_inv in Hk2 as (E2 & _). simpl in E1, E2.
  rewrite Hv, Hop. unfold apply_staking_op, apply_jail_bundle. unfold_st_goal.
  destruct (negb (bool_decide (tx_to tx = PROTOCOL_TREASURY))); [done|].
  unfold bc_height at 1. rewrite E2, E1, Hc, Hj. done.
Qed.

(** ** Evidence nobody checks *)

Lemma process_double_sign_runs e s r val :
  reg_inv r → validators r !! ev_validator e = Some val → v_is_tombstoned val = false →
  ev_block_hash_a e ≠ ev_block_hash_b e → ev_validator e ≠ "" →
  evidence_id e ∉ processed (double_sign s) →
  ∃ w amt, process_double_sign e (s, r) = (w, Ok amt).
Proof.
  intros Hr Hv Ht Hh Hne Hfresh. unfold process_double_sign, on_detector, on_registry.
  unfold_st_goal. unfold get_validator. simpl. rewrite Hv. simpl. rewrite Ht.
  unfold process_evidence. unfold_st_goal. rewrite !bool_decide_eq_false_2 by done. simpl.
  destruct (slash_eq r (ev_validator e) DOUBLE_SIGN_SLASH_BP Hr ltac:(done) val Hv)
    as [_ (r1 & E & Ev & _)].
  rewrite E. simpl.
  edestruct (tombstone_eq r1 (ev_validator e)) as (r2 & E2 & _);
    [by rewrite Ev, lookup_insert_eq|].
  rewrite E2. eauto.
Qed.

(** Any account can have any validator slashed and removed for good: a
    [SubmitEvidence] transaction that names it succeeds for arbitrary
    signatures, arbitrary distinct hashes and an arbitrary height. *)
Theorem forged_evidence_accepted block tx bc v val height ha hb sa sb :
  reg_inv (bc_stake_registry bc) → validators (bc_stake_registry bc) !! v = Some val →
  v_is_tombstoned val = false → v ≠ "" → ha ≠ hb →
  evidence_id (mkEvidence v height ha hb sa sb) ∉ processed (double_sign (bc_slashing bc)) →
  tx_to tx = PROTOCOL_TREASURY → tx_amount tx = 0 →
  ∃ bc' val', apply_staking_op cfg block tx (StakingOp_SubmitEvidence height ha hb sa sb v) bc
                = (bc', Ok tt) ∧
    validators (bc_stake_registry bc') !! v = Some val' ∧ v_is_tombstoned val' = true ∧
    v ∉ active_set (bc_stake_registry bc').
Proof.
  intros Hr Hv Ht Hne Hh Hfresh Hto Ham. set (ev := mkEvidence v height ha hb sa sb).
  destruct (process_double_sign_runs ev (bc_slashing bc) (bc_stake_registry bc) val)
    as (w & amt & Hp); [done..|].
  destruct (double_sign_fresh ev _ _ _ _ Hr Hp Hfresh) as (_ & val' & _ & _ & Hw & Hv' & Ht' & Hj & Has).
  unfold apply_staking_op, require_amount, on_world. unfold_st_goal.
  rewrite Hto, Ham, bool_decide_eq_true_2 by done. simpl.
  replace (is_empty v) with false by (by destruct v). fold ev. rewrite Hp. simpl.
  eexists _, val'. split; [reflexivity|]. split_and!; [done..|]. simpl. rewrite Has.
  apply (ineligible_not_active w.2 _ val'); [by apply reg_inv_addresses|done|].
  unfold is_active_eligible. by rewrite Hj.
Qed.
End hazards.

(** ** A chain that stands still *)

Section stuck.
Context `{ChainTypes, !ChainOps, Json, Sha256, TxCrypto, Hex, HashOrder, Crypto, PartitionPoint}.
Context (cfg : NodeConfig) (serialized_size : Transaction → option Z).
Implicit Types bc : Blockchain.

(** The configuration at another time. *)
Definition config_at (t : Z) : NodeConfig :=
  mkConfig (cfg_forks cfg) (cfg_bypass_authz cfg) (cfg_legacy_cutoff cfg) t.
(** A proposer builds a block from the node's mempool and the node applies it. *)
Definition attempt bc (at_by : Z * string) : Blockchain :=
  match create_block_voyager (cfg_forks cfg) at_by.1 bc at_by.2 with
  | Ok block => (add_block (config_at at_by.1) block bc).1
  | Err _ => bc
  end.
Definition attempts bc (l : list (Z * string)) : Blockchain := foldl attempt bc l.
(** The transactions of the mempool that the next block has room for. *)
Definition candidates bc : list Transaction :=
  take_by_gas 0 (take (Nat.min (length (bc_mempool bc)) (MAX_TX_PER_BLOCK - 1)) (bc_mempool bc)).

Lemma attempt_stuck tx bc at_by n s e ev act :
  staking_op_decode (tx_data tx) = Some (StakingOp_JailEvidenceBundle n s e ev act) →
  is_reward_v2_height (cfg_forks cfg) (wrapping_add U64_MAX (bc_height bc) 1) = true →
  is_jail_consensus_height (cfg_forks cfg) (bc_height bc) = false → tx ∈ candidates bc →
  bc_chain (attempt bc at_by) = bc_chain bc ∧ bc_mempool (attempt bc at_by) = bc_mempool bc.
Proof.
  intros Hop Hv Hj Hin. unfold attempt, create_block_voyager, build_block.
  destruct (latest_block bc) as [prev|]; [|done].
  match goal with |- context [Block_new ?h ?p ?l ?v ?t] => set (block := Block_new h p l v t) end.
  destruct (doomed_block (config_at at_by.1) block SelfProduced tx bc) as (bc' & err & Ea & Em & Ec).
  - by eapply bundle_always_fails.
  - simpl. apply elem_of_app. by right.
  - unfold add_block. rewrite Ea. done.
Qed.

(** C39: with the reward rule active and before the downtime-consensus fork, anyone can
    stop a node from producing blocks: a downtime bundle that claims to come from
    the treasury is admitted to the mempool unsigned and with no fee, when it is dated
    now, has a new id and the mempool has room; and when the next block has room for
    it, every block that is built from that mempool is rejected, at any time, by
    whichever proposer and any number of times, which leaves the chain and the
    mempool, bundle included, as they were. *)
Theorem bundle_blocks_chain now tx bc n s e ev act :
  is_system_tx tx = true → (∀ size, serialized_size tx = Some size → size <= MAX_TX_SIZE) →
  tx_to tx = PROTOCOL_TREASURY → tx_amount tx = 0 → tx_fee tx = 0 →
  staking_op_decode (tx_data tx) = Some (StakingOp_JailEvidenceBundle n s e ev act) →
  (length (bc_mempool bc) < MAX_MEMPOOL_SIZE)%nat →
  mempool_pending_count bc PROTOCOL_TREASURY < MAX_MEMPOOL_PER_SENDER →
  tx_timestamp tx = now → 0 <= now → now + 300 <= U64_MAX → txid tx ∉ bc_mempool_txids bc →
  is_reward_v2_height (cfg_forks cfg) (wrapping_add U64_MAX (bc_height bc) 1) = true →
  is_jail_consensus_height (cfg_forks cfg) (bc_height bc) = false →
  ∃ bc1, add_to_mempool serialized_size now tx bc = (bc1, Ok tt) ∧ tx ∈ bc_mempool bc1 ∧
    bc_chain bc1 = bc_chain bc ∧
    (tx ∈ candidates bc1 → ∀ l,
       bc_chain (attempts bc1 l) = bc_chain bc1 ∧ bc_mempool (attempts bc1 l) = bc_mempool bc1).
Proof.
  intros Hsys Hsz Hto Ham Hfee Hop Hlen Hcnt Hts Hn0 Hn Hid Hv Hj.
  destruct (system_tx_admitted serialized_size now tx bc) as (bc1 & Ea & Hin); [done..|].
  assert (Ec : bc_chain bc1 = bc_chain bc).
  { pose proof Ea as Hadd. by apply add_to_mempool_ok in Hadd as (_ & _ & _ & _ & _ & ->). }
  exists bc1. split_and!; [done..|]. intros Hcand l.
  assert (Hstuck : ∀ b, bc_chain b = bc_chain bc1 → bc_mempool b = bc_mempool bc1 → ∀ x,
    bc_chain (attempt b x) = bc_chain bc1 ∧ bc_mempool (attempt b x) = bc_mempool bc1).
  { intros b E1 E2 x. rewrite <-E1, <-E2. eapply attempt_stuck; [done|..].
    - unfold bc_height. rewrite E1, Ec. done.
    - unfold bc_height. rewrite E1, Ec. done.
    - unfold candidates. by rewrite E2. }
  unfold attempts. induction l as [|x l IH] using rev_ind; [done|].
  rewrite foldl_app. simpl. destruct IH as [E1 E2]. by apply Hstuck.
Qed.
End stuck.
