(* ===== verification/Preflight.v ===== *)
(** * The read-only block check, and the bundle a proposer cannot commit

    Models crates/sentrix-core/src/block_executor/validate.rs, the copy of
    Pass 1 that runs under a read lock, and relates it to Pass 1 itself: they
    agree up to the justification, which only Pass 1 looks at, and the downtime
    bundle of an epoch's last block, which only the copy requires.  The producer
    computes that bundle for the block it builds and the executor for the block
    before it. *)

From S2P Require Import Prelude Bytes Account Staking StakingProps StakingTheorems StakingSets Epoch.
From S2P Require Import Slashing SlashingProps Token.
From S2P Require Import Merkle Transaction TransactionProps Authority Emission.
From S2P Require Import BftMessages Block Chain MempoolProps Justify Executor ExecutorProps ExecutorValue.
From S2P Require Import ExecutorHazards.

Section preflight.
Context `{ChainTypes, !ChainOps, Json, Sha256, TxCrypto, Hex, HashOrder, Crypto}.
Context (cfg : NodeConfig).
Implicit Types bc : Blockchain.

(** The evidence a boundary block must carry. *)
Definition required_evidence bc (expected_index : Z) : list JailEvidence :=
  if is_jail_consensus_height (cfg_forks cfg) expected_index && is_epoch_boundary expected_index
  then compute_jail_evidence (bc_slashing bc) (active_set (bc_stake_registry bc)) expected_index
  else [].
Definition bundle_missing bc (expected_index : Z) (block : Block) : bool :=
  negb (bool_decide (required_evidence bc expected_index = [])) &&
  negb (existsb is_system_tx (blk_transactions block)).

(** [validate_block], as a computation that only reads the chain. *)
Definition validate_block_st (block : Block) : st Blockchain unit :=
  bc ← gets (λ bc, bc) ;
  let expected_index := wrapping_add U64_MAX (bc_height bc) 1 in
  prev ← lift_result (latest_block bc) ;
  lift_result (validate_structure block expected_index (blk_hash prev)) ;;
  (if negb (voyager_mode_for (cfg_forks cfg) bc expected_index) then
     authorized ← lift_result (is_authorized (bc_authority bc) (blk_validator block) expected_index) ;
     fail_if (negb authorized) (UnauthorizedValidator ("validator " +:+ blk_validator block
       +:+ " not authorized for block " +:+ pretty expected_index))
   else mret tt) ;;
  fail_if (blk_timestamp block <? blk_timestamp prev)
    (InvalidBlock "block timestamp is before previous block") ;;
  fail_if (wrapping_add U64_MAX (cfg_now cfg) 15 <? blk_timestamp block)
    (InvalidBlock "block timestamp too far in the future") ;;
  fail_if (bundle_missing bc expected_index block)
    (InvalidBlock ("boundary block " +:+ pretty expected_index
       +:+ " missing required JailEvidenceBundle (local evidence: "
       +:+ pretty (Z.of_nat (length (required_evidence bc expected_index)))
       +:+ " entries — proposer omitted required system op)")) ;;
  let reward := bc_block_reward (cfg_forks cfg) bc in
  cb ← ok_or (coinbase block) (InvalidBlock "missing coinbase") ;
  fail_if (negb (tx_amount cb =? reward))
    (InvalidBlock ("coinbase amount " +:+ pretty (tx_amount cb) +:+ " must equal block reward "
       +:+ pretty reward)) ;;
  fail_if (negb (bool_decide (tx_to cb = blk_validator block)))
    (InvalidBlock ("coinbase recipient " +:+ tx_to cb +:+ " must equal block validator "
       +:+ blk_validator block)) ;;
  lift_result ((for_each (validate_tx cfg bc) (tail (blk_transactions block))
                  (mkWorking ∅ ∅ ∅ None)).2).
Definition validate_block bc (block : Block) : result unit := (validate_block_st block bc).2.

(** The gate on the justification that Pass 1 adds. *)
Definition justified bc (block : Block) : bool :=
  let expected_index := wrapping_add U64_MAX (bc_height bc) 1 in
  is_ok (check_justification (cfg_bypass_authz cfg)
      (bool_decide (bc_source_for_current_add bc = Peer))
      (voyager_mode_for (cfg_forks cfg) bc expected_index)
      (fk_strict_justification (cfg_forks cfg)) (bc_chain_id bc) expected_index
      (bc_stake_registry bc) (blk_hash block) (blk_justification block)).

Lemma validate_tx_flag bc b tx w :
  validate_tx cfg (bc <| bc_justification_verified := b |>) tx w = validate_tx cfg bc tx w.
Proof. by destruct bc. Qed.
Lemma for_each_flag bc b txs w :
  for_each (validate_tx cfg (bc <| bc_justification_verified := b |>)) txs w = for_each (validate_tx cfg bc) txs w.
Proof.
  revert w. induction txs as [|tx txs IH]; intros w; [done|]. cbn [for_each]. unfold mbind, st_bind.
  rewrite validate_tx_flag. destruct (validate_tx cfg bc tx w) as [w' [[]|]]; [apply IH|done].
Qed.

(** The read-only check and Pass 1 accept the same blocks, up to the
    justification, which only Pass 1 verifies, and the downtime bundle, which
    only the read-only check requires. *)
Theorem preflight_agrees bc block :
  cfg_bypass_authz cfg = false →
  is_ok (validate_block bc block) && justified bc block =
  is_ok (pass1 cfg block bc).2 && negb (bundle_missing bc (wrapping_add U64_MAX (bc_height bc) 1) block).
Proof.
  intros Hb. unfold validate_block, validate_block_st, pass1, validate_header, justified.
  unfold_st_goal. unfold lift_result. set (b0 := upd bc_justification_verified _ bc).
  change (latest_block b0) with (latest_block bc). change (bc_height b0) with (bc_height bc).
  change (bc_authority b0) with (bc_authority bc). change (bc_chain_id b0) with (bc_chain_id bc).
  change (bc_stake_registry b0) with (bc_stake_registry bc).
  change (bc_source_for_current_add b0) with (bc_source_for_current_add bc).
  change (bc_block_reward (cfg_forks cfg) b0) with (bc_block_reward (cfg_forks cfg) bc).
  set (idx := wrapping_add U64_MAX (bc_height bc) 1).
  change (voyager_mode_for (cfg_forks cfg) b0 idx) with (voyager_mode_for (cfg_forks cfg) bc idx).
  rewrite Hb. cbn [negb andb].
  destruct (latest_block bc) as [prev|]; [|done].
  destruct (validate_structure block idx (blk_hash prev)) as [[]|]; [|done].
  set (voyager := voyager_mode_for _ _ _).
  destruct voyager; cbn [negb];
    [|destruct (is_authorized _ _ _) as [[]|]; [|done|done]; cbn [negb]].
  all: destruct (blk_timestamp block <? blk_timestamp prev); [done|].
  all: destruct (wrapping_add U64_MAX (cfg_now cfg) 15 <? blk_timestamp block); [done|].
  all: destruct (bundle_missing bc idx block); cbn [negb]; [by rewrite andb_false_r|rewrite andb_true_r].
  all: destruct (check_justification _ _ _ _ _ _ _ _ _) as [v|]; [|rewrite andb_false_r; done].
  all: rewrite andb_true_r; assert (Hloop : ∀ v : bool, (for_each (validate_tx cfg
      (if v then upd bc_justification_verified (λ _, true) b0 else b0))
      (tail (blk_transactions block)) (mkWorking ∅ ∅ ∅ None)).2 =
      (for_each (validate_tx cfg bc) (tail (blk_transactions block)) (mkWorking ∅ ∅ ∅ None)).2)
    by (intros []; [by rewrite for_each_flag; unfold b0; rewrite for_each_flag|unfold b0; by rewrite for_each_flag]).
  all: specialize (Hloop v); destruct v; simpl in Hloop |- *; (destruct (coinbase block) as [cb|]; [|done]);
    (destruct (tx_amount cb =? _); [|done]); simpl; (case_bool_decide; [|done]); simpl; by rewrite Hloop.
Qed.

(** ** The bundle and the height it is computed for *)

(** What the checks on a bundle read, and the earlier steps of a block keep. *)
Definition jail_part bc := (bc_chain bc, bc_slashing bc).
Lemma keeps_jail_accounts {A} (m : st AccountDB A) : keeps jail_part (on_accounts m).
Proof. intros bc. unfold on_accounts. by destruct (m _). Qed.
Lemma keeps_jail_contracts {A} (m : st ContractRegistry A) : keeps jail_part (on_contracts m).
Proof. intros bc. unfold on_contracts. by destruct (m _). Qed.
Lemma keeps_jail_nft {A} (m : st NftRegistry A) : keeps jail_part (on_nft m).
Proof. intros bc. unfold on_nft. by destruct (m _). Qed.
#[local] Hint Resolve keeps_jail_accounts keeps_jail_contracts keeps_jail_nft : frame.
Lemma keeps_jail_native tx fee : keeps jail_part (apply_native tx fee).
Proof. unfold apply_native. frame. Qed.
Lemma keeps_jail_token block tx op : keeps jail_part (apply_token_op cfg block tx op).
Proof. destruct op; simpl; frame. Qed.
Lemma keeps_jail_coinbase block x : keeps jail_part (apply_coinbase cfg block x).
Proof. unfold apply_coinbase. frame. Qed.

(** A bundle that differs from the executor's own recomputation fails. *)
Lemma bundle_mismatch_fails block tx fee bc n s e ev act :
  staking_op_decode (tx_data tx) = Some (StakingOp_JailEvidenceBundle n s e ev act) →
  is_reward_v2_height (cfg_forks cfg) (blk_index block) = true →
  compute_jail_evidence (bc_slashing bc) act (bc_height bc) ≠ ev →
  is_ok (apply_tx cfg block tx fee bc).2 = false.
Proof.
  intros Hop Hv Hne. unfold apply_tx, mbind, st_bind.
  pose proof (keeps_jail_native tx fee bc) as Hk1.
  destruct (apply_native tx fee bc) as [b1 [f1|]]; [|done]. injection Hk1 as E1 S1. simpl in E1, S1.
  assert (Hk2 : keeps jail_part (match token_op_decode (tx_data tx) with
    | Some op => apply_token_op cfg block tx op | None => mret tt end)).
  { destruct (token_op_decode _); [apply keeps_jail_token|apply keeps_ret]. }
  specialize (Hk2 b1). destruct (match token_op_decode (tx_data tx) with
    | Some op => apply_token_op cfg block tx op | None => mret tt end b1) as [b2 [[]|]]; [|done].
  injection Hk2 as E2 S2. simpl in E2, S2. rewrite Hv, Hop.
  assert (Hh : bc_height b2 = bc_height bc) by (unfold bc_height; congruence).
  unfold apply_staking_op, apply_jail_bundle. unfold_st_goal.
  destruct (negb (bool_decide (tx_to tx = PROTOCOL_TREASURY))); [done|].
  rewrite Hh. destruct (negb (is_jail_consensus_height _ _)); [done|].
  destruct (negb (n =? _)); [done|]. destruct (bool_decide (act = [])); [done|].
  destruct (for_each _ act b2) as [b3 [[]|]]; [|done].
  rewrite S2, S1, bool_decide_eq_false_2 by done. done.
Qed.

(** The two heights differ for a validator that has not signed since it was first
    seen, exactly one window before the boundary. *)
Lemma downtime_starts t v first es :
  0 <= first → first_seen t !! v = Some first → records t !! v = Some es → signed_after first es = [] →
  is_downtime_at t v (first + LIVENESS_WINDOW) = true ∧ is_downtime_at t v (first + LIVENESS_WINDOW - 1) = false.
Proof.
  intros Hf Hs Hr He. unfold is_downtime_at. rewrite Hs, Hr.
  replace (first + LIVENESS_WINDOW - LIVENESS_WINDOW) with first by lia. rewrite He.
  replace (first + LIVENESS_WINDOW - 1 - LIVENESS_WINDOW <? first) with true by (symmetry; apply Z.ltb_lt; lia).
  replace (first + LIVENESS_WINDOW <? LIVENESS_WINDOW) with false by (symmetry; apply Z.ltb_ge; lia).
  rewrite Z.ltb_irrefl. split; [done|]. by destruct (_ <? LIVENESS_WINDOW).
Qed.

(** At the last block of an epoch a proposer can build a block that no node,
    the proposer included, can commit: the bundle is computed for the height of
    the block and checked against a recomputation for the height before it, so
    whenever the two differ the block is rejected, and the chain is left as it
    was, ready to build the same block again. *)
Theorem honest_bundle_rejected `{!JsonLaws} bc block proposer src tx :
  let h := wrapping_add U64_MAX (bc_height bc) 1 in
  let active := active_set (bc_stake_registry bc) in
  create_block_voyager (cfg_forks cfg) (cfg_now cfg) bc proposer = Ok block →
  build_jail_evidence_system_tx (cfg_forks cfg) bc h (cfg_now cfg) = Some tx →
  is_reward_v2_height (cfg_forks cfg) h = true →
  compute_jail_evidence (bc_slashing bc) active (bc_height bc) ≠
    compute_jail_evidence (bc_slashing bc) active h →
  tx ∈ blk_transactions block ∧
  ∃ bc' e, add_block_with_source cfg block src bc = (bc', Err e) ∧
    bc_mempool bc' = bc_mempool bc ∧ bc_chain bc' = bc_chain bc.
Proof.
  intros h active Hb Hj Hv Hne. unfold create_block_voyager, build_block in Hb. fold h in Hb. rewrite Hj in Hb.
  destruct (latest_block bc) as [prev|]; [|done]. injection Hb as <-.
  split; [apply elem_of_cons; right; apply elem_of_cons; by left|].
  unfold build_jail_evidence_system_tx in Hj.
  destruct (negb (is_jail_consensus_height _ h)); [done|]. destruct (negb (is_epoch_boundary h)); [done|].
  fold active in Hj. case_bool_decide; [done|].
  destruct (new_jail_evidence_bundle _ _ _) as [tx'|] eqn:Hnew; [|done]. injection Hj as ->.
  unfold new_jail_evidence_bundle in Hnew. destruct (staking_op_encode _) as [d|] eqn:Hd; [|done].
  injection Hnew as <-. apply staking_op_roundtrip in Hd.
  apply doomed_execution. intros b Hc Hs.
  match goal with |- is_ok (execute_block _ ?blk _).2 = _ => set (block := blk) end.
  unfold execute_block. unfold mbind, st_bind, modify, ok_or.
  set (b1 := b <| bc_accounts := _ |>). cbn [coinbase].
  destruct (coinbase block) as [cb|]; [|done]. cbn [mret st_ret].
  unfold mret, st_ret.
  pose proof (keeps_jail_coinbase block (tx_amount cb) b1) as Hk.
  destruct (apply_coinbase cfg block (tx_amount cb) b1) as [b2 [[]|]]; [|done]. injection Hk as E2 S2.
  assert (Htl : ∃ t rest, tail (blk_transactions block) = t :: rest ∧
    staking_op_decode (tx_data t) = staking_op_decode d) by (by eexists _, _).
  destruct Htl as (t & rest & -> & Ht). rewrite Hd in Ht. cbn [apply_txs]. unfold mbind, st_bind.
  pose proof (bundle_mismatch_fails block t 0 b2 _ _ _ _ _ Ht Hv) as Hm.
  assert (Hh : bc_height b2 = bc_height bc) by (unfold bc_height; by rewrite E2, Hc).
  rewrite Hh, S2, Hs in Hm. specialize (Hm Hne). by destruct (apply_tx cfg block t 0 b2) as [b3 [x|]].
Qed.
End preflight.
