(* ===== verification/TokenOps.v ===== *)
(** * Direct token operations

    Models crates/sentrix-core/src/token_ops.rs, the operations on tokens that do not
    go through a block: a fee in SRX, then the operation on the registry.  Shows
    where the fee goes, that it stays paid when the operation fails, and that the
    payer is not in the set of touched accounts. *)

From S2P Require Import Prelude Bytes Account Token TokenRegistry Transaction Authority Emission Staking Epoch Slashing Merkle BftMessages Block Chain Executor.

Section ops.
Context `{ChainTypes, Json, Sha256, TxCrypto, Hex, HashOrder}.
Implicit Types (bc : Blockchain).

(** The fee: half is burned, rounded up, the rest goes to [receiver]. *)
Definition pay_fee (payer : string) (fee : Z) (underflow receiver : string) : st AccountDB unit :=
  modify (get_or_create payer) ;;
  acc ← gets (λ db, account_or_new db payer) ;
  b ← ok_or (checked_sub (acct_balance acc) fee) (Internal underflow) ;
  modify (put_account payer (acc <| acct_balance := b |>)) ;;
  modify (λ db, db <| total_burned := wrapping_add U64_MAX (total_burned db) (div_ceil fee 2) |>) ;;
  credit receiver (fee - div_ceil fee 2).
Definition take_fee (payer : string) (fee : Z) (underflow : string) (receiver : Blockchain → string) : st Blockchain unit :=
  balance ← gets (λ bc, get_balance (bc_accounts bc) payer) ;
  fail_if (balance <? fee) (InsufficientBalance balance fee) ;;
  if 0 <? fee then to ← gets receiver ; on_accounts (pay_fee payer fee underflow to) else mret tt.
(** The validator of the next block, or the fund. *)
Definition gas_receiver bc : string :=
  match expected_validator (bc_authority bc) (wrapping_add U64_MAX (bc_height bc) 1) with
  | Ok v => av_address v
  | Err _ => ECOSYSTEM_FUND_ADDRESS
  end.

Definition deploy_token (deployer name symbol : string) (decimals total_supply max_supply deploy_fee : Z) : st Blockchain string :=
  take_fee deployer deploy_fee "deploy fee underflow" (λ _, ECOSYSTEM_FUND_ADDRESS) ;;
  nonce ← gets (λ bc, get_nonce (bc_accounts bc) deployer) ;
  on_contracts (deploy deployer name symbol decimals total_supply max_supply (deployer +:+ "|" +:+ pretty nonce +:+ "|" +:+ name)).
Definition token_transfer (contract_address caller to : string) (amount gas_fee : Z) : st Blockchain unit :=
  take_fee caller gas_fee "gas fee underflow" gas_receiver ;;
  on_contracts (on_contract contract_address (transfer_token caller to amount)).
Definition token_burn (contract_address caller : string) (amount gas_fee : Z) : st Blockchain unit :=
  take_fee caller gas_fee "gas fee underflow" gas_receiver ;;
  on_contracts (on_contract contract_address (burn_token caller amount)).
Definition token_balance bc (contract_address address : string) : Z :=
  default 0 ((λ c, balance_of c address) <$> get_contract (bc_contracts bc) contract_address).

(** ** The fee *)

Lemma pay_fee_ok payer fee u to db db' :
  pay_fee payer fee u to db = (db', Ok tt) →
  supply db' = supply db - div_ceil fee 2 ∧
  total_burned db' = wrapping_add U64_MAX (total_burned db) (div_ceil fee 2) ∧
  touched_in_block db' = {[to]} ∪ touched_in_block db ∧
  (∀ a, get_balance db' a = get_balance db a - (if decide (a = payer) then fee else 0)
                            + (if decide (a = to) then fee - div_ceil fee 2 else 0)).
Proof.
  unfold pay_fee. unfold_st_goal. destruct (checked_sub _ _) as [b|] eqn:Eb; [|done].
  assert (Hb : b = get_balance db payer - fee).
  { revert Eb. unfold checked_sub. rewrite balance_or_new. unfold get_or_create. rewrite get_balance_put, decide_True, balance_or_new by done.
    by destruct (_ <=? _); intros [= <-]. }
  match goal with |- credit to _ ?d = _ → _ => set (db1 := d) end.
  assert (Hs : supply db1 = supply db - fee).
  { change (supply db1) with (supply (put_account payer (account_or_new (get_or_create payer db) payer <| acct_balance := b |>) (get_or_create payer db))).
    rewrite supply_put. simpl. unfold get_or_create. rewrite supply_put, get_balance_put, decide_True by done. rewrite balance_or_new, Hb. lia. }
  assert (Hg : ∀ a, get_balance db1 a = get_balance db a - (if decide (a = payer) then fee else 0)).
  { intros a. change (get_balance db1 a) with (get_balance (put_account payer (account_or_new (get_or_create payer db) payer <| acct_balance := b |>) (get_or_create payer db)) a).
    rewrite get_balance_put. simpl. unfold get_or_create. rewrite get_balance_put, balance_or_new, Hb. repeat case_decide; simplify_eq; lia. }
  assert (Ht : touched_in_block db1 = touched_in_block db ∧ total_burned db1 = wrapping_add U64_MAX (total_burned db) (div_ceil fee 2)) by done.
  clearbody db1. intros Hc. assert (Ett : touched_in_block db' = {[to]} ∪ touched_in_block db1).
  { rewrite credit_eq in Hc. destruct (_ <=? _); [|done]. by injection Hc as <-. }
  apply credit_effect in Hc as (Hc1 & _ & Hc2 & Hc3). destruct Ht as [Ht Hbn].
  split_and!; [lia|congruence|congruence|]. intros a. rewrite Hc1, Hg. lia.
Qed.

(** A direct transfer or burn takes its fee first and keeps it: when the contract does
    not exist the call fails and the fee is gone. *)
Theorem direct_call_keeps_fee contract caller to amount fee bc bc' e :
  rg_contracts (bc_contracts bc) !! contract = None → 0 < fee →
  token_transfer contract caller to amount fee bc = (bc', Err e) → e = NotFound ("contract " +:+ contract) →
  bc_contracts bc' = bc_contracts bc ∧
  supply (bc_accounts bc') = supply (bc_accounts bc) - div_ceil fee 2 ∧
  (caller ≠ gas_receiver bc → get_balance (bc_accounts bc') caller = get_balance (bc_accounts bc) caller - fee).
Proof.
  intros Hn Hf. unfold token_transfer, take_fee, on_accounts, on_contracts, on_contract. unfold_st_goal.
  rewrite (proj2 (Z.ltb_lt 0 fee) Hf). destruct (_ <? fee); [intros [= <- <-]; discriminate|].
  destruct (pay_fee caller fee "gas fee underflow" (gas_receiver bc) (bc_accounts bc)) as [db [[]|e']] eqn:Ep.
  - cbn [bc_contracts]. change (bc_contracts (bc <| bc_accounts := db |>)) with (bc_contracts bc). rewrite Hn. intros [= <- <-] _.
    apply pay_fee_ok in Ep as (Hs & _ & _ & Hb). split; [done|]. split; [done|]. intros Hne.
    change (get_balance db caller = get_balance (bc_accounts bc) caller - fee).
    rewrite Hb, decide_True, decide_False by done. lia.
  - intros [= <- <-] ->. exfalso. revert Ep. unfold pay_fee. unfold_st_goal. destruct (checked_sub _ _); [|done].
    rewrite credit_eq. by destruct (_ <=? _).
Qed.
(** Only the receiver of the fee is marked as touched: the debit of the payer does not
    reach the state trie of the block. *)
Theorem fee_payer_untouched payer fee u to db db' :
  pay_fee payer fee u to db = (db', Ok tt) → payer ≠ to → payer ∉ touched_in_block db → 0 < fee →
  payer ∉ touched_in_block db' ∧ get_balance db' payer ≠ get_balance db payer.
Proof.
  intros (_ & _ & Ht & Hb)%pay_fee_ok Hne Hn Hf. rewrite Ht, Hb, decide_True, decide_False by done. split; [set_solver|lia].
Qed.
End ops.
