(* ===== verification/ValidatorLoop.v ===== *)
(** * The validator loop

    Models the Voyager half of the validator loop of bin/sentrix/src/main.rs: the
    start of a height, the messages from peers, the actions of the engine with
    the block they finalise, the repetition of a proposal and the timeouts; and
    the task that hands it the events of the network.  [BftDriver] has the
    timeouts on their own, and the signing of proposals.

    The scratch copy on which a proposal is tried shares the trie's tables with
    the chain; here it is a value. *)

From S2P Require Import Prelude Bytes Account Staking Epoch Slashing Token Transaction Authority.
From S2P Require Import Nft Emission BftMessages SignGuard BftEngine BftDriver Justify Block Chain.
From S2P Require Import Storage Executor Preflight Wire Network.

Inductive BftMessage :=
  | MsgPropose (p : Proposal)
  | MsgPrevote (v : Prevote)
  | MsgPrecommit (v : Precommit)
  | MsgRoundStatus (s : RoundStatus).

(** What leaves the loop: consensus messages, round statuses, blocks, the
    request to synchronise, and the heights queued for the state writer. *)
Inductive Sent :=
  | SentVote (o : Outgoing)
  | SentStatus (s : RoundStatus)
  | SentBlock (b : Block)
  | SentSync
  | SentSave (height : Z).

(** The outside world at one step: clock, guard file, whether a prevote and a
    precommit are accepted for sending, whether the disk takes a block and
    whether the state writer's queue has room. *)
Record Turn := mkTurn {
  tu_now : Z;
  tu_io : bool;
  tu_prevote_sent : bool;
  tu_precommit_sent : bool;
  tu_disk : bool;
  tu_queue : bool;
}.

(** The loop's variables other than [bft_engine], the shared chain and the
    database. *)
Record Node `{ChainTypes} := mkNode {
  nd_guard : GuardWorld;
  nd_proposed_block : option Block;
  nd_broadcast_at : option Z;
  nd_rebroadcast_count : Z;
  nd_last_signed : option Proposal;
  nd_speculative : option (Z * Block * Proposal);
  nd_ticks : Z;
  nd_chain : Blockchain;
  nd_db : ChainDb;
  nd_out : list Sent;
}.
#[global] Instance Node_eta `{ChainTypes} : Eta Node := λ n,
  mkNode _ (nd_guard n) (nd_proposed_block n) (nd_broadcast_at n) (nd_rebroadcast_count n)
    (nd_last_signed n) (nd_speculative n) (nd_ticks n) (nd_chain n) (nd_db n) (nd_out n).

Definition REBROADCAST_INTERVAL : Z := 500.
Definition MAX_REBROADCASTS : Z := 28.

Section loop.
Context `{ChainTypes, !ChainOps, Json, Sha256, TxCrypto, Hex, HashOrder, crypto : Crypto}.
Context (cfg : NodeConfig) (hash_payload : bytes → string).
(** [bincode] for blocks. *)
Context (encode_block : Block → bytes) (decode_block : bytes → option Block).
Context (sk : SecretKey) (wallet : string).
Implicit Types (n : Node) (e : BftEngine) (bc : Blockchain) (env : Turn).

Definition registry n : StakeRegistry := bc_stake_registry (nd_chain n).
Definition emit (s : Sent) n : Node := n <| nd_out := nd_out n ++ [s] |>.
Definition stake_of n (addr : string) : Z :=
  default 0 (v_total_stake <$> get_validator (registry n) addr).

(** ** Proposing *)

(** A new block, as it is after its application to a copy of the chain. *)
Definition trial_block bc : option Block :=
  match create_block_voyager (cfg_forks cfg) (cfg_now cfg) bc wallet with
  | Ok raw =>
      match add_block cfg raw bc with
      | (scratch, Ok _) => match latest_block scratch with Ok b => Some b | Err _ => None end
      | (_, Err _) => None
      end
  | Err _ => None
  end.
Definition poll_of env n : Poll :=
  mkPoll (tu_now env) (tu_io env) (tu_prevote_sent env) (tu_precommit_sent env)
    ((λ b, (b, encode_block b)) <$> trial_block (nd_chain n)).
Definition build_proposal env e n : Node * option (Block * Proposal) :=
  let '(w, built) :=
    build_or_reuse_proposal hash_payload blk_hash decode_block sk (poll_of env n) e (nd_guard n) in
  (n <| nd_guard := w |>, built).

(** Send a proposal and take it as our own; the timeout branch does not remember
    it for repetition. *)
Definition send_proposal env (remember : bool) (block : Block) (p : Proposal) e n
    : BftEngine * Node * BftAction :=
  let n := emit (SentVote (OutProposal p)) n
    <| nd_broadcast_at := Some (tu_now env) |> <| nd_rebroadcast_count := 0 |>
    <| nd_proposed_block := Some block |> in
  let n := if remember then n <| nd_last_signed := Some p |> else n in
  let e := stash_proposal_bytes (blk_hash block) (pp_block_data p) e in
  let '(e, act) := on_own_proposal (tu_now env) (blk_hash block) e in
  (e, n, act).
Definition loop_next_round env (remember : bool) e n : BftEngine * Node :=
  let e := advance_round (tu_now env) e in
  if is_proposer (registry n) e then
    match build_proposal env e n with
    | (n, Some (block, p)) => (send_proposal env remember block p e n).1
    | (n, None) => (e, n)
    end
  else (e, n).

(** ** Finalising *)

(** The rewards and the epoch, which the executor does itself from the fork on. *)
Definition finalize_bookkeeping (height : Z) (proposer : string) (j : BlockJustification) bc : Blockchain :=
  let bc :=
    if is_reward_apply_path_height (cfg_forks cfg) height then bc
    else
      let reward := bc_block_reward (cfg_forks cfg) bc in
      let bc := bc <| bc_epoch_manager := record_block reward (bc_epoch_manager bc) |> in
      let active := active_set (bc_stake_registry bc) in
      let bc := bc <| bc_slashing :=
        record_block_signatures active (sp_validator <$> bj_precommits j) height (bc_slashing bc) |> in
      bc <| bc_stake_registry := (distribute_reward proposer
        ((λ p, (sp_validator p, sp_stake_weight p)) <$> bj_precommits j) reward 0 (bc_stake_registry bc)).1 |> in
  if is_reward_apply_path_height (cfg_forks cfg) height then bc else run_epoch_bookkeeping cfg height bc.

(** The proposal for the next height, prepared at once when we lead its round 0.
    [None]: the trial application failed, and with it the rest of the arm is left. *)
Definition prebuild env n : option Node :=
  let next_h := saturating_add U64_MAX (bc_height (nd_chain n)) 1 in
  if bool_decide (weighted_proposer (registry n) next_h 0 = Some wallet) then
    match create_block_voyager (cfg_forks cfg) (cfg_now cfg) (nd_chain n) wallet with
    | Err _ => Some n
    | Ok _ =>
        match trial_block (nd_chain n) with
        | None => None
        | Some block =>
            let '(w, prop) := prop_sign hash_payload (tu_io env) sk
              (mkProposal next_h 0 (blk_hash block) (encode_block block) wallet []
                 (Some (mkPrevote next_h 0 (Some (blk_hash block)) wallet []))) (nd_guard n) in
            Some (n <| nd_guard := w |> <| nd_speculative := Some (next_h, block, prop) |>)
        end
    end
  else Some (n <| nd_speculative := None |>).

(** After [add_block]: the block is kept on disk (by the message branch only),
    its state queued, and the block sent. *)
Definition announce env (persist : bool) (height : Z) (block : Block) n : Node :=
  let queue n := if tu_queue env then emit (SentSave height) n else n in
  if persist then
    if tu_disk env then emit (SentBlock block) (queue (n <| nd_db := save_block block (nd_db n) |>)) else n
  else emit (SentBlock block) (queue n).

Definition commit_finalized env (persist : bool) (height : Z) (j : BlockJustification) (block : Block) n : Node :=
  match validate_block cfg (nd_chain n) block with
  | Err _ => n
  | Ok _ =>
      match add_block cfg block (nd_chain n) with
      | (bc, Err _) => n <| nd_chain := bc |>
      | (bc, Ok _) =>
          let updated := match latest_block bc with Ok b => Some b | Err _ => None end in
          let n := n <| nd_chain := finalize_bookkeeping height (blk_validator block) j bc |> in
          match prebuild env n with
          | None => n <| nd_speculative := None |>
          | Some n => match updated with Some b => announce env persist height b n | None => n end
          end
      end
  end.

Definition on_finalize env (persist : bool) (height round : Z) (block_hash : string)
    (j : BlockJustification) e n : BftEngine * Node :=
  if height <=? bc_height (nd_chain n) then (e, n <| nd_proposed_block := None |>)
  else
    match peer_supermajority_higher_round e with
    | Some target =>
        match catch_up_round (tu_now env) target (registry n) e with
        | (e, Some prevote) =>
            let '(w, signed_pv) := pv_sign hash_payload (tu_io env) sk prevote (nd_guard n) in
            let n := n <| nd_guard := w |> in
            (e, if tu_prevote_sent env then emit (SentVote (OutPrevote signed_pv)) n else n)
        | (e, None) => (e, n)
        end
    | None =>
        match nd_proposed_block n with
        | None => (e, n)
        | Some block =>
            let n := n <| nd_proposed_block := None |> in
            if negb (bool_decide (blk_hash block = block_hash)) then (e, n)
            else (e, commit_finalized env persist height j
                       (block <| blk_round := round |> <| blk_justification := Some j |>) n)
        end
    end.

(** ** Actions *)

(** The loop over the actions that one event gives; three steps are enough
    ([actions_fuel]). *)
Fixpoint actions (fuel : nat) env (persist : bool) (act : BftAction) e n : BftEngine * Node :=
  match fuel with
  | O => (e, n)
  | S fuel =>
      match act with
      | BroadcastPrevote p =>
          let '(w, signed_pv) := pv_sign hash_payload (tu_io env) sk p (nd_guard n) in
          let n := n <| nd_guard := w |> in
          if tu_prevote_sent env then
            let n := emit (SentVote (OutPrevote signed_pv)) n in
            let '(e, act) := on_prevote_weighted (tu_now env) p (stake_of n wallet) (mark_prevote_cast e) in
            actions fuel env persist act e n
          else (e, n)
      | BroadcastPrecommit p =>
          let '(w, signed_pc) := pc_sign hash_payload (tu_io env) sk p (nd_guard n) in
          let n := n <| nd_guard := w |> in
          if tu_precommit_sent env then
            let n := emit (SentVote (OutPrecommit signed_pc)) n in
            let '(e, act) := on_precommit_weighted p (stake_of n wallet) (mark_precommit_cast e) in
            actions fuel env persist act e n
          else (e, n)
      | FinalizeBlock height round block_hash j => on_finalize env persist height round block_hash j e n
      | TimeoutAdvanceRound | SkipRound => loop_next_round env true e n
      | SyncNeeded _ => (e, emit SentSync n)
      | Wait | ProposeBlock => (e, n)
      end
  end.

(** ** Messages from peers *)

(** What the engine makes of a message; [None] where the loop skips it. *)
Definition dispatch env (msg : BftMessage) e n : option (BftEngine * Node * BftAction) :=
  match msg with
  | MsgPropose p =>
      if negb (pp_height p =? height (state e)) then None
      else if negb (pp_round p =? round (state e)) then None
      else
        match decode_block (pp_block_data p) with
        | None => None
        | Some block =>
            let n := n <| nd_proposed_block := Some block |> in
            let e := stash_proposal_bytes (pp_block_hash p) (pp_block_data p) e in
            let '(e, act) := on_proposal (tu_now env) (pp_block_hash p) (pp_proposer p) (registry n) e in
            Some (e, n, act)
        end
  | MsgPrevote v =>
      let '(e, act) := on_prevote_weighted (tu_now env) v (stake_of n (pv_validator v)) e in
      Some (e, n, act)
  | MsgPrecommit v =>
      let '(e, act) := on_precommit_weighted v (stake_of n (pc_validator v)) e in
      Some (e, n, act)
  | MsgRoundStatus s =>
      let '(e, act) := on_round_status_weighted (tu_now env) s (stake_of n (rs_validator s)) (registry n) e in
      Some (e, n, act)
  end.
Definition on_message env (msg : BftMessage) e n : BftEngine * Node :=
  match dispatch env msg e n with
  | None => (e, n)
  | Some (e, n, act) => actions 3 env true act e n
  end.
Definition drain (msgs : list (Turn * BftMessage)) e n : BftEngine * Node :=
  foldl (λ '(e, n) '(env, msg), on_message env msg e n) (e, n) msgs.

(** ** A height *)

(** Past the rounds in which the guard says we voted. *)
Definition resume_round env (next_height : Z) (w : GuardWorld) e : BftEngine :=
  match guard_current_state w with
  | Some st =>
      if ls_height st =? next_height then
        let target_round := if 1 <=? ls_step st then saturating_add U32_MAX (ls_round st) 1 else ls_round st in
        Nat.iter (Z.to_nat target_round) (advance_round (tu_now env)) e
      else e
  | None => e
  end.
(** The proposal prepared for this height, if it can still be used. *)
Definition take_speculative (next_height : Z) e n : option (Block * Proposal) :=
  match nd_speculative n with
  | Some (h, block, p) =>
      if (h =? next_height) && (round (state e) =? 0) && bool_decide (locked_proposal_bytes e = None)
      then Some (block, p) else None
  | None => None
  end.
Definition open_height env (next_height : Z) n : BftEngine * Node :=
  let e := BftEngine_new (tu_now env) next_height wallet (active_stake (registry n)) in
  let e := resume_round env next_height (nd_guard n) e in
  let n := n <| nd_proposed_block := None |> <| nd_broadcast_at := None |>
             <| nd_rebroadcast_count := 0 |> <| nd_last_signed := None |> in
  if is_proposer (registry n) e then
    let stash := take_speculative next_height e n in
    let n := n <| nd_speculative := None |> in
    let '(n, built) := match stash with
      | Some bp => (n, Some bp)
      | None => build_proposal env e n
      end in
    match built with
    | Some (block, p) =>
        let '(e, n, act) := send_proposal env true block p e n in actions 3 env false act e n
    | None => (e, n)
    end
  else (e, n).

(** ** One iteration *)

Definition send_status (engine : option BftEngine) n : Node :=
  let n := n <| nd_ticks := nd_ticks n + 1 |> in
  match engine with
  | Some e => if (nd_ticks n) mod 20 =? 0 then emit (SentStatus (rs_sign sk (build_round_status e))) n else n
  | None => n
  end.
(** [None]: too few active validators, the iteration ends here. *)
Definition ensure_height env (engine : option BftEngine) n : option (BftEngine * Node) :=
  let current_height := bc_height (nd_chain n) in
  let next_height := saturating_add U64_MAX current_height 1 in
  let fresh :=
    if active_count (registry n) <?
       min_active_for_bft (cfg_forks cfg) next_height (Z.of_nat (size (validators (registry n))))
    then None else Some (open_height env next_height n) in
  match engine with
  | None => fresh
  | Some e => if height (state e) <=? current_height then fresh else Some (e, n)
  end.
(** A proposal not yet answered is sent again, as it was. *)
Definition rebroadcast (now : Z) e n : Node :=
  match nd_last_signed n with
  | Some p =>
      if bool_decide (is_Some (nd_proposed_block n)) && (pp_height p =? height (state e))
         && (pp_round p =? round (state e))
         && (bool_decide (phase (state e) = Propose) || bool_decide (phase (state e) = PhasePrevote))
         && (nd_rebroadcast_count n <? MAX_REBROADCASTS)
         && match nd_broadcast_at n with Some t => REBROADCAST_INTERVAL <=? now - t | None => false end
      then emit (SentVote (OutProposal p)) n <| nd_broadcast_at := Some now |>
             <| nd_rebroadcast_count := nd_rebroadcast_count n + 1 |>
      else n
  | None => n
  end.
(** The actions of a timeout: votes and round changes, everything else is
    dropped. *)
Fixpoint timeout_actions (fuel : nat) env (act : BftAction) e n : BftEngine * Node :=
  match fuel with
  | O => (e, n)
  | S fuel =>
      match act with
      | BroadcastPrevote p =>
          let '(w, signed_pv) := pv_sign hash_payload (tu_io env) sk p (nd_guard n) in
          let n := n <| nd_guard := w |> in
          if tu_prevote_sent env then
            let n := emit (SentVote (OutPrevote signed_pv)) n in
            let '(e, act) := on_prevote_weighted (tu_now env) p (stake_of n wallet) (mark_prevote_cast e) in
            timeout_actions fuel env act e n
          else (e, n)
      | BroadcastPrecommit p =>
          let '(w, signed_pc) := pc_sign hash_payload (tu_io env) sk p (nd_guard n) in
          let n := n <| nd_guard := w |> in
          if tu_precommit_sent env then
            let n := emit (SentVote (OutPrecommit signed_pc)) n in
            let '(e, act) := on_precommit_weighted p (stake_of n wallet) (mark_precommit_cast e) in
            timeout_actions fuel env act e n
          else (e, n)
      | TimeoutAdvanceRound | SkipRound => loop_next_round env false e n
      | _ => (e, n)
      end
  end.
Definition on_timeouts env e n : BftEngine * Node :=
  if is_timed_out (tu_now env) e then
    let '(e, act) := on_timeout (tu_now env) e in timeout_actions 3 env act e n
  else (e, n).

Definition iteration env (msgs : list (Turn * BftMessage)) (env' : Turn) (engine : option BftEngine) n
    : option BftEngine * Node :=
  let n := send_status engine n in
  match ensure_height env engine n with
  | None => (engine, n)
  | Some (e, n) =>
      let '(e, n) := drain msgs e n in
      let '(e, n) := on_timeouts env' e (rebroadcast (tu_now env') e n) in
      (Some e, n)
  end.
End loop.
