(* ===== verification/ValidatorProps.v ===== *)
(** * The validator loop: what it writes

    Theorems on [ValidatorLoop], for every interleaving of its steps with blocks
    that arrive from peers: it appends only certified blocks, one per height; and
    the ways in which a certified block is lost. *)

From S2P Require Import Prelude Bytes Account Staking Epoch Slashing Token Transaction Authority Nft Emission.
From S2P Require Import BftMessages SignGuard BftEngine BftProps BftTheorems BftDriver Justify Block Chain Storage.
From S2P Require Import Executor ExecutorProps Preflight Wire Network NetworkProps ValidatorLoop.

(** ** The engine, as the loop calls it *)

(** A finalisation comes with its certificate. *)
Definition certified (act : BftAction) (e : BftEngine) : Prop :=
  match act with FinalizeBlock h r b j => BftTheorems.justified e h r b j | _ => True end.
(** Inside a height. *)
Record eng_ok (e e' : BftEngine) : Prop := {
  eo_inv : engine_inv e';
  eo_height : height (state e') = height (state e);
  eo_address : our_address e' = our_address e;
}.

Section engine.
Context `{HashOrder}.
Implicit Types e : BftEngine.

Lemma eng_ok_refl e : engine_inv e → eng_ok e e.
Proof. by split. Qed.
Lemma eng_ok_trans e1 e2 e3 : eng_ok e1 e2 → eng_ok e2 e3 → eng_ok e1 e3.
Proof. intros [] []. split; congruence || done. Qed.
Lemma same_round_ok e e' : engine_inv e' → same_round e e' → eng_ok e e'.
Proof. intros He (Hs & Ha & _). unfold slot in Hs. injection Hs as ??. by split. Qed.

Lemma mark_prevote_ok e : engine_inv e → eng_ok e (mark_prevote_cast e).
Proof. intros He. destruct (bft_step_cases 0 EvMarkPrevote e He I) as [Hi _]. by split. Qed.
Lemma mark_precommit_ok e : engine_inv e → eng_ok e (mark_precommit_cast e).
Proof. intros He. destruct (bft_step_cases 0 EvMarkPrecommit e He I) as [Hi _]. by split. Qed.
Lemma stash_ok b data e : engine_inv e → eng_ok e (stash_proposal_bytes b data e).
Proof. intros He. destruct (bft_step_cases 0 (EvStash b data) e He I) as [Hi _]. by split. Qed.
Lemma advance_ok now e : engine_inv e → eng_ok e (advance_round now e).
Proof.
  intros He. split; [|done|done]. pose proof (ei_round e He).
  apply (engine_inv_advance e (saturating_add U32_MAX (round (state e)) 1)); [done|ulia|ulia].
Qed.
Lemma catch_up_ok now target r e :
  engine_inv e → target <= U32_MAX →
  eng_ok e (catch_up_round now target r e).1 ∧ (catch_up_round now target r e).2 = None.
Proof.
  intros He Ht. pose proof (bft_step_cases now (EvCatchUp target r) e He Ht) as Hs. cbn [bft_step] in Hs.
  destruct (Z.leb_spec target (round (state e))) as [Hle|Hlt].
  - unfold catch_up_round in *. rewrite (proj2 (Z.leb_le _ _)) by done. auto using eng_ok_refl.
  - pose proof (ei_round e He). rewrite catch_up_round_eq in Hs |- * by ulia. by destruct Hs.
Qed.

Lemma own_proposal_ok now b e :
  engine_inv e → let '(e', act) := on_own_proposal now b e in
  eng_ok e e' ∧ (act = Wait ∨ ∃ p, act = BroadcastPrevote p).
Proof.
  intros He. pose proof (on_own_proposal_step now b e He) as Hs.
  assert (Hshape : (on_own_proposal now b e).2 = Wait ∨ ∃ p, (on_own_proposal now b e).2 = BroadcastPrevote p).
  { unfold on_own_proposal, retry_pending_prevote_for, accept_proposal, emit_prevote.
    repeat (case_match; simplify_eq/=); eauto. }
  destruct (on_own_proposal now b e) as [e' act]. destruct Hs as (? & ? & _).
  split; [by apply same_round_ok|done].
Qed.
Lemma proposal_ok now b a r e :
  engine_inv e → let '(e', act) := on_proposal now b a r e in
  eng_ok e e' ∧ (act = Wait ∨ ∃ p, act = BroadcastPrevote p).
Proof.
  intros He. pose proof (on_proposal_step now b a r e He) as Hs.
  assert (Hshape : (on_proposal now b a r e).2 = Wait ∨ ∃ p, (on_proposal now b a r e).2 = BroadcastPrevote p).
  { unfold on_proposal, retry_pending_prevote_for, accept_proposal, emit_prevote.
    repeat (case_match; simplify_eq/=); eauto. }
  destruct (on_proposal now b a r e) as [e' act]. destruct Hs as (? & ? & _).
  split; [by apply same_round_ok|done].
Qed.
Lemma prevote_ok now v stake e :
  engine_inv e → let '(e', act) := on_prevote_weighted now v stake e in
  eng_ok e e' ∧ (act = Wait ∨ ∃ p, act = BroadcastPrecommit p).
Proof.
  intros He. pose proof (on_prevote_step now v stake e He) as Hs.
  pose proof (on_prevote_outcome now v stake e He) as Ho.
  destruct (on_prevote_weighted now v stake e) as [e' act]. destruct Hs as (? & ? & _). simpl in Ho.
  split; [by apply same_round_ok|]. destruct Ho; naive_solver.
Qed.
Lemma precommit_ok v stake e :
  engine_inv e → let '(e', act) := on_precommit_weighted v stake e in
  eng_ok e e' ∧ certified act e' ∧ (act = Wait ∨ act = SkipRound ∨ ∃ h r b j, act = FinalizeBlock h r b j).
Proof.
  intros He. pose proof (on_precommit_step v stake e He) as Hs. pose proof (on_precommit_outcome v stake e) as Ho.
  pose proof (λ e' h r b j, finalize_justified 0 (EvPrecommit v stake) e e' h r b j He I) as Hj. cbn [bft_step] in Hj.
  destruct (on_precommit_weighted v stake e) as [e' act]. destruct Hs as (? & ? & _). simpl in Ho.
  split_and!; [by apply same_round_ok|destruct act; simpl; auto|]. destruct Ho; naive_solver.
Qed.
Lemma status_ok now s stake r e :
  engine_inv e → in_u32 (rs_round s) → let '(e', act) := on_round_status_weighted now s stake r e in
  eng_ok e e' ∧ (act = Wait ∨ ∃ h, act = SyncNeeded h).
Proof.
  intros He Hr. unfold on_round_status_weighted.
  destruct (_ <? _); [eauto using eng_ok_refl|]. destruct (_ <? _); [eauto using eng_ok_refl|].
  assert (Hn : eng_ok e (note_peer s stake e)) by (split; [by apply note_peer_inv|done..]).
  destruct (f_plus_one_round _) as [target|] eqn:Ef; [|auto]. destruct (_ <? _); [|auto].
  assert (Ht : target <= U32_MAX).
  { apply f_plus_one_u32 in Ef; [ulia|apply Hn]. }
  destruct (catch_up_ok now target r _ (eo_inv _ _ Hn) Ht) as [Hc E].
  destruct (catch_up_round _ _ _ _) as [e' o]. simpl in *. subst o. eauto using eng_ok_trans.
Qed.
Lemma timeout_ok now e :
  engine_inv e → let '(e', act) := on_timeout now e in eng_ok e e' ∧ certified act e'.
Proof.
  intros He. pose proof (on_timeout_step now e He) as Hs.
  pose proof (λ e' h r b j, finalize_justified now EvTimeout e e' h r b j He I) as Hj. cbn [bft_step] in Hj.
  destruct (on_timeout now e) as [e' act]. destruct Hs as (? & ? & _).
  split; [by apply same_round_ok|destruct act; simpl; auto].
Qed.
End engine.

Section loop.
Context `{ChainTypes, !ChainOps, Json, Sha256, TxCrypto, Hex, HashOrder, crypto : Crypto, JsonSlice, PartitionPoint}.
Context (cfg : NodeConfig) (hash_payload : bytes → string).
Context (encode_block : Block → bytes) (decode_block : bytes → option Block).
Context (sk : SecretKey) (wallet : string).
Implicit Types (n : Node) (e : BftEngine) (bc : Blockchain) (env : Turn).

(** ** Accounting for a block *)

(** A block is accounted for alike when the loop finalises it and when the
    network delivers it. *)
Lemma bookkeeping_agrees (b : Block) j bc :
  blk_justification b = Some j →
  finalize_bookkeeping cfg (blk_index b) (blk_validator b) j bc = received_bookkeeping cfg b bc.
Proof.
  intros Hj. unfold finalize_bookkeeping, received_bookkeeping. rewrite Hj.
  by destruct (is_reward_apply_path_height _ _).
Qed.
Lemma finalize_bookkeeping_chain h a j bc : bc_chain (finalize_bookkeeping cfg h a j bc) = bc_chain bc.
Proof.
  unfold finalize_bookkeeping. destruct (is_reward_apply_path_height _ _); [done|].
  unfold run_epoch_bookkeeping. destruct (negb _); [done|]. destruct (process_unbonding _ _) as [r rel].
  by destruct (check_liveness _ _ _) as [[sl r'] slashed].
Qed.

(** ** What one step does to the chain *)

(** Nothing, a block that the executor rejects, or the block of a certificate. *)
Inductive chain_move e' bc : Blockchain → Prop :=
  | CM_same : chain_move e' bc bc
  | CM_rejected block j err bc' :
      BftTheorems.justified e' (height (state e')) (round (state e')) (blk_hash block) j →
      blk_justification block = Some j → add_block cfg block bc = (bc', Err err) → chain_move e' bc bc'
  | CM_written block j bc1 :
      BftTheorems.justified e' (height (state e')) (round (state e')) (blk_hash block) j →
      blk_justification block = Some j → bc_height bc < height (state e') →
      validate_block cfg bc block = Ok tt → add_block cfg block bc = (bc1, Ok tt) →
      chain_move e' bc (finalize_bookkeeping cfg (height (state e')) (blk_validator block) j bc1).
Hint Constructors chain_move : core.

Lemma prebuild_chain env n n' : prebuild cfg hash_payload encode_block sk wallet env n = Some n' → nd_chain n' = nd_chain n.
Proof.
  unfold prebuild. intros E. repeat (case_match; simplify_eq/=; try done).
Qed.
Lemma announce_chain env persist h b n : nd_chain (announce env persist h b n) = nd_chain n.
Proof. unfold announce. by destruct persist, (tu_disk env), (tu_queue env). Qed.

Lemma commit_finalized_move env persist j block e n :
  BftTheorems.justified e (height (state e)) (round (state e)) (blk_hash block) j →
  blk_justification block = Some j → bc_height (nd_chain n) < height (state e) →
  chain_move e (nd_chain n)
    (nd_chain (commit_finalized cfg hash_payload encode_block sk wallet env persist (height (state e)) j block n)).
Proof.
  intros Hj Eb Hh. unfold commit_finalized.
  destruct (validate_block cfg (nd_chain n) block) as [[]|] eqn:Ev; [|auto].
  destruct (add_block cfg block (nd_chain n)) as [bc1 [[]|err]] eqn:Ea; [|by eapply CM_rejected].
  match goal with |- context [prebuild _ _ _ _ _ env ?m] => set (n1 := m) end.
  assert (Hm : chain_move e (nd_chain n) (nd_chain n1)) by (by eapply CM_written).
  destruct (prebuild _ _ _ _ _ env n1) as [n2|] eqn:Eb2; [|done]. apply prebuild_chain in Eb2.
  destruct (latest_block bc1); [by rewrite announce_chain, Eb2|by rewrite Eb2].
Qed.

(** Rounds of peers are [u32]. *)
Lemma supermajority_u32 e t : engine_inv e → peer_supermajority_higher_round e = Some t → t <= U32_MAX.
Proof.
  intros He Ep. unfold peer_supermajority_higher_round in Ep. destruct (_ =? 0); [done|].
  apply first_reaching_elem in Ep as [w Hw]. apply elem_of_peers_ahead in Hw as [_ [a Ha]].
  pose proof (ei_peers e He a _ Ha) as Hin. simpl in Hin. clear -Hin. ulia.
Qed.

Lemma on_finalize_move env persist h r b j e n :
  engine_inv e → BftTheorems.justified e h r b j →
  let '(e', n') := on_finalize cfg hash_payload encode_block sk wallet env persist h r b j e n in
  eng_ok e e' ∧ chain_move e' (nd_chain n) (nd_chain n').
Proof.
  intros He Hj. unfold on_finalize. destruct (Z.leb_spec h (bc_height (nd_chain n))); [auto using eng_ok_refl|].
  destruct (peer_supermajority_higher_round e) as [target|] eqn:Ep.
  { destruct (catch_up_ok (tu_now env) target (registry n) e He (supermajority_u32 _ _ He Ep)) as [Hc E].
    destruct (catch_up_round _ _ _ _) as [e' o]. simpl in *. subst o. auto. }
  destruct (nd_proposed_block n) as [block|]; [|auto using eng_ok_refl].
  case_bool_decide as Eb; cbn [negb]; (split; [by apply eng_ok_refl|]); [|auto].
  pose proof (ju_slot _ _ _ _ _ Hj) as Hs. unfold slot in Hs. injection Hs as Eh Er. subst b h r.
  pose proof (commit_finalized_move env persist j (block <| blk_round := round (state e) |>
    <| blk_justification := Some j |>) e (n <| nd_proposed_block := None |>)) as Hm.
  by apply Hm.
Qed.

Lemma send_proposal_ok env remember block p e n :
  engine_inv e → let '(e', n', act) := send_proposal env remember block p e n in
  eng_ok e e' ∧ nd_chain n' = nd_chain n ∧ (act = Wait ∨ ∃ v, act = BroadcastPrevote v).
Proof.
  intros He. unfold send_proposal. pose proof (stash_ok (blk_hash block) (pp_block_data p) e He) as Hs.
  pose proof (own_proposal_ok (tu_now env) (blk_hash block) _ (eo_inv _ _ Hs)) as Ho.
  destruct (on_own_proposal _ _ _) as [e' act]. destruct Ho as [Ho Hact].
  split_and!; [by eapply eng_ok_trans|by destruct remember|done].
Qed.
Lemma next_round_ok env remember e n :
  engine_inv e →
  let '(e', n') := loop_next_round cfg hash_payload encode_block decode_block sk wallet env remember e n in
  eng_ok e e' ∧ nd_chain n' = nd_chain n.
Proof.
  intros He. unfold loop_next_round, build_proposal. pose proof (advance_ok (tu_now env) e He) as Ha.
  destruct (is_proposer _ _); [|done]. destruct (build_or_reuse_proposal _ _ _ _ _ _ _) as [w [[block p]|]]; [|done].
  pose proof (send_proposal_ok env remember block p _ (n <| nd_guard := w |>) (eo_inv _ _ Ha)) as Hs.
  destruct (send_proposal _ _ _ _ _ _) as [[e' n'] act]. destruct Hs as (Hs & Hc & _).
  split; [by eapply eng_ok_trans|done].
Qed.

Abbreviation actions := (actions cfg hash_payload encode_block decode_block sk wallet).
Abbreviation timeout_actions := (timeout_actions cfg hash_payload encode_block decode_block sk wallet).

Lemma actions_move fuel env persist act e n :
  engine_inv e → certified act e →
  let '(e', n') := actions fuel env persist act e n in
  eng_ok e e' ∧ chain_move e' (nd_chain n) (nd_chain n').
Proof.
  revert act e n. induction fuel as [|fuel IH]; intros act e n He Hc; [simpl; auto using eng_ok_refl|].
  destruct act as [|p|p|h r b j| | | |ph]; cbn [ValidatorLoop.actions]; try (auto using eng_ok_refl; fail).
  - destruct (pv_sign _ _ _ _ _) as [w signed]. destruct (tu_prevote_sent env); [|auto using eng_ok_refl].
    pose proof (mark_prevote_ok e He) as Hm.
    match goal with |- context [on_prevote_weighted _ _ ?st _] =>
      pose proof (prevote_ok (tu_now env) p st _ (eo_inv _ _ Hm)) as Hp end.
    destruct (on_prevote_weighted _ _ _ _) as [e1 act]. destruct Hp as [Hp Hact].
    match goal with |- context [ValidatorLoop.actions _ _ _ _ _ _ fuel env persist act e1 ?n1] =>
      specialize (IH act e1 n1 (eo_inv _ _ Hp)) end.
    destruct (ValidatorLoop.actions _ _ _ _ _ _ fuel _ _ _ _ _) as [e2 n2].
    destruct IH as [Hi Hmv]; [by destruct Hact as [->|[? ->]]|]. split; [by eauto using eng_ok_trans|done].
  - destruct (pc_sign _ _ _ _ _) as [w signed]. destruct (tu_precommit_sent env); [|auto using eng_ok_refl].
    pose proof (mark_precommit_ok e He) as Hm.
    match goal with |- context [on_precommit_weighted _ ?st _] =>
      pose proof (precommit_ok p st _ (eo_inv _ _ Hm)) as Hp end.
    destruct (on_precommit_weighted _ _ _) as [e1 act]. destruct Hp as (Hp & Hact & _).
    match goal with |- context [ValidatorLoop.actions _ _ _ _ _ _ fuel env persist act e1 ?n1] =>
      specialize (IH act e1 n1 (eo_inv _ _ Hp) Hact) end.
    destruct (ValidatorLoop.actions _ _ _ _ _ _ fuel _ _ _ _ _) as [e2 n2].
    destruct IH as [Hi Hmv]. split; [by eauto using eng_ok_trans|done].
  - by apply on_finalize_move.
  - pose proof (next_round_ok env true e n He) as Hn. destruct (loop_next_round _ _ _ _ _ _ _ _ _ _) as [e' n'].
    destruct Hn as [? ->]. auto.
  - pose proof (next_round_ok env true e n He) as Hn. destruct (loop_next_round _ _ _ _ _ _ _ _ _ _) as [e' n'].
    destruct Hn as [? ->]. auto.
Qed.

(** A vote that is cast and counted is followed by at most one more vote and one
    last action: three steps of the loop are enough. *)
Lemma precommit_fuel k k' env persist p e n :
  engine_inv e → actions (S (S k)) env persist (BroadcastPrecommit p) e n
                 = actions (S (S k')) env persist (BroadcastPrecommit p) e n.
Proof.
  intros He. cbn [ValidatorLoop.actions]. destruct (pc_sign _ _ _ _ _) as [w signed].
  destruct (tu_precommit_sent env); [|done].
  match goal with |- context [on_precommit_weighted _ ?st _] =>
    pose proof (precommit_ok p st _ (eo_inv _ _ (mark_precommit_ok e He))) as Hp end.
  destruct (on_precommit_weighted _ _ _) as [e1 act]. destruct Hp as (_ & _ & [-> |[-> |(h & r & b & j & ->)]]); done.
Qed.
Lemma actions_fuel k env persist act e n :
  engine_inv e → actions (3 + k) env persist act e n = actions 3 env persist act e n.
Proof.
  intros He. destruct act as [|p|p|h r b j| | | |ph]; [done| |by apply (precommit_fuel (S k) 1)|done..].
  change (3 + k)%nat with (S (S (S k))). remember (S (S k)) as m eqn:Em. remember 2%nat as l eqn:El.
  cbn [ValidatorLoop.actions]. destruct (pv_sign _ _ _ _ _) as [w signed]. destruct (tu_prevote_sent env); [|done].
  match goal with |- context [on_prevote_weighted _ _ ?st _] =>
    pose proof (prevote_ok (tu_now env) p st _ (eo_inv _ _ (mark_prevote_ok e He))) as Hp end.
  destruct (on_prevote_weighted _ _ _ _) as [e1 act]. subst m l.
  destruct Hp as (Hp & [-> |[q ->]]); [done|]. apply precommit_fuel, Hp.
Qed.

Definition msg_ok (msg : BftMessage) : Prop :=
  match msg with MsgRoundStatus s => in_u32 (rs_round s) | _ => True end.

Lemma dispatch_ok env msg e n :
  engine_inv e → msg_ok msg →
  match dispatch decode_block env msg e n with
  | Some (e', n', act) => eng_ok e e' ∧ certified act e' ∧ nd_chain n' = nd_chain n
  | None => True
  end.
Proof.
  intros He Hm. destruct msg as [p|v|v|s]; cbn [dispatch].
  - destruct (negb _); [done|]. destruct (negb _); [done|]. destruct (decode_block _) as [block|]; [|done].
    pose proof (stash_ok (pp_block_hash p) (pp_block_data p) e He) as Hs.
    match goal with |- context [on_proposal _ _ _ ?r _] =>
      pose proof (proposal_ok (tu_now env) (pp_block_hash p) (pp_proposer p) r _ (eo_inv _ _ Hs)) as Hp end.
    destruct (on_proposal _ _ _ _ _) as [e' act]. destruct Hp as [Hp Ha].
    split_and!; [by eapply eng_ok_trans|by destruct Ha as [->|[? ->]]|done].
  - match goal with |- context [on_prevote_weighted _ _ ?st _] => pose proof (prevote_ok (tu_now env) v st e He) as Hp end.
    destruct (on_prevote_weighted _ _ _ _) as [e' act]. destruct Hp as [Hp Ha].
    split_and!; [done|by destruct Ha as [->|[? ->]]|done].
  - match goal with |- context [on_precommit_weighted _ ?st _] => pose proof (precommit_ok v st e He) as Hp end.
    destruct (on_precommit_weighted _ _ _) as [e' act]. destruct Hp as (Hp & Ha & _). done.
  - match goal with |- context [on_round_status_weighted _ _ ?st ?r _] =>
      pose proof (status_ok (tu_now env) s st r e He Hm) as Hp end.
    destruct (on_round_status_weighted _ _ _ _ _) as [e' act]. destruct Hp as [Hp Ha].
    split_and!; [done|by destruct Ha as [->|[? ->]]|done].
Qed.

Abbreviation on_message := (on_message cfg hash_payload encode_block decode_block sk wallet).
Abbreviation open_height := (open_height cfg hash_payload encode_block decode_block sk wallet).
Abbreviation on_timeouts := (on_timeouts cfg hash_payload encode_block decode_block sk wallet).
Abbreviation ensure_height := (ensure_height cfg hash_payload encode_block decode_block sk wallet).

Lemma on_message_move env msg e n :
  engine_inv e → msg_ok msg →
  let '(e', n') := on_message env msg e n in eng_ok e e' ∧ chain_move e' (nd_chain n) (nd_chain n').
Proof.
  intros He Hm. unfold ValidatorLoop.on_message. pose proof (dispatch_ok env msg e n He Hm) as Hd.
  destruct (dispatch _ _ _ _ _) as [[[e1 n1] act]|]; [|auto using eng_ok_refl]. destruct Hd as (He1 & Hc & En).
  pose proof (actions_move 3 env true act e1 n1 (eo_inv _ _ He1) Hc) as Ha.
  destruct (actions 3 env true act e1 n1) as [e' n']. rewrite En in Ha. destruct Ha.
  split; [by eapply eng_ok_trans|done].
Qed.

Lemma timeout_actions_ok fuel env act e n :
  engine_inv e → let '(e', n') := timeout_actions fuel env act e n in eng_ok e e' ∧ nd_chain n' = nd_chain n.
Proof.
  revert act e n. induction fuel as [|fuel IH]; intros act e n He; [simpl; auto using eng_ok_refl|].
  destruct act as [|p|p|h r b j| | | |ph]; cbn [ValidatorLoop.timeout_actions];
    try (split; [by apply eng_ok_refl|done]).
  - destruct (pv_sign _ _ _ _ _) as [w signed]. destruct (tu_prevote_sent env); [|auto using eng_ok_refl].
    pose proof (mark_prevote_ok e He) as Hm.
    match goal with |- context [on_prevote_weighted _ _ ?st _] =>
      pose proof (prevote_ok (tu_now env) p st _ (eo_inv _ _ Hm)) as Hp end.
    destruct (on_prevote_weighted _ _ _ _) as [e1 act]. destruct Hp as [Hp _].
    match goal with |- context [ValidatorLoop.timeout_actions _ _ _ _ _ _ fuel env act e1 ?n1] =>
      specialize (IH act e1 n1 (eo_inv _ _ Hp)) end.
    destruct (ValidatorLoop.timeout_actions _ _ _ _ _ _ fuel _ _ _ _) as [e2 n2].
    destruct IH as [Hi Hmv]. split; [by eauto using eng_ok_trans|done].
  - destruct (pc_sign _ _ _ _ _) as [w signed]. destruct (tu_precommit_sent env); [|auto using eng_ok_refl].
    pose proof (mark_precommit_ok e He) as Hm.
    match goal with |- context [on_precommit_weighted _ ?st _] =>
      pose proof (precommit_ok p st _ (eo_inv _ _ Hm)) as Hp end.
    destruct (on_precommit_weighted _ _ _) as [e1 act]. destruct Hp as (Hp & _).
    match goal with |- context [ValidatorLoop.timeout_actions _ _ _ _ _ _ fuel env act e1 ?n1] =>
      specialize (IH act e1 n1 (eo_inv _ _ Hp)) end.
    destruct (ValidatorLoop.timeout_actions _ _ _ _ _ _ fuel _ _ _ _) as [e2 n2].
    destruct IH as [Hi Hmv]. split; [by eauto using eng_ok_trans|done].
  - by apply next_round_ok.
  - by apply next_round_ok.
Qed.
Lemma on_timeouts_ok env e n :
  engine_inv e → let '(e', n') := on_timeouts env e n in eng_ok e e' ∧ nd_chain n' = nd_chain n.
Proof.
  intros He. unfold ValidatorLoop.on_timeouts. destruct (is_timed_out _ _); [|auto using eng_ok_refl].
  pose proof (timeout_ok (tu_now env) e He) as Ht. destruct (on_timeout (tu_now env) e) as [e1 act]. destruct Ht as [Ht _].
  pose proof (timeout_actions_ok 3 env act e1 n (eo_inv _ _ Ht)) as Ha.
  destruct (timeout_actions 3 env act e1 n) as [e2 n2]. destruct Ha. split; [by eapply eng_ok_trans|done].
Qed.

Lemma resume_ok env h w e : engine_inv e → eng_ok e (resume_round env h w e).
Proof.
  intros He. unfold resume_round. destruct (guard_current_state w) as [st|]; [|by apply eng_ok_refl].
  destruct (_ =? _); [|by apply eng_ok_refl]. induction (Z.to_nat _) as [|k IH]; simpl; [by apply eng_ok_refl|].
  eapply eng_ok_trans; [exact IH|]. apply advance_ok, IH.
Qed.
(** The start of a height: a sole validator may finalise at once. *)
Lemma open_height_move env h n :
  let '(e', n') := open_height env h n in
  engine_inv e' ∧ height (state e') = h ∧ our_address e' = wallet ∧ chain_move e' (nd_chain n) (nd_chain n').
Proof.
  unfold ValidatorLoop.open_height.
  set (e0 := BftEngine_new _ _ _ _). pose proof (engine_inv_new (tu_now env) h wallet (active_stake (registry n))) as H0'.
  pose proof (resume_ok env h (nd_guard n) e0 H0') as Hr. set (e1 := resume_round _ _ _ _) in *. clearbody e1.
  destruct Hr as [Hi Eh Ea]. simpl in Eh, Ea. destruct (is_proposer _ _); [|split_and!; auto].
  match goal with |- context [take_speculative h e1 ?m] => set (n1 := m) end.
  set (built := match take_speculative h e1 n1 with Some bp => _ | None => _ end).
  assert (Hb : nd_chain built.1 = nd_chain n).
  { unfold built. destruct (take_speculative h e1 n1); [done|]. unfold build_proposal.
    by destruct (build_or_reuse_proposal _ _ _ _ _ _ _). }
  destruct built as [n2 [[block p]|]]; simpl in Hb; [|rewrite Hb; split_and!; auto].
  pose proof (send_proposal_ok env true block p e1 n2 Hi) as Hs.
  destruct (send_proposal _ _ _ _ _ _) as [[e2 n3] act]. destruct Hs as (Hs & Hc & Hact).
  assert (Hcert : certified act e2) by (by destruct Hact as [->|[? ->]]).
  pose proof (actions_move 3 env false act e2 n3 (eo_inv _ _ Hs) Hcert) as Ha.
  destruct (actions 3 env false act e2 n3) as [e3 n4]. destruct Ha as [Ha Hm]. rewrite Hc, Hb in Hm.
  destruct (eng_ok_trans _ _ _ Hs Ha) as [? Eh' Ea']. rewrite Eh', Ea', Eh, Ea. done.
Qed.

(** ** The window *)

Lemma chain_inv_same bc bc' : bc_chain bc' = bc_chain bc → chain_inv bc → chain_inv bc' ∧ bc_height bc' = bc_height bc.
Proof. intros E [A B C]. split; [split; by rewrite E|unfold bc_height; by rewrite E]. Qed.

Lemma rollback_chain (snap bc : Blockchain) : bc_chain (rollback snap bc) = take (length (bc_chain snap)) (bc_chain bc).
Proof. unfold rollback. rewrite rebuild_eq. done. Qed.

(** Even a rejected block leaves a linked window: the old one, or the old one
    with the rejected block at its end. *)
Lemma add_block_rejected block src bc bc' err :
  chain_inv bc → 0 <= bc_height bc < U64_MAX → add_block_with_source cfg block src bc = (bc', Err err) →
  chain_inv bc' ∧ bc_height bc <= bc_height bc' <= bc_height bc + 1.
Proof.
  intros Hinv Hh Ha. unfold add_block_with_source, add_block_impl, mbind, st_bind in Ha.
  assert (Hd : ∀ b, bc_chain b = bc_chain bc → chain_inv b ∧ bc_height bc <= bc_height b <= bc_height bc + 1).
  { intros b E. destruct (chain_inv_same bc b E Hinv) as [? ->]. split; [done|lia]. }
  pose proof (keeps_pass1 cfg block (bc <| bc_source_for_current_add := src |>)) as Hk.
  destruct (pass1 cfg block _) as [bc1 [[]|e]] eqn:Hp1; simpl in Hk; injection Hk as Ec _ _.
  2: { injection Ha as <- _. by apply Hd. }
  destruct (commit cfg block bc1) as [bc2 [[]|e]] eqn:Hc; [done|]. injection Ha as <- _.
  apply commit_err in Hc as (bc3 & Hp2 & ->). apply pass2_effect in Hp2 as [_ Hch].
  pose proof (rollback_chain bc1 bc3) as Er. rewrite Ec in Er, Hch. set (rb := rollback bc1 bc3) in *. clearbody rb.
  assert (Hcase : bc_chain rb = bc_chain bc ∨ bc_chain rb = kept_window (bc_chain bc) ++ [block]).
  { destruct Hch as [E|E]; rewrite Er, E; [left; by rewrite take_ge|].
    destruct (decide (length (bc_chain bc) < CHAIN_WINDOW_SIZE)%nat) as [Hl|Hl].
    - left. rewrite kept_window_short by done. by rewrite take_app_length.
    - right. apply take_ge. pose proof (ci_size _ Hinv) as Hs. clear -Hl Hs. unfold kept_window, CHAIN_WINDOW_SIZE in *.
      rewrite length_app, length_drop. simpl length. lia. }
  destruct Hcase as [E|E].
  { by apply Hd. }
  apply pass1_ok in Hp1 as (v & prev & cb & -> & Hlast & Hvs & Hts & _).
  apply validate_structure_ok in Hvs as (Ei & Ep & Eh & _ & _ & _ & Em).
  change (bc_height (bc <| bc_source_for_current_add := src |>)) with (bc_height bc) in Ei.
  unfold wrapping_add in Ei. rewrite wrap_small in Ei by ulia.
  assert (Hpi : blk_index prev = bc_height bc) by (unfold bc_height; simpl in Hlast; by rewrite Hlast).
  assert (Hlk : linked prev block) by (split; try done; [lia|by apply bool_decide_eq_true_2]).
  split; [by apply (chain_inv_append bc _ prev block)|]. unfold bc_height at 2 3. cbn [bc_chain upd].
  simpl. rewrite E, last_snoc. simpl. rewrite (li_index _ _ Hlk). lia.
Qed.

Lemma receive_inv block bc :
  chain_inv bc → 0 <= bc_height bc < U64_MAX →
  let bc' := (receive_block cfg block bc).1.1 in chain_inv bc' ∧ bc_height bc <= bc_height bc'.
Proof.
  intros Hinv Hh. unfold receive_block. destruct (_ <=? _); [simpl; auto with lia|].
  destruct (add_block_from_peer cfg block bc) as [bc1 [[]|err]] eqn:E; simpl; unfold add_block_from_peer in E.
  - apply add_block_extends in E as (Hc & Hb & _); [|done|done].
    destruct (chain_inv_same bc1 _ (received_bookkeeping_chain cfg block bc1) Hc) as [? ->]. auto with lia.
  - apply add_block_rejected in E as [? ?]; [auto with lia|done|done].
Qed.

(** What a certified block does: it is the block of the engine's height. *)
Record written e' bc bc' : Prop := {
  wr_block : ∃ block j bc1,
    BftTheorems.justified e' (height (state e')) (round (state e')) (blk_hash block) j ∧
    blk_justification block = Some j ∧ blk_index block = height (state e') ∧
    add_block cfg block bc = (bc1, Ok tt) ∧ bc' = received_bookkeeping cfg block bc1;
  wr_height : bc_height bc' = height (state e') ∧ bc_height bc' = bc_height bc + 1;
}.
Definition rejected e' bc bc' : Prop := ∃ block j err,
  BftTheorems.justified e' (height (state e')) (round (state e')) (blk_hash block) j ∧
  blk_justification block = Some j ∧ add_block cfg block bc = (bc', Err err).

Lemma chain_move_spec e' bc bc' :
  chain_inv bc → 0 <= bc_height bc < U64_MAX → height (state e') <= bc_height bc + 1 → chain_move e' bc bc' →
  (chain_inv bc' ∧ bc_height bc <= bc_height bc') ∧ (bc' = bc ∨ rejected e' bc bc' ∨ written e' bc bc').
Proof.
  intros Hinv Hh He [|block j err bc2 Hj Eb Ha|block j bc1 Hj Eb Hlt Hv Ha].
  - auto with lia.
  - split; [|right; left; by exists block, j, err]. apply add_block_rejected in Ha as [? ?]; auto with lia.
  - pose proof Ha as Ha'. apply add_block_extends in Ha' as (Hc & Hb & Hi); [|done|done].
    assert (Ei : blk_index block = height (state e')) by lia.
    rewrite <-Ei, (bookkeeping_agrees block j bc1 Eb).
    destruct (chain_inv_same bc1 _ (received_bookkeeping_chain cfg block bc1) Hc) as [Hc' Eh].
    split; [auto with lia|]. right; right. split; [|lia]. rewrite Ei in *. exists block, j, bc1. done.
Qed.

(** ** Every interleaving *)

Abbreviation send_status := (send_status sk).

(** The steps of the loop. *)
Inductive own_step : option BftEngine * Node → option BftEngine * Node → Prop :=
  | LStatus o n : own_step (o, n) (o, send_status o n)
  | LOpen env o n e n' : ensure_height env o n = Some (e, n') → own_step (o, n) (Some e, n')
  | LMessage env msg e n e' n' : msg_ok msg → on_message env msg e n = (e', n') → own_step (Some e, n) (Some e', n')
  | LRebroadcast now e n : own_step (Some e, n) (Some e, rebroadcast now e n)
  | LTimeout env e n e' n' : on_timeouts env e n = (e', n') → own_step (Some e, n) (Some e', n').
(** What others do to the shared chain meanwhile: the network applies a block, or the
    window is left as it is (the mempool). *)
Inductive other_step : option BftEngine * Node → option BftEngine * Node → Prop :=
  | LReceive block o n : other_step (o, n) (o, n <| nd_chain := (receive_block cfg block (nd_chain n)).1.1 |>)
  | LShared bc' o n : bc_chain bc' = bc_chain (nd_chain n) → other_step (o, n) (o, n <| nd_chain := bc' |>).
Definition loop_step (s s' : option BftEngine * Node) : Prop := own_step s s' ∨ other_step s s'.
Inductive loop_reach (s0 : option BftEngine * Node) : option BftEngine * Node → Prop :=
  | reach_start : loop_reach s0 s0
  | reach_step s s' : loop_reach s0 s → bc_height (nd_chain s.2) < U64_MAX → loop_step s s' → loop_reach s0 s'.

(** The engine is never ahead of the height after the chain's. *)
Definition engine_at (o : option BftEngine) n : Prop :=
  match o with
  | Some e => engine_inv e ∧ our_address e = wallet ∧ height (state e) <= bc_height (nd_chain n) + 1
  | None => True
  end.
Definition loop_inv (s : option BftEngine * Node) : Prop :=
  chain_inv (nd_chain s.2) ∧ 0 <= bc_height (nd_chain s.2) ∧ engine_at s.1 s.2.

(** What a step of the loop does to the chain: nothing, or the block of a certificate
    that the engine holds is written, or it is tried and the executor rejects it. *)
Inductive own_effect (s s' : option BftEngine * Node) : Prop :=
  | OE_same : nd_chain s'.2 = nd_chain s.2 → own_effect s s'
  | OE_rejected e' : s'.1 = Some e' → rejected e' (nd_chain s.2) (nd_chain s'.2) → own_effect s s'
  | OE_written e' : s'.1 = Some e' → written e' (nd_chain s.2) (nd_chain s'.2) → own_effect s s'.
Hint Constructors own_effect : core.

(** A step inside the engine's height. *)
Lemma move_step e' n n' (s : option BftEngine * Node) :
  s.2 = n → loop_inv s → bc_height (nd_chain n) < U64_MAX →
  engine_inv e' → our_address e' = wallet → height (state e') <= bc_height (nd_chain n) + 1 →
  chain_move e' (nd_chain n) (nd_chain n') → loop_inv (Some e', n') ∧ own_effect s (Some e', n').
Proof.
  intros <- (Hc & H0' & _) Hh Hi Ha He Hm.
  destruct (chain_move_spec e' _ _ Hc (conj H0' Hh) He Hm) as [[Hc' Hle] Hmv].
  split; [split_and!; simpl; [done|lia|split_and!; [done|done|lia]]|].
  destruct Hmv as [E|[Hr|Hw]]; [by apply OE_same|by eapply OE_rejected|by eapply OE_written].
Qed.
Lemma same_window o n' s :
  bc_chain (nd_chain n') = bc_chain (nd_chain s.2) → loop_inv s → (o = s.1 ∨ engine_at o s.2) → loop_inv (o, n').
Proof.
  intros E (Hc & H0' & He) Ho.
  destruct (chain_inv_same _ _ E Hc) as [Hc' Eh]. split_and!; simpl; [done|by rewrite Eh|].
  assert (Hs : engine_at o s.2) by (destruct Ho as [->|]; done).
  destruct o as [e|]; [|done]. simpl in *. by rewrite Eh.
Qed.
Lemma same_step o n' s :
  nd_chain n' = nd_chain s.2 → loop_inv s → (o = s.1 ∨ engine_at o s.2) → loop_inv (o, n') ∧ own_effect s (o, n').
Proof. intros E Hs Ho. split; [apply (same_window _ _ s); [by rewrite E|done..]|by apply OE_same]. Qed.

Lemma own_step_spec s s' :
  loop_inv s → bc_height (nd_chain s.2) < U64_MAX → own_step s s' → loop_inv s' ∧ own_effect s s'.
Proof.
  intros Hs Hh Hst.
  destruct Hst as [o n|env o n e n' Eo|env msg e n e' n' Hm Em|now e n|env e n e' n' Et]; simpl in Hh.
  - apply same_step; [|done|by left]. unfold ValidatorLoop.send_status. destruct o as [e|]; [|done]. by destruct (_ =? 0).
  - pose proof (open_height_move env (saturating_add U64_MAX (bc_height (nd_chain n)) 1) n) as Ho.
    destruct (open_height env _ n) as [e1 n1] eqn:Ee. destruct Ho as (Hi & Eh & Ea & Hm).
    unfold ValidatorLoop.ensure_height in Eo. rewrite Ee in Eo.
    assert (Hfresh : loop_inv (Some e1, n1) ∧ own_effect (o, n) (Some e1, n1)).
    { apply (move_step e1 n n1); try done. destruct Hs as (_ & H0' & _). simpl in H0'. rewrite Eh. ulia. }
    assert (Hstay : ∀ e0, o = Some e0 → Some (e0, n) = Some (e, n') → loop_inv (Some e, n') ∧ own_effect (o, n) (Some e, n')).
    { intros e0 -> [= <- <-]. apply same_step; [done|done|by left]. }
    repeat case_match; simplify_eq; eauto.
  - destruct Hs as (Hc & H0' & Hi & Ha & He). simpl in *. pose proof (on_message_move env msg e n Hi Hm) as Hmv.
    rewrite Em in Hmv. destruct Hmv as [[Hi' Eh Ea] Hmv].
    apply (move_step e' n n'); try done; [congruence|lia].
  - apply same_step; [|done|by left]. unfold rebroadcast. destruct (nd_last_signed n) as [p|]; [|done]. by destruct (_ && _).
  - destruct Hs as (Hc & H0' & Hi & Ha & He). simpl in *. pose proof (on_timeouts_ok env e n Hi) as Hmv.
    rewrite Et in Hmv. destruct Hmv as [[Hi' Eh Ea] Hmv]. apply same_step; simpl; [done|done|right].
    split_and!; [done|congruence|lia].
Qed.
Lemma other_step_inv s s' :
  loop_inv s → bc_height (nd_chain s.2) < U64_MAX → other_step s s' → loop_inv s'.
Proof.
  intros Hs Hh Hst. destruct Hst as [block o n|bc' o n Ec]; [|apply (same_window _ _ (o, n)); [exact Ec|exact Hs|by left]].
  destruct Hs as (Hc & H0' & He). simpl in *. destruct (receive_inv block _ Hc (conj H0' Hh)) as [Hc' Hle].
  split_and!; simpl; [done|lia|]. destruct o as [e|]; [|done]. simpl in *. destruct He as (? & ? & ?). split_and!; [done..|lia].
Qed.

(** C8: however the steps of the validator loop interleave with the blocks that the
    network applies, a step of the loop either leaves the chain as it is, or hands the
    executor the block of a certificate: one that carries the precommits of a
    supermajority for its hash, which the engine has counted at its height and round.
    When the executor accepts the block, it is the one of the engine's height and the
    next of the chain, and the loop accounts for it as a node that receives the block
    does; otherwise the chain is what the rejection leaves. *)
Theorem loop_appends_certified s0 s s' :
  loop_inv s0 → loop_reach s0 s → bc_height (nd_chain s.2) < U64_MAX → own_step s s' →
  loop_inv s' ∧ own_effect s s'.
Proof.
  intros H0' Hr Hh Hst. apply own_step_spec; [|done|done]. clear Hh Hst s'.
  induction Hr as [|s1 s2 Hr IH Hh [Hst|Hst]]; [done|by apply own_step_spec in Hst as [? _]|by eapply other_step_inv].
Qed.

(** One iteration of the loop is such a run. *)
Lemma iteration_steps env msgs env' o n s' :
  Forall (λ m, msg_ok m.2) msgs →
  iteration cfg hash_payload encode_block decode_block sk wallet env msgs env' o n = s' →
  rtc own_step (o, n) s'.
Proof.
  intros Hm <-. unfold iteration. eapply rtc_l; [apply LStatus|]. generalize (send_status o n). clear n. intros n.
  destruct (ensure_height env o n) as [[e n1]|] eqn:Ee; [|done].
  eapply rtc_l; [by eapply LOpen|]. clear Ee. unfold drain.
  assert (Hd : let '(e', n') := foldl (λ '(e, n) '(env, msg), on_message env msg e n) (e, n1) msgs in
    rtc own_step (Some e, n1) (Some e', n')).
  { revert e n1. induction Hm as [|[env0 msg] msgs Hm0 Hm IH]; intros e n1; simpl; [done|].
    destruct (on_message env0 msg e n1) as [e2 n2] eqn:Em. specialize (IH e2 n2).
    destruct (foldl _ (e2, n2) msgs) as [e3 n3]. eapply rtc_l; [by eapply LMessage|done]. }
  destruct (foldl _ (e, n1) msgs) as [e2 n2]. etrans; [exact Hd|].
  eapply rtc_l; [apply (LRebroadcast (tu_now env'))|].
  destruct (on_timeouts env' e2 _) as [e3 n3] eqn:Et. apply rtc_once. by eapply LTimeout.
Qed.
End loop.

(** * The validator loop: how a certified block is lost

    Runs of [ValidatorLoop] in which the engine finalises a block and the node
    does not keep or pass on what it finalised. *)

Section hazards.
Context `{ChainTypes, !ChainOps, Json, Sha256, TxCrypto, Hex, HashOrder, crypto : Crypto, JsonSlice, PartitionPoint}.
Context (cfg : NodeConfig) (hash_payload : bytes → string).
Context (encode_block : Block → bytes) (decode_block : bytes → option Block).
Context (sk : SecretKey) (wallet : string).
Implicit Types (n : Node) (e : BftEngine) (bc : Blockchain) (env : Turn).

Abbreviation on_message := (on_message cfg hash_payload encode_block decode_block sk wallet).
Abbreviation on_timeouts := (on_timeouts cfg hash_payload encode_block decode_block sk wallet).
Abbreviation commit_finalized := (commit_finalized cfg hash_payload encode_block sk wallet).

(** ** The block that the certificate is for *)

(** A proposal is prevoted for the hash it names; the block it carries is only
    decoded. *)
Lemma proposal_unchecked env p e n block :
  engine_inv e → pp_height p = height (state e) → pp_round p = round (state e) →
  decode_block (pp_block_data p) = Some block → phase (state e) = Propose →
  expected_proposer (registry n) e = Some (pp_proposer p) →
  (∀ v, get_validator (registry n) (pp_proposer p) = Some v → v_is_jailed v || v_is_tombstoned v = false) →
  our_prevote_cast (state e) = false → locked_hash (state e) = None →
  ∃ e', dispatch decode_block env (MsgPropose p) e n =
    Some (e', n <| nd_proposed_block := Some block |>, BroadcastPrevote (our_prevote (Some (pp_block_hash p)) e)).
Proof.
  intros He Eh Er Ed Ep Ex Hv Hc Hl. cbn [dispatch]. rewrite Eh, Er, !Z.eqb_refl, Ed. cbn [negb].
  unfold on_proposal, retry_pending_prevote_for. change (pending_prevote (stash_proposal_bytes _ _ e)) with (pending_prevote e).
  rewrite (no_pending_prevote e He Ep). change (phase (state (stash_proposal_bytes _ _ e))) with (phase (state e)).
  rewrite Ep, bool_decide_eq_true_2 by done. cbn [negb].
  match goal with |- context [expected_proposer ?r (stash_proposal_bytes ?b ?d e)] =>
    change (expected_proposer r (stash_proposal_bytes b d e)) with (expected_proposer (registry n) e) end.
  rewrite (bool_decide_eq_true_2 _ Ex). cbn [negb].
  match goal with |- context [get_validator ?r (pp_proposer p)] => change r with (registry n) end.
  assert (Ha : ∃ e', accept_proposal (tu_now env) (pp_block_hash p) (stash_proposal_bytes (pp_block_hash p) (pp_block_data p) e)
    = (e', BroadcastPrevote (our_prevote (Some (pp_block_hash p)) e))).
  { unfold accept_proposal, stale_lock, emit_prevote, our_prevote. cbn [stash_proposal_bytes on_state].
    simpl. rewrite Hl. simpl. rewrite Hc. simpl. rewrite Hl, (no_pending_prevote e He Ep). eauto. }
  destruct Ha as [e' ->]. destruct (get_validator (registry n) (pp_proposer p)) as [v|]; [rewrite (Hv v eq_refl)|]; by eexists.
Qed.

(** Bytes stashed for a proposal do not change how a precommit is counted. *)
Lemma precommit_stash v stake b data e :
  on_precommit_weighted v stake (stash_proposal_bytes b data e) =
  (stash_proposal_bytes b data (on_precommit_weighted v stake e).1, (on_precommit_weighted v stake e).2).
Proof.
  unfold on_precommit_weighted, clear_own_precommit. destruct e as [s c a t pv pc pr], s.
  cbn [stash_proposal_bytes on_state]. simpl. repeat (case_match; simplify_eq/=; try done).
Qed.

Lemma precommit_final v stake e e1 h r b j :
  on_precommit_weighted v stake e = (e1, FinalizeBlock h r b j) →
  phase (state e1) = Finalize ∧ pending_prevote e1 = pending_prevote e.
Proof.
  intros E. pose proof (on_precommit_outcome v stake e) as Ho. rewrite E in Ho. simpl in Ho.
  inversion Ho as [|? ? ? ? ? [?|?]|]; simplify_eq; done.
Qed.

(** After the final phase no timeout does anything. *)
Lemma final_timeouts env e n :
  phase (state e) = Finalize → pending_prevote e = None → pending_precommit e = None → on_timeouts env e n = (e, n).
Proof.
  intros Ep Ev Ec. unfold ValidatorLoop.on_timeouts. destruct (is_timed_out _ _); [|done].
  unfold on_timeout. by rewrite Ev, Ec, Ep.
Qed.

(** A finalisation without its block. *)
Lemma finalize_elsewhere env persist h r b j e n :
  bc_height (nd_chain n) < h → peer_supermajority_higher_round e = None →
  (∀ block, nd_proposed_block n = Some block → blk_hash block ≠ b) →
  on_finalize cfg hash_payload encode_block sk wallet env persist h r b j e n = (e, n <| nd_proposed_block := None |>).
Proof.
  intros Hh Hp Hb. unfold on_finalize. rewrite (proj2 (Z.leb_gt _ _)), Hp by done.
  destruct (nd_proposed_block n) as [block|] eqn:E; [by rewrite bool_decide_eq_false_2 by auto|].
  destruct n. simpl in *. by subst.
Qed.

(** The block of a certificate. *)
Definition with_certificate (round : Z) (j : BlockJustification) (block : Block) : Block :=
  block <| blk_round := round |> <| blk_justification := Some j |>.

Lemma commit_chain env persist h j block bc1 n :
  validate_block cfg (nd_chain n) block = Ok tt → add_block cfg block (nd_chain n) = (bc1, Ok tt) →
  bc_chain (nd_chain (commit_finalized env persist h j block n)) = bc_chain bc1.
Proof.
  intros Hv Ha. unfold ValidatorLoop.commit_finalized. rewrite Hv, Ha.
  match goal with |- context [prebuild _ _ _ _ _ env ?m] => set (n1 := m) end.
  assert (E1 : bc_chain (nd_chain n1) = bc_chain bc1) by apply finalize_bookkeeping_chain.
  destruct (prebuild _ _ _ _ _ env n1) as [n2|] eqn:Eb; [|exact E1]. apply prebuild_chain in Eb.
  destruct (latest_block bc1); [by rewrite announce_chain, Eb|by rewrite Eb].
Qed.

(** C31: a node that is past the propose phase of a round, with no vote of its own
    waiting to be sent, and holds the block of the round loses it when a proposal for
    the same height and round arrives that carries another, decodable block, whoever it
    is from and whatever the engine thinks of it: the stash of the loop is overwritten before the engine is asked.
    The precommit that would have completed the certificate and appended the block
    then finalises a hash the node has no block for; the chain stays where it was,
    and no timeout ever moves the node on. *)
Theorem proposal_displaces_block env p env' v e n e1 j block other bc1 :
  pp_height p = height (state e) → pp_round p = round (state e) →
  decode_block (pp_block_data p) = Some other → blk_hash other ≠ blk_hash block →
  phase (state e) ≠ Propose → pending_prevote e = None →
  on_precommit_weighted v (stake_of n (pc_validator v)) e
    = (e1, FinalizeBlock (height (state e)) (round (state e)) (blk_hash block) j) →
  pending_precommit e1 = None → peer_supermajority_higher_round e1 = None →
  bc_height (nd_chain n) < height (state e) → nd_proposed_block n = Some block →
  validate_block cfg (nd_chain n) (with_certificate (round (state e)) j block) = Ok tt →
  add_block cfg (with_certificate (round (state e)) j block) (nd_chain n) = (bc1, Ok tt) →
  bc_chain (nd_chain (on_message env' (MsgPrecommit v) e n).2) = bc_chain bc1 ∧
  let '(e', n') := drain cfg hash_payload encode_block decode_block sk wallet
                     [(env, MsgPropose p); (env', MsgPrecommit v)] e n in
  nd_chain n' = nd_chain n ∧ nd_proposed_block n' = None ∧ phase (state e') = Finalize ∧
  ∀ env'', on_timeouts env'' e' n' = (e', n').
Proof.
  intros Eh Er Ed Hne Hph Hpv Ef Hpc Hps Hh Eb Hv Ha. split.
  - unfold ValidatorLoop.on_message. cbn [dispatch]. rewrite Ef. cbn [actions]. unfold on_finalize.
    rewrite (proj2 (Z.leb_gt _ _)), Hps, Eb, bool_decide_eq_true_2 by done. cbn [negb snd].
    by apply (commit_chain env' true (height (state e)) j (with_certificate (round (state e)) j block) bc1
      (n <| nd_proposed_block := None |>)).
  - destruct (precommit_final _ _ _ _ _ _ _ _ Ef) as [Hfin Hpv1].
    set (e0 := stash_proposal_bytes (pp_block_hash p) (pp_block_data p) e). set (n0 := n <| nd_proposed_block := Some other |>).
    assert (Ep : on_message env (MsgPropose p) e n = (e0, n0)).
    { unfold ValidatorLoop.on_message. cbn [dispatch]. rewrite Eh, Er, !Z.eqb_refl, Ed. cbn [negb]. fold e0 n0.
      unfold on_proposal, retry_pending_prevote_for. change (pending_prevote e0) with (pending_prevote e). rewrite Hpv.
      change (phase (state e0)) with (phase (state e)). by rewrite bool_decide_eq_false_2. }
    unfold drain. cbn [foldl]. rewrite Ep. unfold ValidatorLoop.on_message. cbn [dispatch].
    change (stake_of n0 (pc_validator v)) with (stake_of n (pc_validator v)).
    unfold e0. rewrite precommit_stash, Ef. cbn [fst snd actions].
    rewrite finalize_elsewhere; [|done|done|intros ? [= <-]; done].
    split_and!; [done|done|done|]. intros env''. apply final_timeouts; [done| |done].
    change (pending_prevote e1 = None). by rewrite Hpv1.
Qed.

(** ** Side effects left out *)

(** When we lead the next height and the trial of its block fails, the block just
    appended is neither stored nor sent. *)
Lemma failed_trial_drops_block env persist h j block bc1 n raw :
  validate_block cfg (nd_chain n) block = Ok tt → add_block cfg block (nd_chain n) = (bc1, Ok tt) →
  let bc2 := finalize_bookkeeping cfg h (blk_validator block) j bc1 in
  weighted_proposer (bc_stake_registry bc2) (saturating_add U64_MAX (bc_height bc2) 1) 0 = Some wallet →
  create_block_voyager (cfg_forks cfg) (cfg_now cfg) bc2 wallet = Ok raw → trial_block cfg wallet bc2 = None →
  let n' := commit_finalized env persist h j block n in
  nd_chain n' = bc2 ∧ nd_db n' = nd_db n ∧ nd_out n' = nd_out n.
Proof.
  intros Hv Ha bc2 Hp Hc Ht. unfold ValidatorLoop.commit_finalized. rewrite Hv, Ha. fold bc2. unfold prebuild, registry.
  cbn [nd_chain upd]. match goal with |- context [bool_decide ?P] => rewrite (bool_decide_eq_true_2 P Hp) end.
  simpl. by rewrite Hc, Ht.
Qed.

(** A proposal made after a timeout is never repeated: what the loop would repeat is
    the one of an earlier round. *)
Lemma next_round_last env e n :
  nd_last_signed (loop_next_round cfg hash_payload encode_block decode_block sk wallet env false e n).2 = nd_last_signed n.
Proof.
  unfold loop_next_round, build_proposal. destruct (is_proposer _ _); [|done].
  destruct (build_or_reuse_proposal _ _ _ _ _ _ _) as [w [[block p]|]]; [|done].
  unfold send_proposal. by destruct (on_own_proposal _ _ _).
Qed.
Lemma timeout_actions_last fuel env act e n :
  nd_last_signed (timeout_actions cfg hash_payload encode_block decode_block sk wallet fuel env act e n).2 = nd_last_signed n.
Proof.
  revert act e n. induction fuel as [|fuel IH]; intros act e n; [done|].
  destruct act as [|p|p|h r b j| | | |ph]; cbn [timeout_actions]; try done; [| |apply next_round_last..].
  - destruct (pv_sign _ _ _ _ _) as [w signed]. destruct (tu_prevote_sent env); [|done].
    destruct (on_prevote_weighted _ _ _ _) as [e1 act]. by rewrite IH.
  - destruct (pc_sign _ _ _ _ _) as [w signed]. destruct (tu_precommit_sent env); [|done].
    destruct (on_precommit_weighted _ _ _) as [e1 act]. by rewrite IH.
Qed.
Lemma timeout_proposal_not_repeated env now e n e' n' :
  on_timeouts env e n = (e', n') → (∀ p, nd_last_signed n = Some p → pp_round p ≠ round (state e')) →
  rebroadcast now e' n' = n'.
Proof.
  intros Et Hp. assert (El : nd_last_signed n' = nd_last_signed n).
  { unfold ValidatorLoop.on_timeouts in Et. destruct (is_timed_out _ _); [|by simplify_eq].
    destruct (on_timeout _ _) as [e1 act]. pose proof (timeout_actions_last 3 env act e1 n) as E. by rewrite Et in E. }
  unfold rebroadcast. rewrite El. destruct (nd_last_signed n) as [p|]; [|done].
  rewrite (proj2 (Z.eqb_neq (pp_round p) _)) by (by apply Hp). by rewrite andb_false_r.
Qed.
End hazards.
