(* ===== verification/NodeTasks.v ===== *)
(** * The other tasks of a node

    Models what bin/sentrix/src/main.rs runs beside the consensus of
    [ValidatorLoop]: the gate on the number of peers, the fork activations and the
    production of blocks in Pioneer mode, the advertisement of the node's
    addresses, the task that writes the chain to disk, and the task that handles
    the events of the network.  libp2p's addresses are strings, parsed by a
    parameter. *)

From S2P Require Import Prelude Bytes Account Staking Epoch Slashing Token Transaction Authority.
From S2P Require Import Nft Emission BftMessages SignGuard BftEngine BftDriver Justify Block Chain.
From S2P Require Import Keys Lifecycle Storage Executor ExecutorProps Preflight Wire Network ValidatorLoop.

(** ** Peers *)

Definition check_bft_peer_mesh_eligible (peer_count active_set_len required_peers : Z) (force_override : bool)
    : unit + string :=
  if force_override then inl tt
  else if active_set_len =? 1 then inl tt
  else if active_set_len =? 0 then
    inr ("BFT activation blocked: active_set is empty — no validators registered. "
         +:+ "This indicates a separate bug in DPoS migration; check stake_registry.")
  else if peer_count <? required_peers then
    inr ("BFT activation blocked: need ≥" +:+ pretty required_peers +:+ " libp2p peers "
         +:+ "(active_set=" +:+ pretty active_set_len +:+ "), have " +:+ pretty peer_count +:+ ". "
         +:+ "Verify --peers / wait for L1 multiaddr gossip.")
  else inl tt.
(** Only the literal ["1"]. *)
Definition force_bft_insufficient_peers_set (env : string → option string) : bool :=
  bool_decide (env "SENTRIX_FORCE_BFT_INSUFFICIENT_PEERS" = Some "1").

(** ** Advertisements *)

Definition ADVERT_BROADCAST_INTERVAL : Z := 600000.
Definition dialable (s : string) : bool :=
  negb (String.prefix "/ip4/127." s) && negb (String.prefix "/ip6/::1/" s)
  && negb (String.prefix "/ip4/0.0.0.0/" s) && negb (String.prefix "/ip6/::/" s).
Definition own_multiaddrs (listen_addrs : list string) (our_peer_id : string) : list string :=
  take MAX_MULTIADDRS
    ((λ s, if str_contains "/p2p/" s then s else s +:+ "/p2p/" +:+ our_peer_id)
     <$> filter (λ s, dialable s = true) listen_addrs).

(** The counter in memory and in its file, and when we last advertised. *)
Record Advertiser := mkAdvertiser {
  av_sequence : Z;
  av_file : option Z;
  av_last : option Z;
}.
#[global] Instance Advertiser_eta : Eta Advertiser := λ a,
  mkAdvertiser (av_sequence a) (av_file a) (av_last a).
Definition load_advert_sequence (file : option Z) : Z := default 0 file.
(** A failed write leaves the old file. *)
Definition store_advert_sequence (io_ok : bool) (seq : Z) (file : option Z) : option Z :=
  if io_ok then Some seq else file.
Definition advertiser_start (file : option Z) : Advertiser :=
  mkAdvertiser (load_advert_sequence file) file None.

Section adverts.
Context `{crypto : Crypto} (sk : SecretKey) (wallet our_peer_id : string).
Definition advert_tick (now timestamp chain_id : Z) (listen_addrs : list string) (io_ok : bool) (a : Advertiser)
    : Advertiser * option MultiaddrAdvertisement :=
  let need_broadcast := match av_last a with None => true | Some t => ADVERT_BROADCAST_INTERVAL <=? now - t end in
  if need_broadcast then
    let multiaddrs := own_multiaddrs listen_addrs our_peer_id in
    if bool_decide (multiaddrs = []) then (a, None)
    else
      let seq := saturating_add U64_MAX (av_sequence a) 1 in
      (mkAdvertiser seq (store_advert_sequence io_ok seq (av_file a)) (Some now),
       Some (advert_sign sk (mkAdvert wallet multiaddrs seq timestamp chain_id [])))
  else (a, None).

(** The advertisements of active validators to dial: those of validators we have no
    connection to.  [peer_ids] is [None] where the address does not parse. *)
Context (peer_ids : string → option (list string)).
Definition dial_targets (active : list string) (connected : gset string) (cached : list MultiaddrAdvertisement)
    : list string :=
  if bool_decide (active = []) then []
  else omap (λ a,
    if bool_decide (ad_validator a = wallet) then None
    else if negb (bool_decide (ad_validator a ∈ active)) then None
    else match ad_multiaddrs a with
         | [] => None
         | ma :: _ =>
             match peer_ids ma with
             | None => None
             | Some ids => if existsb (λ p, bool_decide (p ∈ connected)) ids then None else Some ma
             end
         end) cached.
End adverts.

(** ** The mode of the node *)

Section modes.
Context `{ChainTypes, !ChainOps, Json, Sha256, TxCrypto, Hex, HashOrder, crypto : Crypto, JsonSlice}.
Context (cfg : NodeConfig) (wallet : string).
Implicit Types bc : Blockchain.

Definition required_peers bc : Z :=
  saturating_sub (min_active_for_bft (cfg_forks cfg) (bc_height bc)
    (Z.of_nat (size (validators (bc_stake_registry bc))))) 1.
Definition mesh_gate (peer_count : Z) (force : bool) bc : unit + string :=
  check_bft_peer_mesh_eligible peer_count (active_count (bc_stake_registry bc)) (required_peers bc) force.

(** The flag, local to the loop, and the chain.  The flag is set whether or not the
    migration succeeds. *)
Definition activate_step (peer_count : Z) (force voyager_activated : bool) bc : bool * Blockchain :=
  if voyager_activated then (true, bc)
  else if voyager_mode_for (cfg_forks cfg) bc (saturating_add U64_MAX (bc_height bc) 1) then
    match mesh_gate peer_count force bc with
    | inl _ => (true, (activate_voyager bc).1)
    | inr _ => (false, bc)
    end
  else (false, bc).

(** A block of Pioneer mode: appended, saved with the state, and sent only if it
    was saved. *)
Definition pioneer_tick (now : Z) (io_ok : bool) (last_block : Z) bc (db : ChainDb)
    : Z * Blockchain * ChainDb * option Block :=
  if now - last_block <? 1000 then (last_block, bc, db, None)
  else
    match create_block (cfg_forks cfg) (cfg_now cfg) bc wallet with
    | Err _ => (last_block, bc, db, None)
    | Ok block =>
        match add_block cfg block bc with
        | (bc, Err _) => (last_block, bc, db, None)
        | (bc, Ok _) =>
            match latest_block bc with
            | Err _ => (last_block, bc, db, None)
            | Ok updated =>
                if io_ok then (now, bc, save_blockchain bc (bc_chain bc) db, Some updated)
                else (now, bc, db, None)
            end
        end
    end.

(** ** The writer *)

Record Writer := mkWriter {
  wt_last_persisted : Z;
  wt_last_blob : Z;
}.
#[global] Instance Writer_eta : Eta Writer := λ w, mkWriter (wt_last_persisted w) (wt_last_blob w).
(** The blocks of [last_persisted + 1 ..= height] that the window still has. *)
Definition new_blocks (last_persisted : Z) bc : list Block :=
  let from := saturating_add U64_MAX last_persisted 1 in
  omap (get_block bc) (seqZ from (bc_height bc - from + 1)).
Definition writer_tick (now : Z) (blocks_ok blob_ok : bool) bc (w : Writer) (db : ChainDb) : Writer * ChainDb :=
  let blocks := new_blocks (wt_last_persisted w) bc in
  let '(w, db) := match last blocks with
    | Some top => if blocks_ok then (w <| wt_last_persisted := blk_index top |>, save_blocks blocks db) else (w, db)
    | None => (w, db)
    end in
  if 60000 <=? now - wt_last_blob w
  then (w <| wt_last_blob := now |>, if blob_ok then save_blockchain bc (bc_chain bc) db else db)
  else (w, db).

(** ** Network events *)

(** The alarm on a fork that the health endpoint reports, the count of blocks that
    could not be stored and of messages dropped, the database, and what is sent:
    messages to the validator loop and requests to synchronise. *)
Record EventTask := mkEventTask {
  et_fork_detected : bool;
  et_fork_height : Z;
  et_fork_at : Z;
  et_local_head : string;
  et_save_fails : Z;
  et_dropped : Z;
  et_db : ChainDb;
  et_queue : list BftMessage;
  et_syncs : Z;
}.
#[global] Instance EventTask_eta : Eta EventTask := λ t,
  mkEventTask (et_fork_detected t) (et_fork_height t) (et_fork_at t) (et_local_head t) (et_save_fails t)
    (et_dropped t) (et_db t) (et_queue t) (et_syncs t).
(** [capacity]: room in the queue of the validator loop; [None] when it is gone. *)
Definition try_send_bft (capacity : option bool) (m : BftMessage) (t : EventTask) : EventTask :=
  match capacity with
  | Some true => t <| et_queue := et_queue t ++ [m] |>
  | Some false => t <| et_dropped := et_dropped t + 1 |>
  | None => t
  end.
Definition on_node_event (now : Z) (disk_ok : bool) (capacity : option bool) (ev : NodeEvent) (t : EventTask) : EventTask :=
  match ev with
  | EvPeerConnected _ | EvPeerDisconnected _ | EvNewTransaction _ => t
  | EvSyncForkDetected height local_head_hash =>
      t <| et_fork_height := height |> <| et_fork_at := now |>
        <| et_local_head := if bool_decide (et_local_head t = "") then local_head_hash else et_local_head t |>
        <| et_fork_detected := true |>
  | EvNewBlock block =>
      let t := if et_fork_detected t && (et_fork_height t <=? blk_index block)
               then t <| et_fork_detected := false |> <| et_local_head := "" |> else t in
      if disk_ok then t <| et_db := save_block block (et_db t) |>
      else t <| et_save_fails := et_save_fails t + 1 |>
  | EvSyncNeeded _ _ => t <| et_syncs := et_syncs t + 1 |>
  | EvBftProposal p => try_send_bft capacity (MsgPropose p) t
  | EvBftPrevote v => try_send_bft capacity (MsgPrevote v) t
  | EvBftPrecommit v => try_send_bft capacity (MsgPrecommit v) t
  | EvBftRoundStatus s => try_send_bft capacity (MsgRoundStatus s) t
  end.
End modes.

(** ** Properties *)

Section properties.
Context `{ChainTypes, !ChainOps, Json, Sha256, TxCrypto, Hex, HashOrder, crypto : Crypto, JsonSlice, PartitionPoint}.
Context (cfg : NodeConfig).
Implicit Types (bc : Blockchain) (t : EventTask).

(** Before the fork the gate asks for three peers whatever the size of the active
    set, not for all of its other members. *)
Lemma prefork_gate peer_count bc :
  is_bft_gate_relax_height (cfg_forks cfg) (bc_height bc) = false → 2 <= active_count (bc_stake_registry bc) →
  mesh_gate cfg peer_count false bc = inl tt ↔ 3 <= peer_count.
Proof.
  intros Hf Ha. unfold mesh_gate, required_peers, min_active_for_bft, check_bft_peer_mesh_eligible. rewrite Hf.
  rewrite (proj2 (Z.eqb_neq _ 1)), (proj2 (Z.eqb_neq _ 0)) by lia. simpl.
  change (saturating_sub MIN_BFT_VALIDATORS 1) with 3. destruct (Z.ltb_spec peer_count 3); split; done || lia.
Qed.

(** *** The sequence of advertisements *)

(** Ticks with their inputs, and restarts. *)
Inductive advert_event :=
  | AdvTick (now timestamp chain_id : Z) (listen_addrs : list string) (io_ok : bool)
  | AdvRestart.
Definition advert_step (sk : SecretKey) (wallet peer : string) (ev : advert_event)
    (s : Advertiser * list MultiaddrAdvertisement) : Advertiser * list MultiaddrAdvertisement :=
  match ev with
  | AdvTick now ts cid addrs io =>
      let '(a, o) := advert_tick sk wallet peer now ts cid addrs io s.1 in (a, s.2 ++ option_list o)
  | AdvRestart => (advertiser_start (av_file s.1), s.2)
  end.
Definition writes_ok (ev : advert_event) : Prop := match ev with AdvTick _ _ _ _ io => io = true | AdvRestart => True end.

(** Until the counter is full, the numbers sent so far increase, and the counter, in
    memory and in its file, is at least the last. *)
Record adverts_inv (s : Advertiser * list MultiaddrAdvertisement) : Prop := {
  ai_range : in_u64 (av_sequence s.1);
  ai_file : load_advert_sequence (av_file s.1) = av_sequence s.1;
  ai_sorted : av_sequence s.1 < U64_MAX →
    StronglySorted (λ x y, ad_sequence x < ad_sequence y) s.2 ∧ Forall (λ x, ad_sequence x <= av_sequence s.1) s.2;
}.
Lemma advert_step_inv sk wallet peer ev s :
  writes_ok ev → adverts_inv s → adverts_inv (advert_step sk wallet peer ev s).
Proof.
  intros Hw [Hr Hf Hs]. destruct s as [a out]. simpl in *. destruct ev as [now ts cid addrs io|]; cbn [advert_step].
  2: { split; simpl; by rewrite Hf. }
  simpl in Hw. subst io. unfold advert_tick. simpl.
  assert (Hsame : adverts_inv (a, out ++ [])) by (rewrite app_nil_r; by split).
  match goal with |- context [if ?b then _ else (a, None)] => destruct b end; [case_bool_decide|]; simpl; try exact Hsame.
  split; simpl; [ulia|done|]. intros Hu.
  assert (Es : saturating_add U64_MAX (av_sequence a) 1 = av_sequence a + 1) by (revert Hu; ulia).
  rewrite Es in Hu |- *. destruct Hs as [Hs Hb]; [lia|]. split.
  - apply StronglySorted_app. split_and!; [|done|repeat constructor].
    intros x y Hx Hy. apply list_elem_of_singleton in Hy as ->. rewrite Forall_forall in Hb. specialize (Hb x Hx). simpl. lia.
  - apply Forall_app. split; [eapply Forall_impl; [exact Hb|simpl; lia]|]. constructor; [simpl; lia|constructor].
Qed.
(** As long as the counter reaches its file, every advertisement has a higher
    sequence number than all before it, restarts included: peers keep the newest. *)
Theorem adverts_increase sk wallet peer evs file :
  Forall writes_ok evs → in_u64 (default 0 file) →
  let s := foldr (advert_step sk wallet peer) (advertiser_start file, []) evs in
  av_sequence s.1 < U64_MAX → StronglySorted (λ x y, ad_sequence x < ad_sequence y) s.2.
Proof.
  intros Hw Hf s. apply ai_sorted. unfold s. clear s. induction Hw as [|ev evs Hev Hw IH]; [|by apply advert_step_inv].
  split; simpl; [done|done|]. intros _. split; constructor.
Qed.

(** *** The writer *)

Lemma load_put_index d chain b :
  (∀ b', b' ∈ chain → blk_index b' = blk_index b → b' = b) → b ∈ chain →
  load_block (foldl put_block d chain) (blk_index b) = Ok (Some b).
Proof.
  intros Hd Hb. unfold load_block. rewrite put_blocks_meta, (load_map_at meta_entry _ _ _ b (MetaBlock b)); [done..|].
  intros b' v Hb' [E <-]%meta_entry_Some. apply block_key_inj in E. f_equal. by apply Hd.
Qed.
(** Blocks by their height. *)
Lemma get_block_index bc i b : chain_inv bc → get_block bc i = Some b → blk_index b = i ∧ b ∈ bc_chain bc.
Proof.
  intros Hc. unfold get_block. destruct (Z.ltb_spec i (chain_window_start bc)); [done|]. intros E.
  pose proof (chain_index bc _ b Hc E). split; [lia|]. by eapply list_elem_of_lookup_2.
Qed.
Lemma get_block_window bc i :
  chain_inv bc → chain_window_start bc <= i <= bc_height bc → is_Some (get_block bc i).
Proof.
  intros Hc Hi. unfold get_block. rewrite (proj2 (Z.ltb_ge _ _)) by lia. apply lookup_lt_is_Some.
  assert (Hh : ∃ tip, last (bc_chain bc) = Some tip ∧ bc_height bc = blk_index tip).
  { unfold bc_height. destruct (last (bc_chain bc)) as [tip|] eqn:E; [by exists tip|].
    apply last_None in E. by destruct (ci_nonempty _ Hc). }
  destruct Hh as (tip & Hl & Eh). rewrite last_lookup in Hl. pose proof (chain_index bc _ tip Hc Hl).
  pose proof (lookup_lt_Some _ _ _ Hl). lia.
Qed.
Lemma elem_of_new_blocks last_persisted bc b :
  chain_inv bc → 0 <= last_persisted < U64_MAX →
  b ∈ new_blocks last_persisted bc ↔ get_block bc (blk_index b) = Some b ∧ last_persisted < blk_index b <= bc_height bc.
Proof.
  intros Hc Hl. unfold new_blocks. assert (Es : saturating_add U64_MAX last_persisted 1 = last_persisted + 1) by ulia.
  rewrite Es, list_elem_of_omap. split.
  - intros (i & Hi & E). apply elem_of_seqZ in Hi. destruct (get_block_index bc i b Hc E) as [<- _]. split; [done|lia].
  - intros [E Hi]. exists (blk_index b). split; [|done]. apply elem_of_seqZ. lia.
Qed.

Lemma last_new_blocks last_persisted bc :
  chain_inv bc → 0 <= last_persisted < bc_height bc → bc_height bc <= U64_MAX → chain_window_start bc <= bc_height bc →
  ∃ top, last (new_blocks last_persisted bc) = Some top ∧ blk_index top = bc_height bc.
Proof.
  intros Hc Hl Hu Hw. unfold new_blocks. assert (Es : saturating_add U64_MAX last_persisted 1 = last_persisted + 1) by ulia.
  rewrite Es. destruct (get_block_window bc (bc_height bc) Hc ltac:(lia)) as [top Et]. clear Es.
  replace (bc_height bc - (last_persisted + 1) + 1) with (Z.of_nat (S (Z.to_nat (bc_height bc - last_persisted - 1)))) by lia.
  rewrite seqZ_S, omap_app. cbn [omap list_omap].
  replace (last_persisted + 1 + Z.of_nat (Z.to_nat (bc_height bc - last_persisted - 1))) with (bc_height bc) by lia. rewrite Et. exists top. rewrite last_snoc. split; [done|].
  by destruct (get_block_index bc _ top Hc Et).
Qed.
Lemma window_start_le bc : chain_inv bc → chain_window_start bc <= bc_height bc.
Proof.
  intros Hc. unfold bc_height. destruct (last (bc_chain bc)) as [tip|] eqn:E.
  - rewrite last_lookup in E. pose proof (chain_index bc _ tip Hc E). simpl. lia.
  - apply last_None in E. by destruct (ci_nonempty _ Hc).
Qed.
Lemma index_unique bc b b' :
  chain_inv bc → b ∈ bc_chain bc → b' ∈ bc_chain bc → blk_index b' = blk_index b → b' = b.
Proof.
  intros Hc [i Hi]%list_elem_of_lookup_1 [k Hk]%list_elem_of_lookup_1 E.
  pose proof (chain_index bc _ _ Hc Hi). pose proof (chain_index bc _ _ Hc Hk). assert (i = k) by lia. congruence.
Qed.

(** A tick of the writer that reaches the disk stores every block appended since
    the last one that the window still has, and moves its mark to the chain's height;
    what lies below the window is left as it was.  So a block is lost to the disk
    exactly when the window has moved past the mark before a tick succeeds: the mark
    then jumps over it. *)
Theorem writer_stores_window now blob_ok bc w db :
  chain_inv bc → 0 <= wt_last_persisted w < bc_height bc → bc_height bc <= U64_MAX →
  let '(w', db') := writer_tick now true blob_ok bc w db in
  wt_last_persisted w' = bc_height bc ∧
  (∀ i, wt_last_persisted w < i <= bc_height bc → chain_window_start bc <= i →
     ∃ b, get_block bc i = Some b ∧ load_block db' i = Ok (Some b)) ∧
  (∀ i, i < chain_window_start bc → load_block db' i = load_block db i).
Proof.
  intros Hc Hl Hu. pose proof (window_start_le bc Hc) as Hw.
  destruct (last_new_blocks _ bc Hc Hl Hu Hw) as (top & Et & Ei).
  unfold writer_tick. rewrite Et. set (blocks := new_blocks _ _) in *.
  assert (Hin : ∀ b, b ∈ blocks ↔ get_block bc (blk_index b) = Some b ∧ wt_last_persisted w < blk_index b <= bc_height bc).
  { intros b. apply elem_of_new_blocks; [done|lia]. }
  assert (Hmem : ∀ b, b ∈ blocks → b ∈ bc_chain bc).
  { intros b [E _]%Hin. by destruct (get_block_index bc _ b Hc E). }
  set (d1 := save_blocks blocks db). assert (Ed : ∀ i, load_block d1 i = load_block (foldl put_block db blocks) i).
  { intros i. unfold d1, save_blocks. rewrite Et. apply load_block_save_height. }
  assert (Hnew : ∀ i, wt_last_persisted w < i <= bc_height bc → chain_window_start bc <= i →
    ∃ b, get_block bc i = Some b ∧ b ∈ bc_chain bc ∧ blk_index b = i ∧ load_block d1 i = Ok (Some b)).
  { intros i Hi Hs. destruct (get_block_window bc i Hc ltac:(lia)) as [b Eb].
    destruct (get_block_index bc i b Hc Eb) as [Eib Hb]. exists b. split_and!; [done..|].
    rewrite Ed, <-Eib. apply load_put_index; [|apply Hin; rewrite Eib; done].
    intros b' Hb' E. by apply (index_unique bc); auto. }
  assert (Hold : ∀ i, i < chain_window_start bc → load_block d1 i = load_block db i).
  { intros i Hi. rewrite Ed. apply load_put_blocks_other. intros b Hb.
    apply Hmem, list_elem_of_lookup_1 in Hb as [k Hk]. pose proof (chain_index bc _ _ Hc Hk). lia. }
  destruct (_ <=? _); [|split_and!; [done|naive_solver|done]]. simpl.
  destruct blob_ok; [|split_and!; [done|naive_solver|done]].
  assert (Eb : ∀ i, load_block (save_blockchain bc (bc_chain bc) d1) i = load_block (foldl put_block d1 (bc_chain bc)) i).
  { intros i. unfold save_blockchain. destruct (last (bc_chain bc)); rewrite ?load_block_save_height; unfold load_block; by rewrite !put_blocks_meta. }
  split_and!; [done| |].
  - intros i Hi Hs. destruct (Hnew i Hi Hs) as (b & Eg & Hb & <- & _). exists b. split; [done|].
    rewrite Eb. apply load_put_index; [|done]. intros b' Hb' E. by apply (index_unique bc).
  - intros i Hi. rewrite Eb, load_put_blocks_other; [by apply Hold|].
    intros b [k Hk]%list_elem_of_lookup_1. pose proof (chain_index bc _ _ Hc Hk). lia.
Qed.

(** *** The alarm *)

(** An event with the clock, the disk and the queue it meets. *)
Definition event_input : Type := Z * bool * option bool * NodeEvent.
Definition run_node_events (evs : list event_input) t : EventTask :=
  foldl (λ t '(now, disk_ok, capacity, ev), on_node_event now disk_ok capacity ev t) t evs.
(** Leaves an alarm for height [h] on. *)
Definition below (h : Z) (x : event_input) : Prop :=
  match x.2 with EvSyncForkDetected _ _ => False | EvNewBlock b => blk_index b < h | _ => True end.
Definition alarm_at (h : Z) (evs : list event_input) : Prop :=
  ∃ pre now disk_ok capacity hd post,
    evs = pre ++ (now, disk_ok, capacity, EvSyncForkDetected h hd) :: post ∧ Forall (below h) post.

Lemma alarm_at_snoc h evs x :
  alarm_at h (evs ++ [x]) ↔ (∃ hd, x.2 = EvSyncForkDetected h hd) ∨ below h x ∧ alarm_at h evs.
Proof.
  split.
  - intros (pre & now & dk & cp & hd & post & E & Hp). destruct post as [|y post _] using rev_ind.
    + apply app_inj_tail in E as [_ ->]. left. by exists hd.
    + rewrite app_comm_cons, app_assoc in E. apply app_inj_tail in E as [-> ->].
      apply Forall_app in Hp as [Hp Hy]. apply Forall_cons in Hy as [Hy _]. right. split; [done|].
      by exists pre, now, dk, cp, hd, post.
  - intros [[hd E]|[Hx (pre & now & dk & cp & hd & post & -> & Hp)]].
    + destruct x as [[[now dk] cp] ev]. simpl in E. subst ev. by exists evs, now, dk, cp, hd, [].
    + exists pre, now, dk, cp, hd, (post ++ [x]). rewrite <-app_assoc. split; [done|]. apply Forall_app. by repeat constructor.
Qed.

(** The health alarm is on exactly when no block at or beyond the height of the last
    fork report has been applied since that report. *)
Lemma fork_alarm_correct evs t :
  et_fork_detected t = false →
  let t' := run_node_events evs t in et_fork_detected t' = true ↔ alarm_at (et_fork_height t') evs.
Proof.
  intros Ht. cbv zeta. induction evs as [|x evs IH] using rev_ind.
  { simpl. rewrite Ht. split; [done|]. intros (pre & ? & ? & ? & ? & post & E & _). by destruct pre. }
  rewrite alarm_at_snoc. unfold run_node_events in *. rewrite foldl_app. cbn [foldl].
  destruct x as [[[now dk] cp] ev]. match type of IH with context [foldl ?f t evs] => set (t1 := foldl f t evs) in * end. clearbody t1.
  assert (Hsame : ∀ t2, et_fork_detected t2 = et_fork_detected t1 → et_fork_height t2 = et_fork_height t1 →
    below (et_fork_height t1) (now, dk, cp, ev) →
    et_fork_detected t2 = true ↔ (∃ hd, ev = EvSyncForkDetected (et_fork_height t2) hd) ∨
      below (et_fork_height t2) (now, dk, cp, ev) ∧ alarm_at (et_fork_height t2) evs).
  { intros t2 -> -> Hb. rewrite IH. split; [auto|]. intros [[hd ->]|[_ ?]]; done. }
  assert (Hsend : ∀ m, et_fork_detected (try_send_bft cp m t1) = et_fork_detected t1 ∧
    et_fork_height (try_send_bft cp m t1) = et_fork_height t1) by (intros m; by destruct cp as [[]|]).
  destruct ev as [b|tx|pr|pr|pa ph|h hd|p|v|v|s]; cbn [on_node_event];
    try (by apply Hsame); try (apply Hsame; [apply Hsend|apply Hsend|done]).
  - destruct (et_fork_detected t1) eqn:Ed; cbn [andb].
    + destruct (Z.leb_spec (et_fork_height t1) (blk_index b)) as [Hle|Hlt].
      * destruct dk; simpl; (split; [done|]); intros [[? ?]|[Hb _]]; [done| |done|]; unfold below in Hb; simpl in Hb; lia.
      * destruct dk; apply Hsame; simpl; rewrite ?Ed; done.
    + assert (Hn : ¬ alarm_at (et_fork_height t1) evs) by (intros Ha; by apply IH in Ha).
      destruct dk; simpl; rewrite Ed; (split; [done|]); intros [[? ?]|[_ ?]]; done.
  - simpl. split; [|done]. intros _. left. by exists hd.
Qed.
End properties.
