(* ===== verification/EvmExec.v ===== *)
(** * EVM transactions in a block

    Models crates/sentrix-core/src/block_executor/evm.rs: decoding an EVM
    transaction, running it on a view of the accounts, writing its result back
    and recording its receipt and logs.  Shows what a failed transaction leaves
    behind, and that it can be executed again. *)

From S2P Require Import Prelude Bytes Keys Account Transaction Emission Authority BftMessages Merkle Block TrieState Chain.
From S2P Require Import Evm EvmProps EvmLogs Executor.

(** The two EVM forks, and whether the node keeps receipts and logs. *)
Record EvmConfig := mkEvmConfig { ev_value_transfer : Z; ev_gas_fix : Z; ev_storage : bool }.
Definition is_evm_value_transfer_height (c : EvmConfig) := fork_active (ev_value_transfer c).
Definition is_evm_gas_fix_height (c : EvmConfig) := fork_active (ev_gas_fix c).
Definition EIP170_MAX_CODE_SIZE : nat := 24576.

(** What is put in the tables of the database. *)
Inductive TableWrite :=
  | PutReceipt (key : bytes) (receipt : StoredReceipt)
  | PutLog (key : bytes) (log : StoredLog).

(** [tx.data.splitn(3, ':')] when there are three parts. *)
Definition evm_parts (data : string) : option (string * string * string) :=
  match split_colon data with
  | Some (p0, rest) => match split_colon rest with Some (p1, p2) => Some (p0, p1, p2) | None => None end
  | None => None
  end.

Section evm_exec.
Context `{Revm, Hex, HexDecode, HashOrder} (ecfg : EvmConfig).
Implicit Types (db : AccountDB) (tx : Transaction).

Definition tx_kind tx : TxKind :=
  match (if bool_decide (tx_to tx = TOKEN_OP_ADDRESS) then None else parse_sentrix_address (tx_to tx)) with
  | Some addr => Call addr
  | None => Create
  end.

(** The value of a stored slot: its first 32 bytes, padded on the left. *)
Definition padded_value (value : bytes) : Z :=
  let n := Nat.min (length value) 32 in
  of_be_bytes (replicate (32 - n) 0 ++ take n value).
Definition preload_slot (prefix : string) (target : Address) (ed : SentrixEvmDb) (e : string * bytes) : SentrixEvmDb :=
  match strip_prefix prefix e.1 with
  | Some slot_part =>
      match u256_from_hex slot_part with
      | Some slot => insert_storage target slot (padded_value e.2) ed
      | None => ed
      end
  | None => ed
  end.
(** The code and the slots of the target of a call. *)
Definition preload_target db (target : Address) (ed : SentrixEvmDb) : SentrixEvmDb :=
  let target_str := address_to_sentrix target in
  match accounts db !! target_str with
  | Some target_account =>
      if bool_decide (acct_code_hash target_account = EMPTY_CODE_HASH) then ed
      else
        let ed := match get_contract_code db (hex_encode (acct_code_hash target_account)) with
                  | Some bytecode => insert_code (acct_code_hash target_account) bytecode ed
                  | None => ed
                  end in
        let prefix := target_str +:+ ":" in
        let slots := sort_by_key String.le
          (filter (λ e, is_Some (strip_prefix prefix e.1)) (hm_entries (contract_storage db))) in
        foldl (preload_slot prefix target) ed slots
  | None => ed
  end.
Definition evm_view db (kind : TxKind) : SentrixEvmDb :=
  let ed := from_account_db db in
  match kind with Call target => preload_target db target ed | Create => ed end.

(** The transaction as the interpreter takes it, or [None] when it is malformed. *)
Definition evm_tx_env db tx (block_height : Z) : option TxEnv :=
  match evm_parts (tx_data tx) with
  | Some (_, gas_text, calldata_hex) =>
      match parse_u64 gas_text with
      | Some gas_limit =>
          if TX_GAS_LIMIT_CAP <? gas_limit then None
          else
            match TrieState.hex_decode (tx_signature tx) ≫= envelope_value with
            | Some value =>
                let env := {|
                  te_caller := default ADDRESS_ZERO (parse_sentrix_address (tx_from tx));
                  te_kind := tx_kind tx;
                  te_data := default [] (TrieState.hex_decode calldata_hex);
                  te_value := if is_evm_value_transfer_height ecfg block_height then value else 0;
                  te_gas_limit := gas_limit;
                  te_gas_price := if is_evm_gas_fix_height ecfg block_height then 0 else INITIAL_BASE_FEE;
                  te_nonce := get_nonce db (tx_from tx);
                  te_chain_id := Some (tx_chain_id tx);
                |} in
                if tx_env_complete env then Some env else None
            | None => None
            end
      | None => None
      end
  | None => None
  end.
Definition evm_run db tx (block_height chain_id : Z) : option (TxReceipt * EvmState) :=
  match evm_tx_env db tx block_height with
  | Some env =>
      match execute_tx_with_state_gated (evm_view db (tx_kind tx)) env INITIAL_BASE_FEE chain_id
              (is_evm_gas_fix_height ecfg block_height) with
      | inl out => Some out
      | inr _ => None
      end
  | None => None
  end.

(** The deployed code, refused when it is too large. *)
Definition store_deployed tx (receipt : TxReceipt) db : AccountDB :=
  match rc_contract_address receipt with
  | Some contract_addr =>
      if bool_decide (rc_output receipt = []) then db
      else if (EIP170_MAX_CODE_SIZE <? length (rc_output receipt))%nat then mark_evm_tx_failed (txid tx) db
      else
        let code_hash := keccak256 (rc_output receipt) in
        set_contract (address_to_sentrix contract_addr) code_hash
          (store_contract_code (hex_encode code_hash) (rc_output receipt) db)
  | None => db
  end.

(** [[0u8; 32]] with the decoded bytes copied to its front. *)
Definition hash32 (s : string) : bytes :=
  let b := default [] (TrieState.hex_decode (trim_0x s)) in
  take 32 b ++ replicate (32 - length (take 32 b)) 0.
Definition evm_writes tx (block_height : Z) (block_hash_hex : string) (tx_index : Z) (receipt : TxReceipt) : list TableWrite :=
  if ev_storage ecfg then
    match receipt_key (txid tx) with
    | Some key => [PutReceipt key (from_tx_receipt receipt)]
    | None => []
    end ++
    imap (λ i log,
      let log_idx := wrap U32_MAX (Z.of_nat i) in
      PutLog (log_key block_height tx_index log_idx)
        (stored_log log block_height (hash32 block_hash_hex) (hash32 (txid tx)) tx_index log_idx)) (rc_logs receipt)
  else [].

(** [execute_evm_tx_in_block]: the accounts after it and the writes to the
    tables.  It returns no error: failures are marks. *)
Definition is_evm_data (data : string) : bool :=
  match evm_parts data with Some (p0, _, _) => bool_decide (p0 = "EVM") | None => false end.
Definition execute_evm_tx_in_block tx (block_height : Z) (block_hash_hex : string) (tx_index chain_id : Z) db
    : AccountDB * list TableWrite :=
  if negb (is_evm_data (tx_data tx)) then (db, [])
  else
    match evm_run db tx block_height chain_id with
    | Some (receipt, state) =>
        let db := if rc_success receipt then db else mark_evm_tx_failed (txid tx) db in
        let db := store_deployed tx receipt db in
        let db := if rc_success receipt && negb (is_evm_tx_failed db (txid tx))
                  then commit_state_to_account_db state db else db in
        (db, evm_writes tx block_height block_hash_hex tx_index receipt)
    | None => (mark_evm_tx_failed (txid tx) db, [])
    end.

(** ** Failures *)

(** The interpreter accepted the transaction and it did not revert. *)
Definition evm_succeeds db tx (block_height chain_id : Z) : bool :=
  match evm_run db tx block_height chain_id with Some (receipt, _) => rc_success receipt | None => false end.

Lemma evm_run_address db tx h chain receipt state :
  evm_run db tx h chain = Some (receipt, state) → rc_success receipt = false → rc_contract_address receipt = None.
Proof.
  unfold evm_run, execute_tx_with_state_gated, execute_tx_inner. intros E Hs.
  destruct (evm_tx_env db tx h); [|done]. destruct (wrong_chain _ _); [done|].
  destruct (transact _ _ _) as [[r st]|]; [|done]. destruct r as [g l [|]|g l o|g o]; simpl in E; by simplify_eq.
Qed.

(** A transaction that is malformed, halts or reverts changes nothing but the set
    of failed transactions. *)
Lemma failed_evm_marks db tx h hash i chain :
  is_evm_data (tx_data tx) = true → evm_succeeds db tx h chain = false →
  (execute_evm_tx_in_block tx h hash i chain db).1 = mark_evm_tx_failed (txid tx) db.
Proof.
  unfold evm_succeeds, execute_evm_tx_in_block. intros -> Hs. simpl.
  destruct (evm_run db tx h chain) as [[receipt state]|] eqn:E; [|done]. rewrite Hs. simpl.
  unfold store_deployed. by rewrite (evm_run_address _ _ _ _ _ _ E Hs).
Qed.
End evm_exec.

(** A transaction that failed once is not written back when it is executed again
    and succeeds: its mark is still there. *)
Section retry.
Context `{Revm, Hex, HexDecode, HashOrder} (ecfg : EvmConfig).

Theorem marked_evm_not_written db tx h hash i chain receipt state :
  is_evm_data (tx_data tx) = true → is_evm_tx_failed db (txid tx) = true →
  evm_run ecfg db tx h chain = Some (receipt, state) → rc_success receipt = true →
  accounts (execute_evm_tx_in_block ecfg tx h hash i chain db).1 = accounts (store_deployed tx receipt db) ∧
  contract_storage (execute_evm_tx_in_block ecfg tx h hash i chain db).1 = contract_storage db.
Proof.
  intros Hd Hm Hr Hs. unfold execute_evm_tx_in_block. rewrite Hd, Hr, Hs. simpl.
  assert (Hf : is_evm_tx_failed (store_deployed tx receipt db) (txid tx) = true).
  { unfold store_deployed. destruct (rc_contract_address receipt); [|done]. case_bool_decide; [done|].
    destruct (_ <? _)%nat; [|done]. unfold mark_evm_tx_failed. unfold is_evm_tx_failed in Hm.
    by rewrite Hm. }
  assert (Hc : contract_storage (store_deployed tx receipt db) = contract_storage db).
  { unfold store_deployed. destruct (rc_contract_address receipt); [|done]. case_bool_decide; [done|].
    destruct (_ <? _)%nat; [|done]. unfold mark_evm_tx_failed. repeat case_match; done. }
  by rewrite Hf.
Qed.
End retry.

(** ** Replays *)

Section replay.
Context `{ChainTypes, !ChainOps, Json, Sha256, TxCrypto, Hex, HashOrder, Crypto, Revm, HexDecode}.
Context (cfg : NodeConfig) (ecfg : EvmConfig).
Implicit Types bc : Blockchain.
(** The executor's EVM is this one. *)
Definition runs_this_evm : Prop := ∀ tx h hash i bc,
  execute_evm_tx tx h hash i bc = ((execute_evm_tx_in_block ecfg tx h hash i (bc_chain_id bc) (bc_accounts bc)).1, Ok tt).

Definition fresh : Working := mkWorking ∅ ∅ ∅ None.

Lemma mark_accounts t db : accounts (mark_evm_tx_failed t db) = accounts db.
Proof. unfold mark_evm_tx_failed. repeat case_match; done. Qed.

(** Pass 1 looks at the balance and the nonce of the sender of an EVM transaction. *)
Lemma validate_evm_tx bc bc' tx :
  token_op_decode (tx_data tx) = None → bc_chain_id bc' = bc_chain_id bc →
  get_nonce (bc_accounts bc') (tx_from tx) = get_nonce (bc_accounts bc) (tx_from tx) →
  tx_amount tx + tx_fee tx <= get_balance (bc_accounts bc') (tx_from tx) →
  is_ok (validate_tx cfg bc tx fresh).2 = true → is_ok (validate_tx cfg bc' tx fresh).2 = true.
Proof.
  intros Ht Hc Hn Hb. unfold validate_tx. destruct (is_system_tx tx); [done|]. unfold_st_goal. unfold fresh. simpl.
  rewrite bool_decide_false by apply not_elem_of_empty. simpl. rewrite !lookup_empty. rewrite Ht, Hc. simpl. rewrite Hn. unfold lift_result.
  destruct (validate tx _ _) as [[]|]; [|done]. unfold checked_add. destruct (_ <=? U64_MAX); [|done].
  destruct (get_balance (bc_accounts bc) (tx_from tx) <? _); [done|].
  destruct (Z.ltb_spec (get_balance (bc_accounts bc') (tx_from tx)) (tx_amount tx + tx_fee tx)); [lia|]. done.
Qed.

Lemma charged_state a fee db db' :
  charge_fee_only a fee db = (db', Ok tt) →
  get_nonce db' a = get_nonce db a ∧ get_balance db' a = get_balance db a - fee.
Proof.
  rewrite charge_fee_only_eq. destruct (_ <? _); [done|]. intros [= <-].
  split.
  - etrans; [apply (get_nonce_put a a (debited db a fee) (touch a db))|]. rewrite decide_True by done. apply nonce_or_new.
  - etrans; [apply (get_balance_put a a (debited db a fee) (touch a db))|]. by rewrite decide_True by done.
Qed.

Lemma failed_evm_accounts db tx h hash i chain :
  evm_succeeds ecfg db tx h chain = false →
  accounts (execute_evm_tx_in_block ecfg tx h hash i chain db).1 = accounts db.
Proof.
  intros Hf. destruct (is_evm_data (tx_data tx)) eqn:Ed.
  - rewrite failed_evm_marks by done. apply mark_accounts.
  - unfold execute_evm_tx_in_block. by rewrite Ed.
Qed.

(** An EVM transaction that fails keeps its nonce: the same transaction is valid
    again in the next block, and its fee is taken again, as long as the sender can
    pay it. *)
Theorem failed_evm_tx_replays block bc bc' tx f f' :
  runs_this_evm → is_evm_tx tx = true → is_system_tx tx = false →
  token_op_decode (tx_data tx) = None → staking_op_decode (tx_data tx) = None →
  is_ok (validate_tx cfg bc tx fresh).2 = true →
  evm_succeeds ecfg (bc_accounts (state_of (apply_native tx f bc))) tx (blk_index block) (bc_chain_id bc) = false →
  apply_tx cfg block tx f bc = (bc', Ok f') →
  tx_amount tx + 2 * tx_fee tx <= get_balance (bc_accounts bc) (tx_from tx) →
  is_ok (validate_tx cfg bc' tx fresh).2 = true ∧
  get_balance (bc_accounts bc') (tx_from tx) = get_balance (bc_accounts bc) (tx_from tx) - tx_fee tx.
Proof.
  intros Hrun He Hs Ht Hst Hv Hf Ha Hb.
  assert (Hacc : ∃ db, charge_fee_only (tx_from tx) (tx_fee tx) (bc_accounts bc) = (db, Ok tt) ∧
    accounts (bc_accounts bc') = accounts db ∧ bc_chain_id bc' = bc_chain_id bc).
  { revert Hf Ha. unfold apply_tx, apply_native. rewrite Hs, He, Ht, Hst. unfold_st_goal. unfold on_accounts.
    destruct (charge_fee_only (tx_from tx) (tx_fee tx) (bc_accounts bc)) as [db [[]|]] eqn:Ec; [|done].
    destruct (checked_add U64_MAX f (tx_fee tx)) as [t|]; [|done]. cbn [state_of fst]. intros Hf Ha.
    exists db. split; [done|]. revert Ha. destruct (is_reward_v2_height _ _); (destruct (_ && _);
      [|intros [= <- _]; done]); unfold run_evm; rewrite Hrun; intros [= <- _]; (split; [by apply failed_evm_accounts|done]). }
  destruct Hacc as (db & Hch & Eacc & Ecid). apply charged_state in Hch as [Hn Hbal].
  assert (En : get_nonce (bc_accounts bc') (tx_from tx) = get_nonce (bc_accounts bc) (tx_from tx))
    by (unfold get_nonce in *; by rewrite Eacc).
  assert (Eb : get_balance (bc_accounts bc') (tx_from tx) = get_balance (bc_accounts bc) (tx_from tx) - tx_fee tx)
    by (unfold get_balance in *; by rewrite Eacc).
  split; [|done]. eapply (validate_evm_tx bc); [done..|lia|done].
Qed.
End replay.
