(* ===== verification/Genesis.v ===== *)
(** * Fork heights and genesis

    Models crates/sentrix-fork-heights/src/lib.rs (the heights as the environment
    sets them) and the first state of a chain: crates/sentrix-core/src/genesis.rs
    with the constructors of blockchain.rs.  The environment is a function, and
    the TOML parser is left out.  Shows that a valid configuration starts a chain
    whose supply is the declared premine, that the embedded configuration gives
    the hardcoded block, and what every chain grown from it satisfies. *)

From S2P Require Import Prelude Bytes Account Staking Epoch Slashing Token Merkle Transaction Authority.
From S2P Require Import TrieState Nft Emission BftMessages Block Chain Executor ChainTrie ExecutorProps EvmExec.

(** ** Fork heights *)

Definition MAINNET_CHAIN_ID : Z := 7119.
Definition TESTNET_CHAIN_ID : Z := 7120.

Section fork_heights.
(** [std::env::var] *)
Context (env : string → option string).

Definition configured_chain_id : Z := default MAINNET_CHAIN_ID (env "SENTRIX_CHAIN_ID" ≫= parse_u64).
Definition chain_default (mainnet_default testnet_default : Z) : Z :=
  if configured_chain_id =? TESTNET_CHAIN_ID then testnet_default else mainnet_default.
Definition read_height (env_var : string) (default_height : Z) : Z := default default_height (env env_var ≫= parse_u64).

Definition get_voyager_fork_height : Z := read_height "VOYAGER_FORK_HEIGHT" (chain_default U64_MAX 10).
Definition get_evm_fork_height : Z := read_height "VOYAGER_EVM_HEIGHT" (chain_default U64_MAX 752).
Definition get_reward_v2_fork_height : Z := read_height "VOYAGER_REWARD_V2_HEIGHT" (chain_default U64_MAX 100).
Definition get_tokenomics_v2_height : Z := read_height "TOKENOMICS_V2_HEIGHT" (chain_default U64_MAX 381651).
Definition get_speculative_apply_height : Z := read_height "SPECULATIVE_APPLY_HEIGHT" U64_MAX.
Definition get_bft_gate_relax_height : Z := read_height "BFT_GATE_RELAX_HEIGHT" (chain_default U64_MAX 551500).
Definition get_jail_consensus_height : Z := read_height "JAIL_CONSENSUS_HEIGHT" U64_MAX.
Definition get_nft_tokenop_height : Z := read_height "NFT_TOKENOP_HEIGHT" U64_MAX.
Definition get_add_self_stake_height : Z := read_height "ADD_SELF_STAKE_HEIGHT" (chain_default U64_MAX 5800000).
Definition get_evm_value_transfer_height : Z := read_height "EVM_VALUE_TRANSFER_HEIGHT" (chain_default 1748900 3409717).
Definition get_evm_gas_fix_height : Z := read_height "EVM_GAS_FIX_HEIGHT" (chain_default 1748900 3787000).
Definition get_extended_touch_list_height : Z := read_height "EXTENDED_TOUCH_LIST_HEIGHT" U64_MAX.
Definition get_strict_justification_height : Z := read_height "STRICT_JUSTIFICATION_HEIGHT" U64_MAX.
Definition get_state_in_trie_height : Z := read_height "STATE_IN_TRIE_HEIGHT" (chain_default U64_MAX 6026000).
Definition get_native_state_in_trie_height : Z := read_height "NATIVE_STATE_IN_TRIE_HEIGHT" U64_MAX.
Definition get_reward_apply_path_height : Z := read_height "REWARD_APPLY_PATH_HEIGHT" U64_MAX.
Definition get_canonical_delete_height : Z := read_height "CANONICAL_DELETE_HEIGHT" U64_MAX.

(** The records that the other components take their gates from. *)
Definition configured_forks : Forks :=
  mkForks get_voyager_fork_height get_reward_v2_fork_height get_tokenomics_v2_height get_jail_consensus_height
    get_nft_tokenop_height get_add_self_stake_height get_strict_justification_height get_speculative_apply_height
    get_reward_apply_path_height get_bft_gate_relax_height.
Definition configured_evm (storage : bool) : EvmConfig :=
  mkEvmConfig get_evm_value_transfer_height get_evm_gas_fix_height storage.

Lemma read_height_range v d : in_u64 d → in_u64 (read_height v d).
Proof.
  assert (Hp : ∀ s acc n, in_u64 acc → parse_digits s acc = Some n → in_u64 n).
  { induction s as [|c s IH]; simpl; intros acc n Ha; [by intros [= <-]|]. case_match eqn:E; [|done].
    apply IH. apply andb_true_iff in E as [[E1 _]%andb_true_iff E2]. ulia. }
  intros Hd. unfold read_height. destruct (env v) as [s|]; simpl; [|done].
  destruct (parse_u64 s) as [n|] eqn:E; simpl; [|done]. unfold parse_u64 in E.
  destruct s as [|c s]; [done|]. case_match; [|by apply (Hp _ _ _) in E; [|ulia]].
  destruct s as [|c' s]; [done|]. by apply (Hp _ _ _) in E; [|ulia].
Qed.
(** With nothing set, none of the forks of the executor is ever active. *)
Lemma unset_never_active h : (∀ v, env v = None) →
  let fk := configured_forks in
  is_voyager_height fk h = false ∧ is_reward_v2_height fk h = false ∧ fork_active (fk_tokenomics_v2 fk) h = false ∧
  fork_active (fk_jail_consensus fk) h = false ∧ fork_active (fk_strict_justification fk) h = false ∧
  fork_active (fk_reward_apply_path fk) h = false.
Proof.
  intros Hn. unfold configured_forks, is_voyager_height, is_reward_v2_height. simpl.
  unfold get_voyager_fork_height, get_reward_v2_fork_height, get_tokenomics_v2_height, get_jail_consensus_height,
    get_strict_justification_height, get_reward_apply_path_height, chain_default, configured_chain_id, read_height.
  rewrite !Hn. simpl. unfold fork_active. done.
Qed.
End fork_heights.

(** ** Genesis *)

Inductive GenesisError := GenesisParse (e : string) | GenesisInvalid (e : string) | GenesisIo (e : string).
Record ChainMeta := mkChainMeta { cm_chain_id : Z; cm_name : string }.
Record GenesisValidator := mkGenesisValidator { gv_address : string; gv_stake : Z; gv_pubkey : string }.
Record GenesisBalance := mkGenesisBalance { gb_address : string; gb_amount : Z }.
Record GenesisCore := mkGenesisCore {
  gc_timestamp : Z;
  gc_parent_hash : string;
  gc_validators : list GenesisValidator;
  gc_balances : list GenesisBalance;
}.
Record Genesis := mkGenesis { gen_chain : ChainMeta; gen_core : GenesisCore }.

(** [is_ascii_hexdigit] *)
Definition hexdigit (a : Ascii.ascii) : bool :=
  let n := Ascii.N_of_ascii a in
  ((48 <=? n) && (n <=? 57) || (65 <=? n) && (n <=? 70) || (97 <=? n) && (n <=? 102))%N.
Definition all_hex (s : string) : bool := forallb hexdigit (String.list_ascii_of_string s).
(** The loop of [checked_add]. *)
Fixpoint sum_checked (l : list Z) (total : Z) : option Z :=
  match l with
  | [] => Some total
  | x :: l => match checked_add U64_MAX total x with Some t => sum_checked l t | None => None end
  end.
Definition gen_validate (now : Z) (g : Genesis) : unit + GenesisError :=
  let core := gen_core g in
  let ph := trim_0x (gc_parent_hash core) in
  if cm_chain_id (gen_chain g) =? 0 then inr (GenesisInvalid "chain_id must be non-zero")
  else if negb (String.length ph =? 64)%nat || negb (all_hex ph)
  then inr (GenesisInvalid ("parent_hash must be 64 hex chars (got " +:+ gc_parent_hash core +:+ ")"))
  else if now <? gc_timestamp core
  then inr (GenesisInvalid ("genesis timestamp " +:+ pretty (gc_timestamp core) +:+ " is in the future (now = " +:+ pretty now +:+ ")"))
  else if bool_decide (gc_validators core = []) then inr (GenesisInvalid "at least one validator required in genesis")
  else
    match first_duplicate ∅ (gv_address <$> gc_validators core) with
    | Some a => inr (GenesisInvalid ("duplicate validator address: " +:+ a))
    | None =>
        match first_duplicate ∅ (gb_address <$> gc_balances core) with
        | Some a => inr (GenesisInvalid ("duplicate balance address: " +:+ a))
        | None =>
            match sum_checked (gb_amount <$> gc_balances core) 0 with
            | None => inr (GenesisInvalid "balance sum overflows u64")
            | Some total =>
                if MAX_SUPPLY <? total
                then inr (GenesisInvalid ("total premine " +:+ pretty total +:+ " exceeds MAX_SUPPLY " +:+ pretty MAX_SUPPLY))
                else inl tt
            end
        end
    end.
Definition total_premine (g : Genesis) : Z :=
  foldl (saturating_add U64_MAX) 0 (gb_amount <$> gc_balances (gen_core g)).
Definition normalise_parent_hash (s : string) : string := to_lowercase (trim_0x s).

Section genesis.
Context `{Sha256, Json, Hex}.
Definition build_block (g : Genesis) : Block :=
  let core := gen_core g in
  let genesis_tx := new_coinbase "GENESIS" 0 0 (gc_timestamp core) in
  let b := mkBlock 0 (normalise_parent_hash (gc_parent_hash core)) [genesis_tx] (gc_timestamp core)
    (merkle_root [txid genesis_tx]) "GENESIS" "" None 0 None in
  b <| blk_hash := calculate_hash b |>.

(** [None] where the process exits: a premine that cannot be credited. *)
Fixpoint credit_premine (l : list GenesisBalance) (db : AccountDB) : option AccountDB :=
  match l with
  | [] => Some db
  | b :: l => match credit (gb_address b) (gb_amount b) db with (db, Ok _) => credit_premine l db | (_, Err _) => None end
  end.
Definition initialize_genesis (g : Genesis) (bc : Blockchain) : option Blockchain :=
  match credit_premine (gc_balances (gen_core g)) (bc_accounts bc) with
  | None => None
  | Some db =>
      Some (bc <| bc_accounts := db |> <| bc_total_minted := total_premine g |>
               <| bc_chain := bc_chain bc ++ [build_block g] |>)
  end.
Definition bare_blockchain (env : string → option string) (admin_address : string) (g : Genesis) : Blockchain :=
  mkBlockchain chain_types [] AccountDB_new (AuthorityManager_new admin_address) ContractRegistry_new NftRegistry_new
    [] ∅ ∅ 0 (default (cm_chain_id (gen_chain g)) (env "SENTRIX_CHAIN_ID" ≫= parse_u64)) None StakeRegistry_new
    EpochManager_new SlashingEngine_new SelfProduced false false.
Definition new_with_genesis (env : string → option string) (admin_address : string) (g : Genesis) : option Blockchain :=
  initialize_genesis g (bare_blockchain env admin_address g).
Definition seat_genesis_validators (now : Z) (g : Genesis) (bc : Blockchain) : Blockchain :=
  bc <| bc_authority := foldl (λ m v, add_validator_unchecked now (gv_address v) ("genesis-" +:+ gv_address v) (gv_pubkey v) m)
          (bc_authority bc) (gc_validators (gen_core g)) |>.

(** The embedded configuration, genesis/mainnet.toml. *)
Definition mainnet : Genesis :=
  mkGenesis (mkChainMeta 7119 "Sentrix Chain")
    (mkGenesisCore 1712620800 "0x0000000000000000000000000000000000000000000000000000000000000000"
       [mkGenesisValidator "0x328d56b8174697ef6c9e40e19b7663797e16fa47" 1050000000000000 ""]
       [mkGenesisBalance "0x252f8cfed5acfa9d00d99a65e2ac91f395a35d78" 2100000000000000;
        mkGenesisBalance "0xeb70fdefd00fdb768dec06c478f450c351499f14" 2100000000000000;
        mkGenesisBalance "0x328d56b8174697ef6c9e40e19b7663797e16fa47" 1050000000000000;
        mkGenesisBalance "0x2578cad17e3e56c2970a5b5eab45952439f5ba97" 1050000000000000]).

(** Its block is the hardcoded one, and its premine the constant of the supply. *)
Lemma mainnet_block : build_block mainnet = Block_genesis.
Proof. reflexivity. Qed.
Lemma mainnet_premine : total_premine mainnet = TOTAL_PREMINE ∧ gen_validate 1712620800 mainnet = inl tt.
Proof. by vm_compute. Qed.

(** ** The first state *)

Definition amounts (g : Genesis) : list Z := gb_amount <$> gc_balances (gen_core g).
Lemma sum_checked_Some l total t :
  Forall in_u64 l → in_u64 total → sum_checked l total = Some t →
  t = total + foldr Z.add 0 l ∧ foldl (saturating_add U64_MAX) total l = t ∧ in_u64 t.
Proof.
  revert total. induction l as [|x l IH]; intros total Hl Ht; simpl; [intros [= <-]; split_and!; [lia|done|done]|].
  apply Forall_cons in Hl as [Hx Hl]. unfold checked_add. destruct (Z.leb_spec (total + x) U64_MAX); [|done].
  intros E. apply IH in E as (E & Es & Hr); [|done|ulia].
  split_and!; [lia| |done]. rewrite <-Es. f_equal. unfold saturating_add. lia.
Qed.
Lemma credit_premine_spec l db :
  accounts_wf db → NoDup (gb_address <$> l) → Forall (λ b, in_u64 (gb_amount b)) l →
  (∀ b, b ∈ l → get_balance db (gb_address b) = 0) →
  ∃ db', credit_premine l db = Some db' ∧ accounts_wf db' ∧
    supply db' = supply db + foldr Z.add 0 (gb_amount <$> l) ∧
    (∀ b, b ∈ l → get_balance db' (gb_address b) = gb_amount b) ∧
    (∀ a, a ∉ gb_address <$> l → get_balance db' a = get_balance db a).
Proof.
  revert db. induction l as [|b l IH]; intros db Hw Hn Hr Hz.
  { exists db. split_and!; [done|done|simpl; lia|set_solver|done]. }
  rewrite fmap_cons in Hn. apply NoDup_cons in Hn as [Hb Hn]. apply Forall_cons in Hr as [Hx Hr].
  assert (Hzb : get_balance db (gb_address b) = 0) by (apply Hz; left).
  destruct (credit (gb_address b) (gb_amount b) db) as [db1 r] eqn:E.
  assert (Hok : r = Ok tt).
  { rewrite credit_eq, Hzb, (proj2 (Z.leb_le _ _)) in E by ulia. by injection E as _ <-. }
  subst r. destruct (credit_effect _ _ _ _ E) as (Hbal & _ & Hs & _).
  assert (Hw1 : accounts_wf db1) by (change db1 with (state_of (db1, Ok tt : result unit)); rewrite <-E; by apply wf_credit).
  destruct (IH db1 Hw1 Hn Hr) as (db' & Ec & Hw' & Hs' & Hin & Hout).
  { intros c Hc. rewrite Hbal. case_decide as Ea; [|rewrite Hz by (by right); lia].
    exfalso. apply Hb. rewrite <-Ea. by apply list_elem_of_fmap_2. }
  exists db'. cbn [credit_premine]. rewrite E, !fmap_cons. cbn [foldr]. split_and!; [done|done|lia| |].
  - intros c [->|Hc]%elem_of_cons; [|by apply Hin]. rewrite Hout by done. rewrite Hbal, decide_True by done. lia.
  - intros a Ha. apply not_elem_of_cons in Ha as [Hne Ha]. rewrite Hout by done. rewrite Hbal, decide_False by done. lia.
Qed.

(** What a valid configuration starts: the declared balances and nothing else, a
    total that is their sum and within the cap, and a window of one block. *)
Theorem genesis_state env admin now g :
  gen_validate now g = inl tt → Forall in_u64 (amounts g) →
  ∃ bc, new_with_genesis env admin g = Some bc ∧
    supply (bc_accounts bc) = bc_total_minted bc ∧ bc_total_minted bc = foldr Z.add 0 (amounts g) ∧
    bc_total_minted bc <= MAX_SUPPLY ∧ accounts_wf (bc_accounts bc) ∧
    (∀ b, b ∈ gc_balances (gen_core g) → get_balance (bc_accounts bc) (gb_address b) = gb_amount b) ∧
    (∀ a, a ∉ gb_address <$> gc_balances (gen_core g) → get_balance (bc_accounts bc) a = 0) ∧
    chain_inv bc ∧ bc_height bc = 0.
Proof.
  intros Hv Hr. unfold gen_validate in Hv. destruct (_ =? 0); [done|]. destruct (_ || _); [done|].
  destruct (_ <? _); [done|]. case_bool_decide; [done|]. destruct (first_duplicate ∅ (gv_address <$> _)); [done|].
  destruct (first_duplicate ∅ (gb_address <$> gc_balances (gen_core g))) eqn:Ed; [done|].
  apply first_duplicate_None in Ed as [Hn _].
  destruct (sum_checked (gb_amount <$> gc_balances (gen_core g)) 0) as [total|] eqn:E; [|done].
  destruct (Z.ltb_spec MAX_SUPPLY total); [done|].
  assert (H0' : in_u64 0) by (clear; ulia). destruct (sum_checked_Some _ 0 _ Hr H0' E) as (Et & Es & _).
  destruct (credit_premine_spec (gc_balances (gen_core g)) AccountDB_new) as (db & Ec & Hw & Hs & Hin & Hout); [by intros ??|done| |done|].
  { unfold amounts in Hr. by rewrite Forall_fmap in Hr. }
  unfold new_with_genesis, initialize_genesis. simpl. rewrite Ec. eexists. split; [reflexivity|]. simpl.
  unfold total_premine. unfold amounts in *. rewrite Es. split_and!; try done; [by rewrite Hs, Et|].
  split; simpl; [done|unfold CHAIN_WINDOW_SIZE; lia|]. intros [|i] a b Ha Hb; simpl in *; done.
Qed.

(** The chain id comes from the configuration when the environment has none, the
    default fork heights do not: a testnet started from its configuration alone
    runs with the heights of mainnet. *)
Lemma testnet_mainnet_forks env admin g bc :
  (∀ v, env v = None) → cm_chain_id (gen_chain g) = TESTNET_CHAIN_ID → new_with_genesis env admin g = Some bc →
  bc_chain_id bc = TESTNET_CHAIN_ID ∧ get_voyager_fork_height env = U64_MAX.
Proof.
  intros Hn Hc. unfold new_with_genesis, initialize_genesis, bare_blockchain.
  destruct (credit_premine _ _); [|done]. intros [= <-]. simpl. rewrite Hn. split; [done|].
  unfold get_voyager_fork_height, read_height, chain_default, configured_chain_id. by rewrite !Hn.
Qed.

(** ** From genesis on *)

Context `{!ChainOps, TxCrypto, HashOrder, Crypto}.
(** Chains grown from a configuration by accepted blocks, with their number. *)
Inductive grown (cfg : NodeConfig) (bc0 : Blockchain) : nat → Blockchain → Prop :=
  | grown_start : grown cfg bc0 0 bc0
  | grown_block n bc bc' block src : grown cfg bc0 n bc →
      add_block_with_source cfg block src bc = (bc', Ok tt) → grown cfg bc0 (S n) bc'.

(** Every chain grown from a valid configuration is a linked window whose tip is at
    the number of blocks accepted. *)
Theorem grown_chain cfg env admin now g bc0 n bc :
  gen_validate now g = inl tt → Forall in_u64 (amounts g) → new_with_genesis env admin g = Some bc0 →
  grown cfg bc0 n bc → Z.of_nat n <= U64_MAX →
  chain_inv bc ∧ bc_height bc = Z.of_nat n ∧ is_valid_chain_window bc = true.
Proof.
  intros Hv Hr Hg Hgr Hn.
  enough (Hc : chain_inv bc ∧ bc_height bc = Z.of_nat n) by (destruct Hc; split_and!; [done..|by apply chain_inv_valid]).
  induction Hgr as [|n bc bc' block src _ IH Ha].
  - destruct (genesis_state env admin now g Hv Hr) as (bc & Hb & _ & _ & _ & _ & _ & _ & Hc & Hh). by simplify_eq.
  - destruct IH as [Hc Hh]; [lia|]. destruct (add_block_extends cfg block src bc bc' Hc) as (Hc' & Hh' & _); [lia|done|].
    split; [done|lia].
Qed.
End genesis.
