(* ===== verification/Rpc.v ===== *)
(** * JSON-RPC: values, parameters and log queries

    Models crates/sentrix-rpc-types/src/lib.rs and
    crates/sentrix-rpc/src/jsonrpc/helpers.rs: hexadecimal quantities, block tags,
    address and topic filters, and the walk of the log table.  A JSON number is an
    integer, or [VFloat n d], the double nearest to the fraction. *)

From S2P Require Import Prelude Bytes Keys Account TokenRegistry Authority TrieState Block Chain Executor Evm EvmProps EvmLogs EvmExec.

Inductive Value :=
  | VNull
  | VBool (b : bool)
  | VNum (n : Z)
  | VFloat (n d : Z)
  | VStr (s : string)
  | VArr (l : list Value)
  | VObj (fields : list (string * Value)).

(** [v.get(i)], [v.get(key)], and indexing, which gives null where there is nothing. *)
Definition get_nth (i : nat) (v : Value) : option Value :=
  match v with VArr l => l !! i | _ => None end.
Definition get_field (key : string) (v : Value) : option Value :=
  match v with VObj fs => (λ f, f.2.2) <$> list_find (λ f, f.1 = key) fs | _ => None end.
Definition nth_param (i : nat) (v : Value) : Value := default VNull (get_nth i v).
Definition field (key : string) (v : Value) : Value := default VNull (get_field key v).
Definition as_str (v : Value) : option string := match v with VStr s => Some s | _ => None end.
Definition as_u64 (v : Value) : option Z :=
  match v with VNum n => if (0 <=? n) && (n <=? U64_MAX) then Some n else None | _ => None end.
Definition is_object (v : Value) : bool := match v with VObj _ => true | _ => false end.

(** ** Quantities *)

(** The hexadecimal digits of a number, most significant first. *)
Definition hex_char (d : Z) : Ascii.ascii :=
  Ascii.ascii_of_N (Z.to_N (if d <? 10 then 48 + d else 87 + d)).
Fixpoint hex_digits (fuel : nat) (n : Z) (acc : string) : string :=
  match fuel with
  | O => acc
  | S fuel => if n <? 16 then String (hex_char n) acc
              else hex_digits fuel (n / 16) (String (hex_char (n mod 16)) acc)
  end.
(** [format!("0x{:x}", n)]: 32 digits hold a [u128]. *)
Definition to_hex (n : Z) : string := "0x" +:+ hex_digits 16 n "".
Definition to_hex_u128 (n : Z) : string := "0x" +:+ hex_digits 32 n "".

Definition hex_value (a : Ascii.ascii) : option Z :=
  let c := Z.of_N (Ascii.N_of_ascii a) in
  if (48 <=? c) && (c <=? 57) then Some (c - 48)
  else if (97 <=? c) && (c <=? 102) then Some (c - 87)
  else if (65 <=? c) && (c <=? 70) then Some (c - 55)
  else None.
Fixpoint parse_hex_digits (s : string) (acc : Z) : option Z :=
  match s with
  | EmptyString => Some acc
  | String a s =>
      match hex_value a with
      | Some d => if acc * 16 + d <=? U64_MAX then parse_hex_digits s (acc * 16 + d) else None
      | None => None
      end
  end.
(** [u64::from_str_radix(s, 16)], which takes a leading plus sign. *)
Definition from_str_radix16 (s : string) : option Z :=
  match s with
  | EmptyString => None
  | String a rest =>
      if (Ascii.N_of_ascii a =? 43)%N then
        match rest with EmptyString => None | String _ _ => parse_hex_digits rest 0 end
      else parse_hex_digits s 0
  end.

Definition all_hexdigits (s : string) : bool := forallb is_ascii_hexdigit (String.list_ascii_of_string s).
Definition normalize_rpc_address (s : string) : string + string :=
  if negb (String.length s =? 42)%nat then inr "address must be 42 chars (0x + 40 hex)"
  else
    let lower := to_lowercase s in
    if negb (String.prefix "0x" lower) then inr "address must start with 0x"
    else if negb (all_hexdigits (String.substring 2 40 lower)) then inr "address must be lowercase hex after 0x"
    else inl lower.
Definition normalize_rpc_hash (s : string) : string + string :=
  let stripped := default s (strip_prefix "0x" s) in
  if negb (String.length stripped =? 64)%nat then inr "hash must be 32 bytes (64 hex chars)"
  else if negb (all_hexdigits stripped) then inr "hash must be hex"
  else inl (to_lowercase stripped).
(** [str::trim] on ASCII text. *)
Definition is_space (a : Ascii.ascii) : bool :=
  let c := Z.of_N (Ascii.N_of_ascii a) in ((9 <=? c) && (c <=? 13)) || (c =? 32).
Fixpoint drop_spaces (l : list Ascii.ascii) : list Ascii.ascii :=
  match l with a :: l' => if is_space a then drop_spaces l' else l | [] => [] end.
Definition trim (s : string) : string :=
  String.string_of_list_ascii (rev (drop_spaces (rev (drop_spaces (String.list_ascii_of_string s))))).
Definition parse_hex_u64 (v : Value) : option Z :=
  match v with
  | VStr s =>
      let trimmed := trim s in
      let digits := match strip_prefix "0x" trimmed with
        | Some d => d
        | None => default trimmed (strip_prefix "0X" trimmed)
        end in
      if bool_decide (digits = "") || negb (all_hexdigits digits) then None else from_str_radix16 digits
  | VNum _ | VFloat _ _ => as_u64 v
  | _ => None
  end.

(** ** Block tags *)

Definition resolve_block_tag (v : option Value) (latest : Z) : Z + string :=
  match v with
  | None => inl latest
  | Some (VStr s) =>
      if bool_decide (s ∈ ["latest"; "pending"; "safe"; "finalized"]) then inl latest
      else if bool_decide (s = "earliest") then inl 0
      else match strip_prefix "0x" s with
           | Some digits => match from_str_radix16 digits with Some h => inl h | None => inr "invalid hex block number" end
           | None => inr "invalid block tag"
           end
  | Some ((VNum _ | VFloat _ _) as n) => match as_u64 n with Some h => inl h | None => inr "invalid block number" end
  | Some _ => inr "invalid block parameter"
  end.

Section latest.
(** The text of a value, as [Display] prints it. *)
Context (value_text : Value → string).
Definition HISTORICAL : Z * string := (-32004, "historical state reads not yet supported; use 'latest'").
Definition require_latest_state_read (block_tag : option Value) (latest : Z) : unit + Z * string :=
  match block_tag with
  | None | Some VNull => inl tt
  | Some (VStr tag) =>
      if bool_decide (tag ∈ [""; "latest"; "pending"; "safe"; "finalized"]) then inl tt
      else if bool_decide (tag = "earliest") then if latest =? 0 then inl tt else inr HISTORICAL
      else match strip_prefix "0x" tag with
           | Some digits =>
               match from_str_radix16 digits with
               | Some h => if h =? latest then inl tt else inr HISTORICAL
               | None => inr (-32602, "invalid hex block number: " +:+ tag)
               end
           | None => inr (-32602, "invalid block tag: " +:+ tag)
           end
  | Some ((VNum _ | VFloat _ _) as n) =>
      match as_u64 n with
      | Some h => if h =? latest then inl tt else inr HISTORICAL
      | None => inr (-32602, "invalid block number")
      end
  | Some other => inr (-32602, "invalid block tag: " +:+ value_text other)
  end.
End latest.

(** ** Filters *)

Section filters.
Context `{Revm, Hex, HexDecode}.

Definition parse_fixed (n : nat) (s : string) : option bytes :=
  match hex_decode (trim_0x s) with
  | Some b => if (length b =? n)%nat then Some b else None
  | None => None
  end.
Definition parse_address_filter (v : option Value) : list bytes :=
  match v with
  | Some (VStr s) => option_list (parse_fixed 20 s)
  | Some (VArr l) => omap (λ x, as_str x ≫= parse_fixed 20) l
  | _ => []
  end.
(** A position without a set, or with an empty one, matches everything. *)
Definition TopicFilter : Type := list (option (list bytes)).
Definition topic_slot (slot : Value) : option (list bytes) :=
  match slot with
  | VStr s => Some (option_list (parse_fixed 32 s))
  | VArr inner => Some (omap (λ x, as_str x ≫= parse_fixed 32) inner)
  | _ => None
  end.
Definition parse_topic_filter (v : option Value) : TopicFilter :=
  match v with Some (VArr l) => topic_slot <$> l | _ => [] end.

Fixpoint topics_match (topics : list bytes) (filter : TopicFilter) : bool :=
  match filter with
  | [] => true
  | slot :: filter =>
      (match slot with
       | Some (s :: set) => match topics with t :: _ => bool_decide (t ∈ s :: set) | [] => false end
       | _ => true
       end) && topics_match (tail topics) filter
  end.
Definition log_matches (log : StoredLog) (addrs : list bytes) (topics : TopicFilter) : bool :=
  (bool_decide (addrs = []) || bool_decide (sl_address log ∈ addrs)) && topics_match (sl_topics log) topics.

(** ** The log table *)

(** The tables of the database by key; a log is [None] where its bytes do not
    decode. *)
Record EvmTables := mkEvmTables {
  tb_logs : gmap bytes (option StoredLog);
  tb_bloom : gmap bytes bytes;
  tb_receipts : gmap bytes StoredReceipt;
}.
Definition key_order (a b : bytes * option StoredLog) : Prop := bytes_le a.1 b.1.
#[global] Instance key_order_dec : RelDecision key_order.
Proof. intros a b. unfold key_order. apply _. Defined.
#[global] Instance key_order_trans : Transitive key_order.
Proof. intros a b c. unfold key_order. apply bytes_le_trans. Qed.
#[global] Instance key_order_total : Total key_order.
Proof. intros a b. unfold key_order. apply bytes_le_total. Qed.
(** The cursor from the first key that is not below [start]. *)
Definition entries_from (start : bytes) (tb : EvmTables) : list (bytes * option StoredLog) :=
  filter (λ e, bytes_le start e.1) (merge_sort key_order (map_to_list (tb_logs tb))).

(** The filter of a block rules the block out. *)
Definition bloom_skips (addrs : list bytes) (h_bytes : bytes) (tb : EvmTables) : bool :=
  negb (bool_decide (addrs = [])) &&
  match tb_bloom tb !! h_bytes with
  | Some bloom => (length bloom =? 256)%nat && negb (existsb (bloom_contains bloom) addrs)
  | None => false
  end.
Fixpoint walk_logs (to : Z) (addrs : list bytes) (topics : TopicFilter) (tb : EvmTables)
    (entries : list (bytes * option StoredLog)) : list StoredLog :=
  match entries with
  | [] => []
  | (k, v) :: entries =>
      if (length k <? 16)%nat then walk_logs to addrs topics tb entries
      else if to <? of_be_bytes (take 8 k) then []
      else if bloom_skips addrs (take 8 k) tb then walk_logs to addrs topics tb entries
      else match v with
           | Some log => if log_matches log addrs topics then log :: walk_logs to addrs topics tb entries
                         else walk_logs to addrs topics tb entries
           | None => walk_logs to addrs topics tb entries
           end
  end.
(** The logs that [collect_logs] turns into JSON. *)
Definition collect_logs (tables : option EvmTables) (from to : Z) (addrs : list bytes) (topics : TopicFilter) : list StoredLog :=
  match tables with
  | None => []
  | Some tb => walk_logs to addrs topics tb (entries_from (to_be_bytes 8 from) tb)
  end.

(** [to_rpc_json] of a stored log. *)
Definition to_rpc_json (log : StoredLog) : Value := VObj
  [("removed", VBool false); ("logIndex", VStr (to_hex (sl_log_index log)));
   ("transactionIndex", VStr (to_hex (sl_tx_index log)));
   ("transactionHash", VStr ("0x" +:+ hex_encode (sl_tx_hash log)));
   ("blockHash", VStr ("0x" +:+ hex_encode (sl_block_hash log)));
   ("blockNumber", VStr (to_hex (sl_block_number log)));
   ("address", VStr ("0x" +:+ hex_encode (sl_address log)));
   ("data", VStr ("0x" +:+ hex_encode (sl_data log)));
   ("topics", VArr ((λ t, VStr ("0x" +:+ hex_encode t)) <$> sl_topics log))].

(** [iter_range] over the prefix of a height. *)
Definition load_logs_for_tx (tables : option EvmTables) (block_height : Z) (id : string) : list StoredLog * string :=
  match tables with
  | None => ([], "0x" +:+ Nat.iter 256 (String.append "00") "")
  | Some tb =>
      let prefix := to_be_bytes 8 block_height in
      let logs := filter (λ log, sl_tx_hash log = hash32 id)
        (omap snd (filter (λ e, take 8 e.1 = prefix) (entries_from prefix tb))) in
      (logs, "0x" +:+ hex_encode (compute_logs_bloom logs))
  end.

(** ** A log query finds every log *)

Definition key_height (k : bytes) : Z := of_be_bytes (take 8 k).
Definition sorted_logs (tb : EvmTables) : list (bytes * option StoredLog) :=
  merge_sort key_order (map_to_list (tb_logs tb)).
(** The tables as the executor writes them: keys are those of logs, and the filter of
    a block, where it could be written, is the one of the block's logs. *)
Record tables_wf (tb : EvmTables) : Prop := {
  tw_keys : ∀ k v, tb_logs tb !! k = Some v → ∃ h t l, key_range (h, t, l) ∧ k = log_key h t l;
  tw_bloom : ∀ h bloom, tb_bloom tb !! to_be_bytes 8 h = Some bloom →
    bloom = compute_logs_bloom (omap snd (filter (λ e, key_height e.1 = h) (sorted_logs tb)));
}.
Definition logs_in_range (from to : Z) (tb : EvmTables) : list StoredLog :=
  omap snd (filter (λ e, from <= key_height e.1 ∧ key_height e.1 <= to) (sorted_logs tb)).

Lemma elem_of_sorted_logs tb k v : (k, v) ∈ sorted_logs tb ↔ tb_logs tb !! k = Some v.
Proof. unfold sorted_logs. rewrite merge_sort_Permutation. apply elem_of_map_to_list. Qed.
Lemma key_height_log_key h t l : key_range (h, t, l) → key_height (log_key h t l) = h.
Proof.
  intros (Hh & _). cbn [fst snd] in Hh. unfold key_height, log_key. rewrite take_app_le by (rewrite length_to_be_bytes; lia).
  rewrite take_ge by (rewrite length_to_be_bytes; lia). apply of_to_be_bytes.
  change (256 ^ Z.of_nat 8) with (U64_MAX + 1). lia.
Qed.
Lemma take_log_key h t l : take 8 (log_key h t l) = to_be_bytes 8 h.
Proof.
  unfold log_key. rewrite take_app_le by (rewrite length_to_be_bytes; lia).
  by rewrite take_ge by (rewrite length_to_be_bytes; lia).
Qed.
Lemma start_below from h t l :
  in_u64 from → key_range (h, t, l) → bytes_le (to_be_bytes 8 from) (log_key h t l) ↔ from <= h.
Proof.
  intros Hf (Hh & _). cbn [fst snd] in Hh. unfold log_key. rewrite <-(app_nil_r (to_be_bytes 8 from)).
  rewrite (be_order_next 8); [|change (256 ^ Z.of_nat 8) with (U64_MAX + 1); ulia|change (256 ^ Z.of_nat 8) with (U64_MAX + 1); lia].
  split; [intros [?|[-> _]]; lia|]. intros Hle. destruct (decide (from = h)); [right; split; [done|apply bytes_le_nil]|left; lia].
Qed.

(** A block whose filter is skipped has no log of the addresses asked for. *)
Lemma bloom_skips_sound tb addrs topics h t l log :
  tables_wf tb → key_range (h, t, l) → tb_logs tb !! log_key h t l = Some (Some log) →
  bloom_skips addrs (to_be_bytes 8 h) tb = true → log_matches log addrs topics = false.
Proof.
  intros [_ Hb] Hk Hl Hs. unfold bloom_skips in Hs. case_bool_decide as Ea; [done|]. cbn [negb andb] in Hs.
  destruct (tb_bloom tb !! to_be_bytes 8 h) as [bloom|] eqn:E; [|done]. apply Hb in E as ->.
  apply andb_true_iff in Hs as [_ Hs]. apply negb_true_iff in Hs.
  unfold log_matches. rewrite bool_decide_eq_false_2 by done. cbn [orb].
  rewrite bool_decide_eq_false_2; [done|]. intros Hin. apply not_true_iff_false in Hs. apply Hs, existsb_exists.
  exists (sl_address log). split; [by apply list_elem_of_In|].
  apply (bloom_complete _ [] log); [|by left].
  apply list_elem_of_omap. exists (log_key h t l, Some log). split; [|done].
  apply list_elem_of_filter. split; [by apply key_height_log_key|]. by apply elem_of_sorted_logs.
Qed.

Lemma walk_logs_spec tb from to addrs topics entries :
  tables_wf tb → in_u64 from → StronglySorted key_order entries →
  (∀ e, e ∈ entries → tb_logs tb !! e.1 = Some e.2) →
  walk_logs to addrs topics tb (filter (λ e, bytes_le (to_be_bytes 8 from) e.1) entries) =
  filter (λ log, log_matches log addrs topics = true)
    (omap snd (filter (λ e, from <= key_height e.1 ∧ key_height e.1 <= to) entries)).
Proof.
  intros Hw Hf Hs Hin. induction Hs as [|[k v] entries Hs IH Hk]; [done|].
  assert (IH' := IH (λ e He, Hin e (list_elem_of_further _ _ _ He))). clear IH.
  pose proof (Hin (k, v) (list_elem_of_here _ _)) as Hl. cbn [fst snd] in Hl.
  destruct (tw_keys tb Hw k v Hl) as (h & t & l & Hr & ->).
  assert (Eh : key_height (log_key h t l) = h) by (by apply key_height_log_key).
  assert (Hlater : ∀ e, e ∈ entries → h <= key_height e.1).
  { intros [k' v'] He. rewrite Forall_forall in Hk. specialize (Hk _ He). unfold key_order in Hk. cbn [fst] in *.
    destruct (tw_keys tb Hw k' v') as (h' & t' & l' & Hr' & ->); [by apply (Hin (k', v')), list_elem_of_further|].
    rewrite key_height_log_key by done. apply log_keys_canonical in Hk; [|done..]. unfold key_le in Hk. cbn [fst snd] in Hk. lia. }
  rewrite !filter_cons. cbn [fst]. rewrite Eh.
  destruct (decide (bytes_le (to_be_bytes 8 from) (log_key h t l))) as [Hb|Hb]; rewrite start_below in Hb by done.
  2: { rewrite decide_False by lia. exact IH'. }
  cbn [walk_logs]. assert (El : length (log_key h t l) = 16%nat) by (unfold log_key; by rewrite !length_app, !length_to_be_bytes).
  rewrite El, take_log_key. change (of_be_bytes (to_be_bytes 8 h)) with (of_be_bytes (to_be_bytes 8 h)).
  assert (Eo : of_be_bytes (to_be_bytes 8 h) = h).
  { rewrite <-(take_log_key h t l). exact Eh. }
  rewrite Eo. cbn [Nat.ltb]. change (16 <? 16)%nat with false. cbv iota.
  destruct (Z.ltb_spec to h) as [Hlt|Hle].
  - rewrite decide_False by lia. symmetry.
    assert (E : filter (λ e : bytes * option StoredLog, from <= key_height e.1 ∧ key_height e.1 <= to) entries = []).
    { apply elem_of_nil_inv. intros e [[_ ?] He]%list_elem_of_filter. specialize (Hlater e He). lia. }
    by rewrite E.
  - rewrite decide_True by lia. cbn [omap list_omap snd].
    destruct (bloom_skips addrs (to_be_bytes 8 h) tb) eqn:Eb.
    + rewrite IH'. destruct v as [log|]; [|done]. rewrite filter_cons_False; [done|].
      by rewrite (bloom_skips_sound tb addrs topics h t l log Hw Hr Hl Eb).
    + destruct v as [log|]; [|exact IH']. rewrite filter_cons. rewrite IH'.
      destruct (log_matches log addrs topics) eqn:Em; [by rewrite decide_True|by rewrite decide_False].
Qed.

(** A log query gives exactly the logs of the range that match, in the order of the
    chain: neither the cursor nor the blocks that it skips by their filter lose one. *)
Lemma collect_logs_complete tb from to addrs topics :
  tables_wf tb → in_u64 from →
  collect_logs (Some tb) from to addrs topics
  = filter (λ log, log_matches log addrs topics = true) (logs_in_range from to tb).
Proof.
  intros Hw Hf. apply walk_logs_spec; [done|done| |].
  - apply (StronglySorted_merge_sort key_order).
  - intros [k v] He. by apply elem_of_sorted_logs.
Qed.
End filters.

(** ** A quantity is read back *)

Lemma hex_value_char d :
  0 <= d < 16 → hex_value (hex_char d) = Some d ∧ is_ascii_hexdigit (hex_char d) = true ∧
    is_space (hex_char d) = false ∧ (Ascii.N_of_ascii (hex_char d) =? 43)%N = false.
Proof.
  intros Hd.
  assert (Hall : forallb (λ d, bool_decide (hex_value (hex_char d) = Some d) && is_ascii_hexdigit (hex_char d)
    && negb (is_space (hex_char d)) && negb (Ascii.N_of_ascii (hex_char d) =? 43)%N) (seqZ 0 16) = true) by reflexivity.
  rewrite forallb_forall in Hall. specialize (Hall d). rewrite <-list_elem_of_In, elem_of_seqZ in Hall.
  specialize (Hall ltac:(lia)). rewrite !andb_true_iff, !negb_true_iff, bool_decide_eq_true in Hall. tauto.
Qed.
Lemma parse_hex_spec fuel n s :
  0 <= n < 16 ^ Z.of_nat fuel → fuel ≠ 0%nat →
  parse_hex_digits (hex_digits fuel n s) 0 = if n <=? U64_MAX then parse_hex_digits s n else None.
Proof.
  revert n s. induction fuel as [|fuel IH]; intros n s Hn Hf; [done|]. cbn [hex_digits].
  destruct (Z.ltb_spec n 16) as [Hlt|Hge].
  - cbn [parse_hex_digits]. destruct (hex_value_char n ltac:(lia)) as [-> _]. by rewrite Z.mul_0_l, Z.add_0_l.
  - rewrite Nat2Z.inj_succ, Z.pow_succ_r in Hn by lia.
    assert (Hq : 0 <= n / 16 < 16 ^ Z.of_nat fuel) by (split; [apply Z.div_pos; lia|apply Z.div_lt_upper_bound; lia]).
    assert (Hf' : fuel ≠ 0%nat) by (intros ->; simpl in Hq; pose proof (Z.div_le_lower_bound n 16 1); lia).
    rewrite IH by done. cbn [parse_hex_digits]. pose proof (Z.mod_pos_bound n 16 ltac:(lia)) as Hm.
    destruct (hex_value_char (n mod 16) Hm) as [-> _].
    replace (n / 16 * 16 + n mod 16) with n by (rewrite (Z.div_mod n 16) at 1; lia).
    destruct (Z.leb_spec n U64_MAX), (Z.leb_spec (n / 16) U64_MAX); try done. exfalso.
    pose proof (Z.div_le_upper_bound n 16 U64_MAX). lia.
Qed.
(** Digits are hexadecimal, so trimming and the prefix test leave them alone. *)
Lemma hex_digits_cons fuel n s :
  0 <= n → fuel ≠ 0%nat → ∃ d r, 0 <= d < 16 ∧ hex_digits fuel n s = String (hex_char d) r.
Proof.
  revert n s. induction fuel as [|fuel IH]; intros n s Hn Hf; [done|]. cbn [hex_digits].
  destruct (Z.ltb_spec n 16); [by exists n, s|]. destruct fuel as [|fuel]; [|apply IH; [by apply Z.div_pos|done]].
  simpl. eexists _, s. split; [|reflexivity]. apply Z.mod_pos_bound. lia.
Qed.
Lemma hex_digits_chars (P : Ascii.ascii → bool) fuel n s :
  (∀ d, 0 <= d < 16 → P (hex_char d) = true) → 0 <= n →
  forallb P (String.list_ascii_of_string s) = true → forallb P (String.list_ascii_of_string (hex_digits fuel n s)) = true.
Proof.
  intros HP. revert n s. induction fuel as [|fuel IH]; intros n s Hn Hs; [done|]. cbn [hex_digits].
  destruct (Z.ltb_spec n 16); [simpl; by rewrite HP|]. apply IH; [by apply Z.div_pos|].
  simpl. rewrite HP by (apply Z.mod_pos_bound; lia). done.
Qed.
Lemma drop_spaces_id l : forallb (λ a, negb (is_space a)) l = true → drop_spaces l = l.
Proof. destruct l as [|a l]; [done|]. simpl. by destruct (is_space a). Qed.
Lemma trim_id s : forallb (λ a, negb (is_space a)) (String.list_ascii_of_string s) = true → trim s = s.
Proof.
  intros Hs. unfold trim. rewrite (drop_spaces_id _ Hs), drop_spaces_id.
  - rewrite rev_involutive. apply String.string_of_list_ascii_of_string.
  - rewrite forallb_forall in Hs |- *. intros a Ha. by apply Hs, in_rev.
Qed.

(** What the node prints as a quantity it reads back, as a number and as a block tag. *)
Theorem to_hex_roundtrip n latest :
  in_u64 n → parse_hex_u64 (VStr (to_hex n)) = Some n ∧ resolve_block_tag (Some (VStr (to_hex n))) latest = inl n.
Proof.
  intros Hn. assert (Hr : from_str_radix16 (hex_digits 16 n "") = Some n).
  { destruct (hex_digits_cons 16 n "") as (d & r & Hd & E); [ulia|done|].
    pose proof (parse_hex_spec 16 n "") as Hp. rewrite (proj2 (Z.leb_le n U64_MAX)) in Hp by ulia.
    unfold from_str_radix16. rewrite E in Hp |- *. destruct (hex_value_char d Hd) as (_ & _ & _ & ->).
    apply Hp; [|done]. change (16 ^ Z.of_nat 16) with (U64_MAX + 1). ulia. }
  assert (Hh : all_hexdigits (hex_digits 16 n "") = true).
  { apply hex_digits_chars; [|ulia|done]. intros d Hd. apply hex_value_char, Hd. }
  assert (Ht : trim (to_hex n) = to_hex n).
  { apply trim_id. unfold to_hex. cbn [String.append String.list_ascii_of_string forallb].
    apply hex_digits_chars; [|ulia|done]. intros d Hd. by destruct (hex_value_char d Hd) as (_ & _ & -> & _). }
  assert (Hp : strip_prefix "0x" (to_hex n) = Some (hex_digits 16 n "")) by (by apply strip_prefix_Some).
  split.
  - unfold parse_hex_u64. rewrite Ht, Hp, Hh, orb_false_r.
    rewrite bool_decide_eq_false_2; [done|]. intros E. by rewrite E in Hr.
  - unfold resolve_block_tag. rewrite Hp, Hr, !bool_decide_eq_false_2; [done| |].
    + unfold to_hex. discriminate.
    + unfold to_hex. rewrite !list_elem_of_cons || rewrite !elem_of_cons. intros [?|[?|[?|[?|[]%elem_of_nil]]]]; discriminate.
Qed.
