(* ===== verification/RpcEth.v ===== *)
(** * JSON-RPC: the Ethereum methods

    Models crates/sentrix-rpc/src/jsonrpc/eth.rs: blocks, transactions and receipts
    in Ethereum's shape, signed envelopes turned into transactions, calls and gas
    estimates, and reads of accounts, code and storage.  Only sending a transaction
    changes the node, and only its mempool. *)

From S2P Require Import Prelude Bytes Keys Account Transaction Authority Emission Staking Epoch Slashing Merkle BftMessages.
From S2P Require Import Block TrieState Chain MempoolProps Storage Queries Executor Network Evm EvmProps EvmLogs EvmExec Rpc.

(** A decoded EIP-2718 envelope, as its accessors give it. *)
Record TxEnvelope := mkEnvelope {
  en_nonce : Z; en_gas_limit : Z; en_value : Z; en_input : bytes; en_kind : TxKind;
  en_chain_id : option Z; en_parity : bool; en_r : Z; en_s : Z;
}.
(** The alloy crates, [TxEnv::default()], and texts that the errors carry. *)
Class Alloy := {
  decode_2718 : bytes → TxEnvelope + string;
  recover_signer : TxEnvelope → Address + string;
  default_tx_env : TxEnv;
  debug_str : string → string;
  value_text : Value → string;
}.

Abbreviation DispatchResult := (Value + Z * string)%type (only parsing).

(** The node as the handlers see it: the chain, the database, and the fork of the
    EVM. *)
Record RpcNode `{ChainTypes} := mkRpcNode {
  rn_bc : Blockchain;
  rn_storage : option (ChainDb * EvmTables);
  rn_evm_fork : Z;
}.
#[global] Instance RpcNode_eta `{ChainTypes} : Eta RpcNode := λ n,
  mkRpcNode _ (rn_bc n) (rn_storage n) (rn_evm_fork n).

Definition ZERO_HASH_HEX : string := "0x0000000000000000000000000000000000000000000000000000000000000000".
Definition EMPTY_SHA3_UNCLES : string := "0x1dcc4de8dec75d7aab85b567b6ccd41ad312451b948a7413f0a142fd40d49347".
Definition EMPTY_LOGS_BLOOM : string := "0x" +:+ Nat.iter 256 (String.append "00") "".

(** [if s.starts_with("0x") { s } else { format!("0x{s}") }] *)
Definition with_0x (s : string) : string := if String.prefix "0x" s then s else "0x" +:+ s.

Section eth.
Context `{ChainTypes, Json, Sha256, TxCrypto, Hex, HashOrder, JsonSlice, PartitionPoint, Revm, HexDecode, Alloy}.
Context (serialized_size : Transaction → option Z) (now : Z).
Implicit Types (bc : Blockchain) (n : RpcNode) (params : Value) (block : Block) (tx : Transaction).

Definition is_evm_active n : bool := fork_active (rn_evm_fork n) (bc_height (rn_bc n)).
Definition rn_tables n : option EvmTables := snd <$> rn_storage n.
Definition block_any n (index : Z) : option Block := get_block_any (fst <$> rn_storage n) (rn_bc n) index.
Definition find_transaction n (id : string) : option TxInfo :=
  get_transaction (λ id, rn_storage n ≫= λ s, fst <$> lookup_tx_in_storage s.1 id) (rn_bc n) id.
Definition str_param (i : nat) params (otherwise : string) : string := default otherwise (as_str (nth_param i params)).
Definition invalid (message : string) : DispatchResult := inr (-32602, message).

(** ** Blocks *)

Definition build_block_json block : Value := VObj
  [("number", VStr (to_hex (blk_index block))); ("hash", VStr ("0x" +:+ blk_hash block));
   ("parentHash", VStr ("0x" +:+ blk_previous_hash block)); ("timestamp", VStr (to_hex (blk_timestamp block)));
   ("miner", VStr (blk_validator block));
   ("transactions", VArr ((λ tx, VStr ("0x" +:+ txid tx)) <$> blk_transactions block));
   ("transactionsRoot", VStr ("0x" +:+ blk_merkle_root block));
   ("stateRoot", VStr (match blk_state_root block with Some r => "0x" +:+ hex_encode r | None => ZERO_HASH_HEX end));
   ("receiptsRoot", VStr ZERO_HASH_HEX); ("logsBloom", VStr EMPTY_LOGS_BLOOM);
   ("sha3Uncles", VStr EMPTY_SHA3_UNCLES); ("mixHash", VStr ZERO_HASH_HEX); ("uncles", VArr []);
   ("gasLimit", VStr (to_hex 30000000)); ("gasUsed", VStr (to_hex 0)); ("difficulty", VStr "0x0");
   ("totalDifficulty", VStr "0x0"); ("size", VStr (to_hex 1000)); ("extraData", VStr "0x");
   ("nonce", VStr "0x0000000000000000"); ("baseFeePerGas", VStr (to_hex INITIAL_BASE_FEE))].
Definition block_or_null (b : option Block) : DispatchResult :=
  inl (match b with Some b => build_block_json b | None => VNull end).

(** Tags that are not a number, and the number of any other text. *)
Definition block_index_param (tips : list string) params n : Z + Z * string :=
  let block_param := str_param 0 params "latest" in
  if bool_decide (block_param ∈ tips) then inl (bc_height (rn_bc n))
  else if bool_decide (block_param = "earliest") then inl 0
  else match from_str_radix16 (trim_0x block_param) with
       | Some i => inl i
       | None => inr (-32602, "invalid block number: " +:+ debug_str block_param)
       end.
Definition eth_get_block_by_number params n : DispatchResult :=
  match block_index_param ["latest"] params n with
  | inl index => block_or_null (block_any n index)
  | inr e => inr e
  end.
Definition eth_get_block_transaction_count_by_number params n : DispatchResult :=
  match block_index_param ["latest"; "pending"; "finalized"; "safe"] params n with
  | inl index => inl (match block_any n index with
                      | Some b => VStr (to_hex (Z.of_nat (length (blk_transactions b))))
                      | None => VNull
                      end)
  | inr e => inr e
  end.
Definition eth_get_block_by_hash params n : DispatchResult :=
  block_or_null (get_block_by_hash (rn_bc n) (trim_0x (str_param 0 params ""))).

(** ** Transactions *)

Definition zero_to (to_raw : string) : bool :=
  bool_decide (to_raw ∈ [""; "0x0000000000000000000000000000000000000000"; "0000000000000000000000000000000000000000"]).
Definition gas_and_input (data : string) : string * string :=
  match strip_prefix "EVM:" data with
  | Some rest =>
      match split_colon rest with
      | Some (gas_str, input) => (to_hex (default 21000 (parse_u64 gas_str)), "0x" +:+ input)
      | None => (to_hex 21000, "0x")
      end
  | None => (to_hex 21000, "0x")
  end.
Definition position_of (id : string) (txs : list Transaction) : option nat :=
  fst <$> list_find (λ t, txid t = id) txs.
Definition extract_vrs_from_rlp (sig_hex : string) : option (string * string * string) :=
  match TrieState.hex_decode sig_hex with
  | Some raw =>
      match decode_2718 raw with
      | inl env => Some (to_hex (if en_parity env then 1 else 0), "0x" +:+ hex_digits 64 (en_r env) "", "0x" +:+ hex_digits 64 (en_s env) "")
      | inr _ => None
      end
  | None => None
  end.
Definition sentinel_from (from_raw : string) : string :=
  if bool_decide (from_raw = "") || bool_decide (to_lowercase from_raw = "coinbase")
  then "0x0000000000000000000000000000000000000000" else with_0x from_raw.

Definition tx_to_evm_json n (id : string) (i : TxInfo) : Value :=
  let tx := ti_transaction i in
  let is_evm := is_evm_tx tx in
  let to_value := if zero_to (tx_to tx) || (is_evm && bool_decide (to_lowercase (tx_to tx) = to_lowercase TOKEN_OP_ADDRESS))
                  then VNull else VStr (with_0x (tx_to tx)) in
  let '(gas_hex, input_hex) := gas_and_input (tx_data tx) in
  let tx_index := match block_any n (ti_block_index i) ≫= (λ b, position_of id (blk_transactions b)) with
    | Some k => VStr (to_hex (Z.of_nat k))
    | None => VNull
    end in
  let gas_price := if is_evm then to_hex INITIAL_BASE_FEE else "0x0" in
  let '(v, r, s) := match (if is_evm then extract_vrs_from_rlp (tx_signature tx) else None) with
    | Some (v, r, s) => (VStr v, VStr r, VStr s)
    | None => (VNull, VNull, VNull)
    end in
  VObj
  [("hash", VStr ("0x" +:+ id));
   ("blockHash", if bool_decide (ti_block_hash i = "") then VNull else VStr (with_0x (ti_block_hash i)));
   ("blockNumber", VStr (to_hex (ti_block_index i))); ("transactionIndex", tx_index);
   ("from", VStr (sentinel_from (tx_from tx))); ("to", to_value);
   ("value", VStr (to_hex_u128 (saturating_mul U128_MAX (tx_amount tx) WEI_PER_SENTRI)));
   ("gas", VStr gas_hex); ("gasPrice", VStr gas_price); ("input", VStr input_hex);
   ("nonce", VStr (to_hex (tx_nonce tx))); ("type", VStr (if is_evm then "0x2" else "0x0"));
   ("chainId", VStr (to_hex (tx_chain_id tx))); ("v", v); ("r", r); ("s", s);
   ("maxFeePerGas", VStr gas_price); ("maxPriorityFeePerGas", VStr "0x0"); ("accessList", VArr [])].
Definition eth_get_transaction_by_hash params n : DispatchResult :=
  match normalize_rpc_hash (str_param 0 params "") with
  | inr e => invalid e
  | inl id => inl (match find_transaction n id with Some i => tx_to_evm_json n id i | None => VNull end)
  end.

(** ** Receipts *)

Definition stored_receipt n (id : string) : option StoredReceipt :=
  rn_tables n ≫= λ tb, receipt_key id ≫= λ k, tb_receipts tb !! k.
Definition gas_used_of n (id : string) : Z :=
  match stored_receipt n id with Some r => sr_gas_used r | None => 21000 end.
Definition contract_value n (id : string) : Value :=
  match stored_receipt n id ≫= sr_contract_address with
  | Some a => VStr ("0x" +:+ hex_encode a)
  | None => VNull
  end.
Definition receipt_json n (id : string) (index block_hash : string) (height : Z) (from to : Value) (is_evm : bool)
    (cumulative : Z) : Value :=
  let '(logs, bloom_hex) := load_logs_for_tx (rn_tables n) height id in
  VObj
  [("transactionHash", VStr ("0x" +:+ id)); ("transactionIndex", VStr index); ("blockNumber", VStr (to_hex height));
   ("blockHash", VStr block_hash); ("from", from); ("to", to); ("contractAddress", contract_value n id);
   ("status", VStr (if is_evm_tx_failed (bc_accounts (rn_bc n)) id then "0x0" else "0x1"));
   ("gasUsed", VStr (to_hex (gas_used_of n id))); ("cumulativeGasUsed", VStr (to_hex cumulative));
   ("effectiveGasPrice", VStr (if is_evm then to_hex INITIAL_BASE_FEE else "0x0"));
   ("type", VStr (if is_evm then "0x2" else "0x0")); ("logs", VArr (to_rpc_json <$> logs)); ("logsBloom", VStr bloom_hex)].

(** The sum over the transactions up to and including position [upto]. *)
Definition cumulative_upto n (upto : option nat) (txs : list Transaction) : Z :=
  foldl (λ sum t, saturating_add U64_MAX sum (gas_used_of n (txid t))) 0
    (match upto with Some k => take (S k) txs | None => txs end).
Definition receipt_from (from : string) : Value :=
  VStr (if bool_decide (from = "") || bool_decide (from = "COINBASE") then String.substring 0 42 ZERO_HASH_HEX
        else with_0x from).
Definition eth_get_transaction_receipt params n : DispatchResult :=
  match normalize_rpc_hash (str_param 0 params "") with
  | inr e => invalid e
  | inl id =>
      match find_transaction n id with
      | None => inl VNull
      | Some i =>
          let tx := ti_transaction i in
          let block_txs := match block_any n (ti_block_index i) with Some b => blk_transactions b | None => [] end in
          let tx_idx := position_of id block_txs in
          inl (receipt_json n id (match tx_idx with Some k => to_hex (Z.of_nat k) | None => "0x0" end)
            (with_0x (ti_block_hash i)) (ti_block_index i) (receipt_from (tx_from tx))
            (if zero_to (tx_to tx) then VNull else VStr (with_0x (tx_to tx))) (is_evm_tx tx)
            (cumulative_upto n tx_idx block_txs))
      end
  end.

(** The block that a tag, a hash, or an object with one of them names. *)
Definition tag_block (v : Value) n : option Block + Z * string :=
  match resolve_block_tag (Some v) (bc_height (rn_bc n)) with
  | inl h => inl (block_any n h)
  | inr e => inr (-32602, e)
  end.
Definition hash_block (s : string) n : option Block := get_block_by_hash (rn_bc n) (to_lowercase (trim_0x s)).
Definition receipts_block params n : option Block + Z * string :=
  match nth_param 0 params with
  | VStr s =>
      if (String.length (default s (strip_prefix "0x" s)) =? 64)%nat then inl (hash_block s n) else tag_block (VStr s) n
  | VObj _ as obj =>
      match get_field "blockHash" obj ≫= as_str with
      | Some h => inl (hash_block h n)
      | None => match get_field "blockNumber" obj with
                | Some v => tag_block v n
                | None => inr (-32602, "expected blockHash or blockNumber")
                end
      end
  | _ => inr (-32602, "expected block tag, block hash, or { blockHash | blockNumber } object")
  end.
Fixpoint block_receipts n block (index : Z) (cumulative : Z) (txs : list Transaction) : list Value :=
  match txs with
  | [] => []
  | tx :: txs =>
      let cumulative := saturating_add U64_MAX cumulative (gas_used_of n (txid tx)) in
      receipt_json n (txid tx) (to_hex index) ("0x" +:+ blk_hash block) (blk_index block) (VStr (tx_from tx)) (VStr (tx_to tx))
        (is_evm_tx tx) cumulative :: block_receipts n block (index + 1) cumulative txs
  end.
Definition eth_get_block_receipts params n : DispatchResult :=
  match receipts_block params n with
  | inr e => inr e
  | inl None => inl VNull
  | inl (Some b) => inl (VArr (block_receipts n b 0 0 (blk_transactions b)))
  end.

(** ** Sending *)

Definition envelope_tx (raw : bytes) (env : TxEnvelope) (sender : Address) (amount : Z) : Transaction := {|
  txid := hex_encode (keccak256 raw);
  tx_from := "0x" +:+ hex_encode sender;
  tx_to := match en_kind env with Call addr => "0x" +:+ hex_encode addr | Create => TOKEN_OP_ADDRESS end;
  tx_amount := amount;
  tx_fee := MIN_TX_FEE;
  tx_nonce := en_nonce env;
  tx_data := "EVM:" +:+ pretty (en_gas_limit env) +:+ ":" +:+ hex_encode (en_input env);
  tx_timestamp := now;
  tx_chain_id := default 0 (en_chain_id env);
  tx_signature := hex_encode raw;
  tx_public_key := "";
|}.
(** The transaction that a signed envelope stands for. *)
Definition raw_transaction params : Transaction + Z * string :=
  match TrieState.hex_decode (trim_0x (str_param 0 params "")) with
  | None => inr (-32602, "invalid hex")
  | Some raw =>
      match decode_2718 raw with
      | inr e => inr (-32602, "RLP decode failed: " +:+ e)
      | inl env =>
          match recover_signer env with
          | inr e => inr (-32602, "signer recovery failed: " +:+ e)
          | inl sender =>
              if U128_MAX <? en_value env then inr (-32602, "tx value exceeds u128 (not representable on Sentrix)")
              else if negb (en_value env mod WEI_PER_SENTRI =? 0) then
                inr (-32602, "tx value is not a whole number of sentri (must be divisible by 1e10 wei)")
              else inl (envelope_tx raw env sender (wrap U64_MAX (en_value env / WEI_PER_SENTRI)))
          end
      end
  end.
Definition submit tx (answer : Value) n : RpcNode * DispatchResult :=
  let '(bc, r) := add_to_mempool serialized_size now tx (rn_bc n) in
  (n <| rn_bc := bc |>, match r with Ok _ => inl answer | Err e => inr (-32603, error_text e) end).
Definition eth_send_raw_transaction params n : RpcNode * DispatchResult :=
  if negb (is_evm_active n) then (n, inr (-32000, "EVM not active yet"))
  else match raw_transaction params with
       | inr e => (n, inr e)
       | inl tx => submit tx (VStr ("0x" +:+ txid tx)) n
       end.

(** ** Calls *)

Definition dry_run_gas (call_obj : Value) : Z :=
  Z.min (default TX_GAS_LIMIT_CAP (as_str (field "gas" call_obj) ≫= λ s, from_str_radix16 (trim_0x s))) TX_GAS_LIMIT_CAP.
Definition dry_run_from (call_obj : Value) : string :=
  to_lowercase (default "0x0000000000000000000000000000000000000000" (as_str (field "from" call_obj))).
Definition dry_run_tx (call_obj : Value) bc : TxEnv :=
  let from_str := dry_run_from call_obj in
  let to_str := to_lowercase (default "" (as_str (field "to" call_obj))) in
  let env := {|
    te_caller := default ADDRESS_ZERO (parse_sentrix_address from_str);
    te_kind := match parse_sentrix_address to_str with Some a => Call a | None => Create end;
    te_data := default [] (TrieState.hex_decode (trim_0x (default "0x" (as_str (field "data" call_obj)))));
    te_value := default 0 ((get_field "value" call_obj ≫= as_str) ≫= λ s, u256_from_hex (trim_0x s));
    te_gas_limit := dry_run_gas call_obj;
    te_gas_price := 0;
    te_nonce := get_nonce (bc_accounts bc) from_str;
    te_chain_id := Some (bc_chain_id bc);
  |} in
  if tx_env_complete env then env else default_tx_env.
(** [AccountInfo::default()] *)
Definition default_info : AccountInfo := mkInfo 0 0 KECCAK_EMPTY None.
(** A caller with nothing is given enough for the checks. *)
Definition fund_caller (from_addr : Address) (ed : SentrixEvmDb) : SentrixEvmDb :=
  let info := default default_info (basic ed from_addr) in
  insert_account from_addr
    (if ai_balance info =? 0 then mkInfo (2 ^ 96) (ai_nonce info) (ai_code_hash info) (ai_code info) else info) ed.
Definition run_evm_dry_run (call_obj : Value) n : TxReceipt + Z * string :=
  if negb (is_evm_active n) then inr (-32000, "EVM not active yet")
  else
    let bc := rn_bc n in
    let from_addr := default ADDRESS_ZERO (parse_sentrix_address (dry_run_from call_obj)) in
    match execute_call_with_state (fund_caller from_addr (from_account_db (bc_accounts bc)))
            (dry_run_tx call_obj bc) INITIAL_BASE_FEE (bc_chain_id bc) with
    | inl (receipt, _) => inl receipt
    | inr e => inr (-32000, "EVM execution failed: " +:+ e)
    end.
Definition eth_estimate_gas params n : DispatchResult :=
  match get_nth 0 params with
  | Some (VObj _ as call_obj) =>
      match run_evm_dry_run call_obj n with
      | inl receipt =>
          if negb (rc_success receipt) then
            inr (-32000, if bool_decide (rc_output receipt = []) then "execution reverted"
                         else "execution reverted: 0x" +:+ hex_encode (rc_output receipt))
          else
            let gas := rc_gas_used receipt in
            inl (VStr (to_hex (Z.max (saturating_add U64_MAX gas (gas / 4)) (saturating_add U64_MAX gas 30000))))
      | inr e => inr e
      end
  | _ => invalid "expected call object as first param"
  end.
Definition eth_call params n : DispatchResult :=
  match run_evm_dry_run (nth_param 0 params) n with
  | inl receipt => inl (VStr ("0x" +:+ hex_encode (rc_output receipt)))
  | inr (code, msg) =>
      if (code =? -32000) && String.prefix "EVM execution failed" msg then inl (VStr "0x") else inr (code, msg)
  end.

(** ** Logs and fees *)

Definition eth_get_logs params n : DispatchResult :=
  match get_nth 0 params with
  | Some (VObj _ as filter) =>
      let latest := bc_height (rn_bc n) in
      match resolve_block_tag (get_field "fromBlock" filter) latest with
      | inr e => invalid e
      | inl from_block =>
          match resolve_block_tag (get_field "toBlock" filter) latest with
          | inr e => invalid e
          | inl to_block =>
              if to_block <? from_block then invalid "toBlock < fromBlock"
              else if 10000 <=? saturating_sub to_block from_block then inr (-32005, "query returned more than 10000 results")
              else inl (VArr (to_rpc_json <$> collect_logs (rn_tables n) from_block to_block
                     (parse_address_filter (get_field "address" filter)) (parse_topic_filter (get_field "topics" filter))))
          end
      end
  | _ => invalid "filter object required"
  end.
(** The fraction of the limit, at the gas of a payment for each transaction. *)
Definition block_gas_used_ratio bc (height : Z) : Value :=
  match List.find (λ b, blk_index b =? height) (bc_chain bc) with
  | Some b => VFloat (21000 * Z.of_nat (length (filter (λ t, is_evm_tx t = true) (blk_transactions b)))) BLOCK_GAS_LIMIT
  | None => VFloat 0 1
  end.
Definition is_number (v : Value) : bool := match v with VNum _ | VFloat _ _ => true | _ => false end.
Definition eth_fee_history params n : DispatchResult :=
  let bc := rn_bc n in
  let block_count := Z.min (default 1 (get_nth 0 params ≫= parse_hex_u64)) 1024 in
  let latest := bc_height bc in
  let newest := default latest (get_nth 1 params ≫= λ v,
    match resolve_block_tag (Some v) latest with inl h => Some h | inr _ => None end) in
  let percentiles := match get_nth 2 params with Some (VArr l) => List.filter is_number l | _ => [] end in
  let base := VStr (to_hex INITIAL_BASE_FEE) in
  let oldest := saturating_sub newest (saturating_sub block_count 1) in
  let heights := seqZ oldest (newest - oldest + 1) in
  inl (VObj [("oldestBlock", VStr (to_hex oldest));
    ("baseFeePerGas", VArr (replicate (Z.to_nat (block_count + 1)) base));
    ("gasUsedRatio", VArr (block_gas_used_ratio bc <$> heights));
    ("reward", VArr ((λ _, VArr ((λ _, base) <$> percentiles)) <$> heights))]).

(** ** Accounts *)

Definition with_address params (f : string → DispatchResult) : DispatchResult :=
  match normalize_rpc_address (str_param 0 params "") with inl a => f a | inr e => invalid e end.
Definition with_latest (tag : option Value) n (r : DispatchResult) : DispatchResult :=
  match require_latest_state_read value_text tag (bc_height (rn_bc n)) with inl _ => r | inr e => inr e end.
Definition eth_get_balance params n : DispatchResult :=
  with_address params (λ address, with_latest (get_nth 1 params) n
    (inl (VStr (to_hex_u128 (get_balance (bc_accounts (rn_bc n)) address * WEI_PER_SENTRI))))).
Definition eth_get_transaction_count params n : DispatchResult :=
  with_address params (λ address,
    let block_tag := default "latest" (get_nth 1 params ≫= as_str) in
    let nonce := get_nonce (bc_accounts (rn_bc n)) address in
    inl (VStr (to_hex (if bool_decide (block_tag = "pending")
      then saturating_add U64_MAX nonce (mempool_pending_count (rn_bc n) address) else nonce)))).
Definition eth_get_code params n : DispatchResult :=
  with_address params (λ address, with_latest (get_nth 1 params) n
    (inl (VStr (match accounts (bc_accounts (rn_bc n)) !! address with
      | Some account =>
          if is_contract account then
            match get_contract_code (bc_accounts (rn_bc n)) (hex_encode (acct_code_hash account)) with
            | Some code => "0x" +:+ hex_encode code
            | None => "0x"
            end
          else "0x"
      | None => "0x"
      end)))).
Definition eth_get_storage_at params n : DispatchResult :=
  with_address params (λ address,
    let slot_hex := trim_0x (str_param 1 params "0x0") in
    if bool_decide (slot_hex = "") || (64 <? String.length slot_hex)%nat || negb (all_hexdigits slot_hex)
    then invalid "invalid storage slot (must be hex, ≤ 32 bytes)"
    else with_latest (get_nth 2 params) n
      (inl (VStr (match get_contract_storage (bc_accounts (rn_bc n)) address slot_hex with
        | Some value => "0x" +:+ hex_encode value
        | None => ZERO_HASH_HEX
        end)))).

(** ** Dispatch *)

Definition eth_dispatch (method : string) params n : RpcNode * DispatchResult :=
  let reply r := (n, r) in
  let called m := bool_decide (method = m) in
  if called "eth_chainId" then reply (inl (VStr (to_hex (bc_chain_id (rn_bc n)))))
  else if called "eth_blockNumber" then reply (inl (VStr (to_hex (bc_height (rn_bc n)))))
  else if called "eth_gasPrice" then reply (inl (VStr (to_hex 1000000000)))
  else if called "eth_estimateGas" then reply (eth_estimate_gas params n)
  else if called "eth_getBalance" then reply (eth_get_balance params n)
  else if called "eth_getTransactionCount" then reply (eth_get_transaction_count params n)
  else if called "eth_getBlockByNumber" then reply (eth_get_block_by_number params n)
  else if called "eth_getBlockByHash" then reply (eth_get_block_by_hash params n)
  else if called "eth_getTransactionByHash" then reply (eth_get_transaction_by_hash params n)
  else if called "eth_getTransactionReceipt" then reply (eth_get_transaction_receipt params n)
  else if called "eth_getBlockReceipts" then reply (eth_get_block_receipts params n)
  else if called "eth_sendRawTransaction" then eth_send_raw_transaction params n
  else if called "eth_call" then reply (eth_call params n)
  else if called "eth_getLogs" then reply (eth_get_logs params n)
  else if called "eth_feeHistory" then reply (eth_fee_history params n)
  else if called "eth_maxPriorityFeePerGas" then reply (inl (VStr (to_hex INITIAL_BASE_FEE)))
  else if called "eth_syncing" then reply (inl (VBool false))
  else if called "eth_accounts" then reply (inl (VArr []))
  else if called "eth_getCode" then reply (eth_get_code params n)
  else if called "eth_getStorageAt" then reply (eth_get_storage_at params n)
  else if called "eth_getBlockTransactionCountByNumber" then reply (eth_get_block_transaction_count_by_number params n)
  else if called "eth_subscribe" || called "eth_unsubscribe" then
    reply (inr (-32601, "subscriptions only available on the WebSocket endpoint at /ws"))
  else reply (inr (-32601, "method not found: " +:+ method)).
End eth.
