(* ===== verification/RpcSentrix.v ===== *)
(** * JSON-RPC: the native methods and the dispatcher

    Models crates/sentrix-rpc/src/jsonrpc/sentrix.rs, net.rs, web3.rs and mod.rs:
    the validator set, delegations, rewards and finality as the node reports them,
    the routing of a method by its prefix, and batches of requests. *)

From S2P Require Import Prelude Bytes Keys Account Transaction Authority Emission Staking Epoch Slashing Merkle BftMessages.
From S2P Require Import Block TrieState Chain MempoolProps Storage Executor Network Evm EvmProps EvmLogs EvmExec Rpc RpcEth.

Record JsonRpcRequest := mkRequest {
  rq_jsonrpc : string; rq_method : string; rq_params : option Value; rq_id : option Value;
}.
(** [serde_json::from_value] for a transaction and a request, [from_slice] for a
    body, the text of a hex error, and the version of the package. *)
Class Serde := {
  transaction_from_value : Value → Transaction + string;
  request_from_value : Value → option JsonRpcRequest;
  value_from_slice : bytes → option Value;
  hex_error : string → string;
  pkg_version : string;
}.
Record JsonRpcResponse := mkResponse {
  rs_result : option Value; rs_error : option (Z * string); rs_id : option Value;
}.
Definition response_ok (id : option Value) (result : Value) : JsonRpcResponse := mkResponse (Some result) None id.
Definition response_err (id : option Value) (code : Z) (message : string) : JsonRpcResponse :=
  mkResponse None (Some (code, message)) id.

Section sentrix.
Context `{ChainTypes, Json, Sha256, TxCrypto, Hex, HashOrder, JsonSlice, PartitionPoint, Revm, HexDecode, Alloy, Serde}.
Context (fk : Forks) (serialized_size : Transaction → option Z) (now : Z).
Implicit Types (bc : Blockchain) (n : RpcNode) (params : Value).

Definition wei_hex (sentri : Z) : Value := VStr (to_hex_u128 (saturating_mul U128_MAX sentri WEI_PER_SENTRI)).

Definition sentrix_send_transaction params n : RpcNode * DispatchResult :=
  match transaction_from_value (nth_param 0 params) with
  | inr e => (n, invalid ("invalid transaction object: " +:+ e))
  | inl tx => submit serialized_size now tx (VObj [("txid", VStr (txid tx)); ("status", VStr "pending_in_mempool")]) n
  end.
Definition sentrix_get_balance params n : DispatchResult :=
  with_address params (λ address,
    inl (VStr (to_hex_u128 (get_balance (bc_accounts (rn_bc n)) address * WEI_PER_SENTRI)))).

(** ** Validators *)

Definition validator_name bc (address : string) : Value :=
  VStr (match auth_validators (bc_authority bc) !! address with Some a => av_name a | None => "" end).
Definition validator_status (active : gset string) (v : ValidatorStake) : string :=
  if v_is_tombstoned v then "tombstoned" else if v_is_jailed v then "jailed"
  else if bool_decide (v_address v ∈ active) then "active" else "unbonding".
Definition dpos_row bc (epoch_span total_active_stake : Z) (v : ValidatorStake) : Value :=
  let signed := v_blocks_signed v in
  let attempted := saturating_add U64_MAX signed (v_blocks_missed v) in
  VObj [("address", VStr (v_address v)); ("name", validator_name bc (v_address v)); ("stake", wei_hex (v_total_stake v));
    ("commission", VFloat (v_commission_rate v) 10000);
    ("status", VStr (validator_status (list_to_set (active_set (bc_stake_registry bc))) v));
    ("blocks_produced_epoch", VNum (Z.min signed epoch_span));
    ("uptime", if attempted =? 0 then VFloat 1 1 else VFloat signed attempted);
    ("voting_power", if total_active_stake =? 0 then VStr (to_hex_u128 0) else wei_hex (v_total_stake v))].
Definition poa_row (epoch_span flat_weight : Z) (v : AuthValidator) : Value :=
  VObj [("address", VStr (av_address v)); ("name", VStr (av_name v)); ("stake", VStr "0x0"); ("commission", VFloat 0 1);
    ("status", VStr (if av_is_active v then "active" else "unbonding"));
    ("blocks_produced_epoch", VNum (Z.min (av_blocks_produced v) epoch_span)); ("uptime", VFloat 1 1);
    ("voting_power", VStr (to_hex_u128 (if av_is_active v then flat_weight else 0)))].
Definition sentrix_get_validator_set n : DispatchResult :=
  let bc := rn_bc n in
  let r := bc_stake_registry bc in
  let epoch := current_epoch (bc_epoch_manager bc) in
  let epoch_span := Z.max (saturating_sub (end_height epoch) (start_height epoch)) 1 in
  let next_height := match latest_block bc with Ok b => wrapping_add U64_MAX (blk_index b) 1 | Err _ => 1 end in
  if voyager_mode_for fk bc next_height && negb (bool_decide (validators r = ∅)) then
    let total_active_stake := wrap U128_MAX (sum_of v_total_stake (omap (get_validator r) (active_set r))) in
    inl (VObj [("consensus", VStr "DPoS"); ("active_count", VNum (active_count r));
      ("total_count", VNum (Z.of_nat (size (validators r)))); ("total_active_stake", VStr (to_hex_u128 total_active_stake));
      ("epoch_number", VNum (epoch_number epoch));
      ("validators", VArr (dpos_row bc epoch_span total_active_stake <$> hm_values (validators r)))])
  else
    let count := Z.of_nat (length (filter (λ v, av_is_active v = true) (hm_values (auth_validators (bc_authority bc))))) in
    let flat_weight := if 0 <? count then 1000000000 / count else 0 in
    inl (VObj [("consensus", VStr (if bc_voyager_activated bc then "DPoS+BFT" else "PoA")); ("active_count", VNum count);
      ("total_count", VNum (Z.of_nat (size (auth_validators (bc_authority bc))))); ("total_active_stake", VStr "0x0");
      ("epoch_number", VNum (epoch_number epoch));
      ("validators", VArr (poa_row epoch_span flat_weight <$> hm_values (auth_validators (bc_authority bc))))]).

(** ** Delegations and rewards *)

Definition RPC_EPOCH_LENGTH : Z := 28800.
Definition epoch_of (h : Z) : Value := VNum (h / RPC_EPOCH_LENGTH).
(** A share of the pot of the validator, by weight. *)
Definition reward_share (d : DelegationEntry) (v : ValidatorStake) : Z :=
  saturating_mul U128_MAX (de_amount d) (v_pending_rewards v) / v_total_delegated v.
Definition delegation_row bc (d : DelegationEntry) : Value :=
  VObj [("validator", VStr (de_validator d)); ("validator_name", validator_name bc (de_validator d)); ("amount", wei_hex (de_amount d));
    ("pending_reward", match get_validator (bc_stake_registry bc) (de_validator d) with
      | Some v => if 0 <? v_total_delegated v then wei_hex (reward_share d v) else VStr (to_hex_u128 0)
      | None => VStr (to_hex_u128 0)
      end);
    ("delegated_at_epoch", epoch_of (de_height d)); ("status", VStr "active"); ("unbonding_complete_epoch", VNull)].
Definition unbonding_row bc (u : UnbondingEntry) : Value :=
  VObj [("validator", VStr (ue_validator u)); ("validator_name", validator_name bc (ue_validator u)); ("amount", wei_hex (ue_amount u));
    ("pending_reward", VStr "0x0"); ("delegated_at_epoch", VNull); ("status", VStr "unbonding");
    ("unbonding_complete_epoch", epoch_of (ue_completion_height u))].
Definition sentrix_get_delegations params n : DispatchResult :=
  match as_str (nth_param 0 params) with
  | None => invalid "address required"
  | Some a =>
      let address := to_lowercase a in
      let bc := rn_bc n in
      inl (VObj [("delegator", VStr address);
        ("delegations", VArr ((delegation_row bc <$> get_delegations (bc_stake_registry bc) address)
           ++ (unbonding_row bc <$> get_pending_unbonding (bc_stake_registry bc) address)))])
  end.

(** The running total and the rows. *)
Definition reward_step bc (cur from_epoch to_epoch : Z) (acc : Z * list Value) (d : DelegationEntry) : Z * list Value :=
  match get_validator (bc_stake_registry bc) (de_validator d) with
  | None => acc
  | Some v =>
      if v_total_delegated v =? 0 then acc
      else
        let share := reward_share d v in
        (saturating_add U128_MAX acc.1 share,
         if (from_epoch <=? cur) && (cur <=? to_epoch) && (0 <? share)
         then acc.2 ++ [VObj [("epoch", VNum cur); ("validator", VStr (de_validator d)); ("reward", wei_hex share); ("claimed", VBool false)]]
         else acc.2)
  end.
Definition sentrix_get_staking_rewards params n : DispatchResult :=
  match as_str (nth_param 0 params) with
  | None => invalid "address required"
  | Some a =>
      let bc := rn_bc n in
      let cur := epoch_number (current_epoch (bc_epoch_manager bc)) in
      let default_from := saturating_sub cur 29 in
      let '(from_epoch, to_epoch) := match get_nth 1 params with
        | Some (VObj _ as opts) => (default default_from (get_field "from_epoch" opts ≫= as_u64), default cur (get_field "to_epoch" opts ≫= as_u64))
        | _ => (default_from, cur)
        end in
      let '(total, rows) := foldl (reward_step bc cur from_epoch to_epoch) (0, []) (get_delegations (bc_stake_registry bc) (to_lowercase a)) in
      inl (VObj [("total_lifetime", wei_hex total); ("pending_claimable", wei_hex total);
        ("from_epoch", VNum from_epoch); ("to_epoch", VNum to_epoch); ("by_epoch", VArr rows)])
  end.

(** ** Finality *)

(** The last block of the window with a justification, or the tip. *)
Definition finalized bc (latest : Block) : Z * string :=
  match List.find (λ b, bool_decide (is_Some (blk_justification b))) (rev (bc_chain bc)) with
  | Some b => (blk_index b, blk_hash b)
  | None => (blk_index latest, blk_hash latest)
  end.
Definition sentrix_get_bft_status n : DispatchResult :=
  let bc := rn_bc n in
  match latest_block bc with
  | Err _ => inr (-32603, "chain empty")
  | Ok latest =>
      let next_height := saturating_add U64_MAX (blk_index latest) 1 in
      if bc_voyager_activated bc then
        let '(height, hash) := finalized bc latest in
        inl (VObj [("consensus", VStr "BFT"); ("current_round", VNull); ("current_view", VNull);
          ("current_leader", VStr (default "" (weighted_proposer (bc_stake_registry bc) next_height 0))); ("phase", VNull);
          ("rounds_since_last_block", VNum (blk_round latest)); ("last_finalized_height", VNum height); ("last_finalized_hash", VStr hash)])
      else
        inl (VObj [("consensus", VStr "PoA");
          ("current_leader", VStr (match expected_validator (bc_authority bc) next_height with Ok v => av_address v | Err _ => "" end));
          ("last_finalized_height", VNum (blk_index latest)); ("last_finalized_hash", VStr (blk_hash latest))])
  end.
Definition sentrix_get_finalized_height n : DispatchResult :=
  let bc := rn_bc n in
  match latest_block bc with
  | Err _ => inr (-32603, "chain empty")
  | Ok latest =>
      let '(height, hash) := if voyager_mode_for fk bc (saturating_add U64_MAX (blk_index latest) 1)
        then finalized bc latest else (blk_index latest, blk_hash latest) in
      inl (VObj [("finalized_height", VNum height); ("finalized_hash", VStr hash); ("latest_height", VNum (blk_index latest));
        ("blocks_behind_finality", VNum (saturating_sub (blk_index latest) height))])
  end.

Definition not_found (method : string) : DispatchResult := inr (-32601, "method not found: " +:+ method).
Definition sentrix_dispatch (method : string) params n : RpcNode * DispatchResult :=
  let called m := bool_decide (method = m) in
  if called "sentrix_sendTransaction" then sentrix_send_transaction params n
  else (n,
    if called "sentrix_getBalance" then sentrix_get_balance params n
    else if called "sentrix_getValidatorSet" then sentrix_get_validator_set n
    else if called "sentrix_getDelegations" then sentrix_get_delegations params n
    else if called "sentrix_getStakingRewards" then sentrix_get_staking_rewards params n
    else if called "sentrix_getBftStatus" then sentrix_get_bft_status n
    else if called "sentrix_getFinalizedHeight" then sentrix_get_finalized_height n
    else not_found method).

(** ** net and web3 *)

Definition net_dispatch (method : string) n : DispatchResult :=
  if bool_decide (method = "net_version") then inl (VStr (pretty (bc_chain_id (rn_bc n))))
  else if bool_decide (method = "net_listening") then inl (VBool true)
  else if bool_decide (method = "net_peerCount") then
    inl (VStr (to_hex (saturating_sub (Z.of_nat (auth_active_count (bc_authority (rn_bc n)))) 1)))
  else not_found method.
Definition web3_dispatch (method : string) params : DispatchResult :=
  if bool_decide (method = "web3_clientVersion") then inl (VStr ("Sentrix/" +:+ pkg_version +:+ "/Rust"))
  else if bool_decide (method = "web3_sha3") then
    match get_nth 0 params ≫= as_str with
    | None => invalid "web3_sha3: expected hex string param"
    | Some input =>
        let hex := default input (strip_prefix "0x" input) in
        match TrieState.hex_decode hex with
        | Some b => inl (VStr ("0x" +:+ hex_encode (keccak256 b)))
        | None => invalid ("web3_sha3: invalid hex: " +:+ hex_error hex)
        end
    end
  else not_found method.

(** ** Requests *)

Definition dispatch_request n (req : JsonRpcRequest) : RpcNode * JsonRpcResponse :=
  let id := rq_id req in
  let params := default (VArr []) (rq_params req) in
  let method := rq_method req in
  let '(n, result) :=
    if String.prefix "eth_" method then eth_dispatch serialized_size now method params n
    else if String.prefix "net_" method then (n, net_dispatch method n)
    else if String.prefix "web3_" method then (n, web3_dispatch method params)
    else if String.prefix "sentrix_" method then sentrix_dispatch method params n
    else (n, not_found method) in
  (n, match result with inl v => response_ok id v | inr (code, msg) => response_err id code msg end).

Definition MAX_BATCH_SIZE : nat := 100.
Inductive RpcReply := One (r : JsonRpcResponse) | Many (rs : list JsonRpcResponse).
Fixpoint run_batch n (reqs : list JsonRpcRequest) : RpcNode * list JsonRpcResponse :=
  match reqs with
  | [] => (n, [])
  | req :: reqs =>
      let '(n, resp) := dispatch_request n req in
      let '(n, resps) := run_batch n reqs in
      (n, resp :: resps)
  end.
Definition rpc_dispatcher (body : bytes) n : RpcNode * RpcReply :=
  match value_from_slice body with
  | None => (n, One (response_err None (-32700) "Parse error"))
  | Some (VArr arr) =>
      if (MAX_BATCH_SIZE <? length arr)%nat then
        (n, One (response_err None (-32600) ("batch too large: max " +:+ pretty (Z.of_nat MAX_BATCH_SIZE)
           +:+ " requests, got " +:+ pretty (Z.of_nat (length arr)))))
      else match mapM request_from_value arr with
           | None => (n, One (response_err None (-32600) "Invalid Request"))
           | Some reqs => let '(n, resps) := run_batch n reqs in (n, Many resps)
           end
  | Some v =>
      match request_from_value v with
      | None => (n, One (response_err None (-32600) "Invalid Request"))
      | Some req => let '(n, resp) := dispatch_request n req in (n, One resp)
      end
  end.
End sentrix.
