(* ===== verification/RpcProps.v ===== *)
(** * JSON-RPC: what the methods guarantee

    Requests change only the mempool and keep its invariant; a batch is answered
    one by one; reads of accounts answer for the tip only; receipts by transaction
    and by block agree; a signed envelope becomes the transaction it stands for.
    Then the places where the answers or the checks fall short. *)

From S2P Require Import Prelude Bytes Keys Account Transaction TransactionProps Authority Emission Staking Epoch.
From S2P Require Import Slashing Merkle BftMessages Block TrieState Chain MempoolProps Storage Queries Executor.
From S2P Require Import Network Evm EvmProps EvmLogs EvmExec Rpc RpcEth RpcSentrix.

(** Decimal digits are read back. *)
Lemma pretty_char_value (d : N) :
  (d < 10)%N → Z.of_N (Ascii.N_of_ascii (pretty_N_char d)) - 48 = Z.of_N d.
Proof. intros Hd. destruct d as [|p]; [done|]. do 4 (destruct p as [p|p|]; try done); lia. Qed.
Lemma parse_pretty_go x s :
  Z.of_N x <= U64_MAX → parse_digits (pretty_N_go x s) 0 = parse_digits s (Z.of_N x).
Proof.
  revert s. induction (N.lt_wf_0 x) as [x _ IH]; intros s Hx.
  destruct (decide (x = 0%N)) as [->|Hn]; [by rewrite pretty_N_go_0|].
  assert (Hlt : (x `div` 10 < x)%N) by (apply N.div_lt; lia). rewrite pretty_N_go_step, IH by lia. cbn [parse_digits].
  assert (Hm : (x `mod` 10 < 10)%N) by (apply N.mod_lt; lia). rewrite pretty_char_value by done.
  assert (E : Z.of_N (x `div` 10) * 10 + Z.of_N (x `mod` 10) = Z.of_N x) by (pose proof (N.div_mod x 10); lia).
  rewrite E, (proj2 (Z.leb_le 0 _) (N2Z.is_nonneg _)), (proj2 (Z.leb_le _ 9)), (proj2 (Z.leb_le _ U64_MAX)); [done|done|].
  apply N2Z.inj_lt in Hm. revert Hm. generalize (Z.of_N (x `mod` 10)). lia.
Qed.
Lemma parse_u64_pretty z : in_u64 z → parse_u64 (pretty z) = Some z.
Proof.
  intros Hz. assert (E : parse_digits (pretty z) 0 = Some z).
  { destruct z as [|p|p]; [done| |ulia]. unfold pretty, pretty_Z, pretty, pretty_positive, pretty, pretty_N.
    rewrite decide_False by done. by rewrite parse_pretty_go by ulia. }
  unfold parse_u64. destruct (pretty z) as [|a r] eqn:Ep; [destruct z; done|].
  destruct (Ascii.N_of_ascii a =? 43)%N eqn:Ea; [|done]. exfalso.
  pose proof (pretty_decimal z) as Hd. rewrite Ep in Hd. simpl in Hd. apply Forall_cons in Hd as [Hd _].
  apply N.eqb_eq in Ea. unfold decimal_byte in Hd. lia.
Qed.
Lemma pretty_no_colon (z : Z) : no_colon (pretty z).
Proof.
  unfold no_colon. pose proof (pretty_decimal z) as Hd. induction (pretty z) as [|a s IH]; [by apply not_elem_of_nil|].
  simpl in Hd |- *. apply Forall_cons in Hd as [Hd Hs]. rewrite not_elem_of_cons. split; [|by apply IH].
  intros <-. unfold decimal_byte in Hd. simpl in Hd. lia.
Qed.

Section rpc.
Context `{ChainTypes, Json, Sha256, TxCrypto, Hex, HashOrder, JsonSlice, PartitionPoint, Revm, HexDecode, Alloy, Serde}.
Context (fk : Forks) (serialized_size : Transaction → option Z) (now : Z).
Implicit Types (bc : Blockchain) (n : RpcNode) (params : Value) (block : Block) (tx : Transaction).

(** ** Requests change the mempool only *)

(** [n'] differs from [n] in the mempool, which has lost nothing. *)
Definition pool_grew n n' : Prop :=
  ∃ pool ids counts,
    n' = n <| rn_bc := rn_bc n <| bc_mempool := pool |> <| bc_mempool_txids := ids |> <| bc_mempool_sender_count := counts |> |>
    ∧ bc_mempool (rn_bc n) ⊆+ pool ∧ (mempool_inv (rn_bc n) → mempool_inv (rn_bc n')).
Lemma pool_grew_refl n : pool_grew n n.
Proof. exists (bc_mempool (rn_bc n)), (bc_mempool_txids (rn_bc n)), (bc_mempool_sender_count (rn_bc n)). by destruct n as [[]]. Qed.
Lemma pool_grew_trans n1 n2 n3 : pool_grew n1 n2 → pool_grew n2 n3 → pool_grew n1 n3.
Proof.
  intros (p & i & c & -> & Hs & Hi) (p' & i' & c' & -> & Hs' & Hi'). exists p', i', c'.
  split; [done|]. split; [by etrans|]. auto.
Qed.
Lemma submit_grew tx answer n : pool_grew n (submit serialized_size now tx answer n).1.
Proof.
  unfold submit. destruct (add_to_mempool serialized_size now tx (rn_bc n)) as [bc r] eqn:E. cbn [fst].
  assert (Hinv : mempool_inv (rn_bc n) → mempool_inv bc).
  { intros Hi. pose proof (add_to_mempool_inv serialized_size now tx (rn_bc n) Hi) as Hi'. by rewrite E in Hi'. }
  destruct r as [[]|e].
  - apply add_to_mempool_ok in E as (_ & _ & _ & _ & _ & ->). eexists _, _, _. split; [reflexivity|].
    split; [|exact Hinv]. cbn. rewrite insert_at_perm. by apply submseteq_cons.
  - apply add_to_mempool_err in E as ->. destruct n. apply pool_grew_refl.
Qed.
Lemma eth_dispatch_grew m params n : pool_grew n (eth_dispatch serialized_size now m params n).1.
Proof.
  unfold eth_dispatch. repeat (case_bool_decide; [try apply pool_grew_refl|]); [|apply pool_grew_refl].
  unfold eth_send_raw_transaction. destruct (negb _); [apply pool_grew_refl|].
  destruct (raw_transaction _ _); [apply submit_grew|apply pool_grew_refl].
Qed.
Lemma dispatch_request_grew n req : pool_grew n (dispatch_request fk serialized_size now n req).1.
Proof.
  unfold dispatch_request. pose proof (eth_dispatch_grew (rq_method req) (default (VArr []) (rq_params req)) n).
  destruct (String.prefix "eth_" _); [by destruct (eth_dispatch _ _ _ _ _)|].
  destruct (String.prefix "net_" _); [apply pool_grew_refl|]. destruct (String.prefix "web3_" _); [apply pool_grew_refl|].
  destruct (String.prefix "sentrix_" _); [|apply pool_grew_refl].
  unfold sentrix_dispatch. case_bool_decide; [|apply pool_grew_refl].
  unfold sentrix_send_transaction. destruct (transaction_from_value _) as [tx|e]; [|apply pool_grew_refl].
  pose proof (submit_grew tx (VObj [("txid", VStr (txid tx)); ("status", VStr "pending_in_mempool")]) n).
  by destruct (submit _ _ _ _ _).
Qed.
Lemma run_batch_spec reqs n :
  pool_grew n (run_batch fk serialized_size now n reqs).1 ∧
  rs_id <$> (run_batch fk serialized_size now n reqs).2 = rq_id <$> reqs.
Proof.
  revert n. induction reqs as [|req reqs IH]; intros n; [split; [apply pool_grew_refl|done]|]. simpl.
  pose proof (dispatch_request_grew n req) as Hg.
  assert (Hid : rs_id (dispatch_request fk serialized_size now n req).2 = rq_id req).
  { unfold dispatch_request. repeat case_match; done. }
  destruct (dispatch_request fk serialized_size now n req) as [n1 resp]. cbn in Hg, Hid.
  destruct (IH n1) as [Hg' Hids]. destruct (run_batch fk serialized_size now n1 reqs) as [n2 resps]. cbn in *.
  split; [by eapply pool_grew_trans|]. by rewrite Hid, Hids.
Qed.

(** Whatever the body of a request, the node differs afterwards in its mempool only:
    nothing pending is lost, and the invariant of the mempool is kept.  A batch is
    answered request by request, in order, and one of more than 100 is refused as a
    whole. *)
Theorem rpc_only_mempool body n :
  pool_grew n (rpc_dispatcher fk serialized_size now body n).1 ∧
  match value_from_slice body with
  | Some (VArr arr) =>
      ((100 < length arr)%nat → (rpc_dispatcher fk serialized_size now body n).1 = n) ∧
      ∀ reqs, (length arr <= 100)%nat → mapM request_from_value arr = Some reqs →
        ∃ resps, (rpc_dispatcher fk serialized_size now body n).2 = Many resps ∧ rs_id <$> resps = rq_id <$> reqs
  | _ => True
  end.
Proof.
  unfold rpc_dispatcher. destruct (value_from_slice body) as [v|]; [|split; [apply pool_grew_refl|done]].
  assert (Hone : ∀ v, pool_grew n (match request_from_value v with
      | None => (n, One (response_err None (-32600) "Invalid Request"))
      | Some req => let '(n, resp) := dispatch_request fk serialized_size now n req in (n, One resp) end).1).
  { intros v'. destruct (request_from_value v') as [req|]; [|apply pool_grew_refl].
    pose proof (dispatch_request_grew n req). by destruct (dispatch_request _ _ _ _ _). }
  destruct v; try (split; [apply Hone|done]).
  change MAX_BATCH_SIZE with 100%nat. destruct (Nat.ltb_spec 100 (length l)) as [Hlt|Hle].
  - split; [apply pool_grew_refl|]. split; [done|lia].
  - destruct (mapM request_from_value l) as [reqs|]; [|split; [apply pool_grew_refl|split; [lia|done]]].
    pose proof (run_batch_spec reqs n) as [Hg Hids]. destruct (run_batch fk serialized_size now n reqs) as [n' resps].
    split; [exact Hg|]. split; [lia|]. intros reqs' _ [= <-]. by exists resps.
Qed.

(** ** Reads answer for the tip *)

(** A read of the accounts is answered only for a block parameter that names the
    tip, or for none. *)
Lemma latest_read_sound tag latest :
  require_latest_state_read value_text tag latest = inl tt →
  tag = None ∨ tag = Some VNull ∨ tag = Some (VStr "") ∨ resolve_block_tag tag latest = inl latest.
Proof.
  destruct tag as [v|]; [|by left]. intros E. right.
  destruct v as [| |k|k d|s| |]; cbn [require_latest_state_read resolve_block_tag as_u64] in E |- *; try done; [by left|..].
  - right. right. destruct ((0 <=? k) && (k <=? U64_MAX)); [|done]. destruct (Z.eqb_spec k latest); [by subst|done].
  - case_bool_decide as Hs.
    + rewrite !elem_of_cons in Hs.
      destruct Hs as [->|[->|[->|[->|[->|[]%elem_of_nil]]]]]; [by right; left|by do 2 right..].
    + do 2 right. rewrite not_elem_of_cons in Hs. destruct Hs as [_ Hs]. rewrite bool_decide_eq_false_2 by done.
      case_bool_decide; [destruct (Z.eqb_spec latest 0); [by subst|done]|].
      destruct (strip_prefix "0x" s); [|done]. destruct (from_str_radix16 _) as [h|]; [|done].
      destruct (Z.eqb_spec h latest); [by subst|done].
Qed.
Theorem account_reads_are_latest params n v :
  (eth_get_balance params n = inl v ∨ eth_get_code params n = inl v →
   get_nth 1 params = None ∨ get_nth 1 params = Some VNull ∨ get_nth 1 params = Some (VStr "")
   ∨ resolve_block_tag (get_nth 1 params) (bc_height (rn_bc n)) = inl (bc_height (rn_bc n))) ∧
  (eth_get_storage_at params n = inl v →
   get_nth 2 params = None ∨ get_nth 2 params = Some VNull ∨ get_nth 2 params = Some (VStr "")
   ∨ resolve_block_tag (get_nth 2 params) (bc_height (rn_bc n)) = inl (bc_height (rn_bc n))).
Proof.
  assert (Hw : ∀ tag r, with_latest tag n r = inl v → require_latest_state_read value_text tag (bc_height (rn_bc n)) = inl tt).
  { intros tag r. unfold with_latest. by destruct (require_latest_state_read _ _ _) as [[]|]. }
  split; [intros [E|E]|intros E]; apply latest_read_sound; revert E.
  - unfold eth_get_balance, with_address. destruct (normalize_rpc_address _); [apply Hw|done].
  - unfold eth_get_code, with_address. destruct (normalize_rpc_address _); [apply Hw|done].
  - unfold eth_get_storage_at, with_address. destruct (normalize_rpc_address _); [|done].
    destruct (_ || _); [done|apply Hw].
Qed.

(** ** Receipts *)

Lemma block_receipts_lookup n block txs i c k tx :
  txs !! k = Some tx →
  block_receipts n block i c txs !! k =
    Some (receipt_json n (txid tx) (to_hex (i + Z.of_nat k)) ("0x" +:+ blk_hash block) (blk_index block) (VStr (tx_from tx)) (VStr (tx_to tx))
      (is_evm_tx tx) (foldl (λ sum t, saturating_add U64_MAX sum (gas_used_of n (txid t))) c (take (S k) txs))).
Proof.
  revert i c k. induction txs as [|t txs IH]; intros i c k Hk; [done|]. destruct k as [|k]; simpl in Hk.
  - injection Hk as ->. cbn [block_receipts lookup list_lookup take foldl]. by rewrite Z.add_0_r.
  - cbn [block_receipts lookup list_lookup]. rewrite (IH _ _ _ Hk). cbn [take foldl].
    by replace (i + 1 + Z.of_nat k) with (i + Z.of_nat (S k)) by lia.
Qed.
Lemma position_of_lookup (txs : list Transaction) k tx :
  NoDup (txid <$> txs) → txs !! k = Some tx → position_of (txid tx) txs = Some k.
Proof.
  intros Hd Hk. unfold position_of.
  assert (E : list_find (λ t, txid t = txid tx) txs = Some (k, tx)); [|by rewrite E].
  apply list_find_Some. split; [done|]. split; [done|]. intros j t Hj Hlt Ht.
  assert (j = k); [|lia]. apply (proj1 (NoDup_alt _) Hd j k (txid tx)).
  - rewrite list_lookup_fmap, Hj. simpl. by rewrite Ht.
  - by rewrite list_lookup_fmap, Hk.
Qed.

(** An address that both renderings print alike. *)
Definition plain_from (a : string) : Prop := a ≠ "" ∧ a ≠ "COINBASE" ∧ String.prefix "0x" a = true.
Definition plain_to (a : string) : Prop := zero_to a = false ∧ String.prefix "0x" a = true.

(** The receipt of a transaction is the entry at its place in the receipts of its
    block: index, block, status, gas, running total, logs and bloom filter. *)
Theorem receipts_agree params block tx k n :
  receipts_block params n = inl (Some block) → block_any n (blk_index block) = Some block →
  find_transaction n (txid tx) = Some (tx_info block tx) →
  blk_transactions block !! k = Some tx → NoDup (txid <$> blk_transactions block) →
  normalize_rpc_hash (txid tx) = inl (txid tx) → String.prefix "0x" (blk_hash block) = false →
  plain_from (tx_from tx) → plain_to (tx_to tx) →
  ∃ rs r, eth_get_block_receipts params n = inl (VArr rs) ∧ rs !! k = Some r ∧
    eth_get_transaction_receipt (VArr [VStr (txid tx)]) n = inl r.
Proof.
  intros Hp Hb Hf Hk Hd Hid Hh (Hf1 & Hf2 & Hf3) (Ht1 & Ht2). unfold eth_get_block_receipts. rewrite Hp.
  eexists _, _. split; [reflexivity|]. split; [by apply block_receipts_lookup|].
  unfold eth_get_transaction_receipt. change (str_param 0 (VArr [VStr (txid tx)]) "") with (txid tx).
  rewrite Hid, Hf. cbn [tx_info ti_block_index ti_transaction ti_block_hash]. rewrite Hb.
  rewrite (position_of_lookup _ k tx) by done. unfold with_0x, receipt_from. rewrite Hh, Ht1.
  rewrite !bool_decide_eq_false_2 by done. unfold with_0x. rewrite Hf3, Ht2, Z.add_0_l. done.
Qed.

(** ** Signed envelopes *)

(** The value that the executor reads is the one of the envelope. *)
Class AlloyLaws : Prop := {
  envelope_value_decode raw env : decode_2718 raw = inl env → envelope_value raw = Some (en_value env);
}.
Context `{!HexLaws, !HexDecodeLaws, !AlloyLaws}.

(** What [eth_sendRawTransaction] submits: the signer of the envelope as sender, its
    nonce and chain, its value in sentri, and its bytes as signature. *)
Lemma raw_transaction_ok params tx :
  raw_transaction now params = inl tx →
  ∃ raw env sender, TrieState.hex_decode (trim_0x (str_param 0 params "")) = Some raw ∧
    decode_2718 raw = inl env ∧ recover_signer env = inl sender ∧ en_value env <= U128_MAX ∧ en_value env mod WEI_PER_SENTRI = 0 ∧
    tx = envelope_tx now raw env sender (wrap U64_MAX (en_value env / WEI_PER_SENTRI)).
Proof.
  unfold raw_transaction. destruct (TrieState.hex_decode _) as [raw|] eqn:Er; [|done].
  destruct (decode_2718 raw) as [env|e] eqn:Ee; [|done]. destruct (recover_signer env) as [sender|e] eqn:Es; [|done].
  destruct (Z.ltb_spec U128_MAX (en_value env)); [done|].
  destruct (Z.eqb_spec (en_value env mod WEI_PER_SENTRI) 0); [|done]. intros [= <-]. by exists raw, env, sender.
Qed.
Lemma amount_exact v :
  0 <= v → v mod WEI_PER_SENTRI = 0 → v / WEI_PER_SENTRI <= U64_MAX →
  wrap U64_MAX (v / WEI_PER_SENTRI) * WEI_PER_SENTRI = v.
Proof.
  intros Hv Hm Hb. unfold WEI_PER_SENTRI in *. assert (0 <= v / 10000000000) by (apply Z.div_pos; lia).
  rewrite wrap_small by ulia. rewrite (Z.div_mod v 10000000000) at 2; lia.
Qed.


Lemma gas_and_input_evm (g : Z) input :
  gas_and_input ("EVM:" +:+ pretty g +:+ ":" +:+ input) = (to_hex (default 21000 (parse_u64 (pretty g))), "0x" +:+ input).
Proof.
  unfold gas_and_input. rewrite (proj2 (strip_prefix_Some "EVM:" _ (pretty g +:+ ":" +:+ input))) by done.
  by rewrite split_colon_app by apply pretty_no_colon.
Qed.
Lemma evm_prefix rest : String.prefix "EVM:" ("EVM:" +:+ rest) = true.
Proof. simpl. by destruct rest. Qed.
Lemma json_fields n id i :
  let tx := ti_transaction i in
  let j := tx_to_evm_json n id i in
  field "value" j = VStr (to_hex_u128 (saturating_mul U128_MAX (tx_amount tx) WEI_PER_SENTRI)) ∧
  field "nonce" j = VStr (to_hex (tx_nonce tx)) ∧
  field "gas" j = VStr (gas_and_input (tx_data tx)).1 ∧ field "input" j = VStr (gas_and_input (tx_data tx)).2 ∧
  ∀ v r s, is_evm_tx tx = true → extract_vrs_from_rlp (tx_signature tx) = Some (v, r, s) →
    field "v" j = VStr v ∧ field "r" j = VStr r ∧ field "s" j = VStr s.
Proof.
  cbv zeta. unfold tx_to_evm_json. destruct (gas_and_input _) as [g d].
  destruct (is_evm_tx _); [destruct (extract_vrs_from_rlp _) as [[[v r] s]|]|]; split_and!; try reflexivity; try done.
  intros v' r' s' _ [= <- <- <-]. split_and!; reflexivity.
Qed.
(** What the executor takes from a transaction. *)
Lemma evm_tx_env_parts ecfg db tx h env :
  evm_tx_env ecfg db tx h = Some env →
  te_caller env = default ADDRESS_ZERO (parse_sentrix_address (tx_from tx)) ∧
  ∃ raw v, TrieState.hex_decode (tx_signature tx) = Some raw ∧ envelope_value raw = Some v ∧
    te_value env = if is_evm_value_transfer_height ecfg h then v else 0.
Proof.
  unfold evm_tx_env. destruct (evm_parts _) as [[[p0 gas] cd]|]; [|done]. destruct (parse_u64 gas) as [g|]; [|done].
  destruct (_ <? _); [done|]. destruct (TrieState.hex_decode (tx_signature tx)) as [raw|]; [|done]. cbn [mbind option_bind].
  destruct (envelope_value raw) as [v|] eqn:Ev; [|done]. cbv zeta. destruct (tx_env_complete _); [|done].
  intros [= <-]. split; [done|]. by exists raw, v.
Qed.

(** What a wallet signs is what the node executes and shows: for an envelope whose
    value a [u64] of sentri holds, the executor runs the recovered sender with the
    value of the envelope, which is the amount, and [eth_getTransactionByHash] prints the value,
    the nonce, the gas limit, the input and the signature of the envelope. *)
Theorem sent_envelope_shown ecfg params tx n i db h env' :
  raw_transaction now params = inl tx → (∀ raw, TrieState.hex_decode (trim_0x (str_param 0 params "")) = Some raw → byte_list raw) →
  ti_transaction i = tx →
  ∃ raw env sender, TrieState.hex_decode (trim_0x (str_param 0 params "")) = Some raw ∧ decode_2718 raw = inl env ∧
    recover_signer env = inl sender ∧ tx_from tx = address_to_sentrix sender ∧
    (0 <= en_value env → en_value env / WEI_PER_SENTRI <= U64_MAX →
     tx_amount tx * WEI_PER_SENTRI = en_value env ∧
     field "value" (tx_to_evm_json n (txid tx) i) = VStr (to_hex_u128 (en_value env)) ∧
     (evm_tx_env ecfg db tx h = Some env' → is_evm_value_transfer_height ecfg h = true →
      te_value env' = tx_amount tx * WEI_PER_SENTRI)) ∧
    field "nonce" (tx_to_evm_json n (txid tx) i) = VStr (to_hex (en_nonce env)) ∧
    (in_u64 (en_gas_limit env) → field "gas" (tx_to_evm_json n (txid tx) i) = VStr (to_hex (en_gas_limit env))) ∧
    field "input" (tx_to_evm_json n (txid tx) i) = VStr ("0x" +:+ hex_encode (en_input env)) ∧
    field "r" (tx_to_evm_json n (txid tx) i) = VStr ("0x" +:+ hex_digits 64 (en_r env) "") ∧
    field "s" (tx_to_evm_json n (txid tx) i) = VStr ("0x" +:+ hex_digits 64 (en_s env) "").
Proof.
  intros Hr Hbytes Hi. apply raw_transaction_ok in Hr as (raw & env & sender & Ed & Ee & Es & Hv & Hm & ->).
  specialize (Hbytes raw Ed). pose proof (json_fields n (txid (envelope_tx now raw env sender (wrap U64_MAX (en_value env / WEI_PER_SENTRI)))) i) as (Jv & Jn & Jg & Ji & Js).
  assert (Hx : extract_vrs_from_rlp (tx_signature (ti_transaction i)) = Some (to_hex (if en_parity env then 1 else 0),
    "0x" +:+ hex_digits 64 (en_r env) "", "0x" +:+ hex_digits 64 (en_s env) "")).
  { rewrite Hi. cbn [envelope_tx tx_signature]. unfold extract_vrs_from_rlp. by rewrite hex_roundtrip, Ee. }
  assert (Ht : is_evm_tx (ti_transaction i) = true) by (rewrite Hi; apply evm_prefix).
  destruct (Js _ _ _ Ht Hx) as (_ & Hr & Hs).
  exists raw, env, sender. split_and!; [done..| | | | | |].
  - intros Hv0 Hv64. pose proof (amount_exact _ Hv0 Hm Hv64) as Ha. split; [done|]. split.
    + rewrite Jv. unfold saturating_mul. rewrite Hi. cbn [envelope_tx tx_amount]. rewrite Ha. do 2 f_equal. lia.
    + intros He Hf. apply evm_tx_env_parts in He as (_ & raw' & v & Er & Ev & ->). rewrite Hf.
      cbn [envelope_tx tx_signature] in Er. rewrite hex_roundtrip in Er by done. injection Er as <-.
      rewrite (envelope_value_decode _ _ Ee) in Ev. injection Ev as <-. done.
  - by rewrite Jn, Hi.
  - intros Hg. rewrite Jg, Hi. cbn [envelope_tx tx_data]. by rewrite gas_and_input_evm, parse_u64_pretty.
  - rewrite Ji, Hi. cbn [envelope_tx tx_data]. by rewrite gas_and_input_evm.
  - exact Hr.
  - exact Hs.
Qed.

End rpc.

(** * JSON-RPC: where answers and checks fall short

    The amount of an envelope wraps; a transaction in another's name enters through
    the native method; storage reads need the slot in full; the reward view and the
    total stake do not match the registry; and what log queries and finality reports
    do guarantee. *)

Section hazards.
Context `{ChainTypes, Json, Sha256, TxCrypto, Hex, HashOrder, JsonSlice, PartitionPoint, Revm, HexDecode, Alloy, Serde}.
Context (fk : Forks) (serialized_size : Transaction → option Z) (now : Z).
Implicit Types (bc : Blockchain) (n : RpcNode) (params : Value) (block : Block) (tx : Transaction).

(** ** Amounts *)

(** An envelope whose value is more sentri than a [u64] holds is not refused: the
    transaction carries the remainder. *)
Theorem raw_value_wraps params raw env sender k :
  TrieState.hex_decode (trim_0x (str_param 0 params "")) = Some raw → decode_2718 raw = inl env →
  recover_signer env = inl sender → en_value env = k * WEI_PER_SENTRI → U64_MAX < k → en_value env <= U128_MAX →
  ∃ tx, raw_transaction now params = inl tx ∧ tx_amount tx = k mod 2 ^ 64.
Proof.
  intros Er Ee Es Ev Hk Hb. unfold raw_transaction. rewrite Er, Ee, Es.
  rewrite (proj2 (Z.ltb_ge _ _)) by done. rewrite Ev, Z_mod_mult. cbn [negb].
  eexists. split; [reflexivity|]. cbn [envelope_tx tx_amount]. by rewrite Z.div_mul.
Qed.

(** ** Senders *)

Lemma evm_validate_resigned tx sig m c :
  is_coinbase tx = false → is_system_tx tx = false → is_evm_tx tx = true →
  validate tx m c = Ok tt → validate (tx <| tx_signature := sig |>) m c = Ok tt.
Proof.
  intros Hc Hs He Hv. apply (validate_evm_unsigned tx m c sig (tx_public_key tx) (txid tx)); [done..|].
  apply (validate_evm_unsigned tx m c (tx_signature tx) (tx_public_key tx) (txid tx)); [done..|].
  by destruct tx.
Qed.
Lemma evm_admission_resigned tx sig bc :
  is_coinbase tx = false → is_system_tx tx = false → is_evm_tx tx = true →
  (∀ size, serialized_size (tx <| tx_signature := sig |>) = Some size → size <= MAX_TX_SIZE) →
  (add_to_mempool serialized_size now tx bc).2 = Ok tt →
  (add_to_mempool serialized_size now (tx <| tx_signature := sig |>) bc).2 = Ok tt.
Proof.
  intros Hc Hs He Hsz. set (tx' := tx <| tx_signature := sig |>).
  assert (Hv : ∀ m c, validate tx m c = Ok tt → validate tx' m c = Ok tt) by (intros; by apply evm_validate_resigned).
  unfold add_to_mempool, lift_result. unfold_st_goal.
  change (is_coinbase tx') with (is_coinbase tx). rewrite Hc.
  assert (Hz : match serialized_size tx' with Some size => MAX_TX_SIZE <? size | None => false end = false).
  { fold tx' in Hsz. destruct (serialized_size tx') as [z|]; [|done]. apply Z.ltb_ge. by apply Hsz. }
  change (tx_from tx') with (tx_from tx). change (tx_to tx') with (tx_to tx). change (tx_data tx') with (tx_data tx).
  change (is_evm_tx tx') with (is_evm_tx tx). change (tx_timestamp tx') with (tx_timestamp tx). change (txid tx') with (txid tx).
  change (tx_amount tx') with (tx_amount tx). change (tx_fee tx') with (tx_fee tx).
  destruct (serialized_size tx') as [z'|]; [rewrite Hz|]; (destruct (serialized_size tx) as [z|]; [destruct (MAX_TX_SIZE <? z); [done|]|]);
    clear Hz; specialize (Hv (wrapping_add U64_MAX (get_nonce (bc_accounts bc) (tx_from tx))
    (mempool_pending_count bc (tx_from tx))) (bc_chain_id bc));
    repeat match goal with |- context [if ?b then (bc, Err _) else _] => destruct b; [done|] end;
    (destruct (validate tx _ _) as [[]|]; [|done]); rewrite (Hv eq_refl);
    (destruct (checked_add _ _ _); [|done]); by destruct (_ <? _).
Qed.

(** C12: nobody checks who signed: any transaction with the EVM tag that the mempool takes
    it also takes with another envelope as signature, whoever signed that envelope,
    and the executor then runs the named sender with the value of that envelope. *)
Theorem evm_sender_unauthenticated ecfg params tx sig raw v n :
  transaction_from_value (nth_param 0 params) = inl (tx <| tx_signature := sig |>) →
  is_coinbase tx = false → is_system_tx tx = false → is_evm_tx tx = true →
  (∀ size, serialized_size (tx <| tx_signature := sig |>) = Some size → size <= MAX_TX_SIZE) →
  (add_to_mempool serialized_size now tx (rn_bc n)).2 = Ok tt →
  TrieState.hex_decode sig = Some raw → envelope_value raw = Some v →
  (∃ answer, (sentrix_send_transaction serialized_size now params n).2 = inl answer) ∧
  (tx <| tx_signature := sig |> ∈ bc_mempool (rn_bc (sentrix_send_transaction serialized_size now params n).1)) ∧
  ∀ db h env, evm_tx_env ecfg db (tx <| tx_signature := sig |>) h = Some env →
    te_caller env = default ADDRESS_ZERO (parse_sentrix_address (tx_from tx)) ∧
    te_value env = if is_evm_value_transfer_height ecfg h then v else 0.
Proof.
  intros Ht Hc Hs He Hsz Hok Er Ev. pose proof (evm_admission_resigned tx sig (rn_bc n) Hc Hs He Hsz Hok) as Hok'. clear Hok.
  unfold sentrix_send_transaction. rewrite Ht. unfold submit.
  destruct (add_to_mempool serialized_size now _ (rn_bc n)) as [bc [[]|e]] eqn:E; [|done]. cbn [fst snd].
  split; [eexists; reflexivity|]. split.
  - apply add_to_mempool_ok in E as (_ & _ & _ & _ & _ & ->). cbn. rewrite insert_at_perm. apply list_elem_of_here.
  - intros db h env Hx. apply evm_tx_env_parts in Hx as (Hf & raw' & v' & Er' & Ev' & Hv').
    cbn in Er', Hf. rewrite Er in Er'. injection Er' as <-. rewrite Ev in Ev'. by injection Ev' as <-.
Qed.

(** ** Storage *)

Lemma hex_digits_length fuel m s : (String.length (hex_digits fuel m s) <= fuel + String.length s)%nat.
Proof.
  revert m s. induction fuel as [|fuel IH]; intros m s; [simpl; lia|]. cbn [hex_digits].
  destruct (m <? 16); [simpl; lia|]. etrans; [apply IH|]. simpl. lia.
Qed.
(** The keys as the executor writes them: the slot in 64 digits. *)
Definition full_slots (db : AccountDB) : Prop :=
  ∀ key, is_Some (contract_storage db !! key) → ∃ a s, key = storage_key a s ∧ no_colon a ∧ String.length s = 64%nat.

(** A slot in the usual short notation reads as zero, whatever the contract holds:
    only the 64 digits of the stored key find the value. *)
Theorem short_slot_reads_zero params n address slot :
  full_slots (bc_accounts (rn_bc n)) → normalize_rpc_address (str_param 0 params "") = inl address → no_colon address →
  str_param 1 params "0x0" = to_hex slot → 0 <= slot → get_nth 2 params = None →
  eth_get_storage_at params n = inl (VStr ZERO_HASH_HEX).
Proof.
  intros Hf Ha Hc Hp Hs Hn. unfold eth_get_storage_at, with_address. rewrite Ha, Hp, Hn. unfold to_hex.
  assert (Hl : (String.length (hex_digits 16 slot "") <= 16)%nat) by (etrans; [apply hex_digits_length|simpl; lia]).
  assert (Hd : all_hexdigits (hex_digits 16 slot "") = true).
  { apply hex_digits_chars; [|done|done]. intros d Hd. apply hex_value_char, Hd. }
  destruct (hex_digits_cons 16 slot "") as (d & r & Hd16 & E); [done|done|].
  assert (Ht : trim_0x ("0x" +:+ hex_digits 16 slot "") = hex_digits 16 slot "").
  { change (trim_0x ("0x" +:+ hex_digits 16 slot "")) with (trim_0x (hex_digits 16 slot "")). rewrite E in Hd |- *.
    destruct r as [|b r]; [done|]. cbn [trim_0x]. rewrite bool_decide_eq_false_2; [done|]. intros [= _ ->].
    unfold all_hexdigits in Hd. simpl in Hd. by rewrite andb_false_r in Hd. }
  rewrite Ht, Hd, E. rewrite bool_decide_eq_false_2 by done. rewrite <-E. rewrite (proj2 (Nat.ltb_ge _ _)) by lia. cbn [orb negb].
  unfold with_latest. cbn [require_latest_state_read]. unfold get_contract_storage.
  destruct (contract_storage _ !! _) as [v|] eqn:Ev; [|done]. exfalso.
  destruct (Hf _ (mk_is_Some _ _ Ev)) as (a & s & Ek & Hca & H64). unfold storage_key in Ek.
  apply join_inj in Ek as [_ <-]; [lia|done..].
Qed.

(** ** Logs *)

Lemma resolve_block_tag_u64 v latest h : in_u64 latest → resolve_block_tag v latest = inl h → in_u64 h.
Proof.
  intros Hl. destruct v as [v|]; [|by intros [= <-]].
  assert (Hn : ∀ w k, as_u64 w = Some k → in_u64 k).
  { intros w k. unfold as_u64. destruct w; try done. destruct (Z.leb_spec 0 n); [|done]. destruct (Z.leb_spec n U64_MAX); [|done].
    intros [= <-]. ulia. }
  assert (Hp : ∀ s acc k, 0 <= acc <= U64_MAX → parse_hex_digits s acc = Some k → in_u64 k).
  { induction s as [|a s IH]; intros acc k Ha; [intros [= <-]; ulia|]. cbn [parse_hex_digits].
    destruct (hex_value a) as [d|] eqn:Ed; [|done]. destruct (Z.leb_spec (acc * 16 + d) U64_MAX); [|done].
    apply IH. assert (0 <= d) by (unfold hex_value in Ed; repeat case_match; simplify_eq; lia). lia. }
  assert (Hr : ∀ s k, from_str_radix16 s = Some k → in_u64 k).
  { intros s k. unfold from_str_radix16. destruct s as [|a s]; [done|]. destruct (_ =? _)%N; [destruct s; [done|]|]; apply Hp; ulia. }
  destruct v; cbn [resolve_block_tag]; try done.
  - destruct (as_u64 _) eqn:E; [|done]. intros [= <-]. by eapply Hn.
  - case_bool_decide; [by intros [= <-]|]. case_bool_decide; [intros [= <-]; ulia|].
    destruct (strip_prefix "0x" s); [|done]. destruct (from_str_radix16 _) eqn:E; [|done]. intros [= <-]. by eapply Hr.
Qed.

(** C26: a log query over a range of at most 10000 blocks answers with exactly the logs of
    the range that the filter matches, in the order of the chain. *)
Theorem get_logs_complete params fields from to tb d n :
  get_nth 0 params = Some (VObj fields) → rn_storage n = Some (d, tb) → tables_wf tb → in_u64 (bc_height (rn_bc n)) →
  resolve_block_tag (get_field "fromBlock" (VObj fields)) (bc_height (rn_bc n)) = inl from →
  resolve_block_tag (get_field "toBlock" (VObj fields)) (bc_height (rn_bc n)) = inl to →
  from <= to → to - from < 10000 →
  eth_get_logs params n = inl (VArr (to_rpc_json <$>
    filter (λ log, log_matches log (parse_address_filter (get_field "address" (VObj fields)))
                     (parse_topic_filter (get_field "topics" (VObj fields))) = true) (logs_in_range from to tb))).
Proof.
  intros Hp Ht Hw Hh Ef Et Hle Hr. unfold eth_get_logs. rewrite Hp, Ef, Et.
  rewrite (proj2 (Z.ltb_ge _ _)) by done. unfold saturating_sub. rewrite Z.max_r, (proj2 (Z.leb_gt _ _)) by lia.
  unfold rn_tables. rewrite Ht. change (snd <$> Some (d, tb)) with (Some tb).
  by rewrite collect_logs_complete by (done || by eapply resolve_block_tag_u64).
Qed.

(** ** Rewards and stake *)

Lemma reward_steps_zero bc cur from_epoch to_epoch ds acc :
  (∀ d v, d ∈ ds → get_validator (bc_stake_registry bc) (de_validator d) = Some v → v_pending_rewards v = 0) →
  0 <= acc.1 <= U128_MAX → foldl (reward_step bc cur from_epoch to_epoch) acc ds = acc.
Proof.
  intros Hz Ha. induction ds as [|d ds IH]; [done|]. cbn [foldl].
  assert (E : reward_step bc cur from_epoch to_epoch acc d = acc).
  { unfold reward_step. destruct (get_validator _ _) as [v|] eqn:Ev; [|done]. destruct (_ =? 0); [done|].
    assert (Er : reward_share d v = 0).
    { unfold reward_share, saturating_mul. rewrite (Hz d v) by (done || apply list_elem_of_here). by rewrite Z.mul_0_r. }
    rewrite Er, andb_false_r. unfold saturating_add. rewrite Z.add_0_r, Z.min_r by lia. by destruct acc. }
  rewrite E. apply IH. intros d' v Hd. apply Hz. by apply list_elem_of_further.
Qed.

(** The rewards reported to a delegator are shares of the validators' own pots: while
    those are empty the report is zero, whatever the registry has credited to the
    delegator and a claim would pay. *)
Theorem rewards_report_misses_credit bc storage fork a credits :
  (∀ d v, d ∈ get_delegations (bc_stake_registry bc) (to_lowercase a) →
     get_validator (bc_stake_registry bc) (de_validator d) = Some v → v_pending_rewards v = 0) →
  let bc' := bc <| bc_stake_registry := bc_stake_registry bc <| delegator_rewards := credits |> |> in
  peek_delegator_rewards (bc_stake_registry bc') (to_lowercase a) = default 0 (credits !! to_lowercase a) ∧
  ∃ r, sentrix_get_staking_rewards (VArr [VStr a]) (mkRpcNode _ bc' storage fork) = inl r ∧ field "pending_claimable" r = VStr "0x0".
Proof.
  intros Hz bc'. split; [done|]. unfold sentrix_get_staking_rewards. change (as_str (nth_param 0 (VArr [VStr a]))) with (Some a).
  change (get_nth 1 (VArr [VStr a])) with (@None Value). cbv beta iota zeta. cbn [rn_bc].
  rewrite reward_steps_zero by (done || (simpl; ulia)). eexists. split; [reflexivity|]. reflexivity.
Qed.

(** Within one report the total active stake is in sentri and the stake of a
    validator is in wei. *)
Theorem active_stake_unit n v :
  voyager_mode_for fk (rn_bc n) (match latest_block (rn_bc n) with Ok b => wrapping_add U64_MAX (blk_index b) 1 | Err _ => 1 end) = true →
  active_set (bc_stake_registry (rn_bc n)) = [v_address v] → validators (bc_stake_registry (rn_bc n)) = {[v_address v := v]} →
  0 <= v_self_stake v + v_total_delegated v <= U64_MAX →
  ∃ r row, sentrix_get_validator_set fk n = inl r ∧ field "validators" r = VArr [row] ∧
    field "total_active_stake" r = VStr (to_hex_u128 (v_total_stake v)) ∧
    field "stake" row = VStr (to_hex_u128 (v_total_stake v * WEI_PER_SENTRI)).
Proof.
  intros Hm Ha Hv Hb. unfold sentrix_get_validator_set. cbv zeta. rewrite Hm, Hv, Ha.
  rewrite bool_decide_eq_false_2 by (apply map_non_empty_singleton). cbn [andb negb].
  assert (Es : hm_values ({[v_address v := v]} : gmap string ValidatorStake) = [v]).
  { unfold hm_values. pose proof (hm_entries_perm ({[v_address v := v]} : gmap string ValidatorStake)) as Hp.
    rewrite map_to_list_singleton in Hp. apply Permutation_singleton_r in Hp. by rewrite Hp. }
  rewrite Es. cbn [fmap list_fmap]. eexists _, _. split; [reflexivity|]. split; [reflexivity|].
  assert (Et : v_total_stake v = v_self_stake v + v_total_delegated v) by (unfold v_total_stake, saturating_add; lia).
  split.
  - change (field "total_active_stake" _) with
      (VStr (to_hex_u128 (wrap U128_MAX (sum_of v_total_stake (omap (get_validator (bc_stake_registry (rn_bc n))) [v_address v]))))).
    unfold get_validator. cbn [omap list_omap]. rewrite Hv, lookup_singleton_eq. cbn. rewrite Z.add_0_r, wrap_small; [done|].
    rewrite Et. unfold U128_MAX. ulia.
  - unfold dpos_row. cbv zeta. change (field "stake" _) with (wei_hex (v_total_stake v)). unfold wei_hex, saturating_mul.
    rewrite Z.min_r; [done|]. rewrite Et. unfold WEI_PER_SENTRI, U128_MAX. ulia.
Qed.

(** ** Finality *)

(** The height reported as final is that of the last block of the window that
    carries a justification; the tip only where no block of the window has one. *)
Theorem finalized_height_spec bc latest h hash :
  finalized bc latest = (h, hash) →
  (∃ before b after, bc_chain bc = before ++ b :: after ∧ is_Some (blk_justification b) ∧ h = blk_index b ∧ hash = blk_hash b ∧
     Forall (λ b', blk_justification b' = None) after) ∨
  (h = blk_index latest ∧ hash = blk_hash latest ∧ Forall (λ b, blk_justification b = None) (bc_chain bc)).
Proof.
  unfold finalized. intros E. destruct (List.find _ (rev (bc_chain bc))) as [b|] eqn:Ef; injection E as <- <-.
  - left. rewrite <-(rev_involutive (bc_chain bc)). induction (rev (bc_chain bc)) as [|c l IH]; [done|]. cbn [List.find] in Ef. simpl.
    case_bool_decide as Hj.
    + injection Ef as ->. exists (rev l), b, []. by split_and!.
    + destruct (IH Ef) as (before & b' & after & -> & Hb & Eh & Ex & Ha). exists before, b', (after ++ [c]).
      rewrite <-app_assoc. split; [done|]. split_and!; [done..|]. apply Forall_app. split; [done|].
      constructor; [by apply eq_None_not_Some|constructor].
  - right. split_and!; [done..|]. apply Forall_forall. intros b Hb. apply eq_None_not_Some. intros Hj.
    pose proof (List.find_none _ _ Ef b) as Hn. rewrite <-in_rev, <-list_elem_of_In in Hn.
    specialize (Hn Hb). by rewrite bool_decide_eq_true_2 in Hn.
Qed.

(** ** Bounds on the work of a request *)

(** A fee history covers at least one and at most 1024 blocks, whatever count and
    newest block are asked for. *)
Theorem fee_history_bounded params n :
  in_u64 (bc_height (rn_bc n)) →
  ∃ r base ratios rewards, eth_fee_history params n = inl r ∧ field "baseFeePerGas" r = VArr base ∧
    field "gasUsedRatio" r = VArr ratios ∧ field "reward" r = VArr rewards ∧
    (length base <= 1025)%nat ∧ length ratios = length rewards ∧ (1 <= length ratios <= 1024)%nat.
Proof.
  intros Hh. unfold eth_fee_history. cbv zeta. set (count := Z.min _ 1024). set (newest := default _ _).
  assert (Hn : in_u64 newest).
  { subst newest. destruct (get_nth 1 params) as [v|]; [|done]. cbn [mbind option_bind].
    destruct (resolve_block_tag (Some v) _) eqn:E; [|done]. by eapply resolve_block_tag_u64. }
  eexists _, _, _, _. split; [reflexivity|]. split; [reflexivity|]. split; [reflexivity|]. split; [reflexivity|].
  rewrite length_replicate, !length_fmap, length_seqZ. unfold saturating_sub.
  assert (count <= 1024) by (subst count; lia). split; [lia|]. split; [done|]. assert (0 <= newest) by ulia. lia.
Qed.

(** A call or an estimate never runs with more gas than one transaction may use. *)
Theorem dry_run_gas_capped call_obj bc :
  te_gas_limit (dry_run_tx call_obj bc) <= TX_GAS_LIMIT_CAP ∨ dry_run_tx call_obj bc = default_tx_env.
Proof. unfold dry_run_tx. cbv zeta. destruct (tx_env_complete _); [left; cbn; unfold dry_run_gas; lia|by right]. Qed.
End hazards.
