(* ===== verification/Subscriptions.v ===== *)
(** * Events and WebSocket subscriptions

    Models crates/sentrix-rpc/src/events.rs, the payloads of the event bus, and
    crates/sentrix-rpc/src/ws/mod.rs: the connection limit per address, the requests
    of a connection, its subscriptions and the tasks that forward events.  What a
    receiver of the bus sees is a sequence of events, of notices that it fell behind,
    and of the end of the bus; in which order the tasks run is any interleaving.
    The second half is what holds on a connection. *)

From S2P Require Import Prelude Bytes Keys Account Transaction Authority Emission Staking Epoch Slashing Merkle.
From S2P Require Import BftMessages Block TrieState Chain Storage Executor Network Evm EvmProps EvmLogs EvmExec Rpc.
From S2P Require Import RpcEth RpcSentrix MempoolProps ExecutorProps RpcProps.

(** ** events.rs *)

Record LogData := mkLogData {
  ld_block_height : Z; ld_block_hash : string; ld_tx_hash : string; ld_tx_index : Z; ld_log_index : Z;
  ld_address : Address; ld_topics : list bytes; ld_data : bytes;
}.
Record LogEvent := mkLogEvent {
  lv_address : string; lv_topics : list string; lv_data : string; lv_block_number : string; lv_block_hash : string;
  lv_transaction_hash : string; lv_transaction_index : string; lv_log_index : string;
}.
Record TokenOpEvent := mkTokenOpEvent {
  to_op : string; to_contract : string; to_from : string; to_to : string; to_amount : Z; to_txid : string; to_block_height : Z;
}.
Record StakingOpEvent := mkStakingOpEvent {
  so_op : string; so_validator : string; so_delegator : string; so_amount : Z; so_txid : string; so_block_height : Z;
}.
Record JailEvent := mkJailEvent { je_validator : string; je_epoch : Z; je_missed_blocks : Z; je_block_height : Z }.

(** The channels of the bus that clients can subscribe to, and what travels on
    them. *)
Inductive Channel := ChNewHeads | ChLogs | ChPendingTxs | ChFinalized | ChValidatorSet | ChTokenOps | ChStakingOps | ChJail.
#[global] Instance Channel_eq_dec : EqDecision Channel.
Proof. solve_decision. Defined.
Inductive Payload := PLog (event : LogEvent) | PValue (json : Value).

Section events.
Context `{Hex}.

Definition new_head_event (block : Block) : Value := VObj
  [("number", VStr (to_hex (blk_index block))); ("hash", VStr (with_0x (blk_hash block)));
   ("parentHash", VStr (with_0x (blk_previous_hash block))); ("timestamp", VStr (to_hex (blk_timestamp block)));
   ("miner", VStr (blk_validator block)); ("transactionsRoot", VStr (with_0x (blk_merkle_root block)));
   ("stateRoot", VStr (match blk_state_root block with Some root => "0x" +:+ hex_encode root | None => ZERO_HASH_HEX end));
   ("gasLimit", VStr (to_hex 30000000)); ("gasUsed", VStr (to_hex 0)); ("difficulty", VStr "0x0");
   ("nonce", VStr "0x0000000000000000"); ("extraData", VStr "0x"); ("size", VStr (to_hex 1000))].
Definition from_log_data (log : LogData) : LogEvent :=
  mkLogEvent ("0x" +:+ hex_encode (ld_address log)) ((λ t, "0x" +:+ hex_encode t) <$> ld_topics log)
    ("0x" +:+ hex_encode (ld_data log)) (to_hex (ld_block_height log)) (with_0x (ld_block_hash log))
    (with_0x (ld_tx_hash log)) (to_hex (ld_tx_index log)) (to_hex (ld_log_index log)).
Definition log_event_json (e : LogEvent) : Value := VObj
  [("address", VStr (lv_address e)); ("topics", VArr (VStr <$> lv_topics e)); ("data", VStr (lv_data e));
   ("blockNumber", VStr (lv_block_number e)); ("blockHash", VStr (lv_block_hash e)); ("transactionHash", VStr (lv_transaction_hash e));
   ("transactionIndex", VStr (lv_transaction_index e)); ("logIndex", VStr (lv_log_index e)); ("removed", VBool false)].
Definition payload_json (p : Payload) : Value := match p with PLog e => log_event_json e | PValue v => v end.

(** The methods of [EventEmitter]: the channel and what is sent on it. *)
Definition emit_new_head (block : Block) : Channel * Payload := (ChNewHeads, PValue (new_head_event block)).
Definition emit_log (log : LogData) : Channel * Payload := (ChLogs, PLog (from_log_data log)).
Definition emit_pending_tx (id : string) : Channel * Payload := (ChPendingTxs, PValue (VStr (with_0x id))).
Definition emit_finalized (height : Z) (hash : string) (signers : nat) : Channel * Payload :=
  (ChFinalized, PValue (VObj [("height", VNum height); ("hash", VStr (with_0x hash)); ("justificationSigners", VNum (Z.of_nat signers))])).
Definition emit_validator_set (epoch : Z) (validators : list string) : Channel * Payload :=
  (ChValidatorSet, PValue (VObj [("epoch", VNum epoch); ("validators", VArr (VStr <$> validators))])).
Definition emit_token_op (ev : TokenOpEvent) : Channel * Payload :=
  (ChTokenOps, PValue (VObj [("op", VStr (to_op ev)); ("contract", VStr (to_contract ev)); ("from", VStr (to_from ev)); ("to", VStr (to_to ev));
    ("amount", VNum (to_amount ev)); ("txid", VStr (to_txid ev)); ("blockHeight", VNum (to_block_height ev))])).
Definition emit_staking_op (ev : StakingOpEvent) : Channel * Payload :=
  (ChStakingOps, PValue (VObj [("op", VStr (so_op ev)); ("validator", VStr (so_validator ev)); ("delegator", VStr (so_delegator ev));
    ("amount", VNum (so_amount ev)); ("txid", VStr (so_txid ev)); ("blockHeight", VNum (so_block_height ev))])).
Definition emit_jail (ev : JailEvent) : Channel * Payload :=
  (ChJail, PValue (VObj [("validator", VStr (je_validator ev)); ("epoch", VNum (je_epoch ev)); ("missedBlocks", VNum (je_missed_blocks ev));
    ("blockHeight", VNum (je_block_height ev))])).
End events.

(** ** The connection limit *)

Definition MAX_CONNECTIONS_PER_IP : Z := 10.
Abbreviation WsIpLimiter := (gmap string Z) (only parsing).
Definition try_acquire (ip : string) (map : WsIpLimiter) : WsIpLimiter * bool :=
  let count := default 0 (map !! ip) in
  if MAX_CONNECTIONS_PER_IP <=? count then (<[ip := count]> map, false) else (<[ip := count + 1]> map, true).
(** The guard of a connection is dropped. *)
Definition ip_release (ip : string) (map : WsIpLimiter) : WsIpLimiter :=
  match map !! ip with
  | Some count => if saturating_sub count 1 =? 0 then delete ip map else <[ip := saturating_sub count 1]> map
  | None => map
  end.

(** ** Filters *)

Record LogFilter := mkLogFilter { lf_addresses : list bytes; lf_topics : TopicFilter }.
Section filters.
Context `{HexDecode}.

Definition ws_parse (size : nat) (s : string) : option bytes :=
  match hex_decode (to_lowercase (trim_0x s)) with
  | Some b => if (length b =? size)%nat then Some b else None
  | None => None
  end.
Definition ws_topic_slot (slot : Value) : option (list bytes) :=
  match slot with
  | VStr s => match ws_parse 32 s with Some h => Some [h] | None => None end
  | VArr set => match omap (λ x, as_str x ≫= ws_parse 32) set with [] => None | hashes => Some hashes end
  | _ => None
  end.
Definition filter_from_params (filter_value : option Value) : LogFilter :=
  match filter_value with
  | None => mkLogFilter [] []
  | Some f =>
      mkLogFilter
        (match get_field "address" f with
         | Some (VStr s) => option_list (ws_parse 20 s)
         | Some (VArr l) => omap (λ x, as_str x ≫= ws_parse 20) l
         | _ => []
         end)
        (match get_field "topics" f with Some (VArr l) => ws_topic_slot <$> l | _ => [] end)
  end.
Fixpoint ws_topics_match (topics : list string) (slots : TopicFilter) : bool :=
  match slots with
  | [] => true
  | slot :: slots =>
      (match slot with
       | Some set => match head topics ≫= ws_parse 32 with Some t => bool_decide (t ∈ set) | None => false end
       | None => true
       end) && ws_topics_match (tail topics) slots
  end.
Definition filter_matches (f : LogFilter) (log : LogEvent) : bool :=
  (bool_decide (lf_addresses f = []) ||
   match ws_parse 20 (lv_address log) with Some a => bool_decide (a ∈ lf_addresses f) | None => false end)
  && ws_topics_match (lv_topics log) (lf_topics f).
End filters.

(** ** Tasks *)

(** What a receiver gets next. *)
Inductive Recv := Got (p : Payload) | Lagged (skipped : Z) | RecvClosed.

Definition wrap_subscription (sub_id : string) (result : Value) : Value := VObj
  [("jsonrpc", VStr "2.0"); ("method", VStr "eth_subscription");
   ("params", VObj [("subscription", VStr sub_id); ("result", result)])].
Definition lag_notice (sub_id : string) (skipped : Z) : Value := VObj
  [("jsonrpc", VStr "2.0"); ("method", VStr "eth_subscription");
   ("params", VObj [("subscription", VStr sub_id); ("result", VNull);
      ("error", VStr ("subscription lagged (" +:+ pretty skipped +:+ " events skipped); reconnect to resume"))])].

Section tasks.
Context `{Hex, HexDecode}.
(** One turn of a task: the messages it hands to the socket, and whether it goes
    on; [sent] is whether the socket took the message. *)
Definition new_heads_listener (sub_id : string) (r : Recv) (sent : bool) : list Value * bool :=
  match r with
  | Got p => ([wrap_subscription sub_id (payload_json p)], sent)
  | Lagged skipped => ([lag_notice sub_id skipped], false)
  | RecvClosed => ([], false)
  end.
Definition logs_listener (filter : LogFilter) (sub_id : string) (r : Recv) (sent : bool) : list Value * bool :=
  match r with
  | Got (PLog e) => if negb (filter_matches filter e) then ([], true) else ([wrap_subscription sub_id (log_event_json e)], sent)
  | Got (PValue _) | RecvClosed => ([], false)
  | Lagged skipped => ([lag_notice sub_id skipped], false)
  end.
Definition pending_txs_listener (sub_id : string) (r : Recv) (sent : bool) : list Value * bool :=
  match r with
  | Got p => ([wrap_subscription sub_id (payload_json p)], sent)
  | Lagged skipped => ([lag_notice sub_id skipped], false)
  | RecvClosed => ([], false)
  end.
(** The five native channels: [while let Ok(event) = rx.recv().await]. *)
Definition native_listener (sub_id : string) (r : Recv) (sent : bool) : list Value * bool :=
  match r with Got p => ([wrap_subscription sub_id (payload_json p)], sent) | Lagged _ | RecvClosed => ([], false) end.
Definition listen_step (c : Channel) (filter : LogFilter) (sub_id : string) (r : Recv) (sent : bool) : list Value * bool :=
  match c with
  | ChNewHeads => new_heads_listener sub_id r sent
  | ChLogs => logs_listener filter sub_id r sent
  | ChPendingTxs => pending_txs_listener sub_id r sent
  | ChFinalized | ChValidatorSet | ChTokenOps | ChStakingOps | ChJail => native_listener sub_id r sent
  end.

(** ** Connections *)

(** A subscription of the table: its channel ([None] for the one-shot task of
    syncing), its filter, and whether its task still runs.  The entry stays when the
    task ends. *)
Record Sub := mkSub { sb_channel : option Channel; sb_filter : LogFilter; sb_running : bool }.
Record WsConn := mkWsConn { wc_subs : gmap string Sub; wc_next_sub_id : Z }.
Definition WsConn_new : WsConn := mkWsConn ∅ 1.
Definition MAX_SUBS_PER_CONNECTION : nat := 100.

(** [format!("0x{:016x}", n)] *)
Fixpoint hex_padded (digits : nat) (n : Z) (acc : string) : string :=
  match digits with
  | O => acc
  | S digits => hex_padded digits (n / 16) (String (hex_char (n mod 16)) acc)
  end.
Definition sub_id_text (n : Z) : string := "0x" +:+ hex_padded 16 n "".

Definition channel_named (name : string) : option (option Channel) :=
  let named m := bool_decide (name = m) in
  if named "newHeads" then Some (Some ChNewHeads) else if named "logs" then Some (Some ChLogs)
  else if named "newPendingTransactions" then Some (Some ChPendingTxs) else if named "sentrix_finalized" then Some (Some ChFinalized)
  else if named "sentrix_validatorSet" then Some (Some ChValidatorSet) else if named "sentrix_tokenOps" then Some (Some ChTokenOps)
  else if named "sentrix_stakingOps" then Some (Some ChStakingOps) else if named "sentrix_jail" then Some (Some ChJail)
  else if named "syncing" then Some None else None.

(** What goes out: an answer, or a message of a subscription. *)
Inductive WsOut := OutResponse (r : JsonRpcResponse) | OutMessage (v : Value).
Definition handle_subscribe (req : JsonRpcRequest) (c : WsConn) : WsConn * list WsOut :=
  let id := rq_id req in
  let params := default (VArr []) (rq_params req) in
  let fail code msg := [OutResponse (response_err id code msg)] in
  match get_nth 0 params ≫= as_str with
  | None => (c, fail (-32602) "missing channel parameter")
  | Some channel =>
      if (MAX_SUBS_PER_CONNECTION <=? size (wc_subs c))%nat then
        (c, fail (-32005) ("subscription limit reached (" +:+ pretty (Z.of_nat MAX_SUBS_PER_CONNECTION) +:+ " per connection)"))
      else
        let sub_id := sub_id_text (wc_next_sub_id c) in
        let next := wrapping_add U64_MAX (wc_next_sub_id c) 1 in
        match channel_named channel with
        | None => (mkWsConn (wc_subs c) next, fail (-32602) ("unknown subscription channel: " +:+ channel))
        | Some None =>
            (mkWsConn (<[sub_id := mkSub None (mkLogFilter [] []) false]> (wc_subs c)) next,
             [OutMessage (wrap_subscription sub_id (VBool false)); OutResponse (response_ok id (VStr sub_id))])
        | Some (Some ch) =>
            let filter := if decide (ch = ChLogs) then filter_from_params (get_nth 1 params) else mkLogFilter [] [] in
            (mkWsConn (<[sub_id := mkSub (Some ch) filter true]> (wc_subs c)) next, [OutResponse (response_ok id (VStr sub_id))])
        end
  end.
Definition handle_unsubscribe (req : JsonRpcRequest) (c : WsConn) : WsConn * list WsOut :=
  let id := rq_id req in
  match get_nth 0 (default (VArr []) (rq_params req)) ≫= as_str with
  | None => (c, [OutResponse (response_err id (-32602) "missing subscription id")])
  | Some sub_id =>
      (mkWsConn (delete sub_id (wc_subs c)) (wc_next_sub_id c),
       [OutResponse (response_ok id (VBool (bool_decide (is_Some (wc_subs c !! sub_id)))))])
  end.
End tasks.

(** What happens on a connection: a text with a request or without one, another
    frame, the end, or a turn of the task of a subscription. *)
Inductive WsInput := WsText (req : option JsonRpcRequest) | WsOther | WsEnd | WsTask (sub_id : string) (r : Recv) (sent : bool).

Section socket.
Context `{ChainTypes, Json, Sha256, TxCrypto, Hex, HashOrder, JsonSlice, PartitionPoint, Revm, HexDecode, Alloy, Serde}.
Context (fk : Forks) (serialized_size : Transaction → option Z) (now : Z).

(** [None] is a closed connection. *)
Definition ws_step (i : WsInput) (s : option WsConn * RpcNode) : (option WsConn * RpcNode) * list WsOut :=
  match s with
  | (None, _) => (s, [])
  | (Some c, n) =>
      match i with
      | WsText None => (s, [OutResponse (response_err None (-32700) "Parse error")])
      | WsText (Some req) =>
          if bool_decide (rq_method req = "eth_subscribe") then let '(c, out) := handle_subscribe req c in ((Some c, n), out)
          else if bool_decide (rq_method req = "eth_unsubscribe") then let '(c, out) := handle_unsubscribe req c in ((Some c, n), out)
          else let '(n, resp) := dispatch_request fk serialized_size now n req in ((Some c, n), [OutResponse resp])
      | WsOther => (s, [])
      | WsEnd => ((None, n), [])
      | WsTask sub_id r sent =>
          match wc_subs c !! sub_id with
          | Some (mkSub (Some ch) filter true) =>
              let '(out, goes_on) := listen_step ch filter sub_id r sent in
              ((Some (mkWsConn (<[sub_id := mkSub (Some ch) filter goes_on]> (wc_subs c)) (wc_next_sub_id c)), n), OutMessage <$> out)
          | _ => (s, [])
          end
      end
  end.
Fixpoint ws_run (inputs : list WsInput) (s : option WsConn * RpcNode) : (option WsConn * RpcNode) * list WsOut :=
  match inputs with
  | [] => (s, [])
  | i :: inputs => let '(s, out) := ws_step i s in let '(s, outs) := ws_run inputs s in (s, out ++ outs)
  end.

(** ** Events of a block *)

(** What [add_block_impl] has sent for the head of the chain when it returns: the
    block as it is appended, before its state root is checked or written. *)
Context `{!ChainOps, Crypto} (cfg : NodeConfig).
Definition head_events (block : Block) (bc : Blockchain) : list (Channel * Payload) :=
  match (pass1 cfg block ;; execute_block cfg block) bc with
  | (_, Ok _) =>
      [emit_new_head block; emit_finalized (blk_index block) (blk_hash block)
        (match blk_justification block with Some j => length (bj_precommits j) | None => 0%nat end)]
  | (_, Err _) => []
  end.
End socket.

(** * Subscriptions: what holds on a connection

    The identifiers of a connection are never reused and its table is bounded; a
    connection changes the node only as the same requests would over HTTP; the
    filter of a log subscription selects what the same filter selects in a log
    query; the counters of connections are exact.  Then: ended tasks keep their
    place in the table, native channels end without a word, and heads are announced
    before they are final. *)

(** ** Identifiers *)

Lemma hex_padded_parse digits n s :
  0 <= n < 16 ^ Z.of_nat digits → n <= U64_MAX → parse_hex_digits (hex_padded digits n s) 0 = parse_hex_digits s n.
Proof.
  revert n s. induction digits as [|digits IH]; intros n s Hn Hm.
  { change (16 ^ Z.of_nat 0) with 1 in Hn. by replace n with 0 by lia. }
  rewrite Nat2Z.inj_succ, Z.pow_succ_r in Hn by lia. cbn [hex_padded].
  assert (Hq : 0 <= n / 16 < 16 ^ Z.of_nat digits) by (split; [apply Z.div_pos; lia|apply Z.div_lt_upper_bound; lia]).
  rewrite IH by (done || (pose proof (Z.div_le_upper_bound n 16 U64_MAX); lia)). cbn [parse_hex_digits].
  pose proof (Z.mod_pos_bound n 16 ltac:(lia)) as Hr. destruct (hex_value_char (n mod 16) Hr) as [-> _].
  replace (n / 16 * 16 + n mod 16) with n by (rewrite (Z.div_mod n 16) at 1; lia).
  by rewrite (proj2 (Z.leb_le _ _)).
Qed.
Lemma sub_id_inj a b : in_u64 a → in_u64 b → sub_id_text a = sub_id_text b → a = b.
Proof.
  intros Ha Hb E.
  assert (Hp : ∀ x, in_u64 x → parse_hex_digits (hex_padded 16 x "") 0 = Some x).
  { intros x Hx. rewrite hex_padded_parse by (change (16 ^ Z.of_nat 16) with (U64_MAX + 1); ulia). done. }
  assert (E' : strip_prefix "0x" (sub_id_text a) = strip_prefix "0x" (sub_id_text b)) by (by rewrite E).
  unfold sub_id_text in E'. rewrite !(proj2 (strip_prefix_Some "0x" _ _) eq_refl) in E'. apply (inj Some) in E'.
  pose proof (Hp a Ha) as Pa. rewrite E', Hp in Pa by done. by injection Pa.
Qed.

(** ** Connections *)

Record ws_inv (c : WsConn) : Prop := {
  wi_size : (size (wc_subs c) <= MAX_SUBS_PER_CONNECTION)%nat;
  wi_ids id sub : wc_subs c !! id = Some sub → ∃ k, 1 <= k < wc_next_sub_id c ∧ id = sub_id_text k;
}.
Lemma ws_inv_new : ws_inv WsConn_new.
Proof. split; [by vm_compute; lia|]. intros id sub Hs. exfalso. by apply (lookup_empty_Some id sub). Qed.

(** The next identifier is not in the table. *)
Lemma next_id_fresh c :
  ws_inv c → 1 <= wc_next_sub_id c <= U64_MAX → wc_subs c !! sub_id_text (wc_next_sub_id c) = None.
Proof.
  intros [_ Hi] Hn. destruct (wc_subs c !! _) as [sub|] eqn:E; [|done]. apply Hi in E as (k & Hk & E).
  apply sub_id_inj in E; ulia.
Qed.
Section conn.
Context `{Hex, HexDecode}.
Lemma subscribe_inv req c :
  ws_inv c → 1 <= wc_next_sub_id c < U64_MAX →
  ws_inv (handle_subscribe req c).1 ∧ wc_next_sub_id c <= wc_next_sub_id (handle_subscribe req c).1 <= wc_next_sub_id c + 1.
Proof.
  intros Hi Hn. unfold handle_subscribe. destruct (get_nth 0 _ ≫= as_str) as [ch|]; [|simpl; split; [done|lia]].
  destruct (Nat.leb_spec MAX_SUBS_PER_CONNECTION (size (wc_subs c))); [simpl; split; [done|lia]|].
  assert (En : wrapping_add U64_MAX (wc_next_sub_id c) 1 = wc_next_sub_id c + 1) by (unfold wrapping_add; apply wrap_small; ulia).
  cbv zeta. rewrite En.
  assert (Hsame : ws_inv (mkWsConn (wc_subs c) (wc_next_sub_id c + 1))).
  { destruct Hi as [Hs Hids]. split; [done|]. intros id sub Hid. apply Hids in Hid as (k & Hk & ->). exists k. simpl. split; [lia|done]. }
  assert (Hnew : ∀ sub, ws_inv (mkWsConn (<[sub_id_text (wc_next_sub_id c) := sub]> (wc_subs c)) (wc_next_sub_id c + 1))).
  { intros sub. pose proof (next_id_fresh c Hi ltac:(lia)) as Hf. destruct Hi as [Hs Hids]. split.
    - simpl. rewrite map_size_insert_None by done. lia.
    - intros id sub'. cbn [wc_subs]. intros [[<- _]|[_ Hid]]%lookup_insert_Some; [exists (wc_next_sub_id c); simpl; split; [lia|done]|].
      apply Hids in Hid as (k & Hk & ->). exists k. simpl. split; [lia|done]. }
  destruct (channel_named ch) as [[c'|]|]; simpl; (split; [auto|lia]).
Qed.
Lemma unsubscribe_inv req c :
  ws_inv c → ws_inv (handle_unsubscribe req c).1 ∧ wc_next_sub_id (handle_unsubscribe req c).1 = wc_next_sub_id c.
Proof.
  intros [Hs Hi]. unfold handle_unsubscribe. destruct (get_nth 0 _ ≫= as_str) as [id|]; [|done]. split; [|done]. split.
  - simpl. etrans; [|exact Hs]. apply map_subseteq_size, delete_subseteq.
  - intros id' sub. cbn [fst wc_subs]. intros [_ Hid]%lookup_delete_Some. by apply (Hi id' sub).
Qed.
End conn.

Section socket.
Context `{ChainTypes, Json, Sha256, TxCrypto, Hex, HashOrder, JsonSlice, PartitionPoint, Revm, HexDecode, Alloy, Serde}.
Context (fk : Forks) (serialized_size : Transaction → option Z) (now : Z).

(** The invariant of an open connection that has used fewer than [used] identifiers. *)
Definition conn_inv (used : Z) (c : option WsConn) : Prop :=
  match c with Some c => ws_inv c ∧ 1 <= wc_next_sub_id c <= used | None => True end.
Lemma ws_step_inv i c n used :
  conn_inv used c → used < U64_MAX →
  conn_inv (used + 1) (ws_step fk serialized_size now i (c, n)).1.1 ∧ pool_grew n (ws_step fk serialized_size now i (c, n)).1.2.
Proof.
  intros Hc Hu. destruct c as [c|]; [|split; [done|apply pool_grew_refl]]. destruct Hc as [Hi Hn]. simpl.
  assert (Hstay : conn_inv (used + 1) (Some c)) by (split; [done|lia]).
  destruct i as [[req|]| | |id r sent]; [|by split; [|apply pool_grew_refl]..|].
  - case_bool_decide; [|case_bool_decide].
    + destruct (subscribe_inv req c Hi ltac:(lia)) as [Hi' Hn']. destruct (handle_subscribe req c) as [c' out]. simpl in *.
      split; [split; [done|lia]|apply pool_grew_refl].
    + destruct (unsubscribe_inv req c Hi) as [Hi' Hn']. destruct (handle_unsubscribe req c) as [c' out]. simpl in *.
      split; [split; [done|lia]|apply pool_grew_refl].
    + pose proof (dispatch_request_grew fk serialized_size now n req) as Hg.
      destruct (dispatch_request _ _ _ n req) as [n' resp]. by split.
  - destruct (wc_subs c !! id) as [[[ch|] f []]|] eqn:E; try (by split; [|apply pool_grew_refl]).
    destruct (listen_step ch f id r sent) as [out go]. simpl. split; [|apply pool_grew_refl]. split; [|simpl; lia].
    destruct Hi as [Hs Hids]. split.
    + simpl. by rewrite map_size_insert_Some.
    + intros id' sub. cbn [wc_subs]. intros [[<- _]|[_ Hid]]%lookup_insert_Some; [by apply (Hids id _ E)|by apply (Hids id' sub)].
Qed.

(** On every connection, whatever the client sends and however the tasks of its
    subscriptions interleave: at most 100 subscriptions are in the table, their
    identifiers are distinct numbers below the next one, so none is given out twice,
    and the node changes only as the same requests would change it over HTTP. *)
Theorem ws_run_inv inputs n :
  Z.of_nat (length inputs) < U64_MAX - 1 →
  let '(c, n') := (ws_run fk serialized_size now inputs (Some WsConn_new, n)).1 in
  match c with Some c => ws_inv c ∧ wc_subs c !! sub_id_text (wc_next_sub_id c) = None | None => True end ∧ pool_grew n n'.
Proof.
  intros Hl. assert (Hgen : ∀ inputs c n used, conn_inv used c → used + Z.of_nat (length inputs) < U64_MAX →
    conn_inv U64_MAX (ws_run fk serialized_size now inputs (c, n)).1.1 ∧ pool_grew n (ws_run fk serialized_size now inputs (c, n)).1.2).
  { clear. intros inputs. induction inputs as [|i inputs IH]; intros c n used Hc Hu.
    - split; [|apply pool_grew_refl]. destruct c as [c|]; [|done]. destruct Hc as [? ?]. split; [done|simpl in Hu; lia].
    - cbn [ws_run]. simpl in Hu. destruct (ws_step_inv i c n used Hc ltac:(lia)) as [Hc' Hg].
      destruct (ws_step fk serialized_size now i (c, n)) as [[c1 n1] out]. cbn [fst snd] in Hc', Hg.
      destruct (IH c1 n1 (used + 1) Hc' ltac:(lia)) as [Hc2 Hg2].
      destruct (ws_run fk serialized_size now inputs (c1, n1)) as [[c2 n2] outs]. split; [done|by eapply pool_grew_trans]. }
  destruct (Hgen inputs (Some WsConn_new) n 1) as [Hc Hg]; [split; [apply ws_inv_new|simpl; lia]|lia|].
  destruct (ws_run fk serialized_size now inputs (Some WsConn_new, n)) as [[c n'] outs]. cbn [fst snd] in *. split; [|done].
  destruct c as [c|]; [|done]. destruct Hc as [Hi Hn]. split; [done|by apply next_id_fresh].
Qed.
End socket.

(** ** Filters *)

Lemma trim_0x_digits s : all_hexdigits s = true → trim_0x s = s.
Proof.
  intros Hd. destruct s as [|a [|b s]]; [done|done|]. cbn [trim_0x]. rewrite bool_decide_eq_false_2; [done|]. intros [= _ ->].
  unfold all_hexdigits in Hd. simpl in Hd. by rewrite andb_false_r in Hd.
Qed.
Section agree.
Context `{Revm, Hex, HexDecode, !HexLaws, !HexDecodeLaws}.
(** [hex::decode] takes letters of either case. *)
Context (hex_case : ∀ s, TrieState.hex_decode (to_lowercase s) = TrieState.hex_decode s).

Lemma ws_parse_fixed size s : ws_parse size s = parse_fixed size s.
Proof. unfold ws_parse, parse_fixed. by rewrite hex_case. Qed.
Lemma ws_parse_list size (l : list Value) : omap (λ x, as_str x ≫= ws_parse size) l = omap (λ x, as_str x ≫= parse_fixed size) l.
Proof.
  induction l as [|x l IH]; [done|]. csimpl. rewrite IH. destruct (as_str x) as [s|]; [|done]. csimpl. by rewrite ws_parse_fixed.
Qed.
Lemma ws_parse_encoded size b : byte_list b → length b = size → ws_parse size ("0x" +:+ hex_encode b) = Some b.
Proof.
  intros Hb Hl. rewrite ws_parse_fixed. unfold parse_fixed.
  change (trim_0x ("0x" +:+ hex_encode b)) with (trim_0x (hex_encode b)).
  assert (Hd : all_hexdigits (hex_encode b) = true).
  { destruct (all_hexdigits (hex_encode b)) eqn:E; [done|]. apply hex_decode_none in E. by rewrite hex_roundtrip in E. }
  by rewrite trim_0x_digits, hex_roundtrip, Hl, Nat.eqb_refl.
Qed.
Lemma ws_slots_agree slots (topics : list bytes) :
  Forall (λ t, byte_list t ∧ length t = 32%nat) topics →
  ws_topics_match ((λ t, "0x" +:+ hex_encode t) <$> topics) (ws_topic_slot <$> slots) = topics_match topics (topic_slot <$> slots).
Proof.
  intros Ht. revert topics Ht. induction slots as [|slot slots IH]; intros topics Ht; [done|]. cbn [fmap list_fmap ws_topics_match topics_match].
  assert (Htail : ws_topics_match (tail ((λ t, "0x" +:+ hex_encode t) <$> topics)) (ws_topic_slot <$> slots)
    = topics_match (tail topics) (topic_slot <$> slots)).
  { destruct topics as [|t topics]; [by apply (IH [])|]. apply Forall_cons in Ht as [_ Ht]. by apply IH. }
  f_equal; [|exact Htail]. clear Htail IH.
  assert (Hset : ∀ set : list bytes, set ≠ [] →
    match head ((λ t, "0x" +:+ hex_encode t) <$> topics) ≫= ws_parse 32 with Some t => bool_decide (t ∈ set) | None => false end
    = match topics with t :: _ => bool_decide (t ∈ set) | [] => false end).
  { intros set _. destruct topics as [|t topics]; [done|]. apply Forall_cons in Ht as [[Hb Hl] _].
    cbn [fmap list_fmap head mbind option_bind]. by rewrite ws_parse_encoded. }
  destruct slot; cbn [ws_topic_slot topic_slot]; try done.
  - rewrite ws_parse_fixed. destruct (parse_fixed 32 s) as [h|]; [|done]. by apply Hset.
  - assert (E : omap (λ x, as_str x ≫= ws_parse 32) l = omap (λ x, as_str x ≫= parse_fixed 32) l).
    { apply ws_parse_list. }
    rewrite E. match goal with |- context [omap ?g l] => destruct (omap g l) as [|h hs] end; [done|]. by apply Hset.
Qed.

(** A subscription to logs forwards exactly the logs that a log query with the same
    filter object returns. *)
Theorem log_filters_agree f ld log :
  byte_list (sl_address log) → length (sl_address log) = 20%nat →
  Forall (λ t, byte_list t ∧ length t = 32%nat) (sl_topics log) →
  ld_address ld = sl_address log → ld_topics ld = sl_topics log →
  filter_matches (filter_from_params (Some f)) (from_log_data ld)
  = log_matches log (parse_address_filter (get_field "address" f)) (parse_topic_filter (get_field "topics" f)).
Proof.
  intros Hb Hl Ht Ea Et. unfold filter_matches, log_matches. cbn [filter_from_params lf_addresses lf_topics from_log_data lv_address lv_topics].
  rewrite Ea, Et, ws_parse_encoded by done. f_equal.
  - assert (E : match get_field "address" f with
      | Some (VStr s) => option_list (ws_parse 20 s) | Some (VArr l) => omap (λ x, as_str x ≫= ws_parse 20) l | _ => [] end
      = parse_address_filter (get_field "address" f)); [|by rewrite E].
    destruct (get_field "address" f) as [v|]; [|done]. destruct v; try done; cbn [parse_address_filter]; [by rewrite ws_parse_fixed|].
    apply ws_parse_list.
  - destruct (get_field "topics" f) as [v|]; [|done]. destruct v; try done. by apply ws_slots_agree.
Qed.
End agree.

(** ** The connection limit *)

(** Openings, and closings of the connection at a place of the list of open ones. *)
Inductive IpEvent := IpOpen (ip : string) | IpClose (k : nat).
Definition ip_step (s : gmap string Z * list string) (e : IpEvent) : gmap string Z * list string :=
  match e with
  | IpOpen ip => let '(m, ok) := try_acquire ip s.1 in (m, if ok then ip :: s.2 else s.2)
  | IpClose k => match s.2 !! k with Some ip => (ip_release ip s.1, delete k s.2) | None => s end
  end.
Definition open_from (ip : string) (live : list string) : Z := Z.of_nat (length (filter (λ x, x = ip) live)).
Definition ip_inv (s : gmap string Z * list string) : Prop :=
  ∀ ip, default 0 (s.1 !! ip) = open_from ip s.2 ∧ open_from ip s.2 <= MAX_CONNECTIONS_PER_IP ∧ s.1 !! ip ≠ Some 0.
Lemma open_from_cons ip x live : open_from ip (x :: live) = (if decide (x = ip) then 1 else 0) + open_from ip live.
Proof. unfold open_from. rewrite filter_cons. case_decide; simpl; lia. Qed.
Lemma open_from_delete ip k x live :
  live !! k = Some x → open_from ip (delete k live) = open_from ip live - (if decide (x = ip) then 1 else 0).
Proof.
  intros Hk. assert (E : open_from ip live = open_from ip (x :: delete k live)).
  { unfold open_from. f_equal. apply Permutation_length. by rewrite <-(delete_Permutation live k x Hk). }
  rewrite E, open_from_cons. lia.
Qed.
Lemma ip_step_inv s e : ip_inv s → ip_inv (ip_step s e).
Proof.
  intros Hi. destruct e as [ip|k]; simpl.
  - unfold try_acquire. destruct (Hi ip) as (Hd & Hle & Hz). rewrite Hd. destruct (Z.leb_spec MAX_CONNECTIONS_PER_IP (open_from ip s.2)).
    + intros ip'. cbn [fst snd]. destruct (decide (ip = ip')) as [<-|Hne]; [|rewrite lookup_insert_ne by done; apply Hi].
      rewrite lookup_insert_eq. simpl. split; [done|]. split; [done|]. intros [= E]. unfold MAX_CONNECTIONS_PER_IP in *. lia.
    + intros ip'. cbn [fst snd]. rewrite open_from_cons. destruct (Hi ip') as (Hd' & Hle' & Hz').
      destruct (decide (ip = ip')) as [<-|Hne].
      * rewrite lookup_insert_eq. simpl. split; [lia|]. split; [lia|]. intros [= E].
        unfold open_from in Hd. lia.
      * rewrite lookup_insert_ne by done. split; [lia|]. split; [lia|done].
  - destruct (s.2 !! k) as [ip|] eqn:Ek; [|done]. intros ip'. cbn [fst snd]. rewrite (open_from_delete ip' k ip) by done.
    destruct (Hi ip) as (Hd & _ & Hz). destruct (Hi ip') as (Hd' & Hle' & Hz').
    assert (Hpos : 1 <= open_from ip s.2).
    { pose proof (open_from_delete ip k ip s.2 Ek) as E. rewrite decide_True in E by done. unfold open_from in *. lia. }
    unfold ip_release. destruct (s.1 !! ip) as [count|] eqn:Ec; [|simpl in Hd; lia]. simpl in Hd. unfold saturating_sub.
    destruct (decide (ip = ip')) as [<-|Hne].
    + destruct (Z.eqb_spec (Z.max 0 (count - 1)) 0).
      * rewrite lookup_delete_eq. simpl. split; [lia|]. split; [lia|done].
      * rewrite lookup_insert_eq. simpl. split; [lia|]. split; [lia|]. intros [= E]. lia.
    + destruct (Z.eqb_spec (Z.max 0 (count - 1)) 0);
        [rewrite lookup_delete_ne by done|rewrite lookup_insert_ne by done]; (split; [lia|]; split; [lia|done]).
Qed.
(** Along every sequence of connections opened and closed, the counter of an address
    is the number of its open connections, at most ten, and an address without one
    has no entry. *)
Theorem connection_counts_exact events :
  ip_inv (foldl ip_step (∅, []) events).
Proof.
  assert (H0 : ip_inv (∅, [])) by (intros ip; simpl; rewrite lookup_empty; split; [done|]; split; [by vm_compute|done]).
  revert H0. generalize (∅ : gmap string Z, @nil string). induction events as [|e events IH]; intros s Hs; [done|].
  simpl. by apply IH, ip_step_inv.
Qed.

(** ** Where subscriptions fall short *)

Section short.
Context `{Hex, HexDecode}.

(** A subscription whose task has ended keeps its place: a client that has asked 100
    times whether the node is syncing has no running subscription and can have no
    other. *)
Definition subscribe_to (channel : string) : JsonRpcRequest := mkRequest "2.0" "eth_subscribe" (Some (VArr [VStr channel])) None.
Theorem ended_subscriptions_count :
  let c := Nat.iter 100 (λ c, (handle_subscribe (subscribe_to "syncing") c).1) WsConn_new in
  forallb (λ e, negb (sb_running e.2)) (map_to_list (wc_subs c)) = true ∧
  handle_subscribe (subscribe_to "newHeads") c
  = (c, [OutResponse (response_err None (-32005) "subscription limit reached (100 per connection)")]).
Proof. vm_compute. split; reflexivity. Qed.

(** A client that falls behind is told so on the channels of Ethereum; on the native
    channels its subscription ends without a message. *)
Theorem native_lag_silent ch f sub_id skipped sent :
  listen_step ch f sub_id (Lagged skipped) sent
  = (if decide (ch ∈ [ChNewHeads; ChLogs; ChPendingTxs]) then [lag_notice sub_id skipped] else [], false).
Proof. by destruct ch. Qed.
End short.

(** ** Heads *)

Section heads.
Context `{ChainTypes, Json, Sha256, TxCrypto, Hex, HashOrder, Crypto, !ChainOps} (cfg : NodeConfig).

Lemma head_events_ok block bc bc1 :
  (pass1 cfg block ;; execute_block cfg block) bc = (bc1, Ok tt) → emit_new_head block ∈ head_events cfg block bc.
Proof. intros E. unfold head_events. rewrite E. apply list_elem_of_here. Qed.

(** A block whose transactions execute is announced as the new head and as final
    even if its state root is then refused and the chain goes back. *)
Theorem rejected_block_announced block bc bc1 bc2 e :
  (pass1 cfg block ;; execute_block cfg block) bc = (bc1, Ok tt) → finish_block cfg block bc1 = (bc2, Err e) →
  emit_new_head block ∈ head_events cfg block bc ∧ (add_block_impl cfg block bc).2 = Err e.
Proof.
  intros E Ef. split; [by apply (head_events_ok block bc bc1)|]. revert E. unfold add_block_impl, mbind, st_bind.
  destruct (pass1 cfg block bc) as [bc0 [[]|e0]]; [|done]. intros E. unfold commit, apply_block_pass2, mbind, st_bind.
  rewrite E, Ef. done.
Qed.
(** The block that is announced is the one before its state root is written: its
    successor on the chain may carry another hash. *)
Theorem announced_before_stamping block bc bc' :
  add_block_impl cfg block bc = (bc', Ok tt) →
  emit_new_head block ∈ head_events cfg block bc ∧ ∃ k b', bc_chain bc' = k ++ [b'] ∧ stamped block b'.
Proof.
  unfold add_block_impl, mbind, st_bind. destruct (pass1 cfg block bc) as [bc0 [[]|e0]] eqn:Ep; [|done].
  unfold commit. destruct (apply_block_pass2 cfg block bc0) as [bc2 [[]|e]] eqn:E2; [|done]. intros [= <-]. split.
  - unfold apply_block_pass2, mbind, st_bind in E2. destruct (execute_block cfg block bc0) as [bc1 [[]|e1]] eqn:Ee; [|done].
    apply (head_events_ok block bc bc1). unfold mbind, st_bind. by rewrite Ep.
  - apply pass2_effect in E2 as (_ & b' & Hc & Hs). by eexists _, b'.
Qed.
End heads.
