(* ===== verification/StateCommands.v ===== *)
(** * State fingerprints and the state commands

    Models crates/sentrix-core/src/block_executor/fingerprint.rs, the digests two nodes
    compare to find out where their states differ: they do not depend on the order of
    the hash maps, a difference shows up in one of the components, and a component
    identifies what it covers.  Then bin/sentrix/src/commands/state.rs: exporting,
    importing and checking a snapshot, the fingerprints of a stopped node, and the
    report before an activation.
    A command runs on the tables of the node; reading and writing snapshot files
    and printing are left out, so the input of a command is the parsed snapshot or
    the error of reading it. *)

From S2P Require Import Prelude Bytes Keys Account Token Trie TrieTree TrieRefine TrieTheorems TrieGc Transaction.
From S2P Require Import Authority TrieState Nft Emission Staking Epoch Slashing BftMessages Block Chain StateExport.
From S2P Require Import Storage Executor ChainTrie LoadChain Genesis Rpc TokenRegistry Merkle.

(** * Fingerprints *)

Section fingerprint.
Context `{Sha256, HashOrder}.
Implicit Types (bc : Blockchain) (db : AccountDB).

(** [sort_by(|a, b| a.0.cmp(b.0))], and the updates of the hasher. *)
Definition walk {V} (enc : string * V → bytes) (m : gmap string V) : bytes :=
  concat (enc <$> sort_by_key String.le (hm_entries m)).
Definition enc_account (p : string * Account) : bytes :=
  as_bytes p.1 ++ to_be_bytes 8 (acct_balance p.2) ++ to_be_bytes 8 (acct_nonce p.2)
  ++ acct_code_hash p.2 ++ acct_storage_root p.2.
Definition enc_code (p : string * bytes) : bytes := as_bytes p.1 ++ sha256_bytes p.2.
Definition enc_slot (p : string * bytes) : bytes := as_bytes p.1 ++ p.2.

Definition account_payload db : bytes :=
  walk enc_account (accounts db) ++ to_be_bytes 8 (total_burned db) ++ walk enc_code (contract_code db)
  ++ walk enc_slot (contract_storage db).
Definition compute_state_fingerprint bc : bytes * bytes :=
  let acc_fp := sha256_bytes (account_payload (bc_accounts bc)) in
  (acc_fp, sha256_bytes (acc_fp ++ to_be_bytes 8 (bc_total_minted bc) ++ registry_hash (bc_contracts bc)
             ++ nft_registry_hash (bc_nft_registry bc))).

(** The line on standard error, when the variable is set. *)
Definition emit_state_fingerprint `{Hex} (var : option string) bc (height : Z) : option string :=
  match var with
  | None => None
  | Some _ =>
      let '(acc_fp, fp) := compute_state_fingerprint bc in
      Some ("[STATE-FP] h=" +:+ pretty height +:+ " acc=" +:+ hex_encode (take 8 acc_fp)
            +:+ " fp=" +:+ hex_encode (take 8 fp))
  end.

Record StateComponents := mkComponents {
  co_accounts_fp : bytes;
  co_contract_code_fp : bytes;
  co_contract_storage_fp : bytes;
  co_total_minted : Z;
  co_total_burned : Z;
  co_src20_fp : bytes;
  co_nft_fp : bytes;
  co_account_count : nat;
}.
Definition state_components bc : StateComponents :=
  let db := bc_accounts bc in
  mkComponents (sha256_bytes (walk enc_account (accounts db))) (sha256_bytes (walk enc_code (contract_code db)))
    (sha256_bytes (walk enc_slot (contract_storage db))) (bc_total_minted bc) (total_burned db)
    (registry_hash (bc_contracts bc)) (nft_registry_hash (bc_nft_registry bc))
    (length (sort_by_key String.le (hm_entries (accounts db)))).
End fingerprint.

(** ** The order of the hash maps *)

Section order.
Context `{Sha256} (H1 H2 : HashOrder).

Lemma walk_canonical {V} (enc : string * V → bytes) (m : gmap string V) : @walk H1 V enc m = @walk H2 V enc m.
Proof. unfold walk. by rewrite (sorted_entries_canonical String.le H1 H2). Qed.

Lemma contract_hash_canonical c : @canonical_hash H1 _ c = @canonical_hash H2 _ c.
Proof.
  unfold canonical_hash, contract_payload.
  by rewrite (sorted_balances_canonical H1 H2 c c), (sorted_allowances_canonical H1 H2 c c).
Qed.
Lemma collection_hash_canonical c : @collection_hash H1 _ c = @collection_hash H2 _ c.
Proof.
  unfold collection_hash, collection_payload.
  rewrite !(sorted_entries_canonical Z.le H1 H2), (sorted_entries_canonical String.le H1 H2).
  pose proof (sorted_nested_canonical H1 H2 (nc_operator_approvals c) (nc_operator_approvals c) (λ _ _, eq_refl)) as En.
  unfold flat_nested in En. unfold flat_operators. by rewrite En.
Qed.
(** A registry: the sorted keys, each with the hash of its value. *)
Lemma enc_list_canonical {V} (enc1 enc2 : string * V → bytes) (m : gmap string V) :
  (∀ p, enc1 p = enc2 p) →
  enc_list enc1 (omap (λ a, (a,.) <$> m !! a) (sort_strings (@hm_keys H1 _ _ _ _ m)))
  = enc_list enc2 (omap (λ a, (a,.) <$> m !! a) (sort_strings (@hm_keys H2 _ _ _ _ m))).
Proof.
  intros E. rewrite (sorted_hm_keys_canonical H1 H2). unfold enc_list. do 2 f_equal. by apply list_fmap_ext.
Qed.
Lemma registry_hash_canonical r : @registry_hash H1 _ r = @registry_hash H2 _ r.
Proof.
  unfold registry_hash, registry_payload. f_equal. apply enc_list_canonical.
  intros p. unfold enc_contract. by rewrite contract_hash_canonical.
Qed.
Lemma nft_registry_hash_canonical r : @nft_registry_hash _ H1 r = @nft_registry_hash _ H2 r.
Proof.
  unfold nft_registry_hash, nft_registry_payload. f_equal. apply enc_list_canonical.
  intros p. unfold enc_collection. by rewrite collection_hash_canonical.
Qed.

(** Two nodes with the same state print the same fingerprints, whatever order
    their hash maps iterate in. *)
Theorem fingerprint_canonical bc :
  @compute_state_fingerprint _ H1 bc = @compute_state_fingerprint _ H2 bc ∧
  @state_components _ H1 bc = @state_components _ H2 bc.
Proof.
  unfold compute_state_fingerprint, account_payload, state_components.
  rewrite !walk_canonical, registry_hash_canonical, nft_registry_hash_canonical.
  by rewrite (sorted_entries_canonical String.le H1 H2).
Qed.
End order.

(** ** What the digests identify *)

(** Blocks of one size can be told apart in their concatenation. *)
Lemma concat_fixed {A} (n : nat) (enc : A → bytes) (l l' : list A) :
  (0 < n)%nat → Forall (λ x, length (enc x) = n) l → Forall (λ x, length (enc x) = n) l' →
  concat (enc <$> l) = concat (enc <$> l') → enc <$> l = enc <$> l'.
Proof.
  intros Hn Hl. revert l'. induction Hl as [|x l Hx _ IH]; intros l' Hl' E; destruct Hl' as [|y l' Hy Hl']; simpl in *.
  - done.
  - apply (f_equal length) in E. rewrite length_app in E. simpl in E. lia.
  - apply (f_equal length) in E. rewrite length_app in E. simpl in E. lia.
  - apply app_inj_1 in E as [Ex E]; [|congruence]. f_equal; [done|by apply IH].
Qed.

Section identify.
Context `{Sha256} (H1 H2 : HashOrder).

(** Equal walks over blocks of one size mean equal maps, up to what [enc] shows. *)
Lemma walk_identifies {V W} (n : nat) (ok : string * V → Prop) (enc : string * V → bytes) (view : V → W) (m m' : gmap string V) :
  (0 < n)%nat → (∀ p, ok p → length (enc p) = n) →
  (∀ p q, ok p → ok q → enc p = enc q → p.1 = q.1 ∧ view p.2 = view q.2) →
  map_Forall (λ k v, ok (k, v)) m → map_Forall (λ k v, ok (k, v)) m' →
  @walk H1 V enc m = @walk H2 V enc m' → view <$> m = view <$> m'.
Proof.
  intros Hn Hlen Hinj Hm Hm' E. unfold walk in E.
  set (l := sort_by_key String.le (@hm_entries H1 _ _ _ _ m)) in E.
  set (l' := sort_by_key String.le (@hm_entries H2 _ _ _ _ m')) in E.
  assert (Hl : l ≡ₚ map_to_list m) by (unfold l; by rewrite sort_by_key_perm, hm_entries_perm).
  assert (Hl' : l' ≡ₚ map_to_list m') by (unfold l'; by rewrite sort_by_key_perm, hm_entries_perm).
  assert (Ho : Forall ok l).
  { rewrite Hl. apply Forall_forall. intros [k v] Hk%elem_of_map_to_list. by apply Hm. }
  assert (Ho' : Forall ok l').
  { rewrite Hl'. apply Forall_forall. intros [k v] Hk%elem_of_map_to_list. by apply Hm'. }
  apply (concat_fixed n) in E; [|exact Hn|by eapply Forall_impl; [exact Ho|exact Hlen]|by eapply Forall_impl; [exact Ho'|exact Hlen]].
  apply map_to_list_inj. rewrite !map_to_list_fmap, <- Hl, <- Hl'.
  enough (Hf : prod_map id view <$> l = prod_map id view <$> l') by (by rewrite Hf).
  clear Hl Hl' Hn Hlen Hm Hm'. clearbody l l'. revert l' E Ho'. induction Ho as [|p l Hp _ IH]; intros [|q l'] E Ho'; simplify_eq/=; [done|].
  apply Forall_cons in Ho' as [Hq Ho']. f_equal; [|by apply IH].
  destruct p as [k v], q as [k' v']. unfold prod_map. simpl.
  destruct (Hinj (k, v) (k', v')) as [Ek Ev]; [done..|]. simpl in *. by rewrite Ek, Ev.
Qed.

(** What the code stores under an account, and which accounts occur: addresses of
    42 characters, machine integers and 32-byte hashes. *)
Definition shown (a : Account) : Z * Z * bytes * bytes :=
  (acct_balance a, acct_nonce a, acct_code_hash a, acct_storage_root a).
Definition account_ok (p : string * Account) : Prop :=
  String.length p.1 = 42%nat ∧ in_u64 (acct_balance p.2) ∧ in_u64 (acct_nonce p.2) ∧
  length (acct_code_hash p.2) = 32%nat ∧ length (acct_storage_root p.2) = 32%nat.
(** Storage keys are an address, a colon and 64 digits; values are 32 bytes. *)
Definition slot_ok (p : string * bytes) : Prop := String.length p.1 = 107%nat ∧ length p.2 = 32%nat.
Definition code_ok (p : string * bytes) : Prop := String.length p.1 = 64%nat.

Lemma enc_account_inj p q :
  account_ok p → account_ok q → enc_account p = enc_account q → p.1 = q.1 ∧ shown p.2 = shown q.2.
Proof.
  intros (Ha & Hb & Hn & Hc & Hs) (Ha' & Hb' & Hn' & Hc' & Hs') E. unfold enc_account in E.
  apply app_inj_1 in E as [Ea E]; [|rewrite !length_as_bytes; congruence].
  apply prefix_free_u64 in E as [Eb E]; [|done..]. apply prefix_free_u64 in E as [En E]; [|done..].
  apply app_inj_1 in E as [Ec Es]; [|congruence].
  apply as_bytes_inj in Ea. unfold shown. by rewrite Eb, En, Ec, Es.
Qed.
Lemma enc_slot_inj p q : slot_ok p → slot_ok q → enc_slot p = enc_slot q → p.1 = q.1 ∧ p.2 = q.2.
Proof.
  intros [Ha _] [Ha' _] E. apply app_inj_1 in E as [Ea E]; [|rewrite !length_as_bytes; congruence].
  by apply as_bytes_inj in Ea.
Qed.

(** Two nodes whose components agree hold the same balances, nonces, code hashes
    and storage roots, the same contract storage, and code with the same hashes:
    unless SHA-256 collides on what they hash. *)
Theorem components_identify `{!Sha256Laws} bc bc' :
  let db := bc_accounts bc in let db' := bc_accounts bc' in
  map_Forall (λ k v, account_ok (k, v)) (accounts db) → map_Forall (λ k v, account_ok (k, v)) (accounts db') →
  map_Forall (λ k v, code_ok (k, v)) (contract_code db) → map_Forall (λ k v, code_ok (k, v)) (contract_code db') →
  map_Forall (λ k v, slot_ok (k, v)) (contract_storage db) → map_Forall (λ k v, slot_ok (k, v)) (contract_storage db') →
  collision_free sha256_bytes [@walk H1 _ enc_account (accounts db); @walk H2 _ enc_account (accounts db')] →
  collision_free sha256_bytes [@walk H1 _ enc_code (contract_code db); @walk H2 _ enc_code (contract_code db')] →
  collision_free sha256_bytes [@walk H1 _ enc_slot (contract_storage db); @walk H2 _ enc_slot (contract_storage db')] →
  @state_components _ H1 bc = @state_components _ H2 bc' →
  shown <$> accounts db = shown <$> accounts db' ∧ sha256_bytes <$> contract_code db = sha256_bytes <$> contract_code db' ∧
  contract_storage db = contract_storage db' ∧
  bc_total_minted bc = bc_total_minted bc' ∧ total_burned db = total_burned db'.
Proof.
  intros db db' Ha Ha' Hc Hc' Hs Hs' Fa Fc Fs E. injection E as Ea Ec Es Em Eb _ _ _.
  apply Fa in Ea; [|set_solver..]. apply Fc in Ec; [|set_solver..]. apply Fs in Es; [|set_solver..].
  split_and!; [| | |done..].
  - eapply (walk_identifies 122 account_ok); [lia| |exact enc_account_inj|done..].
    intros p (?&?&?&?&?). unfold enc_account. rewrite !length_app, length_as_bytes, !length_to_be_bytes. lia.
  - eapply (walk_identifies 96 code_ok); [lia| | |done..].
    + intros p Hp. unfold enc_code. rewrite length_app, length_as_bytes, sha256_bytes_length. unfold code_ok in Hp. lia.
    + intros p q Hp Hq Ep. apply app_inj_1 in Ep as [Ep Ev]; [|rewrite !length_as_bytes; unfold code_ok in *; congruence].
      by apply as_bytes_inj in Ep.
  - rewrite <- (map_fmap_id (contract_storage db)), <- (map_fmap_id (contract_storage db')).
    eapply (walk_identifies 139 slot_ok); [lia| |exact enc_slot_inj|done..].
    intros p [Hk Hv]. unfold enc_slot. rewrite length_app, length_as_bytes. lia.
Qed.

(** When the combined fingerprints of two nodes differ, one of the components does:
    comparing the components finds the part that diverged. *)
Theorem divergence_located bc bc' :
  let db := bc_accounts bc in let db' := bc_accounts bc' in
  collision_free sha256_bytes [@walk H1 _ enc_account (accounts db); @walk H2 _ enc_account (accounts db')] →
  collision_free sha256_bytes [@walk H1 _ enc_code (contract_code db); @walk H2 _ enc_code (contract_code db')] →
  collision_free sha256_bytes [@walk H1 _ enc_slot (contract_storage db); @walk H2 _ enc_slot (contract_storage db')] →
  @compute_state_fingerprint _ H1 bc ≠ @compute_state_fingerprint _ H2 bc' →
  @state_components _ H1 bc ≠ @state_components _ H2 bc'.
Proof.
  intros db db' Fa Fc Fs Hne E. injection E as Ea Ec Es Em Eb Et En _. apply Hne.
  apply Fa in Ea; [|set_solver..]. apply Fc in Ec; [|set_solver..]. apply Fs in Es; [|set_solver..].
  subst db db'. unfold compute_state_fingerprint, account_payload. by rewrite Ea, Ec, Es, Eb, Em, Et, En.
Qed.
End identify.

(** The walk of the storage has no lengths: with keys of other widths, two
    storages share one digest. *)
Theorem storage_digest_ambiguous `{Sha256, HashOrder} :
  ∃ m m' : gmap string bytes, m ≠ m' ∧ walk enc_slot m = walk enc_slot m'.
Proof.
  exists {["a" := [98; 1]]}, {["ab" := [1]]}. split.
  - intros E. apply (f_equal (lookup "a")) in E. rewrite lookup_singleton_eq, lookup_singleton_ne in E; done.
  - assert (Hw : ∀ k v, walk enc_slot {[k := v]} = enc_slot (k, v)).
    { intros k v. unfold walk.
      assert (Hp : sort_by_key String.le (hm_entries ({[k := v]} : gmap string bytes)) ≡ₚ [(k, v)])
        by (by rewrite sort_by_key_perm, hm_entries_perm, map_to_list_singleton).
      apply Permutation_singleton_r in Hp. rewrite Hp. apply app_nil_r. }
    by rewrite !Hw.
Qed.

(** * Commands *)

Inductive CmdError :=
  | NotConfirmed
  | BadInput (why : string)
  | ReadingHeight (e : SentrixError)
  | RefusedAtHeight (height : Z)
  | NotInitialized
  | FromChain (e : SentrixError).

(** ** The report *)

Record GateStatus := mkGate { gt_enabled : bool; gt_activation_height : option Z }.
Definition gate_read (height : Z) : GateStatus :=
  if height =? U64_MAX then mkGate false None else mkGate true (Some height).

Record PreflightReport := mkReport {
  pr_version : string;
  pr_height : Z;
  pr_tip_hash : string;
  pr_state_root : option string;
  pr_src20_canonical_hash : string;
  pr_nft_canonical_hash : string;
  pr_native_state_in_trie_gate : GateStatus;
  pr_nft_tokenop_gate : GateStatus;
  pr_verdict : string;
  pr_notes : list string;
}.

Section report.
Context `{Sha256, Hex, HashOrder}.
Implicit Types (bc : Blockchain).

(** A note, and the flag that goes with it. *)
Definition note (b : bool) (text : string) : list string := if b then [text] else [].
Definition build_preflight_report (version : string) bc (native_gate_height nft_gate_height : Z) : PreflightReport :=
  let height := bc_height bc in
  let tip := match latest_block bc with Ok b => Some b | Err _ => None end in
  let state_root := hex_encode <$> (tip ≫= blk_state_root) in
  let native := gate_read native_gate_height in
  let nft := gate_read nft_gate_height in
  let not_ready := bool_decide (tip = None) in
  let at_genesis := height =? 0 in
  let no_root := bool_decide (state_root = None) && negb not_ready in
  let warn := at_genesis || no_root || gt_enabled native || gt_enabled nft in
  let notes :=
    note not_ready "chain not initialized / tip block unreadable"
    ++ note at_genesis "chain at genesis height 0 — nothing committed yet"
    ++ note no_root "tip block has no state_root (pre-trie block) — STATE_IN_TRIE may not be active on this node"
    ++ note (gt_enabled native) ("native state-trie gate ALREADY pinned at height "
         +:+ pretty (default 0 (gt_activation_height native)) +:+ " — activation already scheduled/done; do not re-pin")
    ++ note (gt_enabled nft) "NFT TokenOp gate is ENABLED — per the playbook it must NOT be activated together with native state-trie"
    ++ note (negb not_ready && negb warn) ("clean pre-activation baseline — compare src20_canonical_hash, nft_canonical_hash "
         +:+ "and state_root across ALL validators before pinning a height (see activation playbook)") in
  mkReport version height (default "" (blk_hash <$> tip)) state_root
    (hex_encode (registry_hash (bc_contracts bc))) (hex_encode (nft_registry_hash (bc_nft_registry bc))) native nft
    (if not_ready then "NOT_READY" else if warn then "WARNING" else "READY") notes.

Definition gate_str (g : GateStatus) : string :=
  match gt_activation_height g with
  | Some h => "ENABLED (activation height " +:+ pretty h +:+ ")"
  | None => "DISABLED (u64::MAX)"
  end.
Definition NL : string := String (Ascii.ascii_of_nat 10) "".
Definition render_text (r : PreflightReport) : string :=
  "Native-module state-root activation preflight (read-only)" +:+ NL
  +:+ "=========================================================" +:+ NL
  +:+ "binary version         : " +:+ pr_version r +:+ NL
  +:+ "chain height           : " +:+ pretty (pr_height r) +:+ NL
  +:+ "tip hash               : " +:+ pr_tip_hash r +:+ NL
  +:+ "state_root (tip)       : " +:+ default "<none>" (pr_state_root r) +:+ NL
  +:+ "SRC-20 canonical hash  : " +:+ pr_src20_canonical_hash r +:+ NL
  +:+ "NFT canonical hash     : " +:+ pr_nft_canonical_hash r +:+ NL
  +:+ "NATIVE_STATE_IN_TRIE   : " +:+ gate_str (pr_native_state_in_trie_gate r) +:+ NL
  +:+ "NFT_TOKENOP            : " +:+ gate_str (pr_nft_tokenop_gate r) +:+ NL
  +:+ NL +:+ "VERDICT: " +:+ pr_verdict r +:+ NL
  +:+ foldr (λ n rest, "  - " +:+ n +:+ NL +:+ rest)
        (NL +:+ "Note: this reports THIS node only. Activation requires the SAME hashes" +:+ NL
         +:+ "and state_root across ALL validators — compare before pinning a height." +:+ NL) (pr_notes r).
Definition opt_value {A} (f : A → Value) (o : option A) : Value := match o with Some x => f x | None => VNull end.
Definition gate_json (g : GateStatus) : Value :=
  VObj [("enabled", VBool (gt_enabled g)); ("activation_height", opt_value VNum (gt_activation_height g))].
(** The value [render_json] prints. *)
Definition render_json (r : PreflightReport) : Value := VObj
  [("version", VStr (pr_version r)); ("height", VNum (pr_height r)); ("tip_hash", VStr (pr_tip_hash r));
   ("state_root", opt_value VStr (pr_state_root r)); ("src20_canonical_hash", VStr (pr_src20_canonical_hash r));
   ("nft_canonical_hash", VStr (pr_nft_canonical_hash r));
   ("native_state_in_trie_gate", gate_json (pr_native_state_in_trie_gate r));
   ("nft_tokenop_gate", gate_json (pr_nft_tokenop_gate r)); ("verdict", VStr (pr_verdict r));
   ("notes", VArr (VStr <$> pr_notes r))].
End report.

(** ** The commands *)

Section commands.
Context `{Sha256, Blake3, Hex, HexDecode, HashOrder, Json, TxCrypto, Crypto, JsonSlice}.
Context (cfg : NodeConfig) (tc : TrieConfig).
Context (evm : Transaction → Z → string → Z → Blockchain → AccountDB * result unit) (fuel : nat).
Context (env : string → option string) (now : Z) (version : string).
Implicit Types (bc : Blockchain) (db : NodeDb).

(** [storage.load_blockchain()?.ok_or_else(..)?], then a use of the chain. *)
Definition with_chain {A} db (use : Blockchain → NodeDb → NodeDb * (CmdError + A)) : option (NodeDb * (CmdError + A)) :=
  match load_blockchain cfg tc evm fuel db with
  | None => None
  | Some (db, Err e) => Some (db, inl (FromChain e))
  | Some (db, Ok None) => Some (db, inl NotInitialized)
  | Some (db, Ok (Some bc)) => Some (use bc db)
  end.

(** The name of the file, and what is written to it. *)
Definition cmd_state_export (output : option string) db : option (NodeDb * (CmdError + (string * StateSnapshot))) :=
  with_chain db (λ bc db,
    match export_state now bc with
    | Err e => (db, inl (FromChain e))
    | Ok snapshot => (db, inr (default ("state_" +:+ pretty (sm_height (ss_metadata snapshot)) +:+ ".json") output, snapshot))
    end).

Definition override_set : bool := bool_decide (env "SENTRIX_ALLOW_STATE_IMPORT_ON_NONZERO_HEIGHT" = Some "1").
Definition cmd_state_import (input : string + StateSnapshot) (force : bool) db : option (NodeDb * (CmdError + nat)) :=
  if negb force then Some (db, inl NotConfirmed)
  else
    match input with
    | inl why => Some (db, inl (BadInput why))
    | inr snapshot =>
        match verify_snapshot snapshot with
        | Err e => Some (db, inl (FromChain e))
        | Ok _ =>
            match load_height (nd_chain db) with
            | Err e => Some (db, inl (ReadingHeight e))
            | Ok current_height =>
                if (0 <? current_height) && negb override_set then Some (db, inl (RefusedAtHeight current_height))
                else
                  with_chain db (λ bc db,
                    match import_state now snapshot bc with
                    | (_, Err e) => (db, inl (FromChain e))
                    | (bc, Ok count) =>
                        let db := reset_trie db in
                        (db <| nd_chain := save_blockchain bc (bc_chain bc) (nd_chain db) |>, inr count)
                    end)
            end
        end
    end.

Definition cmd_state_verify (input : string + StateSnapshot) : CmdError + unit :=
  match input with
  | inl why => inl (BadInput why)
  | inr snapshot => match verify_snapshot snapshot with Err e => inl (FromChain e) | Ok _ => inr tt end
  end.
Definition cmd_state_fingerprint db : option (NodeDb * (CmdError + (Z * StateComponents))) :=
  with_chain db (λ bc db, (db, inr (bc_height bc, state_components bc))).
Definition cmd_state_preflight (json : bool) db : option (NodeDb * (CmdError + (Value + string))) :=
  with_chain db (λ bc db,
    let report := build_preflight_report version bc (get_native_state_in_trie_height env) (get_nft_tokenop_height env) in
    (db, inr (if json then inl (render_json report) else inr (render_text report)))).
End commands.

(** ** What the report says *)

Section verdict.
Context `{Sha256, Hex, HashOrder}.

Lemma gate_enabled h : gt_enabled (gate_read h) = negb (h =? U64_MAX).
Proof. unfold gate_read. by case_match. Qed.

(** The report calls a node ready exactly when its tip is past the genesis block and
    carries a state root, and neither gate has a height; without a tip it is not
    ready. *)
Theorem preflight_verdict version bc native nft :
  (pr_verdict (build_preflight_report version bc native nft) = "READY" ↔
     native = U64_MAX ∧ nft = U64_MAX ∧
     ∃ tip, last (bc_chain bc) = Some tip ∧ blk_index tip ≠ 0 ∧ is_Some (blk_state_root tip)) ∧
  (pr_verdict (build_preflight_report version bc native nft) = "NOT_READY" ↔ bc_chain bc = []).
Proof.
  unfold build_preflight_report. simpl. rewrite !gate_enabled. unfold latest_block, bc_height.
  destruct (last (bc_chain bc)) as [tip|] eqn:Hl; simpl.
  - assert (Hc : bc_chain bc ≠ []) by (intros E; by rewrite E in Hl).
    destruct (Z.eqb_spec (blk_index tip) 0), (blk_state_root tip) as [r|] eqn:Er, (Z.eqb_spec native U64_MAX),
      (Z.eqb_spec nft U64_MAX); simpl; (split; split; [|intros (? & ? & t & [= <-] & ? & [? ?])|..]);
      first [done|congruence|intros _; split_and!; [done..|by exists tip; rewrite Er]].
  - apply last_None in Hl. split; split; try done. naive_solver.
Qed.
End verdict.

(** ** What the commands change *)

Section effects.
Context `{Sha256, Blake3, Hex, HexDecode, HashOrder, Json, TxCrypto, Crypto, JsonSlice}.
Context (cfg : NodeConfig) (tc : TrieConfig).
Context (evm : Transaction → Z → string → Z → Blockchain → AccountDB * result unit) (fuel : nat).
Context (env : string → option string) (now : Z).
Implicit Types (bc : Blockchain) (db : NodeDb).

Lemma import_frame s bc bc' n : import_state now s bc = (bc', Ok n) → n = length (ss_accounts s) ∧ bc_chain bc' = bc_chain bc.
Proof. unfold import_state. case_match; intros; by simplify_eq/=. Qed.

(** An import that succeeds was confirmed, its snapshot passed the check, and the
    chain was at its genesis block or the override was set.  What it leaves is the
    imported state of the chain it loaded and an empty trie. *)
Theorem import_succeeds input force db db' count :
  cmd_state_import cfg tc evm fuel env now input force db = Some (db', inr count) →
  force = true ∧
  ∃ snapshot db1 bc, input = inr snapshot ∧ verify_snapshot snapshot = Ok tt ∧
    load_blockchain cfg tc evm fuel db = Some (db1, Ok (Some bc)) ∧ count = length (ss_accounts snapshot) ∧
    nd_trie db' = mkTrieStorage ∅ ∅ ∅ ∅ (ts_tombstones (nd_trie db1)) false ∧
    nd_chain db' = save_blockchain (import_state now snapshot bc).1 (bc_chain bc) (nd_chain db1) ∧
    ∃ h, load_height (nd_chain db) = Ok h ∧ (h <= 0 ∨ override_set env = true).
Proof.
  unfold cmd_state_import, with_chain. intros E.
  destruct force; [|done]. split; [done|].
  destruct input as [why|s]; [done|]. destruct (verify_snapshot s) as [[]|e] eqn:Ev; [|done].
  destruct (load_height (nd_chain db)) as [h|e] eqn:Eh; [|done]. simpl in E. case_match; [done|].
  destruct (load_blockchain cfg tc evm fuel db) as [[db1 [[bc|]|e]]|] eqn:El; simplify_eq.
  destruct (import_state now s bc) as [bc' [n|e]] eqn:Ei; simplify_eq/=.
  destruct (import_frame s bc bc' count Ei) as [-> Hc]. exists s, db1, bc. rewrite Ei, <- Hc. split_and!; try done.
  - eexists. split; [done|].
    match goal with Hx : _ && _ = false |- _ => apply andb_false_iff in Hx as [Hx%Z.ltb_ge|Hx%negb_false_iff] end; auto.
Qed.

(** An import that is not confirmed, has no valid snapshot, or would meet a chain
    past its genesis block without the override leaves the tables as they are. *)
Theorem import_refused input force db :
  force = false ∨ (∃ why, input = inl why) ∨ (∃ s e, input = inr s ∧ verify_snapshot s = Err e) ∨
  (∃ h, load_height (nd_chain db) = Ok h ∧ 0 < h ∧ override_set env = false) →
  ∃ e, cmd_state_import cfg tc evm fuel env now input force db = Some (db, inl e).
Proof.
  intros Hr. unfold cmd_state_import. destruct force; simpl; [|eauto].
  destruct input as [why|s]; [eauto|]. destruct (verify_snapshot s) eqn:Ev; [|eauto].
  destruct Hr as [?|[(? & ?)|[(s' & e & ? & ?)|(h & Hh & Hlt & Ho)]]]; [done|done|congruence|].
  rewrite Hh, Ho, (proj2 (Z.ltb_lt _ _) Hlt). simpl. eauto.
Qed.

Lemma get_from_empty n T k : get_from (S n) T k (empty_hash 0) 0 = Ok None.
Proof. cbn [get_from]. by rewrite bool_decide_eq_true_2. Qed.

(** The command reports that the next start rebuilds the trie from the imported
    accounts.  At the genesis block, the only height it accepts without the override,
    the start leaves the trie empty: the state root does not cover the imported
    accounts. *)
Theorem import_not_in_trie input force db db' count bc :
  cmd_state_import cfg tc evm fuel env now input force db = Some (db', inr count) →
  bc_height bc = 0 →
  ∃ T st, init_trie tc fuel (nd_trie db') bc = Some (bc <| bc_state_trie := Some T |>, st, Ok tt) ∧
    tr_root T = empty_hash 0 ∧ ∀ a, get T (address_to_key a) = Ok None.
Proof.
  intros E Hh. apply import_succeeds in E as (_ & s & db1 & bc1 & _ & _ & _ & _ & Ht & _).
  unfold init_trie. rewrite Ht, Hh. unfold needs_backfill. rewrite Z.ltb_irrefl.
  set (T := trie_open _ 0). assert (Hroot : tr_root T = empty_hash 0).
  { unfold T, trie_open. simpl. by rewrite lookup_empty. }
  exists T, (tr_storage T). split_and!; [|done|].
  - unfold verify_integrity. rewrite bool_decide_eq_true_2 by done. by destruct (tc_skip_integrity tc).
  - intros a. unfold get. rewrite Hroot. apply (get_from_empty 256).
Qed.
End effects.
