(* ===== verification/ExecutorExamples.v ===== *)
(** * The executor at concrete inputs

    A one-validator chain with toy cryptography, on which the theorems about the
    executor are instantiated; then the same for EVM transactions. *)

From S2P Require Import Prelude Bytes Account Staking StakingProps StakingTheorems StakingSets Epoch Slashing.
From S2P Require Import SlashingProps Token Merkle Transaction TransactionProps Authority Emission BftMessages Block.
From S2P Require Import Chain MempoolProps SignGuard Justify Executor ExecutorProps ExecutorValue ExecutorHazards.
From S2P Require Import Preflight TrieState StateExport Queries Keys Evm EvmProps EvmLogs EvmExec.

Section executor_examples.
#[local] Existing Instances unit_types leading_point bundle_json toy_sha toy_hex toy_tx_crypto
  canonical_order toy_crypto.

(** The trie answers with a fixed root, or not at all. *)
Definition toy_ops (root : result (option bytes)) : @ChainOps unit_types := {|
  apply_nft_token_op _ _ _ := λ n, (n, Ok tt);
  execute_evm_tx _ _ _ _ bc := (bc_accounts bc, Ok tt);
  update_trie bc := (bc_accounts bc, bc_state_trie bc, root);
  trie_root_hash _ := [];
  trie_set_root _ t := t;
|}.
Definition steady_ops := toy_ops (Ok (Some [7])).
Definition broken_ops := toy_ops (Err (Internal "disk full")).

Definition bob : string := "0x0000000000000000000000000000000000000b0b".
(** Only the reward fork is active. *)
Definition demo_forks : Forks :=
  mkForks 0 0 U64_MAX U64_MAX U64_MAX U64_MAX U64_MAX U64_MAX U64_MAX U64_MAX.
Definition demo_cfg : NodeConfig := mkConfig demo_forks false 0 2000000000.

Definition demo_chain : Blockchain := empty_chain <| bc_chain := [Block_genesis] |>.
Definition pay (n fee : Z) : Transaction :=
  @Transaction_new bundle_json toy_sha toy_tx_crypto alice bob 5 fee n "" 7119 alice alice 2000000000.
Definition demo_new_block (txs : list Transaction) : Block :=
  Block_new 1 (blk_hash Block_genesis)
    (new_coinbase demo_validator (bc_block_reward demo_forks demo_chain) 1 2000000000 :: txs)
    demo_validator 2000000000.
(** Two payments with odd fees. *)
Definition payments_block : Block := demo_new_block [pay 0 10001; pay 1 10001].

Lemma demo_chain_inv : chain_inv demo_chain.
Proof.
  split; [done|simpl; unfold CHAIN_WINDOW_SIZE; lia|]. intros i a b _ Hb.
  apply lookup_lt_Some in Hb. simpl in Hb. lia.
Qed.

Definition after_payments : Blockchain :=
  state_of (add_block_with_source (H0 := steady_ops) demo_cfg payments_block Peer demo_chain).

Lemma add_block_extends_chain_witness :
  add_block_with_source (H0 := steady_ops) demo_cfg payments_block Peer demo_chain
    = (after_payments, Ok tt) ∧
  chain_inv after_payments ∧ bc_height after_payments = 1.
Proof.
  assert (Ha : add_block_with_source (H0 := steady_ops) demo_cfg payments_block Peer
    demo_chain = (after_payments, Ok tt)) by (vm_compute; reflexivity).
  split; [exact Ha|].
  destruct (add_block_extends_chain (H0 := steady_ops) demo_cfg payments_block Peer
    demo_chain after_payments demo_chain_inv) as (Hi & Hh & _); [vm_compute; split; [discriminate|reflexivity]|exact Ha|].
  split; [exact Hi|]. rewrite Hh. vm_compute. reflexivity.
Defined.

Lemma get_block_correct_witness : get_block demo_chain 0 = Some Block_genesis.
Proof.
  apply (get_block_correct demo_chain 0 Block_genesis demo_chain_inv).
  split; [apply list_elem_of_here|reflexivity].
Defined.

(** ** Failed commits *)

Definition failed_commit : Blockchain * result unit :=
  commit (H0 := broken_ops) demo_cfg payments_block demo_chain.

Lemma commit_failure_restores_witness :
  failed_commit.2 = Err (Internal "trie update failed at block 1: Internal error: disk full") ∧
  failed_commit.1 = demo_chain.
Proof.
  assert (Hf : failed_commit = (failed_commit.1,
    Err (Internal "trie update failed at block 1: Internal error: disk full")))
    by (vm_compute; reflexivity).
  split; [by rewrite Hf|].
  pose proof (commit_failure_restores (H0 := broken_ops) demo_cfg payments_block
    demo_chain failed_commit.1 _ ltac:(vm_compute; lia) Hf) as Hr.
  rewrite Hr. vm_compute. reflexivity.
Defined.

(** A full window, all of whose blocks are the genesis block. *)
Definition full_chain : Blockchain :=
  empty_chain <| bc_chain := replicate 1000 Block_genesis |>.
Definition executed : Blockchain * result unit :=
  execute_block (H0 := broken_ops) demo_cfg payments_block full_chain.
Definition failed_full : Blockchain * result unit :=
  commit (H0 := broken_ops) demo_cfg payments_block full_chain.

Lemma commit_failure_full_window_witness :
  is_ok failed_full.2 = false ∧ last (bc_chain failed_full.1) = Some payments_block ∧
  bc_accounts failed_full.1 = bc_accounts full_chain.
Proof.
  assert (Hf : failed_full = (failed_full.1,
    Err (Internal "trie update failed at block 1: Internal error: disk full")))
    by (vm_compute; reflexivity).
  assert (He : execute_block (H0 := broken_ops) demo_cfg payments_block full_chain = (executed.1, Ok tt))
    by (vm_compute; reflexivity).
  destruct (commit_failure_full_window (H0 := broken_ops) demo_cfg payments_block
    full_chain executed.1 failed_full.1 _ Block_genesis (replicate 999 Block_genesis)
    eq_refl eq_refl He Hf) as [Hc Ha].
  split; [by rewrite Hf|]. rewrite Hc. split; [apply last_snoc|exact Ha].
Defined.

(** ** Value *)

Lemma demo_account a acc :
  accounts (bc_accounts demo_chain) !! a = Some acc →
  acc = Account_new alice <| acct_balance := 1000000 |>.
Proof.
  change (accounts (bc_accounts demo_chain))
    with ({[alice := Account_new alice <| acct_balance := 1000000 |>]} : gmap string Account).
  by intros [_ <-]%lookup_singleton_Some.
Qed.
Lemma demo_accounts_wf : accounts_wf (bc_accounts demo_chain).
Proof.
  intros a acc Hl. apply demo_account in Hl as ->. vm_compute. by repeat split.
Qed.
Definition demo_pass1 : Blockchain * result unit :=
  pass1 (H0 := steady_ops) demo_cfg payments_block demo_chain.

Lemma plain_block_executes_witness :
  demo_pass1.2 = Ok tt ∧
  ∃ bc2, execute_block (H0 := steady_ops) demo_cfg payments_block demo_pass1.1
         = (bc2, Ok tt).
Proof.
  assert (Hp : pass1 (H0 := steady_ops) demo_cfg payments_block demo_chain = (demo_pass1.1, Ok tt))
    by (vm_compute; reflexivity).
  split; [vm_compute; reflexivity|].
  apply (plain_block_executes (H0 := steady_ops) demo_cfg payments_block demo_chain).
  - repeat constructor; vm_compute; discriminate.
  - exact demo_accounts_wf.
  - vm_compute. discriminate.
  - vm_compute. discriminate.
  - intros a. unfold get_nonce. destruct (accounts (bc_accounts demo_chain) !! a) as [acc|] eqn:Ha.
    + apply demo_account in Ha as ->. vm_compute. discriminate.
    + vm_compute. discriminate.
  - exact Hp.
Defined.

(** ** Hazards *)

(** The unsigned bundle reaches the mempool; two attempts later the chain is still at
    its genesis block. *)
Lemma bundle_blocks_chain_witness :
  ∃ bc1, add_to_mempool (λ _, Some 300) 1000 fake_system_tx demo_chain = (bc1, Ok tt) ∧
    let bc2 := attempts (H0 := steady_ops) demo_cfg bc1 [(1001, demo_validator); (1010, bob)] in
    bc_chain bc2 = [Block_genesis] ∧ bc_mempool bc2 = [fake_system_tx].
Proof.
  destruct (bundle_blocks_chain (H0 := steady_ops) demo_cfg (λ _, Some 300) 1000 fake_system_tx demo_chain 0 0 0 [] [])
    as (bc1 & Ea & _ & Ec & Hl).
  - vm_compute. reflexivity.
  - intros size [= <-]. vm_compute. discriminate.
  - reflexivity.
  - reflexivity.
  - reflexivity.
  - vm_compute. reflexivity.
  - vm_compute. lia.
  - vm_compute. reflexivity.
  - reflexivity.
  - lia.
  - ulia.
  - simpl. set_solver.
  - vm_compute. reflexivity.
  - vm_compute. reflexivity.
  - assert (Em : bc_mempool bc1 = [fake_system_tx]).
    { enough (Hx : bc_mempool (add_to_mempool (λ _, Some 300) 1000 fake_system_tx demo_chain).1 = [fake_system_tx])
        by (by rewrite Ea in Hx). vm_compute. reflexivity. }
    destruct (Hl ltac:(unfold candidates; rewrite Em; vm_compute; apply list_elem_of_here) [(1001, demo_validator); (1010, bob)])
      as [E1 E2].
    exists bc1. split; [exact Ea|]. cbv zeta. rewrite E1, E2, Ec, Em. done.
Defined.

Definition staked_chain : Blockchain := demo_chain <| bc_stake_registry := sample_registry |>.
Definition accusation : Transaction :=
  mkTx "accusation" bob PROTOCOL_TREASURY 0 20000 0 "submit_evidence" 2000000000 7119 "" "".

Lemma forged_evidence_accepted_witness :
  ∃ bc' val', apply_staking_op demo_cfg payments_block accusation
      (StakingOp_SubmitEvidence 1 "x" "y" "" "" "v1") staked_chain = (bc', Ok tt) ∧
    validators (bc_stake_registry bc') !! "v1" = Some val' ∧ v_is_tombstoned val' = true ∧
    "v1" ∉ active_set (bc_stake_registry bc').
Proof.
  destruct (validators sample_registry !! "v1") as [val|] eqn:Hv; [|by vm_compute in Hv].
  apply (forged_evidence_accepted demo_cfg payments_block accusation
    staked_chain "v1" val 1 "x" "y" "" "").
  - exact sample_registry_inv.
  - exact Hv.
  - vm_compute in Hv. by injection Hv as <-.
  - discriminate.
  - discriminate.
  - simpl. apply not_elem_of_nil.
  - reflexivity.
  - reflexivity.
Defined.

(** ** The bundle of a boundary block *)

(** [demo_validator] signed block 14399 and nothing since; the next block, 28799,
    is the last of its epoch. *)
Definition silent_liveness : LivenessTracker := record_signed demo_validator 14399 LivenessTracker_new.
Definition boundary_chain : Blockchain :=
  demo_chain <| bc_chain := [Block_genesis <| blk_index := 28798 |>] |>
    <| bc_stake_registry := StakeRegistry_new <| active_set := [demo_validator] |> |>
    <| bc_slashing := SlashingEngine_new <| liveness := silent_liveness |> |>.
Definition boundary_bundle : StakingOp :=
  StakingOp_JailEvidenceBundle 0 0 28799 [mkJailEvidence demo_validator 1 0 []] [demo_validator].
(** A JSON writer and reader for that one document. *)
Definition boundary_json : Json := {|
  json_string := @json_string toy_json;
  token_op_encode _ := None; token_op_decode _ := None;
  staking_op_encode op := if bool_decide (op = boundary_bundle)
    then Some (@json_string toy_json "jail_evidence_bundle") else None;
  staking_op_decode d := if bool_decide (d = @json_string toy_json "jail_evidence_bundle")
    then Some boundary_bundle else None;
|}.
Lemma boundary_json_laws : @JsonLaws boundary_json.
Proof.
  split; [exact (@json_string_prefix_free toy_json toy_json_laws)|].
  intros op d. simpl. case_bool_decide; [|done]. intros [= <-]. subst op. by rewrite bool_decide_eq_true_2.
Qed.

Section boundary.
#[local] Existing Instances boundary_json boundary_json_laws.

Definition jail_forks : Forks :=
  mkForks 0 0 U64_MAX 0 U64_MAX U64_MAX U64_MAX U64_MAX U64_MAX U64_MAX.
Definition jail_cfg : NodeConfig := mkConfig jail_forks false 0 2000000000.

Lemma honest_bundle_rejected_witness :
  ∃ block tx bc' e, create_block_voyager (cfg_forks jail_cfg) (cfg_now jail_cfg) boundary_chain demo_validator = Ok block ∧
    tx ∈ blk_transactions block ∧
    add_block_with_source (H0 := steady_ops) jail_cfg block SelfProduced boundary_chain = (bc', Err e) ∧
    bc_chain bc' = bc_chain boundary_chain.
Proof.
  destruct (create_block_voyager (cfg_forks jail_cfg) (cfg_now jail_cfg) boundary_chain demo_validator)
    as [block|] eqn:Hb; [|vm_compute in Hb; discriminate Hb].
  destruct (build_jail_evidence_system_tx (cfg_forks jail_cfg) boundary_chain 28799 (cfg_now jail_cfg))
    as [tx|] eqn:Hj; [|vm_compute in Hj; discriminate Hj].
  destruct (honest_bundle_rejected (H0 := steady_ops) jail_cfg boundary_chain block demo_validator SelfProduced tx
    Hb Hj) as (Hin & bc' & e & Ha & _ & Hc); [vm_compute; reflexivity|vm_compute; discriminate|].
  by exists block, tx, bc', e.
Defined.
End boundary.

Lemma preflight_agrees_witness :
  is_ok (validate_block (H0 := steady_ops) demo_cfg demo_chain payments_block) && justified demo_cfg demo_chain payments_block =
  is_ok (pass1 (H0 := steady_ops) demo_cfg payments_block demo_chain).2 &&
  negb (bundle_missing demo_cfg demo_chain 1 payments_block).
Proof. apply (preflight_agrees (H0 := steady_ops) demo_cfg demo_chain payments_block). reflexivity. Defined.

(** ** Snapshots and queries *)

#[local] Existing Instances toy_hex_decode toy_hex_laws toy_hex_decode_laws.

Lemma demo_exportable : exportable demo_chain.
Proof.
  split.
  - intros k a Ha. change (({[alice := Account_new alice <| acct_balance := 1000000 |>]} : gmap string Account) !! k = Some a) in Ha.
    apply lookup_singleton_Some in Ha as [<- <-]. split_and!; try done.
    + repeat (constructor; [lia|]). constructor.
    + apply Forall_replicate. lia.
  - intros k b Hb. exfalso. by apply (lookup_empty_Some k b).
  - intros k b Hb. exfalso. by apply (lookup_empty_Some k b).
  - intros k v Hv. exfalso. by apply (lookup_empty_Some k v).
Qed.
(** A node with other balances takes over [alice]'s. *)
Lemma export_import_roundtrip_witness :
  ∃ snap bc'' n, export_state 7 demo_chain = Ok snap ∧
    import_state 8 snap (demo_chain <| bc_accounts := AccountDB_new |>) = (bc'', Ok n) ∧
    get_balance (bc_accounts bc'') alice = 1000000.
Proof.
  destruct (export_state 7 demo_chain) as [snap|] eqn:Hs; [|discriminate Hs].
  destruct (export_import_roundtrip 7 8 demo_chain (demo_chain <| bc_accounts := AccountDB_new |>) snap
    demo_exportable Hs) as (bc'' & n & Hi & Ha & _).
  exists snap, bc'', n. split_and!; [done|done|]. unfold get_balance. rewrite Ha. vm_compute. reflexivity.
Defined.

(** The genesis transaction is found in the window. *)
Lemma get_transaction_correct_witness :
  ∃ id i, get_transaction (λ _, None) demo_chain id = Some i ∧ txid (ti_transaction i) = id.
Proof.
  set (id := default "" (txid <$> head (blk_transactions Block_genesis))).
  pose proof (get_transaction_correct (λ _, None) demo_chain id ltac:(done)) as Hc.
  destruct (get_transaction (λ _, None) demo_chain id) as [i|] eqn:E; [|vm_compute in E; discriminate E].
  exists id, i. split; [exact E|exact (proj1 Hc)].
Defined.
End executor_examples.

(** * The EVM at concrete inputs

    A small interpreter that moves the value of a call, or reverts, on which the
    theorems about EVM transactions are instantiated. *)

Section evm_examples.
#[local] Existing Instances unit_types leading_point bundle_json toy_sha toy_hex toy_tx_crypto
  canonical_order toy_crypto toy_hex_decode toy_hex_laws toy_hex_decode_laws.

Definition plain_account (balance nonce : Z) : EvmAccount :=
  mkEvmAccount (mkInfo balance nonce KECCAK_EMPTY None) ∅ true false.
Definition wei_of (ed : SentrixEvmDb) (a : Address) : Z := default 0 (ai_balance <$> basic ed a).
Definition nonce_of (ed : SentrixEvmDb) (a : Address) : Z := default 0 (ai_nonce <$> basic ed a).
(** Calls move their value, creations revert. *)
Definition toy_revm : Revm := {|
  transact _ ed tx :=
    match te_kind tx with
    | Create => inl (ExecRevert 21000 [] [], ∅)
    | Call target =>
        let from := te_caller tx in
        inl (ExecSuccess 21000 [] (Output_Call []),
          <[from := plain_account (wei_of ed from - te_value tx) (te_nonce tx + 1)]>
            {[target := plain_account (wei_of ed target + te_value tx) (nonce_of ed target)]})
    end;
  tx_env_complete _ := true;
  envelope_value b := Some (of_be_bytes b);
  u256_from_hex s := of_be_bytes <$> TrieState.hex_decode s;
  keccak256 b := to_be_bytes 32 (of_be_bytes b);
|}.
#[local] Existing Instance toy_revm.

(** ** Writing back *)

Definition addr_ab : Address := replicate 20 171.
Definition addr_cd : Address := replicate 20 205.
Definition ab_accounts : gmap string Account :=
  {[address_to_sentrix addr_ab := Account_new (address_to_sentrix addr_ab) <| acct_balance := 700 |>]}.
Definition evm_accounts : AccountDB := AccountDB_new <| accounts := ab_accounts |>.
Lemma ab_account k acc :
  accounts evm_accounts !! k = Some acc →
  k = address_to_sentrix addr_ab ∧ acc = Account_new (address_to_sentrix addr_ab) <| acct_balance := 700 |>.
Proof. change (accounts evm_accounts) with ab_accounts. unfold ab_accounts. by intros [<- <-]%lookup_singleton_Some. Qed.
(** It keeps half a sentri and sends the rest of three to a contract that it creates,
    writing a slot. *)
Definition code_hash_cd : bytes := replicate 32 7.
Definition half_state : EvmState :=
  <[addr_ab := mkEvmAccount (mkInfo 6975000000000 1 KECCAK_EMPTY None) {[5 := (0, 9)]} true false]>
    {[addr_cd := mkEvmAccount (mkInfo 25000000000 0 code_hash_cd (Some [96; 0])) ∅ true false]}.

Lemma valid_replicate x : 0 <= x < 256 → valid_address (replicate 20 x).
Proof. intros. split; [done|]. by apply Forall_replicate. Qed.
Lemma evm_accounts_canonical : canonical evm_accounts.
Proof.
  split.
  - intros k acc a [-> _]%ab_account Hp.
    rewrite parse_address_to_sentrix in Hp by (apply valid_replicate; lia). congruence.
  - intros k v a s x Hk. exfalso. by apply (lookup_empty_Some k v).
Qed.
Lemma half_state_valid : valid_state half_state.
Proof.
  unfold valid_state, half_state. intros a acc [[<- <-]|[_ [<- <-]%lookup_singleton_Some]]%lookup_insert_Some.
  - split; [apply valid_replicate; lia|]. intros s y x. cbn [ea_storage]. intros [<- [= <- <-]]%lookup_singleton_Some. split; (split; [lia|done]).
  - split; [apply valid_replicate; lia|]. intros s y x Hs. exfalso. by apply (lookup_empty_Some s (y, x)).
Qed.

Lemma half_state_written a acc code :
  half_state !! a = Some acc → written_code acc = Some code → hash_of acc = code_hash_cd ∧ code = [96; 0].
Proof.
  unfold half_state. intros [[_ <-]|[_ [_ <-]%lookup_singleton_Some]]%lookup_insert_Some; [done|]. by intros [= <-].
Qed.
Lemma half_state_codes : codes_ok half_state evm_accounts.
Proof.
  split.
  - by intros k acc [_ ->]%ab_account Hne.
  - intros a acc code Hl Hw. destruct (half_state_written a acc code Hl Hw) as [-> _].
    split; [by apply Forall_replicate|]. vm_compute. discriminate.
  - intros a acc code b acc' code' Hl Hl' Hw Hw' _. destruct (half_state_written _ _ _ Hl Hw) as [_ ->].
    by destruct (half_state_written _ _ _ Hl' Hw') as [_ ->].
  - intros a acc code code' _ _ Hk. exfalso. by apply (lookup_empty_Some (hex_encode (hash_of acc)) code').
Qed.

Lemma writeback_seen_by_next_witness :
  let db' := commit_state_to_account_db half_state evm_accounts in
  basic (from_account_db db') addr_ab = Some (mkInfo 6970000000000 1 KECCAK_EMPTY None) ∧
  storage (from_account_db db') addr_ab 5 = 9 ∧ code_at (from_account_db db') addr_cd = Some [96; 0].
Proof.
  destruct (writeback_seen_by_next half_state evm_accounts evm_accounts_canonical half_state_valid half_state_codes)
    as (_ & Hs).
  destruct (Hs addr_ab) as [Hb [_ Hst]]; [apply valid_replicate; lia|].
  destruct (Hs addr_cd) as [_ [Hc _]]; [apply valid_replicate; lia|].
  split; [rewrite Hb; vm_compute; reflexivity|].
  split; [rewrite Hst by (split; [lia|done]); vm_compute; reflexivity|]. rewrite Hc. vm_compute. reflexivity.
Defined.

Lemma writeback_value_witness :
  let db' := commit_state_to_account_db half_state evm_accounts in
  supply db' <= supply evm_accounts ∧ supply evm_accounts - 2 < supply db'.
Proof.
  destruct (writeback_value half_state evm_accounts evm_accounts_canonical) as [[H1 H2] H3].
  - intros a acc [_ ->]%ab_account. split; vm_compute; split; discriminate.
  - apply half_state_valid.
  - unfold storable, half_state. intros a acc [[_ <-]|[_ [_ <-]%lookup_singleton_Some]]%lookup_insert_Some; vm_compute; split; congruence.
  - split; [apply H3; vm_compute; discriminate|]. clear H2 H3. vm_compute in H1. vm_compute. 
    reflexivity.
Defined.

(** The upper-case spelling of an address holds 700. *)
Definition shouted : string := "0xABABABABABABABABABABABABABABABABABABABAB".
Definition shouted_accounts : gmap string Account := {[shouted := Account_new shouted <| acct_balance := 700 |>]}.
Definition aliased_accounts : AccountDB := AccountDB_new <| accounts := shouted_accounts |>.
Lemma alias_mints_witness :
  supply aliased_accounts = 700 ∧
  supply (commit_state_to_account_db {[addr_ab := plain_account 7000000000000 0]} aliased_accounts) = 1400.
Proof.
  split; [vm_compute; reflexivity|].
  destruct (alias_mints aliased_accounts addr_ab shouted (Account_new shouted <| acct_balance := 700 |>)
    (plain_account 7000000000000 0)) as [_ Hs];
    [apply valid_replicate; lia|reflexivity|vm_compute; discriminate|reflexivity|vm_compute; split; discriminate|
     |reflexivity..|].
  - intros k acc Hk _. change (shouted_accounts !! k = Some acc) in Hk. unfold shouted_accounts in Hk.
    by apply lookup_singleton_Some in Hk as [<- _].
  - rewrite Hs. vm_compute. reflexivity.
Defined.

(** ** A replay *)

Definition evm_ops : @ChainOps unit_types := {|
  apply_nft_token_op _ _ _ := λ n, (n, Ok tt);
  execute_evm_tx tx h hash i bc :=
    ((execute_evm_tx_in_block (mkEvmConfig 0 0 false) tx h hash i (bc_chain_id bc) (bc_accounts bc)).1, Ok tt);
  update_trie bc := (bc_accounts bc, bc_state_trie bc, Ok None);
  trie_root_hash _ := [];
  trie_set_root _ t := t;
|}.
(** A contract creation, which the interpreter reverts. *)
Definition create_tx : Transaction :=
  @Transaction_new bundle_json toy_sha toy_tx_crypto alice TOKEN_OP_ADDRESS 0 10001 0 "EVM:30000:00" 7119 alice alice 2000000000.
Lemma failed_evm_tx_replays_witness :
  ∃ bc' f', apply_tx (H0 := evm_ops) demo_cfg payments_block create_tx 0 demo_chain = (bc', Ok f') ∧
  is_ok (validate_tx (H0 := evm_ops) demo_cfg bc' create_tx fresh).2 = true ∧
  get_balance (bc_accounts bc') alice = 989999.
Proof.
  destruct (apply_tx (H0 := evm_ops) demo_cfg payments_block create_tx 0 demo_chain) as [bc' [f'|e]] eqn:Ha;
    [|vm_compute in Ha; discriminate Ha].
  destruct (failed_evm_tx_replays (H0 := evm_ops) demo_cfg (mkEvmConfig 0 0 false) payments_block demo_chain bc' create_tx 0 f')
    as [Hv Hb]; [intros ?; reflexivity|reflexivity|reflexivity|reflexivity|reflexivity
    |vm_compute; reflexivity|vm_compute; reflexivity|exact Ha|vm_compute; discriminate|].
  exists bc', f'. split; [reflexivity|]. split; [exact Hv|]. etransitivity; [exact Hb|]. vm_compute. reflexivity.
Defined.

(** ** Logs *)

Lemma bloom_complete_witness :
  let log := mkStoredLog addr_ab [replicate 32 7] [] 1 [] [] 0 0 in
  bloom_contains (compute_logs_bloom [log]) (replicate 32 7) = true.
Proof.
  intros log. assert (Hl : log ∈ [log]) by apply list_elem_of_here.
  assert (Hn : replicate 32 7 ∈ log_items log) by (apply list_elem_of_further, list_elem_of_here).
  exact (proj1 (bloom_complete [log] [] log (replicate 32 7) Hl Hn)).
Defined.
End evm_examples.
