(* ===== verification/LoadExamples.v ===== *)
(** * Storage and loading at concrete inputs

    A chain of two blocks whose state blob was saved at the first; then the state
    commands on it. *)

From S2P Require Import Prelude Bytes Keys Account Token Merkle Trie TrieTree TrieRefine TrieTheorems TrieGc.
From S2P Require Import TrieExamples Transaction TransactionProps Authority TrieState Nft Emission Staking Epoch.
From S2P Require Import Slashing BftMessages Block Chain Storage MempoolProps SignGuard Justify Executor ChainTrie.
From S2P Require Import ExecutorValue LoadChain StateExport Genesis Rpc StateCommands.

Section load_examples.
(** No bytes are JSON. *)
Definition no_json : JsonSlice :=
  {| slice_block _ := inr "expected value"; slice_u64 _ := inr "expected value"; wrong_json_type := "invalid type" |}.
#[local] Existing Instances ideal_blake toy_hex toy_hex_decode canonical_order bundle_json toy_tx_crypto
  toy_crypto no_json toy_sha.
#[local] Instance no_json_laws : JsonSliceLaws.
Proof. split. by eexists. Qed.

Definition load_cfg : NodeConfig :=
  mkConfig (mkForks 0 0 U64_MAX U64_MAX U64_MAX U64_MAX U64_MAX U64_MAX U64_MAX U64_MAX) false 0 2000000000.
Definition load_tc : TrieConfig := mkTrieConfig U64_MAX None U64_MAX None U64_MAX U64_MAX U64_MAX U64_MAX true.
Definition still_evm (tx : Transaction) (h : Z) (coinbase : string) (t : Z) (bc : Blockchain) : AccountDB * result unit :=
  (bc_accounts bc, Ok tt).

(** Genesis, and a block on it. *)
Definition first_block : Block := mkBlock 1 "g" [] 1 "" demo_validator "h1" None 0 None.
Definition saved_chain : Blockchain :=
  mkBlockchain chain_types [Block_genesis] AccountDB_new (AuthorityManager_new "") ContractRegistry_new NftRegistry_new
    [] ∅ ∅ TOTAL_PREMINE 7119 None StakeRegistry_new EpochManager_new SlashingEngine_new SelfProduced false false.
Definition no_tables : ChainDb := mkChainDb _ ∅ ∅ None None ∅.
(** The blob at genesis, then the first block alone. *)
Definition torn : NodeDb :=
  mkNodeDb (save_block first_block (save_blockchain saved_chain [Block_genesis] no_tables)) (mkTrieStorage ∅ ∅ ∅ ∅ ∅ true).

Lemma replay_skipped_witness :
  ∃ db' bc, load_blockchain load_cfg load_tc still_evm 1 torn = Some (db', Ok (Some bc)) ∧
    bc_height bc = 1 ∧ bc_total_minted bc = TOTAL_PREMINE ∧ load_blob_height (nd_chain db') = Some 1.
Proof.
  destruct (init_trie load_tc 1 (nd_trie torn) (blob_of saved_chain <| bc_chain := [Block_genesis; first_block] |>))
    as [[[bc1 st] r]|] eqn:E; [|by vm_compute in E].
  assert (Hr : r = Ok tt).
  { enough (Hx : (λ x : option (Blockchain * TrieStorage * result unit), match x with Some (_, _, r) => r | None => Err (NotFound "") end)
      (init_trie load_tc 1 (nd_trie torn) (blob_of saved_chain <| bc_chain := [Block_genesis; first_block] |>)) = Ok tt)
      by (by rewrite E in Hx).
    vm_compute. reflexivity. }
  subst r.
  destruct (replay_skipped load_cfg load_tc still_evm 1 torn (blob_of saved_chain) 0 1 (nd_chain torn)
    [Block_genesis; first_block] first_block bc1 st) as (db' & bc & El & _ & Eh & Eb & Em & _);
    [reflexivity|reflexivity|reflexivity|lia|vm_compute; reflexivity|reflexivity|reflexivity|exact E|
     reflexivity|by vm_compute|by vm_compute|].
  exists db', bc. split_and!; [exact El|exact Eh|exact Em|exact Eb].
Defined.

Lemma save_load_roundtrip_witness :
  load_block (save_blockchain saved_chain [Block_genesis; first_block] no_tables) 1 = Ok (Some first_block).
Proof.
  destruct (save_load_roundtrip saved_chain [Block_genesis; first_block] first_block no_tables)
    as (_ & _ & _ & Hb & _); [reflexivity|..].
  - intros b b' Hb Hb' E. rewrite !elem_of_cons, elem_of_nil in Hb. rewrite !elem_of_cons, elem_of_nil in Hb'.
    destruct Hb as [->|[->|[]]], Hb' as [->|[->|[]]]; try reflexivity; vm_compute in E; destruct E; discriminate.
  - intros b. rewrite !elem_of_cons, elem_of_nil. by intros [->|[->|[]]]; vm_compute.
  - apply (Hb first_block). rewrite !elem_of_cons. auto.
Defined.

Lemma durable_height_unreadable_witness :
  ∃ e, load_height (persist_block_durable first_block no_tables) = Err (StorageError e).
Proof. apply (durable_height_unreadable first_block no_tables). by vm_compute. Defined.

(** ** The value of a block *)

(** Before the reward fork, the last block of the first epoch: alice makes two payments
    with odd fees, 500 are released to her, and the treasury is set to 9000. *)
Definition epoch_cfg : NodeConfig :=
  mkConfig (mkForks 0 U64_MAX U64_MAX U64_MAX U64_MAX U64_MAX U64_MAX U64_MAX 0 U64_MAX) false 0 2000000000.
Definition epoch_tc : TrieConfig := mkTrieConfig U64_MAX None 28799 (Some 9000) U64_MAX U64_MAX U64_MAX U64_MAX true.
Definition epoch_chain : Blockchain :=
  saved_chain <| bc_accounts := rich_db |>
    <| bc_stake_registry := StakeRegistry_new <| unbonding_queue := {[100 := [mkUnbonding alice demo_validator 500 100]]} |> |>.
Definition epoch_coinbase : Transaction := new_coinbase demo_validator 1000 28799 2000000000.
Definition epoch_block : Block :=
  Block_new 28799 (blk_hash Block_genesis) [epoch_coinbase; payment 0 1000 10001; payment 1 1000 10001] demo_validator 2000000000.
Definition epoch_done : Blockchain :=
  (apply_block_pass2 (H0 := chain_ops epoch_tc still_evm) epoch_cfg epoch_block epoch_chain).1.

Definition epoch_mid : Blockchain :=
  (execute_block (H0 := chain_ops epoch_tc still_evm) epoch_cfg epoch_block epoch_chain).1.
Lemma epoch_flow_eq : epoch_flow epoch_cfg epoch_block epoch_mid = ([(alice, 500)], []).
Proof. vm_compute. reflexivity. Qed.

(** The supply gains 1000 + 500 + 9000 and loses 10001; the counter records 10002. *)
Lemma block_value_witness :
  supply (bc_accounts epoch_done) = supply (bc_accounts epoch_chain) + 1000 - 10001 + 500 + 9000 ∧
  total_burned (bc_accounts epoch_done) = 10002.
Proof.
  destruct (block_value epoch_cfg epoch_tc still_evm epoch_block epoch_chain epoch_done epoch_coinbase) as (mid & Hm & Hv).
  - repeat constructor; vm_compute; discriminate.
  - vm_compute. split; discriminate.
  - reflexivity.
  - vm_compute. reflexivity.
  - assert (Em : mid = epoch_mid) by (unfold epoch_mid; unfold whole_ops in Hm; by rewrite Hm).
    clear Hm. subst mid. rewrite epoch_flow_eq in Hv. destruct Hv as (Hs & Hb & _). rewrite Hs, Hb.
    split; vm_compute; reflexivity.
Defined.
End load_examples.

(** * Fingerprints and state commands at concrete inputs

    The report on the torn chain above, an import into a chain at its genesis
    block, and the fingerprints of two states. *)

Section state_examples.
#[local] Existing Instances ideal_blake toy_hex toy_hex_decode canonical_order bundle_json toy_tx_crypto
  toy_crypto no_json toy_sha toy_sha_laws.
Definition no_env (name : string) : option string := None.

(** What a command leaves of the checkpoint, and whether it succeeded. *)
Definition checkpoint_after {A} (r : option (NodeDb * (CmdError + A))) : option (option Z * bool) :=
  match r with
  | Some (db, inr _) => Some (load_blob_height (nd_chain db), true)
  | Some (db, inl _) => Some (load_blob_height (nd_chain db), false)
  | None => None
  end.

(** The report is documented as read-only.  Run on a chain whose last block is ahead of
    its state blob, it moves the checkpoint on disk past that block, which no later
    start replays. *)
Theorem preflight_moves_checkpoint :
  load_blob_height (nd_chain torn) = Some 0 ∧
  checkpoint_after (cmd_state_preflight load_cfg load_tc still_evm 1 no_env "2.2.42" true torn) = Some (Some 1, true).
Proof. split; vm_compute; reflexivity. Qed.

(** ** An import *)

Definition genesis_db : NodeDb :=
  mkNodeDb (save_blockchain saved_chain [Block_genesis] no_tables) (mkTrieStorage ∅ ∅ ∅ ∅ ∅ true).
Definition small_snapshot : StateSnapshot :=
  mkSnapshot SNAPSHOT_VERSION (mkMetadata 7119 5 "h5" 0 0)
    [mkAccountEntry demo_validator 700 3 "" ""] [] [] [] "" TOTAL_PREMINE 0.
Definition import_run := cmd_state_import load_cfg load_tc still_evm 1 no_env 0 (inr small_snapshot) true genesis_db.

Lemma import_accepted : ∃ db', import_run = Some (db', inr 1%nat).
Proof.
  assert (Hx : (λ r : option (NodeDb * (CmdError + nat)), match r with Some (_, inr n) => n | _ => 0%nat end) import_run = 1%nat)
    by (vm_compute; reflexivity).
  revert Hx. generalize import_run. intros [[db' [e|n]]|] Hx; simplify_eq/=; eauto.
Qed.
Lemma import_not_in_trie_witness :
  ∃ db' T st, import_run = Some (db', inr 1%nat) ∧
    init_trie load_tc 1 (nd_trie db') saved_chain = Some (saved_chain <| bc_state_trie := Some T |>, st, Ok tt) ∧
    get T (address_to_key demo_validator) = Ok None.
Proof.
  destruct import_accepted as [db' E].
  destruct (import_not_in_trie load_cfg load_tc still_evm 1 no_env 0 (inr small_snapshot) true genesis_db db' 1%nat saved_chain E)
    as (T & st & Hi & _ & Hg); [reflexivity|].
  exists db', T, st. split_and!; [exact E|exact Hi|apply Hg].
Defined.

(** ** Fingerprints *)

Definition funded (n : Z) : Blockchain := saved_chain <| bc_accounts := put_account demo_validator
  (mkAccount demo_validator n 0 (replicate 32 0) (replicate 32 0)) AccountDB_new |>.
Definition acc_walk (n : Z) : bytes := walk enc_account (accounts (bc_accounts (funded n))).

Lemma funded_ok n : in_u64 n → map_Forall (λ k v, account_ok (k, v)) (accounts (bc_accounts (funded n))).
Proof.
  intros Hn k v Hk. change (accounts (bc_accounts (funded n))) with
    (<[demo_validator := mkAccount demo_validator n 0 (replicate 32 0) (replicate 32 0)]> (∅ : gmap string Account)) in Hk.
  apply lookup_insert_Some in Hk as [[<- <-]|[_ Hk]]; [|by rewrite lookup_empty in Hk].
  split_and!; [reflexivity|exact Hn|vm_compute; split; discriminate|reflexivity..].
Qed.
Lemma same_collision_free (x : bytes) : collision_free sha256_bytes [x; x].
Proof. intros a b Ha Hb _. set_solver. Qed.
Lemma components_identify_witness :
  shown <$> accounts (bc_accounts (funded 7)) = shown <$> accounts (bc_accounts (funded 7)).
Proof.
  assert (Hf : map_Forall (λ k v, account_ok (k, v)) (accounts (bc_accounts (funded 7))))
    by (apply funded_ok; vm_compute; split; discriminate).
  assert (He : ∀ ok : string * bytes → Prop, map_Forall (λ k v, ok (k, v)) (∅ : gmap string bytes)) by (intros ok; apply map_Forall_empty).
  destruct (components_identify canonical_order canonical_order (funded 7) (funded 7) Hf Hf (He _) (He _) (He _) (He _)
    (same_collision_free _) (same_collision_free _) (same_collision_free _) eq_refl) as (Ha & _).
  exact Ha.
Defined.
Lemma divergence_located_witness :
  state_components (funded 7) ≠ state_components (funded 8).
Proof.
  apply (divergence_located canonical_order canonical_order (funded 7) (funded 8)).
  - intros a b Ha Hb. rewrite !elem_of_cons, elem_of_nil in Ha, Hb.
    destruct Ha as [->|[->|[]]], Hb as [->|[->|[]]]; try reflexivity; intros E; vm_compute in E; discriminate E.
  - apply same_collision_free.
  - apply same_collision_free.
  - intros E. vm_compute in E. discriminate E.
Defined.
End state_examples.
