(* ===== verification/RpcExamples.v ===== *)
(** * JSON-RPC at concrete inputs

    An envelope decoder that reads the bytes as the value, and a transaction reader
    that knows one object, on which the theorems about requests are instantiated; then
    the sessions of a subscriber. *)

From S2P Require Import Prelude Bytes Keys Account Transaction TransactionProps Authority Emission Staking Epoch.
From S2P Require Import Slashing Token Merkle BftMessages Block TrieState Chain MempoolProps Storage Queries SignGuard.
From S2P Require Import Justify Executor Network Evm EvmProps EvmLogs EvmExec Rpc RpcEth RpcSentrix RpcProps.
From S2P Require Import ExecutorExamples LoadExamples ExecutorProps Subscriptions.

Section rpc_examples.
#[local] Existing Instances unit_types leading_point bundle_json toy_sha toy_hex toy_tx_crypto
  canonical_order toy_hex_decode toy_hex_laws toy_hex_decode_laws toy_revm no_json.

Definition toy_alloy : Alloy := {|
  decode_2718 raw := inl (mkEnvelope 0 21000 (of_be_bytes raw) [1; 2] (Call addr_cd) (Some 7119) true 5 6);
  recover_signer _ := inl addr_ab;
  default_tx_env := mkTxEnv ADDRESS_ZERO Create [] 0 0 0 0 None;
  debug_str s := s;
  value_text _ := "";
|}.
#[local] Existing Instance toy_alloy.
#[local] Instance toy_alloy_laws : AlloyLaws.
Proof. split. by intros raw env [= <-]. Qed.
Definition node_of (bc : Blockchain) (tb : EvmTables) : RpcNode := mkRpcNode _ bc (Some (mkChainDb _ ∅ ∅ None None ∅, tb)) 0.
Definition no_logs : EvmTables := mkEvmTables ∅ ∅ ∅.

(** ** A forged sender *)

(** A call in the name of alice. *)
Definition named_tx : Transaction :=
  mkTx "01" alice "0x0000000000000000000000000000000000000b0b" 0 10000 0 "EVM:21000:" 1000 7119 "" "".
Definition toy_serde : Serde := {|
  transaction_from_value _ := inl (named_tx <| tx_signature := "05" |>);
  request_from_value _ := None;
  value_from_slice _ := None;
  hex_error s := s;
  pkg_version := "2";
|}.
#[local] Existing Instance toy_serde.

Lemma evm_sender_unauthenticated_witness :
  (∃ answer, (sentrix_send_transaction (λ _, None) 1000 (VArr [VNull]) (node_of empty_chain no_logs)).2 = inl answer) ∧
  ∃ env, evm_tx_env (mkEvmConfig 0 0 true) rich_db (named_tx <| tx_signature := "05" |>) 1 = Some env ∧
    te_caller env = default ADDRESS_ZERO (parse_sentrix_address alice) ∧ te_value env = 5.
Proof.
  destruct (evm_sender_unauthenticated (λ _, None) 1000 (mkEvmConfig 0 0 true) (VArr [VNull]) named_tx "05" [5] 5
    (node_of empty_chain no_logs)) as (Ha & _ & Hx);
    [reflexivity|vm_compute; reflexivity|vm_compute; reflexivity|vm_compute; reflexivity|discriminate
    |vm_compute; reflexivity|vm_compute; reflexivity|vm_compute; reflexivity|].
  split; [exact Ha|].
  destruct (evm_tx_env (mkEvmConfig 0 0 true) rich_db (named_tx <| tx_signature := "05" |>) 1) as [env|] eqn:E;
    [|vm_compute in E; discriminate E].
  exists env. split; [reflexivity|]. exact (Hx rich_db 1 env E).
Defined.

(** ** Envelopes *)

(** Three sentri in wei, and two to the 64 and five sentri. *)
Definition three : bytes := to_be_bytes 8 30000000000.
Definition too_much : bytes := to_be_bytes 16 ((2 ^ 64 + 5) * 10000000000).
Definition sent (raw : bytes) : Value := VArr [VStr (hex_encode raw)].
Definition three_tx : Transaction :=
  envelope_tx 1000 three (mkEnvelope 0 21000 30000000000 [1; 2] (Call addr_cd) (Some 7119) true 5 6) addr_ab 3.
Definition three_info : TxInfo := mkTxInfo three_tx 1 "h1" 1000.

Lemma sent_envelope_shown_witness :
  field "value" (tx_to_evm_json (node_of empty_chain no_logs) (txid three_tx) three_info) = VStr (to_hex_u128 30000000000) ∧
  field "gas" (tx_to_evm_json (node_of empty_chain no_logs) (txid three_tx) three_info) = VStr "0x5208".
Proof.
  destruct (sent_envelope_shown 1000 (mkEvmConfig 0 0 true) (sent three) three_tx (node_of empty_chain no_logs) three_info rich_db 1 default_tx_env)
    as (raw & env & sender & Er & Ee & _ & _ & Hv & _ & Hg & _).
  - vm_compute. reflexivity.
  - intros raw Hr. vm_compute in Hr. injection Hr as <-. repeat (constructor; [lia|]). constructor.
  - reflexivity.
  - vm_compute in Er. injection Er as <-. cbn in Ee. injection Ee as <-. split.
    + destruct Hv as (_ & Hv & _); [vm_compute; discriminate|vm_compute; discriminate|]. exact Hv.
    + rewrite Hg by (cbn; ulia). vm_compute. reflexivity.
Defined.

Lemma raw_value_wraps_witness : ∃ tx, raw_transaction 1000 (sent too_much) = inl tx ∧ tx_amount tx = 5.
Proof.
  destruct (raw_value_wraps 1000 (sent too_much) too_much
    (mkEnvelope 0 21000 (of_be_bytes too_much) [1; 2] (Call addr_cd) (Some 7119) true 5 6) addr_ab (2 ^ 64 + 5))
    as (tx & Et & Ha);
    [vm_compute; reflexivity|reflexivity|reflexivity|vm_compute; reflexivity|reflexivity|vm_compute; discriminate|].
  exists tx. split; [exact Et|]. rewrite Ha. reflexivity.
Defined.

(** ** Receipts *)

Definition id_a : string := Nat.iter 32 (String.append "aa") "".
Definition id_b : string := Nat.iter 32 (String.append "bb") "".
Definition pay_tx : Transaction := mkTx id_b alice "0x0000000000000000000000000000000000000b0b" 5 10000 0 "" 1000 7119 "" "".
Definition reward_tx : Transaction := mkTx id_a "COINBASE" alice 100 0 0 "" 1000 7119 "" "".
Definition paid_block : Block := mkBlock 1 "g" [reward_tx; pay_tx] 1000 "" demo_validator "h1" None 0 None.
Definition paid_chain : Blockchain := empty_chain <| bc_chain := [paid_block] |>.
Definition paid_node : RpcNode := node_of paid_chain no_logs.

Lemma receipts_agree_witness :
  ∃ rs r, eth_get_block_receipts (VArr [VStr "latest"]) paid_node = inl (VArr rs) ∧ rs !! 1%nat = Some r ∧
    eth_get_transaction_receipt (VArr [VStr id_b]) paid_node = inl r.
Proof.
  apply (receipts_agree (VArr [VStr "latest"]) paid_block pay_tx 1 paid_node);
    [vm_compute; reflexivity|vm_compute; reflexivity|vm_compute; reflexivity|reflexivity| |vm_compute; reflexivity
    |reflexivity|split_and!; [discriminate|discriminate|reflexivity]|split; reflexivity].
  cbn. repeat constructor; rewrite ?elem_of_cons, ?elem_of_nil; [|tauto]. intros [E|[]]. vm_compute in E. discriminate E.
Defined.
(** The sender of a reward is the zero address in the receipt of the transaction and the
    word COINBASE in the receipts of the block. *)
Lemma coinbase_receipts_differ :
  ∃ r rs r', eth_get_transaction_receipt (VArr [VStr id_a]) paid_node = inl r ∧
    eth_get_block_receipts (VArr [VStr "latest"]) paid_node = inl (VArr rs) ∧ rs !! 0%nat = Some r' ∧
    field "from" r = VStr "0x0000000000000000000000000000000000000000" ∧ field "from" r' = VStr "COINBASE".
Proof. eexists _, _, _. split; [vm_compute; reflexivity|]. split; [vm_compute; reflexivity|]. split; [reflexivity|]. split; reflexivity. Qed.
(** The tag of the pending block counts transactions but gives no block. *)
Lemma pending_block_refused :
  eth_get_block_transaction_count_by_number (VArr [VStr "pending"]) paid_node = inl (VStr "0x2") ∧
  eth_get_block_by_number (VArr [VStr "pending"]) paid_node = inr (-32602, "invalid block number: pending").
Proof. split; vm_compute; reflexivity. Qed.

(** ** Logs *)

Definition a_log : StoredLog := mkStoredLog addr_ab [] [] 1 [] [] 0 0.
Definition one_log : gmap bytes (option StoredLog) := {[ log_key 1 0 0 := Some a_log ]}.
Definition log_tables : EvmTables := mkEvmTables one_log ∅ ∅.
Lemma log_tables_wf : tables_wf log_tables.
Proof.
  split.
  - intros k v. cbn [log_tables tb_logs]. unfold one_log. intros [<- _]%lookup_singleton_Some.
    exists 1, 0, 0. split; [|reflexivity]. unfold key_range. cbn. ulia.
  - intros h bloom Hb. exfalso. by apply (lookup_empty_Some (to_be_bytes 8 h) bloom).
Qed.
Lemma get_logs_complete_witness :
  eth_get_logs (VArr [VObj [("fromBlock", VStr "0x0"); ("toBlock", VStr "0x5")]]) (node_of paid_chain log_tables)
  = inl (VArr [to_rpc_json a_log]).
Proof.
  rewrite (get_logs_complete (VArr [VObj [("fromBlock", VStr "0x0"); ("toBlock", VStr "0x5")]])
    [("fromBlock", VStr "0x0"); ("toBlock", VStr "0x5")] 0 5 log_tables (mkChainDb _ ∅ ∅ None None ∅) (node_of paid_chain log_tables));
    [vm_compute; reflexivity|reflexivity|reflexivity|apply log_tables_wf|cbn; ulia|reflexivity|reflexivity|lia|lia].
Defined.

(** ** Storage, rewards and stake *)

Definition stored : gmap string (list Z) := {[ storage_key alice (slot_hex 0) := to_be_bytes 32 7 ]}.
Definition storing_node : RpcNode := node_of (empty_chain <| bc_accounts := rich_db <| contract_storage := stored |> |>) no_logs.
Lemma short_slot_reads_zero_witness :
  eth_get_storage_at (VArr [VStr alice; VStr "0x0"]) storing_node = inl (VStr ZERO_HASH_HEX) ∧
  eth_get_storage_at (VArr [VStr alice; VStr (slot_hex 0)]) storing_node = inl (VStr ("0x" +:+ hex_encode (to_be_bytes 32 7))).
Proof.
  split; [|vm_compute; reflexivity].
  apply (short_slot_reads_zero (VArr [VStr alice; VStr "0x0"]) storing_node alice 0).
  - intros key [v Hk]. change (stored !! key = Some v) in Hk. unfold stored in Hk.
    apply lookup_singleton_Some in Hk as [<- _]. exists alice, (slot_hex 0). split; [reflexivity|]. split; [|vm_compute; reflexivity].
    unfold no_colon. refine (bool_decide_eq_false_1 _ _). vm_compute. reflexivity.
  - vm_compute. reflexivity.
  - unfold no_colon. refine (bool_decide_eq_false_1 _ _). vm_compute. reflexivity.
  - reflexivity.
  - lia.
  - reflexivity.
Defined.

(** Alice is owed 500 and delegates to nobody. *)
Lemma rewards_report_misses_credit_witness :
  let bc := empty_chain <| bc_stake_registry := StakeRegistry_new <| delegator_rewards := {[ alice := 500 ]} |> |> in
  peek_delegator_rewards (bc_stake_registry bc) alice = 500 ∧
  ∃ r, sentrix_get_staking_rewards (VArr [VStr alice]) (mkRpcNode _ bc None 0) = inl r ∧ field "pending_claimable" r = VStr "0x0".
Proof.
  destruct (rewards_report_misses_credit empty_chain None 0 alice {[ alice := 500 ]}) as [Hp Hr].
  - intros d v Hd. exfalso. change (get_delegations (bc_stake_registry empty_chain) (to_lowercase alice)) with (@nil DelegationEntry) in Hd.
    by apply elem_of_nil in Hd.
  - split; [vm_compute; reflexivity|exact Hr].
Defined.

Definition staker : ValidatorStake := mkValidator alice 300 0 1000 2000 false 0 false 0 0 0 0 0.
Definition staked_node : RpcNode :=
  node_of (empty_chain <| bc_voyager_activated := true |>
    <| bc_stake_registry := StakeRegistry_new <| validators := {[ alice := staker ]} |> <| active_set := [alice] |> |>) no_logs.
Lemma active_stake_unit_witness :
  ∃ r row, sentrix_get_validator_set (mkForks 0 0 0 0 0 0 0 0 0 0) staked_node = inl r ∧ field "validators" r = VArr [row] ∧
    field "total_active_stake" r = VStr "0x12c" ∧ field "stake" row = VStr "0x2ba7def3000".
Proof.
  destruct (active_stake_unit (mkForks 0 0 0 0 0 0 0 0 0 0) staked_node staker) as (r & row & Hr & Hv & Ht & Hs);
    [reflexivity|reflexivity|reflexivity|cbn; ulia|].
  exists r, row. split; [exact Hr|]. split; [exact Hv|]. split; [rewrite Ht|rewrite Hs]; vm_compute; reflexivity.
Defined.

Lemma fee_history_bounded_witness :
  ∃ r base, eth_fee_history (VArr [VStr "0xffffff"]) paid_node = inl r ∧ field "baseFeePerGas" r = VArr base ∧ (length base <= 1025)%nat.
Proof.
  destruct (fee_history_bounded (VArr [VStr "0xffffff"]) paid_node) as (r & base & ra & re & Hr & Hb & _ & _ & Hl & _); [cbn; ulia|].
  exists r, base. split; [exact Hr|]. split; [exact Hb|exact Hl].
Defined.
Lemma account_reads_are_latest_witness :
  resolve_block_tag (Some (VStr "0x1")) 1 = inl 1 ∧
  is_Some (match eth_get_balance (VArr [VStr alice; VStr "0x1"]) paid_node with inl v => Some v | inr _ => None end).
Proof.
  destruct (eth_get_balance (VArr [VStr alice; VStr "0x1"]) paid_node) as [v|e] eqn:E; [|vm_compute in E; discriminate E].
  split; [|by eexists].
  destruct (account_reads_are_latest (VArr [VStr alice; VStr "0x1"]) paid_node v) as [Hr _].
  destruct (Hr (or_introl E)) as [Hx|[Hx|[Hx|Hx]]]; [discriminate Hx|discriminate Hx|discriminate Hx|exact Hx].
Defined.
Lemma finalized_height_spec_witness :
  Forall (λ b, blk_justification b = None) (bc_chain paid_chain).
Proof.
  destruct (finalized_height_spec paid_chain paid_block 1 "h1") as [(before & b & after & _ & Hj & Eh & _)|(_ & _ & Hn)]; [reflexivity| |exact Hn].
  repeat (constructor; [reflexivity|]). constructor.
Defined.
Lemma to_hex_roundtrip_witness : parse_hex_u64 (VStr (to_hex 1000)) = Some 1000.
Proof. apply (to_hex_roundtrip 1000 5). ulia. Defined.
End rpc_examples.

(** * Subscriptions at concrete inputs *)

Section subscription_examples.
#[local] Existing Instances unit_types leading_point bundle_json toy_sha toy_hex toy_tx_crypto toy_crypto
  canonical_order toy_hex_decode toy_hex_laws toy_hex_decode_laws toy_revm no_json toy_alloy toy_serde.

Lemma toy_hex_case s : TrieState.hex_decode (to_lowercase s) = TrieState.hex_decode s.
Proof.
  change (toy_decode (to_lowercase s) = toy_decode s).
  assert (Hv : ∀ a, TrieState.hex_value (lower_ascii a) = TrieState.hex_value a).
  { intros [b0 b1 b2 b3 b4 b5 b6 b7]. destruct b0, b1, b2, b3, b4, b5, b6, b7; reflexivity. }
  enough (H : ∀ n s, (String.length s <= n)%nat → toy_decode (to_lowercase s) = toy_decode s) by (by apply (H (String.length s))).
  clear s. induction n as [|n IH]; intros s Hs; destruct s as [|a [|b s]]; try done; [simpl in Hs; lia|].
  cbn [to_lowercase toy_decode]. rewrite !Hv, IH; [done|]. simpl in Hs. lia.
Qed.
Lemma log_filters_agree_witness :
  let f := VObj [("address", VStr ("0x" +:+ hex_encode addr_ab))] in
  filter_matches (filter_from_params (Some f)) (from_log_data (mkLogData 1 "h" "t" 0 0 addr_ab [] [])) = true.
Proof.
  intros f. rewrite (log_filters_agree toy_hex_case f (mkLogData 1 "h" "t" 0 0 addr_ab [] []) a_log).
  - vm_compute. reflexivity.
  - apply valid_replicate. lia.
  - reflexivity.
  - constructor.
  - reflexivity.
  - reflexivity.
Defined.

(** Two subscriptions, one message, and the end of the first. *)
Definition session : list WsInput :=
  [WsText (Some (subscribe_to "newHeads")); WsText (Some (subscribe_to "sentrix_jail"));
   WsTask (sub_id_text 1) (Got (PValue (VNum 5))) true; WsTask (sub_id_text 2) (Lagged 3) true;
   WsText (Some (mkRequest "2.0" "eth_unsubscribe" (Some (VArr [VStr (sub_id_text 1)])) None))].
Lemma ws_run_inv_witness :
  match (ws_run (mkForks 0 0 0 0 0 0 0 0 0 0) (λ _, None) 1000 session (Some WsConn_new, paid_node)).1.1 with
  | Some c => ws_inv c ∧ size (wc_subs c) = 1%nat
  | None => False
  end.
Proof.
  pose proof (ws_run_inv (mkForks 0 0 0 0 0 0 0 0 0 0) (λ _, None) 1000 session paid_node) as Hr.
  destruct (ws_run (mkForks 0 0 0 0 0 0 0 0 0 0) (λ _, None) 1000 session (Some WsConn_new, paid_node)) as [[c n] out] eqn:E.
  destruct Hr as [Hc _]; [vm_compute; reflexivity|]. vm_compute in E. injection E as <- _ _.
  split; [exact (proj1 Hc)|vm_compute; reflexivity].
Defined.

(** The trie refuses the block of two payments. *)
Definition before_trie : Blockchain * result unit :=
  (pass1 (H0 := broken_ops) demo_cfg payments_block ;; execute_block (H0 := broken_ops) demo_cfg payments_block) demo_chain.
Lemma rejected_block_announced_witness :
  emit_new_head payments_block ∈ head_events (H11 := broken_ops) demo_cfg payments_block demo_chain ∧
  is_ok (add_block_impl (H0 := broken_ops) demo_cfg payments_block demo_chain).2 = false.
Proof.
  destruct (finish_block (H0 := broken_ops) demo_cfg payments_block before_trie.1) as [bc2 [[]|e]] eqn:Ef;
    [vm_compute in Ef; discriminate Ef|].
  destruct (rejected_block_announced (H6 := broken_ops) demo_cfg payments_block demo_chain before_trie.1 bc2 e) as [He Ha].
  - vm_compute. reflexivity.
  - exact Ef.
  - split; [exact He|]. rewrite Ha. reflexivity.
Defined.
Lemma announced_before_stamping_witness :
  ∃ k b', bc_chain (add_block_impl (H0 := steady_ops) demo_cfg payments_block demo_chain).1 = k ++ [b'] ∧ stamped payments_block b'.
Proof.
  destruct (add_block_impl (H0 := steady_ops) demo_cfg payments_block demo_chain) as [bc' [[]|e]] eqn:E; [|vm_compute in E; discriminate E].
  exact (proj2 (announced_before_stamping (H6 := steady_ops) demo_cfg payments_block demo_chain bc' E)).
Defined.
End subscription_examples.
