(* ===== verification/NetExamples.v ===== *)
(** * The network and the validator loop at concrete inputs *)

From S2P Require Import Prelude Bytes Keys Account Staking StakingProps StakingTheorems StakingSets Epoch Slashing.
From S2P Require Import SlashingProps Token Merkle Transaction TransactionProps Authority Emission BftMessages Block.
From S2P Require Import Chain Storage Wire RateLimit MempoolProps SignGuard Justify Executor Network ExecutorProps.
From S2P Require Import NetworkProps ExecutorExamples LoadExamples BftEngine BftProps BftTheorems BftDriver Preflight.
From S2P Require Import ValidatorLoop ValidatorProps NodeTasks.

Section net_examples.
(** ** Connections *)

Definition late_connections : list LimiterEvent :=
  repeat (LeConnect "10.0.0.1" (60 * SECOND)) 19 ++ repeat (LeConnect "10.0.0.1" (60 * SECOND + 1)) 21.
Lemma connections_bounded_witness :
  accepted "10.0.0.1" (limiter_run IpRateLimiter_new [LeConnect "10.0.0.1" 0]) late_connections <= 39.
Proof.
  apply (connections_bounded "10.0.0.1" [LeConnect "10.0.0.1" 0] late_connections (60 * SECOND) (60 * SECOND + 1)).
  - by vm_compute.
  - unfold late_connections. apply Forall_app. split; repeat (constructor; [by vm_compute|]); constructor.
Defined.

(** ** Advertisements *)

(** A key is its own public key, and a signature starts with it. *)
Definition long_address (k : Z) : string := "0x" +:+ decimal_digits 40 k.
Definition address_crypto : Crypto := {|
  SecretKey := Z; PublicKey := Z; sha256 := λ x, x; public_key := λ k, k;
  sign_recoverable := λ _ k, (k :: replicate 63 0, 0);
  recover_ecdsa := λ _ sig _, head sig; derive_address := long_address |}.
(** Two advertisements of one validator, signed at times that end in 2. *)
Definition advert_at (sequence timestamp : Z) : MultiaddrAdvertisement :=
  advert_sign (H := address_crypto) 7
    (mkAdvert (long_address 7) ["/ip4/198.51.100.10/tcp/30303"] sequence timestamp 7119 []).

Lemma advert_in_range n t : 0 <= n < 128 → 0 <= t < 2 ^ 63 → advert_ok (advert_at n t).
Proof.
  intros Hn Ht. assert (Hs : ∀ x, (String.length x <=? 100)%nat = true → short x).
  { intros x Hx%Nat.leb_le. unfold short. ulia. }
  unfold advert_ok, advert_at, advert_sign. simpl. split_and!; [ulia|by apply Hs|constructor; [by apply Hs|constructor]|ulia|ulia|ulia].
Qed.
Definition asciib (b : bytes) : bool := forallb (λ x, x <? 128) b.
Lemma advert_ascii a : asciib (vote_tail a) = true → ascii (vote_tail a).
Proof.
  unfold asciib, ascii. rewrite forallb_forall, Forall_forall. intros Hb x Hx. apply Z.ltb_lt, Hb, list_elem_of_In, Hx.
Qed.

Lemma adverts_are_votes_witness :
  let a := advert_at 1 1778388994 in let b := advert_at 2 1778389250 in
  pv_verify_sig (H := address_crypto) (as_prevote a) = true ∧ pv_verify_sig (H := address_crypto) (as_prevote b) = true ∧
  pv_height (as_prevote a) = pv_height (as_prevote b) ∧ pv_round (as_prevote a) = pv_round (as_prevote b) ∧
  pv_block_hash (as_prevote a) ≠ pv_block_hash (as_prevote b).
Proof.
  destruct (adverts_are_votes (H := address_crypto) (advert_at 1 1778388994) (advert_at 2 1778389250))
    as (_ & _ & Ha & Hb & _ & Hh & Hr & Hne);
    [vm_compute; reflexivity|vm_compute; reflexivity|apply advert_in_range; lia|apply advert_in_range; lia
    |reflexivity|reflexivity|done|reflexivity|reflexivity|apply advert_ascii; vm_compute; reflexivity|apply advert_ascii; vm_compute; reflexivity
    |vm_compute; reflexivity|vm_compute; reflexivity|].
  split_and!; assumption.
Defined.

(** ** Peers *)

(** Fifty verified peers, and a handshake that was sent before the last of them. *)
Definition full_house : gset string := list_to_set ((λ i : nat, "peer" +:+ pretty i) <$> seq 0 50).
Definition busy_swarm : Swarm := Swarm_new <| sw_verified_peers := full_house |> <| sw_pending_handshakes := {[ 7 := "late" ]} |>.

Section peers.
#[local] Existing Instances unit_types bundle_json toy_sha toy_tx_crypto toy_hex canonical_order toy_crypto no_json leading_point.
#[local] Instance steady : ChainOps := steady_ops.

Lemma outbound_ignores_limit_witness :
  size (sw_verified_peers (swarm_step 7119 None (InResponse "late" 7 (ResHandshake "h" 0 1 7119)) demo_chain busy_swarm).1) = 51%nat.
Proof.
  assert (E : size (sw_verified_peers busy_swarm) = 50%nat) by (vm_compute; reflexivity).
  pose proof (outbound_ignores_limit 7119 None busy_swarm demo_chain [(7, "late")] "h" 0 1) as Ho.
  rewrite E in Ho. apply Ho.
  - apply NoDup_singleton.
  - apply NoDup_singleton.
  - intros id p Hin. apply list_elem_of_singleton in Hin as [= -> ->]. split; [reflexivity|].
    refine (bool_decide_eq_false_1 _ _). vm_compute. reflexivity.
Defined.

(** ** A batch *)

(** Genesis again, then a new block. *)
Definition batch : list Block := [Block_genesis; payments_block].
Lemma batch_received : none_refused demo_cfg batch demo_chain.
Proof.
  assert (Eg : receive_block demo_cfg Block_genesis demo_chain = (demo_chain, [], Stale)) by reflexivity.
  assert (Hd : match (receive_block demo_cfg payments_block demo_chain).2 with Applied => true | _ => false end = true)
    by (vm_compute; reflexivity).
  unfold batch. cbn [none_refused]. rewrite Eg. cbn [fst snd]. split; [discriminate|]. split; [|exact I].
  intros Hr. rewrite Hr in Hd. discriminate Hd.
Qed.
Lemma sync_batch_correct_witness :
  let '(bc', evs) := sync_blocks demo_cfg batch demo_chain in
  1 <= bc_height bc' ∧ sync_blocks demo_cfg batch bc' = (bc', []).
Proof.
  pose proof (sync_batch_correct demo_cfg batch demo_chain demo_chain_inv) as Hs.
  destruct (sync_blocks demo_cfg batch demo_chain) as [bc' evs].
  destruct Hs as (_ & _ & _ & Hf & Hi).
  - by vm_compute.
  - repeat (constructor; [by vm_compute|]). constructor.
  - exact batch_received.
  - split; [|exact Hi]. apply Forall_cons in Hf as [_ [Hp _]%Forall_cons]. exact Hp.
Defined.
End peers.
End net_examples.

(** * The validator loop at concrete inputs *)

Section loop_examples.
#[local] Existing Instances unit_types leading_point bundle_json toy_sha toy_hex toy_tx_crypto
  canonical_order toy_crypto no_json.

(** A node that holds the block of height 1 and waits for the precommit of the one
    validator whose stake decides. *)
Definition toy_encode (_ : Block) : bytes := [].
Definition toy_decode (_ : bytes) : option Block := Some Block_genesis.
Definition toy_key : SecretKey := 7.
Definition empty_tables : ChainDb := mkChainDb _ ∅ ∅ None None ∅.
Definition waiting_node : Node := mkNode unit_types (mkGuardWorld None None) (Some payments_block) None 0 None None 0
  staked_chain empty_tables [].
Definition waiting_engine : BftEngine :=
  enter_phase 0 PhasePrecommit (BftEngine_new 0 1 demo_validator (stake_of waiting_node "v1")).
Definition last_precommit : Precommit := mkPrecommit 1 0 (Some (blk_hash payments_block)) "v1" [1].
Definition stray_proposal : Proposal := mkProposal 1 0 "anything" [] "mallory" [] None.
Definition calm : Turn := mkTurn 0 true true true true true.

Definition counted : BftEngine * BftAction :=
  on_precommit_weighted last_precommit (stake_of waiting_node (pc_validator last_precommit)) waiting_engine.
Definition certificate : BlockJustification :=
  match counted.2 with FinalizeBlock _ _ _ j => j | _ => BlockJustification_new 0 0 "" end.
Definition after_loop : Blockchain :=
  state_of (add_block (H0 := steady_ops) demo_cfg (with_certificate 0 certificate payments_block) staked_chain).

Lemma proposal_displaces_block_witness :
  bc_height (nd_chain (on_message (H0 := steady_ops) demo_cfg toy_hash toy_encode toy_decode toy_key demo_validator calm
    (MsgPrecommit last_precommit) waiting_engine waiting_node).2) = 1 ∧
  bc_height (nd_chain (drain (H0 := steady_ops) demo_cfg toy_hash toy_encode toy_decode toy_key demo_validator
    [(calm, MsgPropose stray_proposal); (calm, MsgPrecommit last_precommit)] waiting_engine waiting_node).2) = 0.
Proof.
  destruct (proposal_displaces_block (H0 := steady_ops) demo_cfg toy_hash toy_encode toy_decode toy_key demo_validator
    calm stray_proposal calm last_precommit waiting_engine waiting_node counted.1 certificate payments_block Block_genesis
    after_loop) as [E1 E2];
    [reflexivity|reflexivity|reflexivity|vm_compute; discriminate|discriminate|reflexivity|vm_compute; reflexivity
    |vm_compute; reflexivity|vm_compute; reflexivity|vm_compute; reflexivity|reflexivity|vm_compute; reflexivity
    |vm_compute; reflexivity|].
  split.
  - unfold bc_height. rewrite E1. vm_compute. reflexivity.
  - destruct (drain _ _ _ _ _ _ _ _ _) as [e' n']. destruct E2 as [E2 _]. simpl. rewrite E2. vm_compute. reflexivity.
Defined.

(** ** Appending *)

Lemma staked_chain_inv : chain_inv staked_chain.
Proof. apply (chain_inv_same demo_chain); [reflexivity|exact demo_chain_inv]. Qed.
Lemma waiting_engine_inv : engine_inv waiting_engine.
Proof.
  split; simpl; try done. split; simpl; [by split; intros [? ?]|by intros [? ?]|done].
Qed.
Definition appended : BftEngine * Node :=
  on_message (H0 := steady_ops) demo_cfg toy_hash toy_encode toy_decode toy_key demo_validator calm
    (MsgPrecommit last_precommit) waiting_engine waiting_node.

Lemma loop_appends_certified_witness :
  loop_inv demo_validator (Some appended.1, appended.2) ∧ bc_height (nd_chain appended.2) = 1 ∧
  own_effect (H0 := steady_ops) demo_cfg (Some waiting_engine, waiting_node) (Some appended.1, appended.2).
Proof.
  destruct (loop_appends_certified (H0 := steady_ops) demo_cfg toy_hash toy_encode toy_decode toy_key demo_validator
    (Some waiting_engine, waiting_node) (Some waiting_engine, waiting_node) (Some appended.1, appended.2)) as [Hi He].
  - split; [exact staked_chain_inv|]. split; [vm_compute; discriminate|]. cbn [engine_at fst snd].
    split_and!; [exact waiting_engine_inv|reflexivity|vm_compute; discriminate].
  - apply reach_start.
  - vm_compute. reflexivity.
  - apply (LMessage (H0 := steady_ops) demo_cfg toy_hash toy_encode toy_decode toy_key demo_validator calm (MsgPrecommit last_precommit));
      [exact I|unfold appended; by destruct (on_message _ _ _ _ _ _ _ _ _ _)].
  - split; [exact Hi|]. split; [vm_compute; reflexivity|exact He].
Defined.

(** ** The writer *)

Definition two_blocks : Blockchain := nd_chain appended.2.
Lemma two_blocks_inv : chain_inv two_blocks.
Proof.
  assert (E : ∃ b, bc_chain two_blocks = [Block_genesis; b] ∧ linked Block_genesis b).
  { eexists. split; [vm_compute; reflexivity|]. split; vm_compute; try reflexivity. discriminate. }
  destruct E as (b & E & Hl). split; rewrite E; [done|simpl; unfold CHAIN_WINDOW_SIZE; lia|].
  intros [|[|i]] x y Hx Hy; simpl in Hx, Hy; [|done..]. injection Hx as <-. injection Hy as <-. done.
Qed.

Lemma writer_stores_window_witness :
  ∃ b, get_block two_blocks 1 = Some b ∧
    load_block (writer_tick 0 true false two_blocks (mkWriter 0 0) empty_tables).2 1 = Ok (Some b).
Proof.
  pose proof (writer_stores_window 0 false two_blocks (mkWriter 0 0) empty_tables two_blocks_inv) as Hw.
  destruct (writer_tick 0 true false two_blocks (mkWriter 0 0) empty_tables) as [w' db'] eqn:E.
  destruct Hw as (_ & Hs & _); [vm_compute; split; [discriminate|reflexivity]|vm_compute; discriminate|].
  apply (Hs 1); vm_compute; [split; [reflexivity|discriminate]|discriminate].
Defined.
End loop_examples.
